(* ===== verification/_CoqProject ===== *)
-Q . S2P
Prelude.v
Rle.v
CborBuffering.v
Bytes.v
Crypto.v
Cid.v
CidText.v
Ipld.v
Datastore.v
Cursor.v
MerkleDag.v
Cbor.v
CborDecode.v
CborReads.v
CborCodec.v
CborStream.v
CborValues.v
CborStore.v
Peers.v
Dht.v
Status.v
MessageQueue.v
Marshalling.v
Extension.v
InboundEndpoint.v
LocalRequests.v
PeerContext.v
PeerProofs.v
Network.v
PeerSet.v
Graphsync.v
Delivery.v
Responder.v
Exchange.v
Node.v
NodeReturns.v
Reentry.v
Errors.v
Logger.v
Rpc.v
