(* ===== verification/Prelude.v ===== *)
(** * A verification of ipfs-lite-cpp

    The library models the core logic of ipfs-lite-cpp (the sources under
    [src/]) as executable definitions that follow the C++ function by function,
    and proves what the parts promise to each other and where they do not keep
    it.

    ** The program and the files

    The program exchanges content-addressed blocks between peers with the
    graphsync protocol over libp2p.

    - [Prelude.v] (this file): [outcome] is [IPFS::outcome::result], [attempt]
      adds the calls that throw; machine integers as [Z] with [wrap] (unsigned)
      and [swrap] (signed); byte vectors; the iteration order of ordered sets;
      the tactics and hints the files share.
    - [Rle.v]: [src/codec/rle], the RLE+ bit codec.
    - [Bytes.v]: [src/common], buffers, blobs, hexadecimal, integers as bytes.
    - [Crypto.v]: [src/crypto/blake2], both BLAKE2 implementations and their
      wrappers.
    - CBOR, [src/codec/cbor]: [Cbor.v] (the encoding stream and the items of the
      RFC), [CborDecode.v] (the decoding stream and [resolve]), [CborReads.v] (what
      each reader does in front of an item), [CborCodec.v] (both together),
      [CborValues.v] (big integers and buffers) and [CborStore.v] (values in a
      datastore under the CID of their encoding); [CborBuffering.v]: the framing of
      objects read in chunks, [src/common/libp2p/cbor_buffering.*], and
      [CborStream.v]: objects over a stream, [cbor_stream.*].
    - [Cid.v]: [src/primitives/cid], [src/codec/uvarint.hpp] and
      [src/crypto/hasher]: content identifiers and commitments; [CidText.v]: their
      text, their hash and lists of them in JSON.
    - [Peers.v]: [src/common/libp2p/multi] and [src/common/libp2p/peer], addresses
      and peers in CBOR; [Dht.v]: [src/ipfs_lite/dht], the wrapper of the DHT.
    - The graphsync stack, [src/ipfs_lite/ipfs/graphsync], bottom up:
      [Status.v] (codes and constants), [MessageQueue.v] ([MessageQueue] and
      [OutboundEndpoint]), [Marshalling.v] (parser, builders and stream readers),
      [Extension.v] (the payloads of the extensions),
      [InboundEndpoint.v] (responses), [LocalRequests.v] ([RequestIdGenerator]
      and [LocalRequests]), [PeerContext.v] and [PeerProofs.v] ([PeerContext]),
      [Network.v] ([Network]), [PeerSet.v] (the ordered set of contexts [Network]
      keeps, which refines the map of [Network.v]) and [Graphsync.v]
      ([GraphsyncImpl]).
    - Five files compose the stack: [Delivery.v], from the bytes of a stream to the
      callbacks of the user, [Exchange.v], two nodes from [makeRequest] at one over
      the task at the other and back, and [Node.v], [NodeReturns.v] and
      [Reentry.v], the runs of a node, over any network or over [Network.v].
    - [Errors.v]: the error categories of all the sources and their messages;
      [Logger.v]: [src/common/logger.cpp]; [Rpc.v]: the gRPC example.
    - [Ipld.v]: [src/ipfs_lite/ipld], nodes, links, blocks and the protobuf
      encoder; [Datastore.v]: [src/ipfs_lite/rocksdb] and the datastores and the
      block service of [src/ipfs_lite/ipfs]; [Cursor.v]: the interfaces of
      [src/ipfs_lite/face], the database object, its batches and its cursors;
      [MerkleDag.v]:
      [src/ipfs_lite/ipfs/merkledag]; [Responder.v]: [GraphsyncImpl] over the
      Merkle DAG service.

    A peer's context owns the streams to the peer; each stream has a reader, a
    message queue and a response endpoint, and one queue serves the requests
    endpoint.  The network owns the contexts; a [GraphsyncImpl] owns a
    [LocalRequests], is one of the network's feedback objects, and answers the
    requests of peers from a DAG service.  The Merkle DAG service reads and writes
    nodes through the [IpfsDatastore] interface.

    ** How the code is modelled

    A class is a [Record] with the names of its members; a method is a
    definition with its name (prefixed where two classes share it:
    [queue_enqueue], [ep_enqueue], [net_sendResponse], [g_onResponse]).  Methods
    of [PeerContext], [Network] and [GraphsyncImpl] are actions: functions of an
    environment (the scheduler's clock, which streams are closed for writing,
    which feedback objects are alive) and a state, with the calls that leave the
    object as a list of effects in order.  The composition is that of the source:
    an action of [Network] runs an action of a context, an action of
    [GraphsyncImpl] runs one of the network and receives the feedback calls among
    its effects while its own mutex is in the state it is in then.
    A message queue that three objects share lives in one store ([queues]), at
    the address of its stream; so do the status holders of the id generator.

    Code that is not in the repository is a parameter: [Multiformats] (libp2p's
    varints, multihashes and CID codec), [Protobuf] (the generated messages),
    the conversion between bits and blocks in [Rle.v].  The classes
    [MultiformatsLaws] and [ProtobufLaws] state the documented behaviour the
    round trips rely on; [Cid.Sample] and [Marshalling.SamplePb] are instances
    that satisfy them, used by the witnesses.  [Graphsync.NetworkOps] and
    [Graphsync.DagService] are the interfaces of the core module; the network of
    [Network.v] is an instance of the first, and the service of [MerkleDag.v] of
    the second ([Responder.merkle_dag]).  [Datastore.IpfsDatastore] is the
    interface of the stores and [Datastore.DatastoreLaws] what they promise, which
    the in-memory store, the RocksDB store on a healthy disk and the block service
    are shown to keep; the theorems of [MerkleDag.v] are proved against it.
    [Ipld.NodeProtobuf], [Datastore.RocksDB] and [Cursor.RocksIterators] are the
    protobuf runtime and the database, [Peers.Peers] libp2p's addresses and peer
    ids, [CidText.CidCodec] and [CidText.PropertyTree] the base encodings and
    boost's trees, [Hex.BoostHex] and [MpUtils.Multiprecision] (in [Bytes.v]) the
    algorithms of boost, [Cbor.TinyCborEncoder] and [CborDecode.TinyCborParser]
    the two halves of tinycbor; each has a class of laws and an instance that
    satisfies them ([Ipld.SampleNode], [Datastore.SampleStore],
    [Cursor.SampleCursor], [Peers.SamplePeers], [CidText.SampleText],
    [CidText.SampleJson], [Bytes.SampleBytes], [Cbor.SampleEncoder], [CborCodec.SampleParser]).  The laws
    of tinycbor's parser speak of well-formed input only: what it does with other
    input is proved on the instance, as examples.

    ** What is proved

    - Codecs: RLE+ decodes what it encodes, decoding any input is bounded; the
      CBOR framing does not depend on the chunks and ends exactly at the end of
      an object; CIDs, lists of CIDs in JSON, commitments and graphsync messages
      round trip.
    - CBOR: a stream that was built holds well-formed items, which its bytes
      determine; every value is encoded canonically and decoded to itself, over a
      stream in any chunks and through any datastore too; [resolve] finds the right
      element, and gives the right error for every other key; response
      metadata and lists of CIDs come back from their extensions, and every other
      extension gives the error it should, or is undefined; peers and addresses
      come back, and what libp2p refuses is its error.
    - Bytes: BLAKE2 is RFC 7693 however it is fed; hexadecimal and 128- and 256-bit
      integers round trip, 64-bit integers do not.
    - Queues: one write at a time, refinement of a FIFO, drainage, the bound on
      pending bytes; the readers never read more than the limit.
    - Responses: no block is lost, reordered or duplicated by the splitting; the
      task that answers a request makes exactly the specified calls on every
      branch.
    - Peer contexts: at most one terminal answer per request in any run; closing
      is complete, with a requests endpoint or without, and answers every request
      that any run awaits; the invariant that ties the maps together; the cleanup
      timer closes exactly the expired streams.
    - Network and core: the network's invariant, and that its stop closes every peer
      and answers every request it awaits ([Network.stop_closes_peers]); callbacks
      are called with a terminal status exactly once; request ids are fresh after any wrap-around; the cleanup of tracked requests is
      exact.
    - Nodes and stores: the cached block of a node is never stale; a node
      survives the wire up to the CIDs of its links; the RocksDB store and the
      block service refine the in-memory store; a fetched graph is the unfolding
      of its root to the depth, with a limit always, and without one whenever the
      graph has no infinite path; what a peer is answered from the store; a
      cursor whose read options let RocksDB's iterator range over all the entries
      walks over every entry once, in order; a batch has the effect of its writes.
    - DHT: the bootstrap nodes are the addresses grouped by peer; what is provided
      again is the last key only, an hour after the last time, until the first
      refusal.
    - The composition: an exchange whose response fits one message ends with the
      full status and the selected blocks, in order, at the user of the requester
      ([Exchange.exchange_completes]); one that does not fit ends as failed
      ([Delivery.response_in_parts]); a request for a CIDv1 is never completed
      ([Exchange.cidv1_request_unanswered]).  In any run of a node each progress
      callback is answered at most once per request, and exactly once when the node
      has stopped ([Node.node_callbacks]); every call returns, but for those that are
      named: a CID without a text in a log call, a CID without bytes in a request, a
      [makeRequest] that the network calls back, and a block at which the network
      throws ([NodeReturns.node_returns]); over [Network.v], a [makeRequest] locks its
      mutex twice exactly when its write fails at once and another request is awaited
      ([Reentry.make_request_deadlock]).
    - Errors: every error code but two converts to [true], every one has a message
      of its own but those named in [Errors.error_codes].
    - Behaviours that break a promise of the code, as theorems on the faithful
      definitions: among them [Reentry.make_request_deadlock],
      [Graphsync.cancelled_request_blocks_cid], [Delivery.response_in_parts],
      [Dht.provided_again], [Network.late_feedback_unheard],
      [PeerProofs.enqueue_on_closed_stream],
      [PeerProofs.partial_content_ends_request],
      [InboundEndpoint.message_over_limit],
      [Marshalling.unsupported_hash_throws], [MerkleDag.stored_node] (links lose
      the version and codec of their CID), [Ipld.node_size_accounts],
      [CborReads.decode_unchecked] and [Extension.dont_send_cids].

    ** Fuel and bounds

    [PeerContext.close_streams] has the number of streams as fuel, and each turn
    removes one; [LocalRequests.search_id] has one more than the number of active
    requests, and each turn passes one of them; the loops of [Rle.v] and
    [CborBuffering.v] have the length of their input; [MerkleDag.buildGraph] has
    the depth limit, or without one a bound that exists whenever the graph has no
    infinite path; [CborDecode.map_loop] has one more than the bytes of its input, and
    each entry takes a byte; [Cbor.parse_items], the reference parser, has the
    weight of the items.  The theorems about them say that the result is reached.
    A hypothesis of the form [length ops < 2^31], or the same of the requests of a
    run, keeps the [int32_t] counters of rejected requests from overflowing, which
    C++ leaves undefined.

    ** What is not modelled

    The user's callbacks are effects: what they call in turn is not followed.
    Threads are not interleaved inside an operation that holds its mutex.
    Logging is left out, but for the log calls of [GraphsyncImpl] that take the text
    of a CID, which can throw.  The order of [std::map< CID, Value >] is libp2p's; the in-memory
    store only needs that it tells CIDs apart.  Memory is not bounded, but for the
    largest size of a vector.  The state of a decoding stream after an exception,
    and of a CBOR stream after an error, is not followed.  [Exchange.v] has one
    request in flight between its nodes: what others do to the queues meanwhile is
    left to the theorems on the parts.  The base58 text of a peer id, which some log
    calls cut at its 46th character (two of them in [makeRequest]), is taken to be that
    long but in [PeerSet.v].  An object that is destroyed while one of its functions
    runs (an endpoint, by a write that fails at once) is used as if it were not.
    The visitor and wrapper templates, which the sources do not use, [to_int],
    [raise] and the output operators are left out: they only rename calls of boost
    and of the standard library.  The classes gRPC generates, libp2p, protobuf,
    RocksDB, tinycbor, property trees and spdlog are parameters or effects. *)
From stdpp Require Import base numbers list gmap sets strings sorting.

Open Scope Z_scope.

(** ** Results: [IPFS::outcome::result<T>] *)

Inductive outcome (E A : Type) : Type :=
| success (a : A)
| failure (e : E).
Arguments success {E A} a.
Arguments failure {E A} e.

(** [BOOST_OUTCOME_TRY( auto x, c ); k] is written [x ← c; k]. *)
#[export] Instance outcome_ret {E} : MRet (outcome E) := λ A a, success a.
#[export] Instance outcome_bind {E} : MBind (outcome E) := λ A B f c,
  match c with success a => f a | failure e => failure e end.
#[export] Instance outcome_fmap {E} : FMap (outcome E) := λ A B f c,
  match c with success a => success (f a) | failure e => failure e end.

Definition is_success {E A} (r : outcome E A) : bool :=
  match r with success _ => true | failure _ => false end.

#[export] Instance outcome_eq_dec {E A} `{EqDecision E, EqDecision A} :
  EqDecision (outcome E A).
Proof. solve_decision. Defined.

Lemma success_inj {E A} (a b : A) : @success E A a = success b → a = b.
Proof. congruence. Qed.

Lemma outcome_bind_success {E A B} (c : outcome E A) (f : A → outcome E B) (b : B) :
  (c ≫= f) = success b ↔ ∃ a, c = success a ∧ f a = success b.
Proof. destruct c as [a|e]; cbn; naive_solver. Qed.

Lemma outcome_bind_failure {E A B} (c : outcome E A) (f : A → outcome E B) (e : E) :
  (c ≫= f) = failure e ↔ c = failure e ∨ ∃ a, c = success a ∧ f a = failure e.
Proof. destruct c as [a|e']; cbn; naive_solver. Qed.

(** A call that may also not return: an exception leaves it, or a contract of a
    library ends the process. *)
Inductive attempt (E A : Type) : Type :=
| returned (a : A)
| failed (e : E)
| thrown.
Arguments returned {E A} a.
Arguments failed {E A} e.
Arguments thrown {E A}.

#[export] Instance attempt_ret {E} : MRet (attempt E) := λ A a, returned a.
#[export] Instance attempt_bind {E} : MBind (attempt E) := λ A B f c,
  match c with returned a => f a | failed e => failed e | thrown => thrown end.

#[export] Instance attempt_eq_dec {E A} `{EqDecision E, EqDecision A} :
  EqDecision (attempt E A).
Proof. solve_decision. Defined.

Definition attempt_of {E A} (r : outcome E A) : attempt E A :=
  match r with success a => returned a | failure e => failed e end.

(** ** Machine integers *)

(** A [w]-bit unsigned integer is a [Z] reduced by [wrap w]; the arithmetic of
    the source on [uint8_t] ... [uint64_t] and [size_t] is the arithmetic of [Z]
    followed by [wrap]. *)
Definition wrap (w x : Z) : Z := x mod 2 ^ w.

(** A [w]-bit two's complement integer: the representative in
    [[-2^(w-1), 2^(w-1))]. *)
Definition swrap (w x : Z) : Z := (x + 2 ^ (w - 1)) mod 2 ^ w - 2 ^ (w - 1).

Abbreviation u8 := (wrap 8).
Abbreviation u64 := (wrap 64).
Abbreviation i32 := (swrap 32).

(** Bytes are integers of [[0, 256)]; a byte vector is a list of them. *)
Abbreviation bytes := (list Z).
Definition is_byte (b : Z) : Prop := 0 ≤ b < 256.

Definition size {A} (l : list A) : Z := Z.of_nat (length l).

Lemma wrap_bound w x : 0 ≤ w → 0 ≤ wrap w x < 2 ^ w.
Proof. intros. apply Z.mod_pos_bound. lia. Qed.

Lemma wrap_small w x : 0 ≤ x < 2 ^ w → wrap w x = x.
Proof. apply Z.mod_small. Qed.

Lemma wrap_add_l w x y : wrap w (wrap w x + y) = wrap w (x + y).
Proof. unfold wrap. apply Zplus_mod_idemp_l. Qed.

Lemma wrap_add_r w x y : wrap w (x + wrap w y) = wrap w (x + y).
Proof. unfold wrap. apply Zplus_mod_idemp_r. Qed.

Lemma wrap_sub_l w x y : wrap w (wrap w x - y) = wrap w (x - y).
Proof. unfold wrap. apply Zminus_mod_idemp_l. Qed.

Lemma wrap_lxor w x y : 0 ≤ w → wrap w (Z.lxor x y) = Z.lxor (wrap w x) (wrap w y).
Proof.
  intros Hw. apply Z.bits_inj'. intros i Hi. unfold wrap. rewrite Z.lxor_spec.
  destruct (Z_lt_ge_dec i w); [by rewrite !Z.mod_pow2_bits_low, Z.lxor_spec by lia|].
  by rewrite !Z.mod_pow2_bits_high by lia.
Qed.

Lemma wrap_0 w : wrap w 0 = 0.
Proof. apply Zmod_0_l. Qed.

Lemma wrap_self w : wrap w (2 ^ w) = 0.
Proof. apply Z_mod_same_full. Qed.

Lemma size_nil {A} : size (@nil A) = 0.
Proof. done. Qed.

Lemma size_cons {A} (x : A) l : size (x :: l) = size l + 1.
Proof. unfold size. cbn [length]. lia. Qed.

Lemma size_app {A} (l k : list A) : size (l ++ k) = size l + size k.
Proof. unfold size. rewrite length_app. lia. Qed.

Lemma size_nonneg {A} (l : list A) : 0 ≤ size l.
Proof. unfold size. lia. Qed.

(** ** Lists as sets: the iteration order of [std::set] and [std::map] *)

(** [sorted_elements s] lists a set in the increasing order in which a
    [std::set] of integers is iterated. *)
Definition sorted_elements (s : gset Z) : list Z := merge_sort Z.le (elements s).

Lemma elem_of_sorted_elements s x : x ∈ sorted_elements s ↔ x ∈ s.
Proof. unfold sorted_elements. rewrite merge_sort_Permutation. apply elem_of_elements. Qed.

Lemma NoDup_sorted_elements s : NoDup (sorted_elements s).
Proof. unfold sorted_elements. rewrite merge_sort_Permutation. apply NoDup_elements. Qed.

Lemma length_sorted_elements s : length (sorted_elements s) = base.size s.
Proof. unfold sorted_elements. by rewrite merge_sort_Permutation. Qed.

Lemma sorted_elements_lt s : StronglySorted Z.lt (sorted_elements s).
Proof.
  pose proof (NoDup_sorted_elements s) as HN. revert HN.
  assert (StronglySorted Z.le (sorted_elements s)) as HS.
  { apply StronglySorted_merge_sort; [intros ???; lia|]. intros ??; lia. }
  revert HS. generalize (sorted_elements s).
  induction l as [|x l IH]; intros HS HN; [constructor|].
  apply StronglySorted_inv in HS as [HS HF]. apply NoDup_cons in HN as [Hx HN].
  constructor; [by apply IH|]. rewrite Forall_forall in HF |- *.
  intros y Hy. specialize (HF y Hy). assert (x ≠ y) by (intros ->; done). lia.
Qed.

(** The lexicographic order of byte vectors and of [std::string]. *)
Fixpoint bytes_less (a b : bytes) : bool :=
  match a, b with
  | _, [] => false
  | [], _ :: _ => true
  | x :: a, y :: b => (x <? y) || ((x =? y) && bytes_less a b)
  end.

Definition bytes_le (a b : bytes) : Prop := bytes_less b a = false.
#[export] Instance bytes_le_dec : RelDecision bytes_le.
Proof. intros a b. unfold bytes_le. apply _. Defined.

(** The entries of a [std::map] keyed by bytes, and the elements of a [std::set]
    of them, in iteration order. *)
Definition key_le {A} (a b : bytes * A) : Prop := bytes_le a.1 b.1.
#[export] Instance key_le_dec {A} : RelDecision (@key_le A).
Proof. intros a b. unfold key_le. apply _. Defined.
Definition map_entries {A} (m : gmap bytes A) : list (bytes * A) := merge_sort key_le (map_to_list m).
Definition set_entries (s : gset bytes) : list bytes := merge_sort bytes_le (elements s).

Lemma map_entries_perm {A} (m : gmap bytes A) : map_entries m ≡ₚ map_to_list m.
Proof. apply merge_sort_Permutation. Qed.

Lemma set_entries_perm s : set_entries s ≡ₚ elements s.
Proof. apply merge_sort_Permutation. Qed.

Lemma bytes_le_nil a : bytes_le [] a.
Proof. by destruct a. Qed.

Lemma bytes_le_cons x y a b : bytes_le (x :: a) (y :: b) ↔ x < y ∨ x = y ∧ bytes_le a b.
Proof. unfold bytes_le. cbn [bytes_less]. rewrite orb_false_iff, andb_false_iff, Z.ltb_ge, Z.eqb_neq. destruct (bytes_less b a); naive_solver lia. Qed.

#[export] Instance bytes_le_total : Total bytes_le.
Proof.
  intros a. induction a as [|x a IH]; intros [|y b]; try (by left) || (by right).
  rewrite !bytes_le_cons. destruct (Z.lt_trichotomy x y) as [|[->|]]; [by left; left| |by right; left].
  destruct (IH b); [left|right]; by right.
Qed.

#[export] Instance bytes_le_trans : Transitive bytes_le.
Proof.
  intros a. induction a as [|x a IH]; intros [|y b] [|z c]; try done.
  rewrite !bytes_le_cons. intros [?|[-> ?]] [?|[-> ?]]; [left; lia|by left|by left|right]. split; [done|by apply IH with b].
Qed.

#[export] Instance bytes_le_antisymm : AntiSymm (=) bytes_le.
Proof.
  intros a. induction a as [|x a IH]; intros [|y b]; try done.
  rewrite !bytes_le_cons. intros [?|[-> ?]] [?|[? ?]]; [lia..|]. f_equal. by apply IH.
Qed.

Lemma bytes_less_irrefl a : bytes_less a a = false.
Proof. induction a as [|x a IH]; [done|]. cbn. rewrite IH, Z.ltb_irrefl, Z.eqb_refl. done. Qed.

Lemma bytes_less_app h a b : bytes_less (h ++ a) (h ++ b) = bytes_less a b.
Proof. induction h as [|x h IH]; [done|]. cbn. by rewrite IH, Z.ltb_irrefl, Z.eqb_refl. Qed.

Lemma bytes_less_trans a b c : bytes_less a b = true → bytes_less b c = true → bytes_less a c = true.
Proof.
  revert b c. induction a as [|x a IH]; intros [|y b] [|z c]; cbn; try done. intros H1 H2.
  destruct (Z.ltb_spec x y), (Z.ltb_spec y z), (Z.ltb_spec x z), (Z.eqb_spec x y), (Z.eqb_spec y z), (Z.eqb_spec x z); cbn in *; try lia; try done.
  by apply (IH b).
Qed.

Lemma bytes_less_total a b : a ≠ b → bytes_less a b = false → bytes_less b a = true.
Proof.
  intros Hne Hf. destruct (bytes_less b a) eqn:Hb; [done|]. exfalso. apply Hne. by apply (anti_symm bytes_le).
Qed.

#[export] Instance key_le_total {A} : Total (@key_le A).
Proof. intros a b. apply bytes_le_total. Qed.
#[export] Instance key_le_trans {A} : Transitive (@key_le A).
Proof. intros a b c. apply bytes_le_trans. Qed.

Lemma map_entries_lookup {A} (m : gmap bytes A) k x : (k, x) ∈ map_entries m ↔ m !! k = Some x.
Proof. rewrite map_entries_perm. apply elem_of_map_to_list. Qed.

(** Sorted by key, a map has one list of entries. *)
Lemma map_entries_unique {A} (m : gmap bytes A) l : StronglySorted key_le l → l ≡ₚ map_to_list m → map_entries m = l.
Proof.
  intros Hs Hp. apply (StronglySorted_unique_strong key_le); [|by apply StronglySorted_merge_sort; apply _|done|by rewrite map_entries_perm, Hp].
  intros [k x] [k' x'] H1 H2 Hle Hle'. assert (k = k') as <- by (by apply (anti_symm bytes_le)).
  rewrite Hp, elem_of_map_to_list in H2. apply map_entries_lookup in H1. congruence.
Qed.

Lemma map_entries_fmap {A B} (f : A → B) (m : gmap bytes A) :
  map_entries (f <$> m) = prod_map id f <$> map_entries m.
Proof.
  apply map_entries_unique.
  - assert (StronglySorted key_le (map_entries m)) as Hs by (apply StronglySorted_merge_sort; apply _).
    induction Hs as [|[k x] l _ IH HF]; cbn; constructor; [done|]. apply Forall_fmap. eapply Forall_impl; [exact HF|]. by intros [??].
  - rewrite map_to_list_fmap. by rewrite map_entries_perm.
Qed.

Lemma filter_all {A} (P : A → Prop) `{∀ x, Decision (P x)} l : Forall P l → filter P l = l.
Proof. induction 1 as [|x l Hx _ IH]; [done|]. by rewrite filter_cons_True, IH. Qed.

(** A map whose values are all images is the image of a map. *)
Lemma map_lift {K A B} `{Countable K} (f : A → B) (Q : A → Prop) (m : gmap K B) :
  (∀ k y, m !! k = Some y → ∃ x, y = f x ∧ Q x) → ∃ m', m = f <$> m' ∧ map_Forall (λ _ x, Q x) m'.
Proof.
  induction m as [|k y m Hk IH] using map_ind; intros Hm.
  - exists ∅. split; [by rewrite fmap_empty|apply map_Forall_empty].
  - destruct (Hm k y) as (x & -> & Hx); [apply lookup_insert_eq|]. destruct IH as (m' & -> & Hm').
    { intros k' y' Hy'. apply (Hm k'). rewrite lookup_insert_ne; [done|]. intros ->. congruence. }
    exists (<[k := x]> m'). split; [by rewrite fmap_insert|]. by apply map_Forall_insert_2.
Qed.

(** ** Automation *)

Create HintDb graphsync discriminated.
#[export] Hint Resolve size_nonneg wrap_0 NoDup_sorted_elements sorted_elements_lt : graphsync.
Create Rewrite HintDb graphsync.
#[export] Hint Rewrite @size_nil @size_cons @size_app wrap_add_l wrap_add_r wrap_sub_l : graphsync.

(** Split a hypothesis or a goal on the conditions it tests. *)
Ltac case_all :=
  repeat first
    [ progress simplify_eq/=
    | case_match
    | case_decide
    | progress destruct_and? ].

(** Arithmetic after the sizes and the wrap-arounds are normalised. *)
Ltac size_lia := autorewrite with graphsync in *; lia.
