(* ===== verification/Rle.v ===== *)
(** RLE+ codec, [src/codec/rle]: the encoding stream, the decoding stream and
    the wrappers [encode]/[decode] of [rle_plus.hpp].

    The template parameter [T] is an unsigned integer type of [w] bits
    (the tests instantiate 8, 16, 32 and 64); its arithmetic wraps.  The bit
    container is the sequence of its bits, a [list bool]; the conversions
    between a bit sequence and its blocks ([boost::to_block_range] and the
    [dynamic_bitset] block constructor) are library code, the parameters
    [to_blocks] and [of_blocks]. *)
From stdpp Require Import base numbers list gmap sorting.
From S2P Require Import Prelude.

Open Scope Z_scope.

(** *** [rle_plus_config.hpp] *)

Definition SMALL_BLOCK_LENGTH : nat := 4.
Definition PACK_BYTE_SHIFT : Z := 7.
Definition BYTE_BITS_COUNT : nat := 8.
Definition LONG_BLOCK_VALUE : Z := 0x10.
Definition UNPACK_BYTE_MASK : Z := 0x7F.
Definition BYTE_SLICE_VALUE : Z := 0x80.
Definition OBJECT_MAX_SIZE : Z := 0x100000.

(** *** [rle_plus_errors.hpp] *)

Inductive RLEPlusDecodeError :=
| VersionMismatch
| DataIndexFailure
| UnpackOverflow
| MaxSizeExceed.

#[export] Instance RLEPlusDecodeError_eq_dec : EqDecision RLEPlusDecodeError.
Proof. solve_decision. Defined.

Definition RLEPlusDecodeError_code (e : RLEPlusDecodeError) : Z :=
  match e with
  | VersionMismatch => 1
  | DataIndexFailure => 2
  | UnpackOverflow => 3
  | MaxSizeExceed => 4
  end.

(** ** The encoding stream *)

Section codec.
Context (w : Z).

(** [( block & ( 1 << i ) ) >> i], converted to [bool]. *)
Definition bit_at (x : Z) (i : nat) : bool :=
  negb (Z.shiftr (Z.land x (Z.shiftl 1 (Z.of_nat i))) (Z.of_nat i) =? 0).

(** [periods.back()++]; the vector is never empty there. *)
Definition back_increment (periods : list Z) : list Z :=
  match reverse periods with
  | [] => []
  | b :: front => reverse front ++ [wrap w (b + 1)]
  end.

(** The loop of [getPeriods] over the elements after the first. *)
Fixpoint periods_loop (prev : Z) (periods rest : list Z) : list Z :=
  match rest with
  | [] => periods
  | x :: rest =>
      let diff := wrap w (x - prev) in
      let periods := if diff =? 1 then back_increment periods else periods in
      let periods := if 1 <? diff then (periods ++ [wrap w (diff - 1)]) ++ [1] else periods in
      periods_loop x periods rest
  end.

(** [data] is the sequence in which the [std::set] is iterated. *)
Definition getPeriods (data : list Z) : list Z :=
  let prev := match data with x :: _ => x | [] => 0 end in
  let periods := if prev =? 0 then [] else [prev] in
  match data with
  | [] => periods
  | _ :: rest => periods_loop prev (periods ++ [1]) rest
  end.

Definition initContent : list bool := [false; false].

Definition pushByte (content : list bool) (byte : Z) : list bool :=
  content ++ map (bit_at byte) (seq 0 BYTE_BITS_COUNT).

Definition pushSmallBlock (content : list bool) (block : Z) : list bool :=
  content ++ [false; true] ++ map (bit_at block) (seq 0 SMALL_BLOCK_LENGTH).

(** The [while] loop of [pushLongBlock].  [fuel] bounds the iterations: each one
    drops seven bits of [slice], so the bit width [w] of [T] is enough. *)
Fixpoint pushLong_loop (fuel : nat) (content : list bool) (slice : Z) : list bool :=
  match fuel with
  | O => content
  | S fuel =>
      if BYTE_SLICE_VALUE <=? slice then
        pushLong_loop fuel (pushByte content (u8 (Z.lor slice BYTE_SLICE_VALUE)))
          (Z.shiftr slice PACK_BYTE_SHIFT)
      else pushByte content (u8 slice)
  end.

Definition pushLongBlock (content : list bool) (block : Z) : list bool :=
  pushLong_loop (Z.to_nat w) (content ++ [false; false]) block.

Definition pushPeriod (content : list bool) (value : Z) : list bool :=
  if value =? 1 then content ++ [true]
  else if value <? LONG_BLOCK_VALUE then pushSmallBlock content value
  else pushLongBlock content value.

(** [RLEPlusEncodingStream::operator<<]: the resulting [content_]. *)
Definition encode_stream (input : list Z) : list bool :=
  let periods := getPeriods input in
  let flag := match input with x :: _ => x =? 0 | [] => false end in
  fold_left pushPeriod periods (initContent ++ [flag]).

(** ** The decoding stream *)

Record DecodingStream := mkDecodingStream {
  index_ : nat;
  magnitude_ : bool;
  content_ : list bool
}.

Definition set_magnitude (m : bool) (d : DecodingStream) : DecodingStream :=
  mkDecodingStream (index_ d) m (content_ d).

(** [getSpan<uint8_t>( count )]: the bits [[index_, index_ + count)], least
    significant first. *)
Fixpoint span_value (shift : Z) (bits : list bool) : Z :=
  match bits with
  | [] => 0
  | b :: bits => Z.lor (u8 (Z.shiftl (if b then 1 else 0) shift)) (span_value (shift + 1) bits)
  end.

Definition getSpan (count : nat) (d : DecodingStream) :
    outcome RLEPlusDecodeError (Z * DecodingStream) :=
  if decide (length (content_ d) < index_ d + count)%nat then failure DataIndexFailure
  else success (span_value 0 (take count (drop (index_ d) (content_ d))),
                mkDecodingStream (index_ d + count) (magnitude_ d) (content_ d)).

(** [content_.find_next( index_ - 1 ) != npos]: a set bit at [index_] or later. *)
Definition has_next (d : DecodingStream) : bool :=
  existsb (λ b, b) (drop (index_ d) (content_ d)).

(** [for ( i = 0; i < length; ++i ) output.insert( current_value++ );] *)
Fixpoint insert_run (length : nat) (current_value : Z) (output : gset Z) : Z * gset Z :=
  match length with
  | O => (current_value, output)
  | S length => insert_run length (wrap w (current_value + 1)) ({[current_value]} ∪ output)
  end.

Definition decodeSingleBlock (d : DecodingStream) (current_value : Z) (output : gset Z) :=
  (set_magnitude (negb (magnitude_ d)) d,
   wrap w (current_value + 1),
   if magnitude_ d then {[current_value]} ∪ output else output).

(** The common tail of [decodeSmallBlock] and [decodeLongBlock]. *)
Definition decodeRun (length : Z) (d : DecodingStream) (current_value : Z) (output : gset Z) :=
  let '(current_value, output) :=
    if magnitude_ d then insert_run (Z.to_nat length) current_value output
    else (wrap w (current_value + length), output) in
  (set_magnitude (negb (magnitude_ d)) d, current_value, output).

Definition decodeSmallBlock (d : DecodingStream) (current_value : Z) (output : gset Z) :=
  '(length, d) ← getSpan SMALL_BLOCK_LENGTH d;
  mret (decodeRun length d current_value output).

(** The [do ... while] loop that collects the packed bytes.  [fuel] is the
    number of bits left: each iteration consumes eight of them. *)
Fixpoint long_bytes (fuel : nat) (d : DecodingStream) (bytes : list Z) :
    outcome RLEPlusDecodeError (list Z * DecodingStream) :=
  match fuel with
  | O => failure DataIndexFailure
  | S fuel =>
      '(slice, d) ← getSpan BYTE_BITS_COUNT d;
      let bytes := bytes ++ [slice] in
      if Z.land slice BYTE_SLICE_VALUE =? 0 then mret (bytes, d)
      else long_bytes fuel d bytes
  end.

(** [unpack<T>]. *)
Fixpoint unpack_loop (value shift : Z) (data : list Z) : outcome RLEPlusDecodeError Z :=
  match data with
  | [] => mret value
  | byte :: data =>
      if w <? shift then failure UnpackOverflow
      else if byte <? BYTE_SLICE_VALUE then
        mret (wrap w (Z.lor value (Z.shiftl byte shift)))
      else
        unpack_loop (wrap w (Z.lor value (Z.shiftl (Z.land byte UNPACK_BYTE_MASK) shift)))
          (shift + PACK_BYTE_SHIFT) data
  end.

Definition unpack (data : list Z) : outcome RLEPlusDecodeError Z := unpack_loop 0 0 data.

Definition decodeLongBlock (d : DecodingStream) (current_value : Z) (output : gset Z) :=
  '(bytes, d) ← long_bytes (S (length (content_ d))) d [];
  length ← unpack bytes;
  mret (decodeRun length d current_value output).

Definition decodeBlock (d : DecodingStream) (value : Z) (output : gset Z) :=
  '(header, d) ← getSpan 1 d;
  if header =? 1 then mret (decodeSingleBlock d value output)
  else
    '(block_header, d) ← getSpan 1 d;
    if block_header =? 0 then decodeLongBlock d value output
    else decodeSmallBlock d value output.

(** The main loop of [operator>>].  Each iteration consumes a bit, so the number
    of bits is enough fuel. *)
Fixpoint decode_loop (fuel : nat) (d : DecodingStream) (value : Z) (output : gset Z) :
    outcome RLEPlusDecodeError (gset Z) :=
  match fuel with
  | O => mret output
  | S fuel =>
      if has_next d then
        '(d, value, output) ← decodeBlock d value output;
        decode_loop fuel d value output
      else mret output
  end.

(** [RLEPlusDecodingStream::operator>>] on a bit sequence.  The exceptions of
    [rle_plus_errors.hpp] are the error codes [decode] maps them to. *)
Definition decode_stream (content : list bool) : outcome RLEPlusDecodeError (gset Z) :=
  let d := mkDecodingStream 0 false content in
  if decide (length (content_ d) < SMALL_BLOCK_LENGTH)%nat then failure VersionMismatch
  else
    '(version, d) ← getSpan 2 d;
    if negb (version =? 0) then failure VersionMismatch
    else
      '(magnitude, d) ← getSpan 1 d;
      let d := set_magnitude (magnitude =? 1) d in
      output ← decode_loop (length content) d 0 ∅;
      let max_size := OBJECT_MAX_SIZE `div` (w `div` 8) in
      if max_size <? Z.of_nat (base.size output) then failure MaxSizeExceed
      else mret output.

(** ** [rle_plus.hpp] *)

Context (to_blocks : list bool → bytes) (of_blocks : bytes → list bool).

Definition encode (input : gset Z) : bytes := to_blocks (encode_stream (sorted_elements input)).

Definition decode (input : bytes) : outcome RLEPlusDecodeError (gset Z) :=
  decode_stream (of_blocks input).

End codec.

(** ** Bit-level lemmas *)

Definition span_roundtrip (n : nat) (b : Z) : bool :=
  span_value 0 (map (bit_at b) (seq 0 n)) =? b.

Lemma span_small b : 0 ≤ b < 16 → span_value 0 (map (bit_at b) (seq 0 4)) = b.
Proof.
  intros Hb. assert (forallb (span_roundtrip 4) (seqZ 0 16) = true) as H by (vm_compute; done).
  rewrite forallb_forall in H. apply Z.eqb_eq, H, list_elem_of_In, elem_of_seqZ. lia.
Qed.

Lemma span_byte b : is_byte b → span_value 0 (map (bit_at b) (seq 0 8)) = b.
Proof.
  intros Hb. assert (forallb (span_roundtrip 8) (seqZ 0 256) = true) as H by (vm_compute; done).
  rewrite forallb_forall in H. apply Z.eqb_eq, H, list_elem_of_In, elem_of_seqZ.
  unfold is_byte in Hb. lia.
Qed.

Lemma bit_at_testbit x i : bit_at x i = Z.testbit x (Z.of_nat i).
Proof.
  unfold bit_at. rewrite Z.shiftr_land, Z.shiftr_shiftl_l, Z.sub_diag by lia.
  change (Z.shiftl 1 0) with (Z.ones 1). rewrite Z.land_ones by lia.
  change (2 ^ 1) with 2. rewrite <- Z.bit0_mod, Z.shiftr_spec, Z.add_0_l by lia.
  by destruct (Z.testbit x (Z.of_nat i)).
Qed.

Lemma some_bit n b : 0 < b < 2 ^ Z.of_nat n → existsb (λ c, c) (map (bit_at b) (seq 0 n)) = true.
Proof.
  intros [Hb Hlt]. apply existsb_exists. exists true. split; [|done].
  apply in_map_iff. exists (Z.to_nat (Z.log2 b)). pose proof (Z.log2_nonneg b).
  rewrite bit_at_testbit, Z2Nat.id by done. split; [by apply Z.bit_log2|].
  apply in_seq. assert (Z.log2 b < Z.of_nat n) by (apply Z.log2_lt_pow2; lia). lia.
Qed.

(** *** Reading a known prefix of the remaining bits *)

Definition rem (d : DecodingStream) : list bool := drop (index_ d) (content_ d).

Definition advanced (d d' : DecodingStream) (rest : list bool) : Prop :=
  rem d' = rest ∧ magnitude_ d' = magnitude_ d ∧ content_ d' = content_ d.

Lemma getSpan_rem bits rest d :
  bits ≠ [] → rem d = bits ++ rest →
  ∃ d', getSpan (length bits) d = success (span_value 0 bits, d') ∧ advanced d d' rest.
Proof.
  intros Hn Hrem. unfold getSpan.
  assert (length (rem d) = length (content_ d) - index_ d)%nat as Hl by apply length_drop.
  rewrite Hrem, length_app in Hl. unfold rem in Hrem. rewrite Hrem, take_app_length.
  destruct bits as [|b bits]; [done|]. cbn [length] in *.
  case_decide as Hd; [lia|].
  eexists. split; [done|]. unfold advanced, rem; cbn [index_ content_ magnitude_].
  split; [|done]. rewrite <- drop_drop, Hrem. apply (drop_app_length (b :: bits)).
Qed.

(** ** Long blocks *)

Section long.
Context (w : Z) (Hw : 8 ≤ w).

(** The bytes that [pushLong_loop] writes. *)
Fixpoint pack (fuel : nat) (slice : Z) : list Z :=
  match fuel with
  | O => []
  | S fuel =>
      if BYTE_SLICE_VALUE <=? slice then
        u8 (Z.lor slice BYTE_SLICE_VALUE) :: pack fuel (Z.shiftr slice PACK_BYTE_SHIFT)
      else [u8 slice]
  end.

Definition byte_bits (b : Z) : list bool := map (bit_at b) (seq 0 8).

Lemma pushLong_pack fuel content x :
  pushLong_loop fuel content x = content ++ concat (map byte_bits (pack fuel x)).
Proof.
  revert content x. induction fuel as [|fuel IH]; intros content x; cbn [pushLong_loop pack].
  { by rewrite app_nil_r. }
  case_match; cbn [map concat].
  - rewrite IH. unfold pushByte, byte_bits. by rewrite app_assoc.
  - by rewrite app_nil_r.
Qed.

Definition continues (b : Z) : Prop := 128 ≤ b < 256.

Lemma continues_land b : is_byte b → Z.land b 128 = 0 ↔ b < 128.
Proof.
  intros Hb. assert (forallb (λ b, Bool.eqb (Z.land b 128 =? 0) (b <? 128)) (seqZ 0 256) = true)
    as H by (vm_compute; done).
  rewrite forallb_forall in H. specialize (H b).
  rewrite Bool.eqb_true_iff in H. unfold is_byte in Hb.
  rewrite <- Z.eqb_eq, <- Z.ltb_lt, H; [done|]. apply list_elem_of_In, elem_of_seqZ. lia.
Qed.

Lemma high_byte x : 128 ≤ x →
  continues (u8 (Z.lor x 128)) ∧ Z.land (u8 (Z.lor x 128)) 127 = x mod 128.
Proof.
  intros Hx. assert (u8 (Z.lor x 128) = Z.lor (x mod 128) 128) as ->.
  { unfold wrap. change 128 with (2 ^ 7) at 2. rewrite <- !Z.land_ones by lia.
    apply Z.bits_inj'. intros n Hn. rewrite ?Z.land_spec, ?Z.lor_spec, ?Z.land_spec.
    change 128 with (2 ^ 7). rewrite !Z.testbit_ones, !Z.pow2_bits_eqb by lia.
    destruct (Z.testbit x n), (Z.eqb_spec 7 n), (Z.ltb_spec n 8), (Z.ltb_spec n 7), (Z.leb_spec 0 n);
      cbn; lia || done. }
  pose proof (Z.mod_pos_bound x 128 ltac:(lia)) as Hb. revert Hb. generalize (x mod 128). clear.
  intros b Hb. assert (forallb (λ b, (128 <=? Z.lor b 128) && (Z.lor b 128 <? 256) &&
      (Z.land (Z.lor b 128) 127 =? b)) (seqZ 0 128) = true) as H by (vm_compute; done).
  rewrite forallb_forall in H. specialize (H b).
  rewrite list_elem_of_In, elem_of_seqZ in H || rewrite <- list_elem_of_In, elem_of_seqZ in H.
  specialize (H ltac:(lia)). unfold continues. lia.
Qed.

(** A packed number is a run of continuation bytes and a final small byte. *)
Lemma pack_shape fuel x : 0 ≤ x < 2 ^ (7 * Z.of_nat fuel) → (0 < fuel)%nat →
  ∃ front last, pack fuel x = front ++ [last] ∧ Forall continues front ∧ 0 ≤ last < 128.
Proof.
  revert x. induction fuel as [|fuel IH]; intros x Hx Hf; [lia|]. cbn [pack].
  destruct (Z.leb_spec BYTE_SLICE_VALUE x) as [Hle|Hlt]; unfold BYTE_SLICE_VALUE in *.
  - destruct (IH (Z.shiftr x 7)) as (front & last & Heq & HF & Hl).
    { rewrite Z.shiftr_div_pow2 by lia. split; [apply Z.div_pos; lia|].
      apply Z.div_lt_upper_bound; [lia|]. rewrite <- Z.pow_add_r by lia.
      replace (7 + 7 * Z.of_nat fuel) with (7 * Z.of_nat (S fuel)) by lia. lia. }
    { destruct fuel; [|lia]. change (2 ^ (7 * Z.of_nat 1)) with 128 in Hx. lia. }
    exists (u8 (Z.lor x 128) :: front), last. change PACK_BYTE_SHIFT with 7. rewrite Heq.
    split; [done|]. split; [|done]. constructor; [|done]. by apply high_byte.
  - exists [], (u8 x). unfold wrap. rewrite Z.mod_small by lia. auto with lia.
Qed.

(** The reader takes exactly the bytes of a packed number. *)
Lemma long_bytes_spec front last rest d acc fuel :
  Forall continues front → 0 ≤ last < 128 → (length front < fuel)%nat →
  rem d = concat (map byte_bits (front ++ [last])) ++ rest →
  ∃ d', long_bytes fuel d acc = success (acc ++ front ++ [last], d') ∧ advanced d d' rest.
Proof.
  intros HF Hl. revert d acc fuel. induction HF as [|b front Hb HF IH]; intros d acc [|fuel] Hfuel Hrem;
    cbn [length] in Hfuel; try lia; cbn [long_bytes app map concat] in *; rewrite <- app_assoc in Hrem.
  - destruct (getSpan_rem (byte_bits last) rest d) as (d' & Heq & Hadv); [done|done|].
    unfold byte_bits in Heq. rewrite length_map, length_seq in Heq.
    unfold BYTE_BITS_COUNT. rewrite Heq. cbn [mbind outcome_bind].
    rewrite span_byte by (unfold is_byte; lia).
    exists d'. split; [|done]. case_match eqn:Hland; [done|].
    apply Z.eqb_neq in Hland. destruct Hland. apply continues_land; unfold is_byte; lia.
  - destruct (getSpan_rem (byte_bits b) (concat (map byte_bits (front ++ [last])) ++ rest) d)
      as (d' & Heq & Hr & Hm & Hc); [done|done|].
    unfold byte_bits in Heq. rewrite length_map, length_seq in Heq.
    unfold BYTE_BITS_COUNT. rewrite Heq. cbn [mbind outcome_bind].
    unfold continues in Hb. rewrite span_byte by (unfold is_byte; lia).
    case_match eqn:Hland.
    { apply Z.eqb_eq, continues_land in Hland; unfold is_byte; lia. }
    destruct (IH d' (acc ++ [b]) fuel) as (d'' & -> & Hr' & Hm' & Hc'); [lia|done|].
    exists d''. rewrite <- app_assoc. split; [done|]. unfold advanced. by rewrite Hr', Hm', Hc'.
Qed.

Lemma split_low7 x s : 0 ≤ s →
  Z.shiftl x s = Z.lor (Z.shiftl (x mod 128) s) (Z.shiftl (Z.shiftr x 7) (s + 7)).
Proof.
  intros Hs. apply Z.bits_inj'. intros n Hn. change 128 with (2 ^ 7). rewrite <- Z.land_ones by lia.
  rewrite Z.lor_spec, !Z.shiftl_spec by lia.
  destruct (decide (n < s)).
  { rewrite !Z.testbit_neg_r by lia. done. }
  rewrite Z.land_spec, Z.testbit_ones by lia.
  destruct (decide (n < s + 7)).
  - rewrite (Z.testbit_neg_r _ (n - (s + 7))) by lia.
    destruct (Z.leb_spec 0 (n - s)), (Z.ltb_spec (n - s) 7); cbn; try lia.
    by rewrite andb_true_r, orb_false_r.
  - rewrite Z.shiftr_spec by lia. replace (n - (s + 7) + 7) with (n - s) by lia.
    destruct (Z.ltb_spec (n - s) 7); try lia. by rewrite andb_false_r, andb_false_r.
Qed.

Lemma lor_bound a b n : 0 ≤ n → 0 ≤ a < 2 ^ n → 0 ≤ b < 2 ^ n → 0 ≤ Z.lor a b < 2 ^ n.
Proof.
  intros Hn Ha Hb. replace (Z.lor a b) with (Z.lor a b mod 2 ^ n).
  { apply Z.mod_pos_bound. lia. }
  rewrite <- !Z.land_ones, Z.land_lor_distr_l, !Z.land_ones, !Z.mod_small by lia. done.
Qed.

Lemma shiftl_bound x s n : 0 ≤ s ≤ n → 0 ≤ x < 2 ^ (n - s) → 0 ≤ Z.shiftl x s < 2 ^ n.
Proof.
  intros Hs Hx. rewrite Z.shiftl_mul_pow2 by lia.
  replace (2 ^ n) with (2 ^ (n - s) * 2 ^ s) by (rewrite <- Z.pow_add_r by lia; f_equal; lia).
  assert (0 < 2 ^ s) by (apply Z.pow_pos_nonneg; lia). nia.
Qed.

Lemma unpack_pack fuel x value shift :
  0 ≤ shift ≤ w → 0 ≤ x < 2 ^ (w - shift) → 0 ≤ value < 2 ^ w →
  x < 2 ^ (7 * Z.of_nat fuel) → (0 < fuel)%nat →
  unpack_loop w value shift (pack fuel x) = success (Z.lor value (Z.shiftl x shift)).
Proof.
  revert x value shift. induction fuel as [|fuel IH]; intros x value shift Hs Hx Hv Hf Hpos; [lia|].
  cbn [pack]. destruct (Z.leb_spec BYTE_SLICE_VALUE x) as [Hle|Hlt]; unfold BYTE_SLICE_VALUE in *;
    cbn [unpack_loop]; (destruct (Z.ltb_spec w shift); [lia|]).
  - destruct (high_byte x Hle) as [Hc Hl]. unfold continues in Hc.
    destruct (Z.ltb_spec (u8 (Z.lor x 128)) BYTE_SLICE_VALUE) as [H1|H1];
      unfold BYTE_SLICE_VALUE in H1; [lia|]. unfold UNPACK_BYTE_MASK. change 0x7F with 127. rewrite Hl.
    assert (8 ≤ w - shift).
    { apply Z.nlt_ge. intros Hlt. assert (2 ^ (w - shift) ≤ 2 ^ 7) by (apply Z.pow_le_mono_r; lia). lia. }
    pose proof (Z.mod_pos_bound x 128 ltac:(lia)).
    assert (0 ≤ Z.shiftl (x mod 128) shift < 2 ^ w).
    { apply shiftl_bound; [lia|]. assert (2 ^ 7 ≤ 2 ^ (w - shift)) by (apply Z.pow_le_mono_r; lia). lia. }
    rewrite wrap_small by (apply lor_bound; lia).
    change PACK_BYTE_SHIFT with 7. rewrite IH.
    + rewrite <- Z.lor_assoc. rewrite <- split_low7 by lia. done.
    + lia.
    + rewrite Z.shiftr_div_pow2 by lia. split; [apply Z.div_pos; lia|].
      apply Z.div_lt_upper_bound; [lia|]. rewrite <- Z.pow_add_r by lia.
      replace (7 + (w - (shift + 7))) with (w - shift) by lia. lia.
    + apply lor_bound; lia.
    + rewrite Z.shiftr_div_pow2 by lia. apply Z.div_lt_upper_bound; [lia|].
      rewrite <- Z.pow_add_r by lia. replace (7 + 7 * Z.of_nat fuel) with (7 * Z.of_nat (S fuel)) by lia. lia.
    + destruct fuel; [|lia]. change (2 ^ (7 * Z.of_nat 1)) with 128 in Hf. lia.
  - rewrite (wrap_small 8 x) by lia.
    destruct (Z.ltb_spec x BYTE_SLICE_VALUE) as [H1|H1]; unfold BYTE_SLICE_VALUE in H1; [|lia].
    unfold mret, outcome_ret. rewrite wrap_small; [done|].
    apply lor_bound; [lia|lia|]. by apply shiftl_bound.
Qed.

End long.

(** ** One block *)

Section blocks.
Context (w : Z) (Hw : 8 ≤ w).

Definition period_bits (p : Z) : list bool := pushPeriod w [] p.

Lemma pushPeriod_app content p : pushPeriod w content p = content ++ period_bits p.
Proof.
  unfold period_bits, pushPeriod, pushLongBlock, pushSmallBlock. case_match; [done|].
  case_match; [done|]. rewrite !pushLong_pack. by rewrite <- !app_assoc.
Qed.

Lemma fold_pushPeriod content ps :
  fold_left (pushPeriod w) ps content = content ++ concat (map period_bits ps).
Proof.
  revert content. induction ps as [|p ps IH]; intros content; cbn [fold_left map concat].
  { by rewrite app_nil_r. }
  by rewrite IH, pushPeriod_app, <- app_assoc.
Qed.

Lemma fuel_enough p : 0 ≤ p < 2 ^ w → 0 ≤ p < 2 ^ (7 * Z.of_nat (Z.to_nat w)).
Proof.
  intros Hp. rewrite Z2Nat.id by lia.
  assert (2 ^ w ≤ 2 ^ (7 * w)) by (apply Z.pow_le_mono_r; lia). lia.
Qed.

Lemma period_bits_long p : LONG_BLOCK_VALUE ≤ p →
  period_bits p = [false; false] ++ concat (map byte_bits (pack (Z.to_nat w) p)).
Proof.
  intros Hp. unfold LONG_BLOCK_VALUE in Hp. unfold period_bits, pushPeriod, pushLongBlock.
  destruct (Z.eqb_spec p 1); [lia|].
  destruct (Z.ltb_spec p LONG_BLOCK_VALUE) as [H|H]; unfold LONG_BLOCK_VALUE in H; [lia|].
  by rewrite pushLong_pack.
Qed.

(** Every block holds a set bit, so [find_next] sees it. *)
Lemma period_bits_some p rest : 1 ≤ p < 2 ^ w → existsb (λ b, b) (period_bits p ++ rest) = true.
Proof.
  intros Hp. rewrite existsb_app. destruct (decide (p < LONG_BLOCK_VALUE)) as [Hs|Hs].
  { unfold period_bits, pushPeriod. destruct (Z.eqb_spec p 1); [done|].
    destruct (Z.ltb_spec p LONG_BLOCK_VALUE); [done|lia]. }
  rewrite period_bits_long, existsb_app by lia. cbn [existsb orb].
  apply orb_true_iff. left.
  destruct (pack_shape (Z.to_nat w) p) as (front & last & Heq & HF & Hl);
    [by apply fuel_enough; lia|lia|].
  assert (∃ b, In b (pack (Z.to_nat w) p) ∧ 0 < b < 256) as (b & Hb & Hpos).
  { destruct HF as [|b front Hb HF].
    - exists last. rewrite Heq. split; [by left|]. split; [|lia].
      unfold LONG_BLOCK_VALUE in Hs. destruct (decide (last = 0)) as [->|]; [|lia].
      destruct (Z.to_nat w) as [|fuel]; [done|]. cbn [pack] in Heq.
      destruct (Z.leb_spec BYTE_SLICE_VALUE p) as [H|H]; unfold BYTE_SLICE_VALUE in H.
      + injection Heq as Hu _. pose proof (proj1 (high_byte p H)) as Hc.
        unfold continues in Hc. change BYTE_SLICE_VALUE with 128 in Hu. lia.
      + injection Heq as Hu. rewrite wrap_small in Hu by lia. lia.
    - exists b. rewrite Heq. split; [by left|]. unfold continues in Hb. lia. }
  apply existsb_exists. exists true. split; [|done]. apply in_concat.
  exists (byte_bits b). split; [by apply in_map|].
  pose proof (some_bit 8 b ltac:(cbn; lia)) as Hex. apply existsb_exists in Hex as (c & Hc & ->).
  done.
Qed.

(** Evaluate the test of a header bit that was just read. *)
Ltac ite_bit :=
  cbn [mbind outcome_bind];
  repeat first
    [ change (span_value 0 [false] =? 1) with false
    | change (span_value 0 [false] =? 0) with true
    | change (span_value 0 [true] =? 1) with true
    | change (span_value 0 [true] =? 0) with false ];
  cbv iota.

(** The state after a block of [p] values starting at [v]. *)
Definition run_result (m : bool) (p v : Z) (out : gset Z) : Z * gset Z :=
  if m then insert_run w (Z.to_nat p) v out else (wrap w (v + p), out).

Lemma decodeRun_result p d v out :
  decodeRun w p d v out =
    (set_magnitude (negb (magnitude_ d)) d, (run_result (magnitude_ d) p v out).1,
     (run_result (magnitude_ d) p v out).2).
Proof. unfold decodeRun, run_result. destruct (magnitude_ d); [by destruct insert_run|done]. Qed.

Lemma decodeBlock_spec p rest d v out :
  1 ≤ p < 2 ^ w → rem d = period_bits p ++ rest →
  ∃ d', decodeBlock w d v out =
          success (d', (run_result (magnitude_ d) p v out).1, (run_result (magnitude_ d) p v out).2) ∧
        rem d' = rest ∧ magnitude_ d' = negb (magnitude_ d) ∧ content_ d' = content_ d.
Proof.
  intros Hp Hrem. unfold decodeBlock.
  destruct (decide (p < LONG_BLOCK_VALUE)) as [Hs|Hs].
  - unfold period_bits, pushPeriod in Hrem. destruct (Z.eqb_spec p 1) as [->|Hne].
    + destruct (getSpan_rem [true] rest d) as (d' & Heq & Hr & Hm & Hc); [done|done|].
      cbn [length] in Heq. rewrite Heq. ite_bit. exists (set_magnitude (negb (magnitude_ d')) d').
      unfold decodeSingleBlock, run_result. rewrite Hm. change (Z.to_nat 1) with 1%nat. cbn.
      split; [by destruct (magnitude_ d)|done].
    + destruct (Z.ltb_spec p LONG_BLOCK_VALUE) as [Hlt|Hlt]; [|lia].
      unfold pushSmallBlock in Hrem. cbn [app] in Hrem.
      destruct (getSpan_rem [false] ([true] ++ map (bit_at p) (seq 0 4) ++ rest) d)
        as (d1 & Heq & Hr & Hm & Hc); [done|done|].
      cbn [length] in Heq. rewrite Heq. ite_bit.
      destruct (getSpan_rem [true] (map (bit_at p) (seq 0 4) ++ rest) d1)
        as (d2 & Heq2 & Hr2 & Hm2 & Hc2); [done|done|].
      cbn [length] in Heq2. rewrite Heq2. ite_bit.
      destruct (getSpan_rem (map (bit_at p) (seq 0 4)) rest d2)
        as (d3 & Heq3 & Hr3 & Hm3 & Hc3); [done|done|].
      cbn [length map seq] in Heq3. unfold decodeSmallBlock, SMALL_BLOCK_LENGTH. rewrite Heq3.
      cbn [mbind outcome_bind]. change [bit_at p 0; bit_at p 1; bit_at p 2; bit_at p 3]
        with (map (bit_at p) (seq 0 4)). unfold LONG_BLOCK_VALUE in Hlt. rewrite span_small by lia.
      rewrite decodeRun_result, Hm3, Hm2, Hm. eexists. split; [done|].
      split; [done|]. cbn. by rewrite Hc3, Hc2, Hc.
  - rewrite period_bits_long in Hrem by lia. cbn [app] in Hrem.
    destruct (pack_shape (Z.to_nat w) p) as (front & last & Hpk & HF & Hl);
      [by apply fuel_enough; lia|lia|].
    rewrite Hpk in Hrem.
    destruct (getSpan_rem [false] ([false] ++ concat (map byte_bits (front ++ [last])) ++ rest) d)
      as (d1 & Heq & Hr & Hm & Hc); [done|done|].
    cbn [length] in Heq. rewrite Heq. ite_bit.
    destruct (getSpan_rem [false] (concat (map byte_bits (front ++ [last])) ++ rest) d1)
      as (d2 & Heq2 & Hr2 & Hm2 & Hc2); [done|done|].
    cbn [length] in Heq2. rewrite Heq2. ite_bit. unfold decodeLongBlock.
    destruct (long_bytes_spec front last rest d2 [] (S (length (content_ d2))))
      as (d3 & Heq3 & Hr3 & Hm3 & Hc3); [done|done| |done|].
    { assert (length (rem d2) ≤ length (content_ d2))%nat by (unfold rem; rewrite length_drop; lia).
      rewrite Hr2, map_app, concat_app, !length_app in H.
      assert (length front ≤ length (concat (map byte_bits front)))%nat; [|lia].
      clear. induction front as [|b front IH]; cbn [map concat length]; [lia|].
      rewrite length_app. cbn. lia. }
    rewrite Heq3. cbn [mbind outcome_bind app]. unfold unpack. rewrite <- Hpk.
    rewrite unpack_pack by first [done | lia | rewrite ?Z.sub_0_r; lia | apply fuel_enough; lia].
    rewrite Z.lor_0_l, Z.shiftl_0_r. cbn [mbind outcome_bind].
    rewrite decodeRun_result, Hm3, Hm2, Hm. eexists. split; [done|].
    split; [done|]. cbn. by rewrite Hc3, Hc2, Hc.
Qed.

End blocks.

(** ** Runs *)

(** The values that alternating runs of lengths [ps] cover, the first run being
    present iff [m], starting at value [v]. *)
Fixpoint runs (m : bool) (v : Z) (ps : list Z) : list Z :=
  match ps with
  | [] => []
  | p :: ps => (if m then seqZ v p else []) ++ runs (negb m) (v + p) ps
  end.

Definition total (ps : list Z) : Z := foldr Z.add 0 ps.

(** The polarity after the runs [ps]. *)
Definition polarity (m : bool) (ps : list Z) : bool := foldl (λ m _, negb m) m ps.

Lemma runs_app m v ps qs :
  runs m v (ps ++ qs) = runs m v ps ++ runs (polarity m ps) (v + total ps) qs.
Proof.
  revert m v. induction ps as [|p ps IH]; intros m v; cbn [runs app polarity foldl total foldr].
  { by rewrite Z.add_0_r. }
  rewrite IH, <- app_assoc. do 2 f_equal. unfold total. cbn [foldr]. f_equal. lia.
Qed.

Lemma total_app ps qs : total (ps ++ qs) = total ps + total qs.
Proof. unfold total. induction ps as [|p ps IH]; cbn [app foldr]; lia. Qed.

Lemma polarity_app m ps qs : polarity m (ps ++ qs) = polarity (polarity m ps) qs.
Proof. apply foldl_app. Qed.

Section roundtrip.
Context (w : Z) (Hw : 8 ≤ w).

Definition valid_period (p : Z) : Prop := 1 ≤ p < 2 ^ w.

Lemma total_nonneg ps : Forall valid_period ps → 0 ≤ total ps.
Proof. unfold valid_period. induction 1; cbn [total foldr] in *; unfold total in *; lia. Qed.

Lemma insert_run_spec n v out :
  0 ≤ v < 2 ^ w → v + Z.of_nat n ≤ 2 ^ w →
  insert_run w n v out = (wrap w (v + Z.of_nat n), list_to_set (seqZ v (Z.of_nat n)) ∪ out).
Proof.
  revert v out. induction n as [|n IH]; intros v out Hv Hn; cbn [insert_run].
  { rewrite Z.add_0_r, wrap_small by lia. f_equal. set_solver. }
  destruct (decide (v + 1 = 2 ^ w)) as [Hend|Hend].
  - assert (n = 0)%nat as -> by lia. cbn [insert_run].
    apply (f_equal2 pair); [f_equal; lia|]. rewrite seqZ_cons by lia. cbn. set_solver.
  - rewrite (wrap_small w (v + 1)) by lia. rewrite IH by lia.
    apply (f_equal2 pair); [f_equal; lia|]. rewrite (seqZ_cons v) by lia.
    replace (Z.pred (Z.of_nat (S n))) with (Z.of_nat n) by lia.
    rewrite list_to_set_cons. replace (Z.succ v) with (v + 1) by lia. set_solver.
Qed.

Lemma run_result_spec m p v out :
  valid_period p → 0 ≤ v < 2 ^ w → v + p ≤ 2 ^ w →
  run_result w m p v out =
    (wrap w (v + p), list_to_set (if m then seqZ v p else []) ∪ out).
Proof.
  unfold valid_period. intros Hp Hv Hvp. unfold run_result. destruct m.
  - rewrite insert_run_spec by lia. by rewrite Z2Nat.id by lia.
  - f_equal. set_solver.
Qed.

Lemma period_bits_length p : valid_period p → (1 ≤ length (period_bits w p))%nat.
Proof.
  intros Hp. pose proof (period_bits_some w Hw p [] Hp) as H. rewrite app_nil_r in H.
  destruct (period_bits w p); [done|]. cbn. lia.
Qed.

(** The decoding loop recovers the runs from the encoded periods. *)
Lemma decode_loop_spec ps k d v out fuel :
  Forall valid_period ps → 0 ≤ v < 2 ^ w ∨ ps = [] → v + total ps ≤ 2 ^ w →
  rem d = concat (map (period_bits w) ps) ++ replicate k false →
  (length ps ≤ fuel)%nat →
  decode_loop w fuel d v out = success (list_to_set (runs (magnitude_ d) v ps) ∪ out).
Proof.
  intros HF. revert d v out fuel. induction HF as [|p ps Hp HF IH]; intros d v out fuel Hv Htot Hrem Hfuel.
  - assert (has_next d = false) as Hnext.
    { unfold has_next. fold (rem d). rewrite Hrem. cbn [map concat app]. clear. induction k; [done|exact IHk]. }
    assert (decode_loop w fuel d v out = success out) as ->.
    { destruct fuel; [done|]. cbn [decode_loop]. by rewrite Hnext. }
    f_equal. cbn. set_solver.
  - destruct Hv as [Hv|?]; [|done]. cbn [map concat] in Hrem. rewrite <- app_assoc in Hrem.
    cbn [length] in Hfuel. destruct fuel as [|fuel]; [lia|]. cbn [decode_loop].
    assert (has_next d = true) as ->.
    { unfold has_next. fold (rem d). rewrite Hrem. by apply period_bits_some. }
    destruct (decodeBlock_spec w Hw p _ d v out Hp Hrem) as (d' & -> & Hr & Hm & Hc).
    pose proof (total_nonneg ps HF). cbn [total foldr] in Htot. fold (total ps) in Htot.
    unfold valid_period in Hp. cbn [mbind outcome_bind].
    rewrite run_result_spec by (unfold valid_period; lia). cbn [fst snd].
    destruct (decide (v + p = 2 ^ w)) as [Hend|Hend].
    + destruct ps as [|q ps]; [|apply Forall_cons in HF as [Hq HF]; unfold valid_period in Hq;
        pose proof (total_nonneg ps HF); cbn [total foldr] in Htot; unfold total in *; lia].
      rewrite Hend, wrap_self.
      rewrite (IH d' 0 _ fuel); [|by right|cbn; lia|done|cbn; lia]. f_equal. cbn [runs app]. rewrite app_nil_r. set_solver.
    + rewrite (wrap_small w (v + p)) by lia.
      rewrite IH; [|by left; lia|lia|done|lia].
      f_equal. rewrite Hm. cbn [runs]. rewrite list_to_set_app_L. set_solver.
Qed.

(** *** The periods of a sorted sequence *)

Lemma back_increment_snoc front b : back_increment w (front ++ [b]) = front ++ [wrap w (b + 1)].
Proof. unfold back_increment. by rewrite reverse_snoc, reverse_involutive. Qed.

Lemma periods_loop_spec m rest : ∀ prev front b,
  Forall valid_period (front ++ [b]) → polarity m front = true →
  total (front ++ [b]) = prev + 1 → 0 ≤ prev →
  StronglySorted Z.lt (prev :: rest) → Forall (λ x, x < 2 ^ w) (prev :: rest) →
  b + size rest < 2 ^ w →
  let ps := periods_loop w prev (front ++ [b]) rest in
  Forall valid_period ps ∧ total ps ≤ 2 ^ w ∧ runs m 0 ps = runs m 0 (front ++ [b]) ++ rest.
Proof.
  induction rest as [|x rest IH]; intros prev front b HF Hpol Htot Hprev HS HB Hsz ps;
    subst ps; cbn [periods_loop].
  { split; [done|]. rewrite app_nil_r. apply Forall_cons in HB as [HB _]. split; [lia|done]. }
  apply StronglySorted_inv in HS as [HS Hlt]. apply Forall_cons in HB as [Hpb HB].
  assert (prev < x) as Hx by (by apply Forall_cons in Hlt as [? _]).
  assert (x < 2 ^ w) as Hxb by (by apply Forall_cons in HB as [? _]).
  rewrite size_cons in Hsz. rewrite (wrap_small w (x - prev)) by lia.
  rewrite total_app in Htot. unfold total at 2 in Htot. cbn [foldr] in Htot.
  apply Forall_app in HF as [HF Hb]. apply Forall_cons in Hb as [Hb _].
  pose proof (size_nonneg rest). unfold valid_period in Hb.
  pose proof (total_nonneg front HF) as Hfront.
  destruct (Z.eqb_spec (x - prev) 1) as [H1|H1]; destruct (Z.ltb_spec 1 (x - prev)) as [H2|H2]; try lia.
  - rewrite back_increment_snoc, (wrap_small w (b + 1)) by lia.
    destruct (IH x front (b + 1)) as (G1 & G2 & G3); [ |done| |lia|done|done|lia|].
    { apply Forall_app; split; [done|]. repeat constructor; lia. }
    { rewrite total_app. cbn. lia. }
    split; [done|]. split; [done|]. rewrite G3, !runs_app, Hpol, <- !app_assoc. f_equal.
    cbn [runs]. rewrite !app_nil_r, Z.add_0_l.
    rewrite seqZ_app, <- app_assoc by lia. f_equal. replace (total front + b) with x by lia. done.
  - rewrite (wrap_small w (x - prev - 1)) by lia. rewrite <- app_assoc. cbn [app].
    rewrite <- app_assoc. cbn [app].
    replace (front ++ [b; x - prev - 1; 1]) with ((front ++ [b; x - prev - 1]) ++ [1])
      by (by rewrite <- app_assoc).
    destruct (IH x (front ++ [b; x - prev - 1]) 1) as (G1 & G2 & G3); [| | |lia|done|done|lia|].
    { rewrite <- app_assoc. apply Forall_app; split; [done|]. cbn.
      assert (2 ^ 8 ≤ 2 ^ w) by (apply Z.pow_le_mono_r; lia).
      repeat constructor; lia. }
    { rewrite polarity_app, Hpol. done. }
    { rewrite <- app_assoc, total_app. cbn. lia. }
    split; [done|]. split; [done|]. rewrite G3, <- app_assoc, !runs_app, Hpol, <- !app_assoc. f_equal.
    cbn [runs app negb]. rewrite !app_nil_r. f_equal. unfold total at 2. cbn [foldr polarity foldl negb].
    replace (0 + total front + (b + (x - prev - 1 + 0))) with x by lia.
    rewrite (seqZ_cons x 1) by lia. done.
Qed.

Lemma getPeriods_spec data :
  StronglySorted Z.lt data → Forall (λ x, 0 ≤ x < 2 ^ w) data → size data < 2 ^ w →
  let ps := getPeriods w data in
  let flag := match data with x :: _ => x =? 0 | [] => false end in
  Forall valid_period ps ∧ total ps ≤ 2 ^ w ∧ runs flag 0 ps = data.
Proof.
  intros HS HB Hsz. destruct data as [|x rest]; cbn [getPeriods].
  { cbn. split; [done|]. split; [lia|done]. }
  assert (Forall (λ y, y < 2 ^ w) (x :: rest)) as HB' by (eapply Forall_impl; [done|]; cbn; lia).
  apply Forall_cons in HB as [Hx HB]. rewrite size_cons in Hsz.
  assert (2 ^ 8 ≤ 2 ^ w) by (apply Z.pow_le_mono_r; lia).
  destruct (Z.eqb_spec x 0) as [->|Hne].
  - destruct (periods_loop_spec true rest 0 [] 1) as (G1 & G2 & G3);
      [by repeat constructor; lia|done|done|lia|done|done|lia|].
    split; [done|]. split; [done|]. rewrite G3. done.
  - destruct (periods_loop_spec false rest x [x] 1) as (G1 & G2 & G3);
      [by repeat constructor; lia|done|cbn; lia|lia|done|done|lia|].
    split; [done|]. split; [done|]. rewrite G3. cbn [runs app negb].
    rewrite Z.add_0_l, (seqZ_cons x 1) by lia. done.
Qed.

(** *** Round trip of the streams *)

Lemma stream_roundtrip s k :
  (∀ x, x ∈ s → 0 ≤ x < 2 ^ w) → Z.of_nat (base.size s) < 2 ^ w →
  Z.of_nat (base.size s) ≤ OBJECT_MAX_SIZE `div` (w `div` 8) →
  (4 ≤ length (encode_stream w (sorted_elements s)) + k)%nat →
  decode_stream w (encode_stream w (sorted_elements s) ++ replicate k false) = success s.
Proof.
  intros HB Hsz Hmax Hlen.
  destruct (getPeriods_spec (sorted_elements s)) as (Hval & Htot & Hruns).
  { apply sorted_elements_lt. }
  { apply Forall_forall. intros x Hx. by apply HB, elem_of_sorted_elements. }
  { unfold size. by rewrite length_sorted_elements. }
  set (bits := encode_stream w (sorted_elements s) ++ replicate k false).
  set (flag := match sorted_elements s with x :: _ => x =? 0 | [] => false end) in *.
  assert (bits = [false; false] ++ [flag] ++
    concat (map (period_bits w) (getPeriods w (sorted_elements s))) ++ replicate k false) as Hbits.
  { unfold bits, encode_stream. rewrite fold_pushPeriod, <- !app_assoc. done. }
  assert (4 ≤ length bits)%nat as Hl by (unfold bits; rewrite length_app, length_replicate; lia).
  unfold decode_stream. cbn [content_]. unfold SMALL_BLOCK_LENGTH. rewrite decide_False by lia.
  set (body := concat (map (period_bits w) (getPeriods w (sorted_elements s))) ++ replicate k false) in *.
  destruct (getSpan_rem [false; false] ([flag] ++ body) (mkDecodingStream 0 false bits)) as (d1 & Heq1 & Hr1 & _ & Hc1);
    [done|exact Hbits|]. cbn [length] in Heq1. rewrite Heq1. cbn [mbind outcome_bind].
  change (negb (span_value 0 [false; false] =? 0)) with false. cbv iota.
  destruct (getSpan_rem [flag] body d1) as (d2 & Heq2 & Hr2 & _ & Hc2); [done|exact Hr1|].
  cbn [length] in Heq2. rewrite Heq2. cbn [mbind outcome_bind].
  replace (span_value 0 [flag] =? 1) with flag by (by destruct flag).
  rewrite (decode_loop_spec (getPeriods w (sorted_elements s)) k); [|done| |cbn; lia|exact Hr2|].
  - cbn [mbind outcome_bind magnitude_ set_magnitude]. rewrite Hruns.
    assert (list_to_set (sorted_elements s) ∪ ∅ = s) as ->.
    { apply set_eq. intros x. rewrite union_empty_r_L, elem_of_list_to_set. apply elem_of_sorted_elements. }
    destruct (Z.ltb_spec (OBJECT_MAX_SIZE `div` (w `div` 8)) (Z.of_nat (base.size s))); [lia|done].
  - left. assert (2 ^ 8 ≤ 2 ^ w) by (apply Z.pow_le_mono_r; lia). lia.
  - assert (length (concat (map (period_bits w) (getPeriods w (sorted_elements s)))) ≤ length bits)%nat.
    { rewrite Hbits. subst body. rewrite !length_app. lia. }
    assert (length (getPeriods w (sorted_elements s)) ≤
      length (concat (map (period_bits w) (getPeriods w (sorted_elements s)))))%nat; [|lia].
    clear -Hval Hw. induction Hval as [|p ps Hp HF IH]; cbn [map concat length]; [lia|].
    pose proof (period_bits_length p Hp). rewrite length_app. lia.
Qed.

End roundtrip.

(** ** Properties *)

(** C9: RLE+ round trip.  For every unsigned width [w ≥ 8] (8, 16, 32 and 64 in
    the source), decoding the encoding of a set of [w]-bit integers gives the set
    back, provided the set is not the full range of the type and fits the
    [OBJECT_MAX_SIZE] limit.  [to_blocks]/[of_blocks] only need the documented
    behaviour of the bit container: reading the blocks back yields the bits,
    padded with clear bits to whole bytes. *)
Theorem encode_decode w to_blocks of_blocks s :
  8 ≤ w →
  (∀ bits, ∃ k, of_blocks (to_blocks bits) = bits ++ replicate k false ∧
                (length bits + k) `mod` 8 = 0)%nat →
  (∀ x, x ∈ s → 0 ≤ x < 2 ^ w) →
  Z.of_nat (base.size s) < 2 ^ w →
  Z.of_nat (base.size s) ≤ OBJECT_MAX_SIZE `div` (w `div` 8) →
  decode w of_blocks (encode w to_blocks s) = success s.
Proof.
  intros Hw Hblocks HB Hsz Hmax. unfold decode, encode.
  destruct (Hblocks (encode_stream w (sorted_elements s))) as (k & -> & Hk).
  apply stream_roundtrip; try done.
  assert (3 ≤ length (encode_stream w (sorted_elements s)))%nat.
  { unfold encode_stream. rewrite fold_pushPeriod, !length_app. cbn. lia. }
  assert (length (encode_stream w (sorted_elements s)) + k ≠ 3)%nat; [|lia].
  intros H3. rewrite H3 in Hk. discriminate Hk.
Qed.

(** A concrete block container: whole bytes, least significant bit first. *)
Definition pack_byte (bits : list bool) : Z := span_value 0 (take 8 bits).

Fixpoint bytes_of_bits (fuel : nat) (bits : list bool) : bytes :=
  match fuel, bits with
  | S fuel, _ :: _ => pack_byte bits :: bytes_of_bits fuel (drop 8 bits)
  | _, _ => []
  end.

Definition sample_to_blocks (bits : list bool) : bytes := bytes_of_bits (length bits) bits.
Definition sample_of_blocks (data : bytes) : list bool := concat (map byte_bits data).

Lemma pack_byte_bits bits : (length bits ≤ 8)%nat →
  byte_bits (pack_byte bits) = bits ++ replicate (8 - length bits) false.
Proof.
  intros Hl. unfold pack_byte. rewrite take_ge by lia.
  repeat (destruct bits as [|[] bits]; [reflexivity| |]; cbn [length] in Hl; try lia).
Qed.

Lemma sample_blocks_law fuel bits : (length bits ≤ fuel)%nat →
  ∃ k, concat (map byte_bits (bytes_of_bits fuel bits)) = bits ++ replicate k false ∧
       ((length bits + k) `mod` 8 = 0)%nat.
Proof.
  revert bits. induction fuel as [|fuel IH]; intros bits Hl.
  { destruct bits; [|cbn in Hl; lia]. by exists 0%nat. }
  destruct bits as [|b bits]; [by exists 0%nat|].
  cbn [bytes_of_bits map concat]. destruct (decide (length (b :: bits) ≤ 8)%nat) as [H8|H8].
  - exists (8 - length (b :: bits))%nat. rewrite pack_byte_bits by done.
    assert (bytes_of_bits fuel (drop 8 (b :: bits)) = []) as ->.
    { rewrite drop_ge by done. by destruct fuel. }
    cbn [map concat]. rewrite app_nil_r. split; [done|].
    replace (length (b :: bits) + (8 - length (b :: bits)))%nat with 8%nat by lia. done.
  - destruct (IH (drop 8 (b :: bits))) as (k & Heq & Hk).
    { rewrite length_drop. cbn [length] in *. lia. }
    exists k. rewrite Heq.
    assert (pack_byte (b :: bits) = pack_byte (take 8 (b :: bits))) as ->.
    { unfold pack_byte. by rewrite take_take. }
    rewrite pack_byte_bits by (rewrite length_take; lia).
    rewrite length_take, Nat.min_l, Nat.sub_diag by lia. cbn [replicate]. rewrite app_nil_r, app_assoc, take_drop.
    split; [done|]. rewrite length_drop in Hk.
    replace (length (b :: bits) + k)%nat with (length (b :: bits) - 8 + k + 1 * 8)%nat by lia.
    by rewrite Nat.Div0.mod_add.
Qed.

Definition sample_set : gset Z := {[0; 1; 2; 5; 200; 201; 202]}.

Lemma encode_decode_witness :
  decode 64 sample_of_blocks (encode 64 sample_to_blocks sample_set) = success sample_set.
Proof.
  apply (encode_decode 64 sample_to_blocks sample_of_blocks sample_set).
  - lia.
  - intros bits. apply sample_blocks_law. lia.
  - unfold sample_set. set_solver by lia.
  - vm_compute. done.
  - vm_compute. discriminate.
Defined.

(** The full range of an 8-bit type: one run of 256 values, whose period does not
    fit [T]. *)
Definition full_u8 : gset Z := list_to_set (seqZ 0 256).

(** The round trip fails on the full range of [T]: the run length of 256
    overflows the 8-bit period counter to zero, the encoder writes a small block
    of length 0 and the decoder returns the empty set. *)
Theorem full_range_lost :
  decode 8 sample_of_blocks (encode 8 sample_to_blocks full_u8) = success ∅ ∧ full_u8 ≠ ∅.
Proof.
  split; [vm_compute; done|]. intros H.
  assert (0 ∈ full_u8) as H0 by (unfold full_u8; rewrite elem_of_list_to_set, elem_of_seqZ; lia).
  rewrite H in H0. set_solver.
Qed.

(** *** Bounds of decoded data *)

Lemma insert_run_bounded w n v out :
  0 ≤ w → 0 ≤ v < 2 ^ w → (∀ x, x ∈ out → 0 ≤ x < 2 ^ w) →
  0 ≤ (insert_run w n v out).1 < 2 ^ w ∧ (∀ x, x ∈ (insert_run w n v out).2 → 0 ≤ x < 2 ^ w).
Proof.
  intros Hw. revert v out. induction n as [|n IH]; intros v out Hv Hout; cbn [insert_run]; [done|].
  apply IH; [by apply wrap_bound|]. set_solver.
Qed.

Definition state_bounded (w : Z) (r : DecodingStream * Z * gset Z) : Prop :=
  0 ≤ r.1.2 < 2 ^ w ∧ ∀ x, x ∈ r.2 → 0 ≤ x < 2 ^ w.

Lemma decodeRun_bounded w n d v out :
  0 ≤ w → state_bounded w (d, v, out) → state_bounded w (decodeRun w n d v out).
Proof.
  intros Hw [Hv Hout]. rewrite decodeRun_result. unfold state_bounded, run_result. cbn [fst snd].
  destruct (magnitude_ d); [by apply insert_run_bounded|]. split; [by apply wrap_bound|done].
Qed.

Lemma decodeBlock_bounded w d v out r :
  0 ≤ w → state_bounded w (d, v, out) → decodeBlock w d v out = success r → state_bounded w r.
Proof.
  intros Hw Hb. unfold decodeBlock, decodeLongBlock, decodeSmallBlock.
  destruct (getSpan 1 d) as [[h d1]|]; cbn [mbind outcome_bind]; [|done]. case_match.
  { intros [= <-]. destruct Hb as [Hv Hout]. split; cbn; [by apply wrap_bound|].
    case_match; [|done]. set_solver. }
  destruct (getSpan 1 d1) as [[bh d2]|]; cbn [mbind outcome_bind]; [|done]. case_match.
  - destruct long_bytes as [[bs d3]|]; cbn [mbind outcome_bind]; [|done].
    destruct unpack as [n|]; cbn [mbind outcome_bind]; [|done]. intros [= <-]. by apply decodeRun_bounded.
  - destruct getSpan as [[n d3]|]; cbn [mbind outcome_bind]; [|done]. intros [= <-].
    by apply decodeRun_bounded.
Qed.

Lemma decode_loop_bounded w fuel d v out out' :
  0 ≤ w → state_bounded w (d, v, out) → decode_loop w fuel d v out = success out' →
  ∀ x, x ∈ out' → 0 ≤ x < 2 ^ w.
Proof.
  intros Hw. revert d v out. induction fuel as [|fuel IH]; intros d v out Hb; cbn [decode_loop].
  { intros [= <-]. apply Hb. }
  case_match; [|intros [= <-]; apply Hb].
  destruct (decodeBlock w d v out) as [[[d' v'] o']|] eqn:Hd; cbn [mbind outcome_bind]; [|done].
  apply IH. by eapply decodeBlock_bounded.
Qed.

(** Decoding any byte string, well formed or not, either fails with one of
    the decode errors or yields integers of the element type, at most
    [OBJECT_MAX_SIZE / sizeof(T)] of them. *)
Theorem decode_sound w of_blocks data s :
  0 ≤ w → decode w of_blocks data = success s →
  (∀ x, x ∈ s → 0 ≤ x < 2 ^ w) ∧ Z.of_nat (base.size s) ≤ OBJECT_MAX_SIZE `div` (w `div` 8).
Proof.
  intros Hw. unfold decode, decode_stream. case_decide; [done|].
  destruct getSpan as [[v d1]|]; cbn [mbind outcome_bind]; [|done]. case_match; [done|].
  destruct getSpan as [[m d2]|]; cbn [mbind outcome_bind]; [|done].
  destruct decode_loop as [out|] eqn:Hl; cbn [mbind outcome_bind]; [|done].
  destruct (Z.ltb_spec (OBJECT_MAX_SIZE `div` (w `div` 8)) (Z.of_nat (base.size out))); [done|].
  intros [= <-]. split; [|done]. eapply decode_loop_bounded; [exact Hw| |exact Hl].
  split; cbn; [pose proof (Z.pow_pos_nonneg 2 w); lia|]. intros x Hx. by apply elem_of_empty in Hx.
Qed.

Lemma decode_sound_witness :
  ∃ s, decode 16 sample_of_blocks [0x44; 0x03] = success s ∧
       (∀ x, x ∈ s → 0 ≤ x < 2 ^ 16) ∧ Z.of_nat (base.size s) ≤ OBJECT_MAX_SIZE `div` (16 `div` 8).
Proof.
  eexists. split; [vm_compute; reflexivity|].
  apply (decode_sound 16 sample_of_blocks [0x44; 0x03]); [lia|vm_compute; reflexivity].
Defined.
