(* ===== verification/CborBuffering.v ===== *)
(** Incremental framing of CBOR objects, [src/common/libp2p/cbor_buffering]:
    [CborBuffering] reads a byte stream in chunks of any size and finds the end
    of one CBOR object.

    [consume] follows the loops of the source; [feed] is the reference it is
    proved equal to, an automaton that takes one byte at a time.  [size_t] and
    [uint64_t] values are integers modulo [2^64]. *)
From stdpp Require Import base numbers list.
From S2P Require Import Prelude.

Open Scope Z_scope.

(** *** [CborBuffering::Error], [CborBuffering::Type], [CborBuffering::Head] *)

Inductive Error :=
| INVALID_HEAD_TYPE
| INVALID_HEAD_VALUE.

Inductive Type_ := Unsigned | Signed | Bytes | Text | Array | Map | Tag.

#[export] Instance Error_eq_dec : EqDecision Error.
Proof. solve_decision. Defined.
#[export] Instance Type_eq_dec : EqDecision Type_.
Proof. solve_decision. Defined.

Record Head := mkHead { type : Type_; value : Z }.

#[export] Instance Head_eq_dec : EqDecision Head.
Proof. solve_decision. Defined.

(** [Type{ ( first & 0xe0 ) >> 5 }], with the [default] case of the switch. *)
Definition Type_of_bits (n : Z) : option Type_ :=
  match n with
  | 0 => Some Unsigned
  | 1 => Some Signed
  | 2 => Some Bytes
  | 3 => Some Text
  | 4 => Some Array
  | 5 => Some Map
  | 6 => Some Tag
  | _ => None
  end.

(** [Head::first]: the head and the number of bytes it still needs. *)
Definition first (byte : Z) : outcome Error (Head * Z) :=
  match Type_of_bits (Z.shiftr (Z.land byte 0xe0) 5) with
  | None => failure INVALID_HEAD_TYPE
  | Some t =>
      let first := Z.land byte 0x1f in
      if first <? 24 then success (mkHead t first, 0)
      else
        match first with
        | 24 => success (mkHead t 0, 1)
        | 25 => success (mkHead t 0, 2)
        | 26 => success (mkHead t 0, 4)
        | 27 => success (mkHead t 0, 8)
        | _ => failure INVALID_HEAD_VALUE
        end
  end.

(** [Head::next]. *)
Definition next (byte : Z) (head : Head) : Head :=
  mkHead (type head) (Z.lor (u64 (Z.shiftl (value head) 8)) byte).

(** *** The state.  The back of the vector [more_nested] is the head of the
    list. *)
Record CborBuffering := mkCborBuffering {
  more_nested : list Z;
  more_bytes : Z;
  partial_head : option Head
}.

Definition moreBytes (b : CborBuffering) : Z :=
  if negb (more_bytes b =? 0) then more_bytes b
  else match more_nested b with [] => 0 | _ => 1 end.

Definition done_ (b : CborBuffering) : bool :=
  (moreBytes b =? 0) && match more_nested b with [] => true | _ => false end.

Definition reset (b : CborBuffering) : CborBuffering :=
  mkCborBuffering (1 :: more_nested b) (more_bytes b) (partial_head b).

(** [while ( !more_nested.empty() && more_nested.back() == 0 ) pop_back();] *)
Fixpoint pop_zeros (nested : list Z) : list Z :=
  match nested with
  | n :: rest => if n =? 0 then pop_zeros rest else nested
  | [] => []
  end.

(** [--more_nested.back()]. *)
Definition decrement_back (nested : list Z) : list Z :=
  match nested with n :: rest => u64 (n - 1) :: rest | [] => [] end.

(** The inner loop: the additional bytes of a head.  Returns the head, the
    remaining [more_bytes], the remaining input and the bytes consumed. *)
Fixpoint head_bytes (input : bytes) (more : Z) (head : Head) : Z * Head * bytes * Z :=
  match input with
  | [] => (more, head, [], 0)
  | byte :: rest =>
      if more =? 0 then (more, head, input, 0)
      else
        let '(more', head', rest', n) := head_bytes rest (more - 1) (next byte head) in
        (more', head', rest', n + 1)
  end.

(** What the [switch] does with a complete head, on the counters after
    [--more_nested.back()]: the new counters and the bytes of a string that the
    rest of the input covers. *)
Definition finish_head (head : Head) (nested : list Z) (available : Z) : list Z * Z * Z :=
  match type head with
  | Unsigned | Signed => (nested, 0, 0)
  | Bytes | Text =>
      let partial := Z.min (value head) available in
      (nested, value head - partial, partial)
  | Array => (value head :: nested, 0, 0)
  | Map => (u64 (2 * value head) :: nested, 0, 0)
  | Tag => (1 :: nested, 0, 0)
  end.

(** The outer loop.  [fuel] is larger than the number of bytes left: every
    iteration but one that finishes a head read earlier consumes a byte. *)
Fixpoint consume_loop (fuel : nat) (b : CborBuffering) (input : bytes) (consumed : Z) :
    outcome Error (CborBuffering * Z) :=
  match fuel with
  | O => success (b, consumed)
  | S fuel =>
      match input, more_nested b with
      | byte :: rest, _ :: _ =>
          '(head, more, input, consumed) ←
            match partial_head b with
            | Some head => mret (head, more_bytes b, input, consumed)
            | None => '(head, more) ← first byte; mret (head, more, rest, consumed + 1)
            end;
          let '(more, head, input, n) := head_bytes input more head in
          let consumed := consumed + n in
          if negb (more =? 0) then success (mkCborBuffering (more_nested b) more (Some head), consumed)
          else
            let '(nested, more, partial) :=
              finish_head head (decrement_back (more_nested b)) (size input) in
            consume_loop fuel (mkCborBuffering (pop_zeros nested) more None)
              (drop (Z.to_nat partial) input) (consumed + partial)
      | _, _ => success (b, consumed)
      end
  end.

(** [CborBuffering::consume]: the new state and the number of bytes consumed. *)
Definition consume (b : CborBuffering) (input : bytes) : outcome Error (CborBuffering * Z) :=
  if bool_decide (partial_head b = None) && negb (more_bytes b =? 0) then
    let partial := Z.min (more_bytes b) (size input) in
    let b := mkCborBuffering (more_nested b) (more_bytes b - partial) (partial_head b) in
    consume_loop (S (S (length input))) b (drop (Z.to_nat partial) input) partial
  else consume_loop (S (S (length input))) b input 0.

(** ** The reference: one byte at a time *)

Definition take_byte (b : CborBuffering) (byte : Z) : outcome Error CborBuffering :=
  if bool_decide (partial_head b = None) && negb (more_bytes b =? 0) then
    success (mkCborBuffering (more_nested b) (more_bytes b - 1) None)
  else
    '(head, more) ←
      match partial_head b with
      | Some head => mret (next byte head, more_bytes b - 1)
      | None => first byte
      end;
    if negb (more =? 0) then success (mkCborBuffering (more_nested b) more (Some head))
    else
      let '(nested, more, _) := finish_head head (decrement_back (more_nested b)) 0 in
      success (mkCborBuffering (pop_zeros nested) more None).

(** Feed bytes until the object is complete or the input ends. *)
Fixpoint feed (b : CborBuffering) (input : bytes) : outcome Error (CborBuffering * Z) :=
  match input with
  | [] => success (b, 0)
  | byte :: rest =>
      if done_ b then success (b, 0)
      else
        b ← take_byte b byte;
        '(b, n) ← feed b rest;
        success (b, n + 1)
  end.

(** ** The chunked reader equals the byte automaton *)

(** The states [consume] leaves behind: a pending head misses bytes and belongs
    to a container, and finished counters are popped. *)
Definition wf (b : CborBuffering) : Prop :=
  0 ≤ more_bytes b ∧
  match partial_head b with
  | Some head => 0 < more_bytes b ∧ more_nested b ≠ [] ∧ 0 ≤ value head
  | None => True
  end.

Definition initial : CborBuffering := mkCborBuffering [] 0 None.

(** Continue [feed] after [n] bytes. *)
Definition after (n : Z) (r : outcome Error (CborBuffering * Z)) : outcome Error (CborBuffering * Z) :=
  '(b, m) ← r; success (b, n + m).

Lemma after_0 r : after 0 r = r.
Proof. by destruct r as [[b m]|]. Qed.

Lemma after_after n m r : after n (after m r) = after (n + m) r.
Proof. destruct r as [[b k]|]; cbn; [|done]. by rewrite Z.add_assoc. Qed.

Lemma feed_cons b byte rest : done_ b = false →
  feed b (byte :: rest) = b' ← take_byte b byte; after 1 (feed b' rest).
Proof.
  intros Hd. cbn [feed]. rewrite Hd. destruct take_byte as [b'|]; cbn; [|done].
  destruct feed as [[b'' n]|]; cbn; [|done]. by rewrite Z.add_comm.
Qed.

Lemma feed_done b input : done_ b = true → feed b input = success (b, 0).
Proof. intros Hd. destruct input; cbn [feed]; [done|]. by rewrite Hd. Qed.

Lemma done_pending nested m h : m ≠ 0 → done_ (mkCborBuffering nested m h) = false.
Proof.
  intros Hm. unfold done_, moreBytes. cbn. destruct (Z.eqb_spec m 0); [done|]. cbn.
  destruct (Z.eqb_spec m 0); done.
Qed.

Lemma done_nested n nested m h : done_ (mkCborBuffering (n :: nested) m h) = false.
Proof. unfold done_, moreBytes. cbn. destruct (Z.eqb_spec m 0); cbn; by rewrite ?andb_false_r. Qed.

(** Skipping the body of a string at once. *)
Lemma feed_pending nested m input : 0 ≤ m →
  let k := Z.min m (size input) in
  feed (mkCborBuffering nested m None) input =
    after k (feed (mkCborBuffering nested (m - k) None) (drop (Z.to_nat k) input)).
Proof.
  revert m. induction input as [|byte input IH]; intros m Hm k; subst k.
  { rewrite size_nil, Z.min_r, drop_0, after_0, Z.sub_0_r by lia. done. }
  pose proof (size_nonneg input). rewrite size_cons.
  destruct (decide (m = 0)) as [->|Hne].
  { rewrite Z.min_l, after_0, drop_0 by lia. done. }
  rewrite feed_cons by (by apply done_pending). unfold take_byte. cbn [partial_head more_bytes more_nested].
  rewrite bool_decide_true by done. destruct (Z.eqb_spec m 0); [done|]. cbn [negb andb mbind outcome_bind].
  rewrite IH by lia. rewrite after_after.
  replace (1 + Z.min (m - 1) (size input)) with (Z.min m (size input + 1)) by lia.
  replace (m - 1 - Z.min (m - 1) (size input)) with (m - Z.min m (size input + 1)) by lia.
  replace (Z.to_nat (Z.min m (size input + 1))) with (S (Z.to_nat (Z.min (m - 1) (size input)))) by lia.
  done.
Qed.

(** A completed head, in the automaton. *)
Definition finished (nested : list Z) (head : Head) : CborBuffering :=
  let '(nested, more, _) := finish_head head (decrement_back nested) 0 in
  mkCborBuffering (pop_zeros nested) more None.

Lemma take_byte_head nested more head byte : more ≠ 0 →
  take_byte (mkCborBuffering nested more (Some head)) byte =
    success (if more - 1 =? 0 then finished nested (next byte head)
             else mkCborBuffering nested (more - 1) (Some (next byte head))).
Proof.
  intros Hm. unfold take_byte, finished. cbn [partial_head more_bytes more_nested].
  rewrite bool_decide_false by done. cbn [andb mbind outcome_bind mret outcome_ret].
  destruct (more - 1 =? 0); cbn [negb]; [|done]. by destruct finish_head as [[? ?] ?].
Qed.

Lemma head_bytes_0 input head : head_bytes input 0 head = (0, head, input, 0).
Proof. by destruct input. Qed.

(** Reading the remaining bytes of a head. *)
Lemma feed_head nested more head input : 0 < more → nested ≠ [] →
  feed (mkCborBuffering nested more (Some head)) input =
    let '(more', head', rest, n) := head_bytes input more head in
    if negb (more' =? 0) then success (mkCborBuffering nested more' (Some head'), n)
    else after n (feed (finished nested head') rest).
Proof.
  revert more head. induction input as [|byte input IH]; intros more head Hm Hn.
  { cbn. destruct (Z.eqb_spec more 0); [lia|done]. }
  rewrite feed_cons by (apply done_pending; lia). rewrite take_byte_head by lia.
  cbn [mbind outcome_bind head_bytes]. destruct (Z.eqb_spec more 0); [lia|].
  destruct (Z.eqb_spec (more - 1) 0) as [H1|H1].
  - rewrite H1, head_bytes_0. cbn. done.
  - rewrite IH by (done || lia). destruct head_bytes as [[[more' head'] rest] n'].
    case_match; cbn; [by rewrite Z.add_comm|]. rewrite after_after. by rewrite Z.add_comm.
Qed.

(** *** Bookkeeping of the fuel and of the head values *)

Lemma head_bytes_facts input more head more' head' rest n :
  head_bytes input more head = (more', head', rest, n) →
  0 ≤ more → 0 ≤ value head → Forall is_byte input →
  0 ≤ more' ∧ 0 ≤ value head' ∧ Forall is_byte rest ∧ (length rest ≤ length input)%nat ∧
  (more ≠ 0 → input ≠ [] → (length rest < length input)%nat) ∧ (more' ≠ 0 → rest = []).
Proof.
  revert more head more' head' rest n. induction input as [|byte input IH];
    intros more head more' head' rest n Heq Hm Hv HF; cbn [head_bytes] in Heq.
  { simplify_eq. naive_solver. }
  destruct (Z.eqb_spec more 0) as [->|Hne]; [simplify_eq; naive_solver|].
  apply Forall_cons in HF as [Hb HF].
  destruct (head_bytes input (more - 1) (next byte head)) as [[[m1 h1] r1] n1] eqn:Hrec. simplify_eq.
  apply IH in Hrec as (? & ? & ? & ? & ? & ?); [|lia| |done].
  - split_and!; try done; cbn [length]; lia.
  - unfold is_byte in Hb. cbn. apply Z.lor_nonneg. split; [|lia].
    apply (wrap_bound 64). lia.
Qed.

Lemma first_facts byte head more : is_byte byte → first byte = success (head, more) →
  0 ≤ more ∧ 0 ≤ value head.
Proof.
  unfold first, is_byte. intros Hb. destruct Type_of_bits; [|done].
  destruct (Z.ltb_spec (Z.land byte 0x1f) 24).
  { intros [= <- <-]. cbn. split; [lia|]. apply Z.land_nonneg. lia. }
  repeat (case_match; try done); intros; simplify_eq; cbn; lia.
Qed.

Lemma finish_head_available head nested available :
  0 ≤ value head → 0 ≤ available →
  ∃ nested' m, finish_head head nested 0 = (nested', m, 0) ∧ 0 ≤ m ∧
    finish_head head nested available = (nested', m - Z.min m available, Z.min m available).
Proof.
  intros Hv Ha. unfold finish_head. destruct (type head);
    try (do 2 eexists; split; [reflexivity|]; split; [lia|]; rewrite Z.min_l by lia; reflexivity);
    (do 2 eexists; split; [rewrite Z.min_r, Z.sub_0_r by lia; reflexivity|]; done).
Qed.

(** One iteration of the outer loop after the head is known. *)
Lemma consume_loop_feed fuel b input consumed :
  wf b → (partial_head b = None → more_bytes b ≠ 0 → input = []) → Forall is_byte input →
  (length input < fuel)%nat →
  consume_loop fuel b input consumed = after consumed (feed b input).
Proof.
  revert b input consumed. induction fuel as [|fuel IH]; intros b input consumed Hwf Hp HF Hfuel; [lia|].
  cbn [consume_loop]. destruct input as [|byte rest].
  { cbn. by rewrite Z.add_0_r. }
  destruct b as [nested more ph]. destruct Hwf as [Hmore Hph]. cbn [more_nested more_bytes partial_head] in *.
  destruct nested as [|cnt nested].
  { destruct ph as [h|]; [naive_solver|].
    assert (more = 0) as -> by (destruct (decide (more = 0)); [done|naive_solver]).
    cbn. by rewrite Z.add_0_r. }
  apply Forall_cons in HF as [Hbyte HF].
  (* both sides reach the same [finished] state *)
  assert (∀ head input' c, 0 ≤ value head → Forall is_byte input' → (length input' < fuel)%nat →
    (let '(nested', more', partial) :=
       finish_head head (decrement_back (cnt :: nested)) (size input') in
     consume_loop fuel (mkCborBuffering (pop_zeros nested') more' None)
       (drop (Z.to_nat partial) input') (c + partial)) =
    after c (feed (finished (cnt :: nested) head) input')) as Hfin.
  { intros head input' c Hv HF' Hl. unfold finished.
    destruct (finish_head_available head (decrement_back (cnt :: nested)) (size input') Hv (size_nonneg _))
      as (nested' & m & -> & Hm & ->).
    rewrite IH.
    - rewrite (feed_pending _ m) by done. by rewrite after_after.
    - split; cbn; [lia|done].
    - cbn. intros _ Hne. apply drop_ge. unfold size in *. lia.
    - by apply Forall_drop.
    - rewrite length_drop. lia. }
  destruct ph as [head|]; cbn [mbind outcome_bind mret outcome_ret].
  - destruct Hph as (Hpos & _ & Hv). rewrite feed_head by done.
    destruct (head_bytes (byte :: rest) more head) as [[[more' head'] rest'] n] eqn:Hhb.
    apply head_bytes_facts in Hhb as (? & ? & ? & ? & Hlt & ?); [|lia|done|by constructor].
    destruct (Z.eqb_spec more' 0); cbn [negb]; [|done].
    rewrite after_after. apply Hfin; try done. specialize (Hlt ltac:(lia) ltac:(done)). lia.
  - assert (more = 0) as -> by (destruct (decide (more = 0)); [done|naive_solver]).
    rewrite feed_cons by apply done_nested. unfold take_byte. cbn [partial_head more_bytes more_nested].
    rewrite bool_decide_true by done. cbn [andb negb Z.eqb].
    destruct (first byte) as [[head more]|e] eqn:Hf; cbn [mbind outcome_bind mret outcome_ret]; [|done].
    apply first_facts in Hf as [Hm Hv]; [|done].
    destruct (head_bytes rest more head) as [[[more' head'] rest'] n] eqn:Hhb.
    destruct (Z.eqb_spec more 0) as [->|Hne]; cbn [negb].
    + rewrite head_bytes_0 in Hhb. simplify_eq. cbn [Z.eqb negb]. rewrite Z.add_0_r.
      rewrite Hfin by (try done; cbn in Hfuel; lia). unfold finished.
      destruct finish_head as [[? ?] ?]. cbn [mbind outcome_bind]. by rewrite after_after.
    + cbn [mbind outcome_bind]. rewrite feed_head by (done || lia). rewrite Hhb.
      pose proof (head_bytes_facts _ _ _ _ _ _ _ Hhb Hm Hv HF) as (? & ? & ? & ? & _ & ?).
      destruct (Z.eqb_spec more' 0); cbn [negb].
      * rewrite !after_after, <- Z.add_assoc. apply Hfin; try done. cbn in Hfuel. lia.
      * cbn. f_equal. f_equal. lia.
Qed.

Lemma consume_feed b input : wf b → Forall is_byte input → consume b input = feed b input.
Proof.
  intros Hwf HF. unfold consume. pose proof Hwf as [Hmore Hph]. destruct b as [nested more ph].
  cbn [more_nested more_bytes partial_head] in *. destruct (bool_decide (ph = None) && negb (more =? 0)) eqn:Hc.
  - apply andb_true_iff in Hc as [Hnone Hne]. apply bool_decide_eq_true in Hnone as ->.
    rewrite consume_loop_feed, <- feed_pending; [done|done| | | |].
    + split; cbn; [pose proof (size_nonneg input); lia|done].
    + cbn. intros _ ?. apply drop_ge. unfold size in *. lia.
    + by apply Forall_drop.
    + rewrite length_drop. lia.
  - rewrite consume_loop_feed, after_0; [done|done| |done|lia].
    cbn. intros -> Hne. rewrite bool_decide_true in Hc by done.
    destruct (Z.eqb_spec more 0); done.
Qed.

Lemma take_byte_wf b byte b' : wf b → is_byte byte → done_ b = false →
  take_byte b byte = success b' → wf b'.
Proof.
  intros [Hm Hp] Hb Hd. destruct b as [nested more ph]. unfold take_byte.
  cbn [more_nested more_bytes partial_head] in *.
  assert (∀ head, 0 ≤ value head → wf (finished nested head)) as Hfin.
  { intros head Hv. unfold finished.
    destruct (finish_head_available head (decrement_back nested) 0 Hv ltac:(lia)) as (? & m & -> & ? & _).
    split; cbn; [lia|done]. }
  destruct ph as [head|].
  - destruct Hp as (? & ? & Hv). rewrite bool_decide_false by done. cbn.
    assert (0 ≤ value (next byte head)) as Hv'.
    { unfold is_byte in Hb. cbn. apply Z.lor_nonneg. split; [|lia]. apply (wrap_bound 64). lia. }
    destruct (Z.eqb_spec (more - 1) 0); cbn.
    + specialize (Hfin _ Hv'). unfold finished in Hfin.
      destruct finish_head as [[? ?] ?]. by intros [= <-].
    + intros [= <-]. split; cbn; [lia|]. split_and!; [lia|done|done].
  - rewrite bool_decide_true by done. cbn. destruct (Z.eqb_spec more 0); cbn.
    + destruct (first byte) as [[head m]|] eqn:Hf; cbn; [|done].
      apply first_facts in Hf as [? ?]; [|done]. destruct (Z.eqb_spec m 0); cbn.
      * specialize (Hfin head). unfold finished in Hfin.
        destruct finish_head as [[? ?] ?]. intros [= <-]. by apply Hfin.
      * intros [= <-]. split; cbn; [lia|]. split_and!; [lia| |done].
        subst more. intros ->. done.
    + intros [= <-]. split; cbn; [lia|done].
Qed.

Lemma feed_wf b input b' n : wf b → Forall is_byte input → feed b input = success (b', n) → wf b'.
Proof.
  intros Hwf HF. revert b n Hwf. induction HF as [|byte input Hb HF IH]; intros b n Hwf.
  { by intros [= <- _]. }
  destruct (done_ b) eqn:Hd; [rewrite feed_done by done; by intros [= <- _]|].
  rewrite feed_cons by done. destruct (take_byte b byte) as [b1|] eqn:Ht; cbn; [|done].
  destruct (feed b1 input) as [[b2 m]|] eqn:Hf; cbn; [|done]. intros [= <- _].
  eapply IH; [|done]. by eapply take_byte_wf.
Qed.

Lemma feed_app b i1 i2 :
  feed b (i1 ++ i2) = '(b', n) ← feed b i1; after n (feed b' i2).
Proof.
  revert b. induction i1 as [|byte i1 IH]; intros b; cbn [app].
  { cbn. by rewrite after_0. }
  destruct (done_ b) eqn:Hd.
  { rewrite !feed_done by done. cbn. by rewrite feed_done. }
  rewrite !feed_cons by done. destruct (take_byte b byte) as [b1|]; cbn [mbind outcome_bind]; [|done].
  rewrite IH. destruct (feed b1 i1) as [[b2 m]|]; [|done].
  cbn [mbind outcome_bind]. rewrite after_after. done.
Qed.

(** ** Well-formed CBOR *)

(** A head: the major type and additional information, with the value in the
    first byte or in the 1, 2, 4 or 8 big-endian bytes after it (RFC 7049,
    section 2). *)
Definition type_code (t : Type_) : Z :=
  match t with
  | Unsigned => 0 | Signed => 1 | Bytes => 2 | Text => 3 | Array => 4 | Map => 5 | Tag => 6
  end.

Definition be_value (extra : bytes) : Z := foldl (λ acc b, acc * 256 + b) 0 extra.

Inductive is_head (t : Type_) (v : Z) : bytes → Prop :=
| head_short : 0 ≤ v < 24 → is_head t v [type_code t * 32 + v]
| head_long info extra :
    (info, length extra) ∈ [(24, 1%nat); (25, 2%nat); (26, 4%nat); (27, 8%nat)] →
    Forall is_byte extra → v = be_value extra →
    is_head t v ((type_code t * 32 + info) :: extra).

(** [items k bs]: [bs] is the encoding of [k] CBOR data items of the major types
    0 to 6, one after another. *)
Inductive items : Z → bytes → Prop :=
| items_nil : items 0 []
| items_int t v h k rest :
    t = Unsigned ∨ t = Signed → is_head t v h → items k rest → items (k + 1) (h ++ rest)
| items_string t h content k rest :
    t = Bytes ∨ t = Text → is_head t (size content) h → Forall is_byte content →
    items k rest → items (k + 1) (h ++ content ++ rest)
| items_array v h body k rest :
    is_head Array v h → items v body → items k rest → items (k + 1) (h ++ body ++ rest)
| items_map v h body k rest :
    is_head Map v h → 2 * v < 2 ^ 64 → items (2 * v) body → items k rest →
    items (k + 1) (h ++ body ++ rest)
| items_tag v h body k rest :
    is_head Tag v h → items 1 body → items k rest → items (k + 1) (h ++ body ++ rest).

Lemma items_nonneg k bs : items k bs → 0 ≤ k.
Proof. induction 1; lia. Qed.

(** *** Reading a head *)

Lemma first_short t v : 0 ≤ v < 24 → first (type_code t * 32 + v) = success (mkHead t v, 0).
Proof.
  intros Hv. assert (forallb (λ v, bool_decide (first (type_code t * 32 + v) = success (mkHead t v, 0)))
    (seqZ 0 24) = true) as H by (destruct t; vm_compute; done).
  rewrite forallb_forall in H. eapply bool_decide_eq_true, H, list_elem_of_In, elem_of_seqZ. lia.
Qed.

Lemma be_value_snoc extra b : be_value (extra ++ [b]) = be_value extra * 256 + b.
Proof. unfold be_value. by rewrite foldl_app. Qed.

Lemma be_value_bound extra : Forall is_byte extra → 0 ≤ be_value extra < 2 ^ (8 * size extra).
Proof.
  induction extra as [|b extra IH] using rev_ind; intros HF; [by split; vm_compute|].
  apply Forall_app in HF as [HF Hb]. apply Forall_cons in Hb as [Hb _].
  rewrite be_value_snoc. rewrite size_app. change (size [b]) with 1. specialize (IH HF). unfold is_byte in Hb.
  pose proof (size_nonneg extra).
  replace (8 * (size extra + 1)) with (8 * size extra + 8) by lia.
  rewrite Z.pow_add_r by lia. change (2 ^ 8) with 256. lia.
Qed.

(** Shifting in a byte is a base-256 digit while the value fits. *)
Lemma next_digit byte head :
  is_byte byte → 0 ≤ value head → value head * 256 < 2 ^ 64 →
  next byte head = mkHead (type head) (value head * 256 + byte).
Proof.
  unfold is_byte. intros Hb Hv Hlt. unfold next. f_equal.
  rewrite Z.shiftl_mul_pow2 by lia. change (2 ^ 8) with 256. rewrite wrap_small by lia.
  symmetry. rewrite Z.add_nocarry_lxor, Z.lxor_lor; [done| |].
  all: apply Z.bits_inj'; intros n Hn; rewrite Z.land_spec, Z.bits_0;
    (destruct (decide (n < 8));
      [change 256 with (2 ^ 8); rewrite Z.mul_pow2_bits_low by lia; done
      |rewrite (Z.bits_above_log2 byte), andb_false_r; [done|lia|];
       destruct (decide (byte = 0)) as [->|]; [cbn; lia|];
       apply Z.lt_le_trans with 8; [apply Z.log2_lt_pow2; lia|lia]]).
Qed.

Lemma head_bytes_read t extra rest done_extra :
  Forall is_byte (done_extra ++ extra) → size (done_extra ++ extra) ≤ 8 →
  head_bytes (extra ++ rest) (size extra) (mkHead t (be_value done_extra)) =
    (0, mkHead t (be_value (done_extra ++ extra)), rest, size extra).
Proof.
  revert done_extra. induction extra as [|b extra IH]; intros dx HF Hs; cbn [app].
  { rewrite size_nil, app_nil_r, head_bytes_0. done. }
  cbn [head_bytes]. rewrite size_cons in *. pose proof (size_nonneg extra).
  destruct (Z.eqb_spec (size extra + 1) 0); [lia|].
  apply Forall_app in HF as [HFd HF]. apply Forall_cons in HF as [Hb HF].
  rewrite size_app, size_cons in Hs.
  pose proof (be_value_bound dx HFd) as Hbd. pose proof (size_nonneg dx).
  rewrite next_digit; [|done|cbn; lia|].
  2: { cbn. assert (2 ^ (8 * size dx) ≤ 2 ^ 56) by (apply Z.pow_le_mono_r; lia). lia. }
  cbn [type value]. rewrite <- be_value_snoc. replace (size extra + 1 - 1) with (size extra) by lia.
  rewrite IH, <- app_assoc.
  - done.
  - rewrite <- app_assoc. apply Forall_app. split; [done|]. by constructor.
  - rewrite <- app_assoc, size_app. cbn [app]. rewrite size_cons. lia.
Qed.

Lemma first_long t info (extra : bytes) :
  (info, length extra) ∈ [(24, 1%nat); (25, 2%nat); (26, 4%nat); (27, 8%nat)] →
  first (type_code t * 32 + info) = success (mkHead t 0, size extra) ∧ 0 < size extra ≤ 8.
Proof.
  intros Hin. unfold size. rewrite !elem_of_cons in Hin.
  destruct_or! Hin; [simplify_eq..|by apply not_elem_of_nil in Hin];
    repeat match goal with H : ?n = length extra |- _ => symmetry in H end;
    repeat match goal with H : length extra = _ |- _ => rewrite H end;
    (split; [by destruct t; vm_compute|lia]).
Qed.

(** The automaton reads a head in an open container and dispatches on it. *)
Lemma feed_is_head t v h n ns rest : is_head t v h → Forall is_byte rest →
  feed (mkCborBuffering (n :: ns) 0 None) (h ++ rest) =
    after (size h) (feed (finished (n :: ns) (mkHead t v)) rest).
Proof.
  intros Hh HF. destruct Hh as [Hv|info extra Hin HFe Hv]; cbn [app].
  - rewrite feed_cons by apply done_nested. unfold take_byte. cbn [partial_head more_bytes more_nested].
    rewrite bool_decide_true by done. cbn [andb negb Z.eqb mbind outcome_bind]. rewrite first_short by done.
    cbn [mbind outcome_bind Z.eqb negb]. unfold finished. by destruct finish_head as [[? ?] ?].
  - rewrite feed_cons by apply done_nested. unfold take_byte. cbn [partial_head more_bytes more_nested].
    rewrite bool_decide_true by done. cbn [andb negb Z.eqb mbind outcome_bind].
    destruct (first_long t info extra Hin) as [-> Hs]. cbn [mbind outcome_bind].
    destruct (Z.eqb_spec (size extra) 0); [lia|]. cbn [negb mbind outcome_bind].
    rewrite feed_head by (done || lia).
    change (mkHead t 0) with (mkHead t (be_value [])).
    rewrite (head_bytes_read t extra rest []) by (done || (cbn; lia)).
    cbn [app Z.eqb negb]. rewrite after_after, size_cons, <- Hv. by rewrite Z.add_comm.
Qed.

Lemma is_head_value t v h : is_head t v h → 0 ≤ v < 2 ^ 64.
Proof.
  destruct 1 as [|info extra Hin HF ->]; [lia|].
  pose proof (be_value_bound extra HF). pose proof (first_long Unsigned info extra Hin) as [_ ?].
  assert (2 ^ (8 * size extra) ≤ 2 ^ 64) by (apply Z.pow_le_mono_r; lia). lia.
Qed.

Lemma is_head_bytes t v h : is_head t v h → Forall is_byte h.
Proof.
  assert (0 ≤ type_code t ≤ 6) by (destruct t; cbn; lia).
  destruct 1 as [|info extra Hin HF ->]; constructor; unfold is_byte; try done; [lia|].
  rewrite !elem_of_cons in Hin.
  destruct_or! Hin; [simplify_eq; lia..|by apply not_elem_of_nil in Hin].
Qed.

Lemma items_0 bs : items 0 bs → bs = [].
Proof.
  intros H. remember 0 as k eqn:Hk. destruct H; [done|..];
    match goal with H : items ?k _ |- _ => apply items_nonneg in H end;
    repeat match goal with H : items _ _ |- _ => apply items_nonneg in H end; lia.
Qed.

Lemma items_bytes k bs : items k bs → Forall is_byte bs.
Proof. induction 1; rewrite ?Forall_app; split_and?; eauto using is_head_bytes. Qed.

(** *** Framing *)

(** [reads k bs]: in an open container with [n ≥ k] items to come, the [k] items
    [bs] are read exactly. *)
Definition reads (k : Z) (bs : bytes) : Prop :=
  ∀ n ns rest, k ≤ n < 2 ^ 64 → 0 < n → Forall is_byte rest →
    feed (mkCborBuffering (n :: ns) 0 None) (bs ++ rest) =
      after (size bs) (feed (mkCborBuffering (pop_zeros ((n - k) :: ns)) 0 None) rest).

Lemma pop_pos n ns : 0 < n → pop_zeros (n :: ns) = n :: ns.
Proof. intros Hn. cbn. destruct (Z.eqb_spec n 0); [lia|done]. Qed.

(** The items after the first one, once the first is counted. *)
Lemma reads_tail k bs n ns rest : items k bs → reads k bs →
  k + 1 ≤ n < 2 ^ 64 → Forall is_byte rest →
  feed (mkCborBuffering (pop_zeros ((n - 1) :: ns)) 0 None) (bs ++ rest) =
    after (size bs) (feed (mkCborBuffering (pop_zeros ((n - (k + 1)) :: ns)) 0 None) rest).
Proof.
  intros Hi IH Hn HF. pose proof (items_nonneg _ _ Hi).
  destruct (decide (n - 1 = 0)) as [H1|H1].
  - assert (k = 0) as -> by lia. apply items_0 in Hi as ->.
    change (size []) with 0. by rewrite after_0.
  - rewrite pop_pos, IH by first [lia | done].
    by replace (n - 1 - k) with (n - (k + 1)) by lia.
Qed.

(** A container of [v] items, and what follows it. *)
Lemma reads_body v body k rest n ns tail : items v body → reads v body → v < 2 ^ 64 →
  items k rest → reads k rest → k + 1 ≤ n < 2 ^ 64 → Forall is_byte tail →
  feed (mkCborBuffering (pop_zeros (v :: n - 1 :: ns)) 0 None) (body ++ rest ++ tail) =
    after (size body + size rest)
      (feed (mkCborBuffering (pop_zeros ((n - (k + 1)) :: ns)) 0 None) tail).
Proof.
  intros Hb IHb Hv Hi IH Hn HF. pose proof (items_nonneg _ _ Hb).
  pose proof (items_bytes _ _ Hi). destruct (decide (v = 0)) as [->|Hv0].
  - apply items_0 in Hb as ->. change (pop_zeros (0 :: n - 1 :: ns)) with (pop_zeros (n - 1 :: ns)).
    cbn [app]. change (size []) with 0. by rewrite (reads_tail k rest) by (done || lia).
  - rewrite pop_pos, IHb by (first [lia | by rewrite Forall_app]).
    rewrite Z.sub_diag. change (pop_zeros (0 :: n - 1 :: ns)) with (pop_zeros (n - 1 :: ns)).
    rewrite (reads_tail k rest) by (done || lia). by rewrite after_after.
Qed.

Lemma feed_string content nested rest :
  feed (mkCborBuffering nested (size content) None) (content ++ rest) =
    after (size content) (feed (mkCborBuffering nested 0 None) rest).
Proof.
  pose proof (size_nonneg content). pose proof (size_nonneg rest).
  rewrite feed_pending by done. rewrite size_app, Z.min_l, Z.sub_diag by lia.
  unfold size at 2. by rewrite Nat2Z.id, drop_app_length.
Qed.

Lemma items_reads k bs : items k bs → reads k bs.
Proof.
  induction 1 as [|t v h k rest Ht Hh Hi IH|t h content k rest Ht Hh HFc Hi IH
    |v h body k rest Hh Hb IHb Hi IH|v h body k rest Hh Hv Hb IHb Hi IH|v h body k rest Hh Hb IHb Hi IH];
    intros n ns tail Hn Hpos HF.
  { change (size []) with 0. by rewrite after_0, Z.sub_0_r, pop_pos. }
  all: pose proof (items_nonneg _ _ Hi); pose proof (items_bytes _ _ Hi);
    rewrite <- ?app_assoc, (feed_is_head _ _ _ _ _ _ Hh) by (rewrite ?Forall_app; eauto using items_bytes);
    pose proof (is_head_value _ _ _ Hh); unfold finished, decrement_back;
    rewrite (wrap_small 64 (n - 1)) by lia; rewrite !size_app; unfold finish_head; cbn [type value].
  - destruct Ht as [-> | ->]; rewrite (reads_tail k rest) by (done || lia); by rewrite after_after.
  - pose proof (size_nonneg content).
    destruct Ht as [-> | ->]; cbv beta iota zeta; rewrite Z.min_r, Z.sub_0_r, feed_string by lia;
      rewrite (reads_tail k rest) by (done || lia); rewrite !after_after; f_equal; lia.
  - rewrite (reads_body v body k rest) by (done || lia). by rewrite after_after.
  - rewrite (wrap_small 64 (2 * v)) by lia.
    rewrite (reads_body (2 * v) body k rest) by (done || lia). by rewrite after_after.
  - rewrite (reads_body 1 body k rest) by (done || lia). by rewrite after_after.
Qed.

Lemma wf_reset : wf (reset initial).
Proof. split; cbn; [lia|done]. Qed.

(** *** The properties *)

Lemma feed_progress b input b' n : feed b input = success (b', n) →
  0 ≤ n ≤ size input ∧ (n < size input → done_ b' = true).
Proof.
  revert b n. induction input as [|byte input IH]; intros b n; cbn [feed].
  { intros [= <- <-]. split; [|change (size []) with 0]; size_lia. }
  pose proof (size_nonneg input). rewrite size_cons. destruct (done_ b) eqn:Hd.
  { intros [= <- <-]. split; [lia|done]. }
  destruct take_byte as [b1|]; cbn; [|done]. destruct (feed b1 input) as [[b2 m]|] eqn:Hf; cbn; [|done].
  intros [= <- <-]. apply IH in Hf as [? Hd']. split; [lia|]. intros. apply Hd'. lia.
Qed.

(** C10: framing is independent of the chunks the transport delivers.  Consuming
    [c1 ++ c2] at once gives the state, the number of consumed bytes and the
    error that consuming [c1] and then [c2] gives, from every state the buffer can
    be in. *)
Theorem consume_chunks b c1 c2 :
  wf b → Forall is_byte c1 → Forall is_byte c2 →
  consume b (c1 ++ c2) =
    '(b', n) ← consume b c1; '(b'', m) ← consume b' c2; success (b'', n + m).
Proof.
  intros Hwf H1 H2. rewrite consume_feed, feed_app by (done || by rewrite Forall_app).
  rewrite consume_feed by done. destruct (feed b c1) as [[b1 n]|] eqn:Hf; [|done].
  cbn [mbind outcome_bind]. by rewrite consume_feed by eauto using feed_wf.
Qed.

Lemma consume_chunks_witness :
  consume (reset initial) ([0x82; 0x19; 0x01] ++ [0x00; 0x42; 0x61; 0x62; 0xff]) = success (initial, 7).
Proof.
  rewrite (consume_chunks (reset initial) [0x82; 0x19; 0x01] [0x00; 0x42; 0x61; 0x62; 0xff]).
  - vm_compute. reflexivity.
  - split; cbn; [lia|exact I].
  - repeat constructor; cbn; lia.
  - repeat constructor; cbn; lia.
Defined.

(** A complete object, byte by byte. *)
Lemma feed_object bs rest : items 1 bs → Forall is_byte rest → feed (reset initial) (bs ++ rest) = success (initial, size bs).
Proof.
  intros Hi HF. unfold reset. cbn [more_nested more_bytes partial_head initial].
  rewrite (items_reads _ _ Hi) by (done || lia). cbn [Z.sub pop_zeros Z.add Z.opp Z.pos_sub Z.eqb].
  rewrite feed_done by done. cbn. by rewrite Z.add_0_r.
Qed.

(** A complete object is framed exactly.  When the input begins with the
    encoding of one data item of major types 0 to 6, of any nesting, a fresh
    buffer consumes that encoding and nothing of what follows, and is done. *)
Theorem consume_object bs rest :
  items 1 bs → Forall is_byte rest →
  consume (reset initial) (bs ++ rest) = success (initial, size bs) ∧ done_ initial = true.
Proof.
  intros Hi HF. split; [|done].
  rewrite consume_feed by (apply wf_reset || rewrite Forall_app; eauto using items_bytes). by apply feed_object.
Qed.

(** [{1: [h'00ff']}] followed by another byte. *)
Lemma consume_object_witness :
  consume (reset initial) ([0xa1; 0x01; 0x81; 0x42; 0x00; 0xff] ++ [0x17]) = success (initial, 6).
Proof.
  refine (proj1 (consume_object [0xa1; 0x01; 0x81; 0x42; 0x00; 0xff] [0x17] _ _)).
  - refine (items_map 1 [0xa1] [0x01; 0x81; 0x42; 0x00; 0xff] 0 [] _ _ _ items_nil).
    + refine (head_short Map 1 _). lia.
    + lia.
    + refine (items_int Unsigned 1 [0x01] 1 [0x81; 0x42; 0x00; 0xff] (or_introl eq_refl) _ _).
      { refine (head_short Unsigned 1 _). lia. }
      refine (items_array 1 [0x81] [0x42; 0x00; 0xff] 0 [] _ _ items_nil).
      { refine (head_short Array 1 _). lia. }
      refine (items_string Bytes [0x42] [0x00; 0xff] 0 [] (or_introl eq_refl) _ _ items_nil).
      { refine (head_short Bytes 2 _). lia. }
      repeat constructor; cbn; lia.
  - repeat constructor; cbn; lia.
Defined.

(** [consume] never reads past its input and stops early only when the
    object is complete; it leaves a state it can be called on again. *)
Theorem consume_progress b input b' n :
  wf b → Forall is_byte input → consume b input = success (b', n) →
  wf b' ∧ 0 ≤ n ≤ size input ∧ (n < size input → done_ b' = true).
Proof.
  intros Hwf HF. rewrite consume_feed by done. intros Hf.
  split; [by eapply feed_wf|by eapply feed_progress].
Qed.

Lemma consume_progress_witness :
  consume (reset initial) [0x19; 0x01; 0x00; 0x05] = success (initial, 3) ∧ done_ initial = true.
Proof.
  assert (consume (reset initial) [0x19; 0x01; 0x00; 0x05] = success (initial, 3)) as H by (vm_compute; reflexivity).
  split; [exact H|].
  refine (proj2 (proj2 (consume_progress (reset initial) [0x19; 0x01; 0x00; 0x05] initial 3 _ _ H)) _).
  - split; cbn; [lia|exact I].
  - repeat constructor; cbn; lia.
  - vm_compute. reflexivity.
Defined.

Lemma first_simple byte : 0xe0 ≤ byte < 256 → first byte = failure INVALID_HEAD_TYPE.
Proof.
  intros Hb. assert (forallb (λ b, bool_decide (first b = failure INVALID_HEAD_TYPE)) (seqZ 0xe0 32) = true)
    as H by (vm_compute; done).
  rewrite forallb_forall in H. eapply bool_decide_eq_true, H, list_elem_of_In, elem_of_seqZ. lia.
Qed.

(** An object that holds a boolean, a null or any other value of major type
    7 is refused: after any items of an open container that expects one more,
    such a byte makes [consume] return [INVALID_HEAD_TYPE]. *)
Theorem simple_value_rejected k pre n ns byte rest :
  items k pre → k < n < 2 ^ 64 → 0xe0 ≤ byte < 256 → Forall is_byte rest →
  consume (mkCborBuffering (n :: ns) 0 None) (pre ++ byte :: rest) = failure INVALID_HEAD_TYPE.
Proof.
  intros Hi Hn Hb HF. pose proof (items_nonneg _ _ Hi).
  assert (Forall is_byte (byte :: rest)) by (constructor; [unfold is_byte; lia|done]).
  rewrite consume_feed by (done || (rewrite Forall_app; eauto using items_bytes)).
  rewrite (items_reads _ _ Hi) by (done || lia). rewrite pop_pos by lia.
  rewrite feed_cons by apply done_nested. unfold take_byte. cbn [partial_head more_bytes].
  rewrite bool_decide_true by done. cbn [andb negb Z.eqb mbind outcome_bind]. by rewrite first_simple.
Qed.

(** [[5, true]]: the head of the array has been read. *)
Lemma simple_value_rejected_witness :
  consume (mkCborBuffering [2] 0 None) ([0x05] ++ [0xf5]) = failure INVALID_HEAD_TYPE.
Proof.
  refine (simple_value_rejected 1 [0x05] 2 [] 0xf5 [] _ _ _ (@List.Forall_nil Z is_byte)).
  - refine (items_int Unsigned 5 [0x05] 0 [] (or_introl eq_refl) _ items_nil).
    refine (head_short Unsigned 5 _). lia.
  - lia.
  - lia.
Defined.
