(* ===== verification/Bytes.v ===== *)
(** Byte utilities of [src/common]: [hexutil.cpp], [buffer.hpp], [buffer.cpp],
    [buffer_back_insert_iterator.cpp], [blob.hpp] and [mp_utils.cpp].

    A [std::string] is the vector of its bytes, like a [std::vector<uint8_t>]. *)
From stdpp Require Import base numbers list.
From S2P Require Import Prelude.

Open Scope Z_scope.

(** ** [hexutil.cpp] *)

Module Hex.

(** [boost::algorithm]: [hex], [hex_lower], and [unhex] with the exceptions it
    throws. *)
Inductive boost_exception := not_enough_input | non_hex_input | other_exception.

Class BoostHex := {
  boost_hex : bytes → bytes;
  boost_hex_lower : bytes → bytes;
  boost_unhex : bytes → outcome boost_exception bytes
}.

Definition is_digit (x : Z) : bool :=
  (0x30 <=? x) && (x <=? 0x39) || (0x41 <=? x) && (x <=? 0x46) || (0x61 <=? x) && (x <=? 0x66).

(** Its documentation: two characters per byte; [unhex] is the inverse, in either
    case of the letters; it throws on input of odd length and on characters that
    are not digits, and on nothing else. *)
Class BoostHexLaws `{BoostHex} : Prop := {
  boost_hex_length b : length (boost_hex b) = (2 * length b)%nat;
  boost_hex_lower_length b : length (boost_hex_lower b) = (2 * length b)%nat;
  boost_unhex_hex b : Forall is_byte b → boost_unhex (boost_hex b) = success b;
  boost_unhex_hex_lower b : Forall is_byte b → boost_unhex (boost_hex_lower b) = success b;
  boost_unhex_length s b : boost_unhex s = success b → length s = (2 * length b)%nat;
  boost_unhex_not_hex s : Exists (λ x, is_digit x = false) s → is_success (boost_unhex s) = false;
  boost_unhex_odd s : Forall (λ x, is_digit x = true) s → Nat.Odd (length s) → boost_unhex s = failure not_enough_input;
  boost_unhex_even s : Forall (λ x, is_digit x = true) s → Nat.Even (length s) → is_success (boost_unhex s) = true
}.

Inductive UnhexError := NOT_ENOUGH_INPUT | NON_HEX_INPUT | UNKNOWN.

Definition UnhexError_code (e : UnhexError) : Z :=
  match e with NOT_ENOUGH_INPUT => 1 | NON_HEX_INPUT => 2 | UNKNOWN => 3 end.

(** The characters of [n] in base 16, most significant first: [operator<<] of a
    stream with [std::hex] and [std::uppercase]. *)
Definition digit (x : Z) : Z := if x <? 10 then 0x30 + x else 0x41 + x - 10.

Fixpoint digits (fuel : nat) (n : Z) : bytes :=
  match fuel with
  | O => []
  | S fuel => (if n <? 16 then [] else digits fuel (Z.shiftr n 4)) ++ [digit (Z.land n 15)]
  end.

(** [width] and [fill]: padded to the left. *)
Definition formatted (n : Z) (fixed_width : nat) : bytes :=
  let s := digits 16 n in replicate (fixed_width - length s) 0x30 ++ s.

(** The loop that moves the characters up by one, from the last but one down. *)
Definition move_up (str : bytes) : bytes :=
  foldl (λ str i, <[S i := str !!! i]> str) str (reverse (seq 0 (length str - 1))).

Definition int_to_hex (n : Z) (fixed_width : nat) : bytes :=
  let str := formatted n fixed_width in
  if negb (size str mod 2 =? 0) then
    let str := str ++ [0] in
    <[0%nat := 0x30]> (move_up str)
  else str.

Section hex.
Context `{BoostHex}.

(** Writing [out] over the start of [res], as an algorithm does at an iterator;
    [None] is a write past the end. *)
Definition write_at_start (out res : bytes) : option bytes :=
  if (length out <=? length res)%nat then Some (out ++ drop (length out) res) else None.

(** [hex_upper], [hex_lower]. *)
Definition hex_upper (b : bytes) : option bytes := write_at_start (boost_hex b) (replicate (length b * 2) 0).
Definition hex_lower (b : bytes) : option bytes := write_at_start (boost_hex_lower b) (replicate (length b * 2) 0).

Definition unhex (hex : bytes) : outcome UnhexError bytes :=
  match boost_unhex hex with
  | success blob => success blob
  | failure not_enough_input => failure NOT_ENOUGH_INPUT
  | failure non_hex_input => failure NON_HEX_INPUT
  | failure other_exception => failure UNKNOWN
  end.

End hex.

End Hex.

(** ** [buffer.hpp], [buffer.cpp] *)

Module Buffer.
Import Hex.

Record Buffer := mkBuffer { data_ : bytes }.

Definition new_Buffer : Buffer := mkBuffer [].
Definition filled (size byte : Z) : Buffer := mkBuffer (replicate (Z.to_nat size) byte).

Definition buffer_size (b : Buffer) : Z := size (data_ b).
Definition empty (b : Buffer) : bool := bool_decide (data_ b = []).

Definition push_back (x : Z) (b : Buffer) : Buffer := mkBuffer (data_ b ++ [x]).

Definition putUint8 (n : Z) (b : Buffer) : Buffer := push_back n b.

Definition putUint32 (n : Z) (b : Buffer) : Buffer :=
  let b := push_back (Z.land (Z.shiftr n 24) 0xFF) b in
  let b := push_back (Z.land (Z.shiftr n 16) 0xFF) b in
  let b := push_back (Z.land (Z.shiftr n 8) 0xFF) b in
  push_back (Z.land n 0xFF) b.

Definition putUint64 (n : Z) (b : Buffer) : Buffer :=
  let b := push_back (Z.land (Z.shiftr n 56) 0xFF) b in
  let b := push_back (Z.land (Z.shiftr n 48) 0xFF) b in
  let b := push_back (Z.land (Z.shiftr n 40) 0xFF) b in
  let b := push_back (Z.land (Z.shiftr n 32) 0xFF) b in
  let b := push_back (Z.land (Z.shiftr n 24) 0xFF) b in
  let b := push_back (Z.land (Z.shiftr n 16) 0xFF) b in
  let b := push_back (Z.land (Z.shiftr n 8) 0xFF) b in
  push_back (Z.land n 0xFF) b.

(** [putRange] and the overloads of [put], [putBytes]. *)
Definition putRange (range : bytes) (b : Buffer) : Buffer := mkBuffer (data_ b ++ range).
Definition put (v : bytes) (b : Buffer) : Buffer := putRange v b.
Definition putBytes (range : bytes) (b : Buffer) : Buffer := putRange range b.
Definition putBuffer (buf b : Buffer) : Buffer := put (data_ buf) b.
Definition append_Buffer (other b : Buffer) : Buffer := putBuffer other b.

Definition clear (b : Buffer) : Buffer := mkBuffer [].
Definition resize (n : Z) (b : Buffer) : Buffer :=
  mkBuffer (take (Z.to_nat n) (data_ b) ++ replicate (Z.to_nat n - length (data_ b)) 0).

(** [operator[]]: [None] is the undefined access out of range. *)
Definition get (index : Z) (b : Buffer) : option Z := data_ b !! Z.to_nat index.

(** The three [operator==]. *)
Definition eq_Buffer (b c : Buffer) : bool := bool_decide (data_ b = data_ c).
Definition eq_vector (b : Buffer) (v : bytes) : bool := bool_decide (data_ b = v).
Fixpoint std_equal (a b : bytes) : bool :=
  match a, b with
  | [], [] => true
  | x :: a, y :: b => (x =? y) && std_equal a b
  | _, _ => false
  end.
Definition eq_span (b : Buffer) (s : bytes) : bool := std_equal (data_ b) s.

(** [gsl::span::subspan]: a count of [-1] is the rest; the contract of a count
    that does not fit ends the process. *)
Definition subspan (s : bytes) (offset count : Z) : attempt UnhexError bytes :=
  if size s <? offset then thrown
  else if count =? 2 ^ 64 - 1 then returned (drop (Z.to_nat offset) s)
  else if size s - offset <? count then thrown
  else returned (take (Z.to_nat count) (drop (Z.to_nat offset) s)).

Definition subbuffer (offset length : Z) (b : Buffer) : attempt UnhexError Buffer :=
  s ← subspan (data_ b) offset length; returned (mkBuffer s).

(** [CBOR_DECODE( Buffer, buffer )] puts what it reads behind what is there. *)
Definition cbor_decoded (data : bytes) (b : Buffer) : Buffer := put data b.

Section hex.
Context `{BoostHex}.

Definition toHex (b : Buffer) : option bytes := hex_upper (data_ b).
Definition fromHex (hex : bytes) : outcome UnhexError Buffer := bytes ← unhex hex; success (mkBuffer bytes).

End hex.

(** ** [std::back_insert_iterator<Buffer>]: the overloads of [operator=] *)

Inductive inserted :=
| insert_uint8 (value : Z)
| insert_uint32 (value : Z)
| insert_uint64 (value : Z)
| insert_string_view (value : bytes)
| insert_span (s : bytes)
| insert_vector (v : bytes).

Definition assign_through (b : Buffer) (x : inserted) : Buffer :=
  match x with
  | insert_uint8 value => putUint8 value b
  | insert_uint32 value => putUint32 value b
  | insert_uint64 value => putUint64 value b
  | insert_string_view value => put value b
  | insert_span s => put s b
  | insert_vector v => put v b
  end.

End Buffer.

(** ** [blob.hpp] *)

Module Blob.
Import Hex.

Inductive BlobError := INCORRECT_LENGTH.
Inductive blob_error := blob_hex (e : UnhexError) | blob_length (e : BlobError).

Section blob.
Context `{BoostHex} (size_ : nat).

Definition new_Blob : bytes := replicate size_ 0.

(** [std::copy] of a span over the start of a blob. *)
Definition copy (s blob : bytes) : bytes := s ++ drop (length s) blob.

Definition fromSpan (s : bytes) : outcome blob_error bytes :=
  if bool_decide (length s = size_) then success (copy s new_Blob) else failure (blob_length INCORRECT_LENGTH).

Definition fromString (data : bytes) : outcome blob_error bytes := fromSpan data.

Definition blob_fromHex (hex : bytes) : outcome blob_error bytes :=
  match unhex hex with success res => fromSpan res | failure e => failure (blob_hex e) end.

Definition blob_toString (blob : bytes) : bytes := blob.
Definition blob_toHex (blob : bytes) : option bytes := hex_upper blob.

(** [operator<<] and [operator>>] of a stream that takes bytes one by one. *)
Definition write_blob {S} (put_byte : S → Z → S) (s : S) (blob : bytes) : S := foldl put_byte s blob.

End blob.

Fixpoint read_blob {S} (get_byte : S → option (Z * S)) (n : nat) (s : S) : option (bytes * S) :=
  match n with
  | O => Some ([], s)
  | S n => '(x, s) ← get_byte s; '(blob, s) ← read_blob get_byte n s; Some (x :: blob, s)
  end.

End Blob.

(** ** [mp_utils.cpp] *)

Module MpUtils.

(** [boost::multiprecision]: the bytes of an unsigned integer, least significant
    first, and back. *)
Class Multiprecision := {
  export_bits : Z → bytes;
  import_bits : bytes → Z
}.

(** The value of little-endian bytes. *)
Fixpoint le_value (b : bytes) : Z :=
  match b with [] => 0 | x :: b => x + 256 * le_value b end.

Class MultiprecisionLaws `{Multiprecision} : Prop := {
  export_bits_value i : 0 ≤ i → Forall is_byte (export_bits i) ∧ le_value (export_bits i) = i;
  export_bits_shortest i n : 0 ≤ i < 256 ^ Z.of_nat n → (0 < n)%nat → (length (export_bits i) ≤ n)%nat;
  import_bits_value b : Forall is_byte b → import_bits b = le_value b
}.

Definition uint64_t_to_bytes (number : Z) : bytes :=
  foldl (λ result i, <[i := Z.land (Z.shiftr number (8 * (7 - Z.of_nat i))) 0xFF]> result) (replicate 8 0) (seq 0 8).

Definition bytes_to_uint64_t (b : bytes) : Z :=
  foldl (λ result i, Z.lor result (u64 (Z.shiftl (b !!! i) (Z.of_nat i * 8)))) 0 (seq 0 8).

Section multiprecision.
Context `{Multiprecision}.

(** [detail::uint_to_bytes]: the bytes over a zeroed array. *)
Definition uint_to_bytes (size : nat) (i : Z) : option bytes :=
  Hex.write_at_start (export_bits i) (replicate size 0).

Definition bytes_to_uint (b : bytes) : Z := match b with [] => 0 | _ => import_bits b end.

Definition uint128_t_to_bytes (i : Z) : option bytes := uint_to_bytes 16 i.
Definition bytes_to_uint128_t (b : bytes) : Z := bytes_to_uint b.
Definition uint256_t_to_bytes (i : Z) : option bytes := uint_to_bytes 32 i.
Definition bytes_to_uint256_t (b : bytes) : Z := bytes_to_uint b.

End multiprecision.

End MpUtils.

(** * Integers as bytes *)

Module Integers.
Import MpUtils Buffer.

(** The value of big-endian bytes. *)
Definition be_value (b : bytes) : Z := foldl (λ v x, 256 * v + x) 0 b.

Lemma be_value_app b c : be_value (b ++ c) = be_value b * 256 ^ size c + be_value c.
Proof.
  unfold be_value. rewrite foldl_app. generalize (foldl (λ v x, 256 * v + x) 0 b) as v. intros v.
  induction c as [|x c IH] using rev_ind; [rewrite size_nil; cbn [foldl]; lia|]. rewrite !foldl_app, size_app. cbn [foldl].
  rewrite Z.pow_add_r by (unfold size; lia). change (256 ^ size [x]) with 256. lia.
Qed.

Lemma be_value_cons x b : be_value (x :: b) = x * 256 ^ size b + be_value b.
Proof. change (x :: b) with ([x] ++ b). rewrite be_value_app. unfold be_value. cbn [foldl]. lia. Qed.

Lemma be_value_reverse b : be_value (reverse b) = le_value b.
Proof.
  induction b as [|x b IH]; [done|]. rewrite reverse_cons, be_value_app, IH. change (256 ^ size [x]) with 256. unfold be_value. cbn [foldl le_value]. lia.
Qed.

Lemma le_value_bound b : Forall is_byte b → 0 ≤ le_value b < 256 ^ size b.
Proof.
  induction 1 as [|x b Hx _ IH]; [done|]. rewrite size_cons, Z.pow_add_r by (unfold size; lia).
  cbn [le_value]. unfold is_byte in Hx. lia.
Qed.

Lemma le_value_zeros b n : le_value (b ++ replicate n 0) = le_value b.
Proof.
  induction b as [|x b IH]; cbn [app le_value]; [|by rewrite IH]. induction n; [done|]. cbn [replicate le_value]. lia.
Qed.

(** Bytes of equal number and value are equal. *)
Lemma le_value_inj b c : Forall is_byte b → Forall is_byte c → length b = length c → le_value b = le_value c → b = c.
Proof.
  intros Hb. revert c. induction Hb as [|x b Hx Hb IH]; intros [|y c] Hc Hlen Heq; try done.
  apply Forall_cons in Hc as [Hy Hc]. cbn [le_value length] in *. unfold is_byte in *.
  assert (x = y) as -> by lia. f_equal. apply IH; [done|lia|lia].
Qed.

(** One byte of [n] and what is above it. *)
Lemma byte_step n k : 0 ≤ k → Z.shiftr n k = 256 * Z.shiftr n (k + 8) + Z.land (Z.shiftr n k) 0xFF ∧
  is_byte (Z.land (Z.shiftr n k) 0xFF).
Proof.
  intros Hk. change 0xFF with (Z.ones 8). rewrite Z.land_ones, !Z.shiftr_div_pow2, Z.pow_add_r by lia.
  rewrite <- Z.div_div by lia. change (2 ^ 8) with 256. unfold is_byte.
  pose proof (Z.div_mod (n / 2 ^ k) 256 ltac:(lia)). pose proof (Z.mod_pos_bound (n / 2 ^ k) 256 ltac:(lia)). lia.
Qed.

Definition be_bytes (n : nat) (x : Z) : bytes :=
  (λ i, Z.land (Z.shiftr x (8 * Z.of_nat i)) 0xFF) <$> reverse (seq 0 n).

Lemma be_bytes_S n x : be_bytes (S n) x = Z.land (Z.shiftr x (8 * Z.of_nat n)) 0xFF :: be_bytes n x.
Proof. unfold be_bytes. by rewrite seq_S, reverse_app. Qed.

Lemma be_bytes_spec n x : 0 ≤ x < 256 ^ Z.of_nat n →
  length (be_bytes n x) = n ∧ Forall is_byte (be_bytes n x) ∧ be_value (be_bytes n x) = x.
Proof.
  intros Hx. split; [unfold be_bytes; by rewrite length_fmap, length_reverse, length_seq|]. split.
  { unfold be_bytes. apply Forall_fmap, Forall_forall. intros i _. cbn. apply byte_step. lia. }
  assert (∀ m, be_value (be_bytes m x) + 256 ^ Z.of_nat m * Z.shiftr x (8 * Z.of_nat m) = x) as Hv.
  { induction m as [|m IH]; [cbn; rewrite Z.shiftr_0_r; lia|]. rewrite be_bytes_S.
    rewrite be_value_cons.
    assert (size (be_bytes m x) = Z.of_nat m) as -> by (unfold size, be_bytes; by rewrite length_fmap, length_reverse, length_seq).
    destruct (byte_step x (8 * Z.of_nat m) ltac:(lia)) as [Hs _].
    replace (8 * Z.of_nat (S m)) with (8 * Z.of_nat m + 8) by lia. rewrite Hs in IH.
    replace (Z.of_nat (S m)) with (Z.of_nat m + 1) by lia. rewrite Z.pow_add_r by lia.
    revert IH. generalize (256 ^ Z.of_nat m) (Z.shiftr x (8 * Z.of_nat m + 8)) (Z.land (Z.shiftr x (8 * Z.of_nat m)) 0xFF). lia. }
  rewrite <- (Hv n) at 2. rewrite Z.shiftr_div_pow2 by lia. rewrite (Z.pow_mul_r 2 8) by lia. change (2 ^ 8) with 256.
  rewrite Z.div_small by done. lia.
Qed.

(** Or-ing a byte in above what is there adds it. *)
Lemma lor_shifted r x k : 0 ≤ k → 0 ≤ r < 2 ^ k → 0 ≤ x → Z.lor r (Z.shiftl x k) = r + 2 ^ k * x.
Proof.
  intros Hk Hr Hx. pose proof (Z.add_lor_land r (Z.shiftl x k)) as Ha.
  assert (Z.land r (Z.shiftl x k) = 0) as Hz.
  { apply Z.bits_inj'. intros i Hi. rewrite Z.land_spec, Z.bits_0. destruct (Z_lt_ge_dec i k).
    - rewrite Z.shiftl_spec_low by done. apply andb_false_r.
    - rewrite <- (Z.mod_small r (2 ^ k)) by done. by rewrite Z.mod_pow2_bits_high by lia. }
  rewrite Z.shiftl_mul_pow2 in * by done. lia.
Qed.

Lemma be_bytes_reverse n b : Forall is_byte b → length b = n → be_bytes n (le_value b) = reverse b.
Proof.
  intros Hb Hlen. destruct (be_bytes_spec n (le_value b)) as (Hl & Hf & Hv); [rewrite <- Hlen; by apply le_value_bound|].
  rewrite <- (reverse_involutive (be_bytes n (le_value b))). f_equal. apply le_value_inj.
  - by apply Forall_reverse.
  - done.
  - by rewrite length_reverse, Hl.
  - by rewrite <- be_value_reverse, reverse_involutive.
Qed.

(** *** The code *)

Lemma uint64_t_to_bytes_eq n : uint64_t_to_bytes n = be_bytes 8 n.
Proof. reflexivity. Qed.

Lemma putUint32_eq n b : putUint32 n b = mkBuffer (data_ b ++ be_bytes 4 n).
Proof. unfold putUint32, push_back. cbn [data_]. by rewrite <- !app_assoc. Qed.

Lemma putUint64_eq n b : putUint64 n b = mkBuffer (data_ b ++ be_bytes 8 n).
Proof. unfold putUint64, push_back. cbn [data_]. by rewrite <- !app_assoc. Qed.

Lemma bytes_to_uint64_t_eq b : Forall is_byte b → length b = 8%nat → bytes_to_uint64_t b = le_value b.
Proof.
  intros Hb Hlen. unfold bytes_to_uint64_t.
  assert (∀ m, (m ≤ 8)%nat →
    foldl (λ result i, Z.lor result (u64 (Z.shiftl (b !!! i) (Z.of_nat i * 8)))) 0 (seq 0 m) = le_value (take m b)) as Hm.
  { induction m as [|m IH]; intros Hm; [done|]. rewrite seq_S, foldl_app, IH by lia. cbn [foldl].
    destruct (lookup_lt_is_Some_2 b m ltac:(lia)) as [x Hx].
    assert (is_byte x) as Hxb by (by eapply Forall_lookup_1). unfold is_byte in Hxb.
    rewrite (take_S_r _ _ _ Hx), (list_lookup_total_correct _ _ _ Hx).
    assert (0 ≤ le_value (take m b) < 2 ^ (Z.of_nat m * 8)) as Hr.
    { replace (Z.of_nat m * 8) with (8 * size (take m b)) by (unfold size; rewrite length_take; lia).
      rewrite Z.pow_mul_r by (unfold size; lia). apply le_value_bound. by apply Forall_take. }
    assert (2 ^ (Z.of_nat m * 8) * 2 ^ 8 ≤ 2 ^ 64) as Hp by (rewrite <- Z.pow_add_r by lia; apply Z.pow_le_mono_r; lia).
    rewrite wrap_small by (rewrite Z.shiftl_mul_pow2 by lia; split; [lia|]; change (2 ^ 8) with 256 in Hp;
      apply Z.lt_le_trans with (256 * 2 ^ (Z.of_nat m * 8)); [apply Z.mul_lt_mono_pos_r; lia|lia]).
    rewrite lor_shifted by (done || lia). rewrite <- (be_value_reverse (take m b ++ [x])), reverse_snoc. cbn [app].
    rewrite be_value_cons, be_value_reverse.
    replace (size (reverse (take m b))) with (Z.of_nat m) by (unfold size; rewrite length_reverse, length_take; lia).
    rewrite (Z.mul_comm (Z.of_nat m)), (Z.pow_mul_r 2 8) by lia. change (2 ^ 8) with 256. lia. }
  rewrite Hm by done. by rewrite take_ge by lia.
Qed.

End Integers.
(** * Hexadecimal *)

Module HexProofs.
Import Hex.

Definition digit_value (c : Z) : option Z :=
  if (0x30 <=? c) && (c <=? 0x39) then Some (c - 0x30)
  else if (0x41 <=? c) && (c <=? 0x46) then Some (c - 0x41 + 10)
  else if (0x61 <=? c) && (c <=? 0x66) then Some (c - 0x61 + 10)
  else None.

Lemma digit_value_is_digit c : is_digit c = bool_decide (is_Some (digit_value c)).
Proof.
  unfold is_digit, digit_value. repeat case_match; cbn [orb andb]; rewrite ?orb_true_r, ?orb_false_r; symmetry;
    (apply bool_decide_eq_true_2; by eexists) || (apply bool_decide_eq_false_2; by intros [? ?]) || idtac.
Qed.

Lemma digit_value_digit x : 0 ≤ x < 16 → digit_value (digit x) = Some x.
Proof.
  intros Hx. assert (forallb (λ x, bool_decide (digit_value (digit x) = Some x)) (seqZ 0 16) = true) as Hall by (vm_compute; done).
  rewrite forallb_forall in Hall. specialize (Hall x). rewrite bool_decide_eq_true in Hall.
  apply Hall, list_elem_of_In, elem_of_seqZ. lia.
Qed.

(** The value of a string of digits. *)
Definition hex_value (s : bytes) : Z := foldl (λ v c, 16 * v + default 0 (digit_value c)) 0 s.

Lemma hex_value_zeros n s : hex_value (replicate n 0x30 ++ s) = hex_value s.
Proof. unfold hex_value. rewrite foldl_app. f_equal. induction n; [done|exact IHn]. Qed.

Lemma digits_spec fuel n : 0 ≤ n < 16 ^ Z.of_nat fuel → (0 < fuel)%nat →
  hex_value (digits fuel n) = n ∧ Forall (λ c, is_digit c = true) (digits fuel n) ∧ (0 < length (digits fuel n) ≤ fuel)%nat.
Proof.
  revert n. induction fuel as [|fuel IH]; intros n Hn Hf; [lia|]. cbn [digits].
  assert (0 ≤ Z.land n 15 < 16 ∧ n = 16 * Z.shiftr n 4 + Z.land n 15) as [Hl Hd].
  { change 15 with (Z.ones 4). rewrite Z.land_ones, Z.shiftr_div_pow2 by lia. change (2 ^ 4) with 16.
    pose proof (Z.div_mod n 16 ltac:(lia)). pose proof (Z.mod_pos_bound n 16 ltac:(lia)). lia. }
  assert (is_digit (digit (Z.land n 15)) = true) as Hdig.
  { rewrite digit_value_is_digit. apply bool_decide_eq_true_2. rewrite digit_value_digit by done. by eexists. }
  assert (∀ s, hex_value (s ++ [digit (Z.land n 15)]) = 16 * hex_value s + Z.land n 15) as Hsnoc.
  { intros s. unfold hex_value. rewrite foldl_app. cbn [foldl]. by rewrite digit_value_digit. }
  destruct (Z.ltb_spec n 16) as [Hlt|Hge].
  - rewrite Hsnoc. change (hex_value []) with 0. split_and!; [|by repeat constructor|cbn; lia|cbn; lia].
    assert (Z.shiftr n 4 = 0) by (rewrite Z.shiftr_div_pow2 by lia; apply Z.div_small; lia). lia.
  - assert (0 < fuel)%nat as Hf0 by (destruct fuel; [cbn in Hn; lia|lia]).
    destruct (IH (Z.shiftr n 4)) as (Hv & Hall & Hlen); [|done|].
    { replace (Z.of_nat (S fuel)) with (Z.of_nat fuel + 1) in Hn by lia. rewrite Z.pow_add_r in Hn by lia. lia. }
    rewrite Hsnoc, Hv, length_app. split_and!; [lia|apply Forall_app_2; [done|by repeat constructor]|cbn; lia|cbn; lia].
Qed.

(** The loop of [int_to_hex] moves every character up by one. *)
Lemma move_up_spec x s z : <[0%nat := x]> (move_up (s ++ [z])) = x :: s.
Proof.
  assert (∀ k j, (j + k = length s)%nat →
    foldl (λ str i, <[S i := str !!! i]> str) (s ++ [z]) (reverse (seq j k)) = take (S j) (s ++ [z]) ++ drop j s) as Hk.
  { induction k as [|k IH]; intros j Hj.
    - cbn. rewrite drop_ge, app_nil_r by lia. rewrite take_ge; [done|]. rewrite length_app. cbn. lia.
    - cbn [seq]. rewrite reverse_cons, foldl_app, IH by lia. cbn [foldl].
      destruct (lookup_lt_is_Some_2 s j ltac:(lia)) as [y Hy].
      assert (((take (S (S j)) (s ++ [z]) ++ drop (S j) s) !!! j) = y) as ->.
      { apply list_lookup_total_correct. rewrite lookup_app_l by (rewrite length_take, length_app; cbn [length]; lia).
        rewrite lookup_take_lt by lia. by apply lookup_app_l_Some. }
      destruct (lookup_lt_is_Some_2 (s ++ [z]) (S j)) as [u Hu]; [rewrite length_app; cbn [length]; lia|].
      rewrite (take_S_r _ _ _ Hu), <- app_assoc. rewrite insert_app_r_alt by (rewrite length_take, length_app; cbn [length]; lia).
      rewrite length_take_le by (rewrite length_app; cbn [length]; lia). rewrite Nat.sub_diag. cbn. by rewrite (drop_S _ _ _ Hy). }
  unfold move_up. replace (length (s ++ [z]) - 1)%nat with (length s) by (rewrite length_app; cbn [length]; lia).
  rewrite (Hk (length s) 0%nat) by lia. by destruct s.
Qed.

(** [int_to_hex] of a 64-bit integer is an even number of digits, at least
    [fixed_width] and at most one more than it needs, whose value is the integer. *)
Theorem int_to_hex_spec n fixed_width : 0 ≤ n < 2 ^ 64 →
  let s := int_to_hex n fixed_width in
  hex_value s = n ∧ Forall (λ c, is_digit c = true) s ∧ Nat.Even (length s) ∧
  (length s = fixed_width `max` length (digits 16 n) ∨ length s = S (fixed_width `max` length (digits 16 n)))%nat.
Proof.
  intros Hn. destruct (digits_spec 16 n) as (Hv & Hall & Hlen); [done|lia|]. unfold int_to_hex.
  set (str := formatted n fixed_width).
  assert (length str = fixed_width `max` length (digits 16 n))%nat as Hl.
  { unfold str, formatted. rewrite length_app, length_replicate. lia. }
  assert (hex_value str = n ∧ Forall (λ c, is_digit c = true) str) as [Hsv Hsd].
  { unfold str, formatted. rewrite hex_value_zeros. split; [done|]. apply Forall_app_2; [|done]. by apply Forall_replicate. }
  assert (size str mod 2 = 0 ↔ Nat.Even (length str)) as Heven.
  { unfold size. split.
    - intros H2. exists (Z.to_nat (Z.of_nat (length str) / 2)). pose proof (Z.div_mod (Z.of_nat (length str)) 2 ltac:(lia)). lia.
    - intros [k ->]. rewrite Nat2Z.inj_mul, Z.mul_comm. apply Z_mod_mult. }
  destruct (Z.eqb_spec (size str mod 2) 0) as [He|Ho]; cbn [negb].
  - split_and!; [done|done|by apply Heven|by left].
  - rewrite move_up_spec. split_and!; [exact Hsv|by constructor| |right; cbn; by f_equal].
    apply Nat.Even_succ. rewrite Heven in Ho. destruct (Nat.Even_or_Odd (length str)); [done|done].
Qed.

Lemma int_to_hex_spec_witness :
  int_to_hex 0x1A2 3 = [0x30; 0x31; 0x41; 0x32] ∧ hex_value (int_to_hex 0x1A2 3) = 0x1A2.
Proof. split; [reflexivity|]. apply (int_to_hex_spec 0x1A2 3). lia. Defined.

Section roundtrip.
Context `{BoostHexLaws}.

Lemma hex_written (b : bytes) : hex_upper b = Some (boost_hex b) ∧ hex_lower b = Some (boost_hex_lower b).
Proof.
  unfold hex_upper, hex_lower, write_at_start. rewrite boost_hex_length, boost_hex_lower_length, length_replicate.
  rewrite (proj2 (Nat.leb_le _ _)) by lia. rewrite !drop_ge, !app_nil_r by (rewrite length_replicate; lia). done.
Qed.

(** Hexadecimal and back.  Writing never leaves the string that was sized for
    it, gives two characters per byte, and both cases, through [unhex],
    [Buffer::fromHex] and [Blob::fromHex], give the bytes back; a blob of another
    length is refused; [unhex] succeeds exactly on digits of an even number and
    reports an odd number of digits as [NOT_ENOUGH_INPUT]. *)
Theorem hex_roundtrip (b : bytes) : Forall is_byte b →
  (∃ s, hex_upper b = Some s ∧ length s = (2 * length b)%nat ∧ unhex s = success b ∧
    Buffer.toHex (Buffer.mkBuffer b) = Some s ∧ Buffer.fromHex s = success (Buffer.mkBuffer b) ∧
    Blob.blob_toHex b = Some s ∧ Blob.blob_fromHex (length b) s = success b ∧
    ∀ n, n ≠ length b → Blob.blob_fromHex n s = failure (Blob.blob_length Blob.INCORRECT_LENGTH)) ∧
  (∃ s, hex_lower b = Some s ∧ length s = (2 * length b)%nat ∧ unhex s = success b) ∧
  (∀ s, is_success (unhex s) = true ↔ Forall (λ c, is_digit c = true) s ∧ Nat.Even (length s)) ∧
  (∀ s, Forall (λ c, is_digit c = true) s → Nat.Odd (length s) → unhex s = failure NOT_ENOUGH_INPUT).
Proof.
  intros Hb. destruct (hex_written b) as [Hup Hlow].
  assert (∀ s, boost_unhex s = success b → unhex s = success b) as Hun by (intros s Hs; unfold unhex; by rewrite Hs).
  assert (∀ s, Forall (λ c, is_digit c = true) s ∨ Exists (λ c, is_digit c = false) s) as Hdec.
  { intros s. destruct (Forall_Exists_dec (λ c, is_digit c = true) (λ c, is_digit c = false)
      (λ c, match is_digit c as b return {b = true} + {b = false} with true => left eq_refl | false => right eq_refl end) s); auto. }
  split_and!.
  - exists (boost_hex b). pose proof (boost_unhex_hex b Hb) as Hu. split_and!; try done.
    + apply boost_hex_length.
    + by apply Hun.
    + unfold Buffer.fromHex. by rewrite (Hun _ Hu).
    + unfold Blob.blob_fromHex, Blob.fromSpan, Blob.copy, Blob.new_Blob. rewrite (Hun _ Hu), bool_decide_true by done.
      rewrite drop_ge, app_nil_r by (rewrite length_replicate; lia). done.
    + intros n Hn. unfold Blob.blob_fromHex, Blob.fromSpan. rewrite (Hun _ Hu). by rewrite bool_decide_false.
  - exists (boost_hex_lower b). split_and!; [done|apply boost_hex_lower_length|]. by apply Hun, boost_unhex_hex_lower.
  - intros s. assert (is_success (unhex s) = is_success (boost_unhex s)) as ->.
    { unfold unhex. by destruct (boost_unhex s) as [|[]]. }
    split.
    + intros Hs. destruct (Hdec s) as [Hd|Hx]; [|by rewrite boost_unhex_not_hex in Hs].
      split; [done|]. destruct (boost_unhex s) as [b'|] eqn:Hb'; [|done]. apply boost_unhex_length in Hb'. by exists (length b').
    + intros [Hd He]. by apply boost_unhex_even.
  - intros s Hd Ho. unfold unhex. by rewrite boost_unhex_odd.
Qed.

End roundtrip.

End HexProofs.
(** * Buffers and multiprecision integers *)

Module BufferProofs.
Import Buffer MpUtils Integers.

Lemma std_equal_spec a b : std_equal a b = bool_decide (a = b).
Proof.
  revert b. induction a as [|x a IH]; intros [|y b]; try done. cbn [std_equal]. rewrite IH.
  destruct (Z.eqb_spec x y) as [->|Hne]; cbn [andb]; [|by rewrite bool_decide_false by congruence].
  apply bool_decide_ext. naive_solver.
Qed.

(** What an inserted value adds. *)
Definition inserted_bytes (x : inserted) : bytes :=
  match x with
  | insert_uint8 value => [value]
  | insert_uint32 value => be_bytes 4 value
  | insert_uint64 value => be_bytes 8 value
  | insert_string_view s | insert_span s | insert_vector s => s
  end.

Lemma assign_through_spec b x : assign_through b x = mkBuffer (data_ b ++ inserted_bytes x).
Proof. destruct x; [done|apply putUint32_eq|apply putUint64_eq|done..]. Qed.

(** A buffer is the concatenation of what was put into it.  Values inserted
    one after the other, bytes, big-endian integers, strings and vectors, are
    behind each other in order; the three comparisons agree with equality of the
    bytes; a sub-buffer that fits is that range, [-1] is the rest, and one that
    does not fit breaks the contract of the span; [resize] keeps what fits and
    fills with zeros. *)
Theorem buffer_operations b xs v offset n :
  0 ≤ offset < 2 ^ 64 → 0 ≤ n < 2 ^ 64 → size (data_ b) < 2 ^ 63 →
  data_ (foldl assign_through b xs) = data_ b ++ concat (inserted_bytes <$> xs) ∧
  (eq_Buffer b (mkBuffer v) = true ↔ data_ b = v) ∧ eq_vector b v = eq_Buffer b (mkBuffer v) ∧ eq_span b v = eq_Buffer b (mkBuffer v) ∧
  subbuffer offset n b =
    (if decide (offset ≤ size (data_ b) ∧ (n = 2 ^ 64 - 1 ∨ offset + n ≤ size (data_ b)))
     then returned (mkBuffer (take (Z.to_nat n) (drop (Z.to_nat offset) (data_ b)))) else thrown) ∧
  buffer_size (resize n b) = n ∧
  ∀ i, 0 ≤ i < n → get i (resize n b) = if i <? size (data_ b) then get i b else Some 0.
Proof.
  intros Hoff Hn Hsz. split_and!.
  - clear. revert b. induction xs as [|x xs IH]; intros b; cbn [foldl fmap list_fmap concat]; [by rewrite app_nil_r|].
    rewrite IH, assign_through_spec. cbn [data_]. by rewrite <- app_assoc.
  - apply bool_decide_eq_true.
  - done.
  - apply std_equal_spec.
  - unfold subbuffer, subspan. pose proof (size_nonneg (data_ b)).
    destruct (Z.ltb_spec (size (data_ b)) offset); [by rewrite decide_False by lia|].
    destruct (Z.eqb_spec n (2 ^ 64 - 1)) as [->|Hne].
    + rewrite decide_True by lia. cbn [mbind attempt_bind]. do 2 f_equal. rewrite take_ge; [done|].
      rewrite length_drop. unfold size in *. lia.
    + destruct (Z.ltb_spec (size (data_ b) - offset) n); [by rewrite decide_False by lia|by rewrite decide_True by lia].
  - unfold buffer_size, resize, size. cbn [data_]. rewrite length_app, length_take, length_replicate. lia.
  - intros i Hi. unfold get, resize. cbn [data_]. unfold size. destruct (Z.ltb_spec i (Z.of_nat (length (data_ b)))).
    + rewrite lookup_app_l by (rewrite length_take; lia). by rewrite lookup_take_lt by lia.
    + rewrite lookup_app_r by (rewrite length_take; lia). apply lookup_replicate. split; [done|]. rewrite length_take. lia.
Qed.

Lemma buffer_operations_witness :
  data_ (foldl assign_through new_Buffer [insert_uint32 258; insert_vector [7]]) = [0; 0; 1; 2; 7] ∧
  subbuffer 3 2 (mkBuffer [0; 0; 1; 2; 7]) = returned (mkBuffer [2; 7]).
Proof.
  destruct (buffer_operations new_Buffer [insert_uint32 258; insert_vector [7]] [] 0 0) as [-> _]; [lia..|done|].
  destruct (buffer_operations (mkBuffer [0; 0; 1; 2; 7]) [] [] 3 2) as (_ & _ & _ & _ & -> & _); [lia..|done|]. split; reflexivity.
Defined.

Section multiprecision.
Context `{MultiprecisionLaws}.

Lemma uint_to_bytes_spec n i : 0 ≤ i < 256 ^ Z.of_nat n → (0 < n)%nat →
  ∃ a, uint_to_bytes n i = Some a ∧ length a = n ∧ le_value a = i ∧ bytes_to_uint a = i.
Proof.
  intros Hi Hn. destruct (export_bits_value i ltac:(lia)) as [Hb Hv]. pose proof (export_bits_shortest i n Hi Hn) as Hlen.
  unfold uint_to_bytes, Hex.write_at_start. rewrite length_replicate, (proj2 (Nat.leb_le _ _)) by done. rewrite drop_replicate.
  assert (le_value (export_bits i ++ replicate (n - length (export_bits i)) 0) = i) as Hval by (by rewrite le_value_zeros).
  eexists. split; [done|]. split_and!; [rewrite length_app, length_replicate; lia|done|].
  unfold bytes_to_uint. destruct (export_bits i ++ replicate (n - length (export_bits i)) 0) as [|x l] eqn:Hl; [done|].
  rewrite <- Hl in Hval |- *. rewrite import_bits_value; [done|]. apply Forall_app_2; [done|]. by apply Forall_replicate.
Qed.

(** C32: integers as bytes.  [putUint64] and [uint64_t_to_bytes] write the same
    eight bytes, most significant first; [bytes_to_uint64_t] reads the least
    significant byte first, so that reading what was written reverses the bytes of
    the integer and gives it back exactly when they are a palindrome.  The 128- and
    256-bit integers come back. *)
Theorem integer_bytes n : 0 ≤ n < 2 ^ 64 →
  (∀ b, data_ (putUint64 n b) = data_ b ++ uint64_t_to_bytes n) ∧
  length (uint64_t_to_bytes n) = 8%nat ∧ be_value (uint64_t_to_bytes n) = n ∧
  uint64_t_to_bytes (bytes_to_uint64_t (uint64_t_to_bytes n)) = reverse (uint64_t_to_bytes n) ∧
  (bytes_to_uint64_t (uint64_t_to_bytes n) = n ↔ reverse (uint64_t_to_bytes n) = uint64_t_to_bytes n) ∧
  (∀ i, 0 ≤ i < 2 ^ 128 → ∃ a, uint128_t_to_bytes i = Some a ∧ length a = 16%nat ∧ bytes_to_uint128_t a = i) ∧
  (∀ i, 0 ≤ i < 2 ^ 256 → ∃ a, uint256_t_to_bytes i = Some a ∧ length a = 32%nat ∧ bytes_to_uint256_t a = i).
Proof.
  intros Hn. destruct (be_bytes_spec 8 n Hn) as (Hl & Hf & Hv). rewrite uint64_t_to_bytes_eq.
  rewrite bytes_to_uint64_t_eq by done.
  assert (uint64_t_to_bytes (le_value (be_bytes 8 n)) = reverse (be_bytes 8 n)) as Hrev.
  { rewrite uint64_t_to_bytes_eq. by apply be_bytes_reverse. }
  split_and!; [intros b; by rewrite putUint64_eq|done|done|done| | |].
  - rewrite uint64_t_to_bytes_eq in Hrev. split; [intros He; by rewrite He in Hrev|intros He].
    rewrite <- be_value_reverse, He. exact Hv.
  - intros i Hi. destruct (uint_to_bytes_spec 16 i) as (a & Ha & Hla & _ & Hb); [done|lia|]. by exists a.
  - intros i Hi. destruct (uint_to_bytes_spec 32 i) as (a & Ha & Hla & _ & Hb); [done|lia|]. by exists a.
Qed.

End multiprecision.

End BufferProofs.

(** * Concrete instances of the libraries *)

Module SampleBytes.
Import Hex HexProofs MpUtils Integers BufferProofs.

Definition hex_of (letter : Z) (b : bytes) : bytes :=
  let d x := if x <? 10 then 0x30 + x else letter + x - 10 in
  b ≫= λ x, [d (x / 16 mod 16); d (x mod 16)].

Fixpoint unhex_of (s : bytes) : outcome boost_exception bytes :=
  match s with
  | [] => success []
  | [x] => failure (if is_digit x then not_enough_input else non_hex_input)
  | x :: y :: s =>
    match digit_value x, digit_value y with
    | Some x, Some y => b ← unhex_of s; success (16 * x + y :: b)
    | _, _ => failure non_hex_input
    end
  end.

#[export] Instance hex : BoostHex := {| boost_hex := hex_of 0x41; boost_hex_lower := hex_of 0x61; boost_unhex := unhex_of |}.

Lemma hex_of_length letter b : length (hex_of letter b) = (2 * length b)%nat.
Proof. induction b as [|x b IH]; [done|]. unfold hex_of in *. rewrite bind_cons, length_app, IH. cbn [length]. lia. Qed.

Lemma digit_letter letter x : letter ∈ [0x41; 0x61] → 0 ≤ x < 16 →
  digit_value (if x <? 10 then 0x30 + x else letter + x - 10) = Some x.
Proof.
  intros Hl Hx. assert (forallb (λ l, forallb (λ x, bool_decide (digit_value (if x <? 10 then 0x30 + x else l + x - 10) = Some x))
    (seqZ 0 16)) [0x41; 0x61] = true) as Hall by (vm_compute; done).
  rewrite forallb_forall in Hall. specialize (Hall letter). rewrite forallb_forall in Hall.
  specialize (Hall ltac:(by apply list_elem_of_In) x). rewrite bool_decide_eq_true in Hall.
  apply Hall, list_elem_of_In, elem_of_seqZ. lia.
Qed.

Lemma unhex_hex_of letter b : letter ∈ [0x41; 0x61] → Forall is_byte b → unhex_of (hex_of letter b) = success b.
Proof.
  intros Hl. induction 1 as [|x b Hx _ IH]; [done|]. unfold hex_of in *. rewrite bind_cons. cbn [app unhex_of].
  unfold is_byte in Hx. rewrite !digit_letter by (done || apply Z.mod_pos_bound; lia). rewrite IH. cbn [mbind outcome_bind].
  do 2 f_equal. rewrite (Z.mod_small (x / 16)) by (pose proof (Z.div_lt_upper_bound x 16 16); pose proof (Z.div_pos x 16); lia).
  pose proof (Z.div_mod x 16). lia.
Qed.

Lemma two_ind (P : bytes → Prop) : P [] → (∀ x, P [x]) → (∀ x y s, P s → P (x :: y :: s)) → ∀ s, P s.
Proof. intros H0 H1 H2. fix IH 1. intros [|x [|y s]]; [done|done|]. apply H2, IH. Qed.

Lemma unhex_of_cases s :
  match unhex_of s with
  | success b => length s = (2 * length b)%nat ∧ Forall (λ x, is_digit x = true) s
  | failure e => Nat.Even (length s) ∧ Exists (λ x, is_digit x = false) s ∨
      Nat.Odd (length s) ∧ (Forall (λ x, is_digit x = true) s → e = not_enough_input)
  end.
Proof.
  assert (∀ x, is_digit x = match digit_value x with Some _ => true | None => false end) as Hd.
  { intros x. rewrite digit_value_is_digit. destruct (digit_value x); [apply bool_decide_eq_true_2; by eexists|apply bool_decide_eq_false_2; by intros [? ?]]. }
  induction s as [|x|x y s IH] using two_ind; cbn [unhex_of]; [done| |].
  - right. split; [by exists 0%nat|]. by intros [-> _]%Forall_cons.
  - assert (Nat.Even (length s) → Nat.Even (length (x :: y :: s))) as He by (intros [k Hk]; exists (S k); cbn [length]; lia).
    assert (Nat.Odd (length s) → Nat.Odd (length (x :: y :: s))) as Ho by (intros [k Hk]; exists (S k); cbn [length]; lia).
    destruct (digit_value x) as [dx|] eqn:Hx; [destruct (digit_value y) as [dy|] eqn:Hy|].
    + destruct (unhex_of s) as [b|e]; cbn [mbind outcome_bind].
      * destruct IH as [Hl Hf]. split; [cbn [length]; lia|]. repeat (apply Forall_cons_2; [by rewrite Hd, ?Hx, ?Hy|]). done.
      * destruct IH as [[H1 H2]|[H1 H2]]; [left; split; [by apply He|by repeat apply Exists_cons_tl]|right; split; [by apply Ho|]].
        intros [_ [_ Hf]%Forall_cons]%Forall_cons. by apply H2.
    + destruct (Nat.Even_or_Odd (length s)); [left; split; [by apply He|]; apply Exists_cons_tl, Exists_cons_hd; by rewrite Hd, Hy|].
      right. split; [by apply Ho|]. intros [_ [Hc _]%Forall_cons]%Forall_cons. rewrite Hd, Hy in Hc. done.
    + destruct (Nat.Even_or_Odd (length s)); [left; split; [by apply He|]; apply Exists_cons_hd; by rewrite Hd, Hx|].
      right. split; [by apply Ho|]. intros [Hc _]%Forall_cons. rewrite Hd, Hx in Hc. done.
Qed.

#[export] Instance hex_laws : BoostHexLaws.
Proof.
  split; cbn [boost_hex boost_hex_lower boost_unhex hex]; intros.
  - apply hex_of_length.
  - apply hex_of_length.
  - apply unhex_hex_of; [by left|done].
  - apply unhex_hex_of; [by right; left|done].
  - pose proof (unhex_of_cases s) as Hc. rewrite H in Hc. apply Hc.
  - pose proof (unhex_of_cases s) as Hc. destruct (unhex_of s) as [b|]; [|done]. destruct Hc as [_ Hf].
    apply Exists_exists in H as (x & Hx & Hd). rewrite Forall_forall in Hf. specialize (Hf x Hx). congruence.
  - pose proof (unhex_of_cases s) as Hc. destruct (unhex_of s) as [b|e].
    + destruct Hc as [Hl _], H0 as [k Hk]. lia.
    + destruct Hc as [[[k1 H1] _]|[_ H2]]; [destruct H0 as [k2 H2]; lia|]. by rewrite H2.
  - pose proof (unhex_of_cases s) as Hc. destruct (unhex_of s) as [b|e]; [done|]. destruct Hc as [[_ Hx]|[[k1 H1] _]].
    + apply Exists_exists in Hx as (x & Hx & Hd). rewrite Forall_forall in H. specialize (H x Hx). congruence.
    + destruct H0 as [k2 H2]. lia.
Qed.

Fixpoint le_bytes (fuel : nat) (i : Z) : bytes :=
  match fuel with O => [] | S fuel => if i =? 0 then [] else i mod 256 :: le_bytes fuel (i / 256) end.

(** Zero has one byte. *)
#[export] Instance multiprecision : Multiprecision :=
  {| export_bits i := if i =? 0 then [0] else le_bytes (S (Z.to_nat (Z.log2 i))) i; import_bits := le_value |}.

Lemma le_bytes_spec fuel i : 0 ≤ i < 2 ^ Z.of_nat fuel → Forall is_byte (le_bytes fuel i) ∧ le_value (le_bytes fuel i) = i ∧
  ∀ n, i < 256 ^ Z.of_nat n → (length (le_bytes fuel i) ≤ n)%nat.
Proof.
  revert i. induction fuel as [|fuel IH]; intros i Hi; cbn [le_bytes]; [split_and!; [done|cbn in *; lia|cbn; lia]|].
  destruct (Z.eqb_spec i 0) as [->|Hne]; [split_and!; [done|done|cbn; lia]|].
  pose proof (Z.div_mod i 256 ltac:(lia)) as Hd. pose proof (Z.mod_pos_bound i 256 ltac:(lia)) as Hm.
  destruct (IH (i / 256)) as (Hf & Hv & Hl).
  { replace (Z.of_nat (S fuel)) with (Z.of_nat fuel + 1) in Hi by lia. rewrite Z.pow_add_r in Hi by lia.
    split; [apply Z.div_pos; lia|]. apply Z.div_lt_upper_bound; lia. }
  split_and!; [by constructor|cbn [le_value]; lia|]. intros [|n] Hn; [cbn in Hn; lia|]. cbn [length].
  replace (Z.of_nat (S n)) with (Z.of_nat n + 1) in Hn by lia. rewrite Z.pow_add_r in Hn by lia.
  pose proof (Hl n ltac:(apply Z.div_lt_upper_bound; lia)). lia.
Qed.

Lemma log2_fuel i : 0 < i → i < 2 ^ Z.of_nat (S (Z.to_nat (Z.log2 i))).
Proof. intros Hi. pose proof (Z.log2_spec i Hi). pose proof (Z.log2_nonneg i). replace (Z.of_nat _) with (Z.succ (Z.log2 i)) by lia. lia. Qed.

#[export] Instance multiprecision_laws : MultiprecisionLaws.
Proof.
  split; cbn [export_bits import_bits multiprecision]; [| |done].
  - intros i Hi. destruct (Z.eqb_spec i 0) as [->|Hne]; [split; [by repeat constructor|done]|].
    destruct (le_bytes_spec _ i (conj Hi (log2_fuel i ltac:(lia)))) as (Hf & Hv & _). done.
  - intros i n Hi Hn. destruct (Z.eqb_spec i 0) as [->|Hne]; [cbn; lia|].
    destruct (le_bytes_spec _ i (conj (proj1 Hi) (log2_fuel i ltac:(lia)))) as (_ & _ & Hl). apply Hl, Hi.
Qed.

End SampleBytes.

#[export] Existing Instances SampleBytes.hex SampleBytes.hex_laws SampleBytes.multiprecision SampleBytes.multiprecision_laws.

Lemma hex_roundtrip_witness :
  Hex.hex_upper [0xAB; 0x01] = Some [0x41; 0x42; 0x30; 0x31] ∧ Hex.unhex [0x41; 0x42; 0x30; 0x31] = success [0xAB; 0x01].
Proof.
  destruct (HexProofs.hex_roundtrip [0xAB; 0x01]) as [(s & Hs & _ & Hu & _) _]; [repeat constructor; lia|].
  vm_compute in Hs. injection Hs as <-. split; [vm_compute; reflexivity|exact Hu].
Defined.

Lemma integer_bytes_witness :
  MpUtils.bytes_to_uint64_t (MpUtils.uint64_t_to_bytes 1) = 2 ^ 56 ∧ 1 ≠ 2 ^ 56 ∧
  ∃ a, MpUtils.uint128_t_to_bytes 1000 = Some a ∧ MpUtils.bytes_to_uint128_t a = 1000.
Proof.
  split; [vm_compute; reflexivity|]. split; [done|].
  destruct (BufferProofs.integer_bytes 1) as (_ & _ & _ & _ & _ & H128 & _); [lia|].
  destruct (H128 1000) as (a & Ha & _ & Hb); [lia|]. exists a. split; [exact Ha|exact Hb].
Defined.
