(* ===== verification/Crypto.v ===== *)
(** The hash functions of [src/crypto/blake2] ([blake2b.c], [blake2s.c], [blake2b160.cpp]).

    The two C files are one text with different constants: a [variant] has the
    constants, the definitions are over it, and [BLAKE2b] and [BLAKE2s] are the
    instances.  Words are [Z]s kept below [2 ^ w] by [wrap w] where C wraps; arrays
    are lists updated by index; a context starts with whatever its memory holds. *)
From stdpp Require Import base numbers list.
From S2P Require Import Prelude.

Open Scope Z_scope.

Module Blake2.

Record variant := mkVariant {
  w : Z;                    (* bits of a word *)
  block : nat;              (* bytes of a block *)
  rounds : nat;
  iv : list Z;
  sigma : list (list nat);
  rots : Z * Z * Z * Z;
  max_out : Z               (* also the maximal key length *)
}.

Definition word_bytes (p : variant) : Z := w p / 8.

(** ** The context *)

Record blake2_ctx := mkCtx {
  b : bytes;
  h : list Z;
  t0 : Z;
  t1 : Z;
  c : nat;
  outlen : Z
}.

Section blake2.
Context (p : variant).

(** [ROTR64], [ROTR32]. *)
Definition ROTR (x y : Z) : Z := Z.lxor (Z.shiftr x y) (wrap (w p) (Z.shiftl x (w p - y))).

(** [B2B_GET64], [B2S_GET32]: the little-endian word at the start of [bs]. *)
Definition GET (bs : bytes) : Z :=
  foldl Z.lxor 0 (imap (λ i x, wrap (w p) (Z.shiftl x (8 * Z.of_nat i))) (take (Z.to_nat (word_bytes p)) bs)).

(** [B2B_G], [B2S_G] on the work array [v]. *)
Definition G (a b c d : nat) (x y : Z) (v : list Z) : list Z :=
  let '(r1, r2, r3, r4) := rots p in
  let v := <[a := wrap (w p) (v !!! a + v !!! b + x)]> v in
  let v := <[d := ROTR (Z.lxor (v !!! d) (v !!! a)) r1]> v in
  let v := <[c := wrap (w p) (v !!! c + v !!! d)]> v in
  let v := <[b := ROTR (Z.lxor (v !!! b) (v !!! c)) r2]> v in
  let v := <[a := wrap (w p) (v !!! a + v !!! b + y)]> v in
  let v := <[d := ROTR (Z.lxor (v !!! d) (v !!! a)) r3]> v in
  let v := <[c := wrap (w p) (v !!! c + v !!! d)]> v in
  <[b := ROTR (Z.lxor (v !!! b) (v !!! c)) r4]> v.

(** The body of the loop over the rounds, with the row [s] of [sigma]. *)
Definition round (m : list Z) (v : list Z) (s : list nat) : list Z :=
  let x i := m !!! (s !!! i) in
  let v := G 0 4 8 12 (x 0%nat) (x 1%nat) v in
  let v := G 1 5 9 13 (x 2%nat) (x 3%nat) v in
  let v := G 2 6 10 14 (x 4%nat) (x 5%nat) v in
  let v := G 3 7 11 15 (x 6%nat) (x 7%nat) v in
  let v := G 0 5 10 15 (x 8%nat) (x 9%nat) v in
  let v := G 1 6 11 12 (x 10%nat) (x 11%nat) v in
  let v := G 2 7 8 13 (x 12%nat) (x 13%nat) v in
  G 3 4 9 14 (x 14%nat) (x 15%nat) v.

Definition words (bs : bytes) : list Z :=
  (λ i : nat, GET (drop (Z.to_nat (word_bytes p) * i) bs)) <$> seq 0 16.

(** [blake2b_compress], [blake2s_compress]. *)
Definition compress (ctx : blake2_ctx) (last : bool) : blake2_ctx :=
  let v := take 8 (h ctx) ++ iv p in
  let v := <[12%nat := Z.lxor (v !!! 12%nat) (t0 ctx)]> v in
  let v := <[13%nat := Z.lxor (v !!! 13%nat) (t1 ctx)]> v in
  let v := if last then <[14%nat := wrap (w p) (Z.lnot (v !!! 14%nat))]> v else v in
  let v := foldl (round (words (b ctx))) v (take (rounds p) (sigma p)) in
  mkCtx (b ctx) (imap (λ i x, Z.lxor x (Z.lxor (v !!! i) (v !!! (i + 8)%nat))) (h ctx))
    (t0 ctx) (t1 ctx) (c ctx) (outlen ctx).

(** The bytes in the buffer are counted, the carry goes to the high word. *)
Definition count_bytes (ctx : blake2_ctx) : blake2_ctx :=
  let t := wrap (w p) (t0 ctx + Z.of_nat (c ctx)) in
  mkCtx (b ctx) (h ctx) t (if t <? Z.of_nat (c ctx) then wrap (w p) (t1 ctx + 1) else t1 ctx)
    (c ctx) (outlen ctx).

(** The loop body of [blake2b_update], [blake2s_update]. *)
Definition update_byte (ctx : blake2_ctx) (x : Z) : blake2_ctx :=
  let ctx :=
    if bool_decide (c ctx = block p) then
      let ctx := compress (count_bytes ctx) false in
      mkCtx (b ctx) (h ctx) (t0 ctx) (t1 ctx) 0 (outlen ctx)
    else ctx in
  mkCtx (<[c ctx := x]> (b ctx)) (h ctx) (t0 ctx) (t1 ctx) (S (c ctx)) (outlen ctx).

Definition update (ctx : blake2_ctx) (input : bytes) : blake2_ctx := foldl update_byte ctx input.

(** [blake2b_init], [blake2s_init] of a context with any contents; [None] is -1. *)
Definition init (ctx : blake2_ctx) (outlen : Z) (key : bytes) : option blake2_ctx :=
  let keylen := size key in
  if (outlen =? 0) || (max_out p <? outlen) || (max_out p <? keylen) then None
  else
    let h0 := wrap (w p) (Z.lxor (iv p !!! 0%nat) (Z.lxor (Z.lxor 0x01010000 (wrap 64 (Z.shiftl keylen 8))) outlen)) in
    let ctx :=
      mkCtx (take (length key) (b ctx) ++ replicate (block p - length key) 0) (<[0%nat := h0]> (iv p)) 0 0 0 outlen in
    if 0 <? keylen then
      let ctx := update ctx key in
      Some (mkCtx (b ctx) (h ctx) (t0 ctx) (t1 ctx) (block p) outlen)
    else Some ctx.

(** The digest: the words of the state in little endian. *)
Definition digest (h : list Z) (outlen : Z) : bytes :=
  (λ i, Z.land (Z.shiftr (h !!! Z.to_nat (Z.shiftr i (Z.log2 (word_bytes p)))) (8 * Z.land i (word_bytes p - 1))) 0xFF)
    <$> seqZ 0 outlen.

(** [blake2b_final], [blake2s_final]: the context it leaves and the digest. *)
Definition final (ctx : blake2_ctx) : blake2_ctx * bytes :=
  let ctx := count_bytes ctx in
  let ctx :=
    mkCtx (take (c ctx) (b ctx) ++ replicate (block p - c ctx) 0) (h ctx) (t0 ctx) (t1 ctx) (block p) (outlen ctx) in
  let ctx := compress ctx true in
  (ctx, digest (h ctx) (outlen ctx)).

(** [sgns_blake2b], [blake2s]: all at once; [None] is -1. *)
Definition hash (ctx : blake2_ctx) (outlen : Z) (key input : bytes) : option bytes :=
  match init ctx outlen key with
  | None => None
  | Some ctx => Some (final (update ctx input)).2
  end.

End blake2.

(** ** The variants *)

Definition sigma10 : list (list nat) :=
  [[0; 1; 2; 3; 4; 5; 6; 7; 8; 9; 10; 11; 12; 13; 14; 15];
   [14; 10; 4; 8; 9; 15; 13; 6; 1; 12; 0; 2; 11; 7; 5; 3];
   [11; 8; 12; 0; 5; 2; 15; 13; 10; 14; 3; 6; 7; 1; 9; 4];
   [7; 9; 3; 1; 13; 12; 11; 14; 2; 6; 5; 10; 4; 0; 15; 8];
   [9; 0; 5; 7; 2; 4; 10; 15; 14; 1; 11; 12; 6; 8; 3; 13];
   [2; 12; 6; 10; 0; 11; 8; 3; 4; 13; 7; 5; 15; 14; 1; 9];
   [12; 5; 1; 15; 14; 13; 4; 10; 0; 7; 6; 3; 9; 2; 8; 11];
   [13; 11; 7; 14; 12; 1; 3; 9; 5; 0; 15; 4; 8; 6; 2; 10];
   [6; 15; 14; 9; 11; 3; 0; 8; 12; 2; 13; 7; 1; 4; 10; 5];
   [10; 2; 8; 4; 7; 6; 1; 5; 15; 11; 9; 14; 3; 12; 13; 0]]%nat.

Definition sigma12 : list (list nat) :=
  sigma10 ++
  [[0; 1; 2; 3; 4; 5; 6; 7; 8; 9; 10; 11; 12; 13; 14; 15];
   [14; 10; 4; 8; 9; 15; 13; 6; 1; 12; 0; 2; 11; 7; 5; 3]]%nat.

Definition blake2b_iv : list Z :=
  [0x6A09E667F3BCC908; 0xBB67AE8584CAA73B; 0x3C6EF372FE94F82B; 0xA54FF53A5F1D36F1;
   0x510E527FADE682D1; 0x9B05688C2B3E6C1F; 0x1F83D9ABFB41BD6B; 0x5BE0CD19137E2179].

Definition blake2s_iv : list Z :=
  [0x6A09E667; 0xBB67AE85; 0x3C6EF372; 0xA54FF53A; 0x510E527F; 0x9B05688C; 0x1F83D9AB; 0x5BE0CD19].

Definition BLAKE2b : variant := mkVariant 64 128 12 blake2b_iv sigma12 (32, 24, 16, 63) 64.
Definition BLAKE2s : variant := mkVariant 32 64 10 blake2s_iv sigma10 (16, 12, 8, 7) 32.

(** ** The functions of [blake2s.c] *)

Definition ROTR32 := ROTR BLAKE2s.
Definition B2S_GET32 := GET BLAKE2s.
Definition B2S_G := G BLAKE2s.
Definition blake2s_compress := compress BLAKE2s.
Definition blake2s_update := update BLAKE2s.
Definition blake2s_final := final BLAKE2s.
Definition blake2s_init := init BLAKE2s.
Definition blake2s := hash BLAKE2s.

Definition _256_bits : Z := 32.
Definition blake2s_256_init (ctx : blake2_ctx) : option blake2_ctx := blake2s_init ctx _256_bits [].

(** The status is dropped: [None] leaves [out] as it is. *)
Definition blake2s_256 (ctx : blake2_ctx) (input : bytes) : option bytes := blake2s ctx _256_bits [] input.

(** ** [blake2b160.cpp] *)

(** The stack memory of [ctx]; the theorems show that it does not matter. *)
Definition some_ctx (p : variant) : blake2_ctx := mkCtx (replicate (block p) 0) (iv p) 0 0 0 0.

Definition BLAKE2B160_HASH_LENGTH : Z := 20.
Definition BLAKE2B256_HASH_LENGTH : Z := 32.
Definition BLAKE2B512_HASH_LENGTH : Z := 64.

(** A zeroed [Blob] if the call fails. *)
Definition blake2b_blob (n : Z) (to_hash : bytes) : bytes :=
  default (replicate (Z.to_nat n) 0) (hash BLAKE2b (some_ctx BLAKE2b) n [] to_hash).

Definition blake2b_160 (to_hash : bytes) : bytes := blake2b_blob BLAKE2B160_HASH_LENGTH to_hash.
Definition blake2b_256 (to_hash : bytes) : bytes := blake2b_blob BLAKE2B256_HASH_LENGTH to_hash.

(** [blake2b_512_from_file], on the chunks that [read] delivers until the first
    empty one. *)
Definition blake2b_512_from_file (is_open : bool) (chunks : list bytes) : bytes :=
  if negb is_open then replicate (Z.to_nat BLAKE2B512_HASH_LENGTH) 0
  else
    match init BLAKE2b (some_ctx BLAKE2b) BLAKE2B512_HASH_LENGTH [] with
    | None => replicate (Z.to_nat BLAKE2B512_HASH_LENGTH) 0
    | Some ctx => (final BLAKE2b (foldl (update BLAKE2b) ctx chunks)).2
    end.

(** ** RFC 7693, the reference *)

Section reference.
Context (p : variant).

(** The compression function F of section 3.2: state, block, offset counter,
    final flag. *)
Definition F (h : list Z) (d : bytes) (t : Z) (f : bool) : list Z :=
  let v := take 8 h ++ iv p in
  let v := <[12%nat := Z.lxor (v !!! 12%nat) (t mod 2 ^ w p)]> v in
  let v := <[13%nat := Z.lxor (v !!! 13%nat) (Z.shiftr t (w p))]> v in
  let v := if f then <[14%nat := wrap (w p) (Z.lnot (v !!! 14%nat))]> v else v in
  let v := foldl (round p (words p d)) v (take (rounds p) (sigma p)) in
  imap (λ i x, Z.lxor x (Z.lxor (v !!! i) (v !!! (i + 8)%nat))) h.

(** The padded block [i] of a message, and the number of blocks: at least one. *)
Definition data_block (msg : bytes) (i : nat) : bytes :=
  take (block p) (drop (i * block p) msg ++ replicate (block p) 0).
Definition block_count (msg : bytes) : nat :=
  Nat.max 1 ((length msg + block p - 1) / block p).

(** The chained state after the first [k] blocks. *)
Definition chain (h0 : list Z) (msg : bytes) (k : nat) : list Z :=
  foldl (λ h i, F h (data_block msg i) (Z.of_nat ((i + 1) * block p)) false) h0 (seq 0 k).

(** Section 3.3: the key is a block of its own in front of the data; the last
    block is compressed with the length of the whole and the flag. *)
Definition keyed (key data : bytes) : bytes :=
  if bool_decide (key = []) then data else key ++ replicate (block p - length key) 0 ++ data.

Definition initial_state (outlen keylen : Z) : list Z :=
  <[0%nat := Z.lxor (iv p !!! 0%nat) (Z.lxor (Z.lxor 0x01010000 (Z.shiftl keylen 8)) outlen)]> (iv p).

Definition BLAKE2 (outlen : Z) (key data : bytes) : bytes :=
  let msg := keyed key data in
  let dd := block_count msg in
  let h := chain (initial_state outlen (size key)) msg (dd - 1) in
  digest p (F h (data_block msg (dd - 1)) (size msg) true) outlen.

End reference.

(** What the constants have to satisfy. *)
Record variant_ok (p : variant) : Prop := {
  ok_w : w p = 32 ∨ w p = 64;
  ok_block : (0 < block p)%nat;
  ok_max : max_out p ≤ Z.of_nat (block p);
  ok_max64 : max_out p ≤ 64;
  ok_iv : ∃ x rest, iv p = x :: rest ∧ length rest = 7%nat ∧ 0 ≤ x < 2 ^ w p
}.

Lemma blake2b_ok : variant_ok BLAKE2b.
Proof. split; cbn; [by right|lia|lia|lia|]. do 2 eexists. split; [done|]. cbn. lia. Qed.
Lemma blake2s_ok : variant_ok BLAKE2s.
Proof. split; cbn; [by left|lia|lia|lia|]. do 2 eexists. split; [done|]. cbn. lia. Qed.

Section streaming.
Context (p : variant) (Hp : variant_ok p).
Implicit Types (ctx : blake2_ctx) (msg : bytes).

Lemma w_pos : 0 < w p.
Proof. destruct (ok_w _ Hp) as [-> | ->]; lia. Qed.

(** *** The counter *)

Definition counter ctx : Z := t0 ctx + 2 ^ w p * t1 ctx.
Definition counter_ok ctx : Prop := 0 ≤ t0 ctx < 2 ^ w p ∧ 0 ≤ t1 ctx < 2 ^ w p.

(** Both words together count without a gap until they are full. *)
Lemma count_bytes_counter ctx : counter_ok ctx → (c ctx ≤ block p)%nat → Z.of_nat (block p) < 2 ^ w p →
  counter ctx + Z.of_nat (c ctx) < 2 ^ (2 * w p) →
  counter_ok (count_bytes p ctx) ∧ counter (count_bytes p ctx) = counter ctx + Z.of_nat (c ctx).
Proof.
  intros [H0 H1] Hc Hb Hlim. unfold counter, counter_ok, count_bytes in *. cbn [t0 t1].
  pose proof w_pos. assert (2 ^ (2 * w p) = 2 ^ w p * 2 ^ w p) as Hsq by (rewrite <- Z.pow_add_r by lia; f_equal; lia).
  rewrite Hsq in Hlim. set (W := 2 ^ w p) in *. assert (0 < W) by (unfold W; apply Z.pow_pos_nonneg; lia).
  destruct (Z_lt_ge_dec (t0 ctx + Z.of_nat (c ctx)) W) as [Hlt|Hge].
  - rewrite wrap_small by (fold W; lia). destruct (Z.ltb_spec (t0 ctx + Z.of_nat (c ctx)) (Z.of_nat (c ctx))); lia.
  - assert (wrap (w p) (t0 ctx + Z.of_nat (c ctx)) = t0 ctx + Z.of_nat (c ctx) - W) as ->.
    { unfold wrap. fold W. symmetry. apply Z.mod_unique with 1; lia. }
    destruct (Z.ltb_spec (t0 ctx + Z.of_nat (c ctx) - W) (Z.of_nat (c ctx))); [|lia].
    assert (t1 ctx + 1 < W) by nia. rewrite wrap_small by (fold W; lia). split; [lia|]. lia.
Qed.

(** [compress] is F at the counter. *)
Lemma compress_F ctx last : counter_ok ctx →
  compress p ctx last = mkCtx (b ctx) (F p (h ctx) (b ctx) (counter ctx) last) (t0 ctx) (t1 ctx) (c ctx) (outlen ctx).
Proof.
  intros [H0 H1]. unfold compress, F, counter. pose proof w_pos. f_equal.
  assert ((t0 ctx + 2 ^ w p * t1 ctx) mod 2 ^ w p = t0 ctx) as ->.
  { rewrite Z.mul_comm, Z.mod_add by (apply Z.pow_nonzero; lia). by apply Z.mod_small. }
  assert (Z.shiftr (t0 ctx + 2 ^ w p * t1 ctx) (w p) = t1 ctx) as ->; [|done].
  rewrite Z.shiftr_div_pow2 by lia. rewrite Z.mul_comm, Z.div_add by (apply Z.pow_nonzero; lia).
  rewrite Z.div_small by done. lia.
Qed.

#[local] Opaque F.

(** *** Blocks *)

Lemma data_block_full msg i : ((i + 1) * block p ≤ length msg)%nat →
  data_block p msg i = take (block p) (drop (i * block p) msg).
Proof. intros Hi. unfold data_block. rewrite take_app_le; [done|]. rewrite length_drop. lia. Qed.

Lemma data_block_app msg more i : ((i + 1) * block p ≤ length msg)%nat →
  data_block p (msg ++ more) i = data_block p msg i.
Proof.
  intros Hi. rewrite !data_block_full by (rewrite ?length_app; lia).
  rewrite drop_app_le by lia. rewrite take_app_le; [done|]. rewrite length_drop. lia.
Qed.

Lemma data_block_last msg i : (length msg ≤ (i + 1) * block p)%nat → (i * block p ≤ length msg)%nat →
  data_block p msg i = drop (i * block p) msg ++ replicate (block p - length (drop (i * block p) msg)) 0.
Proof.
  intros H1 H2. unfold data_block. rewrite take_app_ge by (rewrite length_drop; lia).
  rewrite take_replicate. f_equal. f_equal. rewrite length_drop. lia.
Qed.

Lemma chain_app h0 msg more k : (k * block p ≤ length msg)%nat → chain p h0 (msg ++ more) k = chain p h0 msg k.
Proof.
  intros Hk. unfold chain. assert (∀ i, i ∈ seq 0 k → (i < k)%nat) as Hin by (intros i; rewrite elem_of_seq; lia).
  revert Hin h0. generalize (seq 0 k) as l. induction l as [|i l IH]; intros Hin h0; cbn [foldl]; [done|].
  assert (i < k)%nat as Hi by (apply Hin; left). pose proof (Nat.mul_le_mono_r (i + 1) k (block p) ltac:(lia)).
  rewrite data_block_app by lia.
  apply IH. intros j Hj. apply Hin. by right.
Qed.

Lemma chain_S h0 msg k : chain p h0 msg (S k) = F p (chain p h0 msg k) (data_block p msg k) (Z.of_nat ((k + 1) * block p)) false.
Proof. unfold chain. by rewrite seq_S, foldl_app. Qed.

(** *** The invariant of a context that has taken [msg] *)

Record absorbed (h0 : list Z) (n : Z) msg ctx : Prop := {
  ab_outlen : outlen ctx = n;
  ab_buffer : length (b ctx) = block p;
  ab_counter : counter_ok ctx;
  ab_state : ∃ k, counter ctx = Z.of_nat (k * block p) ∧ h ctx = chain p h0 msg k ∧
    length msg = (k * block p + c ctx)%nat ∧ take (c ctx) (b ctx) = drop (k * block p) msg;
  ab_pos : (c ctx ≤ block p)%nat;
  ab_nonempty : msg ≠ [] → (0 < c ctx)%nat
}.

Context (Hblock : Z.of_nat (block p) < 2 ^ w p).

Lemma update_byte_absorbed h0 n msg ctx x : absorbed h0 n msg ctx → Z.of_nat (length msg) < 2 ^ (2 * w p) →
  absorbed h0 n (msg ++ [x]) (update_byte p ctx x).
Proof.
  intros [Ho Hb Hc (k & Hcnt & Hh & Hlen & Htake) Hpos Hne] Hlim. unfold update_byte. case_bool_decide as Hfull.
  - destruct (count_bytes_counter ctx Hc Hpos Hblock) as [Hc' Hcnt']; [lia|].
    rewrite compress_F by done. cbn [b h t0 t1 c outlen]. split; cbn [b h t0 t1 c outlen].
    + done.
    + by rewrite length_insert.
    + done.
    + exists (S k). split_and!.
      * change (counter (count_bytes p ctx) = Z.of_nat (S k * block p)). rewrite Hcnt', Hcnt. lia.
      * change (h (count_bytes p ctx)) with (h ctx). change (b (count_bytes p ctx)) with (b ctx).
        rewrite chain_app by lia. rewrite chain_S, Hh, Hcnt', Hcnt.
        assert (Z.of_nat (k * block p) + Z.of_nat (c ctx) = Z.of_nat ((k + 1) * block p)) as -> by lia.
        assert (data_block p msg k = b ctx) as ->; [|reflexivity].
        rewrite data_block_full by lia. rewrite <- Htake, Hfull, <- Hb, take_take, Nat.min_id. apply firstn_all.
      * rewrite length_app. cbn [length]. lia.
      * change (b (count_bytes p ctx)) with (b ctx). rewrite drop_app_ge by lia.
        replace (S k * block p - length msg)%nat with 0%nat by lia. rewrite drop_0.
        destruct (b ctx); [cbn in Hb; pose proof (ok_block _ Hp); lia|done].
    + pose proof (ok_block _ Hp). lia.
    + lia.
  - split; cbn [b h t0 t1 c outlen].
    + done.
    + by rewrite length_insert.
    + done.
    + exists k. split_and!.
      * exact Hcnt.
      * rewrite chain_app by lia. done.
      * rewrite length_app. cbn [length]. lia.
      * rewrite drop_app_le by lia. rewrite <- Htake. assert (c ctx < length (b ctx))%nat by lia.
        rewrite (take_S_r _ _ x) by (by rewrite list_lookup_insert_eq). f_equal.
        by rewrite take_insert_ge.
    + lia.
    + lia.
Qed.

Lemma update_absorbed h0 n msg ctx input : absorbed h0 n msg ctx → Z.of_nat (length (msg ++ input)) ≤ 2 ^ (2 * w p) →
  absorbed h0 n (msg ++ input) (update p ctx input).
Proof.
  revert msg ctx. induction input as [|x input IH]; intros msg ctx Ha Hlim; [by rewrite app_nil_r|].
  unfold update. cbn [foldl]. rewrite length_app in Hlim. cbn [length] in Hlim.
  replace (msg ++ x :: input) with ((msg ++ [x]) ++ input) by (by rewrite <- app_assoc).
  apply IH; [apply update_byte_absorbed; [done|lia]|]. rewrite !length_app. cbn [length]. lia.
Qed.

Lemma updates_absorbed h0 n msg ctx chunks : absorbed h0 n msg ctx →
  Z.of_nat (length (msg ++ concat chunks)) ≤ 2 ^ (2 * w p) →
  absorbed h0 n (msg ++ concat chunks) (foldl (update p) ctx chunks).
Proof.
  revert msg ctx. induction chunks as [|chunk chunks IH]; intros msg ctx Ha Hlim; cbn [concat foldl] in *; [by rewrite app_nil_r|].
  rewrite app_assoc in *. apply IH; [|done]. apply update_absorbed; [done|]. rewrite length_app in Hlim. lia.
Qed.

Lemma final_absorbed h0 n msg ctx : absorbed h0 n msg ctx → Z.of_nat (length msg) < 2 ^ (2 * w p) →
  (final p ctx).2 =
    digest p (F p (chain p h0 msg (block_count p msg - 1)) (data_block p msg (block_count p msg - 1)) (size msg) true) n.
Proof.
  intros [Ho Hb Hc (k & Hcnt & Hh & Hlen & Htake) Hpos Hne] Hlim.
  destruct (count_bytes_counter ctx Hc Hpos Hblock) as [Hc' Hcnt']; [lia|].
  assert (block_count p msg - 1 = k)%nat as ->.
  { unfold block_count. pose proof (ok_block _ Hp). destruct (decide (msg = [])) as [->|Hm].
    - cbn [length] in *. destruct k; [|lia]. rewrite Nat.div_small; lia.
    - specialize (Hne Hm). assert ((length msg + block p - 1) / block p = k + 1)%nat as ->; [|lia].
      symmetry. apply Nat.div_unique with (c ctx - 1)%nat; lia. }
  assert (data_block p msg k = take (c ctx) (b ctx) ++ replicate (block p - c ctx) 0) as ->.
  { rewrite data_block_last by lia. rewrite Htake, length_drop. do 2 f_equal. lia. }
  assert (size msg = counter (count_bytes p ctx)) as -> by (unfold size; rewrite Hlen, Hcnt', Hcnt; lia).
  rewrite <- Hh, <- Ho. unfold final. rewrite compress_F by exact Hc'. reflexivity.
Qed.

Lemma keyed_length (key data : bytes) : (length key ≤ block p)%nat → (length (keyed p key data) ≤ block p + length data)%nat.
Proof.
  intros Hk. unfold keyed. case_bool_decide; [lia|]. rewrite !length_app, length_replicate. lia.
Qed.

(** Input that fits the buffer is only stored. *)
Lemma update_small ctx input : length (b ctx) = block p → (c ctx + length input ≤ block p)%nat →
  update p ctx input =
    mkCtx (take (c ctx) (b ctx) ++ input ++ drop (c ctx + length input) (b ctx)) (h ctx) (t0 ctx) (t1 ctx)
      (c ctx + length input) (outlen ctx).
Proof.
  revert ctx. induction input as [|x input IH]; intros ctx Hb Hc; unfold update; cbn [foldl length] in *.
  - rewrite !Nat.add_0_r, app_nil_l, take_drop. by destruct ctx.
  - unfold update_byte at 2. rewrite bool_decide_false by lia. fold (update p). unfold update in IH. rewrite IH; cbn [b h t0 t1 c outlen].
    + f_equal; [|lia]. rewrite (take_S_r _ _ x) by (apply list_lookup_insert_eq; lia).
      rewrite take_insert_ge, drop_insert_lt by lia. rewrite <- app_assoc, <- app_comm_cons. by rewrite Nat.add_succ_r.
    + by rewrite length_insert.
    + lia.
Qed.

(** The first state word fits a word. *)
Lemma initial_state_eq n (key : bytes) : 1 ≤ n ≤ max_out p → size key ≤ max_out p →
  <[0%nat := wrap (w p) (Z.lxor (iv p !!! 0%nat) (Z.lxor (Z.lxor 0x01010000 (wrap 64 (Z.shiftl (size key) 8))) n))]> (iv p) =
    initial_state p n (size key).
Proof.
  intros Hn Hk. pose proof (size_nonneg key). pose proof (ok_max64 _ Hp). unfold initial_state.
  assert (0 ≤ Z.shiftl (size key) 8 < 2 ^ 32) as Hs by (rewrite Z.shiftl_mul_pow2; lia).
  rewrite (wrap_small 64) by lia. destruct (ok_iv _ Hp) as (x & rest & -> & _ & Hx).
  change ((x :: rest) !!! 0%nat) with x. assert (2 ^ 32 ≤ 2 ^ w p) by (apply Z.pow_le_mono_r; destruct (ok_w _ Hp); lia).
  assert (0 ≤ w p) by (destruct (ok_w _ Hp); lia).
  rewrite !wrap_lxor, (wrap_small _ x), (wrap_small _ (Z.shiftl _ _)), (wrap_small _ n), (wrap_small _ 0x01010000) by lia. done.
Qed.

(** A fresh context has taken the key block, whatever its memory held. *)
Lemma init_absorbed ctx n (key : bytes) : length (b ctx) = block p → 1 ≤ n ≤ max_out p → size key ≤ max_out p →
  ∃ ctx', init p ctx n key = Some ctx' ∧ absorbed (initial_state p n (size key)) n (keyed p key []) ctx'.
Proof.
  intros Hb Hn Hk. pose proof (size_nonneg key). pose proof (ok_max64 _ Hp). pose proof (ok_max _ Hp).
  assert (length key ≤ block p)%nat as Hkb by (unfold size in *; lia).
  unfold init. rewrite (proj2 (Z.eqb_neq n 0)) by lia.
  rewrite (proj2 (Z.ltb_ge (max_out p) n)), (proj2 (Z.ltb_ge (max_out p) (size key))) by lia. cbn [orb].
  rewrite initial_state_eq by done. set (h0 := initial_state p n (size key)).
  assert (counter_ok (mkCtx [] [] 0 0 0 0)) as Hcnt by (pose proof w_pos; split; cbn; split; try lia; apply Z.pow_pos_nonneg; lia).
  destruct (Z.ltb_spec 0 (size key)) as [Hpos|Hzero].
  - rewrite update_small; cbn [b h t0 t1 c outlen]; [|rewrite length_app, length_take, length_replicate; lia|lia].
    eexists. split; [done|]. rewrite take_0, app_nil_l, Nat.add_0_l.
    rewrite drop_app_ge by (rewrite length_take; lia). rewrite length_take, Nat.min_l by lia. rewrite Nat.sub_diag, drop_0.
    assert (keyed p key [] = key ++ replicate (block p - length key) 0) as ->.
    { unfold keyed. rewrite bool_decide_false by (by intros ->). by rewrite app_nil_r. }
    split; cbn [b h t0 t1 c outlen]; [done|rewrite length_app, length_replicate; lia|exact Hcnt| |lia|].
    + exists 0%nat. cbn [counter t0 t1]. split_and!; [unfold counter; cbn; lia|done|rewrite length_app, length_replicate; lia|].
      rewrite drop_0. apply firstn_all2. rewrite length_app, length_replicate. lia.
    + intros _. pose proof (ok_block _ Hp). lia.
  - assert (key = []) as -> by (destruct key; [done|]; rewrite size_cons in *; pose proof (size_nonneg key); lia).
    eexists. split; [done|]. split; cbn [b h t0 t1 c outlen]; [done| |exact Hcnt| |lia|done].
    + rewrite length_app, length_take, length_replicate. cbn [length]. lia.
    + exists 0%nat. split_and!; [unfold counter; cbn; lia|done|done|done].
Qed.

(** The digest of any chunks is the reference's on the whole. *)
Lemma stream_digest ctx ctx' n key chunks : length (b ctx) = block p → 1 ≤ n ≤ max_out p →
  init p ctx n key = Some ctx' → size key ≤ max_out p → size (concat chunks) + Z.of_nat (block p) < 2 ^ (2 * w p) →
  (final p (foldl (update p) ctx' chunks)).2 = BLAKE2 p n key (concat chunks).
Proof.
  intros Hb Hn Hi Hk Hlim. destruct (init_absorbed ctx n key Hb Hn Hk) as (ctx2 & Hi2 & Ha).
  rewrite Hi in Hi2. injection Hi2 as <-.
  assert (keyed p key [] ++ concat chunks = keyed p key (concat chunks)) as Hkd.
  { unfold keyed. case_bool_decide; [done|]. by rewrite app_nil_r, <- app_assoc. }
  assert (Z.of_nat (length (keyed p key (concat chunks))) < 2 ^ (2 * w p)) as Hlen.
  { pose proof (keyed_length key (concat chunks)) as Hkl. pose proof (ok_max _ Hp). unfold size in *. lia. }
  apply (updates_absorbed _ _ _ _ chunks) in Ha; [|rewrite Hkd; lia]. rewrite Hkd in Ha.
  by rewrite (final_absorbed _ _ _ _ Ha Hlen).
Qed.

(** The lengths [init] takes. *)
Lemma init_None ctx n key : 0 ≤ n → length (b ctx) = block p →
  init p ctx n key = None ↔ ¬ (1 ≤ n ≤ max_out p ∧ size key ≤ max_out p).
Proof.
  intros Hn Hb. split.
  - intros Hnone (Hn' & Hk). destruct (init_absorbed ctx n key Hb Hn' Hk) as (? & Hsome & _). congruence.
  - unfold init. destruct (Z.eqb_spec n 0), (Z.ltb_spec (max_out p) n), (Z.ltb_spec (max_out p) (size key)); cbn [orb]; try done. lia.
Qed.

End streaming.

Lemma variants_ok p : p ∈ [BLAKE2b; BLAKE2s] → variant_ok p ∧ Z.of_nat (block p) < 2 ^ w p.
Proof.
  intros Hp. apply elem_of_cons in Hp as [->|Hp]; [split; [apply blake2b_ok|cbn; lia]|].
  apply list_elem_of_singleton in Hp as ->. split; [apply blake2s_ok|cbn; lia].
Qed.

(** C21: the streaming implementation is RFC 7693.  For BLAKE2b and BLAKE2s, every
    digest length and key the code admits, any memory the context starts in and
    any way of splitting the data into calls of [update], [final] gives the digest
    the RFC defines for the data as a whole, as long as the padded message is
    shorter than [2 ^ (2 w)] bytes; [init] refuses exactly the other lengths. *)
Theorem blake2_streaming p ctx n key chunks :
  p ∈ [BLAKE2b; BLAKE2s] → length (b ctx) = block p → 0 ≤ n →
  (init p ctx n key = None ↔ ¬ (1 ≤ n ≤ max_out p ∧ size key ≤ max_out p)) ∧
  ∀ ctx', init p ctx n key = Some ctx' → size (concat chunks) + Z.of_nat (block p) < 2 ^ (2 * w p) →
    (final p (foldl (update p) ctx' chunks)).2 = BLAKE2 p n key (concat chunks).
Proof.
  intros [Hok Hblock]%variants_ok Hb Hn. split; [by apply init_None|]. intros ctx' Hi Hlim.
  destruct (decide (1 ≤ n ≤ max_out p ∧ size key ≤ max_out p)) as [[Hn' Hk]|Hno]; [by eapply stream_digest|].
  apply (init_None p Hok ctx n key Hn Hb) in Hno. congruence.
Qed.

(** The digest of "abc" of RFC 7693, appendix A, fed in two pieces. *)
Lemma blake2_streaming_witness :
  ∃ ctx', init BLAKE2b (some_ctx BLAKE2b) 64 [] = Some ctx' ∧
    (final BLAKE2b (foldl (update BLAKE2b) ctx' [[0x61]; [0x62; 0x63]])).2 = BLAKE2 BLAKE2b 64 [] [0x61; 0x62; 0x63] ∧
    take 8 (BLAKE2 BLAKE2b 64 [] [0x61; 0x62; 0x63]) = [0xBA; 0x80; 0xA5; 0x3F; 0x98; 0x1C; 0x4D; 0x0D].
Proof.
  destruct (blake2_streaming BLAKE2b (some_ctx BLAKE2b) 64 [] [[0x61]; [0x62; 0x63]]) as [_ Hd].
  - by left.
  - vm_compute. reflexivity.
  - lia.
  - destruct (init BLAKE2b (some_ctx BLAKE2b) 64 []) as [ctx'|] eqn:Hi; [|vm_compute in Hi; discriminate Hi].
    exists ctx'. split; [done|]. split; [|vm_compute; reflexivity].
    apply Hd; [done|]. vm_compute. reflexivity.
Defined.

(** All at once is the reference too, in any memory. *)
Lemma hash_reference p ctx n data : variant_ok p → Z.of_nat (block p) < 2 ^ w p → length (b ctx) = block p →
  1 ≤ n ≤ max_out p → size data + Z.of_nat (block p) < 2 ^ (2 * w p) →
  hash p ctx n [] data = Some (BLAKE2 p n [] data).
Proof.
  intros Hok Hblock Hb Hn Hlim. assert (size (@nil Z) ≤ max_out p) as Hk by (change (size []) with 0; lia).
  destruct (init_absorbed p Hok ctx n [] Hb Hn Hk) as (ctx' & Hi & _). unfold hash. rewrite Hi. f_equal.
  pose proof (stream_digest p Hok Hblock ctx ctx' n [] [data] Hb Hn Hi Hk) as Hd. cbn [concat foldl] in Hd.
  rewrite app_nil_r in Hd. by apply Hd.
Qed.

Lemma BLAKE2_length p n key data : 0 ≤ n → length (BLAKE2 p n key data) = Z.to_nat n.
Proof. intros Hn. unfold BLAKE2, digest. by rewrite length_fmap, length_seqZ. Qed.

(** A blob is never the zeroed one. *)
Lemma blake2b_blob_reference n data : size data + 128 < 2 ^ 128 → 1 ≤ n ≤ 64 → blake2b_blob n data = BLAKE2 BLAKE2b n [] data.
Proof.
  intros Hlim Hn. unfold blake2b_blob. by rewrite (hash_reference BLAKE2b (some_ctx BLAKE2b) n _ blake2b_ok eq_refl eq_refl Hn Hlim).
Qed.

Lemma blake2b_256_size data : size data < 2 ^ 64 → size (blake2b_256 data) = 32.
Proof.
  intros Hs. unfold blake2b_256. rewrite blake2b_blob_reference by (unfold BLAKE2B256_HASH_LENGTH; lia).
  unfold size. by rewrite BLAKE2_length.
Qed.

(** The wrappers never fall back to a zeroed digest: the one-shot digests and
    the digest of an open file are BLAKE2b of all the bytes, 20, 32 and 64 bytes
    long, whatever chunks the stream delivers, and [blake2s_256] is BLAKE2s. *)
Theorem blake2_wrappers (data : bytes) chunks ctx :
  size data + 64 < 2 ^ 64 → concat chunks = data → length (b ctx) = block BLAKE2s →
  blake2b_160 data = BLAKE2 BLAKE2b 20 [] data ∧ blake2b_256 data = BLAKE2 BLAKE2b 32 [] data ∧
  blake2b_512_from_file true chunks = BLAKE2 BLAKE2b 64 [] data ∧
  blake2s_256 ctx data = Some (BLAKE2 BLAKE2s 32 [] data) ∧
  length (blake2b_160 data) = 20%nat ∧ length (blake2b_256 data) = 32%nat ∧ length (blake2b_512_from_file true chunks) = 64%nat.
Proof.
  intros Hsz <- Hctx. assert (size (concat chunks) + Z.of_nat (block BLAKE2b) < 2 ^ (2 * w BLAKE2b)) as Hlim by (cbn [block w BLAKE2b]; lia).
  pose proof (λ n, blake2b_blob_reference n (concat chunks) Hlim) as Hblob.
  assert (blake2b_512_from_file true chunks = BLAKE2 BLAKE2b 64 [] (concat chunks)) as Hfile.
  { assert (1 ≤ 64 ≤ max_out BLAKE2b) as Hn by (cbn; lia). assert (size (@nil Z) ≤ max_out BLAKE2b) as Hk by done.
    destruct (init_absorbed BLAKE2b blake2b_ok (some_ctx BLAKE2b) 64 [] eq_refl Hn Hk) as (ctx' & Hi & _).
    unfold blake2b_512_from_file, BLAKE2B512_HASH_LENGTH. cbn [negb]. rewrite Hi.
    exact (stream_digest BLAKE2b blake2b_ok eq_refl (some_ctx BLAKE2b) ctx' 64 [] chunks eq_refl Hn Hi Hk Hlim). }
  unfold blake2b_160, blake2b_256, BLAKE2B160_HASH_LENGTH, BLAKE2B256_HASH_LENGTH.
  rewrite Hfile, !Hblob, !BLAKE2_length by lia. split_and!; try reflexivity.
  apply hash_reference; [apply blake2s_ok|reflexivity|exact Hctx|unfold _256_bits; cbn; lia|cbn [block w BLAKE2s]; lia].
Qed.

Lemma blake2_wrappers_witness :
  blake2b_256 [0x61; 0x62; 0x63] = BLAKE2 BLAKE2b 32 [] [0x61; 0x62; 0x63] ∧
  take 4 (blake2b_512_from_file true [[0x61; 0x62]; [0x63]]) = [0xBA; 0x80; 0xA5; 0x3F].
Proof.
  split; [|vm_compute; reflexivity].
  apply (blake2_wrappers [0x61; 0x62; 0x63] [[0x61; 0x62]; [0x63]] (some_ctx BLAKE2s)); [vm_compute; reflexivity|reflexivity|reflexivity].
Defined.

(** BLAKE2s of "abc", RFC 7693, appendix B. *)
Example blake2s_abc :
  take 8 <$> blake2s_256 (some_ctx BLAKE2s) [0x61; 0x62; 0x63] = Some [0x50; 0x8C; 0x5E; 0x8C; 0x32; 0x7C; 0x14; 0xE2].
Proof. vm_compute. reflexivity. Qed.

End Blake2.

#[global] Opaque Blake2.blake2b_256.
