(* ===== verification/Cid.v ===== *)
(** Content identifiers: [src/primitives/cid] ([cid.cpp], [comm_cid.cpp]),
    [src/codec/uvarint.hpp] and [src/crypto/hasher].

    The varints, multihashes and the [ContentIdentifierCodec] are libp2p's: the
    class [Multiformats] has their operations and [MultiformatsLaws] what the
    multiformats specifications say of them. *)
From stdpp Require Import base numbers countable list gmap strings.
From S2P Require Import Prelude Crypto.

Open Scope Z_scope.

(** ** libp2p's operations *)

Class Multiformats (Multihash : Type) := {
  (** [UVarint::create( span )]: the value and the number of bytes it takes. *)
  uv_create : bytes → option (Z * Z);
  (** [UVarint{ n }.toVector()]. *)
  uv_encode : Z → bytes;
  (** [Multihash::create( type, hash )], or the value of its error. *)
  mh_create : Z → bytes → outcome Z Multihash;
  getType : Multihash → Z;
  getHash : Multihash → bytes;
  (** [ContentIdentifierCodec::encode] and [decode], on the fields. *)
  codec_encode : Z → Z → Multihash → outcome Z bytes;
  codec_decode : bytes → outcome Z (Z * Z * Multihash);
  (** The conversions of a [uint64_t] to libp2p's enums. *)
  to_Version : Z → Z;
  to_Multicodec : Z → Z;
  to_HashType : Z → Z;
  (** [libp2p::crypto::sha256]; the assertion on its result holds. *)
  libp2p_sha256 : bytes → bytes
}.

(** The codes of the multicodec table. *)
Definition Version_V0 : Z := 0.
Definition Version_V1 : Z := 1.
Definition DAG_PB : Z := 0x70.
Definition DAG_CBOR : Z := 0x71.
Definition RAW : Z := 0x55.
Definition HashType_sha256 : Z := 0x12.
Definition HashType_blake2b_256 : Z := 0xb220.

Inductive CidError :=
| EMPTY_VERSION
| RESERVED_VERSION
| EMPTY_MULTICODEC
| ZERO_INPUT_LENGTH
| INPUT_TOO_SHORT
| INCONSISTENT_LENGTH
| MultihashError (value : Z)
| CodecError (value : Z).

#[export] Instance CidError_eq_dec : EqDecision CidError.
Proof. solve_decision. Defined.

Section cid.
Context {Multihash : Type} `{!Multiformats Multihash}.

(** ** [codec/uvarint.hpp] *)

(** [uvarint::read<error, T>( input )]: the value and what is left of the input;
    [cast] is the conversion to [T]. *)
Definition uv_read {E} (error : E) (cast : Z → Z) (input : bytes) : outcome E (Z * bytes) :=
  match uv_create input with
  | None => failure error
  | Some (value, n) => success (cast value, drop (Z.to_nat n) input)
  end.

(** [uvarint::readBytes].  A size of [2^63] and more is negative as a
    [ptrdiff_t], passes the test and violates the contract of [subspan]. *)
Definition uv_readBytes {E} (error_length error_data : E) (input : bytes) :
    attempt E (bytes * bytes) :=
  '(n, input) ← attempt_of (uv_read error_length id input);
  if size input <? swrap 64 n then failed error_data
  else if swrap 64 n <? 0 then thrown
  else returned (take (Z.to_nat n) input, drop (Z.to_nat n) input).

(** ** [cid.cpp] *)

Record CID := mkCID {
  version : Z;
  content_type : Z;
  content_address : Multihash
}.

(** [CID()]: [Multihash::create( {}, {} ).value()] is [mh_default]. *)
Definition default_CID (mh_default : Multihash) : CID := mkCID 0 0 mh_default.

(** [CID::toBytes] and [CID::fromBytes]. *)
Definition toBytes (c : CID) : outcome CidError bytes :=
  match codec_encode (version c) (content_type c) (content_address c) with
  | success b => success b
  | failure e => failure (CodecError e)
  end.

Definition fromBytes (input : bytes) : outcome CidError CID :=
  match codec_decode input with
  | success (v, t, a) => success (mkCID v t a)
  | failure e => failure (CodecError e)
  end.

(** [input.size() >= 2 && HashType{ input[0] } == sha256 && input[1] == 32]. *)
Definition sha256_head (input : bytes) : bool :=
  match input with
  | b0 :: b1 :: _ => (to_HashType b0 =? HashType_sha256) && (b1 =? 32)
  | _ => false
  end.

(** The first branch of [CID::read]: the version and the content type. *)
Definition read_head (input : bytes) (prefix : bool) : outcome CidError (Z * Z * bytes) :=
  if sha256_head input then
    if negb prefix && (size input <? 34) then failure INCONSISTENT_LENGTH
    else success (Version_V0, DAG_PB, input)
  else
    '(version, input) ← uv_read EMPTY_VERSION to_Version input;
    if negb (version =? Version_V0) && negb (version =? Version_V1) then failure RESERVED_VERSION
    else
      '(codec, input) ← uv_read EMPTY_MULTICODEC to_Multicodec input;
      success (version, codec, input).

(** [CID::read]: the CID and what is left of the input.  With [prefix] the hash
    is zeros; a negative size violates the contract of [gsl::span]. *)
Definition read (input : bytes) (prefix : bool) : attempt CidError (CID * bytes) :=
  '(version, codec, input) ← attempt_of (read_head input prefix);
  '(hash_type, input) ← attempt_of (uv_read ZERO_INPUT_LENGTH to_HashType input);
  '(hash_size, input) ← attempt_of (uv_read INPUT_TOO_SHORT id input);
  '(hash_span, input) ←
    (if prefix then
       if swrap 64 hash_size <? 0 then thrown
       else returned (replicate (Z.to_nat hash_size) 0, input)
     else if size input <? swrap 64 hash_size then failed INCONSISTENT_LENGTH
     else if swrap 64 hash_size <? 0 then thrown
     else returned (take (Z.to_nat hash_size) input, drop (Z.to_nat hash_size) input));
  match mh_create hash_type hash_span with
  | failure e => failed (MultihashError e)
  | success hash => returned (mkCID version codec hash, input)
  end.

(** ** [crypto/hasher] *)

Definition sha2_256 (buffer : bytes) : outcome Z Multihash :=
  mh_create HashType_sha256 (libp2p_sha256 buffer).

Definition blake2b_256 (buffer : bytes) : outcome Z Multihash :=
  mh_create HashType_blake2b_256 (Blake2.blake2b_256 buffer).

(** [GetMethods().at( hash_type )] throws [std::out_of_range] for the hash types
    that are not in the map. *)
Definition calculate (hash_type : Z) (buffer : bytes) : attempt Z Multihash :=
  if hash_type =? HashType_sha256 then attempt_of (sha2_256 buffer)
  else if hash_type =? HashType_blake2b_256 then attempt_of (blake2b_256 buffer)
  else thrown.

(** [common::getCidOf]. *)
Definition getCidOf (data : bytes) : outcome CidError CID :=
  match mh_create HashType_blake2b_256 (Blake2.blake2b_256 data) with
  | failure e => failure (MultihashError e)
  | success hash => success (mkCID Version_V1 DAG_CBOR hash)
  end.

(** ** [comm_cid.cpp] *)

Definition kCommitmentBytesLen : Z := 32.
Definition FC_UNSEALED_V1 : Z := 0xfc1.
Definition FC_SEALED_V1 : Z := 0xfc2.

(** The keys of [kFilecoinMultihashNames]: the enumerators, which count from
    [FC_UNSEALED_V1]. *)
Definition kFilecoinMultihashNames : list Z := seqZ FC_UNSEALED_V1 10.

Inductive CommError :=
| INVALID_HASH
| INCORRECT_LENGTH
| CommMultihashError (value : Z).

#[export] Instance CommError_eq_dec : EqDecision CommError.
Proof. solve_decision. Defined.

Definition validFilecoinMultihash (code : Z) : bool :=
  bool_decide (code ∈ kFilecoinMultihashNames).

(** [static_cast<HashType>( code )] is the code itself. *)
Definition commitmentToCID (commitment : bytes) (code : Z) : outcome CommError CID :=
  if negb (validFilecoinMultihash code) then failure INVALID_HASH
  else
    match mh_create code commitment with
    | failure e => failure (CommMultihashError e)
    | success mh => success (mkCID Version_V1 RAW mh)
    end.

(** A failure throws ([_OUTCOME_EXCEPT_1]). *)
Definition replicaCommitmentV1ToCID (comm_r : bytes) : attempt CommError CID :=
  match commitmentToCID comm_r FC_SEALED_V1 with success c => returned c | failure _ => thrown end.
Definition dataCommitmentV1ToCID (comm_d : bytes) : attempt CommError CID :=
  match commitmentToCID comm_d FC_UNSEALED_V1 with success c => returned c | failure _ => thrown end.
Definition pieceCommitmentV1ToCID (comm_p : bytes) : attempt CommError CID :=
  dataCommitmentV1ToCID comm_p.

(** [Blob<n>::fromSpan] of [common/blob.hpp]. *)
Definition Blob_fromSpan (n : Z) (span : bytes) : outcome CommError bytes :=
  if negb (size span =? n) then failure INCORRECT_LENGTH else success span.

Definition CIDToCommitment (c : CID) : outcome CommError Multihash :=
  if negb (validFilecoinMultihash (getType (content_address c))) then failure INVALID_HASH
  else success (content_address c).

Definition CIDToDataCommitmentV1 (c : CID) : outcome CommError bytes :=
  result ← CIDToCommitment c;
  if negb (getType result =? FC_UNSEALED_V1) then failure INVALID_HASH
  else Blob_fromSpan kCommitmentBytesLen (getHash result).

Definition CIDToPieceCommitmentV1 (c : CID) : outcome CommError bytes := CIDToDataCommitmentV1 c.

Definition CIDToReplicaCommitmentV1 (c : CID) : outcome CommError bytes :=
  result ← CIDToCommitment c;
  if negb (getType result =? FC_SEALED_V1) then failure INVALID_HASH
  else Blob_fromSpan kCommitmentBytesLen (getHash result).

End cid.

Arguments CID Multihash : clear implicits.
Arguments mkCID {Multihash} _ _ _.

#[export] Instance CID_eq_dec {M} `{EqDecision M} : EqDecision (CID M).
Proof. solve_decision. Defined.

#[export] Instance CID_countable {M} `{Countable M} : Countable (CID M).
Proof.
  refine (inj_countable' (λ c, (version c, content_type c, content_address c)) (λ '(v, t, a), mkCID v t a) _).
  by intros [].
Defined.

(** ** What the specifications say *)

Class MultiformatsLaws (Multihash : Type) `{!Multiformats Multihash} := {
  uv_create_encode n rest : 0 ≤ n < 2 ^ 64 →
    uv_create (uv_encode n ++ rest) = Some (n, size (uv_encode n));
  uv_encode_small n : 0 ≤ n < 128 → uv_encode n = [n];
  uv_encode_nonempty n : uv_encode n ≠ [];
  (** A multihash has at most 127 bytes ([kMaxHashLength]) and is its type and
      its bytes. *)
  mh_create_ok t h : size h ≤ 127 → ∃ m, mh_create t h = success m;
  mh_create_long t h : 127 < size h → ∃ e, mh_create t h = failure e;
  mh_create_spec t h m : mh_create t h = success m → getType m = t ∧ getHash m = h;
  mh_size m : size (getHash m) ≤ 127;
  mh_ext m m' : getType m = getType m' → getHash m = getHash m' → m = m';
  (** CIDv1: version, codec, multihash; CIDv0: the bare multihash. *)
  codec_encode_v1 t a : 0 ≤ t < 2 ^ 64 → 0 ≤ getType a < 2 ^ 64 →
    codec_encode Version_V1 t a =
      success (uv_encode 1 ++ uv_encode t ++ uv_encode (getType a) ++
               uv_encode (size (getHash a)) ++ getHash a);
  codec_encode_v0 a : getType a = HashType_sha256 → size (getHash a) = 32 →
    codec_encode Version_V0 DAG_PB a =
      success (uv_encode HashType_sha256 ++ uv_encode 32 ++ getHash a);
  codec_roundtrip v t a b : codec_encode v t a = success b → codec_decode b = success (v, t, a);
  (** The enumerators the source names convert to themselves. *)
  to_Version_id : to_Version Version_V1 = Version_V1;
  to_HashType_byte b : 0 ≤ b < 256 → to_HashType b = b;
  sha256_size b : size (libp2p_sha256 b) = 32
}.

(** ** Reading back a CID *)

Section laws.
Context {M : Type} `{!Multiformats M, !MultiformatsLaws M}.
Implicit Types (c : CID M) (a : M).

(** A CID the multicodec table describes: version 1 with codes the enums hold,
    or version 0, which is always a SHA-256 multihash of a [dag-pb] node. *)
Inductive wf_cid : CID M → Prop :=
| wf_v1 t a :
    0 ≤ t < 2 ^ 64 → to_Multicodec t = t →
    0 ≤ getType a < 2 ^ 64 → to_HashType (getType a) = getType a →
    wf_cid (mkCID Version_V1 t a)
| wf_v0 a :
    getType a = HashType_sha256 → size (getHash a) = 32 → wf_cid (mkCID Version_V0 DAG_PB a).

(** The bytes before the hash. *)
Definition cid_prefix (c : CID M) : bytes :=
  let mh := uv_encode (getType (content_address c)) ++ uv_encode (size (getHash (content_address c))) in
  if version c =? Version_V0 then mh else uv_encode 1 ++ uv_encode (content_type c) ++ mh.

Lemma toBytes_wf c : wf_cid c → toBytes c = success (cid_prefix c ++ getHash (content_address c)).
Proof.
  destruct 1 as [t a Ht Hc Ha Hh|a Ha Hs]; unfold toBytes, cid_prefix; cbn [version content_type content_address].
  - rewrite codec_encode_v1 by done. change (Version_V1 =? Version_V0) with false. cbv iota. by rewrite <- !app_assoc.
  - rewrite codec_encode_v0 by done. change (Version_V0 =? Version_V0) with true. cbv iota. by rewrite Ha, Hs, <- app_assoc.
Qed.

Lemma uv_read_encode {E} (error : E) cast n rest : 0 ≤ n < 2 ^ 64 →
  uv_read error cast (uv_encode n ++ rest) = success (cast n, rest).
Proof.
  intros Hn. unfold uv_read. rewrite uv_create_encode by done.
  unfold size. by rewrite Nat2Z.id, drop_app_length.
Qed.

Lemma hash_size_bound a : 0 ≤ size (getHash a) < 2 ^ 63.
Proof. pose proof (mh_size a). pose proof (size_nonneg (getHash a)). lia. Qed.

(** What [read_head] leaves: the varints of the multihash. *)
Definition mh_head (a : M) : bytes := uv_encode (getType a) ++ uv_encode (size (getHash a)).

Lemma sha256_head_v1 l : sha256_head (uv_encode 1 ++ l) = false.
Proof.
  rewrite (uv_encode_small 1) by lia. destruct l; cbn; [done|]. by rewrite to_HashType_byte by lia.
Qed.

Lemma read_head_prefix c prefix rest : wf_cid c → (prefix = false → 32 ≤ size rest ∨ version c = Version_V1) →
  read_head (cid_prefix c ++ rest) prefix =
    success (version c, content_type c, mh_head (content_address c) ++ rest).
Proof.
  intros Hwf Hp. unfold read_head, cid_prefix, mh_head.
  destruct Hwf as [t a Ht Hc Ha Hh|a Ha Hs]; cbn [version content_type content_address].
  - change (Version_V1 =? Version_V0) with false. cbv iota.
    rewrite <- !app_assoc, sha256_head_v1, uv_read_encode by lia.
    cbn [mbind outcome_bind]. rewrite to_Version_id. cbn [Z.eqb Pos.eqb negb andb Version_V1 Version_V0].
    rewrite uv_read_encode by lia. cbn [mbind outcome_bind]. by rewrite Hc.
  - change (Version_V0 =? Version_V0) with true. cbv iota.
    rewrite Ha, Hs. unfold HashType_sha256. rewrite !uv_encode_small by lia. cbn [app].
    unfold sha256_head. rewrite to_HashType_byte by lia. cbn [Z.eqb Pos.eqb andb HashType_sha256].
    destruct prefix; cbn [negb andb]; [done|].
    destruct (Hp eq_refl) as [Hr|]; [|done].
    rewrite !size_cons. destruct (Z.ltb_spec (size rest + 1 + 1) 34); [lia|done].
Qed.

Lemma read_mh_head c rest : wf_cid c →
  uv_read ZERO_INPUT_LENGTH to_HashType (mh_head (content_address c) ++ rest) =
    success (getType (content_address c), uv_encode (size (getHash (content_address c))) ++ rest).
Proof.
  intros Hwf. unfold mh_head. destruct Hwf as [t a Ht Hc Ha Hh|a Ha Hs]; cbn [content_address];
    rewrite <- app_assoc.
  - rewrite uv_read_encode by done. by rewrite Hh.
  - rewrite Ha. rewrite uv_read_encode by done. unfold HashType_sha256. by rewrite to_HashType_byte by lia.
Qed.

Lemma swrap_small n : 0 ≤ n < 2 ^ 63 → swrap 64 n = n.
Proof. intros. unfold swrap. rewrite Z.mod_small; cbn; lia. Qed.

Lemma mh_create_self a : mh_create (getType a) (getHash a) = success a.
Proof.
  destruct (mh_create_ok (getType a) (getHash a) (mh_size a)) as [m Hm].
  rewrite Hm. f_equal. apply mh_create_spec in Hm as [Ht Hh]. by apply mh_ext.
Qed.

Lemma read_prefix c rest : wf_cid c →
  ∃ z, mh_create (getType (content_address c)) (replicate (length (getHash (content_address c))) 0) = success z ∧
    getType z = getType (content_address c) ∧
    read (cid_prefix c ++ rest) true = returned (mkCID (version c) (content_type c) z, rest).
Proof.
  intros Hwf. pose proof (mh_size (content_address c)) as Hsz. pose proof (hash_size_bound (content_address c)).
  destruct (mh_create_ok (getType (content_address c)) (replicate (length (getHash (content_address c))) 0))
    as [z Hz]; [unfold size in *; by rewrite length_replicate|].
  exists z. split; [done|]. split; [by apply mh_create_spec in Hz as [? _]|].
  unfold read. rewrite read_head_prefix by done. cbn [attempt_of mbind attempt_bind].
  rewrite read_mh_head by done. cbn [attempt_of mbind attempt_bind].
  rewrite uv_read_encode by lia. cbn [attempt_of mbind attempt_bind id].
  rewrite swrap_small by done. destruct (Z.ltb_spec (size (getHash (content_address c))) 0); [lia|].
  cbn [mbind attempt_bind]. unfold size. rewrite Nat2Z.id, Hz. done.
Qed.

(** C27: [CID::read] reads back what [CID::toBytes] writes: for every well-formed
    CID of version 0 or 1, whatever follows it in the input, [read] returns the
    CID and exactly the rest; with [prefix] set it consumes exactly the bytes
    before the hash, which is the prefix graphsync blocks carry. *)
Theorem cid_read_roundtrip c rest :
  wf_cid c →
  ∃ b hash, toBytes c = success b ∧ b = cid_prefix c ++ hash ∧ hash = getHash (content_address c) ∧
    read (b ++ rest) false = returned (c, rest) ∧
    (∃ z, read b true = returned (mkCID (version c) (content_type c) z, hash) ∧
          getType z = getType (content_address c)).
Proof.
  intros Hwf. do 2 eexists. split; [by apply toBytes_wf|]. split; [done|]. split; [done|]. split.
  2: { destruct (read_prefix c (getHash (content_address c)) Hwf) as (z & _ & ? & ?). by exists z. }
  pose proof (hash_size_bound (content_address c)).
  unfold read. rewrite <- app_assoc, read_head_prefix.
  2: done.
  2: { intros _. destruct Hwf as [|a Ha Hs]; [by right|left]. cbn [content_address].
       rewrite size_app. pose proof (size_nonneg rest). lia. }
  cbn [attempt_of mbind attempt_bind]. rewrite read_mh_head by done. cbn [attempt_of mbind attempt_bind].
  rewrite uv_read_encode by lia. cbn [attempt_of mbind attempt_bind id].
  rewrite swrap_small by done. rewrite size_app. pose proof (size_nonneg rest).
  destruct (Z.ltb_spec (size (getHash (content_address c)) + size rest) (size (getHash (content_address c)))); [lia|].
  destruct (Z.ltb_spec (size (getHash (content_address c))) 0); [lia|].
  cbn [mbind attempt_bind]. unfold size at 1 2. rewrite Nat2Z.id, take_app_length, drop_app_length.
  rewrite mh_create_self. by destruct c.
Qed.

(** *** Commitments *)

(** Commitments and CIDs convert both ways.  A 32-byte commitment gives a raw
    CIDv1 whose data (piece) or replica commitment is the input, and the two kinds
    are never taken for each other. *)
Theorem commitment_roundtrip comm :
  size comm = 32 →
  ∃ d r, dataCommitmentV1ToCID comm = returned d ∧ replicaCommitmentV1ToCID comm = returned r ∧
    pieceCommitmentV1ToCID comm = returned d ∧
    CIDToDataCommitmentV1 d = success comm ∧ CIDToPieceCommitmentV1 d = success comm ∧
    CIDToReplicaCommitmentV1 r = success comm ∧
    CIDToDataCommitmentV1 r = failure INVALID_HASH ∧ CIDToReplicaCommitmentV1 d = failure INVALID_HASH.
Proof.
  intros Hs.
  assert (∀ code, code ∈ [FC_UNSEALED_V1; FC_SEALED_V1] →
    ∃ m, mh_create code comm = success m ∧ getType m = code ∧ getHash m = comm ∧
      validFilecoinMultihash code = true) as Hmk.
  { intros code Hin. destruct (mh_create_ok code comm) as [m Hm]; [lia|]. exists m. split; [done|].
    apply mh_create_spec in Hm as [Ht Hh]. split; [done|]. split; [done|].
    rewrite !elem_of_cons, elem_of_nil in Hin. by destruct Hin as [->|[->|[]]]. }
  destruct (Hmk FC_UNSEALED_V1) as (d & Hd & Htd & Hhd & Hvd); [set_solver|].
  destruct (Hmk FC_SEALED_V1) as (r & Hr & Htr & Hhr & Hvr); [set_solver|].
  exists (mkCID Version_V1 RAW d), (mkCID Version_V1 RAW r).
  unfold pieceCommitmentV1ToCID, CIDToPieceCommitmentV1, dataCommitmentV1ToCID, replicaCommitmentV1ToCID,
    commitmentToCID, CIDToDataCommitmentV1, CIDToReplicaCommitmentV1, CIDToCommitment.
  cbn [content_address]. rewrite Hvd, Hvr, Hd, Hr, Htd, Htr, Hvd, Hvr. cbn [negb mbind outcome_bind].
  unfold Blob_fromSpan. rewrite Htd, Htr, Hhd, Hhr, Hs. by vm_compute.
Qed.

End laws.

(** ** A concrete instance *)

Module Sample.

Fixpoint uv_enc (fuel : nat) (n : Z) : bytes :=
  match fuel with
  | O => [n]
  | S fuel => if n <? 128 then [n] else (n mod 128 + 128) :: uv_enc fuel (n / 128)
  end.

Fixpoint uv_dec (input : bytes) : option (Z * Z) :=
  match input with
  | [] => None
  | b :: rest =>
      if b <? 128 then Some (b, 1)
      else match uv_dec rest with
           | Some (v, n) => Some (b - 128 + 128 * v, n + 1)
           | None => None
           end
  end.

Lemma uv_dec_enc fuel n rest : 0 ≤ n < 128 ^ (Z.of_nat fuel + 1) →
  uv_dec (uv_enc fuel n ++ rest) = Some (n, size (uv_enc fuel n)).
Proof.
  revert n. induction fuel as [|fuel IH]; intros n Hn; cbn [uv_enc app].
  { cbn in *. destruct (Z.ltb_spec n 128); [done|lia]. }
  destruct (Z.ltb_spec n 128); cbn [app uv_dec].
  { by destruct (Z.ltb_spec n 128); [|lia]. }
  pose proof (Z.mod_pos_bound n 128 ltac:(lia)). destruct (Z.ltb_spec (n mod 128 + 128) 128); [lia|].
  rewrite IH, size_cons.
  { pose proof (Z.div_mod n 128 ltac:(lia)) as Hdm.
    by replace (n mod 128 + 128 - 128 + 128 * (n / 128)) with n by lia. }
  split; [apply Z.div_pos; lia|]. apply Z.div_lt_upper_bound; [lia|].
  rewrite <- Z.pow_succ_r by lia. replace (Z.succ (Z.of_nat fuel + 1)) with (Z.of_nat (S fuel) + 1) by lia. lia.
Qed.

(** A multihash: a type and at most 127 bytes. *)
Definition Multihash : Type := {p : Z * bytes | (size p.2 <=? 127) = true}.

#[export] Instance Multihash_eq_dec : EqDecision Multihash.
Proof. unfold Multihash. apply _. Defined.

Definition create (t : Z) (h : bytes) : outcome Z Multihash :=
  match decide ((size h <=? 127) = true) with
  | left H => success (exist _ (t, h) H)
  | right _ => failure 1
  end.

Definition u64_range (n : Z) : bool := (0 <=? n) && (n <? 2 ^ 64).

Definition encode (v t : Z) (a : Multihash) : outcome Z bytes :=
  let '(ht, h) := `a in
  if (v =? Version_V1) && u64_range t && u64_range ht then
    success (uv_enc 10 1 ++ uv_enc 10 t ++ uv_enc 10 ht ++ uv_enc 10 (size h) ++ h)
  else if (v =? Version_V0) && (t =? DAG_PB) && (ht =? HashType_sha256) && (size h =? 32) then
    success (uv_enc 10 HashType_sha256 ++ uv_enc 10 32 ++ h)
  else failure 1.

Definition uv_take (input : bytes) : outcome Z (Z * bytes) :=
  match uv_dec input with
  | Some (v, n) => success (v, drop (Z.to_nat n) input)
  | None => failure 1
  end.

Definition decode (input : bytes) : outcome Z (Z * Z * Multihash) :=
  '(v, rest) ← uv_take input;
  if v =? 1 then
    '(t, rest) ← uv_take rest;
    '(ht, rest) ← uv_take rest;
    '(_, rest) ← uv_take rest;
    a ← create ht rest; success (Version_V1, t, a)
  else
    '(_, rest) ← uv_take rest;
    a ← create HashType_sha256 rest; success (Version_V0, DAG_PB, a).

#[export] Instance multiformats : Multiformats Multihash := {
  uv_create := uv_dec;
  uv_encode := uv_enc 10;
  mh_create := create;
  getType a := (`a).1;
  getHash a := (`a).2;
  codec_encode := encode;
  codec_decode := decode;
  to_Version := id;
  to_Multicodec := id;
  to_HashType := id;
  libp2p_sha256 data := replicate 32 (size data mod 256)
}.

Lemma uv_take_enc n rest : 0 ≤ n < 2 ^ 64 → uv_take (uv_enc 10 n ++ rest) = success (n, rest).
Proof.
  intros Hn. unfold uv_take. rewrite uv_dec_enc by (cbn; lia).
  unfold size. by rewrite Nat2Z.id, drop_app_length.
Qed.

Lemma create_spec t h m : create t h = success m → `m = (t, h).
Proof. unfold create. destruct (decide _); [by intros [= <-]|done]. Qed.

Lemma mh_eq (m m' : Multihash) : `m = `m' → m = m'.
Proof. intros. by apply (sig_eq_pi _). Qed.

Lemma create_self (a : Multihash) : create (`a).1 (`a).2 = success a.
Proof.
  destruct a as [[t h] H]. unfold create. cbn [proj1_sig fst snd] in *.
  destruct (decide _) as [H'|H']; [|by destruct H']. f_equal. by apply mh_eq.
Qed.

Lemma decode_encode v t a b : encode v t a = success b → decode b = success (v, t, a).
Proof.
  pose proof (create_self a) as Hself. pose proof (proj2_sig a) as Hsz.
  unfold encode, u64_range, decode. destruct (`a) as [ht h]. cbn [fst snd] in *.
  apply Z.leb_le in Hsz. pose proof (size_nonneg h). unfold Version_V1, Version_V0.
  destruct (Z.eqb_spec v 1) as [->|Hv]; cbn [andb].
  - destruct (_ && _ && _) eqn:Hr; cbn [andb Z.eqb].
    + rewrite !andb_true_iff, !Z.leb_le, !Z.ltb_lt in Hr. intros <-%success_inj.
      rewrite uv_take_enc by lia. cbn [mbind outcome_bind Z.eqb Pos.eqb].
      rewrite uv_take_enc by lia. cbn [mbind outcome_bind].
      rewrite uv_take_enc by lia. cbn [mbind outcome_bind].
      rewrite uv_take_enc by lia. cbn [mbind outcome_bind]. by rewrite Hself.
    + done.
  - destruct (Z.eqb_spec v 0) as [->|]; cbn [andb]; [|done].
    destruct (Z.eqb_spec t DAG_PB) as [->|]; cbn [andb]; [|done].
    destruct (Z.eqb_spec ht HashType_sha256) as [->|]; cbn [andb]; [|done].
    destruct (Z.eqb_spec (size h) 32); [|done]. intros <-%success_inj.
    rewrite uv_take_enc by done. cbn [mbind outcome_bind]. change (HashType_sha256 =? 1) with false. cbv iota.
    rewrite uv_take_enc by done. cbn [mbind outcome_bind]. by rewrite Hself.
Qed.

#[export] Instance laws : MultiformatsLaws Multihash.
Proof.
  constructor.
  - intros. apply uv_dec_enc. cbn. lia.
  - intros n Hn. cbn. by destruct (Z.ltb_spec n 128); [|lia].
  - intros n. cbn. by destruct (n <? 128).
  - intros t h Hs. cbn. unfold create. destruct (decide _) as [|Hn]; [by eexists|].
    destruct Hn. by apply Z.leb_le.
  - intros t h Hs. cbn. unfold create. destruct (decide _) as [Hn|]; [|by eexists].
    pose proof (proj1 (Z.leb_le _ _) Hn). lia.
  - intros t h m Hm. apply create_spec in Hm. cbn. by rewrite Hm.
  - intros m. cbn. apply Z.leb_le, (proj2_sig m).
  - intros m m' Ht Hh. apply mh_eq. cbn in *. destruct (`m), (`m'). cbn in *. by subst.
  - intros t a Ht Ha. cbn in *. unfold encode, u64_range. destruct (`a) as [ht h]. cbn in Ha |- *.
    repeat match goal with |- context [?x <=? ?y] => rewrite (proj2 (Z.leb_le x y)) by lia end.
    repeat match goal with |- context [?x <? ?y] => rewrite (proj2 (Z.ltb_lt x y)) by lia end. done.
  - intros a Ha Hs. cbn in *. unfold encode. destruct (`a) as [ht h]. cbn in Ha, Hs |- *. by rewrite Ha, Hs.
  - exact decode_encode.
  - done.
  - done.
  - intros b. cbn. done.
Defined.

Definition mh (t : Z) (h : bytes) : Multihash :=
  match create t h with success m => m | failure _ => exist _ (0, []) eq_refl end.

Definition cid_v1 (n : Z) : CID Multihash := mkCID Version_V1 DAG_PB (mh HashType_sha256 (replicate 32 n)).

Lemma cid_v1_wf n : wf_cid (cid_v1 n).
Proof. apply wf_v1; vm_compute; repeat split; discriminate. Qed.

End Sample.

#[export] Existing Instances Sample.multiformats Sample.laws Sample.Multihash_eq_dec.

Lemma cid_read_roundtrip_witness :
  ∃ b, toBytes (Sample.cid_v1 5) = success b ∧ read (b ++ [9]) false = returned (Sample.cid_v1 5, [9]).
Proof.
  destruct (cid_read_roundtrip (Sample.cid_v1 5) [9] (Sample.cid_v1_wf 5)) as (b & h & Hb & _ & _ & Hr & _).
  exists b. split; [exact Hb|exact Hr].
Defined.

Lemma commitment_roundtrip_witness :
  ∃ d : CID Sample.Multihash, dataCommitmentV1ToCID (replicate 32 7) = returned d ∧
    CIDToDataCommitmentV1 d = success (replicate 32 7).
Proof.
  destruct (commitment_roundtrip (replicate 32 7) eq_refl) as (d & r & Hd & _ & _ & Hc & _).
  exists d. split; [exact Hd|exact Hc].
Defined.
