(* ===== verification/CidText.v ===== *)
(** Content identifiers as text: [CID::toString] and [fromString], the hash and the
    conversions of [src/primitives/cid/cid.*], and lists of CIDs in JSON,
    [src/primitives/cid/json_codec.*].

    The base encodings are libp2p's and the trees and the JSON boost's: the classes
    [CidCodec] and [PropertyTree], with what they promise in [PropertyTreeLaws]. *)
From Stdlib Require Import Ascii String.
From stdpp Require Import base numbers countable list gmap strings.
From S2P Require Import Prelude Cid.

Open Scope Z_scope.

(** [ContentIdentifierCodec::toString] and [fromString]. *)
Class CidCodec (M : Type) := {
  codec_toString : CID M → outcome Z string;
  codec_fromString : string → outcome Z (CID M)
}.

(** [boost::property_tree]: a value and an ordered list of children with keys. *)
Class PropertyTree := {
  ptree : Type;
  empty_ptree : ptree;
  put_value : string → ptree → ptree;                (* put( "", value ) *)
  push_back : string → ptree → ptree → ptree;        (* key, child *)
  add_child : string → ptree → ptree → ptree;        (* path, child *)
  count : string → ptree → Z;
  get_child : string → ptree → option ptree;         (* None: throws ptree_bad_path *)
  children : ptree → list (string * ptree);
  get_value : ptree → string;
  write_json : ptree → option string;                (* None: throws *)
  read_json : string → option ptree                  (* None: throws json_parser_error *)
}.

Inductive JsonCodecError := BAD_JSON | WRONG_CID_ARRAY_FORMAT | json_cid (value : Z).

#[export] Instance JsonCodecError_eq_dec : EqDecision JsonCodecError.
Proof. solve_decision. Defined.

Section text.
Context {M : Type} `{!Multiformats M, !CidCodec M}.

Definition toString (c : CID M) : outcome Z string := codec_toString c.

Definition fromString (str : string) : outcome Z (CID M) :=
  cid ← codec_fromString str; success cid.

(** [std::hash<CID>]; [string_hash] is the standard library's hash of a string. *)
Definition cid_hash (string_hash : bytes → Z) (cid : CID M) : Z :=
  match toBytes cid with
  | failure _ => 0
  | success bs => string_hash bs
  end.

(** The constructors and assignments from a [ContentIdentifier], the base class;
    the multihash of a source that is moved from is not used again. *)
Definition CID_of (v content : Z) (address : M) : CID M := mkCID v content address.
Definition CID_copy (cid : CID M) : CID M := cid.
Definition CID_move (cid : CID M) : CID M := CID_of (version cid) (content_type cid) (content_address cid).
Definition CID_assign (this cid : CID M) : CID M := mkCID (version cid) (content_type cid) (content_address cid).

Context `{!PropertyTree}.

(** The loop of [encodeCidVector]. *)
Fixpoint cid_children (span : list (CID M)) (tree : ptree) : outcome Z ptree :=
  match span with
  | [] => success tree
  | it :: span =>
      encoded ← toString it;
      cid_children span (push_back "" (put_value encoded empty_ptree) tree)
  end.

(** An exception of [write_json] leaves it. *)
Definition encodeCidVector (span : list (CID M)) : attempt Z string :=
  tree ← attempt_of (cid_children span empty_ptree);
  match write_json (add_child "/" tree empty_ptree) with Some out => returned out | None => thrown end.

(** The loop of [decodeCidVector]. *)
Fixpoint decode_children (array : list (string * ptree)) (cids : list (CID M)) : outcome JsonCodecError (list (CID M)) :=
  match array with
  | [] => success cids
  | (_, it) :: array =>
      match fromString (get_value it) with
      | success cid => decode_children array (cids ++ [cid])
      | failure e => failure (json_cid e)
      end
  end.

Definition decodeCidVector (data : string) : attempt JsonCodecError (list (CID M)) :=
  match read_json data with
  | None => failed BAD_JSON
  | Some tree =>
      if count "/" tree =? 0 then failed WRONG_CID_ARRAY_FORMAT
      else
        match get_child "/" tree with
        | None => thrown
        | Some array => attempt_of (decode_children (children array) [])
        end
  end.

End text.

(** ** What the property trees promise *)

(** The letters and digits of the base encodings. *)
Definition alphanumeric (c : ascii) : bool :=
  let n := N_of_ascii c in
  ((48 <=? n) && (n <=? 57) || (65 <=? n) && (n <=? 90) || (97 <=? n) && (n <=? 122))%N.
Definition plain_text (s : string) : bool := forallb alphanumeric (list_ascii_of_string s).

(** The tree of a list of strings. *)
Definition strings_tree `{!PropertyTree} (l : list string) (tree : ptree) : ptree :=
  foldl (λ t v, push_back "" (put_value v empty_ptree) t) tree l.

Class PropertyTreeLaws `{!PropertyTree} := {
  (** A key that is there is found. *)
  count_child k t : count k t ≠ 0 → is_Some (get_child k t);
  (** A list of plain strings reads back from JSON; an empty one as an empty value. *)
  json_strings l : Forall plain_text l → ∃ s t array,
    write_json (add_child "/" (strings_tree l empty_ptree) empty_ptree) = Some s ∧ read_json s = Some t ∧
    count "/" t = 1 ∧ get_child "/" t = Some array ∧ (λ c, get_value c.2) <$> children array = l
}.

(** ** The properties *)

Section properties.
Context {M : Type} `{!Multiformats M, !CidCodec M, !PropertyTree, !PropertyTreeLaws}.

(** The text of a CID, which libp2p reads back. *)
Definition has_text (c : CID M) (s : string) : Prop := toString c = success s ∧ fromString s = success c ∧ plain_text s.

Lemma cid_children_texts cids texts : Forall2 (λ c s, toString c = success s) cids texts → ∀ tree,
  cid_children cids tree = success (strings_tree texts tree).
Proof. induction 1 as [|c s cids texts Hc _ IH]; intros tree; [done|]. cbn [cid_children]. rewrite Hc. apply IH. Qed.

Lemma cid_children_failure cids c rest texts e : Forall2 (λ c s, toString c = success s) cids texts → toString c = failure e →
  ∀ tree, cid_children (cids ++ c :: rest) tree = failure e.
Proof.
  intros HF Hc. induction HF as [|c' s cids texts Hc' _ IH]; intros tree; cbn [cid_children app].
  - by rewrite Hc.
  - rewrite Hc'. apply IH.
Qed.

(** What [decodeCidVector] makes of the strings of an array. *)
Fixpoint read_texts (l : list string) (acc : list (CID M)) : outcome JsonCodecError (list (CID M)) :=
  match l with
  | [] => success acc
  | s :: l => match fromString s with success c => read_texts l (acc ++ [c]) | failure e => failure (json_cid e) end
  end.

Lemma decode_children_texts array : ∀ acc, decode_children array acc = read_texts ((λ c, get_value c.2) <$> array) acc.
Proof. induction array as [|[k t] array IH]; intros acc; [done|]. cbn. destruct (fromString (get_value t)); [apply IH|done]. Qed.

Lemma read_texts_cids cids texts : Forall2 (λ c s, fromString s = success c) cids texts → ∀ acc,
  read_texts texts acc = success (acc ++ cids).
Proof.
  induction 1 as [|c s cids texts Hc _ IH]; intros acc; cbn [read_texts]; [by rewrite app_nil_r|].
  by rewrite Hc, IH, <- app_assoc.
Qed.

(** C40: lists of CIDs in JSON.  Every list of CIDs with a text is written and read
    back, the empty one too; the first CID without a text gives its error.  Reading
    never throws: what is not JSON, JSON without the key "/", and the first string
    that is not a CID give their errors, and any other JSON with that key a list. *)
Theorem json_roundtrip :
  (∀ cids, Forall (λ c, ∃ s, has_text c s) cids →
     ∃ s, encodeCidVector cids = returned s ∧ decodeCidVector s = returned cids) ∧
  (∀ cids c rest e, Forall (λ c, ∃ s, has_text c s) cids → toString c = failure e →
     encodeCidVector (cids ++ c :: rest) = failed e) ∧
  ∀ data,
    match read_json data with
    | None => decodeCidVector data = failed BAD_JSON
    | Some tree =>
        (count "/" tree = 0 → decodeCidVector data = failed WRONG_CID_ARRAY_FORMAT) ∧
        (count "/" tree ≠ 0 → ∃ array, get_child "/" tree = Some array ∧
           decodeCidVector data = attempt_of (read_texts ((λ c, get_value c.2) <$> children array) []))
    end.
Proof.
  assert (∀ cids, Forall (λ c, ∃ s, has_text c s) cids → ∃ texts, Forall2 (λ c s, toString c = success s) cids texts ∧
    Forall2 (λ c s, fromString s = success c) cids texts ∧ Forall plain_text texts) as Htexts.
  { induction 1 as [|c cids (s & H1 & H2 & H3) _ (texts & IH1 & IH2 & IH3)]; [by exists []; repeat split; constructor|].
    exists (s :: texts). by split_and!; constructor. }
  split; [|split].
  - intros cids (texts & H1 & H2 & H3)%Htexts. destruct (json_strings texts H3) as (s & t & array & Hw & Hr & Hc & Hg & Hl).
    exists s. unfold encodeCidVector, decodeCidVector. rewrite (cid_children_texts _ _ H1). cbn [attempt_of mbind attempt_bind].
    rewrite Hw, Hr, Hc, Hg. split; [done|]. cbn. by rewrite decode_children_texts, Hl, (read_texts_cids _ _ H2).
  - intros cids c rest e (texts & H1 & _)%Htexts Hc. unfold encodeCidVector. by rewrite (cid_children_failure _ _ _ _ _ H1 Hc).
  - intros data. unfold decodeCidVector. destruct (read_json data) as [tree|]; [|done]. split; intros Hc.
    + by rewrite Hc.
    + destruct (count_child _ _ Hc) as [array Ha]. exists array. rewrite Ha, (proj2 (Z.eqb_neq _ _) Hc). split; [done|].
      by rewrite decode_children_texts.
Qed.

End properties.

(** ** An instance *)

Module SampleJson.

Inductive tree := Tree (v : string) (cs : list (string * tree)).
Definition tree_value (t : tree) : string := let '(Tree v _) := t in v.
Definition tree_children (t : tree) : list (string * tree) := let '(Tree _ cs) := t in cs.

(** The quotation mark. *)
Definition q : ascii := "034".

Definition quoted (v : string) : list ascii := q :: list_ascii_of_string v ++ [q].

Fixpoint write_elements (l : list string) : list ascii :=
  match l with
  | [] => []
  | [v] => quoted v
  | v :: l => quoted v ++ "," :: write_elements l
  end%char.

(** JSON of one key: a string, or a list of strings. *)
Definition write (t : tree) : option string :=
  match t with
  | Tree _ [(k, Tree v cs)] =>
      Some (string_of_list_ascii ("{" :: quoted k ++ ":" ::
        (match cs with [] => quoted v | _ => "[" :: write_elements (tree_value ∘ snd <$> cs) ++ ["]"] end) ++ ["}"]))%char
  | _ => None
  end.

Fixpoint until_quote (s : list ascii) : option (list ascii * list ascii) :=
  match s with
  | [] => None
  | c :: s => if bool_decide (c = q) then Some ([], s) else '(v, rest) ← until_quote s; Some (c :: v, rest)
  end.

Definition read_quoted (s : list ascii) : option (string * list ascii) :=
  match s with
  | c :: s => if bool_decide (c = q) then '(v, rest) ← until_quote s; Some (string_of_list_ascii v, rest) else None
  | [] => None
  end.

Fixpoint read_elements (fuel : nat) (s : list ascii) : option (list string * list ascii) :=
  match fuel with
  | O => None
  | S fuel =>
      '(v, rest) ← read_quoted s;
      match rest with
      | "," :: rest => '(l, rest) ← read_elements fuel rest; Some (v :: l, rest)
      | "]" :: rest => Some ([v], rest)
      | _ => None
      end%char
  end.

Definition leaf (v : string) : tree := Tree v [].
Definition array_of (l : list string) : tree := Tree "" ((λ v, (""%string, leaf v)) <$> l).

Definition read (s : string) : option tree :=
  match list_ascii_of_string s with
  | "{" :: s =>
      '(k, s) ← read_quoted s;
      '(t, rest) ←
        match s with
        | ":" :: "[" :: s => '(l, rest) ← read_elements (length s) s; Some (array_of l, rest)
        | ":" :: s => '(v, rest) ← read_quoted s; Some (leaf v, rest)
        | _ => None
        end;
      if bool_decide (rest = ["}"]) then Some (Tree "" [(k, t)]) else None
  | _ => None
  end%char.

Definition find_child (k : string) (t : tree) : option tree :=
  snd <$> head (filter (λ c : string * tree, c.1 = k) (tree_children t)).

#[export] Instance property_tree : PropertyTree := {
  ptree := tree;
  empty_ptree := leaf "";
  put_value v t := Tree v (tree_children t);
  push_back k c t := Tree (tree_value t) (tree_children t ++ [(k, c)]);
  add_child k c t := Tree (tree_value t) (tree_children t ++ [(k, c)]);
  count k t := size (filter (λ c : string * tree, c.1 = k) (tree_children t));
  get_child := find_child;
  children := tree_children;
  get_value := tree_value;
  write_json := write;
  read_json := read
}.

Lemma plain_no_quote v : plain_text v → q ∉ list_ascii_of_string v.
Proof.
  unfold plain_text. induction (list_ascii_of_string v) as [|c l IH]; cbn [forallb]; [intros _; apply not_elem_of_nil|].
  intros [Hc Hl]%andb_prop_elim [<-|Hin]%elem_of_cons; [done|by apply IH].
Qed.

Lemma until_quote_plain v rest : q ∉ list_ascii_of_string v → until_quote (list_ascii_of_string v ++ q :: rest) = Some (list_ascii_of_string v, rest).
Proof.
  induction (list_ascii_of_string v) as [|c l IH]; cbn [app until_quote]; [by rewrite bool_decide_true|].
  intros [Hc Hl]%not_elem_of_cons. rewrite bool_decide_false by congruence. by rewrite (IH Hl).
Qed.

Lemma read_quoted_plain v rest : q ∉ list_ascii_of_string v → read_quoted (quoted v ++ rest) = Some (v, rest).
Proof.
  intros Hv. unfold quoted. rewrite <- app_comm_cons, <- app_assoc. cbn [read_quoted app]. rewrite bool_decide_true by done.
  rewrite (until_quote_plain v rest Hv). cbn. by rewrite string_of_list_ascii_of_string.
Qed.

Lemma read_elements_plain l rest : l ≠ [] → Forall plain_text l → ∀ fuel, (length l ≤ fuel)%nat →
  read_elements fuel (write_elements l ++ "]"%char :: rest) = Some (l, rest).
Proof.
  intros Hne Hl. induction Hl as [|v l Hv Hl IH]; [done|]. intros [|fuel] Hf; [cbn in Hf; lia|].
  destruct l as [|w l].
  - cbn [write_elements read_elements]. by rewrite read_quoted_plain by by apply plain_no_quote.
  - change (write_elements (v :: w :: l)) with (quoted v ++ ","%char :: write_elements (w :: l)).
    rewrite <- app_assoc. cbn [read_elements]. rewrite read_quoted_plain by by apply plain_no_quote. cbn [mbind option_bind app].
    rewrite IH; [done|done|]. cbn in Hf |- *. lia.
Qed.

Lemma write_elements_length l : (length l ≤ length (write_elements l))%nat.
Proof.
  induction l as [|v l IH]; [done|]. destruct l as [|w l]; [cbn; lia|].
  change (write_elements (v :: w :: l)) with (quoted v ++ ","%char :: write_elements (w :: l)).
  rewrite length_app. cbn [length] in *. lia.
Qed.

Lemma strings_tree_array l : strings_tree l empty_ptree = array_of l.
Proof.
  unfold strings_tree. cbn. enough (∀ acc, foldl (λ t v, Tree (tree_value t) (tree_children t ++ [(""%string, Tree v [])])) (array_of acc) l = array_of (acc ++ l)) as H by apply (H []).
  induction l as [|v l IH]; intros acc; cbn [foldl]; [by rewrite app_nil_r|].
  specialize (IH (acc ++ [v])). rewrite <- app_assoc in IH. cbn [app] in IH. rewrite <- IH. f_equal. unfold array_of. by rewrite fmap_app.
Qed.

Lemma elements_of (l : list string) : (tree_value ∘ snd) <$> ((λ v, (""%string, leaf v)) <$> l) = l.
Proof. rewrite <- list_fmap_compose. rewrite <- (list_fmap_id l) at 2. by apply list_fmap_ext. Qed.

#[export] Instance laws : PropertyTreeLaws.
Proof.
  split.
  - intros k t. cbn. unfold find_child. destruct (filter _ (tree_children t)) as [|c l]; [done|]. intros _. by eexists.
  - intros l Hl. rewrite strings_tree_array. cbn [write_json add_child empty_ptree property_tree leaf tree_value tree_children app].
    destruct l as [|v l].
    + eexists _, _, _. split; [reflexivity|]. split; [vm_compute; reflexivity|]. by split_and!.
    + assert (write (Tree "" [("/"%string, array_of (v :: l))]) = Some (string_of_list_ascii
        ("{" :: quoted "/" ++ ":" :: ("[" :: write_elements (v :: l) ++ ["]"]) ++ ["}"])%char)) as Hw.
      { rewrite <- (elements_of (v :: l)) at 2. reflexivity. }
      eexists _, (Tree "" [("/"%string, array_of (v :: l))]), (array_of (v :: l)). split; [exact Hw|]. split_and!; [|done|done|].
      * cbn [read_json property_tree]. unfold read. rewrite list_ascii_of_string_of_list_ascii.
        rewrite read_quoted_plain by (cbn; by intros [=]%list_elem_of_singleton). cbn [mbind option_bind app].
        rewrite <- app_assoc. cbn [app]. rewrite read_elements_plain; [|done|done|].
        -- cbn [mbind option_bind]. by rewrite bool_decide_true.
        -- rewrite length_app. pose proof (write_elements_length (v :: l)). lia.
      * apply (elements_of (v :: l)).
Qed.
End SampleJson.

Module SampleText.

(** A base encoding: the letter f, then two digits for a byte. *)
Definition nibble (n : Z) : ascii := ascii_of_N (Z.to_N (if n <? 10 then 48 + n else 87 + n)).
Definition unnibble (c : ascii) : Z := let n := Z.of_N (N_of_ascii c) in if n <? 58 then n - 48 else n - 87.

Fixpoint bytes_text (b : bytes) : string :=
  match b with [] => EmptyString | x :: b => String (nibble (x / 16)) (String (nibble (x mod 16)) (bytes_text b)) end.
Fixpoint text_bytes (s : string) : bytes :=
  match s with String c (String d s) => 16 * unnibble c + unnibble d :: text_bytes s | _ => [] end.

#[export] Instance codec : CidCodec Sample.Multihash := {
  codec_toString c := match toBytes c with success b => success (String "f" (bytes_text b)) | failure _ => failure 1 end;
  codec_fromString s :=
    match s with
    | String "f" s => match fromBytes (text_bytes s) with success c => success c | failure _ => failure 2 end
    | _ => failure 3
    end
}.

Definition cids : list (CID Sample.Multihash) := [Sample.cid_v1 5; Sample.cid_v1 200].
Definition text (c : CID Sample.Multihash) : string := match toString c with success s => s | failure _ => "" end.

Lemma cids_text : Forall (λ c, ∃ s, has_text c s) cids.
Proof. repeat constructor; [exists (text (Sample.cid_v1 5))|exists (text (Sample.cid_v1 200))]; split_and!; vm_compute; done. Qed.

End SampleText.
Import SampleJson SampleText.

Lemma json_roundtrip_witness :
  (∃ s, encodeCidVector cids = returned s ∧ decodeCidVector s = returned cids) ∧
  (∃ s, encodeCidVector (M:=Sample.Multihash) [] = returned s ∧ decodeCidVector (M:=Sample.Multihash) s = returned []) ∧
  decodeCidVector (M:=Sample.Multihash) "junk" = failed BAD_JSON.
Proof.
  destruct json_roundtrip as (H1 & _ & H3). split; [exact (H1 cids cids_text)|]. split; [apply (H1 []); constructor|].
  exact (H3 "junk"%string).
Defined.
