(* ===== verification/Ipld.v ===== *)
(** IPLD nodes: [src/ipfs_lite/ipld]: [IPLDNodeImpl], its links, its block and the
    hand-written protobuf encoder.

    Strings are their bytes.  [NodeProtobuf] has what the encoder and the decoder
    take from the protobuf runtime: the varints of [CodedOutputStream] and the
    generated parser of [ipld_node.proto]. *)
From stdpp Require Import base numbers countable list gmap sorting.
From S2P Require Import Prelude Cid.

Open Scope Z_scope.

(** [PBLink] and [PBNode]: the fields the decoder reads. *)
Record PBLink := mkPBLink { pb_hash : bytes; pb_name : bytes; pb_tsize : Z }.
Record PBNode := mkPBNode { pb_links : list PBLink; pb_data : bytes; pb_destinations : list bytes }.

Class NodeProtobuf := {
  varint64 : Z → bytes;
  VarintSize64 : Z → Z;
  parse_node : bytes → option PBNode
}.

(** *** Data *)

Inductive IpldError :=
| LINK_NOT_FOUND
| INVALID_RAW_BYTES
| link_cid_error (e : CidError).

Section ipld.
Context {M : Type} `{!Multiformats M, !NodeProtobuf}.
(** libp2p's [Multihash::toBuffer]. *)
Context (toBuffer : M → bytes).

Record IPLDLink := mkIPLDLink { link_cid : CID M; link_name : bytes; link_size : Z }.

Record IPLDBlock := mkIPLDBlock { block_cid : CID M; block_bytes : bytes }.

Record IPLDNodeImpl := mkNode {
  content_ : bytes;
  links_ : gmap bytes IPLDLink;
  child_nodes_size_ : Z;
  ipld_block_ : option IPLDBlock;
  destinations_ : gset bytes
}.

Definition new_node : IPLDNodeImpl := mkNode [] ∅ 0 None ∅.

(** ** [IPLDNodeEncoderPB] *)

Definition VARINT : Z := 0.
Definition LENGTH_DELIMITED : Z := 2.
Definition HASH : Z := 1.
Definition NAME : Z := 2.
Definition SIZE : Z := 3.
Definition DATA : Z := 1.
Definition LINKS : Z := 2.
Definition DESTINATIONS : Z := 3.

Definition createTag (type order : Z) : Z := Z.lor (u8 (Z.shiftl order 3)) type.

Definition getLinkLengthPB (name : bytes) (link : IPLDLink) : Z :=
  let cid_bytes_size := size (toBuffer (content_address (link_cid link))) in
  u64 (cid_bytes_size + VarintSize64 cid_bytes_size + size name + VarintSize64 (size name) +
       VarintSize64 (link_size link) + 3).

Definition getContentLengthPB (content : bytes) : Z :=
  if bool_decide (content = []) then 0 else u64 (1 + VarintSize64 (size content) + size content).

Definition getDestinationsLengthPB (destinations : gset bytes) : Z :=
  foldl (λ length d, u64 (length + 1 + VarintSize64 (size d) + size d)) 0 (set_entries destinations).

(** A [CodedOutputStream] over a zeroed buffer of [n] bytes: what does not fit is
    not written. *)
Definition into_buffer (n : Z) (written : bytes) : bytes :=
  take (Z.to_nat n) (written ++ replicate (Z.to_nat n) 0).

(** A length-delimited field: tag, length, raw bytes. *)
Definition write_raw (order : Z) (raw : bytes) : bytes :=
  varint64 (createTag LENGTH_DELIMITED order) ++ varint64 (size raw) ++ raw.

(** The body of the loop of [serializeLinks]. *)
Definition write_link (name : bytes) (link : IPLDLink) : bytes :=
  varint64 (createTag LENGTH_DELIMITED LINKS) ++ varint64 (getLinkLengthPB name link) ++
  write_raw HASH (toBuffer (content_address (link_cid link))) ++
  write_raw NAME name ++
  varint64 (createTag VARINT SIZE) ++ varint64 (link_size link).

Definition serializeLinks (links : gmap bytes IPLDLink) : bytes :=
  let sizes := (λ '(name, link), getLinkLengthPB name link) <$> map_entries links in
  let content_size := foldl (λ n s, u64 (n + s)) 0 sizes in
  let headers_size := foldl (λ n s, u64 (n + 1 + VarintSize64 s)) 0 sizes in
  if 0 <? content_size then
    into_buffer (u64 (content_size + headers_size)) ('(name, link) ← map_entries links; write_link name link)
  else [].

Definition serializeContent (content : bytes) : bytes :=
  let n := getContentLengthPB content in
  if 0 <? n then into_buffer n (write_raw DATA content) else [].

Definition serializeDestinations (destinations : gset bytes) : bytes :=
  let n := getDestinationsLengthPB destinations in
  if 0 <? n then into_buffer n (d ← set_entries destinations; write_raw DESTINATIONS d) else [].

Definition encode_node (content : bytes) (links : gmap bytes IPLDLink) (destinations : gset bytes) : bytes :=
  serializeLinks links ++ serializeContent content ++ serializeDestinations destinations.

(** ** [IPLDNodeImpl] *)

Definition node_serialize (n : IPLDNodeImpl) : bytes := encode_node (content_ n) (links_ n) (destinations_ n).

(** [IPLDBlock::create] for a node: version 0, [dag-pb], SHA-256. *)
Definition create_block (n : IPLDNodeImpl) : attempt Z IPLDBlock :=
  let data := node_serialize n in
  multihash ← calculate HashType_sha256 data;
  mret (mkIPLDBlock (mkCID Version_V0 DAG_PB multihash) data).

(** [getIPLDBlock] fills the mutable cache: the block, and the node it leaves. *)
Definition getIPLDBlock (n : IPLDNodeImpl) : attempt Z (IPLDBlock * IPLDNodeImpl) :=
  match ipld_block_ n with
  | Some b => mret (b, n)
  | None =>
      b ← create_block n;
      mret (b, mkNode (content_ n) (links_ n) (child_nodes_size_ n) (Some b) (destinations_ n))
  end.

Definition getCID (n : IPLDNodeImpl) : attempt Z (CID M * IPLDNodeImpl) :=
  '(b, n) ← getIPLDBlock n; mret (block_cid b, n).

Definition getRawBytes (n : IPLDNodeImpl) : attempt Z (bytes * IPLDNodeImpl) :=
  '(b, n) ← getIPLDBlock n; mret (block_bytes b, n).

Definition node_size (n : IPLDNodeImpl) : attempt Z (Z * IPLDNodeImpl) :=
  '(d, n) ← getRawBytes n; mret (u64 (size d + child_nodes_size_ n), n).

Definition assign (input : bytes) (n : IPLDNodeImpl) : IPLDNodeImpl :=
  mkNode input (links_ n) (child_nodes_size_ n) None (destinations_ n).

(** [std::map::emplace]: an entry with the same key stays. *)
Definition emplace (name : bytes) (link : IPLDLink) (m : gmap bytes IPLDLink) : gmap bytes IPLDLink :=
  match m !! name with Some _ => m | None => <[name := link]> m end.

(** [addChild]: the parent and the child, whose block is made. *)
Definition addChild (name : bytes) (child n : IPLDNodeImpl) : attempt Z (IPLDNodeImpl * IPLDNodeImpl) :=
  '(cid, child) ← getCID child;
  '(sz, child) ← node_size child;
  mret (mkNode (content_ n) (emplace name (mkIPLDLink cid name sz) (links_ n))
          (u64 (child_nodes_size_ n + sz)) None (destinations_ n), child).

Definition getLink (name : bytes) (n : IPLDNodeImpl) : outcome IpldError IPLDLink :=
  match links_ n !! name with Some l => success l | None => failure LINK_NOT_FOUND end.

Definition removeLink (name : bytes) (n : IPLDNodeImpl) : IPLDNodeImpl :=
  match links_ n !! name with
  | Some l =>
      mkNode (content_ n) (delete name (links_ n)) (u64 (child_nodes_size_ n - link_size l)) None (destinations_ n)
  | None => n
  end.

Definition addLink (link : IPLDLink) (n : IPLDNodeImpl) : IPLDNodeImpl :=
  mkNode (content_ n) (emplace (link_name link) link (links_ n)) (child_nodes_size_ n) None (destinations_ n).

Definition getLinks (n : IPLDNodeImpl) : list IPLDLink := (map_entries (links_ n)).*2.

Definition addDestination (d : bytes) (n : IPLDNodeImpl) : IPLDNodeImpl :=
  mkNode (content_ n) (links_ n) (child_nodes_size_ n) None ({[d]} ∪ destinations_ n).

Definition removeDestination (d : bytes) (n : IPLDNodeImpl) : IPLDNodeImpl :=
  mkNode (content_ n) (links_ n) (child_nodes_size_ n) None (destinations_ n ∖ {[d]}).

Definition hasDestination (d : bytes) (n : IPLDNodeImpl) : bool := bool_decide (d ∈ destinations_ n).

Definition clearDestinations (n : IPLDNodeImpl) : IPLDNodeImpl :=
  mkNode (content_ n) (links_ n) (child_nodes_size_ n) None ∅.

Definition createFromString (content : bytes) : IPLDNodeImpl := assign content new_node.

(** The loop over the links of [createFromRawBytes]; a [uint64] always fits in a
    [size_t]. *)
Fixpoint add_links (l : list PBLink) (n : IPLDNodeImpl) : outcome IpldError IPLDNodeImpl :=
  match l with
  | [] => success n
  | link :: l =>
      match fromBytes (pb_hash link) with
      | failure e => failure (link_cid_error e)
      | success cid => add_links l (addLink (mkIPLDLink cid (pb_name link) (pb_tsize link)) n)
      end
  end.

Definition createFromRawBytes (input : bytes) : outcome IpldError IPLDNodeImpl :=
  match parse_node input with
  | None => failure INVALID_RAW_BYTES
  | Some pb_node =>
      node ← add_links (pb_links pb_node) (createFromString (pb_data pb_node));
      success (foldl (λ n d, addDestination d n) node (pb_destinations pb_node))
  end.

End ipld.
Arguments IPLDLink M : clear implicits.
Arguments IPLDBlock M : clear implicits.
Arguments IPLDNodeImpl M : clear implicits.


(** ** The wire format of [ipld_node.proto] *)

(** A field of a [PBNode] on the wire, and the message a sequence of fields
    stands for: repeated fields accumulate, the last [Data] wins. *)
Inductive node_field :=
| F_link (l : PBLink)
| F_data (d : bytes)
| F_dest (d : bytes).

Section wire.
Context `{!NodeProtobuf}.

Definition wire_raw (tag : Z) (d : bytes) : bytes := tag :: varint64 (size d) ++ d.

Definition wire_link (l : PBLink) : bytes :=
  wire_raw 10 (pb_hash l) ++ wire_raw 18 (pb_name l) ++ 24 :: varint64 (pb_tsize l).

Definition wire (f : node_field) : bytes :=
  match f with
  | F_link l => wire_raw 18 (wire_link l)
  | F_data d => wire_raw 10 d
  | F_dest d => wire_raw 26 d
  end.

Definition wire_fields (fs : list node_field) : bytes := f ← fs; wire f.

Definition add_field (n : PBNode) (f : node_field) : PBNode :=
  match f with
  | F_link l => mkPBNode (pb_links n ++ [l]) (pb_data n) (pb_destinations n)
  | F_data d => mkPBNode (pb_links n) d (pb_destinations n)
  | F_dest d => mkPBNode (pb_links n) (pb_data n) (pb_destinations n ++ [d])
  end.

Definition merge (fs : list node_field) : PBNode := foldl add_field (mkPBNode [] [] []) fs.

Definition wf_field (f : node_field) : Prop :=
  match f with F_link l => 0 ≤ pb_tsize l < 2 ^ 64 | _ => True end.

End wire.

(** What the protobuf documentation says of the varints and of the parser, for
    messages within its limit of 2 GiB. *)
Class NodeProtobufLaws `{!NodeProtobuf} := {
  varint64_small n : 0 ≤ n < 128 → varint64 n = [n];
  VarintSize64_spec n : 0 ≤ n < 2 ^ 64 → VarintSize64 n = size (varint64 n);
  parse_fields fs : Forall wf_field fs → size (wire_fields fs) < 2 ^ 31 →
    parse_node (wire_fields fs) = Some (merge fs)
}.

(** ** The encoder fills its buffers exactly *)

Section encoding.
Context {M : Type} `{!Multiformats M, !NodeProtobuf, !NodeProtobufLaws}.
Context (toBuffer : M → bytes).

Definition pb_link (name : bytes) (l : IPLDLink M) : PBLink :=
  mkPBLink (toBuffer (content_address (link_cid l))) name (link_size l).

(** The fields the encoder writes, in order. *)
Definition link_fields (links : gmap bytes (IPLDLink M)) : list node_field :=
  (λ '(name, l), F_link (pb_link name l)) <$> map_entries links.
Definition data_fields (content : bytes) : list node_field :=
  if bool_decide (content = []) then [] else [F_data content].
Definition dest_fields (destinations : gset bytes) : list node_field := F_dest <$> set_entries destinations.
Definition node_fields (content : bytes) (links : gmap bytes (IPLDLink M)) (destinations : gset bytes) :
    list node_field := link_fields links ++ data_fields content ++ dest_fields destinations.

Lemma wire_fields_app a b : wire_fields (a ++ b) = wire_fields a ++ wire_fields b.
Proof. apply bind_app. Qed.

Lemma into_buffer_exact n w : size w = n → into_buffer n w = w.
Proof.
  intros <-. unfold into_buffer, size. rewrite Nat2Z.id. apply take_app_length.
Qed.

Lemma write_raw_wire order d : 0 < order < 16 → write_raw order d = wire_raw (order * 8 + 2) d.
Proof.
  intros Ho. unfold write_raw, wire_raw.
  assert (createTag LENGTH_DELIMITED order = order * 8 + 2) as ->.
  { assert (order ∈ seqZ 1 15) as Hin by (apply elem_of_seqZ; lia). cbn in Hin.
    repeat (apply elem_of_cons in Hin as [->|Hin]; [done|]). by apply elem_of_nil in Hin. }
  rewrite (varint64_small (order * 8 + 2)) by lia. done.
Qed.

Lemma size_wire_raw tag d : size (wire_raw tag d) = 1 + size (varint64 (size d)) + size d.
Proof. unfold wire_raw. rewrite size_cons, size_app. lia. Qed.

Lemma link_length name l : 0 ≤ link_size l < 2 ^ 64 → size (wire_link (pb_link name l)) < 2 ^ 31 →
  getLinkLengthPB toBuffer name l = size (wire_link (pb_link name l)).
Proof.
  intros Hs Hb. unfold getLinkLengthPB, wire_link in *. cbn [pb_hash pb_name pb_tsize pb_link] in *.
  rewrite !size_app, !size_wire_raw, size_cons in *.
  set (h := toBuffer (content_address (link_cid l))) in *.
  pose proof (size_nonneg h). pose proof (size_nonneg name). pose proof (size_nonneg (varint64 (size h))).
  pose proof (size_nonneg (varint64 (size name))). pose proof (size_nonneg (varint64 (link_size l))).
  rewrite !VarintSize64_spec by lia. rewrite wrap_small by lia. lia.
Qed.

Lemma write_link_wire name l : 0 ≤ link_size l < 2 ^ 64 → size (wire_link (pb_link name l)) < 2 ^ 31 →
  write_link toBuffer name l = wire (F_link (pb_link name l)).
Proof.
  intros Hs Hb. unfold write_link. rewrite (link_length _ _ Hs Hb). cbn [wire]. unfold wire_raw at 1.
  change (createTag LENGTH_DELIMITED LINKS) with 18. change (createTag VARINT SIZE) with 24.
  rewrite (varint64_small 18), (varint64_small 24) by lia.
  rewrite !write_raw_wire by (unfold HASH, NAME; lia). done.
Qed.

(** A sum that stays within [size_t]. *)
Definition sum_of {A} (f : A → Z) (l : list A) : Z := foldr (λ x n, f x + n) 0 l.

Lemma sum_of_nonneg {A} (f : A → Z) l : (∀ x, x ∈ l → 0 ≤ f x) → 0 ≤ sum_of f l.
Proof.
  induction l as [|x l IH]; intros Hf; cbn; [done|].
  pose proof (Hf x ltac:(set_solver)). pose proof (IH ltac:(set_solver)). unfold sum_of in *. lia.
Qed.

Lemma foldl_u64 {A} (f : A → Z) (g : Z → A → Z) (l : list A) : (∀ n x, g n x = u64 (n + f x)) →
  ∀ acc, (∀ x, x ∈ l → 0 ≤ f x) → 0 ≤ acc → acc + sum_of f l < 2 ^ 64 → foldl g acc l = acc + sum_of f l.
Proof.
  intros Hg. induction l as [|x l IH]; intros acc Hf Ha Hb; cbn [foldl sum_of foldr] in *; [lia|].
  pose proof (sum_of_nonneg f l ltac:(set_solver)). pose proof (Hf x ltac:(set_solver)).
  change (foldr (λ x n, f x + n) 0 l) with (sum_of f l) in *.
  rewrite Hg, wrap_small by lia. rewrite IH; [lia| |lia|lia]. set_solver.
Qed.

Definition entry_ok (e : bytes * IPLDLink M) : Prop :=
  0 ≤ link_size e.2 < 2 ^ 64 ∧ size (wire_link (pb_link e.1 e.2)) < 2 ^ 31.

(** The lengths computed first are those of what the loop writes. *)
Lemma links_exact (es : list (bytes * IPLDLink M)) : Forall entry_ok es →
  let lens := (λ '(name, link), getLinkLengthPB toBuffer name link) <$> es in
  ('(name, link) ← es; write_link toBuffer name link) = wire_fields ((λ '(name, l), F_link (pb_link name l)) <$> es) ∧
  sum_of id lens + sum_of (λ s, 1 + VarintSize64 s) lens =
    size (wire_fields ((λ '(name, l), F_link (pb_link name l)) <$> es)) ∧
  (∀ s, s ∈ lens → 0 < s < 2 ^ 31).
Proof.
  induction 1 as [|[name l] es [Hs Hb] _ IH]; [split_and!; [done|done|set_solver]|]. cbn [fst snd] in *.
  destruct IH as (Hw & Hl & Hp). cbv zeta. rewrite fmap_cons, bind_cons, !fmap_cons. cbn [sum_of foldr].
  change (foldr (λ x n : Z, id x + n) 0) with (sum_of id).
  change (foldr (λ x n : Z, 1 + VarintSize64 x + n) 0) with (sum_of (λ s, 1 + VarintSize64 s)).
  unfold wire_fields at 1 2. rewrite !bind_cons. fold (wire_fields ((λ '(name, l), F_link (pb_link name l)) <$> es)).
  rewrite write_link_wire, link_length by done. pose proof (size_nonneg (wire_link (pb_link name l))).
  assert (0 < size (wire_link (pb_link name l))) as Hpos.
  { unfold wire_link, wire_raw. rewrite !size_app, !size_cons. pose proof (size_nonneg (varint64 (size (pb_hash (pb_link name l))) ++ pb_hash (pb_link name l))).
    pose proof (size_nonneg (varint64 (size (pb_name (pb_link name l))) ++ pb_name (pb_link name l))).
    pose proof (size_nonneg (varint64 (pb_tsize (pb_link name l)))). lia. }
  split; [by rewrite <- Hw|]. split.
  - rewrite size_app, <- Hl. cbn [wire]. rewrite size_wire_raw, VarintSize64_spec by lia. unfold id. lia.
  - intros s [->|Hin]%elem_of_cons; [lia|by apply Hp].
Qed.

Lemma size_wire_fields_elem f fs : f ∈ fs → size (wire f) ≤ size (wire_fields fs).
Proof.
  induction fs as [|g fs IH]; [by intros Hn%elem_of_nil|]. unfold wire_fields. rewrite bind_cons, size_app.
  fold (wire_fields fs). intros [->|Hin]%elem_of_cons; [pose proof (size_nonneg (wire_fields fs)); lia|].
  specialize (IH Hin). pose proof (size_nonneg (wire g)). lia.
Qed.

Definition links_ok (links : gmap bytes (IPLDLink M)) : Prop :=
  ∀ name l, links !! name = Some l → 0 ≤ link_size l < 2 ^ 64.

Lemma serializeLinks_exact links : links_ok links → size (wire_fields (link_fields links)) < 2 ^ 31 →
  serializeLinks toBuffer links = wire_fields (link_fields links).
Proof.
  intros Hok Hb. assert (Forall entry_ok (map_entries links)) as Hes.
  { apply Forall_forall. intros [name l] Hin. split.
    - rewrite map_entries_perm in Hin. apply elem_of_map_to_list in Hin. by apply (Hok name).
    - assert (F_link (pb_link name l) ∈ link_fields links) as Hf.
      { unfold link_fields. apply list_elem_of_fmap. by exists (name, l). }
      apply size_wire_fields_elem in Hf. cbn [wire fst snd] in *. rewrite size_wire_raw in Hf.
      pose proof (size_nonneg (varint64 (size (wire_link (pb_link name l))))). lia. }
  destruct (links_exact _ Hes) as (Hw & Hl & Hp). cbv zeta in *. unfold serializeLinks, link_fields in *.
  set (lens := (λ '(name, link), getLinkLengthPB toBuffer name link) <$> map_entries links) in *.
  assert (0 ≤ sum_of id lens) as H1 by (apply sum_of_nonneg; intros x Hx; unfold id; specialize (Hp x Hx); lia).
  assert (∀ s, s ∈ lens → 0 ≤ 1 + VarintSize64 s) as Hv.
  { intros s Hs. specialize (Hp s Hs). rewrite VarintSize64_spec by lia. pose proof (size_nonneg (varint64 s)). lia. }
  pose proof (sum_of_nonneg _ lens Hv) as H2.
  rewrite (foldl_u64 id) by (done || (intros x Hx; unfold id; specialize (Hp x Hx); lia) || lia).
  rewrite (foldl_u64 (λ s, 1 + VarintSize64 s)) by ((intros; f_equal; lia) || done || lia).
  rewrite !Z.add_0_l, Hl, wrap_small by lia. rewrite Hw. destruct (Z.ltb_spec 0 (sum_of id lens)).
  - by apply into_buffer_exact.
  - assert (map_entries links = []) as ->; [|done]. subst lens. destruct (map_entries links) as [|e es]; [done|].
    exfalso. rewrite fmap_cons in *. cbn [sum_of foldr] in *.
    specialize (Hp _ (list_elem_of_here _ _)) as Hp1.
    pose proof (sum_of_nonneg id ((λ '(name, link), getLinkLengthPB toBuffer name link) <$> es)
      ltac:(intros x Hx; specialize (Hp x ltac:(set_solver)); unfold id; lia)) as Hsum.
    unfold sum_of, id in *. lia.
Qed.

Lemma serializeContent_exact content : size (wire_fields (data_fields content)) < 2 ^ 31 →
  serializeContent content = wire_fields (data_fields content).
Proof.
  unfold serializeContent, getContentLengthPB, data_fields. case_bool_decide as Hc; [done|]. intros Hb.
  unfold wire_fields in *. cbn [mbind list_bind] in *. rewrite app_nil_r in *. cbn [wire] in *.
  rewrite size_wire_raw in Hb. pose proof (size_nonneg content). pose proof (size_nonneg (varint64 (size content))).
  rewrite VarintSize64_spec, wrap_small by lia.
  destruct (Z.ltb_spec 0 (1 + size (varint64 (size content)) + size content)); [|lia].
  rewrite write_raw_wire by (unfold DATA; lia). apply into_buffer_exact. by rewrite size_wire_raw.
Qed.

Lemma serializeDestinations_exact ds : size (wire_fields (dest_fields ds)) < 2 ^ 31 →
  serializeDestinations ds = wire_fields (dest_fields ds).
Proof.
  unfold serializeDestinations, getDestinationsLengthPB, dest_fields. generalize (set_entries ds). clear ds. intros l Hb.
  assert ((d ← l; write_raw DESTINATIONS d) = wire_fields (F_dest <$> l)) as Hw.
  { clear Hb. induction l as [|d l IH]; [done|]. unfold wire_fields. rewrite fmap_cons, !bind_cons.
    rewrite IH, write_raw_wire by (unfold DESTINATIONS; lia). done. }
  assert (sum_of (λ d, 1 + VarintSize64 (size d) + size d) l = size (wire_fields (F_dest <$> l)) ∧
    ∀ d, d ∈ l → 0 < 1 + VarintSize64 (size d) + size d) as [Hs Hp].
  { clear Hw. induction l as [|d l IH]; [split; [done|set_solver]|]. revert Hb. unfold wire_fields.
    rewrite fmap_cons, bind_cons, size_app. fold (wire_fields (F_dest <$> l)). cbn [wire]. rewrite size_wire_raw. intros Hb.
    pose proof (size_nonneg d). pose proof (size_nonneg (varint64 (size d))). pose proof (size_nonneg (wire_fields (F_dest <$> l))).
    destruct IH as [IH Hp]; [lia|]. cbn [sum_of foldr]. fold (sum_of (λ d, 1 + VarintSize64 (size d) + size d) l).
    rewrite IH, VarintSize64_spec by lia. split; [lia|]. intros x [->|Hx]%elem_of_cons; [|by apply Hp].
    rewrite VarintSize64_spec; lia. }
  assert (∀ d, d ∈ l → 0 ≤ 1 + VarintSize64 (size d) + size d) as Hp0 by (intros d Hd; specialize (Hp d Hd); lia).
  rewrite (foldl_u64 (λ d, 1 + VarintSize64 (size d) + size d)) by ((intros; f_equal; lia) || done || (rewrite ?Hs; lia)).
  rewrite Z.add_0_l, Hs, Hw. destruct (Z.ltb_spec 0 (size (wire_fields (F_dest <$> l)))) as [?|Hz]; [by apply into_buffer_exact|].
  revert Hz. destruct (wire_fields (F_dest <$> l)) as [|z w]; [done|]. rewrite size_cons. pose proof (size_nonneg w). lia.
Qed.

(** A node is written as its fields, one after the other. *)
Lemma encode_exact content links ds : links_ok links → size (wire_fields (node_fields content links ds)) < 2 ^ 31 →
  encode_node toBuffer content links ds = wire_fields (node_fields content links ds).
Proof.
  intros Hok. unfold encode_node, node_fields. rewrite !wire_fields_app, !size_app. intros Hb.
  pose proof (size_nonneg (wire_fields (link_fields links))). pose proof (size_nonneg (wire_fields (data_fields content))).
  pose proof (size_nonneg (wire_fields (dest_fields ds))).
  by rewrite serializeLinks_exact, serializeContent_exact, serializeDestinations_exact by (done || lia).
Qed.

End encoding.

(** ** Nodes *)

Section nodes.
Context {M : Type} `{!Multiformats M, !MultiformatsLaws M, !NodeProtobuf, !NodeProtobufLaws}.
Context (toBuffer : M → bytes).
Implicit Types (n : IPLDNodeImpl M) (l : IPLDLink M).

Notation create_block := (create_block toBuffer).
Notation getCID := (getCID toBuffer).
Notation getRawBytes := (getRawBytes toBuffer).
Notation getIPLDBlock := (getIPLDBlock toBuffer).
Notation node_size := (node_size toBuffer).
Notation addChild := (addChild toBuffer).

(** The operations on a node: what a caller can make of one node. *)
Inductive node_op : IPLDNodeImpl M → IPLDNodeImpl M → Prop :=
| op_assign input n : node_op n (assign input n)
| op_block b n n' : getIPLDBlock n = returned (b, n') → node_op n n'
| op_addChild name child n n' child' : addChild name child n = returned (n', child') → node_op n n'
| op_removeLink name n : node_op n (removeLink name n)
| op_addLink l n : node_op n (addLink l n)
| op_addDestination d n : node_op n (addDestination d n)
| op_removeDestination d n : node_op n (removeDestination d n)
| op_clearDestinations n : node_op n (clearDestinations n).

(** The cached block is that of the fields; a link is under its name. *)
Record node_wf n : Prop := {
  node_cache b : ipld_block_ n = Some b → create_block n = returned b;
  node_names name l : links_ n !! name = Some l → link_name l = name
}.

Lemma node_wf_fresh content links k ds :
  (∀ name l, links !! name = Some l → link_name l = name) → node_wf (mkNode content links k None ds).
Proof. intros Hl. by split. Qed.

Lemma emplace_names links name l : link_name l = name →
  (∀ k x, links !! k = Some x → link_name x = k) → ∀ k x, emplace name l links !! k = Some x → link_name x = k.
Proof.
  intros Hn Hl k x. unfold emplace. case_match; [by apply Hl|].
  rewrite lookup_insert_Some. intros [[<- <-]|[_ Hk]]; [done|by apply Hl].
Qed.

Lemma create_block_fields n n' : content_ n = content_ n' → links_ n = links_ n' → destinations_ n = destinations_ n' →
  create_block n = create_block n'.
Proof. intros Hc Hl Hd. unfold create_block, node_serialize. by rewrite Hc, Hl, Hd. Qed.

Lemma getIPLDBlock_spec n b n' : node_wf n → getIPLDBlock n = returned (b, n') →
  create_block n = returned b ∧ ipld_block_ n' = Some b ∧ content_ n' = content_ n ∧ links_ n' = links_ n ∧
  child_nodes_size_ n' = child_nodes_size_ n ∧ destinations_ n' = destinations_ n.
Proof.
  intros [Hc _]. unfold getIPLDBlock. destruct (ipld_block_ n) as [b'|] eqn:Hb.
  - intros [= -> ->]. split; [by apply Hc|]. done.
  - destruct (create_block n) as [b'| |]; try done. by intros [= <- <-].
Qed.

Lemma getIPLDBlock_again n b n' : getIPLDBlock n = returned (b, n') → getIPLDBlock n' = returned (b, n').
Proof.
  unfold getIPLDBlock. destruct (ipld_block_ n) as [b'|] eqn:Hb; [intros [= <- <-]; by rewrite Hb|].
  destruct (create_block n); try done. by intros [= <- <-].
Qed.

Lemma node_op_wf n n' : node_wf n → node_op n n' → node_wf n'.
Proof.
  intros Hwf Hop. pose proof (node_names _ Hwf) as Hn.
  destruct Hop as [| |name child n n' child' Hadd| | | | |].
  - by apply node_wf_fresh.
  - match goal with Hg : getIPLDBlock _ = _ |- _ =>
      destruct (getIPLDBlock_spec _ _ _ Hwf Hg) as (Hb & Hs & Hc & Hl & _ & Hd) end.
    split; [|by rewrite Hl]. rewrite Hs. intros b' [= <-]. by rewrite <- Hb; apply create_block_fields.
  - unfold addChild in Hadd. destruct (getCID child) as [[cid c1]| |]; try done. cbn [mbind attempt_bind] in Hadd.
    destruct (node_size c1) as [[sz c2]| |]; try done. cbn [mbind attempt_bind] in Hadd. injection Hadd as <- <-.
    apply node_wf_fresh. by apply emplace_names.
  - unfold removeLink. destruct (links_ n !! name); [|done]. apply node_wf_fresh.
    intros k x [_ Hk]%lookup_delete_Some. by apply Hn.
  - apply node_wf_fresh. by apply emplace_names.
  - by apply node_wf_fresh.
  - by apply node_wf_fresh.
  - by apply node_wf_fresh.
Qed.

Lemma new_node_wf : node_wf new_node.
Proof. by apply node_wf_fresh. Qed.

Lemma node_ops_wf n : rtc node_op new_node n → node_wf n.
Proof.
  assert (∀ n1 n2, rtc node_op n1 n2 → node_wf n1 → node_wf n2) as Hrtc.
  { induction 1 as [|n1 n2 n3 Hop _ IH]; [done|]. intros Hwf. by apply IH, (node_op_wf n1). }
  intros Hr. exact (Hrtc _ _ Hr new_node_wf).
Qed.

Lemma block_made n : ∃ h, mh_create HashType_sha256 (libp2p_sha256 (node_serialize toBuffer n)) = success h ∧
  create_block n = returned (mkIPLDBlock (mkCID Version_V0 DAG_PB h) (node_serialize toBuffer n)).
Proof.
  destruct (mh_create_ok HashType_sha256 (libp2p_sha256 (node_serialize toBuffer n))) as [h Hh].
  { rewrite sha256_size. lia. }
  exists h. split; [done|]. unfold create_block, calculate, sha2_256.
  change (HashType_sha256 =? HashType_sha256) with true. cbv iota. by rewrite Hh.
Qed.

Lemma block_got n : node_wf n → ∃ h n', mh_create HashType_sha256 (libp2p_sha256 (node_serialize toBuffer n)) = success h ∧
  getIPLDBlock n = returned (mkIPLDBlock (mkCID Version_V0 DAG_PB h) (node_serialize toBuffer n), n') ∧
  getIPLDBlock n' = returned (mkIPLDBlock (mkCID Version_V0 DAG_PB h) (node_serialize toBuffer n), n') ∧
  content_ n' = content_ n ∧ links_ n' = links_ n ∧
  child_nodes_size_ n' = child_nodes_size_ n ∧ destinations_ n' = destinations_ n.
Proof.
  intros Hwf. destruct (block_made n) as (h & Hh & Hc).
  assert (∃ b n', getIPLDBlock n = returned (b, n')) as (b & n' & Hg).
  { unfold getIPLDBlock. destruct (ipld_block_ n); [by do 2 eexists|]. rewrite Hc. by do 2 eexists. }
  destruct (getIPLDBlock_spec _ _ _ Hwf Hg) as (Hb & Hs & Hrest). rewrite Hc in Hb. injection Hb as <-.
  exists h, n'. split_and!; [done|done| |apply Hrest..]. unfold getIPLDBlock. by rewrite Hs.
Qed.

(** C30: the block a node caches is never stale.  Whatever sequence of
    [assign], [addChild], [removeLink], [addLink], the destination operations and
    the queries that fill the cache a caller makes of a new node, [getCID] and
    [getRawBytes] give the SHA-256 CIDv0 and the bytes of the serialization of the
    node's present content, links and destinations, and every link is found under
    the name it carries. *)
Theorem node_cache_coherent n :
  rtc node_op new_node n →
  (∃ h n', mh_create HashType_sha256 (libp2p_sha256 (node_serialize toBuffer n)) = success h ∧
     getCID n = returned (mkCID Version_V0 DAG_PB h, n') ∧
     getRawBytes n' = returned (node_serialize toBuffer n, n')) ∧
  (∀ name l, getLink name n = success l → link_name l = name).
Proof.
  intros Hwf%node_ops_wf. split.
  - destruct (block_got _ Hwf) as (h & n' & Hh & Hg & Hg' & _). exists h, n'.
    unfold getCID, getRawBytes. by rewrite Hg, Hg'.
  - intros name l. unfold getLink. case_match; [|done]. intros [= <-]. by apply (node_names _ Hwf).
Qed.

(** *** Cumulative sizes *)

Definition links_size (links : gmap bytes (IPLDLink M)) : Z := map_fold (λ _ l s, link_size l + s) 0 links.

Lemma links_size_insert links name l : links !! name = None → links_size (<[name := l]> links) = link_size l + links_size links.
Proof. intros Hn. unfold links_size. rewrite map_fold_insert_L; [done| |done]. intros. lia. Qed.

Lemma links_size_delete links name l : links !! name = Some l → links_size (delete name links) = links_size links - link_size l.
Proof.
  intros Hl. pose proof (links_size_insert (delete name links) name l (lookup_delete_eq _ _)) as Hi.
  rewrite insert_delete_id in Hi by done. lia.
Qed.

(** The operations that keep account of the children's sizes: [addChild] under a
    new name, [removeLink] and those that leave the links alone. *)
Inductive sized_op : IPLDNodeImpl M → IPLDNodeImpl M → Prop :=
| sized_addChild name child n n' child' :
    links_ n !! name = None → addChild name child n = returned (n', child') → sized_op n n'
| sized_removeLink name n : sized_op n (removeLink name n)
| sized_other n n' : node_op n n' → links_ n' = links_ n → child_nodes_size_ n' = child_nodes_size_ n → sized_op n n'.

Lemma addChild_spec name child n n' child' : addChild name child n = returned (n', child') →
  ∃ cid sz, links_ n' = emplace name (mkIPLDLink cid name sz) (links_ n) ∧
    child_nodes_size_ n' = u64 (child_nodes_size_ n + sz) ∧ node_op n n' ∧
    (∃ c, getCID child = returned (cid, c) ∧ node_size c = returned (sz, child')).
Proof.
  intros Hadd. assert (node_op n n') as Hop by (by eapply op_addChild).
  revert Hadd. unfold addChild. destruct (getCID child) as [[cid c1]| |]; try done. cbn [mbind attempt_bind].
  destruct (node_size c1) as [[sz c2]| |] eqn:Hsz; try done. intros [= <- <-]. exists cid, sz. eauto 6.
Qed.

Lemma sized_op_sound n n' : node_wf n → child_nodes_size_ n = u64 (links_size (links_ n)) → sized_op n n' →
  node_wf n' ∧ child_nodes_size_ n' = u64 (links_size (links_ n')).
Proof.
  intros Hwf Hs. destruct 1 as [name child n n' child' Hn Hadd|name n|n n' Hop Hl Hc].
  - destruct (addChild_spec _ _ _ _ _ Hadd) as (cid & sz & Hl & Hc & Hop & _).
    split; [by apply (node_op_wf n)|]. rewrite Hl, Hc, Hs. unfold emplace. rewrite Hn, links_size_insert by done.
    rewrite wrap_add_l. cbn [link_size]. f_equal. lia.
  - split; [apply (node_op_wf n); [done|constructor]|]. unfold removeLink. destruct (links_ n !! name) as [l|] eqn:Hl; [|done].
    cbn [child_nodes_size_ links_]. rewrite (links_size_delete _ _ l) by done. rewrite Hs. by rewrite wrap_sub_l.
  - split; [by apply (node_op_wf n)|]. by rewrite Hl, Hc.
Qed.

Lemma sized_ops_sound n : rtc sized_op new_node n → node_wf n ∧ child_nodes_size_ n = u64 (links_size (links_ n)).
Proof.
  assert (∀ n1 n2, rtc sized_op n1 n2 → node_wf n1 → child_nodes_size_ n1 = u64 (links_size (links_ n1)) →
    node_wf n2 ∧ child_nodes_size_ n2 = u64 (links_size (links_ n2))) as Hrtc.
  { induction 1 as [|n1 n2 n3 Hop _ IH]; [done|]. intros Hwf Hs. apply (sized_op_sound _ _ Hwf Hs) in Hop as [??]. by apply IH. }
  intros Hr. apply (Hrtc _ _ Hr); [apply new_node_wf|done].
Qed.

(** What [size] counts.  As long as children are added under new names, a
    node's size is that of its bytes and of its links' cumulative sizes.  The two
    other ways to change the links lose the account: adding a child under a name
    in use leaves the links but adds the child's size, and a link that was added
    with [addLink] (as every link of a decoded node is) is subtracted when it is
    removed although it was never added, so that a node without child sizes ends
    with one just under [2^64]. *)
Theorem node_size_accounts n :
  rtc sized_op new_node n →
  (∃ n', node_size n = returned (u64 (size (node_serialize toBuffer n) + links_size (links_ n)), n')) ∧
  (∀ name child n' child', addChild name child n = returned (n', child') → is_Some (links_ n !! name) →
     ∃ sz c, node_size child = returned (sz, c) ∧
     links_ n' = links_ n ∧ child_nodes_size_ n' = u64 (links_size (links_ n') + sz)) ∧
  (∀ l, links_ n !! link_name l = None →
     let n' := removeLink (link_name l) (addLink l n) in
     links_ n' = links_ n ∧ child_nodes_size_ n' = u64 (links_size (links_ n) - link_size l)).
Proof.
  intros [Hwf Hs]%sized_ops_sound. split_and!.
  - destruct (block_got _ Hwf) as (h & n' & _ & Hg & _ & _ & _ & Hcs & _). exists n'.
    unfold node_size, getRawBytes. rewrite Hg. cbn [mbind attempt_bind block_bytes mret attempt_ret]. rewrite Hcs, Hs. by rewrite wrap_add_r.
  - intros name child n' child' Hadd [l Hl]. destruct (addChild_spec _ _ _ _ _ Hadd) as (cid & sz & Hl' & Hc & _ & c & Hcid & Hsz).
    exists sz, child'. split.
    + revert Hsz. unfold node_size, getRawBytes. unfold getCID in Hcid. revert Hcid.
      destruct (getIPLDBlock child) as [[b c1]| |] eqn:Hb; try done. intros [= _ <-].
      by rewrite (getIPLDBlock_again _ _ _ Hb).
    + unfold emplace in Hl'. rewrite Hl in Hl'. split; [done|]. rewrite Hc, Hl', Hs. by rewrite wrap_add_l.
  - intros l Hl. cbv zeta. unfold removeLink, addLink, emplace. cbn [links_ child_nodes_size_]. rewrite Hl, lookup_insert_eq.
    cbn [links_ child_nodes_size_]. split; [by apply delete_insert_id|]. rewrite Hs. by rewrite wrap_sub_l.
Qed.

End nodes.

(** *** Reading a node back *)

Lemma add_destinations {M} ds (n : IPLDNodeImpl M) : ipld_block_ n = None →
  foldl (λ n d, addDestination d n) n ds =
    mkNode (content_ n) (links_ n) (child_nodes_size_ n) None (list_to_set ds ∪ destinations_ n).
Proof.
  revert n. induction ds as [|d ds IH]; intros n Hn; cbn [foldl list_to_set].
  - rewrite (left_id_L ∅ (∪)). destruct n; cbn in *. by subst.
  - rewrite IH by done. unfold addDestination. cbn [content_ links_ child_nodes_size_ destinations_].
    f_equal. set_solver.
Qed.

Section roundtrip.
Context {M : Type} `{!Multiformats M, !MultiformatsLaws M, !NodeProtobuf, !NodeProtobufLaws}.
Context (toBuffer : M → bytes).
Implicit Types (n : IPLDNodeImpl M) (l : IPLDLink M).

(** [Multihash::toBuffer]: type, length and hash. *)
Hypothesis toBuffer_spec : ∀ a, toBuffer a = mh_head a ++ getHash a.

(** A link as it comes back: the wire has the multihash of the CID only. *)
Definition as_v0 l : IPLDLink M :=
  mkIPLDLink (mkCID Version_V0 DAG_PB (content_address (link_cid l))) (link_name l) (link_size l).

Definition links_sha256 (links : gmap bytes (IPLDLink M)) : Prop := ∀ name l, links !! name = Some l →
  getType (content_address (link_cid l)) = HashType_sha256 ∧ size (getHash (content_address (link_cid l))) = 32.

Lemma fromBytes_toBuffer a : getType a = HashType_sha256 → size (getHash a) = 32 →
  fromBytes (toBuffer a) = success (mkCID Version_V0 DAG_PB a).
Proof.
  intros Ht Hs. unfold fromBytes. rewrite toBuffer_spec. unfold mh_head. rewrite Ht, Hs, <- app_assoc.
  by rewrite (codec_roundtrip _ _ _ _ (codec_encode_v0 a Ht Hs)).
Qed.

Lemma merge_links (n : PBNode) ls : foldl add_field n (F_link <$> ls) = mkPBNode (pb_links n ++ ls) (pb_data n) (pb_destinations n).
Proof.
  revert n. induction ls as [|l ls IH]; intros n; cbn [fmap list_fmap foldl]; [by rewrite app_nil_r; destruct n|].
  rewrite IH. cbn. by rewrite <- app_assoc.
Qed.

Lemma merge_dests (n : PBNode) ds : foldl add_field n (F_dest <$> ds) = mkPBNode (pb_links n) (pb_data n) (pb_destinations n ++ ds).
Proof.
  revert n. induction ds as [|d ds IH]; intros n; cbn [fmap list_fmap foldl]; [by rewrite app_nil_r; destruct n|].
  rewrite IH. cbn. by rewrite <- app_assoc.
Qed.

Lemma node_fields_wf content links ds : links_ok links → Forall wf_field (node_fields toBuffer content links ds).
Proof.
  intros Hok. unfold node_fields, link_fields, data_fields, dest_fields. rewrite !Forall_app. split_and!.
  - apply Forall_fmap, Forall_forall. intros [name l] Hl%map_entries_lookup. by apply (Hok name).
  - case_bool_decide; repeat constructor.
  - by apply Forall_fmap, Forall_forall.
Qed.

Lemma links_ok_v0 links : links_ok links → links_ok (as_v0 <$> links).
Proof. intros Hok name l (x & <- & Hx)%lookup_fmap_Some. exact (Hok name x Hx). Qed.

Lemma merge_node_fields content links ds :
  merge (node_fields toBuffer content links ds) =
    mkPBNode ((λ '(name, l), pb_link toBuffer name l) <$> map_entries links) content (set_entries ds).
Proof.
  unfold merge, node_fields, link_fields, dest_fields, data_fields. rewrite !foldl_app.
  replace ((λ '(name, l), F_link (pb_link toBuffer name l)) <$> map_entries links)
    with (F_link <$> ((λ '(name, l), pb_link toBuffer name l) <$> map_entries links)).
  2: { rewrite <- list_fmap_compose. apply list_fmap_ext. by intros _ [name l] _. }
  rewrite merge_links, merge_dests. case_bool_decide as Hc; cbn; [by subst|done].
Qed.

Lemma emplace_union name l links : emplace name l links = links ∪ {[name := l]}.
Proof.
  unfold emplace. apply map_eq. intros k. rewrite lookup_union. destruct (decide (k = name)) as [->|Hk].
  - rewrite lookup_singleton_eq. destruct (links !! name) eqn:Hl; rewrite ?Hl; [done|]. by rewrite lookup_insert_eq.
  - rewrite lookup_singleton_ne by done. destruct (links !! name); rewrite ?lookup_insert_ne by done; by destruct (links !! k).
Qed.

Lemma add_links_spec (es : list (bytes * IPLDLink M)) n : ipld_block_ n = None →
  (∀ name l, (name, l) ∈ es → link_name l = name ∧
     getType (content_address (link_cid l)) = HashType_sha256 ∧ size (getHash (content_address (link_cid l))) = 32) →
  add_links ((λ '(name, l), pb_link toBuffer name l) <$> es) n =
    success (mkNode (content_ n) (links_ n ∪ list_to_map (prod_map id as_v0 <$> es)) (child_nodes_size_ n) None (destinations_ n)).
Proof.
  revert n. induction es as [|[name l] es IH]; intros n Hn Hes.
  - cbn. rewrite (right_id_L ∅ (∪)). destruct n; cbn in *. by subst.
  - destruct (Hes name l) as (Hname & Ht & Hs); [by apply list_elem_of_here|].
    rewrite !fmap_cons. cbn [add_links pb_link pb_hash pb_name pb_tsize prod_map id].
    rewrite fromBytes_toBuffer by done. rewrite IH.
    2: done.
    2: { intros. apply Hes. by apply list_elem_of_further. }
    f_equal. unfold addLink. cbn [content_ links_ child_nodes_size_ destinations_ link_name]. f_equal.
    rewrite emplace_union. rewrite list_to_map_cons, insert_union_singleton_l, (assoc_L (∪)). unfold as_v0. cbn [fst snd]. by rewrite Hname.
Qed.

Lemma as_v0_entries links : (list_to_map (prod_map id as_v0 <$> map_entries links) : gmap bytes (IPLDLink M)) = as_v0 <$> links.
Proof.
  rewrite <- map_entries_fmap. symmetry. apply list_to_map_flip. symmetry. by rewrite map_entries_perm.
Qed.

Lemma set_entries_list s : (list_to_set (set_entries s) : gset bytes) = s.
Proof. apply set_eq. intros x. by rewrite elem_of_list_to_set, set_entries_perm, elem_of_elements. Qed.

Lemma node_fields_v0 content links ds : node_fields toBuffer content (as_v0 <$> links) ds = node_fields toBuffer content links ds.
Proof.
  unfold node_fields, link_fields. f_equal. rewrite map_entries_fmap, <- list_fmap_compose.
  apply list_fmap_ext. by intros _ [name l] _.
Qed.

Lemma node_read_back n :
  node_wf toBuffer n →
  links_ok (links_ n) → links_sha256 (links_ n) →
  size (wire_fields (node_fields toBuffer (content_ n) (links_ n) (destinations_ n))) < 2 ^ 31 →
  ∃ n', createFromRawBytes (node_serialize toBuffer n) = success n' ∧
    content_ n' = content_ n ∧ destinations_ n' = destinations_ n ∧ links_ n' = as_v0 <$> links_ n ∧
    child_nodes_size_ n' = 0 ∧ node_serialize toBuffer n' = node_serialize toBuffer n ∧
    create_block toBuffer n' = create_block toBuffer n.
Proof.
  intros Hwf Hok Hsha Hb. pose proof (encode_exact _ (content_ n) _ (destinations_ n) Hok Hb) as He.
  unfold node_serialize at 1. rewrite He. unfold createFromRawBytes.
  rewrite parse_fields; [|by apply node_fields_wf|done]. rewrite merge_node_fields. cbn [pb_links pb_data pb_destinations].
  rewrite add_links_spec; [|done|]. 2: { intros name l Hl%map_entries_lookup. split; [by apply (node_names _ _ Hwf)|by apply (Hsha name)]. }
  cbn [mbind outcome_bind]. rewrite add_destinations by done. rewrite as_v0_entries, set_entries_list.
  cbn [content_ links_ child_nodes_size_ destinations_ createFromString assign new_node].
  rewrite (right_id_L ∅ (∪)), (left_id_L ∅ (∪)).
  set (n' := mkNode _ _ _ _ _). assert (node_serialize toBuffer n' = node_serialize toBuffer n) as Hser.
  { unfold node_serialize, n'. cbn [content_ links_ destinations_].
    rewrite He, encode_exact; [|by apply links_ok_v0|by rewrite node_fields_v0]. by rewrite node_fields_v0. }
  exists n'. split_and!; try done. unfold create_block. by rewrite Hser.
Qed.

(** C18: a node survives the wire.  For a node built by its operations, with
    [size_t] link sizes, SHA-256 links and a message within protobuf's 2 GiB, the
    hand-written encoder writes exactly the fields of [ipld_node.proto], every
    buffer it sized beforehand filled to the last byte, and [createFromRawBytes]
    gives back the content, the destinations and the links under their names with
    their sizes.  Only the links' multihashes are on the wire, so each comes back
    as the CIDv0 of its multihash whatever its CID was, and the sizes of the
    children are not counted again; the node read back serializes to the same
    bytes, hence has the same CID. *)
Theorem node_roundtrip n :
  rtc (node_op toBuffer) new_node n →
  links_ok (links_ n) → links_sha256 (links_ n) →
  size (wire_fields (node_fields toBuffer (content_ n) (links_ n) (destinations_ n))) < 2 ^ 31 →
  node_serialize toBuffer n = wire_fields (node_fields toBuffer (content_ n) (links_ n) (destinations_ n)) ∧
  ∃ n', createFromRawBytes (node_serialize toBuffer n) = success n' ∧
    content_ n' = content_ n ∧ destinations_ n' = destinations_ n ∧ links_ n' = as_v0 <$> links_ n ∧
    child_nodes_size_ n' = 0 ∧ node_serialize toBuffer n' = node_serialize toBuffer n ∧
    create_block toBuffer n' = create_block toBuffer n.
Proof.
  intros Hwf%node_ops_wf Hok Hsha Hb. split; [by apply encode_exact|]. by apply node_read_back.
Qed.

End roundtrip.

(** ** A concrete instance: a parser of [ipld_node.proto] *)

Module SampleNode.

Definition get_varint (input : bytes) : option (Z * bytes) :=
  '(v, n) ← Sample.uv_dec input; Some (v, drop (Z.to_nat n) input).

Definition get_raw (input : bytes) : option (bytes * bytes) :=
  '(n, rest) ← get_varint input;
  if size rest <? n then None else Some (take (Z.to_nat n) rest, drop (Z.to_nat n) rest).

Fixpoint parse_link (fuel : nat) (input : bytes) (l : PBLink) : option PBLink :=
  match fuel, input with
  | O, _ => None
  | _, [] => Some l
  | S fuel, t :: rest =>
      if t =? 10 then '(h, rest) ← get_raw rest; parse_link fuel rest (mkPBLink h (pb_name l) (pb_tsize l))
      else if t =? 18 then '(s, rest) ← get_raw rest; parse_link fuel rest (mkPBLink (pb_hash l) s (pb_tsize l))
      else if t =? 24 then '(v, rest) ← get_varint rest; parse_link fuel rest (mkPBLink (pb_hash l) (pb_name l) v)
      else None
  end.

Fixpoint parse (fuel : nat) (input : bytes) (n : PBNode) : option PBNode :=
  match fuel, input with
  | O, _ => None
  | _, [] => Some n
  | S fuel, t :: rest =>
      '(raw, rest) ← get_raw rest;
      if t =? 10 then parse fuel rest (add_field n (F_data raw))
      else if t =? 18 then
        l ← parse_link (S (length raw)) raw (mkPBLink [] [] 0); parse fuel rest (add_field n (F_link l))
      else if t =? 26 then parse fuel rest (add_field n (F_dest raw))
      else None
  end.

#[export] Instance node_protobuf : NodeProtobuf := {
  varint64 := Sample.uv_enc 10;
  VarintSize64 n := size (Sample.uv_enc 10 n);
  parse_node input := parse (S (length input)) input (mkPBNode [] [] [])
}.

Lemma get_varint_enc n rest : 0 ≤ n < 2 ^ 64 → get_varint (varint64 n ++ rest) = Some (n, rest).
Proof.
  intros Hn. unfold get_varint. cbn [varint64 node_protobuf]. rewrite Sample.uv_dec_enc by (cbn; lia). cbn [mbind option_bind].
  unfold size. by rewrite Nat2Z.id, drop_app_length.
Qed.

Lemma get_raw_enc d rest : size d < 2 ^ 64 → get_raw (varint64 (size d) ++ d ++ rest) = Some (d, rest).
Proof.
  intros Hd. pose proof (size_nonneg d). pose proof (size_nonneg rest). unfold get_raw.
  rewrite get_varint_enc by lia. cbn [mbind option_bind]. rewrite size_app.
  destruct (Z.ltb_spec (size d + size rest) (size d)); [lia|].
  unfold size. by rewrite Nat2Z.id, take_app_length, drop_app_length.
Qed.

Lemma parse_link_wire l fuel : 0 ≤ pb_tsize l < 2 ^ 64 → size (wire_link l) < 2 ^ 64 →
  parse_link (4 + fuel) (wire_link l) (mkPBLink [] [] 0) = Some l.
Proof.
  intros Hs Hb. unfold wire_link in *. rewrite !size_app, !size_wire_raw, size_cons in Hb.
  pose proof (size_nonneg (varint64 (size (pb_hash l)))). pose proof (size_nonneg (varint64 (size (pb_name l)))).
  pose proof (size_nonneg (varint64 (pb_tsize l))). pose proof (size_nonneg (pb_hash l)). pose proof (size_nonneg (pb_name l)).
  assert (wire_raw 10 (pb_hash l) ++ wire_raw 18 (pb_name l) ++ 24 :: varint64 (pb_tsize l) =
    10 :: varint64 (size (pb_hash l)) ++ pb_hash l ++ 18 :: varint64 (size (pb_name l)) ++ pb_name l ++
    24 :: varint64 (pb_tsize l) ++ []) as ->.
  { unfold wire_raw. by rewrite app_nil_r, <- !app_comm_cons, <- !app_assoc. }
  cbn [Nat.add parse_link Z.eqb Pos.eqb]. rewrite get_raw_enc by lia. cbn [mbind option_bind pb_hash pb_name pb_tsize Z.eqb Pos.eqb].
  rewrite get_raw_enc by lia. cbn [mbind option_bind pb_hash pb_name pb_tsize Z.eqb Pos.eqb].
  rewrite get_varint_enc by lia. cbn [mbind option_bind]. by destruct fuel, l.
Qed.

Lemma parse_wire fs : Forall wf_field fs → ∀ fuel n, (length (wire_fields fs) < fuel)%nat → size (wire_fields fs) < 2 ^ 31 →
  parse fuel (wire_fields fs) n = Some (foldl add_field n fs).
Proof.
  induction 1 as [|f fs Hf _ IH]; intros fuel n Hl Hb; [by destruct fuel; [cbn in Hl; lia|]|].
  unfold wire_fields in Hl, Hb |- *. rewrite bind_cons in *. fold (wire_fields fs) in *. rewrite size_app in Hb. rewrite length_app in Hl.
  pose proof (size_nonneg (wire_fields fs)). pose proof (size_nonneg (wire f)). destruct fuel as [|fuel]; [lia|].
  assert (∀ tag d, size (wire_raw tag d) + size (wire_fields fs) < 2 ^ 31 →
    parse (S fuel) (wire_raw tag d ++ wire_fields fs) n =
      if tag =? 10 then parse fuel (wire_fields fs) (add_field n (F_data d))
      else if tag =? 18 then
        l ← parse_link (S (length d)) d (mkPBLink [] [] 0); parse fuel (wire_fields fs) (add_field n (F_link l))
      else if tag =? 26 then parse fuel (wire_fields fs) (add_field n (F_dest d))
      else None) as Hp.
  { intros tag d. rewrite size_wire_raw. intros Hd. pose proof (size_nonneg (varint64 (size d))).
    unfold wire_raw. rewrite <- app_comm_cons, <- app_assoc. cbn [parse]. rewrite get_raw_enc by lia. done. }
  assert (length (wire_fields fs) < fuel)%nat as Hfuel.
  { destruct f; cbn [wire] in Hl; unfold wire_raw in Hl; cbn [length] in Hl; lia. }
  destruct f as [l|d|d]; cbn [wire] in *; rewrite Hp by lia; cbn [Z.eqb Pos.eqb foldl].
  2,3: apply IH; [lia|lia].
  rewrite size_wire_raw in Hb. pose proof (size_nonneg (varint64 (size (wire_link l)))). pose proof (size_nonneg (wire_link l)).
  assert (∃ k, S (length (wire_link l)) = 4 + k)%nat as [k ->].
  { assert (3 ≤ size (wire_link l)) as H3.
    { unfold wire_link. rewrite !size_app, !size_wire_raw, size_cons.
      pose proof (size_nonneg (varint64 (size (pb_hash l)))). pose proof (size_nonneg (varint64 (size (pb_name l)))).
      pose proof (size_nonneg (varint64 (pb_tsize l))). pose proof (size_nonneg (pb_hash l)). pose proof (size_nonneg (pb_name l)). lia. }
    exists (length (wire_link l) - 3)%nat. unfold size in H3. lia. }
  rewrite parse_link_wire by (cbn [wf_field] in Hf; lia). by apply IH; lia.
Qed.

#[export] Instance node_laws : NodeProtobufLaws.
Proof.
  constructor.
  - intros n Hn. cbn. by destruct (Z.ltb_spec n 128); [|lia].
  - done.
  - intros fs Hf Hb. cbn [parse_node node_protobuf]. apply parse_wire; [done|lia|done].
Qed.

Definition mh_buffer (a : Sample.Multihash) : bytes := mh_head a ++ getHash a.

Definition link : IPLDLink Sample.Multihash := mkIPLDLink (Sample.cid_v1 5) [97] 10.

(** A node with data, a CIDv1 link and a destination. *)
Definition ops : list (IPLDNodeImpl Sample.Multihash → IPLDNodeImpl Sample.Multihash) :=
  [assign [1; 2; 3]; addLink SampleNode.link; addDestination [98]].
Definition node : IPLDNodeImpl Sample.Multihash := foldl (λ n f, f n) new_node ops.

Lemma node_built : rtc (node_op mh_buffer) new_node node.
Proof.
  unfold node, ops. cbn [foldl]. eapply rtc_l; [apply op_assign|]. eapply rtc_l; [apply op_addLink|].
  eapply rtc_l; [apply op_addDestination|]. apply rtc_refl.
Qed.

Definition child : IPLDNodeImpl Sample.Multihash := assign [7] new_node.

End SampleNode.

#[export] Existing Instances SampleNode.node_protobuf SampleNode.node_laws.

Lemma node_cache_coherent_witness :
  ∃ h n', getCID SampleNode.mh_buffer SampleNode.node = returned (mkCID Version_V0 DAG_PB h, n').
Proof.
  destruct (proj1 (node_cache_coherent SampleNode.mh_buffer SampleNode.node SampleNode.node_built))
    as (h & n' & _ & Hc & _).
  exists h, n'. exact Hc.
Defined.

Lemma node_size_accounts_witness :
  let n' := removeLink [97] (addLink SampleNode.link SampleNode.child) in
  links_ n' = ∅ ∧ child_nodes_size_ n' = 2 ^ 64 - 10.
Proof.
  assert (rtc (sized_op SampleNode.mh_buffer) new_node SampleNode.child) as Hr.
  { eapply rtc_l; [|apply rtc_refl]. apply sized_other; [apply op_assign|reflexivity|reflexivity]. }
  destruct (node_size_accounts SampleNode.mh_buffer SampleNode.child Hr) as (_ & _ & Hd).
  destruct (Hd SampleNode.link eq_refl) as [Hl Hs].
  split; [exact Hl|exact Hs].
Defined.

Lemma node_roundtrip_witness :
  ∃ n', createFromRawBytes (node_serialize SampleNode.mh_buffer SampleNode.node) = success n' ∧
    content_ n' = [1; 2; 3] ∧ destinations_ n' = {[ [98] ]} ∧
    (link_cid <$> links_ n' !! [97]) = Some (mkCID Version_V0 DAG_PB (content_address (Sample.cid_v1 5))).
Proof.
  destruct (node_roundtrip SampleNode.mh_buffer (λ _, eq_refl) SampleNode.node SampleNode.node_built)
    as (_ & n' & Hn & Hc & Hd & Hl & _).
  - intros name l. change (links_ SampleNode.node) with ({[ [97] := SampleNode.link ]} : gmap bytes _).
    by intros [_ <-]%lookup_singleton_Some.
  - intros name l. change (links_ SampleNode.node) with ({[ [97] := SampleNode.link ]} : gmap bytes _).
    by intros [_ <-]%lookup_singleton_Some.
  - by vm_compute.
  - exists n'. split; [exact Hn|]. split; [exact Hc|]. split; [rewrite Hd; vm_compute; reflexivity|]. rewrite Hl. reflexivity.
Defined.
