(* ===== verification/Datastore.v ===== *)
(** Block storage: [src/ipfs_lite/rocksdb] (the wrapper, without its cursors) and
    [src/ipfs_lite/ipfs] (the in-memory and RocksDB datastores and the block
    service).

    RocksDB itself is a parameter, the class [RocksDB]; [RocksDBLaws] has its
    documented behaviour on a healthy disk.  A [Buffer] or a [std::string] is its
    bytes; the order of [std::map< CID, Value >] is libp2p's and takes two CIDs for
    one exactly when their fields are equal. *)
From stdpp Require Import base numbers countable list gmap.
From S2P Require Import Prelude Cid.

Open Scope Z_scope.

(** ** The RocksDB wrapper *)

Class RocksDB (DB : Type) := {
  Status : Type;
  ok : Status → bool;
  IsNotFound : Status → bool;
  IsIOError : Status → bool;
  IsInvalidArgument : Status → bool;
  IsCorruption : Status → bool;
  IsNotSupported : Status → bool;
  db_Get : bytes → DB → Status * bytes;
  db_Put : bytes → bytes → DB → Status * DB;
  db_Delete : bytes → DB → Status * DB;
  WriteBatch : Type;
  empty_batch : WriteBatch;
  batch_Put : bytes → bytes → WriteBatch → WriteBatch;
  batch_Delete : bytes → WriteBatch → WriteBatch;
  db_Write : WriteBatch → DB → Status * DB
}.

Inductive rocksdbError :=
| ROCKSDB_OK
| ROCKSDB_NOT_FOUND
| CORRUPTION
| NOT_SUPPORTED
| INVALID_ARGUMENT
| IO_ERROR
| ROCKSDB_UNKNOWN.

#[export] Instance rocksdbError_eq_dec : EqDecision rocksdbError.
Proof. solve_decision. Defined.

Section rocksdb.
Context {DB : Type} `{!RocksDB DB}.

(** [error_as_result]. *)
Definition error_as_result (s : Status) : rocksdbError :=
  if IsNotFound s then ROCKSDB_NOT_FOUND
  else if IsIOError s then IO_ERROR
  else if IsInvalidArgument s then INVALID_ARGUMENT
  else if IsCorruption s then CORRUPTION
  else if IsNotSupported s then NOT_SUPPORTED
  else ROCKSDB_UNKNOWN.

Definition of_status (s : Status) : outcome rocksdbError () :=
  if ok s then success tt else failure (error_as_result s).

Definition rocksdb_get (key : bytes) (db : DB) : outcome rocksdbError bytes :=
  let '(status, value) := db_Get key db in
  if ok status then success value else failure (error_as_result status).

(** Every error counts as "not found". *)
Definition rocksdb_contains (key : bytes) (db : DB) : bool :=
  match rocksdb_get key db with success _ => true | failure _ => false end.

Definition rocksdb_put (key value : bytes) (db : DB) : outcome rocksdbError () * DB :=
  let '(status, db) := db_Put key value db in (of_status status, db).

Definition rocksdb_remove (key : bytes) (db : DB) : outcome rocksdbError () * DB :=
  let '(status, db) := db_Delete key db in (of_status status, db).

(** [rocksdb::Batch]: the operations are kept until [commit], which leaves them in
    the batch. *)
Definition Batch_put (key value : bytes) (b : WriteBatch) : outcome rocksdbError () * WriteBatch :=
  (success tt, batch_Put key value b).
Definition Batch_remove (key : bytes) (b : WriteBatch) : outcome rocksdbError () * WriteBatch :=
  (success tt, batch_Delete key b).
Definition Batch_commit (b : WriteBatch) (db : DB) : outcome rocksdbError () * DB :=
  let '(status, db) := db_Write b db in (of_status status, db).
Definition Batch_clear (b : WriteBatch) : WriteBatch := empty_batch.

End rocksdb.

(** ** The interface [IpfsDatastore] *)

Inductive DatastoreError :=
| NOT_FOUND
| store_cid (e : CidError)
| store_rocksdb (e : rocksdbError)
| store_codec (e : Z).

#[export] Instance DatastoreError_eq_dec : EqDecision DatastoreError.
Proof. solve_decision. Defined.

Class IpfsDatastore (M D : Type) := {
  ds_contains : CID M → D → outcome DatastoreError bool;
  ds_set : CID M → bytes → D → outcome DatastoreError () * D;
  ds_seal : CID M → D → outcome DatastoreError () * D;
  ds_is_sealed : CID M → D → outcome DatastoreError bool;
  ds_get : CID M → D → attempt DatastoreError bytes;
  ds_remove : CID M → D → outcome DatastoreError () * D
}.

(** ** [InMemoryDatastore] *)

Section in_memory.
Context {M : Type} `{!EqDecision M, !Countable M}.

Record InMemoryDatastore := mkInMemory {
  storage_ : gmap (CID M) bytes;
  seals_ : gmap (CID M) bytes
}.

Definition mem_contains (key : CID M) (d : InMemoryDatastore) : outcome DatastoreError bool :=
  success (bool_decide (is_Some (storage_ d !! key))).

Definition mem_set (key : CID M) (value : bytes) (d : InMemoryDatastore) : outcome DatastoreError () * InMemoryDatastore :=
  (success tt, mkInMemory (<[key := value]> (storage_ d)) (seals_ d)).

Definition mem_seal (key : CID M) (d : InMemoryDatastore) : outcome DatastoreError () * InMemoryDatastore :=
  (success tt, mkInMemory (storage_ d) (<[key := []]> (seals_ d))).

Definition mem_is_sealed (key : CID M) (d : InMemoryDatastore) : outcome DatastoreError bool :=
  success (bool_decide (is_Some (seals_ d !! key))).

(** [storage_.at( key )] throws when the key is missing. *)
Definition mem_get (key : CID M) (d : InMemoryDatastore) : attempt DatastoreError bytes :=
  found ← attempt_of (mem_contains key d);
  if negb found then failed NOT_FOUND
  else match storage_ d !! key with Some v => returned v | None => thrown end.

Definition mem_remove (key : CID M) (d : InMemoryDatastore) : outcome DatastoreError () * InMemoryDatastore :=
  (success tt, mkInMemory (delete key (storage_ d)) (seals_ d)).

#[export] Instance in_memory_datastore : IpfsDatastore M InMemoryDatastore := {
  ds_contains := mem_contains;
  ds_set := mem_set;
  ds_seal := mem_seal;
  ds_is_sealed := mem_is_sealed;
  ds_get := mem_get;
  ds_remove := mem_remove
}.

End in_memory.
Arguments InMemoryDatastore M {_ _}.

(** ** [RocksdbDatastore] *)

Section rocksdb_datastore.
Context {M DB : Type} `{!Multiformats M, !RocksDB DB}.
(** [CID::toString], on the bytes of the string. *)
Context (toString : CID M → outcome CidError bytes).

Definition encode (value : CID M) : outcome DatastoreError bytes :=
  match toBytes value with success b => success b | failure e => failure (store_cid e) end.

Definition of_rocksdb {A} (o : outcome rocksdbError A) : outcome DatastoreError A :=
  match o with success x => success x | failure e => failure (store_rocksdb e) end.

Definition rdb_contains (key : CID M) (db : DB) : outcome DatastoreError bool :=
  encoded_key ← encode key; success (rocksdb_contains encoded_key db).

Definition rdb_set (key : CID M) (value : bytes) (db : DB) : outcome DatastoreError () * DB :=
  match encode key with
  | failure e => (failure e, db)
  | success encoded_key => let '(r, db) := rocksdb_put encoded_key value db in (of_rocksdb r, db)
  end.

(** The bytes of "sealed". *)
Definition sealed_suffix : bytes := [0x73; 0x65; 0x61; 0x6c; 0x65; 0x64].

Definition seal_key (key : CID M) : outcome DatastoreError bytes :=
  match toString key with success s => success (s ++ sealed_suffix) | failure e => failure (store_cid e) end.

Definition rdb_seal (key : CID M) (db : DB) : outcome DatastoreError () * DB :=
  match seal_key key with
  | failure e => (failure e, db)
  | success key_buf => let '(r, db) := rocksdb_put key_buf [] db in (of_rocksdb r, db)
  end.

Definition rdb_is_sealed (key : CID M) (db : DB) : outcome DatastoreError bool :=
  key_buf ← seal_key key; success (rocksdb_contains key_buf db).

Definition rdb_get (key : CID M) (db : DB) : attempt DatastoreError bytes :=
  encoded_key ← attempt_of (encode key);
  match rocksdb_get encoded_key db with
  | failure ROCKSDB_NOT_FOUND => failed NOT_FOUND
  | res => attempt_of (of_rocksdb res)
  end.

Definition rdb_remove (key : CID M) (db : DB) : outcome DatastoreError () * DB :=
  match encode key with
  | failure e => (failure e, db)
  | success encoded_key => let '(r, db) := rocksdb_remove encoded_key db in (of_rocksdb r, db)
  end.

Definition rocksdb_datastore : IpfsDatastore M DB := {|
  ds_contains := rdb_contains;
  ds_set := rdb_set;
  ds_seal := rdb_seal;
  ds_is_sealed := rdb_is_sealed;
  ds_get := rdb_get;
  ds_remove := rdb_remove
|}.

End rocksdb_datastore.

(** ** [IpfsBlockService] *)

Section block_service.
Context {M D : Type} `{!IpfsDatastore M D}.

Record IpfsBlockService := mkBlockService { local_storage_ : D }.

Definition local {A} (r : A * D) : A * IpfsBlockService := let '(x, d) := r in (x, mkBlockService d).

Definition bs_set (key : CID M) (value : bytes) (s : IpfsBlockService) : outcome DatastoreError () * IpfsBlockService :=
  let '(result, s) := local (ds_set key value (local_storage_ s)) in
  match result with failure e => (failure e, s) | success _ => (success tt, s) end.

Definition bs_get (key : CID M) (s : IpfsBlockService) : attempt DatastoreError bytes :=
  data ← ds_get key (local_storage_ s); returned data.

Definition block_service : IpfsDatastore M IpfsBlockService := {|
  ds_contains key s := ds_contains key (local_storage_ s);
  ds_set := bs_set;
  ds_seal key s := local (ds_seal key (local_storage_ s));
  ds_is_sealed key s := ds_is_sealed key (local_storage_ s);
  ds_get := bs_get;
  ds_remove key s := local (ds_remove key (local_storage_ s))
|}.

End block_service.
Arguments IpfsBlockService D : clear implicits.

(** ** What the datastores promise *)

(** Reading what was written, for the CIDs the store can hold. *)
Class DatastoreLaws (M D : Type) `{!Multiformats M, !IpfsDatastore M D} := {
  get_returns (c : CID M) (d : D) : ds_get c d ≠ thrown;
  set_succeeds (c : CID M) v (d : D) : wf_cid c → (ds_set c v d).1 = success tt;
  get_set (c : CID M) v (d : D) : wf_cid c → ds_get c (ds_set c v d).2 = returned v;
  get_set_ne (c c' : CID M) v (d : D) : wf_cid c → wf_cid c' → c ≠ c' → ds_get c' (ds_set c v d).2 = ds_get c' d
}.

#[export] Instance in_memory_laws {M} `{!EqDecision M, !Countable M, !Multiformats M} : DatastoreLaws M (InMemoryDatastore M).
Proof.
  assert (∀ c (d : InMemoryDatastore M),
    ds_get c d = match storage_ d !! c with Some v => returned v | None => failed NOT_FOUND end) as Hget.
  { intros c d. cbn. unfold mem_get, mem_contains. cbn [attempt_of mbind attempt_bind].
    destruct (storage_ d !! c) eqn:Hc; rewrite ?Hc; [by rewrite bool_decide_true|].
    rewrite bool_decide_false; [done|by intros []]. }
  constructor.
  - intros c d. rewrite Hget. by destruct (_ !! _).
  - done.
  - intros c v d _. rewrite Hget. cbn. by rewrite lookup_insert_eq.
  - intros c c' v d _ _ Hne. rewrite !Hget. cbn. by rewrite lookup_insert_ne.
Qed.

#[export] Instance block_service_laws {M D} `{!Multiformats M, !IpfsDatastore M D, !DatastoreLaws M D} :
  DatastoreLaws M (IpfsBlockService D) (IpfsDatastore0:=block_service).
Proof.
  assert (∀ c (s : IpfsBlockService D), ds_get (IpfsDatastore:=block_service) c s = ds_get c (local_storage_ s)) as Hget.
  { intros c s. cbn. unfold bs_get. by destruct (ds_get c _). }
  assert (∀ c v (s : IpfsBlockService D), ds_set (IpfsDatastore:=block_service) c v s =
    local (ds_set c v (local_storage_ s))) as Hset.
  { intros c v s. cbn. unfold bs_set, local. by destruct (ds_set c v _) as [[[]|] d]. }
  constructor.
  - intros c s. rewrite Hget. apply get_returns.
  - intros c v s Hc. rewrite Hset. pose proof (set_succeeds c v (local_storage_ s) Hc) as He. unfold local. by destruct (ds_set c v _).
  - intros c v s Hc. rewrite Hget, Hset. pose proof (get_set c v (local_storage_ s) Hc) as He. unfold local. by destruct (ds_set c v _).
  - intros c c' v s Hc Hc' Hne. rewrite !Hget, Hset. pose proof (get_set_ne c c' v (local_storage_ s) Hc Hc' Hne) as He.
    unfold local. by destruct (ds_set c v _).
Qed.

(** ** What a client sees *)

(** The calls of a client and their replies. *)
Inductive ds_call (M : Type) :=
| Contains (key : CID M)
| Set_value (key : CID M) (value : bytes)
| Seal (key : CID M)
| Is_sealed (key : CID M)
| Get_value (key : CID M)
| Remove (key : CID M).
Arguments Contains {M} _.
Arguments Set_value {M} _ _.
Arguments Seal {M} _.
Arguments Is_sealed {M} _.
Arguments Get_value {M} _.
Arguments Remove {M} _.

Inductive ds_reply :=
| R_bool (r : outcome DatastoreError bool)
| R_done (r : outcome DatastoreError ())
| R_value (r : attempt DatastoreError bytes).

#[export] Instance ds_reply_eq_dec : EqDecision ds_reply.
Proof. solve_decision. Defined.

Definition call_key {M} (c : ds_call M) : CID M :=
  match c with
  | Contains key | Set_value key _ | Seal key | Is_sealed key | Get_value key | Remove key => key
  end.

Definition done {D} (r : outcome DatastoreError () * D) : ds_reply * D := (R_done r.1, r.2).

Definition serve {M D} `{!IpfsDatastore M D} (c : ds_call M) (d : D) : ds_reply * D :=
  match c with
  | Contains key => (R_bool (ds_contains key d), d)
  | Set_value key value => done (ds_set key value d)
  | Seal key => done (ds_seal key d)
  | Is_sealed key => (R_bool (ds_is_sealed key d), d)
  | Get_value key => (R_value (ds_get key d), d)
  | Remove key => done (ds_remove key d)
  end.

Fixpoint serve_all {M D} `{!IpfsDatastore M D} (cs : list (ds_call M)) (d : D) : list ds_reply * D :=
  match cs with
  | [] => ([], d)
  | c :: cs => let '(r, d) := serve c d in let '(rs, d) := serve_all cs d in (r :: rs, d)
  end.

(** Two stores that give the same reply to a call and stay related give the same
    replies to every sequence of calls. *)
Lemma serve_all_sim {M D D'} (I : IpfsDatastore M D) (I' : IpfsDatastore M D') (P : ds_call M → Prop) (R : D → D' → Prop) :
  (∀ c d d', P c → R d d' → (serve c d).1 = (serve c d').1 ∧ R (serve c d).2 (serve c d').2) →
  ∀ cs d d', Forall P cs → R d d' →
    (serve_all cs d).1 = (serve_all cs d').1 ∧ R (serve_all cs d).2 (serve_all cs d').2.
Proof.
  intros Hstep cs. induction cs as [|c cs IH]; intros d d' HP HR; [done|].
  apply Forall_cons in HP as [Hc HP]. destruct (Hstep c d d' Hc HR) as [He HR']. cbn [serve_all].
  destruct (serve c d) as [r e]. destruct (serve c d') as [r' e']. cbn [fst snd] in *.
  destruct (IH e e' HP HR') as [Hes HRs]. destruct (serve_all cs e), (serve_all cs e'). cbn [fst snd] in *.
  by subst.
Qed.

(** RocksDB on a healthy disk is a map. *)
Class RocksDBLaws (DB : Type) `{!RocksDB DB} := {
  contents : DB → gmap bytes bytes;
  Get_some k v db : contents db !! k = Some v → ∃ s, db_Get k db = (s, v) ∧ ok s = true;
  Get_none k db : contents db !! k = None →
    ∃ s v, db_Get k db = (s, v) ∧ ok s = false ∧ IsNotFound s = true;
  Put_ok k v db : ∃ s db', db_Put k v db = (s, db') ∧ ok s = true ∧ contents db' = <[k := v]> (contents db);
  Delete_ok k db : ∃ s db', db_Delete k db = (s, db') ∧ ok s = true ∧ contents db' = delete k (contents db)
}.

(** The block service adds nothing. *)
Lemma block_service_serve_all {M D} `{!IpfsDatastore M D} cs (d : D) :
  (serve_all cs d).1 = (serve_all (IpfsDatastore0:=block_service (M:=M)) cs (mkBlockService d)).1.
Proof.
  eapply (serve_all_sim _ _ (λ _, True) (λ d s, s = mkBlockService d)); [|by apply Forall_true|done].
  intros c e s _ ->. unfold serve, done. destruct c as [c|c v|c|c|c|c]; cbn; unfold bs_set, bs_get, local; cbn; try done.
  - by destruct (ds_set c v e) as [[[]|] ?].
  - by destruct (ds_seal c e).
  - by destruct (ds_get c e).
  - by destruct (ds_remove c e).
Qed.

Section refinement.
Context {M DB : Type} `{!EqDecision M, !Countable M, !Multiformats M, !MultiformatsLaws M, !RocksDB DB, !RocksDBLaws DB}.
Context (toString : CID M → outcome CidError bytes).
(** The string of a CID is text in a base encoding, and reads back. *)
Hypothesis toString_text : ∀ c, wf_cid c → ∃ b s, toString c = success (b :: s) ∧ 0x20 < b.
Hypothesis toString_inj : ∀ c c' s, wf_cid c → wf_cid c' → toString c = success s → toString c' = success s → c = c'.

Lemma rocksdb_get_spec k (db : DB) :
  rocksdb_get k db = match contents db !! k with Some v => success v | None => failure ROCKSDB_NOT_FOUND end.
Proof.
  unfold rocksdb_get. destruct (contents db !! k) as [v|] eqn:Hk.
  - destruct (Get_some _ _ _ Hk) as (s & -> & ->). done.
  - destruct (Get_none _ _ Hk) as (s & v & -> & -> & Hn). unfold error_as_result. by rewrite Hn.
Qed.

Lemma rocksdb_contains_spec k (db : DB) : rocksdb_contains k db = bool_decide (is_Some (contents db !! k)).
Proof.
  unfold rocksdb_contains. rewrite rocksdb_get_spec. symmetry. destruct (contents db !! k) eqn:Hk; rewrite ?Hk.
  - by apply bool_decide_true.
  - apply bool_decide_false. by intros [? ?].
Qed.

Lemma rocksdb_put_spec k v (db : DB) : ∃ db', rocksdb_put k v db = (success tt, db') ∧ contents db' = <[k := v]> (contents db).
Proof.
  unfold rocksdb_put. destruct (Put_ok k v db) as (s & db' & -> & Hs & Hc). exists db'. unfold of_status. by rewrite Hs.
Qed.

Lemma rocksdb_remove_spec k (db : DB) : ∃ db', rocksdb_remove k db = (success tt, db') ∧ contents db' = delete k (contents db).
Proof.
  unfold rocksdb_remove. destruct (Delete_ok k db) as (s & db' & -> & Hs & Hc). exists db'. unfold of_status. by rewrite Hs.
Qed.

(** The two kinds of keys. *)
Lemma toBytes_inj (c c' : CID M) b : toBytes c = success b → toBytes c' = success b → c = c'.
Proof.
  unfold toBytes. destruct (codec_encode (version c) _ _) as [x|] eqn:H1; [|done].
  destruct (codec_encode (version c') _ _) as [x'|] eqn:H2; [|done].
  intros [= ->] [= ->]. apply codec_roundtrip in H1, H2. rewrite H1 in H2. destruct c, c'. cbn in *. by simplify_eq.
Qed.

Lemma encode_wf (c : CID M) : wf_cid c → ∃ b, encode c = success b ∧ toBytes c = success b ∧
  ∃ x b', b = x :: b' ∧ x ≤ 0x20.
Proof.
  intros Hwf. unfold encode. rewrite (toBytes_wf c Hwf). eexists. split; [done|]. split; [done|].
  unfold cid_prefix. destruct Hwf as [t a Ht Hc Ha Hh|a Ha Hs]; cbn [version content_type content_address].
  - change (Version_V1 =? Version_V0) with false. cbv iota. rewrite (uv_encode_small 1) by lia. by do 2 eexists.
  - change (Version_V0 =? Version_V0) with true. cbv iota. rewrite Ha. unfold HashType_sha256.
    rewrite (uv_encode_small 0x12) by lia. by do 2 eexists.
Qed.

Lemma seal_key_wf (c : CID M) : wf_cid c → ∃ s, seal_key toString c = success (s ++ sealed_suffix) ∧ toString c = success s.
Proof.
  intros Hwf. destruct (toString_text c Hwf) as (x & s & Hs & _). exists (x :: s). unfold seal_key. by rewrite Hs.
Qed.

Lemma keys_disjoint (c c' : CID M) b s : wf_cid c → wf_cid c' → encode c = success b → toString c' = success s → b ≠ s ++ sealed_suffix.
Proof.
  intros Hc Hc' Hb Hs. destruct (encode_wf c Hc) as (b' & Hb' & _ & x & r & -> & Hx). rewrite Hb in Hb'. injection Hb' as ->.
  destruct (toString_text c' Hc') as (y & s' & Hs' & Hy). rewrite Hs in Hs'. injection Hs' as ->.
  intros [= -> _]. lia.
Qed.

(** The database holds the values under [toBytes] and the seals under the string
    and "sealed". *)
Record represents (mem : InMemoryDatastore M) (db : DB) : Prop := {
  rep_storage c b : wf_cid c → encode c = success b → contents db !! b = storage_ mem !! c;
  rep_seals c s : wf_cid c → toString c = success s → contents db !! (s ++ sealed_suffix) = seals_ mem !! c
}.

Lemma represents_set mem db c v : wf_cid c → represents mem db →
  (mem_set c v mem).1 = (rdb_set c v db).1 ∧ represents (mem_set c v mem).2 (rdb_set c v db).2.
Proof.
  intros Hwf [Hst Hse]. destruct (encode_wf c Hwf) as (b & Hb & Hb0 & _). unfold rdb_set. rewrite Hb.
  destruct (rocksdb_put_spec b v db) as (db' & -> & Hc). cbn [fst snd mem_set of_rocksdb]. split; [done|].
  split; cbn [storage_ seals_]; rewrite Hc.
  - intros c' b' Hwf' Hb'. destruct (decide (c = c')) as [<-|Hne].
    { assert (b' = b) as -> by congruence. by rewrite !lookup_insert_eq. }
    rewrite !lookup_insert_ne; [by apply Hst|done|]. intros <-. destruct (encode_wf c' Hwf') as (b2 & Hb2 & Hb2' & _).
    assert (b2 = b) as -> by congruence. by apply Hne, (toBytes_inj _ _ b).
  - intros c' s Hwf' Hs. rewrite lookup_insert_ne by (by apply (keys_disjoint c c')). by apply Hse.
Qed.

Lemma represents_seal mem db c : wf_cid c → represents mem db →
  (mem_seal c mem).1 = (rdb_seal toString c db).1 ∧ represents (mem_seal c mem).2 (rdb_seal toString c db).2.
Proof.
  intros Hwf [Hst Hse]. destruct (seal_key_wf c Hwf) as (s & Hk & Hs). unfold rdb_seal. rewrite Hk.
  destruct (rocksdb_put_spec (s ++ sealed_suffix) [] db) as (db' & -> & Hc). cbn [fst snd mem_seal of_rocksdb]. split; [done|].
  split; cbn [storage_ seals_]; rewrite Hc.
  - intros c' b' Hwf' Hb'. rewrite lookup_insert_ne by (by apply not_eq_sym, (keys_disjoint c' c)). by apply Hst.
  - intros c' s' Hwf' Hs'. destruct (decide (c = c')) as [<-|Hne].
    { assert (s' = s) as -> by congruence. by rewrite !lookup_insert_eq. }
    rewrite !lookup_insert_ne; [by apply Hse|done|]. intros [-> _]%app_inj_2; [|done]. by apply Hne, (toString_inj c c' s').
Qed.

Lemma represents_remove mem db c : wf_cid c → represents mem db →
  (mem_remove c mem).1 = (rdb_remove c db).1 ∧ represents (mem_remove c mem).2 (rdb_remove c db).2.
Proof.
  intros Hwf [Hst Hse]. destruct (encode_wf c Hwf) as (b & Hb & Hb0 & _). unfold rdb_remove. rewrite Hb.
  destruct (rocksdb_remove_spec b db) as (db' & -> & Hc). cbn [fst snd mem_remove of_rocksdb]. split; [done|].
  split; cbn [storage_ seals_]; rewrite Hc.
  - intros c' b' Hwf' Hb'. destruct (decide (c = c')) as [<-|Hne].
    { assert (b' = b) as -> by congruence. by rewrite !lookup_delete_eq. }
    rewrite !lookup_delete_ne; [by apply Hst|done|]. intros <-. destruct (encode_wf c' Hwf') as (b2 & Hb2 & Hb2' & _).
    assert (b2 = b) as -> by congruence. by apply Hne, (toBytes_inj _ _ b).
  - intros c' s Hwf' Hs. rewrite lookup_delete_ne by (by apply (keys_disjoint c c')). by apply Hse.
Qed.

Lemma represents_queries mem db c : wf_cid c → represents mem db →
  mem_contains c mem = rdb_contains c db ∧ mem_is_sealed c mem = rdb_is_sealed toString c db ∧ mem_get c mem = rdb_get c db.
Proof.
  intros Hwf [Hst Hse]. destruct (encode_wf c Hwf) as (b & Hb & _). destruct (seal_key_wf c Hwf) as (s & Hk & Hs).
  unfold rdb_contains, rdb_is_sealed, rdb_get, mem_contains, mem_is_sealed, mem_get. rewrite Hb, Hk.
  cbn [mbind outcome_bind attempt_of attempt_bind]. rewrite !rocksdb_contains_spec, rocksdb_get_spec.
  rewrite (Hst c b Hwf Hb), (Hse c s Hwf Hs). split_and!; [done|done|]. unfold mem_contains. cbn [attempt_of mbind attempt_bind].
  destruct (storage_ mem !! c) eqn:Hc; rewrite ?Hc; [by rewrite bool_decide_true|rewrite bool_decide_false; [done|by intros []]].
Qed.

Lemma represents_serve c (mem : InMemoryDatastore M) (db : DB) : wf_cid (call_key c) → represents mem db →
  (serve c mem).1 = (serve (IpfsDatastore0:=rocksdb_datastore toString) c db).1 ∧
  represents (serve c mem).2 (serve (IpfsDatastore0:=rocksdb_datastore toString) c db).2.
Proof.
  intros Hwf Hr. destruct (represents_queries mem db _ Hwf Hr) as (Hc & Hs & Hg).
  destruct c as [c|c v|c|c|c|c]; cbn [call_key] in *.
  - split; [|done]. cbn. by rewrite <- Hc.
  - destruct (represents_set mem db c v Hwf Hr) as [He ?]. split; [|done]. cbn [serve done fst]. f_equal. exact He.
  - destruct (represents_seal mem db c Hwf Hr) as [He ?]. split; [|done]. cbn [serve done fst]. f_equal. exact He.
  - split; [|done]. cbn. by rewrite <- Hs.
  - split; [|done]. cbn [serve done fst]. f_equal. exact Hg.
  - destruct (represents_remove mem db c Hwf Hr) as [He ?]. split; [|done]. cbn [serve done fst]. f_equal. exact He.
Qed.

(** C22: the RocksDB store refines the in-memory store.  On a healthy disk, a client that
    starts from an empty store and calls [set], [get], [contains], [remove], [seal]
    and [is_sealed] in any order with well-formed CIDs gets the same replies from
    both, directly or through the block service: values and seals share the key space of the
    database without ever meeting, since the bytes of a CID start below the
    printable characters and its string does not. *)
Theorem rocksdb_refines_memory (cs : list (ds_call M)) (db : DB) :
  contents db = ∅ → Forall (wf_cid ∘ call_key) cs →
  let replies := (serve_all cs (mkInMemory ∅ ∅)).1 in
  let rdb := rocksdb_datastore toString in
  (serve_all (IpfsDatastore0:=rdb) cs db).1 = replies ∧
  (serve_all (IpfsDatastore0:=block_service) cs (mkBlockService (mkInMemory ∅ ∅))).1 = replies ∧
  (serve_all (IpfsDatastore0:=block_service (IpfsDatastore0:=rdb)) cs (mkBlockService db)).1 = replies.
Proof.
  intros Hdb Hcs. cbv zeta. rewrite <- !block_service_serve_all. split; [|split; [done|]].
  all: symmetry; apply (serve_all_sim _ _ (wf_cid ∘ call_key) represents); [intros; by apply represents_serve|done|].
  all: split; intros; by rewrite Hdb, !lookup_empty.
Qed.

Lemma rocksdb_datastore_laws : DatastoreLaws M DB (IpfsDatastore0:=rocksdb_datastore toString).
Proof.
  assert (∀ c b (db : DB), encode c = success b →
    rdb_get c db = match contents db !! b with Some v => returned v | None => failed NOT_FOUND end) as Hget.
  { intros c b db Hb. unfold rdb_get. rewrite Hb. cbn [attempt_of mbind attempt_bind]. rewrite rocksdb_get_spec.
    by destruct (_ !! _). }
  constructor; cbn.
  - intros c db. destruct (encode c) as [b|e] eqn:Hb; [rewrite (Hget _ _ _ Hb); by destruct (_ !! _)|].
    unfold rdb_get. by rewrite Hb.
  - intros c v db Hc. destruct (encode_wf c Hc) as (b & Hb & _). unfold rdb_set. rewrite Hb.
    by destruct (rocksdb_put_spec b v db) as (db' & -> & _).
  - intros c v db Hc. destruct (encode_wf c Hc) as (b & Hb & _). unfold rdb_set. rewrite Hb.
    destruct (rocksdb_put_spec b v db) as (db' & -> & Hdb). rewrite (Hget _ _ _ Hb). cbn [snd]. by rewrite Hdb, lookup_insert_eq.
  - intros c c' v db Hc Hc' Hne. destruct (encode_wf c Hc) as (b & Hb & Hb0 & _). destruct (encode_wf c' Hc') as (b' & Hb' & Hb1 & _).
    unfold rdb_set. rewrite Hb. destruct (rocksdb_put_spec b v db) as (db' & -> & Hdb). rewrite !(Hget _ _ _ Hb'). cbn [snd].
    rewrite Hdb, lookup_insert_ne; [done|]. intros <-. by apply Hne, (toBytes_inj _ _ b).
Qed.

End refinement.

(** ** A concrete instance *)

Module SampleStore.

Notation DB := (gmap bytes bytes).

#[export] Instance rocksdb : RocksDB DB := {
  Status := option rocksdbError;
  ok s := bool_decide (s = None);
  IsNotFound s := bool_decide (s = Some ROCKSDB_NOT_FOUND);
  IsIOError s := bool_decide (s = Some IO_ERROR);
  IsInvalidArgument s := bool_decide (s = Some INVALID_ARGUMENT);
  IsCorruption s := bool_decide (s = Some CORRUPTION);
  IsNotSupported s := bool_decide (s = Some NOT_SUPPORTED);
  db_Get k db := match db !! k with Some v => (None, v) | None => (Some ROCKSDB_NOT_FOUND, []) end;
  db_Put k v db := (None, <[k := v]> db);
  db_Delete k db := (None, delete k db);
  WriteBatch := list (bytes * option bytes);
  empty_batch := [];
  batch_Put k v b := b ++ [(k, Some v)];
  batch_Delete k b := b ++ [(k, None)];
  db_Write b db := (None, foldl (λ db '(k, o), match o with Some v => <[k := v]> db | None => delete k db end) db b)
}.

#[export] Instance laws : RocksDBLaws DB.
Proof.
  refine {| contents := λ db : DB, db |}.
  - intros k v db Hk. exists None. cbn in Hk |- *. by rewrite Hk.
  - intros k db Hk. exists (Some ROCKSDB_NOT_FOUND), []. cbn in Hk |- *. by rewrite Hk.
  - intros k v db. by do 2 eexists.
  - intros k db. by do 2 eexists.
Defined.

(** The base encoding that maps every byte to itself, after its prefix. *)
Definition toString (c : CID Sample.Multihash) : outcome CidError bytes :=
  match toBytes c with success b => success (0x62 :: b) | failure e => failure e end.

Lemma toString_text c : wf_cid c → ∃ b s, toString c = success (b :: s) ∧ 0x20 < b.
Proof. intros Hwf. unfold toString. rewrite (toBytes_wf c Hwf). by do 2 eexists. Qed.

Lemma toString_inj c c' s : wf_cid c → wf_cid c' → toString c = success s → toString c' = success s → c = c'.
Proof.
  intros _ _. unfold toString. destruct (toBytes c) as [b|] eqn:Hb; [|done]. destruct (toBytes c') as [b'|] eqn:Hb'; [|done].
  intros [= <-] [= ->]. by apply (toBytes_inj c c' b).
Qed.

Definition calls : list (ds_call Sample.Multihash) :=
  [Set_value (Sample.cid_v1 5) [1]; Seal (Sample.cid_v1 5); Remove (Sample.cid_v1 5);
   Contains (Sample.cid_v1 5); Is_sealed (Sample.cid_v1 5); Get_value (Sample.cid_v1 6)].

End SampleStore.

#[export] Existing Instances SampleStore.rocksdb SampleStore.laws.

Lemma rocksdb_refines_memory_witness :
  (serve_all (IpfsDatastore0:=rocksdb_datastore SampleStore.toString) SampleStore.calls (∅ : SampleStore.DB)).1 =
    [R_done (success tt); R_done (success tt); R_done (success tt);
     R_bool (success false); R_bool (success true); R_value (failed NOT_FOUND)].
Proof.
  destruct (rocksdb_refines_memory SampleStore.toString SampleStore.toString_text SampleStore.toString_inj
    SampleStore.calls (∅ : SampleStore.DB)) as [Hr _].
  - reflexivity.
  - repeat (apply Forall_cons_2; [apply Sample.cid_v1_wf|]). apply Forall_nil_2.
  - rewrite Hr. vm_compute. reflexivity.
Defined.
