(* ===== verification/Cursor.v ===== *)
(** Iteration over a store and batches of writes: the interfaces of
    [src/ipfs_lite/face] and the object, the cursor, the batches and the factories
    of [src/ipfs_lite/rocksdb].

    RocksDB's iterators are a parameter, the class [RocksIterators]; on a healthy
    disk ([RocksIteratorsLaws]) an iterator is a position in entries ordered by key,
    which are all that the database had when it was made only if the read options
    restrict nothing ([reads_all]). *)
From stdpp Require Import base numbers countable list gmap strings sorting.
From S2P Require Import Prelude Cid Datastore.

Open Scope Z_scope.

(** ** The interfaces of [face] *)

Class ReadableMap (D : Type) := {
  map_get : bytes → D → outcome rocksdbError bytes;
  map_contains : bytes → D → bool
}.

Class WriteableMap (D : Type) := {
  map_put : bytes → bytes → D → outcome rocksdbError () * D;
  map_remove : bytes → D → outcome rocksdbError () * D
}.

(** A batch of writes to [D]. *)
Class WriteBatch_ (B D : Type) := {
  #[global] batch_writeable :: WriteableMap B;
  batch_commit : B → D → outcome rocksdbError () * D;
  batch_clear : B → B
}.

Class IterableMap (C D : Type) := { map_cursor : D → C }.

Class GenericMap (C D : Type) := {
  #[global] generic_iterable :: IterableMap C D;
  #[global] generic_readable :: ReadableMap D;
  #[global] generic_writeable :: WriteableMap D
}.

Class PersistentMap (C B D : Type) := {
  #[global] persistent_generic :: GenericMap C D;
  #[global] persistent_batch :: WriteBatch_ B D;
  map_batch : D → B
}.


Class MapCursor (C : Type) := {
  seekToFirst : C → C;
  seek : bytes → C → C;
  seekToLast : C → C;
  isValid : C → bool;
  next : C → C;
  prev : C → C;
  key : C → bytes;
  value : C → bytes
}.

(** What a cursor promises: it stands at an index of a sorted list, or nowhere. *)
Definition at_index {A} (l : list A) (i : nat) : option nat := if (i <? length l)%nat then Some i else None.

(** The entries before a key. *)
Definition before (k : bytes) (l : list (bytes * bytes)) : nat :=
  length (filter (λ e : bytes * bytes, bytes_less e.1 k = true) l).

Class MapCursorLaws (C : Type) `{!MapCursor C} := {
  cur_entries : C → list (bytes * bytes);
  cur_position : C → option nat;
  position_inside c i : cur_position c = Some i → (i < length (cur_entries c))%nat;
  seekToFirst_entries c : cur_entries (seekToFirst c) = cur_entries c;
  seekToFirst_position c : cur_position (seekToFirst c) = at_index (cur_entries c) 0;
  seek_entries k c : cur_entries (seek k c) = cur_entries c;
  seek_position k c : cur_position (seek k c) = at_index (cur_entries c) (before k (cur_entries c));
  seekToLast_entries c : cur_entries (seekToLast c) = cur_entries c;
  seekToLast_position c : cur_position (seekToLast c) = at_index (cur_entries c) (pred (length (cur_entries c)));
  isValid_position c : isValid c = bool_decide (is_Some (cur_position c));
  next_entries c i : cur_position c = Some i → cur_entries (next c) = cur_entries c;
  next_position c i : cur_position c = Some i → cur_position (next c) = at_index (cur_entries c) (S i);
  prev_entries c i : cur_position c = Some i → cur_entries (prev c) = cur_entries c;
  prev_position c i : cur_position c = Some i → cur_position (prev c) = match i with O => None | S i => Some i end;
  key_value c i : cur_position c = Some i → cur_entries c !! i = Some (key c, value c)
}.

(** [for ( ...; isValid(); step() )]: the keys and values, with fuel. *)
Fixpoint walk {C} `{!MapCursor C} (fuel : nat) (step : C → C) (c : C) : list (bytes * bytes) :=
  match fuel with
  | O => []
  | S fuel => if isValid c then (key c, value c) :: walk fuel step (step c) else []
  end.

Section cursor_theory.
Context {C : Type} `{!MapCursor C, !MapCursorLaws C}.

Lemma walk_next n : ∀ c i, cur_position c = at_index (cur_entries c) i → (length (cur_entries c) ≤ i + n)%nat →
  walk (S n) next c = drop i (cur_entries c).
Proof.
  induction n as [|n IH]; intros c i Hp Hn; rewrite (eq_refl : walk (S _) next c = if isValid c then (key c, value c) :: walk _ next (next c) else []).
  - rewrite isValid_position, Hp. unfold at_index. destruct (Nat.ltb_spec i (length (cur_entries c))); [lia|].
    by rewrite bool_decide_false, drop_ge by (lia || by intros []).
  - rewrite isValid_position. unfold at_index in Hp. destruct (Nat.ltb_spec i (length (cur_entries c))) as [Hi|Hi].
    + rewrite Hp, bool_decide_true by done. rewrite (IH (next c) (S i)).
      * rewrite (next_entries c i Hp). symmetry. apply drop_S. by apply key_value.
      * by rewrite (next_entries c i Hp), (next_position c i Hp).
      * rewrite (next_entries c i Hp). lia.
    + by rewrite Hp, bool_decide_false, drop_ge by (lia || by intros []).
Qed.

Lemma walk_prev n : ∀ c o, cur_position c = o → (match o with Some i => i < n | None => True end)%nat →
  walk n prev c = match o with Some i => reverse (take (S i) (cur_entries c)) | None => [] end.
Proof.
  induction n as [|n IH]; intros c o Hp Hn.
  - by destruct o; [lia|].
  - rewrite (eq_refl : walk (S _) prev c = if isValid c then (key c, value c) :: walk _ prev (prev c) else []).
    rewrite isValid_position, Hp. destruct o as [i|]; [|by rewrite bool_decide_false by (by intros [])].
    rewrite bool_decide_true by done. rewrite (take_S_r _ _ _ (key_value c i Hp)), reverse_snoc. f_equal.
    rewrite (IH (prev c) _ (prev_position c i Hp)); destruct i as [|i]; [done|by rewrite (prev_entries c _ Hp)|done|lia].
Qed.

End cursor_theory.

(** ** RocksDB's iterators and options *)

Class RocksIterators (DB : Type) `{!RocksDB DB} := {
  ReadOptions : Type;
  WriteOptions : Type;
  Options : Type;
  default_ReadOptions : ReadOptions;
  default_WriteOptions : WriteOptions;
  (** The settings [create] makes in its copy of the options. *)
  configured : Options → Options;
  (** [DB::Open]: the database, when the status is good. *)
  db_Open : Options → string → Status * DB;
  db_Close : DB → Status * DB;
  PathNotFound : Status;
  Iterator : Type;
  NewIterator : ReadOptions → DB → Iterator;
  it_SeekToFirst : Iterator → Iterator;
  it_Seek : bytes → Iterator → Iterator;
  it_SeekToLast : Iterator → Iterator;
  it_Valid : Iterator → bool;
  it_Next : Iterator → Iterator;
  it_Prev : Iterator → Iterator;
  it_key : Iterator → bytes;
  it_value : Iterator → bytes
}.

Section wrapper.
Context {DB : Type} `{!RocksDB DB, !RocksIterators DB}.

(** [options_] is null in an object made from a database. *)
Record rocksdb := mkRocksdb { db_ : DB; ro_ : ReadOptions; wo_ : WriteOptions; options_ : option Options }.

(** The database is opened with the options of the caller, not with [options_].
    [path.data()] is taken for a string that ends in a zero. *)
Definition rocksdb_create (path : string) (options : Options) : outcome rocksdbError rocksdb :=
  let '(status, db) := db_Open options path in
  if ok status then success (mkRocksdb db default_ReadOptions default_WriteOptions (Some (configured options)))
  else failure (error_as_result status).

(** [None]: a null pointer. *)
Definition rocksdb_create_from (db : option DB) : outcome rocksdbError rocksdb :=
  match db with
  | None => failure (error_as_result PathNotFound)
  | Some db => success (mkRocksdb db default_ReadOptions default_WriteOptions None)
  end.

(** [batch()]; the object the batch refers to is an argument of its [commit]. *)
Definition rocksdb_batch (l : rocksdb) : WriteBatch := empty_batch.

(** The operations of [Datastore.v] on the object. *)
Definition on_db {A} (r : A * DB) (l : rocksdb) : A * rocksdb := (r.1, mkRocksdb r.2 (ro_ l) (wo_ l) (options_ l)).

Definition setReadOptions (ro : ReadOptions) (l : rocksdb) : rocksdb := mkRocksdb (db_ l) ro (wo_ l) (options_ l).
Definition setWriteOptions (wo : WriteOptions) (l : rocksdb) : rocksdb := mkRocksdb (db_ l) (ro_ l) wo (options_ l).

(** The value of the empty [error_code]. *)
Definition rocksdb_close (l : rocksdb) : outcome Z () * rocksdb :=
  let '(status, db) := db_Close (db_ l) in
  ((if ok status then success tt else failure 0), mkRocksdb db (ro_ l) (wo_ l) (options_ l)).

(** [rocksdb::Cursor]; slices and buffers are their bytes. *)
Record Cursor := mkCursor { i_ : Iterator }.

Definition rocksdb_cursor (l : rocksdb) : Cursor := mkCursor (NewIterator (ro_ l) (db_ l)).

Definition Cursor_seekToFirst (c : Cursor) : Cursor := mkCursor (it_SeekToFirst (i_ c)).
Definition Cursor_seek (k : bytes) (c : Cursor) : Cursor := mkCursor (it_Seek k (i_ c)).
Definition Cursor_seekToLast (c : Cursor) : Cursor := mkCursor (it_SeekToLast (i_ c)).
Definition Cursor_isValid (c : Cursor) : bool := it_Valid (i_ c).
Definition Cursor_next (c : Cursor) : Cursor := mkCursor (it_Next (i_ c)).
Definition Cursor_prev (c : Cursor) : Cursor := mkCursor (it_Prev (i_ c)).
Definition Cursor_key (c : Cursor) : bytes := it_key (i_ c).
Definition Cursor_value (c : Cursor) : bytes := it_value (i_ c).

#[export] Instance rocksdb_MapCursor : MapCursor Cursor := {
  seekToFirst := Cursor_seekToFirst;
  seek := Cursor_seek;
  seekToLast := Cursor_seekToLast;
  isValid := Cursor_isValid;
  next := Cursor_next;
  prev := Cursor_prev;
  key := Cursor_key;
  value := Cursor_value
}.

#[export] Instance rocksdb_Batch : WriteBatch_ WriteBatch rocksdb := {
  batch_writeable := {| map_put := Batch_put; map_remove := Batch_remove |};
  batch_commit b l := on_db (Batch_commit b (db_ l)) l;
  batch_clear := Batch_clear
}.

#[export] Instance rocksdb_PersistentMap : PersistentMap Cursor WriteBatch rocksdb := {
  persistent_generic := {|
    generic_iterable := {| map_cursor := rocksdb_cursor |};
    generic_readable := {| map_get k l := rocksdb_get k (db_ l); map_contains k l := rocksdb_contains k (db_ l) |};
    generic_writeable := {|
      map_put k v l := on_db (rocksdb_put k v (db_ l)) l;
      map_remove k l := on_db (rocksdb_remove k (db_ l)) l |} |};
  map_batch := rocksdb_batch
}.

End wrapper.
Arguments rocksdb DB {_ _}.
Arguments Cursor DB {_ _}.

(** RocksDB's own iterator as a cursor. *)
Definition rocks_iterator {DB} `{!RocksDB DB, !RocksIterators DB} : MapCursor (Iterator (DB:=DB)) := {|
  seekToFirst := it_SeekToFirst;
  seek := it_Seek;
  seekToLast := it_SeekToLast;
  isValid := it_Valid;
  next := it_Next;
  prev := it_Prev;
  key := it_key;
  value := it_value
|}.

Class RocksIteratorsLaws (DB : Type) `{!RocksDB DB, !RocksDBLaws DB, !RocksIterators DB} := {
  #[global] iterator_laws :: MapCursorLaws (Iterator (DB:=DB)) (MapCursor0:=rocks_iterator);
  (** No bounds, snapshot or prefix in the options, no prefix extractor in the database. *)
  reads_all : ReadOptions (DB:=DB) → DB → Prop;
  NewIterator_entries ro (db : DB) : reads_all ro db → cur_entries (MapCursor0:=rocks_iterator) (NewIterator ro db) = map_entries (contents db)
}.

(** ** The cursor keeps the promise *)

Section properties.
Context {DB : Type} `{!RocksDB DB, !RocksDBLaws DB, !RocksIterators DB, !RocksIteratorsLaws DB}.

#[export] Instance Cursor_laws : MapCursorLaws (Cursor DB).
Proof.
  pose proof (iterator_laws (DB:=DB)) as HL.
  refine {| cur_entries c := cur_entries (MapCursor0:=rocks_iterator) (i_ c); cur_position c := cur_position (MapCursor0:=rocks_iterator) (i_ c) |}; cbn; intros.
  - by eapply (position_inside (MapCursor0:=rocks_iterator)).
  - by eapply (seekToFirst_entries (MapCursor0:=rocks_iterator)).
  - by eapply (seekToFirst_position (MapCursor0:=rocks_iterator)).
  - by eapply (seek_entries (MapCursor0:=rocks_iterator)).
  - by eapply (seek_position (MapCursor0:=rocks_iterator)).
  - by eapply (seekToLast_entries (MapCursor0:=rocks_iterator)).
  - by eapply (seekToLast_position (MapCursor0:=rocks_iterator)).
  - by eapply (isValid_position (MapCursor0:=rocks_iterator)).
  - by eapply (next_entries (MapCursor0:=rocks_iterator)).
  - by eapply (next_position (MapCursor0:=rocks_iterator)).
  - by eapply (prev_entries (MapCursor0:=rocks_iterator)).
  - by eapply (prev_position (MapCursor0:=rocks_iterator)).
  - by eapply (key_value (MapCursor0:=rocks_iterator)).
Defined.

Lemma map_entries_sorted {A} (m : gmap bytes A) : StronglySorted key_le (map_entries m).
Proof. apply StronglySorted_merge_sort; apply _. Qed.

(** Sorted, what is not before a key comes after what is. *)
Lemma drop_before k (l : list (bytes * bytes)) : StronglySorted key_le l →
  drop (before k l) l = filter (λ e : bytes * bytes, bytes_less e.1 k = false) l ∧
  take (before k l) l = filter (λ e : bytes * bytes, bytes_less e.1 k = true) l.
Proof.
  unfold before. induction 1 as [|[x v] l Hs IH HF]; [done|]. rewrite !filter_cons. cbn [fst].
  destruct (bytes_less x k) eqn:Hx.
  - rewrite decide_True, decide_False by done. cbn [length drop take]. by destruct IH as [-> ->].
  - rewrite decide_False, decide_True by done.
    assert (Forall (λ e : bytes * bytes, bytes_less e.1 k = false) l) as HG.
    { eapply Forall_impl; [exact HF|]. intros [y w] Hy. unfold key_le in Hy. cbn [fst] in *.
      change (bytes_le k y). change (bytes_le k x) in Hx. by transitivity x. }
    assert (filter (λ e : bytes * bytes, bytes_less e.1 k = true) l = []) as ->.
    { apply elem_of_nil_inv. intros e [He Hin]%list_elem_of_filter. rewrite (proj1 (Forall_forall _ _) HG e Hin) in He. done. }
    cbn [length drop take]. split; [|done]. f_equal. by rewrite filter_all.
Qed.

(** Iteration.  Over a database with [n] entries, with read options that restrict
    nothing, a cursor walks, forwards
    from its first or backwards from its last entry, over every entry once, in
    the order of the keys and with the value that [get] gives; from a key forwards
    over the entries that are not before it, and backwards from there over the
    first such entry and those before it.  A walk takes [n] steps and then the
    cursor is not valid. *)
Theorem cursor_walks (l : rocksdb DB) : reads_all (ro_ l) (db_ l) →
  let all := map_entries (contents (db_ l)) in
  let n := length all in
  let c := rocksdb_cursor l in
  walk (S n) next (seekToFirst c) = all ∧
  walk (S n) prev (seekToLast c) = reverse all ∧
  (∀ k v, (k, v) ∈ all ↔ rocksdb_get k (db_ l) = success v) ∧
  NoDup all.*1 ∧ StronglySorted key_le all ∧
  ∀ k, walk (S n) next (seek k c) = filter (λ e : bytes * bytes, bytes_less e.1 k = false) all ∧
    walk (S n) prev (seek k c) =
      match filter (λ e : bytes * bytes, bytes_less e.1 k = false) all with
      | [] => []
      | e :: _ => e :: reverse (filter (λ e : bytes * bytes, bytes_less e.1 k = true) all)
      end.
Proof.
  intros Hro. cbv zeta. set (all := map_entries (contents (db_ l))). set (c := rocksdb_cursor l).
  assert (cur_entries c = all) as Hall by (by apply NewIterator_entries).
  pose proof (map_entries_sorted (contents (db_ l))) as Hsort. fold all in Hsort.
  split; [|split; [|split; [|split; [|split; [done|]]]]].
  - rewrite (walk_next (length all) _ 0); [by rewrite seekToFirst_entries, Hall| |]; rewrite seekToFirst_entries, ?Hall; [|lia].
    by rewrite seekToFirst_position, Hall.
  - assert (cur_position (seekToLast c) = at_index all (pred (length all))) as Hp by (by rewrite seekToLast_position, Hall).
    rewrite (walk_prev (S (length all)) _ _ Hp); unfold at_index in *; destruct (Nat.ltb_spec (pred (length all)) (length all)); [|rewrite (nil_length_inv all) by lia; done| |done].
    + rewrite seekToLast_entries, Hall. f_equal. apply take_ge. lia.
    + lia.
  - intros k v. subst all. rewrite map_entries_lookup, rocksdb_get_spec. destruct (contents (db_ l) !! k); naive_solver.
  - subst all. rewrite map_entries_perm. apply NoDup_fst_map_to_list.
  - intros k. destruct (drop_before k all Hsort) as [Hd Ht].
    assert (cur_position (seek k c) = at_index all (before k all)) as Hp by (by rewrite seek_position, Hall).
    split.
    + rewrite (walk_next (length all) _ (before k all)); [by rewrite seek_entries, Hall| |]; rewrite seek_entries, Hall; [done|lia].
    + rewrite (walk_prev (S (length all)) _ _ Hp); unfold at_index in *; destruct (Nat.ltb_spec (before k all) (length all)) as [Hi|Hi]; [| | |done].
      * rewrite seek_entries, Hall. destruct (lookup_lt_is_Some_2 _ _ Hi) as [e He].
        rewrite (take_S_r _ _ _ He), reverse_snoc, Ht. rewrite (drop_S _ _ _ He) in Hd. by rewrite <- Hd.
      * rewrite drop_ge in Hd by lia. by rewrite <- Hd.
      * lia.
Qed.

End properties.

(** ** Batches *)

(** An operation of a batch: a key and its value, or none when it is removed. *)
Definition apply_op (m : gmap bytes bytes) (op : bytes * option bytes) : gmap bytes bytes :=
  match op.2 with Some v => <[op.1 := v]> m | None => delete op.1 m end.

Class RocksBatchLaws (DB : Type) `{!RocksDB DB, !RocksDBLaws DB} := {
  batch_ops : WriteBatch (DB:=DB) → list (bytes * option bytes);
  batch_ops_empty : batch_ops empty_batch = [];
  batch_ops_Put k v b : batch_ops (batch_Put k v b) = batch_ops b ++ [(k, Some v)];
  batch_ops_Delete k b : batch_ops (batch_Delete k b) = batch_ops b ++ [(k, None)];
  Write_ok b (db : DB) : ∃ s db', db_Write b db = (s, db') ∧ ok s = true ∧
    contents db' = foldl apply_op (contents db) (batch_ops b)
}.

(** A client's operations on any map it can write. *)
Definition write_op {D} `{!WriteableMap D} (d : D) (op : bytes * option bytes) : D :=
  match op.2 with Some v => map_put op.1 v d | None => map_remove op.1 d end.2.

Section batches.
Context {DB : Type} `{!RocksDB DB, !RocksDBLaws DB, !RocksIterators DB, !RocksBatchLaws DB}.

(** The last operation on a key decides. *)
Definition last_op (ops : list (bytes * option bytes)) (k : bytes) : option (option bytes) :=
  snd <$> last (filter (λ op : bytes * option bytes, op.1 = k) ops).

Lemma apply_ops_lookup ops m k : foldl apply_op m ops !! k = default (m !! k) (last_op ops k).
Proof.
  unfold last_op. induction ops as [|[k' o] ops IH] using rev_ind; [done|]. rewrite foldl_snoc, filter_app, filter_cons, filter_nil. cbn [fst].
  destruct (decide (k' = k)) as [->|Hne].
  - rewrite last_snoc. unfold apply_op at 1. cbn. destruct o; [by rewrite lookup_insert_eq|by rewrite lookup_delete_eq].
  - rewrite app_nil_r, <- IH. unfold apply_op at 1. cbn. destruct o; [by rewrite lookup_insert_ne|by rewrite lookup_delete_ne].
Qed.

Lemma last_op_in ops k : is_Some (last_op ops k) ↔ k ∈ ops.*1.
Proof.
  unfold last_op. rewrite fmap_is_Some, last_is_Some. split.
  - intros Hne. destruct (filter _ ops) as [|op l] eqn:Hf; [done|].
    assert (op ∈ filter (λ op : bytes * option bytes, op.1 = k) ops) as [<- Hin]%list_elem_of_filter by (rewrite Hf; left).
    by apply list_elem_of_fmap_2.
  - intros (op & -> & Hin)%list_elem_of_fmap Hf. exact (filter_nil_not_elem_of _ _ op Hf eq_refl Hin).
Qed.

Lemma fill_ops ops (b : WriteBatch (DB:=DB)) : batch_ops (foldl write_op b ops) = batch_ops b ++ ops.
Proof.
  revert b. induction ops as [|[k [v|]] ops IH]; intros b; cbn [foldl]; [by rewrite app_nil_r| |]; rewrite IH; cbn.
  - rewrite batch_ops_Put. by rewrite <- app_assoc.
  - rewrite batch_ops_Delete. by rewrite <- app_assoc.
Qed.

Lemma direct_ops ops (l : rocksdb DB) : contents (db_ (foldl write_op l ops)) = foldl apply_op (contents (db_ l)) ops.
Proof.
  revert l. induction ops as [|[k [v|]] ops IH]; intros l; cbn [foldl]; [done| |]; rewrite IH; f_equal; cbn.
  - unfold rocksdb_put. destruct (Put_ok k v (db_ l)) as (s & db & -> & _ & Hc). done.
  - unfold rocksdb_remove. destruct (Delete_ok k (db_ l)) as (s & db & -> & _ & Hc). done.
Qed.

Lemma commit_ops b (l : rocksdb DB) : ∃ l', batch_commit b l = (success tt, l') ∧
  contents (db_ l') = foldl apply_op (contents (db_ l)) (batch_ops b).
Proof.
  cbn. unfold on_db, Batch_commit. destruct (Write_ok b (db_ l)) as (s & db & -> & Hs & Hc). unfold of_status. rewrite Hs.
  by eexists.
Qed.

Lemma get_contents (l l' : rocksdb DB) k : contents (db_ l) !! k = contents (db_ l') !! k → map_get k l = map_get k l'.
Proof. intros Hc. cbn. by rewrite !rocksdb_get_spec, Hc. Qed.

(** C38: a batch.  Committed, the puts and removes of a batch have the effect they
    have one by one, and keys they do not name keep their values.  The batch keeps
    them: committed again it overwrites what was written to its keys since.  A
    cleared batch changes nothing. *)
Theorem batch_commits (l : rocksdb DB) ops :
  let b := foldl write_op (map_batch (C:=Cursor DB) l) ops in
  ∃ l', batch_commit b l = (success tt, l') ∧
    (∀ k, map_get k l' = map_get k (foldl write_op l ops)) ∧
    (∀ k, k ∉ ops.*1 → map_get k l' = map_get k l) ∧
    (∀ later, (∀ k, k ∈ later.*1 → k ∈ ops.*1) → ∃ l'', batch_commit b (foldl write_op l' later) = (success tt, l'') ∧
       ∀ k, map_get k l'' = map_get k l') ∧
    ∃ l0, batch_commit (batch_clear b) l = (success tt, l0) ∧ ∀ k, map_get k l0 = map_get k l.
Proof.
  intros b. assert (batch_ops b = ops) as Hb.
  { subst b. rewrite fill_ops. change (map_batch l) with (empty_batch (DB:=DB)). by rewrite batch_ops_empty. }
  destruct (commit_ops b l) as (l' & Hl' & Hc). rewrite Hb in Hc. exists l'. split; [exact Hl'|].
  split; [|split; [|split]].
  - intros k. apply get_contents. by rewrite direct_ops, Hc.
  - intros k Hk. apply get_contents. rewrite Hc, apply_ops_lookup. rewrite <- last_op_in in Hk.
    by destruct (last_op ops k) eqn:Hl; [destruct Hk; eexists|].
  - intros later Hlater. destruct (commit_ops b (foldl write_op l' later)) as (l'' & Hl'' & Hc''). exists l''. split; [exact Hl''|].
    intros k. apply get_contents. rewrite Hc'', Hb, direct_ops, Hc, !apply_ops_lookup.
    destruct (last_op ops k) eqn:Hk; [done|]. cbn. destruct (last_op later k) eqn:Hk'; [|done].
    assert (k ∈ ops.*1) as [? Hs]%last_op_in by (apply Hlater, last_op_in; by eexists). congruence.
  - destruct (commit_ops (batch_clear b) l) as (l0 & Hl0 & Hc0). exists l0. split; [exact Hl0|]. intros k. apply get_contents.
    rewrite Hc0. change (batch_clear b) with (empty_batch (DB:=DB)). by rewrite batch_ops_empty.
Qed.

End batches.

(** ** An instance *)

Module SampleCursor.
Import SampleStore.

Notation iterator := (list (bytes * bytes) * option nat)%type.

#[export] Instance iterators : RocksIterators DB := {
  ReadOptions := unit;
  WriteOptions := unit;
  Options := bool;
  default_ReadOptions := tt;
  default_WriteOptions := tt;
  configured o := o;
  db_Open create_if_missing path := (if create_if_missing then None else Some INVALID_ARGUMENT, ∅);
  db_Close db := (None, db);
  PathNotFound := Some IO_ERROR;
  Iterator := iterator;
  NewIterator _ db := (map_entries db, None);
  it_SeekToFirst it := (it.1, at_index it.1 0);
  it_Seek k it := (it.1, at_index it.1 (before k it.1));
  it_SeekToLast it := (it.1, at_index it.1 (pred (length it.1)));
  it_Valid it := match it.2 with Some i => (i <? length it.1)%nat | None => false end;
  it_Next it := (it.1, i ← it.2; at_index it.1 (S i));
  it_Prev it := (it.1, match it.2 with Some (S i) => Some i | _ => None end);
  it_key it := default [] (i ← it.2; fst <$> it.1 !! i);
  it_value it := default [] (i ← it.2; snd <$> it.1 !! i)
}.

(** A position outside counts as none. *)
Definition position (it : iterator) : option nat := i ← it.2; at_index it.1 i.

Lemma position_some it i : position it = Some i → it.2 = Some i ∧ (i < length it.1)%nat.
Proof.
  destruct it as [l [j|]]; [|done]. unfold position, at_index. cbn -[Nat.ltb]. destruct (Nat.ltb_spec j (length l)); [|done]. by intros [= ->].
Qed.

Lemma position_at l i : position (l, at_index l i) = at_index l i.
Proof. unfold position, at_index. cbn -[Nat.ltb]. destruct (Nat.ltb_spec i (length l)) as [Hi|]; [|done]. cbn -[Nat.ltb]. by rewrite (proj2 (Nat.ltb_lt _ _) Hi). Qed.

#[export] Instance iterators_cursor_laws : MapCursorLaws (Iterator (DB:=DB)) (MapCursor0:=rocks_iterator).
Proof.
  refine {| cur_entries := (fst : iterator → _); cur_position := position |}; cbn -[Nat.ltb].
  - intros c i [_ Hi]%position_some. exact Hi.
  - done.
  - intros [l o]. apply position_at.
  - done.
  - intros k [l o]. apply position_at.
  - done.
  - intros [l o]. apply position_at.
  - intros [l [j|]]; [|done]. unfold position, at_index. cbn -[Nat.ltb]. by destruct (Nat.ltb_spec j (length l)).
  - done.
  - intros [l o] i [Ho Hi]%position_some. cbn -[Nat.ltb] in *. rewrite Ho. apply position_at.
  - done.
  - intros [l o] i [Ho Hi]%position_some. cbn -[Nat.ltb] in *. rewrite Ho. destruct i as [|i]; [done|]. unfold position, at_index. cbn -[Nat.ltb].
    by rewrite (proj2 (Nat.ltb_lt _ _)) by lia.
  - intros [l o] i [Ho Hi]%position_some. cbn -[Nat.ltb] in *. rewrite Ho. destruct (lookup_lt_is_Some_2 _ _ Hi) as [[k v] He]. cbn -[Nat.ltb]. by rewrite He.
Defined.

#[export] Instance iterators_laws : RocksIteratorsLaws DB.
Proof. refine {| iterator_laws := iterators_cursor_laws; reads_all := λ _ _, True |}. done. Defined.

Definition database : Cursor.rocksdb DB := mkRocksdb (list_to_map [([5], [50]); ([3; 1], [31]); ([3], [30])]) tt tt None.
End SampleCursor.
Import SampleStore SampleCursor.

Lemma cursor_walks_witness :
  let c := rocksdb_cursor database in
  walk 4 next (seekToFirst c) = [([3], [30]); ([3; 1], [31]); ([5], [50])] ∧
  walk 4 prev (seekToLast c) = [([5], [50]); ([3; 1], [31]); ([3], [30])] ∧
  walk 4 prev (seek [4] c) = [([5], [50]); ([3; 1], [31]); ([3], [30])] ∧ walk 4 next (seek [6] c) = [].
Proof.
  destruct (cursor_walks database ltac:(exact I)) as (H1 & H2 & _ & _ & _ & H3). destruct (H3 [4]) as [_ H4]. destruct (H3 [6]) as [H6 _].
  assert (map_entries (contents (db_ database)) = [([3], [30]); ([3; 1], [31]); ([5], [50])]) as He by (vm_compute; reflexivity).
  rewrite He in H1, H2, H4, H6.
  split; [exact H1|]. split; [exact H2|]. split; [exact H4|exact H6].
Defined.

(** Opening fails with the error of the status; a null pointer is an I/O error. *)
Example create_errors :
  rocksdb_create (DB:=DB) "path" false = failure INVALID_ARGUMENT ∧ rocksdb_create_from (DB:=DB) None = failure IO_ERROR ∧
  is_success (rocksdb_create (DB:=DB) "path" true) = true ∧ (rocksdb_close database).1 = success tt.
Proof. done. Qed.

Module SampleBatch.
Import SampleStore SampleCursor.
#[export] Instance batch_laws : RocksBatchLaws DB.
Proof.
  refine {| batch_ops := (λ b, b) : WriteBatch (DB:=DB) → list (bytes * option bytes) |}; try done.
  intros b db. do 2 eexists. split; [done|]. split; [done|]. cbn. revert db. induction b as [|[k [v|]] b IH]; intros db; cbn; [done|apply IH..].
Defined.
Definition ops : list (bytes * option bytes) := [([3], None); ([9], Some [90]); ([9], Some [91])].
End SampleBatch.
Import SampleBatch.

Lemma batch_commits_witness : ∃ l', batch_commit (foldl write_op (map_batch (C:=Cursor SampleStore.DB) database) SampleBatch.ops) database = (success tt, l') ∧
  map_get [3] l' = failure ROCKSDB_NOT_FOUND ∧ map_get [9] l' = success [91] ∧ map_get [5] l' = success [50].
Proof.
  destruct (batch_commits database SampleBatch.ops) as (l' & Hl' & H1 & H2 & _). exists l'. split; [exact Hl'|].
  split; [exact (H1 [3])|]. split; [exact (H1 [9])|]. rewrite (H2 [5]); [reflexivity|]. vm_compute. set_solver.
Defined.
