(* ===== verification/MerkleDag.v ===== *)
(** The Merkle DAG service: [src/ipfs_lite/ipfs/merkledag]
    ([MerkleDagServiceImpl] and [Leaf]).

    The service is over any [IpfsDatastore].  [buildGraph] recurses on the nodes
    it fetches, so it has fuel; [None] is fuel that ran out, and the theorems say
    how much is enough. *)
From stdpp Require Import base numbers countable list gmap.
From S2P Require Import Prelude Cid Ipld Datastore.

Open Scope Z_scope.

(** ** [Leaf] *)

Inductive Leaf := mkLeaf (content : bytes) (children : gmap bytes Leaf).

Definition leaf_content (l : Leaf) : bytes := match l with mkLeaf c _ => c end.
Definition leaf_children (l : Leaf) : gmap bytes Leaf := match l with mkLeaf _ ch => ch end.

Inductive LeafError := LEAF_NOT_FOUND | DUPLICATE_LEAF.

Definition leaf_count (l : Leaf) : Z := Z.of_nat (base.size (leaf_children l)).

Definition subLeaf (name : bytes) (l : Leaf) : outcome LeafError Leaf :=
  match leaf_children l !! name with Some child => success child | None => failure LEAF_NOT_FOUND end.

Definition insertSubLeaf (name : bytes) (child l : Leaf) : outcome LeafError Leaf :=
  match leaf_children l !! name with
  | Some _ => failure DUPLICATE_LEAF
  | None => success (mkLeaf (leaf_content l) (<[name := child]> (leaf_children l)))
  end.

(** ** [MerkleDagServiceImpl] *)

Inductive DagError :=
| UNRESOLVED_LINK
| dag_store (e : DatastoreError)
| dag_node (e : IpldError)
| dag_cid (e : CidError)
| dag_hash (e : Z)
| dag_leaf (e : LeafError).

(** The result of a call, with its error in the caller's type. *)
Definition dag_outcome {E A} (inj : E → DagError) (o : outcome E A) : attempt DagError A :=
  match o with success x => returned x | failure e => failed (inj e) end.
Definition dag_attempt {E A} (inj : E → DagError) (o : attempt E A) : attempt DagError A :=
  match o with returned x => returned x | failed e => failed (inj e) | thrown => thrown end.

Section service.
Context {M D : Type} `{!Multiformats M, !NodeProtobuf, !IpfsDatastore M D}.
Context (toBuffer : M → bytes).

Definition addNode (node : IPLDNodeImpl M) (s : D) : attempt DagError () * D :=
  match getRawBytes toBuffer node with
  | returned (raw_bytes, node) =>
      match getCID toBuffer node with
      | returned (cid, _) => let '(r, s) := ds_set cid raw_bytes s in (dag_outcome dag_store r, s)
      | failed e => (failed (dag_hash e), s)
      | thrown => (thrown, s)
      end
  | failed e => (failed (dag_hash e), s)
  | thrown => (thrown, s)
  end.

Definition markResolved (cid : CID M) (s : D) : attempt DagError () * D :=
  let '(r, s) := ds_seal cid s in (dag_outcome dag_store r, s).

Definition getNode (cid : CID M) (s : D) : attempt DagError (IPLDNodeImpl M) :=
  content ← dag_attempt dag_store (ds_get cid s);
  dag_outcome dag_node (createFromRawBytes content).

Definition isResolved (cid : CID M) (s : D) : attempt DagError bool := dag_outcome dag_store (ds_is_sealed cid s).

Definition removeNode (cid : CID M) (s : D) : attempt DagError () * D :=
  let '(r, s) := ds_remove cid s in (dag_outcome dag_store r, s).

(** The first loop of [select]: the nodes of the links. *)
Fixpoint resolve_links (links : list (IPLDLink M)) (s : D) : attempt DagError (list (IPLDNodeImpl M)) :=
  match links with
  | [] => returned []
  | link :: links =>
      match getNode (link_cid link) s with
      | thrown => thrown
      | failed _ => failed UNRESOLVED_LINK
      | returned node => nodes ← resolve_links links s; returned (node :: nodes)
      end
  end.

(** The second loop: the handler, whose state is [h], until it returns false. *)
Fixpoint handle_nodes {H} (handler : IPLDNodeImpl M → H → bool * H) (nodes : list (IPLDNodeImpl M))
    (sent_count : Z) (h : H) : Z * H :=
  match nodes with
  | [] => (sent_count, h)
  | node :: nodes =>
      let '(go_on, h) := handler node h in
      if go_on then handle_nodes handler nodes (sent_count + 1) h else (sent_count + 1, h)
  end.

(** The nodes [select] passes on; the selector is ignored. *)
Definition selected_nodes (root_cid selector : bytes) (s : D) : attempt DagError (list (IPLDNodeImpl M)) :=
  cid ← dag_outcome dag_cid (fromBytes root_cid);
  root_node ← getNode cid s;
  nodes ← resolve_links (getLinks root_node) s;
  returned (root_node :: nodes).

Definition select {H} (root_cid selector : bytes) (handler : IPLDNodeImpl M → H → bool * H) (h : H) (s : D) :
    attempt DagError (Z * H) :=
  node_set ← selected_nodes root_cid selector s;
  returned (handle_nodes handler node_set 0 h).

(** [buildGraph].  [nodeGetter] is the service's [getNode] or the caller's. *)
Section graph.
Context (nodeGetter : CID M → attempt DagError (IPLDNodeImpl M)).

(** The loop over the links; [build] makes the leaf of a child. *)
Fixpoint each_link (build : IPLDNodeImpl M → option (attempt DagError Leaf)) (root : Leaf)
    (links : list (IPLDLink M)) : option (attempt DagError Leaf) :=
  match links with
  | [] => Some (returned root)
  | link :: links =>
      match nodeGetter (link_cid link) with
      | thrown => Some thrown
      | failed _ => Some (failed UNRESOLVED_LINK)
      | returned node =>
          match build node with
          | Some (returned child_leaf) =>
              match insertSubLeaf (link_name link) child_leaf root with
              | success root => each_link build root links
              | failure e => Some (failed (dag_leaf e))
              end
          | build_result => build_result
          end
      end
  end.

Fixpoint buildGraph (fuel : nat) (root : Leaf) (links : list (IPLDLink M)) (max_depth : option Z)
    (current_depth : Z) : option (attempt DagError Leaf) :=
  if bool_decide (max_depth = Some current_depth) then Some (returned root)
  else
    each_link (λ node,
      match fuel with
      | O => None
      | S fuel => buildGraph fuel (mkLeaf (content_ node) ∅) (getLinks node) max_depth (u64 (current_depth + 1))
      end) root links.

Definition fetchGraphOnDepth_with (fuel : nat) (cid : CID M) (depth : option Z) : option (attempt DagError Leaf) :=
  match nodeGetter cid with
  | thrown => Some thrown
  | failed e => Some (failed e)
  | returned node => buildGraph fuel (mkLeaf (content_ node) ∅) (getLinks node) depth 0
  end.

End graph.

Definition fetchGraph (fuel : nat) (cid : CID M) (s : D) : option (attempt DagError Leaf) :=
  fetchGraphOnDepth_with (λ c, getNode c s) fuel cid None.

Definition fetchGraphOnDepth (fuel : nat) (cid : CID M) (depth : Z) (s : D) : option (attempt DagError Leaf) :=
  fetchGraphOnDepth_with (λ c, getNode c s) fuel cid (Some depth).

End service.

(** A node's links are under their names. *)
Definition names_ok {M} (n : IPLDNodeImpl M) : Prop := ∀ name l, links_ n !! name = Some l → link_name l = name.

(** ** What a fetched graph is *)

Section unfolding.
Context {M : Type} (nodeGetter : CID M → attempt DagError (IPLDNodeImpl M)).
Implicit Types (n m : IPLDNodeImpl M) (d : option Z) (leaf : Leaf).

(** The leaf of a node to a depth ([None] is no limit): its content and, above
    the limit, a leaf for each link. *)
Inductive unfolds : option Z → IPLDNodeImpl M → Leaf → Prop :=
| unfolds_cut n : unfolds (Some 0) n (mkLeaf (content_ n) ∅)
| unfolds_node d n children :
    d ≠ Some 0 → dom children = dom (links_ n) →
    (∀ name l, links_ n !! name = Some l → ∃ m child,
       nodeGetter (link_cid l) = returned m ∧ children !! name = Some child ∧ unfolds (Z.pred <$> d) m child) →
    unfolds d n (mkLeaf (content_ n) children).

(** Links whose nodes unfold to the depth. *)
Definition whole (d : option Z) (es : list (bytes * IPLDLink M)) : Prop :=
  ∀ name l, (name, l) ∈ es → ∃ m leaf, nodeGetter (link_cid l) = returned m ∧ unfolds d m leaf.

(** In the order of the names, depth first, a link within the depth is reached that
    the getter does not resolve. *)
Inductive broken : option Z → IPLDNodeImpl M → Prop :=
| broken_here d n pre name l post e :
    d ≠ Some 0 → map_entries (links_ n) = pre ++ (name, l) :: post → whole (Z.pred <$> d) pre →
    nodeGetter (link_cid l) = failed e → broken d n
| broken_below d n pre name l post m :
    d ≠ Some 0 → map_entries (links_ n) = pre ++ (name, l) :: post → whole (Z.pred <$> d) pre →
    nodeGetter (link_cid l) = returned m → broken (Z.pred <$> d) m → broken d n.

(** [m] is what a link of [n] names. *)
Definition linked m n : Prop := ∃ name l, links_ n !! name = Some l ∧ nodeGetter (link_cid l) = returned m.

Lemma unfolds_ind' (P : option Z → IPLDNodeImpl M → Leaf → Prop) :
  (∀ n, P (Some 0) n (mkLeaf (content_ n) ∅)) →
  (∀ d n children, d ≠ Some 0 → dom children = dom (links_ n) →
    (∀ name l, links_ n !! name = Some l → ∃ m child,
       nodeGetter (link_cid l) = returned m ∧ children !! name = Some child ∧
       unfolds (Z.pred <$> d) m child ∧ P (Z.pred <$> d) m child) →
    P d n (mkLeaf (content_ n) children)) →
  ∀ d n leaf, unfolds d n leaf → P d n leaf.
Proof.
  intros Hcut Hnode. fix IH 4. intros d n leaf [|d' n' children Hd Hdom Hl]; [apply Hcut|].
  apply Hnode; [done|done|]. intros name l Hk. destruct (Hl name l Hk) as (m & child & Hm & Hc & Hu).
  exists m, child. split_and!; [done|done|done|by apply IH].
Qed.

Context (getter_total : ∀ c, nodeGetter c ≠ thrown).
Context (getter_named : ∀ c m, nodeGetter c = returned m → names_ok m).

(** *** The loop *)

(** What the loop makes of the links [es] when [build] gives [Q] leaves. *)
Definition grown (Q : IPLDNodeImpl M → Leaf → Prop) (es : list (bytes * IPLDLink M)) (ch : gmap bytes Leaf) : Prop :=
  dom ch = list_to_set es.*1 ∧
  ∀ name l, (name, l) ∈ es → ∃ m child, nodeGetter (link_cid l) = returned m ∧ ch !! name = Some child ∧ Q m child.

(** Where the loop stops when [build] fails at the nodes in [B]. *)
Definition stopped (Q : IPLDNodeImpl M → Leaf → Prop) (B : IPLDNodeImpl M → Prop) (es : list (bytes * IPLDLink M)) : Prop :=
  ∃ pre name l post, es = pre ++ (name, l) :: post ∧
    (∀ name' l', (name', l') ∈ pre → ∃ m leaf, nodeGetter (link_cid l') = returned m ∧ Q m leaf) ∧
    ((∃ e, nodeGetter (link_cid l) = failed e) ∨ ∃ m, nodeGetter (link_cid l) = returned m ∧ B m).

Lemma stopped_here Q B name l es :
  ((∃ e, nodeGetter (link_cid l) = failed e) ∨ ∃ m, nodeGetter (link_cid l) = returned m ∧ B m) → stopped Q B ((name, l) :: es).
Proof. intros H. exists [], name, l, es. split_and!; [done| |done]. by intros ?? ?%elem_of_nil. Qed.

Lemma stopped_later Q B name l m leaf es : nodeGetter (link_cid l) = returned m → Q m leaf →
  stopped Q B es → stopped Q B ((name, l) :: es).
Proof.
  intros Hg HQ (pre & name' & l' & post & -> & Hpre & H). exists ((name, l) :: pre), name', l', post. split_and!; [done| |done].
  intros ?? [[= -> ->]|Hin]%elem_of_cons; [by exists m, leaf|by eapply Hpre].
Qed.

Lemma each_link_spec build (Q : IPLDNodeImpl M → Leaf → Prop) (B : IPLDNodeImpl M → Prop) es : ∀ root,
  (∀ m leaf, names_ok m → build m = Some (returned leaf) → Q m leaf) →
  (∀ m e, names_ok m → build m = Some (failed e) → e = UNRESOLVED_LINK ∧ B m) →
  (∀ m, names_ok m → build m ≠ Some thrown) →
  NoDup es.*1 → (∀ name l, (name, l) ∈ es → link_name l = name ∧ leaf_children root !! name = None) →
  match each_link nodeGetter build root es.*2 with
  | Some (returned leaf) => ∃ ch, leaf = mkLeaf (leaf_content root) (leaf_children root ∪ ch) ∧ grown Q es ch
  | Some (failed e) => e = UNRESOLVED_LINK ∧ stopped Q B es
  | Some thrown => False
  | None => True
  end.
Proof.
  induction es as [|[name l] es IH]; intros root HQ HB HT HN Hes; cbn [fmap list_fmap each_link fst snd] in *.
  { exists ∅. destruct root. cbn. rewrite (right_id_L ∅ (∪)). split; [done|]. split; [by rewrite dom_empty_L|].
    by intros ?? ?%elem_of_nil. }
  apply NoDup_cons in HN as [Hn HN]. destruct (Hes name l (list_elem_of_here _ _)) as [Hname Hfree].
  destruct (nodeGetter (link_cid l)) as [m|e|] eqn:Hg; [|split; [done|]; apply stopped_here; left; by exists e|by apply getter_total in Hg].
  pose proof (getter_named _ _ Hg) as Hm.
  destruct (build m) as [[child|e|]|] eqn:Hb; [|apply HB in Hb as [-> Hb]; [|done]; split; [done|]; apply stopped_here; right; by exists m|by apply HT in Hb|done].
  unfold insertSubLeaf. rewrite Hname, Hfree.
  assert (∀ name' l', (name', l') ∈ es → name ≠ name') as Hne.
  { intros name' l' Hin <-. apply Hn. apply list_elem_of_fmap. by exists (name, l'). }
  assert (∀ name' l', (name', l') ∈ es → link_name l' = name' ∧
    leaf_children (mkLeaf (leaf_content root) (<[name := child]> (leaf_children root))) !! name' = None) as Hes'.
  { intros name' l' Hin. destruct (Hes name' l' (list_elem_of_further _ _ _ Hin)) as [Hn' Hf]. split; [done|].
    cbn [leaf_children]. by rewrite lookup_insert_ne by (by apply (Hne name' l')). }
  specialize (IH _ HQ HB HT HN Hes').
  destruct (each_link nodeGetter build _ es.*2) as [[leaf|e|]|] eqn:He; [| |done|done].
  - destruct IH as (ch & -> & Hdom & Hch). cbn [leaf_content leaf_children]. exists (<[name := child]> ch). split.
    + f_equal. rewrite <- insert_union_l. by apply insert_union_r.
    + split; [by rewrite dom_insert_L, Hdom|]. intros name' l' [Heq|Hin]%elem_of_cons.
      * injection Heq as -> ->. exists m, child. rewrite lookup_insert_eq. split_and!; [done|done|by apply HQ].
      * destruct (Hch name' l' Hin) as (m' & child' & ? & ? & ?). exists m', child'. split; [done|]. split; [|done].
        by rewrite lookup_insert_ne by (by apply (Hne name' l')).
  - destruct IH as [-> Hst]. split; [done|]. eapply stopped_later; [done|by apply HQ|done].
Qed.

(** The loop runs out of fuel at a link, after links whose leaves were built. *)
Lemma each_link_none build ls : ∀ root, each_link nodeGetter build root ls = None →
  ∃ pre l post m, ls = pre ++ l :: post ∧ nodeGetter (link_cid l) = returned m ∧ build m = None ∧
    ∀ l', l' ∈ pre → ∃ m' leaf, nodeGetter (link_cid l') = returned m' ∧ build m' = Some (returned leaf).
Proof.
  induction ls as [|l ls IH]; intros root; cbn [each_link]; [done|].
  destruct (nodeGetter (link_cid l)) as [m|e|] eqn:Hg; [|done|done].
  destruct (build m) as [[child|e|]|] eqn:Hb; [|done|done|].
  - destruct (insertSubLeaf _ _ _) as [root'|e]; [|done]. intros (pre & l' & post & m' & -> & ? & ? & Hpre)%IH.
    exists (l :: pre), l', post, m'. split_and!; [done..|]. intros l2 [->|Hin]%elem_of_cons; [by exists m, child|by apply Hpre].
  - intros _. exists [], l, ls, m. split_and!; [done..|]. by intros ? ?%elem_of_nil.
Qed.

Lemma node_entries n : NoDup (map_entries (links_ n)).*1 ∧ ∀ name l, (name, l) ∈ map_entries (links_ n) ↔ links_ n !! name = Some l.
Proof. split; [|apply map_entries_lookup]. rewrite map_entries_perm. apply NoDup_fst_map_to_list. Qed.

(** *** The recursion *)

(** The depth left, and the depths that do not wrap. *)
Definition depth_left (max_depth : option Z) (current : Z) : option Z := (λ k, k - current) <$> max_depth.
Definition depth_ok (max_depth : option Z) (current : Z) : Prop :=
  match max_depth with Some k => 0 ≤ current ≤ k ∧ k < 2 ^ 64 | None => True end.

Lemma depth_left_0 max cur : depth_left max cur = Some 0 ↔ max = Some cur.
Proof. unfold depth_left. destruct max as [k|]; cbn; [|done]. split; [intros [= ?]; f_equal; lia|intros [= ->]; f_equal; lia]. Qed.

Lemma depth_step max cur : depth_ok max cur → max ≠ Some cur →
  depth_left max (u64 (cur + 1)) = Z.pred <$> depth_left max cur ∧ depth_ok max (u64 (cur + 1)).
Proof.
  unfold depth_left, depth_ok. destruct max as [k|]; cbn [fmap option_fmap option_map]; [|done].
  intros Hok Hne. assert (k ≠ cur) by congruence. rewrite wrap_small by lia. split; [f_equal; lia|lia].
Qed.

(** A verdict on a node: what the result of building its leaf shows. *)
Definition verdict (d : option Z) (out_of_fuel : Prop) n (r : option (attempt DagError Leaf)) : Prop :=
  match r with
  | Some (returned leaf) => unfolds d n leaf
  | Some (failed e) => e = UNRESOLVED_LINK ∧ broken d n
  | Some thrown => False
  | None => out_of_fuel
  end.

(** One level: when [build] is right about the children, so is the loop about the
    node. *)
Lemma each_link_verdict build d (F : Prop) n : d ≠ Some 0 → names_ok n →
  (∀ m, names_ok m → verdict (Z.pred <$> d) F m (build m)) →
  verdict d F n (each_link nodeGetter build (mkLeaf (content_ n) ∅) (getLinks n)).
Proof.
  intros Hd Hn Hbuild. destruct (node_entries n) as [HN Hin].
  pose proof (each_link_spec build (unfolds (Z.pred <$> d)) (broken (Z.pred <$> d))
    (map_entries (links_ n)) (mkLeaf (content_ n) ∅)) as He. fold (getLinks n) in He.
  assert (match each_link nodeGetter build (mkLeaf (content_ n) ∅) (getLinks n) with
    | Some (returned leaf) => ∃ ch, leaf = mkLeaf (content_ n) (∅ ∪ ch) ∧ grown (unfolds (Z.pred <$> d)) (map_entries (links_ n)) ch
    | Some (failed e) => e = UNRESOLVED_LINK ∧ stopped (unfolds (Z.pred <$> d)) (broken (Z.pred <$> d)) (map_entries (links_ n))
    | Some thrown => False
    | None => True
    end) as H.
  { apply He; [| | |done|].
    - intros m leaf Hm Hb. specialize (Hbuild m Hm). by rewrite Hb in Hbuild.
    - intros m e Hm Hb. specialize (Hbuild m Hm). by rewrite Hb in Hbuild.
    - intros m Hm Hb. specialize (Hbuild m Hm). by rewrite Hb in Hbuild.
    - intros name l Hl%Hin. split; [by apply Hn|apply lookup_empty]. }
  clear He. destruct (each_link _ _ _ _) as [[leaf|e|]|] eqn:He; cbn [verdict].
  - destruct H as (ch & -> & Hdom & Hch). rewrite (left_id_L ∅ (∪)). apply unfolds_node; [done| |].
    + rewrite Hdom. apply set_eq. intros name. rewrite elem_of_list_to_set, elem_of_dom. unfold is_Some. setoid_rewrite <- Hin.
      rewrite list_elem_of_fmap. split; [intros ([? l] & -> & ?); by exists l|intros [l ?]; by exists (name, l)].
    + intros name l Hl. apply Hch. by apply Hin.
  - destruct H as [-> (pre & name & l & post & Hes & Hpre & [[e' Hf]|(m & Hm & Hb)])]; (split; [done|]).
    + by eapply broken_here.
    + by eapply broken_below.
  - done.
  - apply each_link_none in He as (pre & l & post & m & _ & Hm & Hb & _). specialize (Hbuild m (getter_named _ _ Hm)). by rewrite Hb in Hbuild.
Qed.

Lemma buildGraph_sound fuel : ∀ n max cur, depth_ok max cur → names_ok n →
  verdict (depth_left max cur) (match max with Some k => Z.of_nat fuel < k - cur | None => True end) n
    (buildGraph nodeGetter fuel (mkLeaf (content_ n) ∅) (getLinks n) max cur).
Proof.
  induction fuel as [|fuel IH]; intros n max cur Hok Hn; cbn [buildGraph].
  all: case_bool_decide as Hmax; [rewrite (proj2 (depth_left_0 max cur) Hmax); constructor|].
  all: assert (depth_left max cur ≠ Some 0) as Hd by (by rewrite depth_left_0).
  all: apply each_link_verdict; [done|done|]; intros m Hm.
  - cbn [verdict]. destruct max as [k|]; [|done]. cbn in Hok. assert (k ≠ cur) by congruence. lia.
  - destruct (depth_step _ _ Hok Hmax) as [Hleft Hok']. rewrite <- Hleft.
    specialize (IH m max (u64 (cur + 1)) Hok' Hm). destruct max as [k|]; [|done]. revert IH.
    cbn in Hok. rewrite wrap_small by (assert (k ≠ cur) by congruence; lia).
    destruct (buildGraph _ _ _ _ _ _) as [[?|?|]|]; cbn [verdict]; [done..|lia].
Qed.

(** *** Enough fuel *)

Lemma entry_lookup n pre name l post : map_entries (links_ n) = pre ++ (name, l) :: post → links_ n !! name = Some l.
Proof. intros He. apply map_entries_lookup. rewrite He. apply elem_of_app. by right; left. Qed.

Lemma unfolds_not_broken d n leaf : unfolds d n leaf → ¬ broken d n.
Proof.
  intros Hu. induction Hu as [n|d n children Hd Hdom Hl] using unfolds_ind'; intros Hb; [by inversion Hb|].
  inversion Hb as [? ? pre name l post e _ Hes _ Hg|? ? pre name l post m _ Hes _ Hg Hb']; subst;
    destruct (Hl name l (entry_lookup _ _ _ _ _ Hes)) as (m' & child & Hg' & _ & _ & IH); [congruence|].
  rewrite Hg in Hg'. injection Hg' as <-. by apply IH.
Qed.

Lemma unfolds_det d n leaf : unfolds d n leaf → ∀ leaf', unfolds d n leaf' → leaf = leaf'.
Proof.
  intros Hu. induction Hu as [n|d n children Hd Hdom Hl] using unfolds_ind'; intros leaf' Hu'.
  - by inversion Hu'; subst.
  - inversion Hu' as [|? ? children' _ Hdom' Hl']; subst; [done|]. f_equal. apply map_eq. intros name.
    destruct (links_ n !! name) as [l|] eqn:Hk.
    + destruct (Hl name l Hk) as (m & c & Hg & -> & _ & IH). destruct (Hl' name l Hk) as (m' & c' & Hg' & -> & Hu2).
      rewrite Hg in Hg'. injection Hg' as <-. f_equal. by apply IH.
    + apply not_elem_of_dom in Hk. rewrite (proj1 (not_elem_of_dom children name)) by (by rewrite Hdom).
      by rewrite (proj1 (not_elem_of_dom children' name)) by (by rewrite Hdom').
Qed.

Lemma fuel_bound {A} (P : A → nat → Prop) (l : list A) : (∀ x, x ∈ l → ∃ k, ∀ f, (k ≤ f)%nat → P x f) →
  ∃ k, ∀ x f, x ∈ l → (k ≤ f)%nat → P x f.
Proof.
  induction l as [|x l IH]; intros Hl; [exists 0%nat; by intros ? ? ?%elem_of_nil|].
  destruct (Hl x) as [k Hk]; [left|]. destruct IH as [k' Hk']; [intros y Hy; apply Hl; by right|].
  exists (k `max` k')%nat. intros y f [->|Hy]%elem_of_cons Hf; [apply Hk; lia|apply Hk'; [done|lia]].
Qed.

(** Without a limit, enough fuel ends the recursion. *)
Definition settles n : Prop := ∃ k, ∀ fuel, (k ≤ fuel)%nat → ∀ root current,
  buildGraph nodeGetter fuel root (getLinks n) None current ≠ None.

Lemma settles_all (ls : list (IPLDLink M)) : (∀ l m, l ∈ ls → nodeGetter (link_cid l) = returned m → settles m) →
  ∃ k, ∀ l fuel m, l ∈ ls → (k ≤ fuel)%nat → nodeGetter (link_cid l) = returned m →
    ∀ root current, buildGraph nodeGetter fuel root (getLinks m) None current ≠ None.
Proof.
  intros Hls. destruct (fuel_bound (λ l fuel, ∀ m, nodeGetter (link_cid l) = returned m →
    ∀ root current, buildGraph nodeGetter fuel root (getLinks m) None current ≠ None) ls) as [k Hk].
  { intros l Hin. destruct (nodeGetter (link_cid l)) as [m|e|] eqn:Hg; [|by exists 0%nat..].
    destruct (Hls l m Hin Hg) as [k Hk]. exists k. intros f Hf m' [= <-]. by apply Hk. }
  exists k. intros l fuel m Hin Hf. by apply Hk.
Qed.

Lemma linked_entry n l m : l ∈ getLinks n → nodeGetter (link_cid l) = returned m → linked m n.
Proof. intros ([name l'] & -> & Hin)%list_elem_of_fmap Hg. apply map_entries_lookup in Hin. by exists name, l'. Qed.

Lemma acc_settles n : Acc linked n → settles n.
Proof.
  intros Hn. induction Hn as [n _ IH]. destruct (settles_all (getLinks n)) as [k Hk].
  { intros l m Hin Hg. by apply IH, (linked_entry n l). }
  exists (S k). intros [|fuel] Hf root current; [lia|]. cbn [buildGraph]. rewrite bool_decide_false by done.
  intros (pre & l & post & m & Hls & Hg & Hb & _)%each_link_none. refine (Hk l fuel m _ ltac:(lia) Hg _ _ Hb).
  rewrite Hls. apply elem_of_app. by right; left.
Qed.

Lemma unfolds_acc n leaf : unfolds None n leaf → Acc linked n.
Proof.
  intros Hu. remember None as d eqn:Hd. revert Hd. induction Hu as [n|d n children _ Hdom Hl] using unfolds_ind'; intros Hd; [done|].
  subst d. constructor. intros m (name & l & Hk & Hg). destruct (Hl name l Hk) as (m' & child & Hg' & _ & _ & IH).
  rewrite Hg in Hg'. injection Hg' as <-. by apply IH.
Qed.

(** Two places in a list. *)
Lemma places {A} (p : list A) x q : ∀ p' x' q', p ++ x :: q = p' ++ x' :: q' → x' ∈ p ∨ x' = x ∨ x ∈ p'.
Proof.
  induction p as [|a p IH]; intros [|a' p'] x' q'; cbn [app]; intros [= -> H]; [by right; left|right; right; left|left; left|].
  destruct (IH _ _ _ H) as [?|[?|?]]; [by left; right|by right; left|by right; right; right].
Qed.

(** The loop ends at a link it cannot get over. *)
Lemma stop_settles n pre name l post : map_entries (links_ n) = pre ++ (name, l) :: post → whole None pre →
  (∀ m, nodeGetter (link_cid l) = returned m → settles m ∧ broken None m) → settles n.
Proof.
  intros Hes Hpre Hl. assert (getLinks n = pre.*2 ++ l :: post.*2) as Hls by (unfold getLinks; by rewrite Hes, fmap_app).
  destruct (settles_all (pre.*2 ++ [l])) as [k Hk].
  { intros l' m Hin Hg. apply elem_of_app in Hin as [([name' l2] & -> & Hin)%list_elem_of_fmap| ->%list_elem_of_singleton]; [|by apply Hl].
    destruct (Hpre name' l2 Hin) as (m' & leaf & Hg' & Hu). cbn [snd] in Hg. rewrite Hg in Hg'. injection Hg' as <-.
    by apply acc_settles, (unfolds_acc _ leaf). }
  exists (S k). intros [|fuel] Hf root current; [lia|]. cbn [buildGraph]. rewrite bool_decide_false by done.
  intros (pre' & l' & post' & m & Hls' & Hg & Hb & Hbefore)%each_link_none. rewrite Hls in Hls'.
  destruct (places _ _ _ _ _ _ Hls') as [Hin|[->|Hin]].
  - refine (Hk l' fuel m _ ltac:(lia) Hg _ _ Hb). apply elem_of_app; by left.
  - refine (Hk l fuel m _ ltac:(lia) Hg _ _ Hb). apply elem_of_app; right; by left.
  - destruct (Hbefore l Hin) as (m' & leaf & Hg' & Hb2). destruct (Hl m' Hg') as [_ Hbr].
    pose proof (buildGraph_sound fuel m' None (u64 (current + 1)) I (getter_named _ _ Hg')) as Hv. rewrite Hb2 in Hv.
    by apply (unfolds_not_broken _ _ _ Hv) in Hbr.
Qed.

Lemma broken_settles n : broken None n → settles n.
Proof.
  intros Hb. remember None as d eqn:Hd. revert Hd.
  induction Hb as [d n pre name l post e _ Hes Hpre Hg|d n pre name l post m _ Hes Hpre Hg Hb IH]; intros ->;
    (eapply stop_settles; [done..|]); intros m' Hg'; [congruence|].
  rewrite Hg in Hg'. injection Hg' as <-. split; [by apply IH|done].
Qed.

(** A node all of whose links name the node itself. *)
Lemma loop_not_broken n : (∀ name l, links_ n !! name = Some l → nodeGetter (link_cid l) = returned n) → ∀ d, ¬ broken d n.
Proof.
  intros Hl d Hb. induction Hb as [d n pre name l post e _ Hes _ Hg|d n pre name l post m _ Hes _ Hg _ IH];
    apply entry_lookup in Hes; rewrite (Hl _ _ Hes) in Hg; [done|]. injection Hg as <-. by apply IH.
Qed.

Lemma loop_not_acc n : linked n n → ¬ Acc linked n.
Proof. intros Hn Ha. induction Ha as [n _ IH]. by apply (IH n). Qed.

(** What the recursion gives when it ends. *)
Lemma settles_verdict n : settles n → names_ok n → ∃ k, ∀ fuel, (k ≤ fuel)%nat → ∃ r,
  buildGraph nodeGetter fuel (mkLeaf (content_ n) ∅) (getLinks n) None 0 = Some r ∧ verdict None True n (Some r).
Proof.
  intros [k Hk] Hn. exists k. intros fuel Hf. specialize (Hk fuel Hf (mkLeaf (content_ n) ∅) 0).
  pose proof (buildGraph_sound fuel n None 0 I Hn) as Hv. destruct (buildGraph _ _ _ _ _ _) as [r|]; [|done]. by exists r.
Qed.

End unfolding.

(** ** The service over a store that keeps its promises *)

Section service_laws.
Context {M D : Type} `{!Multiformats M, !MultiformatsLaws M, !NodeProtobuf, !NodeProtobufLaws}.
Context `{!IpfsDatastore M D, !DatastoreLaws M D}.
Context (toBuffer : M → bytes).
Hypothesis toBuffer_spec : ∀ a, toBuffer a = mh_head a ++ getHash a.
Implicit Types (n : IPLDNodeImpl M) (s : D).

Lemma dag_outcome_returns {E A} (inj : E → DagError) (o : outcome E A) : dag_outcome inj o ≠ thrown.
Proof. by destruct o. Qed.

Lemma getNode_returns c s : getNode c s ≠ thrown.
Proof.
  unfold getNode. pose proof (get_returns c s) as Hg. destruct (ds_get c s); cbn; [apply dag_outcome_returns|done|done].
Qed.

Lemma add_links_named ls : ∀ n n', names_ok n → add_links (M:=M) ls n = success n' → names_ok n'.
Proof.
  induction ls as [|l ls IH]; intros n n' Hn; cbn [add_links]; [by intros [= <-]|].
  destruct (fromBytes (pb_hash l)) as [cid|e]; [|done]. apply IH. unfold names_ok, addLink. cbn [links_]. by apply emplace_names.
Qed.

Lemma add_destinations_links ds : ∀ n, links_ (foldl (λ n d, addDestination d n) n ds) = links_ n.
Proof. induction ds as [|d ds IH]; intros n; cbn [foldl]; [done|]. by rewrite IH. Qed.

Lemma getNode_named c s n : getNode c s = returned n → names_ok n.
Proof.
  unfold getNode. destruct (ds_get c s) as [b|e|]; [|done|done]. cbn [dag_attempt mbind attempt_bind].
  unfold createFromRawBytes. destruct (parse_node b) as [p|]; [|done].
  destruct (add_links _ _) as [n0|e] eqn:Ha; [|done]. cbn [mbind outcome_bind dag_outcome]. intros [= <-].
  intros name l. rewrite add_destinations_links. revert name l. eapply add_links_named; [|exact Ha]. by intros ? ?.
Qed.

Lemma add_links_uncached ls : ∀ n n', ipld_block_ n = None → add_links (M:=M) ls n = success n' → ipld_block_ n' = None.
Proof.
  induction ls as [|l ls IH]; intros n n' Hn; cbn [add_links]; [by intros [= <-]|].
  destruct (fromBytes (pb_hash l)) as [cid|e]; [|done]. by apply IH.
Qed.

(** A node fresh from the store has no cached block. *)
Lemma getNode_uncached c s n : getNode c s = returned n → ipld_block_ n = None.
Proof.
  unfold getNode. destruct (ds_get c s) as [b|e|]; [|done|done]. cbn [dag_attempt mbind attempt_bind].
  unfold createFromRawBytes. destruct (parse_node b) as [p|]; [|done].
  destruct (add_links _ _) as [n0|e] eqn:Ha; [|done]. cbn [mbind outcome_bind dag_outcome]. intros [= <-].
  rewrite add_destinations; [done|]. by eapply add_links_uncached; [|exact Ha].
Qed.

Lemma getNode_wf c s n : getNode c s = returned n → node_wf toBuffer n.
Proof.
  intros Hg. split; [by rewrite (getNode_uncached _ _ _ Hg)|]. by apply (getNode_named c s).
Qed.

Lemma resolve_links_nodes links s nodes m : resolve_links links s = returned nodes → m ∈ nodes → ∃ c, getNode c s = returned m.
Proof.
  revert nodes. induction links as [|l links IH]; intros nodes; cbn [resolve_links]; [intros [= <-]; by intros ?%elem_of_nil|].
  destruct (getNode (link_cid l) s) as [m0|e|] eqn:Hg; [|done|done].
  destruct (resolve_links links s) as [ms|e|]; [|done|done]. cbn [mbind attempt_bind]. intros [= <-] [->|Hin]%elem_of_cons.
  - by exists (link_cid l).
  - by apply (IH ms).
Qed.

Lemma selected_nodes_resolved b selector s nodes :
  selected_nodes b selector s = returned nodes → nodes ≠ [] ∧ ∀ m, m ∈ nodes → ∃ c, getNode c s = returned m.
Proof.
  unfold selected_nodes. destruct (fromBytes b) as [c|e]; [|done]. cbn [dag_outcome mbind attempt_bind].
  destruct (getNode c s) as [root|e|] eqn:Hg; [|done|done]. cbn [mbind attempt_bind].
  destruct (resolve_links _ s) as [ms|e|] eqn:Hr; [|done|done]. cbn [mbind attempt_bind]. intros [= <-]. split; [done|].
  intros m [->|Hin]%elem_of_cons; [by exists c|]. by apply (resolve_links_nodes _ _ _ _ Hr).
Qed.

Lemma resolve_links_ok links s (get : IPLDLink M → IPLDNodeImpl M) :
  (∀ l, l ∈ links → getNode (link_cid l) s = returned (get l)) → resolve_links links s = returned (get <$> links).
Proof.
  induction links as [|l links IH]; intros Hl; [done|]. cbn [resolve_links]. rewrite Hl by (by left).
  rewrite IH by (intros; apply Hl; by right). done.
Qed.


(** C28: what [fetchGraph] and [fetchGraphOnDepth] fetch from a store.  Both fail as
    [getNode] does when the root has no node.  With a depth limit the recursion ends
    after at most that many levels: it gives the leaf of the root unfolded to that
    depth, one sub-leaf per link under the link's name, or [UNRESOLVED_LINK] when,
    depth first in the order of the names, it reaches a link that cannot be resolved,
    and nothing else ([DUPLICATE_LEAF] cannot happen).  Without a limit, too, it gives
    nothing else: it ends with the unfolding exactly when there is one, and with
    [UNRESOLVED_LINK] exactly when it reaches a broken link; it ends on every graph
    without an infinite path, and on a graph that has one (a cycle) it never ends
    unless it reaches a broken link first. *)
Theorem fetch_graph_spec cid s : let getter := λ c, getNode c s in
  match getNode cid s with
  | thrown => False
  | failed e => ∀ fuel, fetchGraph fuel cid s = Some (failed e) ∧ ∀ depth, fetchGraphOnDepth fuel cid depth s = Some (failed e)
  | returned root =>
      (∀ depth fuel, 0 ≤ depth < 2 ^ 64 → depth ≤ Z.of_nat fuel →
         ∃ r, fetchGraphOnDepth fuel cid depth s = Some r ∧
           match r with
           | returned leaf => unfolds getter (Some depth) root leaf
           | failed e => e = UNRESOLVED_LINK ∧ broken getter (Some depth) root
           | thrown => False
           end) ∧
      (∀ fuel, match fetchGraph fuel cid s with
         | Some (returned leaf) => unfolds getter None root leaf
         | Some (failed e) => e = UNRESOLVED_LINK ∧ broken getter None root
         | Some thrown => False
         | None => True
         end) ∧
      (∀ leaf, unfolds getter None root leaf →
         ∃ k, ∀ fuel, (k ≤ fuel)%nat → fetchGraph fuel cid s = Some (returned leaf)) ∧
      (broken getter None root → ∃ k, ∀ fuel, (k ≤ fuel)%nat → fetchGraph fuel cid s = Some (failed UNRESOLVED_LINK)) ∧
      (Acc (linked getter) root → ∃ k, ∀ fuel, (k ≤ fuel)%nat → fetchGraph fuel cid s ≠ None) ∧
      (¬ Acc (linked getter) root → ¬ broken getter None root → ∀ fuel, fetchGraph fuel cid s = None)
  end.
Proof.
  cbv zeta. unfold fetchGraphOnDepth, fetchGraph, fetchGraphOnDepth_with. destruct (getNode cid s) as [root|e|] eqn:Hroot; [|done|by apply getNode_returns in Hroot].
  pose proof (getNode_named _ _ _ Hroot) as Hn.
  assert (∀ c m, getNode c s = returned m → names_ok m) as Hnamed by (intros; by eapply getNode_named).
  assert (∀ c, getNode c s ≠ thrown) as Htotal by (intros; apply getNode_returns).
  pose proof (λ fuel, buildGraph_sound _ Htotal Hnamed fuel root None 0 I Hn) as Hsound.
  pose proof (λ H, settles_verdict _ Htotal Hnamed root H Hn) as Hends. split_and!.
  - intros depth fuel Hd Hf. pose proof (buildGraph_sound _ Htotal Hnamed fuel root (Some depth) 0) as Hv.
    cbn in Hv. rewrite Z.sub_0_r in Hv. specialize (Hv ltac:(lia) Hn).
    destruct (buildGraph _ _ _ _ _ _) as [r|]; cbn [verdict] in Hv; [|lia]. exists r. split; [done|]. by destruct r.
  - intros fuel. exact (Hsound fuel).
  - intros leaf Hu. destruct (Hends (acc_settles _ _ (unfolds_acc _ _ _ Hu))) as [k Hk]. exists k. intros fuel Hf.
    destruct (Hk fuel Hf) as (r & -> & Hv). destruct r as [leaf'|e|]; [|by destruct Hv as [_ Hb%(unfolds_not_broken _ _ _ _ Hu)]|done].
    by rewrite (unfolds_det _ _ _ _ Hu _ Hv).
  - intros Hb. destruct (Hends (broken_settles _ Htotal Hnamed _ Hb)) as [k Hk]. exists k. intros fuel Hf.
    destruct (Hk fuel Hf) as (r & -> & Hv). destruct r as [leaf|e|]; [by apply unfolds_not_broken in Hv|by destruct Hv as [-> _]|done].
  - intros Ha. destruct (Hends (acc_settles _ _ Ha)) as [k Hk]. exists k. intros fuel Hf. by destruct (Hk fuel Hf) as (r & -> & _).
  - intros Ha Hb fuel. specialize (Hsound fuel). destruct (buildGraph _ _ _ _ _ _) as [[leaf|e|]|]; [|by destruct Hsound|done..].
    by apply unfolds_acc in Hsound.
Qed.


End service_laws.

(** ** A concrete store *)

Module SampleDag.

Abbreviation store := (InMemoryDatastore Sample.Multihash).

Definition ok_or {E A} (d : A) (r : attempt E A) : A := match r with returned x => x | _ => d end.

(** A parent whose link [c] is a stored node. *)
Definition child : IPLDNodeImpl Sample.Multihash := SampleNode.child.
Definition parent : IPLDNodeImpl Sample.Multihash :=
  (ok_or (new_node, child) (addChild SampleNode.mh_buffer [99] child new_node)).1.
Definition cid_of (n : IPLDNodeImpl Sample.Multihash) : CID Sample.Multihash :=
  (ok_or (Sample.cid_v1 0, n) (getCID SampleNode.mh_buffer n)).1.
Definition add (n : IPLDNodeImpl Sample.Multihash) (s : store) : store := (addNode SampleNode.mh_buffer n s).2.
Definition stored : store := add parent (add child (mkInMemory ∅ ∅)).
Definition root : IPLDNodeImpl Sample.Multihash := ok_or new_node (getNode (cid_of parent) stored).

(** A node stored under the CID its link names: a cycle. *)
Definition loop_node : IPLDNodeImpl Sample.Multihash := addLink (mkIPLDLink (cid_of child) [99] 1) new_node.
Definition looped : store :=
  (ds_set (cid_of child) (ok_or ([], loop_node) (getRawBytes SampleNode.mh_buffer loop_node)).1 (mkInMemory ∅ ∅)).2.
Definition loop_root : IPLDNodeImpl Sample.Multihash := ok_or new_node (getNode (cid_of child) looped).

End SampleDag.

(** A whole graph to depth 1 and without a limit, and a cycle. *)
Lemma fetch_graph_spec_witness :
  (∃ leaf, fetchGraphOnDepth 1 (SampleDag.cid_of SampleDag.parent) 1 SampleDag.stored = Some (returned leaf) ∧
    unfolds (λ c, getNode c SampleDag.stored) (Some 1) SampleDag.root leaf ∧
    fetchGraph 1 (SampleDag.cid_of SampleDag.parent) SampleDag.stored = Some (returned leaf) ∧
    unfolds (λ c, getNode c SampleDag.stored) None SampleDag.root leaf ∧
    (leaf_content <$> leaf_children leaf !! [99]) = Some [7]) ∧
  (∀ fuel, fetchGraph fuel (SampleDag.cid_of SampleDag.child) SampleDag.looped = None).
Proof.
  split.
  - assert (getNode (SampleDag.cid_of SampleDag.parent) SampleDag.stored = returned SampleDag.root) as Hroot
      by (vm_compute; reflexivity).
    pose proof (fetch_graph_spec (SampleDag.cid_of SampleDag.parent) SampleDag.stored) as H. cbv zeta in H. rewrite Hroot in H.
    destruct H as (Hd & Hf & _). destruct (Hd 1 1%nat) as (r & Hr & Hv); [lia|lia|]. specialize (Hf 1%nat).
    assert (fetchGraph 1 (SampleDag.cid_of SampleDag.parent) SampleDag.stored =
      fetchGraphOnDepth 1 (SampleDag.cid_of SampleDag.parent) 1 SampleDag.stored) as Heq by (vm_compute; reflexivity).
    rewrite Heq, Hr in *. clear Heq. vm_compute in Hr. injection Hr as <-.
    eexists. split; [reflexivity|]. split; [exact Hv|]. split; [reflexivity|]. split; [exact Hf|]. reflexivity.
  - assert (getNode (SampleDag.cid_of SampleDag.child) SampleDag.looped = returned SampleDag.loop_root) as Hroot
      by (vm_compute; reflexivity).
    pose proof (fetch_graph_spec (SampleDag.cid_of SampleDag.child) SampleDag.looped) as H. cbv zeta in H. rewrite Hroot in H.
    assert (links_ SampleDag.loop_root = {[ [99] := mkIPLDLink (SampleDag.cid_of SampleDag.child) [99] 1 ]}) as Hlinks
      by (vm_compute; reflexivity).
    destruct H as (_ & _ & _ & _ & _ & H). apply H.
    + apply loop_not_acc. exists [99], (mkIPLDLink (SampleDag.cid_of SampleDag.child) [99] 1).
      split; [rewrite Hlinks; apply lookup_singleton_eq|exact Hroot].
    + apply loop_not_broken. intros name l. rewrite Hlinks. intros [_ <-]%lookup_singleton_Some. exact Hroot.
Defined.

