(* ===== verification/Cbor.v ===== *)
(** CBOR written: [src/codec/cbor] ([cbor_encode_stream.*], [cbor.hpp],
    [cbor_errors.hpp]), against the data model of RFC 8949.

    The heads are written by tinycbor's encoder: [TinyCborEncoder] has its
    functions and [TinyCborEncoderLaws] says that they write the shortest head of
    the RFC. *)
From stdpp Require Import base numbers countable list gmap strings sorting.
From S2P Require Import Prelude Bytes Cid.

Open Scope Z_scope.

(** ** RFC 8949: the items this codec writes *)

Inductive item :=
| cUint (n : Z)
| cNint (n : Z)                      (* -1 - n *)
| cBytes (b : bytes)
| cText (b : bytes)
| cArray (l : list item)
| cMap (l : list (bytes * item))     (* the keys are text *)
| cTag (t : Z) (x : item)
| cBool (b : bool)
| cNull.

(** The shortest head of a major type and an argument. *)
Definition head (major n : Z) : bytes :=
  if n <? 24 then [major * 32 + n]
  else if n <? 2 ^ 8 then (major * 32 + 24) :: Integers.be_bytes 1 n
  else if n <? 2 ^ 16 then (major * 32 + 25) :: Integers.be_bytes 2 n
  else if n <? 2 ^ 32 then (major * 32 + 26) :: Integers.be_bytes 4 n
  else (major * 32 + 27) :: Integers.be_bytes 8 n.

Fixpoint encode_item (x : item) : bytes :=
  match x with
  | cUint n => head 0 n
  | cNint n => head 1 n
  | cBytes b => head 2 (size b) ++ b
  | cText b => head 3 (size b) ++ b
  | cArray l => head 4 (size l) ++ flat_map encode_item l
  | cMap l => head 5 (size l) ++ flat_map (λ p, (head 3 (size p.1) ++ p.1) ++ encode_item p.2) l
  | cTag t x => head 6 t ++ encode_item x
  | cBool b => [0xF4 + Z.b2z b]
  | cNull => [0xF6]
  end.

Definition encode_items (l : list item) : bytes := flat_map encode_item l.
Definition encode_key (k : bytes) : bytes := head 3 (size k) ++ k.

(** ** [cbor_errors.hpp] *)

Inductive CborEncodeError := INVALID_CID_ | EXPECTED_MAP_VALUE_SINGLE.
Inductive CborDecodeError := INVALID_CBOR | WRONG_TYPE | INT_OVERFLOW | INVALID_CBOR_CID | INVALID_CID | WRONG_SIZE.

#[export] Instance CborEncodeError_eq_dec : EqDecision CborEncodeError.
Proof. solve_decision. Defined.
#[export] Instance CborDecodeError_eq_dec : EqDecision CborDecodeError.
Proof. solve_decision. Defined.

Definition CborEncodeError_code (e : CborEncodeError) : Z :=
  match e with INVALID_CID_ => 1 | EXPECTED_MAP_VALUE_SINGLE => 2 end.
Definition CborDecodeError_code (e : CborDecodeError) : Z :=
  match e with
  | INVALID_CBOR => 1 | WRONG_TYPE => 2 | INT_OVERFLOW => 3 | INVALID_CBOR_CID => 4 | INVALID_CID => 5 | WRONG_SIZE => 6
  end.

(** [cbor_common.hpp]. *)
Definition kCidTag : Z := 42.

(** ** tinycbor's encoder: the bytes a call writes *)

Class TinyCborEncoder := {
  cbor_encode_boolean : bool → bytes;
  cbor_encode_uint : Z → bytes;
  cbor_encode_int : Z → bytes;
  cbor_encode_byte_string : bytes → bytes;
  cbor_encode_text_string : bytes → bytes;
  cbor_encode_tag : Z → bytes;
  cbor_encode_null : bytes;
  cbor_encoder_create_array : Z → bytes;
  cbor_encoder_create_map : Z → bytes
}.

Definition int_item (n : Z) : item := if n <? 0 then cNint (-1 - n) else cUint n.

(** Its documentation: a function writes its value as the RFC has it, with the
    shortest head. *)
Class TinyCborEncoderLaws `{TinyCborEncoder} : Prop := {
  boolean_written b : cbor_encode_boolean b = encode_item (cBool b);
  uint_written n : 0 ≤ n < 2 ^ 64 → cbor_encode_uint n = encode_item (cUint n);
  int_written n : - 2 ^ 63 ≤ n < 2 ^ 63 → cbor_encode_int n = encode_item (int_item n);
  byte_string_written b : size b < 2 ^ 64 → cbor_encode_byte_string b = encode_item (cBytes b);
  text_string_written b : size b < 2 ^ 64 → cbor_encode_text_string b = encode_item (cText b);
  tag_written t : 0 ≤ t < 2 ^ 64 → cbor_encode_tag t = head 6 t;
  null_written : cbor_encode_null = encode_item cNull;
  array_written n : 0 ≤ n < 2 ^ 64 → cbor_encoder_create_array n = head 4 n;
  map_written n : 0 ≤ n < 2 ^ 64 → cbor_encoder_create_map n = head 5 n
}.

(** The bytes of a call into a buffer of [capacity] bytes, up to
    [cbor_encoder_get_buffer_size]; past the end they make no sense. *)
Definition encoded (capacity : Z) (written : bytes) : attempt CborEncodeError bytes :=
  if size written <=? capacity then returned written else thrown.

(** ** [CborEncodeStream] *)

Record CborEncodeStream := mkEncodeStream {
  is_list_ : bool;
  data_ : bytes;
  count_ : Z
}.

Definition new_CborEncodeStream : CborEncodeStream := mkEncodeStream false [] 0.
Definition list_stream : CborEncodeStream := mkEncodeStream true [] 0.
Definition map_stream : gmap bytes CborEncodeStream := ∅.
Definition wrap_stream (data : bytes) (count : Z) : CborEncodeStream := mkEncodeStream false data count.

(** An [operator<<]: what it gives or raises, and the stream it leaves. *)
Definition encoder A : Type := CborEncodeStream → attempt CborEncodeError A * CborEncodeStream.

#[export] Instance encoder_ret : MRet encoder := λ A a s, (returned a, s).
#[export] Instance encoder_bind : MBind encoder := λ A B f c s,
  match c s with
  | (returned a, s) => f a s
  | (failed e, s) => (failed e, s)
  | (thrown, s) => (thrown, s)
  end.

Definition raise {A} (e : CborEncodeError) : encoder A := λ s, (failed e, s).
Definition attempted {A} (a : attempt CborEncodeError A) : encoder A := λ s, (a, s).
Definition addCount (count : Z) : encoder () := λ s,
  (returned tt, mkEncodeStream (is_list_ s) (data_ s) (u64 (count_ s + count))).
Definition insert (bs : bytes) : encoder () := λ s,
  (returned tt, mkEncodeStream (is_list_ s) (data_ s ++ bs) (count_ s)).

(** A call on another stream: the stream it leaves. *)
Definition on (s : CborEncodeStream) (c : encoder ()) : attempt CborEncodeError CborEncodeStream :=
  match c s with (returned _, s) => returned s | (failed e, _) => failed e | (thrown, _) => thrown end.

(** [LessCborKey]. *)
Definition LessCborKey (lhs rhs : bytes) : bool :=
  let diff := swrap 64 (size lhs - size rhs) in
  if negb (diff =? 0) then diff <? 0 else bytes_less lhs rhs.

(** [std::map::insert] under an order: a key that is there stays. *)
Fixpoint map_insert {A} (less : bytes → bytes → bool) (k : bytes) (x : A) (l : list (bytes * A)) : list (bytes * A) :=
  match l with
  | [] => [(k, x)]
  | (k', x') :: l =>
    if less k k' then (k, x) :: (k', x') :: l
    else if less k' k then (k', x') :: map_insert less k x l
    else (k', x') :: l
  end.

Section encode.
Context {M : Type} `{!Multiformats M, !TinyCborEncoder}.

(** The template for integers: [bool], unsigned and signed types. *)
Definition put_bool (num : bool) : encoder () :=
  _ ← addCount 1; bs ← attempted (encoded 9 (cbor_encode_boolean num)); insert bs.
Definition put_unsigned (num : Z) : encoder () :=
  _ ← addCount 1; bs ← attempted (encoded 9 (cbor_encode_uint num)); insert bs.
Definition put_signed (num : Z) : encoder () :=
  _ ← addCount 1; bs ← attempted (encoded 9 (cbor_encode_int num)); insert bs.

(** An enumeration is its underlying integer. *)
Definition put_enum {T} (to_int : T → Z) (is_unsigned : bool) (num : T) : encoder () :=
  if is_unsigned then put_unsigned (to_int num) else put_signed (to_int num).

Definition put_bytes (b : bytes) : encoder () :=
  _ ← addCount 1; bs ← attempted (encoded (9 + size b) (cbor_encode_byte_string b)); insert bs.
Definition put_string (str : bytes) : encoder () :=
  _ ← addCount 1; bs ← attempted (encoded (9 + size str) (cbor_encode_text_string str)); insert bs.

Definition put_cid (cid : CID M) : encoder () :=
  match toBytes cid with
  | failure _ => raise INVALID_CID_
  | success cid_bytes =>
    bs ← attempted (encoded 9 (cbor_encode_tag kCidTag));
    _ ← insert bs;
    put_bytes (0 :: cid_bytes)
  end.

Definition put_null : encoder () :=
  _ ← addCount 1; bs ← attempted (encoded 1 cbor_encode_null); insert bs.

Definition put_optional {T} (put : T → encoder ()) (optional : option T) : encoder () :=
  match optional with Some x => put x | None => put_null end.

(** [data]: a list is written when it is taken out. *)
Definition data (s : CborEncodeStream) : attempt CborEncodeError bytes :=
  if negb (is_list_ s) then returned (data_ s)
  else prefix ← encoded 9 (cbor_encoder_create_array (count_ s)); returned (prefix ++ data_ s).

Definition put_stream (other : CborEncodeStream) : encoder () :=
  _ ← addCount (if is_list_ other then 1 else count_ other);
  other_data ← attempted (data other);
  insert other_data.

Fixpoint put_each {T} (put : T → encoder ()) (values : list T) : encoder () :=
  match values with [] => mret tt | x :: values => _ ← put x; put_each put values end.

(** Spans, vectors and arrays. *)
Definition put_span {T} (put : T → encoder ()) (values : list T) : encoder () :=
  l ← attempted (on list_stream (put_each put values));
  put_stream l.

(** The loop over [map]: each key and value encoded into [sorted]. *)
Fixpoint sort_map (map : list (bytes * CborEncodeStream)) (sorted : list (bytes * bytes)) :
    attempt CborEncodeError (list (bytes * bytes)) :=
  match map with
  | [] => returned sorted
  | (first, second) :: map =>
    if negb (count_ second =? 1) then failed EXPECTED_MAP_VALUE_SINGLE
    else
      k ← on new_CborEncodeStream (put_string first);
      key ← data k;
      value ← data second;
      sort_map map (map_insert LessCborKey key value sorted)
  end.

Definition put_map (map : gmap bytes CborEncodeStream) : encoder () :=
  _ ← addCount 1;
  prefix ← attempted (encoded 9 (cbor_encoder_create_map (Z.of_nat (base.size map))));
  _ ← insert prefix;
  sorted ← attempted (sort_map (map_entries map) []);
  insert (flat_map (λ p, p.1 ++ p.2) sorted).

(** [m[key] << x]: the stream at [key], a new one if there is none, with [x]. *)
Definition at_key (key : bytes) (c : encoder ()) (m : gmap bytes CborEncodeStream) :
    attempt CborEncodeError (gmap bytes CborEncodeStream) :=
  s ← on (default new_CborEncodeStream (m !! key)) c; returned (<[key := s]> m).

Fixpoint put_entries {T} (put : T → encoder ()) (items : list (bytes * T)) (m : gmap bytes CborEncodeStream) :
    attempt CborEncodeError (gmap bytes CborEncodeStream) :=
  match items with
  | [] => returned m
  | (key, x) :: items => m ← at_key key (put x) m; put_entries put items m
  end.

(** A map of encodable values. *)
Definition put_items {T} (put : T → encoder ()) (items : gmap bytes T) : encoder () :=
  m ← attempted (put_entries put (map_entries items) map_stream);
  put_map m.

(** [cbor::encode]. *)
Definition encode (put : encoder ()) : attempt CborEncodeError Buffer.Buffer :=
  s ← on new_CborEncodeStream put;
  bs ← data s;
  returned (Buffer.mkBuffer bs).

End encode.

(** * Items *)

Lemma head_size major n : 0 ≤ n → 1 ≤ size (head major n) ≤ 9.
Proof. intros Hn. unfold head. repeat case_match; unfold size; cbn; lia. Qed.

Lemma head_mono major n m : 0 ≤ n ≤ m → size (head major n) ≤ size (head major m).
Proof.
  intros Hn. unfold head.
  destruct (Z.ltb_spec n 24), (Z.ltb_spec m 24); try lia; destruct (Z.ltb_spec n (2 ^ 8)), (Z.ltb_spec m (2 ^ 8)); try lia;
    destruct (Z.ltb_spec n (2 ^ 16)), (Z.ltb_spec m (2 ^ 16)); try lia; destruct (Z.ltb_spec n (2 ^ 32)), (Z.ltb_spec m (2 ^ 32)); try lia;
    unfold size; cbn; lia.
Qed.

Lemma encode_items_app l k : encode_items (l ++ k) = encode_items l ++ encode_items k.
Proof. apply flat_map_app. Qed.

Lemma encode_items_one x : encode_items [x] = encode_item x.
Proof. apply app_nil_r. Qed.

(** Induction over items, with the items of arrays and maps. *)
Lemma item_ind' (P : item → Prop) :
  (∀ n, P (cUint n)) → (∀ n, P (cNint n)) → (∀ b, P (cBytes b)) → (∀ b, P (cText b)) →
  (∀ l, Forall P l → P (cArray l)) → (∀ l, Forall (λ p, P p.2) l → P (cMap l)) →
  (∀ t x, P x → P (cTag t x)) → (∀ b, P (cBool b)) → P cNull → ∀ x, P x.
Proof.
  intros H1 H2 H3 H4 HA HM HT HB HN. fix IH 1. intros [n|n|b|b|l|l|t x|b|]; [done..| | | |done|done].
  - apply HA. induction l; constructor; [apply IH|done].
  - apply HM. induction l; constructor; [apply IH|done].
  - apply HT, IH.
Qed.

Lemma encode_item_size x : 1 ≤ size (encode_item x).
Proof.
  destruct x as [n|n|b|b|l|l|t x|b|]; cbn [encode_item]; try (rewrite size_app; pose proof (size_nonneg (A:=Z)));
    try (assert (∀ major n, 1 ≤ size (head major n)) as Hh by (intros; unfold head; repeat case_match; unfold size; cbn; lia)).
  - apply Hh.
  - apply Hh.
  - pose proof (Hh 2 (size b)). pose proof (H b). lia.
  - pose proof (Hh 3 (size b)). pose proof (H b). lia.
  - pose proof (Hh 4 (size l)). pose proof (H (flat_map encode_item l)). lia.
  - pose proof (Hh 5 (size l)). match goal with |- _ ≤ _ + size ?r => pose proof (H r) end. lia.
  - pose proof (Hh 6 t). pose proof (H (encode_item x)). lia.
  - cbn. unfold size. cbn. lia.
  - cbn. unfold size. cbn. lia.
Qed.

Lemma encode_items_size l : size l ≤ size (encode_items l).
Proof.
  induction l as [|x l IH]; [done|]. unfold encode_items in *. cbn [flat_map]. rewrite size_cons, size_app.
  pose proof (encode_item_size x). lia.
Qed.

(** ** The canonical order of keys: shorter first, then bytewise *)

Definition key_less (a b : bytes) : bool := (size a <? size b) || ((size a =? size b) && bytes_less a b).
Definition key_lt (a b : bytes) : Prop := key_less a b = true.

(** [LessCborKey] on encoded keys is this order on the keys. *)
Lemma LessCborKey_keys a b : size a < 2 ^ 62 → size b < 2 ^ 62 → LessCborKey (encode_key a) (encode_key b) = key_less a b.
Proof.
  intros Ha Hb. unfold LessCborKey, key_less, encode_key. rewrite !size_app.
  pose proof (size_nonneg a). pose proof (size_nonneg b).
  pose proof (head_size 3 (size a)). pose proof (head_size 3 (size b)).
  set (d := size (head 3 (size a)) + size a - (size (head 3 (size b)) + size b)).
  assert (swrap 64 d = d) as Hd.
  { unfold swrap. rewrite Z.mod_small; unfold d; lia. }
  cbv zeta. rewrite Hd. destruct (Z.lt_trichotomy (size a) (size b)) as [Hlt|[Heq|Hgt]].
  - pose proof (head_mono 3 (size a) (size b)). destruct (Z.eqb_spec d 0); [unfold d in *; lia|]. cbn [negb].
    rewrite (proj2 (Z.ltb_lt (size a) (size b)) Hlt). apply Z.ltb_lt. unfold d. lia.
  - unfold d. rewrite Heq, Z.sub_diag. cbn [negb Z.eqb]. rewrite Z.ltb_irrefl, Z.eqb_refl. apply bytes_less_app.
  - pose proof (head_mono 3 (size b) (size a)). destruct (Z.eqb_spec d 0); [unfold d in *; lia|]. cbn [negb].
    rewrite (proj2 (Z.ltb_ge (size a) (size b))) by lia. rewrite (proj2 (Z.eqb_neq (size a) (size b))) by lia.
    apply Z.ltb_ge. unfold d. lia.
Qed.

#[export] Instance key_lt_trans : Transitive key_lt.
Proof.
  intros a b c. unfold key_lt, key_less. rewrite !orb_true_iff, !andb_true_iff, !Z.ltb_lt, !Z.eqb_eq.
  intros [?|[? H1]] [?|[? H2]]; [left; lia|left; lia|left; lia|]. right. split; [lia|by apply (bytes_less_trans a b)].
Qed.

Lemma key_lt_irrefl a : ¬ key_lt a a.
Proof. unfold key_lt, key_less. rewrite Z.ltb_irrefl, bytes_less_irrefl, andb_false_r. done. Qed.

Lemma key_lt_total a b : a ≠ b → ¬ key_lt a b → key_lt b a.
Proof.
  unfold key_lt, key_less. intros Hne. rewrite !orb_true_iff, !andb_true_iff, !Z.ltb_lt, !Z.eqb_eq. intros Hn.
  destruct (Z.lt_trichotomy (size a) (size b)) as [?|[?|?]]; [naive_solver| |by left]. right. split; [done|].
  apply bytes_less_total; [done|]. destruct (bytes_less a b); naive_solver.
Qed.

(** Keys in strictly increasing order. *)
Definition canonical {A} (l : list (bytes * A)) : Prop := StronglySorted (λ p q, key_lt p.1 q.1) l.

Lemma canonical_NoDup {A} (l : list (bytes * A)) : canonical l → NoDup l.*1.
Proof.
  induction 1 as [|p l _ IH HF]; constructor; [|done]. intros (q & Heq & Hq)%list_elem_of_fmap.
  rewrite Forall_forall in HF. apply (key_lt_irrefl p.1). rewrite Heq at 2. by apply HF.
Qed.

(** Insertion into a [std::map] under this order. *)
Lemma map_insert_spec {A} k (x : A) l : canonical l → k ∉ l.*1 →
  canonical (map_insert key_less k x l) ∧ map_insert key_less k x l ≡ₚ (k, x) :: l.
Proof.
  induction l as [|[k' x'] l IH]; intros Hc Hk; cbn [map_insert]; [split; [by repeat constructor|done]|].
  apply StronglySorted_inv in Hc as Hc'. destruct Hc' as [Hl HF]. rewrite fmap_cons in Hk. apply not_elem_of_cons in Hk as [Hne Hk].
  destruct (key_less k k') eqn:Hlt.
  - split; [|done]. constructor; [done|]. constructor; [exact Hlt|]. eapply Forall_impl; [exact HF|]. cbn. intros p Hp.
    by transitivity k'.
  - assert (key_less k' k = true) as Hgt by (apply key_lt_total; [done|unfold key_lt; by rewrite Hlt]).
    rewrite Hgt. destruct (IH Hl Hk) as [Hs Hp]. split.
    + constructor; [done|]. rewrite Hp. by constructor.
    + rewrite Hp. apply Permutation_swap.
Qed.

(** A map in canonical order. *)
Definition canonical_entries {A} (m : gmap bytes A) : list (bytes * A) :=
  foldl (λ l p, map_insert key_less p.1 p.2 l) [] (map_entries m).

Lemma fold_insert_spec {A} (l acc : list (bytes * A)) : canonical acc → NoDup (acc.*1 ++ l.*1) →
  let r := foldl (λ l p, map_insert key_less p.1 p.2 l) acc l in canonical r ∧ r ≡ₚ acc ++ l.
Proof.
  revert acc. induction l as [|[k x] l IH]; intros acc Hc Hnd; cbn [foldl]; [by rewrite app_nil_r|].
  rewrite fmap_cons in Hnd. cbn [fst snd] in *.
  assert (k ∉ acc.*1) as Hk. { apply NoDup_app in Hnd as (_ & Hd & _). intros Hin. apply (Hd k Hin). left. }
  destruct (map_insert_spec k x acc Hc Hk) as [Hs Hp]. destruct (IH (map_insert key_less k x acc) Hs) as [H1 H2].
  - rewrite Hp. cbn. by rewrite (Permutation_middle acc.*1 l.*1 k).
  - split; [done|]. rewrite H2, Hp. by rewrite <- Permutation_middle.
Qed.

Lemma canonical_entries_spec {A} (m : gmap bytes A) : canonical (canonical_entries m) ∧ canonical_entries m ≡ₚ map_to_list m.
Proof.
  destruct (fold_insert_spec (map_entries m) []) as [H1 H2]; [constructor| |].
  - cbn. rewrite map_entries_perm. apply NoDup_fst_map_to_list.
  - split; [done|]. by rewrite H2, map_entries_perm.
Qed.

Lemma map_insert_fmap {A B} (f : A → B) less k x (l : list (bytes * A)) :
  map_insert less k (f x) (prod_map id f <$> l) = prod_map id f <$> map_insert less k x l.
Proof.
  induction l as [|[k' x'] l IH]; [done|]. cbn [fmap list_fmap prod_map fst snd map_insert] in *. unfold id in *.
  destruct (less k k'); [done|]. destruct (less k' k); [|done]. cbn [fmap list_fmap prod_map fst snd]. by rewrite <- IH.
Qed.

Lemma canonical_entries_fmap {A B} (f : A → B) (m : gmap bytes A) :
  canonical_entries (f <$> m) = prod_map id f <$> canonical_entries m.
Proof.
  unfold canonical_entries. rewrite map_entries_fmap. generalize (map_entries m) as l. intros l.
  change (@nil (bytes * B)) with (prod_map id f <$> @nil (bytes * A)). generalize (@nil (bytes * A)) as acc.
  induction l as [|[k x] l IH]; intros acc; [done|]. cbn [fmap list_fmap foldl prod_map fst snd]. unfold id at 2.
  rewrite map_insert_fmap. apply IH.
Qed.
(** * The stream writes items *)

(** A stream with more items. *)
Definition extend (s : CborEncodeStream) (its : list item) : CborEncodeStream :=
  mkEncodeStream (is_list_ s) (data_ s ++ encode_items its) (u64 (count_ s + size its)).

Lemma extend_nil s : 0 ≤ count_ s < 2 ^ 64 → extend s [] = s.
Proof.
  intros Hc. unfold extend. cbn. rewrite app_nil_r, size_nil, Z.add_0_r, wrap_small by done. by destruct s.
Qed.

Lemma extend_app s a b : extend (extend s a) b = extend s (a ++ b).
Proof.
  unfold extend. cbn [is_list_ data_ count_]. rewrite encode_items_app, app_assoc, wrap_add_l, size_app. do 2 f_equal. lia.
Qed.

Lemma bind_run {A B} (c : encoder A) (f : A → encoder B) s a s' : c s = (returned a, s') → (c ≫= f) s = f a s'.
Proof. intros Hc. unfold mbind, encoder_bind. by rewrite Hc. Qed.

(** The stream a container of the items starts from. *)
Definition stream_of (is_list : bool) (its : list item) : CborEncodeStream := extend (mkEncodeStream is_list [] 0) its.

(** What a stream gives to another it is put into. *)
Definition content (is_list : bool) (its : list item) : list item := if is_list then [cArray its] else its.

Section put.
Context {M : Type} `{!Multiformats M, !TinyCborEncoder, !TinyCborEncoderLaws}.

(** A call that always adds the items [its]. *)
Definition adds (c : encoder ()) (its : list item) : Prop := ∀ s, c s = (returned tt, extend s its).

Lemma encoded_fits capacity bs : size bs ≤ capacity → encoded capacity bs = returned bs.
Proof. intros Hs. unfold encoded. by rewrite (proj2 (Z.leb_le _ _)). Qed.

Lemma adds_written capacity x written : written = encode_item x → size written ≤ capacity →
  adds (_ ← addCount 1; bs ← attempted (encoded capacity written); insert bs) [x].
Proof.
  intros -> Hs s. cbn [mbind encoder_bind addCount attempted]. unfold attempted. rewrite encoded_fits by done.
  cbn [mbind encoder_bind insert is_list_ data_ count_]. unfold insert, extend. cbn [is_list_ data_ count_].
  by rewrite encode_items_one.
Qed.

Lemma put_bool_adds b : adds (put_bool b) [cBool b].
Proof. apply adds_written; rewrite boolean_written; [done|]. by destruct b. Qed.

Lemma put_unsigned_adds n : 0 ≤ n < 2 ^ 64 → adds (put_unsigned n) [cUint n].
Proof. intros Hn. apply adds_written; rewrite uint_written by done; [done|]. apply head_size. lia. Qed.

Lemma put_signed_adds n : - 2 ^ 63 ≤ n < 2 ^ 63 → adds (put_signed n) [int_item n].
Proof.
  intros Hn. apply adds_written; rewrite int_written by done; [done|]. unfold int_item.
  destruct (Z.ltb_spec n 0); apply head_size; lia.
Qed.

Lemma put_bytes_adds b : size b < 2 ^ 63 → adds (put_bytes b) [cBytes b].
Proof.
  intros Hb. pose proof (size_nonneg b). apply adds_written; rewrite byte_string_written by lia; [done|]. cbn [encode_item].
  rewrite size_app. pose proof (head_size 2 (size b)). lia.
Qed.

Lemma put_string_adds b : size b < 2 ^ 63 → adds (put_string b) [cText b].
Proof.
  intros Hb. pose proof (size_nonneg b). apply adds_written; rewrite text_string_written by lia; [done|]. cbn [encode_item].
  rewrite size_app. pose proof (head_size 3 (size b)). lia.
Qed.

Lemma put_null_adds : adds put_null [cNull].
Proof. apply adds_written; rewrite null_written; done. Qed.

Definition cid_item (b : bytes) : item := cTag kCidTag (cBytes (0 :: b)).

Lemma put_cid_adds (c : CID M) b : toBytes c = success b → size b < 2 ^ 62 → adds (put_cid c) [cid_item b].
Proof.
  intros Hb Hs s. unfold put_cid. rewrite Hb.
  erewrite bind_run. 2: { unfold attempted. rewrite tag_written by (unfold kCidTag; lia). rewrite encoded_fits by (apply head_size; unfold kCidTag; lia). done. }
  erewrite bind_run by done.
  rewrite (put_bytes_adds (0 :: b)) by (rewrite size_cons; lia). unfold extend. cbn [is_list_ data_ count_]. do 2 f_equal.
  rewrite !encode_items_one. unfold cid_item. cbn [encode_item]. by rewrite <- app_assoc.
Qed.

Lemma adds_bind c d a b : adds c a → adds d b → adds (_ ← c; d) (a ++ b).
Proof. intros Hc Hd s. rewrite (bind_run _ _ _ _ _ (Hc s)), (Hd _). by rewrite extend_app. Qed.

Lemma data_stream_of l its : size its < 2 ^ 64 → data (stream_of l its) = returned (encode_items (content l its)).
Proof.
  intros Hs. pose proof (size_nonneg its). unfold data, stream_of, extend. cbn [is_list_ data_ count_ negb app].
  destruct l; cbn [negb content]; [|done]. rewrite Z.add_0_l, wrap_small by lia. rewrite array_written by lia.
  rewrite encoded_fits by (apply head_size; lia). cbn [mbind attempt_bind]. by rewrite encode_items_one.
Qed.

Lemma put_stream_adds l its : size its < 2 ^ 64 → adds (put_stream (stream_of l its)) (content l its).
Proof.
  intros Hs s. pose proof (size_nonneg its). unfold put_stream. erewrite bind_run by done.
  erewrite bind_run by (unfold attempted; by rewrite data_stream_of). unfold insert, extend. cbn [is_list_ data_ count_].
  do 2 f_equal. unfold stream_of, extend. cbn [is_list_ count_]. destruct l; cbn [content]; [done|].
  rewrite Z.add_0_l. by rewrite (wrap_small 64 (size its)) by lia.
Qed.

Lemma on_adds s c its : adds c its → on s c = returned (extend s its).
Proof. intros Hc. unfold on. by rewrite Hc. Qed.

(** *** Typed values: a way of putting values of [T], and the items they are *)

Definition denotes {T} (put : T → encoder ()) (denote : T → item) (valid : T → Prop) : Prop :=
  ∀ x, valid x → adds (put x) [denote x].

Lemma put_each_adds {T} (put : T → encoder ()) denote valid l s : denotes put denote valid → Forall valid l → 0 ≤ count_ s < 2 ^ 64 →
  put_each put l s = (returned tt, extend s (denote <$> l)).
Proof.
  intros Hp Hl. revert s. induction Hl as [|x l Hx _ IH]; intros s Hc; [cbn; by rewrite extend_nil|].
  cbn [put_each]. rewrite (bind_run _ _ _ _ _ (Hp x Hx s)), IH by (apply wrap_bound; lia). by rewrite extend_app.
Qed.

Lemma denotes_span {T} (put : T → encoder ()) denote valid : denotes put denote valid →
  denotes (put_span put) (λ l, cArray (denote <$> l)) (λ l, Forall valid l ∧ size l < 2 ^ 64).
Proof.
  intros Hp l [Hl Hs] s. unfold put_span.
  assert (on list_stream (put_each put l) = returned (stream_of true (denote <$> l))) as ->.
  { unfold on. by rewrite (put_each_adds put denote valid) by done. }
  apply (put_stream_adds true). unfold size in *. by rewrite length_fmap.
Qed.

Lemma denotes_optional {T} (put : T → encoder ()) denote valid : denotes put denote valid →
  denotes (put_optional put) (λ o, from_option denote cNull o) (λ o, ∀ x, o = Some x → valid x).
Proof. intros Hp [x|] Ho; [by apply Hp, Ho|apply put_null_adds]. Qed.

(** *** Maps *)

(** The keys and values of a map of single values, as they are written. *)
Lemma sort_map_spec (l : list (bytes * (bool * list item))) acc :
  Forall (λ p, size p.1 < 2 ^ 62) l → Forall (λ p, size p.1 < 2 ^ 62) acc → Forall (λ p, size p.2.2 < 2 ^ 64) l →
  sort_map (prod_map id (λ p, stream_of p.1 p.2) <$> l) (prod_map encode_key encode_items <$> acc) =
    if decide (Forall (λ p, size p.2.2 = 1) l)
    then returned (prod_map encode_key encode_items <$>
      foldl (λ r p, map_insert key_less p.1 (content p.2.1 p.2.2) r) acc l)
    else failed EXPECTED_MAP_VALUE_SINGLE.
Proof.
  intros Hl. revert acc. induction Hl as [|[k [b its]] l Hk Hl IH]; intros acc Hacc Hits.
  { rewrite decide_True by done. done. }
  apply Forall_cons in Hits as [Hi Hits]. cbn [fst snd] in *. cbn [fmap list_fmap prod_map sort_map fst snd]. unfold id at 1.
  pose proof (size_nonneg its). unfold stream_of at 1, extend at 1. cbn [count_]. rewrite Z.add_0_l, wrap_small by lia.
  destruct (Z.eqb_spec (size its) 1) as [Hone|Hone]; cbn [negb].
  2: { rewrite decide_False; [done|]. by intros [? _]%Forall_cons. }
  rewrite (on_adds _ _ _ (put_string_adds k ltac:(lia))). cbn [mbind attempt_bind].
  change (extend new_CborEncodeStream [cText k]) with (stream_of false [cText k]).
  rewrite (data_stream_of false [cText k]) by done. cbn [mbind attempt_bind content].
  rewrite (data_stream_of b its) by lia. cbn [mbind attempt_bind]. rewrite encode_items_one.
  change (encode_item (cText k)) with (encode_key k).
  assert (map_insert LessCborKey (encode_key k) (encode_items (content b its)) (prod_map encode_key encode_items <$> acc) =
    prod_map encode_key encode_items <$> map_insert key_less k (content b its) acc) as ->.
  { clear IH Hits. induction Hacc as [|[k' x'] acc Hk' _ IHacc]; [done|]. cbn [fst] in *. cbn [fmap list_fmap prod_map map_insert fst snd] in *.
    rewrite !LessCborKey_keys by done. destruct (key_less k k'); [done|]. destruct (key_less k' k); [|done].
    cbn [fmap list_fmap prod_map fst snd]. by rewrite IHacc. }
  rewrite IH; [|clear -Hk Hacc|done].
  - cbn [foldl fst snd]. destruct (decide (Forall (λ p, size p.2.2 = 1) l)) as [Hs|Hs].
    + rewrite decide_True; [done|]. by apply Forall_cons_2.
    + rewrite decide_False; [done|]. by intros [_ ?]%Forall_cons.
  - induction Hacc as [|[k' x'] acc Hk' Hacc IHacc]; cbn [map_insert]; [by repeat constructor|].
    destruct (key_less k k'); [by repeat constructor|]. destruct (key_less k' k); [by constructor|by constructor].
Qed.

(** The value of an entry, for streams that hold one item. *)
Definition single (p : bool * list item) : item := match content p.1 p.2 with x :: _ => x | [] => cNull end.

Lemma content_single p : size p.2 = 1 → content p.1 p.2 = [single p].
Proof.
  destruct p as [b its]. unfold single, size. cbn [fst snd]. destruct b; cbn [content]; [done|].
  destruct its as [|x [|]]; cbn; intros; [lia|done|lia].
Qed.

Definition map_header (n : Z) (s : CborEncodeStream) : CborEncodeStream :=
  mkEncodeStream (is_list_ s) (data_ s ++ head 5 n) (u64 (count_ s + 1)).

Lemma put_map_spec (m : gmap bytes (bool * list item)) s :
  (∀ k p, m !! k = Some p → size k < 2 ^ 62 ∧ size p.2 < 2 ^ 64) → Z.of_nat (base.size m) < 2 ^ 64 →
  put_map ((λ p, stream_of p.1 p.2) <$> m) s =
    if decide (map_Forall (λ _ p, size p.2 = 1) m)
    then (returned tt, extend s [cMap (canonical_entries (single <$> m))])
    else (failed EXPECTED_MAP_VALUE_SINGLE, map_header (Z.of_nat (base.size m)) s).
Proof.
  intros Hm Hn. unfold put_map. erewrite bind_run by done.
  erewrite bind_run. 2: { unfold attempted. rewrite map_size_fmap, map_written by lia. rewrite encoded_fits by (apply head_size; lia). done. }
  erewrite bind_run by done. rewrite map_entries_fmap.
  assert (Forall (λ p : bytes * (bool * list item), size p.1 < 2 ^ 62) (map_entries m) ∧
    Forall (λ p : bytes * (bool * list item), size p.2.2 < 2 ^ 64) (map_entries m)) as [Hk Hv].
  { split; apply Forall_forall; intros [k p] Hp%map_entries_lookup%Hm; apply Hp. }
  pose proof (sort_map_spec (map_entries m) [] Hk (Forall_nil_2 _) Hv) as Hsort. change (prod_map encode_key encode_items <$> []) with (@nil (bytes * bytes)) in Hsort.
  unfold mbind, encoder_bind, attempted. rewrite Hsort. clear Hsort.
  destruct (decide (Forall (λ p, size p.2.2 = 1) (map_entries m))) as [Hall|Hall].
  - rewrite decide_True.
    2: { intros k p Hp%map_entries_lookup. rewrite Forall_forall in Hall. exact (Hall (k, p) Hp). }
    unfold insert, extend. cbn [is_list_ data_ count_]. do 2 f_equal. rewrite <- app_assoc. f_equal.
    rewrite encode_items_one. cbn [encode_item].
    assert (foldl (λ r p, map_insert key_less p.1 (content p.2.1 p.2.2) r) [] (map_entries m) =
      prod_map id (λ x, [x]) <$> canonical_entries (single <$> m)) as ->.
    { rewrite <- canonical_entries_fmap. unfold canonical_entries. rewrite !map_entries_fmap.
      assert (∀ acc : list (bytes * list item), foldl (λ r p, map_insert key_less p.1 (content p.2.1 p.2.2) r) acc (map_entries m) =
        foldl (λ l p, map_insert key_less p.1 p.2 l) acc (prod_map id (λ x, [x]) <$> (prod_map id single <$> map_entries m))) as Hf; [|apply Hf].
      clear Hk Hv. revert Hall. induction (map_entries m) as [|[k p] l IH]; intros Hall acc; [done|]. apply Forall_cons in Hall as [Hp Hall].
      cbn [foldl fmap list_fmap prod_map fst snd] in *. rewrite content_single by done. by apply IH. }
    f_equal.
    + f_equal. destruct (canonical_entries_spec (single <$> m)) as [_ Hp].
      apply Permutation_length in Hp. unfold size. rewrite Hp, length_map_to_list, map_size_fmap. done.
    + induction (canonical_entries (single <$> m)) as [|[k x] l IH]; [done|].
      cbn [fmap list_fmap flat_map prod_map fst snd]. rewrite IH, encode_items_one. done.
  - rewrite decide_False; [done|]. intros Hf. apply Hall, Forall_forall. intros [k p] Hp%map_entries_lookup. exact (Hf k p Hp).
Qed.

End put.
(** ** Maps of values *)

Section items.
Context {M : Type} `{!Multiformats M, !TinyCborEncoder, !TinyCborEncoderLaws}.

Lemma put_entries_spec {T} (put : T → encoder ()) denote valid (l : list (bytes * T)) m :
  denotes put denote valid → Forall (λ p, valid p.2) l → NoDup l.*1 → (∀ k, k ∈ l.*1 → m !! k = None) →
  put_entries put l m = returned (list_to_map ((λ p, (p.1, stream_of false [denote p.2])) <$> l) ∪ m).
Proof.
  intros Hp Hl. revert m. induction Hl as [|[k x] l Hx _ IH]; intros m Hnd Hm; [cbn; by rewrite (left_id_L ∅ (∪))|].
  rewrite fmap_cons in Hnd. apply NoDup_cons in Hnd as [Hk Hnd]. cbn [fst snd] in *. cbn [put_entries]. unfold at_key.
  rewrite (Hm k) by (rewrite fmap_cons; left). cbn [default from_option]. rewrite (on_adds _ _ _ (Hp x Hx)). cbn [mbind attempt_bind].
  rewrite IH; [|done|].
  - f_equal. rewrite fmap_cons. cbn [fst snd]. rewrite list_to_map_cons. change (extend new_CborEncodeStream [denote x]) with (stream_of false [denote x]).
    rewrite <- insert_union_l, insert_union_r; [done|]. apply not_elem_of_list_to_map_1. rewrite <- list_fmap_compose.
    intros Hin. apply Hk. by rewrite (list_fmap_ext _ fst) in Hin by done.
  - intros k' Hk'. rewrite lookup_insert_ne by (intros ->; done). apply Hm. rewrite fmap_cons. by right.
Qed.

Lemma denotes_items {T} (put : T → encoder ()) denote valid : denotes put denote valid →
  denotes (put_items put) (λ m, cMap (canonical_entries (denote <$> m)))
    (λ m : gmap bytes T, (∀ k x, m !! k = Some x → size k < 2 ^ 62 ∧ valid x) ∧ Z.of_nat (base.size m) < 2 ^ 64).
Proof.
  intros Hp m [Hm Hn] s. unfold put_items.
  erewrite bind_run.
  2: { unfold attempted. erewrite (put_entries_spec put denote valid (map_entries m) map_stream Hp); [done| | |].
    - apply Forall_forall. intros [k x] Hx%map_entries_lookup. by apply (Hm k x).
    - rewrite map_entries_perm. apply NoDup_fst_map_to_list.
    - intros k _. apply lookup_empty. }
  unfold map_stream. rewrite (right_id_L ∅ (∪)).
  assert (list_to_map ((λ p, (p.1, stream_of false [denote p.2])) <$> map_entries m) =
    (λ p, stream_of p.1 p.2) <$> ((λ x, (false, [denote x])) <$> m)) as ->.
  { rewrite <- map_fmap_compose. symmetry. apply list_to_map_flip. symmetry. rewrite <- map_entries_perm, map_entries_fmap.
    erewrite list_fmap_ext; [done|]. by intros ? [k' x] _. }
  rewrite put_map_spec.
  - rewrite decide_True. 2: { intros k p Hp'. rewrite lookup_fmap in Hp'. by destruct (m !! k); simplify_eq/=. }
    rewrite <- map_fmap_compose. do 4 f_equal.
  - intros k p Hp'. rewrite lookup_fmap in Hp'. destruct (m !! k) as [x|] eqn:Hx; simplify_eq/=. destruct (Hm k x Hx). by split.
  - by rewrite map_size_fmap.
Qed.

End items.
(** * Well-formed items, and their one reading *)

Inductive wf_item : item → Prop :=
| wf_uint n : 0 ≤ n < 2 ^ 64 → wf_item (cUint n)
| wf_nint n : 0 ≤ n < 2 ^ 64 → wf_item (cNint n)
| wf_bytes b : size b < 2 ^ 64 → wf_item (cBytes b)
| wf_text b : size b < 2 ^ 64 → wf_item (cText b)
| wf_array l : size l < 2 ^ 64 → Forall wf_item l → wf_item (cArray l)
| wf_map l : size l < 2 ^ 64 → canonical l → Forall (λ p, size p.1 < 2 ^ 64) l → Forall (λ p, wf_item p.2) l → wf_item (cMap l)
| wf_tag t x : 0 ≤ t < 2 ^ 64 → wf_item x → wf_item (cTag t x)
| wf_bool b : wf_item (cBool b)
| wf_null : wf_item cNull.

(** A head and what follows it: the major type, the argument, the rest. *)
Definition parse_head (bs : bytes) : option (Z * Z * bytes) :=
  match bs with
  | [] => None
  | b :: rest =>
    let n := if b mod 32 =? 24 then 1%nat else if b mod 32 =? 25 then 2%nat else if b mod 32 =? 26 then 4%nat else 8%nat in
    if b mod 32 <? 24 then Some (b / 32, b mod 32, rest)
    else if 27 <? b mod 32 then None
    else if (length rest <? n)%nat then None
    else Some (b / 32, Integers.be_value (take n rest), drop n rest)
  end.

Fixpoint pair_up (l : list item) : option (list (bytes * item)) :=
  match l with
  | [] => Some []
  | cText k :: x :: l => r ← pair_up l; Some ((k, x) :: r)
  | _ => None
  end.

(** A parser of [n] items, by the RFC. *)
Fixpoint parse_items (fuel : nat) (n : Z) (bs : bytes) : option (list item * bytes) :=
  match fuel with
  | O => None
  | S fuel =>
    if n =? 0 then Some ([], bs)
    else
      '(major, a, rest) ← parse_head bs;
      '(x, rest) ←
        (if major =? 0 then Some (cUint a, rest)
         else if major =? 1 then Some (cNint a, rest)
         else if major =? 2 then if size rest <? a then None else Some (cBytes (take (Z.to_nat a) rest), drop (Z.to_nat a) rest)
         else if major =? 3 then if size rest <? a then None else Some (cText (take (Z.to_nat a) rest), drop (Z.to_nat a) rest)
         else if major =? 4 then '(l, rest) ← parse_items fuel a rest; Some (cArray l, rest)
         else if major =? 5 then '(l, rest) ← parse_items fuel (2 * a) rest; l ← pair_up l; Some (cMap l, rest)
         else if major =? 6 then
           '(l, rest) ← parse_items fuel 1 rest; match l with [x] => Some (cTag a x, rest) | _ => None end
         else if a =? 20 then Some (cBool false, rest)
         else if a =? 21 then Some (cBool true, rest)
         else if a =? 22 then Some (cNull, rest)
         else None);
      '(l, rest) ← parse_items fuel (n - 1) rest;
      Some (x :: l, rest)
  end.

Lemma parse_head_head major n rest : 0 ≤ major < 8 → 0 ≤ n < 2 ^ 64 → parse_head (head major n ++ rest) = Some (major, n, rest).
Proof.
  intros Hm Hn.
  assert (∀ i, 0 ≤ i < 32 → (major * 32 + i) mod 32 = i ∧ (major * 32 + i) / 32 = major) as Hi.
  { intros i Hi. split; [rewrite Z.add_comm, Z_mod_plus_full; by apply Z.mod_small|].
    rewrite Z.add_comm, Z.div_add by lia. rewrite Z.div_small by lia. done. }
  assert (∀ k (i : Z), 24 ≤ i ≤ 27 → k = (if i =? 24 then 1%nat else if i =? 25 then 2%nat else if i =? 26 then 4%nat else 8%nat) → n < 256 ^ Z.of_nat k →
    parse_head ((major * 32 + i) :: Integers.be_bytes k n ++ rest) = Some (major, n, rest)) as Hlong.
  { intros k i Hr Hk Hlt. cbn [parse_head]. destruct (Hi i) as [-> ->]; [lia|].
    destruct (Z.ltb_spec i 24); [lia|]. destruct (Z.ltb_spec 27 i); [lia|]. cbv zeta. rewrite <- Hk.
    destruct (Integers.be_bytes_spec k n ltac:(lia)) as (Hl & _ & Hv). rewrite length_app, Hl.
    rewrite (proj2 (Nat.ltb_ge _ _)) by lia. rewrite take_app_length', drop_app_length' by done. by rewrite Hv. }
  unfold head. destruct (Z.ltb_spec n 24).
  - cbn [parse_head app]. destruct (Hi n) as [-> ->]; [lia|]. by rewrite (proj2 (Z.ltb_lt _ _)).
  - repeat case_match; rewrite <- ?app_comm_cons; apply Hlong; lia || done.
Qed.

(** Fuel for an item: one for itself, and that of its parts. *)
Fixpoint weight (x : item) : nat :=
  match x with
  | cArray l => 2 + list_sum (map weight l)
  | cMap l => 2 + list_sum (map (λ p, 1 + weight p.2) l)
  | cTag _ x => 2 + weight x
  | _ => 1
  end%nat.

Lemma weight_pos x : (1 ≤ weight x)%nat.
Proof. destruct x; cbn; lia. Qed.

Definition fuel_of (l : list item) : nat := (1 + list_sum (map weight l))%nat.

Lemma parse_items_0 fuel bs : (0 < fuel)%nat → parse_items fuel 0 bs = Some ([], bs).
Proof. by destruct fuel; [lia|]. Qed.

Definition read_back (x : item) : Prop := ∀ fuel n rest, (weight x ≤ fuel)%nat → 0 < n →
  parse_items (S fuel) n (encode_item x ++ rest) = '(l, r) ← parse_items fuel (n - 1) rest; Some (x :: l, r).

Lemma parse_items_list l : Forall read_back l → ∀ fuel rest, (fuel_of l ≤ fuel)%nat →
  parse_items fuel (size l) (encode_items l ++ rest) = Some (l, rest).
Proof.
  induction 1 as [|x l Hx _ IH]; intros fuel rest Hf; [apply parse_items_0; cbn in Hf; lia|].
  unfold fuel_of in *. cbn [map list_sum fold_right] in Hf. rewrite size_cons. unfold encode_items. cbn [flat_map]. rewrite <- app_assoc.
  pose proof (size_nonneg l). pose proof (weight_pos x). destruct fuel as [|fuel]; [lia|].
  rewrite Hx by (unfold list_sum in *; lia). fold (encode_items l). replace (size l + 1 - 1) with (size l) by lia.
  rewrite IH; [done|]. unfold list_sum in *. lia.
Qed.

Lemma pair_up_entries (l : list (bytes * item)) : pair_up (l ≫= λ p, [cText p.1; p.2]) = Some l.
Proof. induction l as [|[k x] l IH]; [done|]. rewrite bind_cons. cbn [app pair_up fst snd]. by rewrite IH. Qed.

Lemma encode_entries (l : list (bytes * item)) :
  flat_map (λ p, (head 3 (size p.1) ++ p.1) ++ encode_item p.2) l = encode_items (l ≫= λ p, [cText p.1; p.2]).
Proof.
  induction l as [|[k x] l IH]; [done|]. change (((k, x) :: l) ≫= λ p, [cText p.1; p.2]) with (cText k :: x :: l ≫= λ p, [cText p.1; p.2]).
  unfold encode_items in *. cbn [flat_map fst snd encode_item]. rewrite IH. by rewrite <- !app_assoc.
Qed.

Lemma size_entries (l : list (bytes * item)) : size (l ≫= λ p, [cText p.1; p.2]) = 2 * size l.
Proof.
  induction l as [|p l IH]; [done|]. change ((p :: l) ≫= λ p, [cText p.1; p.2]) with (cText p.1 :: p.2 :: l ≫= λ p, [cText p.1; p.2]).
  rewrite !size_cons, IH. lia.
Qed.

Lemma item_read_back x : wf_item x → read_back x.
Proof.
  assert (∀ major a n rest, 0 ≤ major < 8 → 0 ≤ a < 2 ^ 64 → 0 < n → parse_head (head major a ++ rest) = Some (major, a, rest) ∧ (n =? 0) = false) as Hhead.
  { intros major a n rest Hm Ha Hn. split; [by apply parse_head_head|]. apply Z.eqb_neq. lia. }
  induction x as [n|n|b|b|l IH|l IH|t x IH|b|] using item_ind'; inversion 1; subst; intros fuel k rest Hf Hk; cbn [parse_items encode_item].
  - destruct (Hhead 0 n k rest ltac:(lia) ltac:(lia) Hk) as [-> ->]. done.
  - destruct (Hhead 1 n k rest ltac:(lia) ltac:(lia) Hk) as [-> ->]. done.
  - pose proof (size_nonneg b). rewrite <- app_assoc. destruct (Hhead 2 (size b) k (b ++ rest) ltac:(lia) ltac:(lia) Hk) as [-> ->].
    cbn [mbind option_bind Z.eqb]. rewrite size_app, (proj2 (Z.ltb_ge _ _)) by (pose proof (size_nonneg rest); lia).
    cbn [mbind option_bind Pos.eqb]. unfold size at 1 2. rewrite Nat2Z.id, take_app_length, drop_app_length. done.
  - pose proof (size_nonneg b). rewrite <- app_assoc. destruct (Hhead 3 (size b) k (b ++ rest) ltac:(lia) ltac:(lia) Hk) as [-> ->].
    cbn [mbind option_bind Z.eqb]. rewrite size_app, (proj2 (Z.ltb_ge _ _)) by (pose proof (size_nonneg rest); lia).
    cbn [mbind option_bind Pos.eqb]. unfold size at 1 2. rewrite Nat2Z.id, take_app_length, drop_app_length. done.
  - pose proof (size_nonneg l). rewrite <- app_assoc.
    destruct (Hhead 4 (size l) k (encode_items l ++ rest) ltac:(lia) ltac:(lia) Hk) as [Hh ->]. unfold encode_items in Hh at 1. rewrite Hh. clear Hh.
    cbn [mbind option_bind Z.eqb Pos.eqb]. rewrite parse_items_list; [done| |].
    + apply List.Forall_forall. intros x Hx. eapply (proj1 (List.Forall_forall _ _) IH x Hx), (proj1 (List.Forall_forall _ _) H2 x Hx).
    + unfold fuel_of. cbn [weight] in Hf. unfold list_sum in *. lia.
  - pose proof (size_nonneg l). rewrite <- app_assoc, encode_entries.
    destruct (Hhead 5 (size l) k (encode_items (l ≫= λ p, [cText p.1; p.2]) ++ rest) ltac:(lia) ltac:(lia) Hk) as [-> ->].
    cbn [mbind option_bind Z.eqb Pos.eqb]. rewrite <- size_entries. rewrite parse_items_list; [cbn [mbind option_bind]; by rewrite pair_up_entries| |].
    + pose proof (proj1 (List.Forall_forall _ _) IH) as IH'. pose proof (proj1 (List.Forall_forall _ _) H3) as H3'.
      pose proof (proj1 (List.Forall_forall _ _) H4) as H4'. apply Forall_forall. intros x (p & Hx & Hp)%list_elem_of_bind. apply list_elem_of_In in Hx as [<-|[<-|[]]]; [|by apply list_elem_of_In in Hp; apply (IH' p Hp), (H4' p Hp)].
      intros f m r Hfu Hm. cbn [parse_items encode_item]. rewrite <- app_assoc.
      pose proof (size_nonneg p.1). destruct (Hhead 3 (size p.1) m (p.1 ++ r) ltac:(lia) ltac:(split; [lia|by apply list_elem_of_In in Hp; apply (H3' p Hp)]) Hm) as [-> ->].
      cbn [mbind option_bind Z.eqb]. rewrite size_app, (proj2 (Z.ltb_ge _ _)) by (pose proof (size_nonneg r); lia).
      cbn [mbind option_bind Pos.eqb]. unfold size at 1 2. rewrite Nat2Z.id, take_app_length, drop_app_length. done.
    + unfold fuel_of. cbn [weight] in Hf.
      assert (list_sum (map weight (l ≫= λ p, [cText p.1; p.2])) = list_sum (map (λ p, 1 + weight p.2)%nat l)) as Hs.
      { clear. induction l as [|p l IH]; [done|]. rewrite bind_cons. cbn in *. unfold list_sum in *. lia. }
      unfold list_sum in *. lia.
  - rewrite <- app_assoc. destruct (Hhead 6 t k (encode_item x ++ rest) ltac:(lia) ltac:(lia) Hk) as [-> ->].
    cbn [mbind option_bind Z.eqb Pos.eqb]. cbn [weight] in Hf. destruct fuel as [|fuel]; [lia|].
    rewrite (IH ltac:(done)) by lia. rewrite parse_items_0 by (pose proof (weight_pos x); lia). done.
  - rewrite (proj2 (Z.eqb_neq k 0)) by lia. by destruct b.
  - rewrite (proj2 (Z.eqb_neq k 0)) by lia. done.
Qed.

(** Well-formed items are read back from their bytes, whatever follows. *)
Lemma parse_encode l rest fuel : Forall wf_item l → (fuel_of l ≤ fuel)%nat →
  parse_items fuel (size l) (encode_items l ++ rest) = Some (l, rest).
Proof.
  intros Hl Hf. apply parse_items_list; [|done]. eapply Forall_impl; [exact Hl|]. apply item_read_back.
Qed.

Lemma encode_items_inj l k : Forall wf_item l → Forall wf_item k → encode_items l = encode_items k → l = k.
Proof.
  intros Hl. revert k. induction Hl as [|x l Hx Hl IH]; intros k Hk Heq.
  - destruct k as [|y k]; [done|]. exfalso. unfold encode_items in Heq. cbn [flat_map] in Heq. pose proof (encode_item_size y) as Hy.
    apply (f_equal size) in Heq. rewrite size_app, size_nil in Heq. pose proof (size_nonneg (flat_map encode_item k)). lia.
  - destruct k as [|y k].
    { exfalso. unfold encode_items in Heq. cbn [flat_map] in Heq. pose proof (encode_item_size x) as Hy.
      apply (f_equal size) in Heq. rewrite size_app, size_nil in Heq. pose proof (size_nonneg (flat_map encode_item l)). lia. }
    apply Forall_cons in Hk as [Hy Hk]. unfold encode_items in Heq. cbn [flat_map] in Heq.
    pose proof (parse_encode [x] (encode_items l) (fuel_of [x] `max` fuel_of [y]) ltac:(by constructor) ltac:(lia)) as Hpx.
    pose proof (parse_encode [y] (encode_items k) (fuel_of [x] `max` fuel_of [y]) ltac:(by constructor) ltac:(lia)) as Hpy.
    rewrite encode_items_one in Hpx, Hpy. unfold encode_items in Hpx at 1, Hpy at 1. rewrite Heq in Hpx.
    change (size [x]) with (size [y]) in Hpx. unfold encode_items in Hpx, Hpy. rewrite Hpx in Hpy. injection Hpy as -> Hr. f_equal. by apply IH.
Qed.
(** * What a stream built by its operations holds *)

(** A stream that holds well-formed items. *)
Definition holds (s : CborEncodeStream) (its : list item) : Prop := s = stream_of (is_list_ s) its ∧ Forall wf_item its.

Section typed.
Context {M : Type} `{!Multiformats M, !TinyCborEncoder, !TinyCborEncoderLaws}.

(** The bytes of a vector are fewer than the size a vector can have. *)
Definition fits (s : CborEncodeStream) : Prop := size (data_ s) < 2 ^ 63.

(** Streams made by [CborEncodeStream()], [list()] and calls that return; each
    vector of bytes and string stays below the size a vector can have. *)
Inductive built : CborEncodeStream → Prop :=
| built_new : built new_CborEncodeStream
| built_list : built list_stream
| built_bool s s' b : built s → put_bool b s = (returned tt, s') → fits s' → built s'
| built_unsigned s s' n : built s → 0 ≤ n < 2 ^ 64 → put_unsigned n s = (returned tt, s') → fits s' → built s'
| built_signed s s' n : built s → - 2 ^ 63 ≤ n < 2 ^ 63 → put_signed n s = (returned tt, s') → fits s' → built s'
| built_bytes s s' b : built s → size b < 2 ^ 62 → put_bytes b s = (returned tt, s') → fits s' → built s'
| built_string s s' b : built s → size b < 2 ^ 62 → put_string b s = (returned tt, s') → fits s' → built s'
| built_cid s s' (c : CID M) : built s → (∀ b, toBytes c = success b → size b < 2 ^ 62) → put_cid c s = (returned tt, s') → fits s' → built s'
| built_null s s' : built s → put_null s = (returned tt, s') → fits s' → built s'
| built_stream s s' other : built s → built other → put_stream other s = (returned tt, s') → fits s' → built s'
| built_map s s' m : built s → (∀ k x, m !! k = Some x → built x) → (∀ k x, m !! k = Some x → size k < 2 ^ 62) → Z.of_nat (base.size m) < 2 ^ 62 →
    put_map m s = (returned tt, s') → fits s' → built s'.

Lemma holds_size s its : holds s its → size its ≤ size (data_ s).
Proof. intros [-> _]. unfold stream_of, extend. cbn [data_ app]. apply encode_items_size. Qed.

Lemma extend_holds s its more : holds s its → Forall wf_item more → holds (extend s more) (its ++ more).
Proof.
  intros [Hs Hw] Hm. split; [|by apply Forall_app_2]. rewrite Hs at 1. unfold stream_of. rewrite extend_app. done.
Qed.

(** A call that adds items keeps the type. *)
Lemma adds_holds c (more : list item) s s' its : adds c more → Forall wf_item more → holds s its → c s = (returned tt, s') →
  holds s' (its ++ more).
Proof. intros Hc Hm Hs Hr. rewrite Hc in Hr. injection Hr as <-. by apply extend_holds. Qed.

Lemma int_item_wf n : - 2 ^ 63 ≤ n < 2 ^ 63 → wf_item (int_item n).
Proof. intros Hn. unfold int_item. destruct (Z.ltb_spec n 0); constructor; lia. Qed.

Lemma content_wf l its : Forall wf_item its → size its < 2 ^ 64 → Forall wf_item (content l its).
Proof. intros Hw Hs. destruct l; [|done]. by repeat constructor. Qed.

Lemma built_fits s : built s → size (data_ s) < 2 ^ 63.
Proof. by destruct 1. Qed.

Lemma built_holds s : built s → ∃ its, holds s its.
Proof.
  induction 1 as [| |s s' b Hb [its IH]|s s' n Hb [its IH] Hn|s s' n Hb [its IH] Hn|s s' b Hb [its IH] Hs|s s' b Hb [its IH] Hs
    |s s' c Hb [its IH] Hs|s s' Hb [its IH]|s s' other Hb [its IH] Hbo [its' IHo]|s s' m Hb [its IH] Hm IHm Hk Hn Hput].
  - by exists [].
  - by exists [].
  - eexists. by eapply adds_holds; [apply put_bool_adds|constructor; [by constructor|done]|exact IH|].
  - eexists. eapply adds_holds; [by apply put_unsigned_adds|constructor; [by constructor|done]|exact IH|done].
  - eexists. eapply adds_holds; [by apply put_signed_adds|constructor; [by apply int_item_wf|done]|exact IH|done].
  - eexists. eapply adds_holds; [apply (put_bytes_adds b); lia|constructor; [constructor; lia|done]|exact IH|done].
  - eexists. eapply adds_holds; [apply (put_string_adds b); lia|constructor; [constructor; lia|done]|exact IH|done].
  - destruct (toBytes c) as [b|e] eqn:Hc; [|by unfold put_cid in *; rewrite Hc in *].
    specialize (Hs b eq_refl). eexists. eapply adds_holds; [by apply put_cid_adds; [exact Hc|]| |exact IH|done].
    constructor; [|done]. constructor; [unfold kCidTag; lia|]. constructor. rewrite size_cons. lia.
  - eexists. eapply adds_holds; [apply put_null_adds|constructor; [by constructor|done]|exact IH|done].
  - pose proof (holds_size _ _ IHo). pose proof (built_fits _ Hbo). destruct IHo as [He Hw].
    pose proof (put_stream_adds (is_list_ other) its' ltac:(lia)) as Ha. rewrite <- He in Ha.
    eexists. eapply adds_holds; [exact Ha|apply content_wf; [done|lia]|exact IH|done].
  - assert (∃ m' : gmap bytes (bool * list item), m = (λ p, stream_of p.1 p.2) <$> m' ∧
      map_Forall (λ _ p, Forall wf_item p.2 ∧ size p.2 < 2 ^ 63) m') as (m' & -> & Hm').
    { apply map_lift. intros k x Hx. destruct (IHm k x Hx) as [i Hi]. exists (is_list_ x, i).
      pose proof (holds_size _ _ Hi). pose proof (built_fits x (Hm k x Hx)). destruct Hi as [He Hw]. split; [done|]. split; [done|cbn; lia]. }
    rewrite map_size_fmap in Hn. rewrite put_map_spec in Hput.
    + destruct (decide (map_Forall (λ _ p, size p.2 = 1) m')) as [Hone|Hone]; [|done]. injection Hput as <-.
      eexists. apply extend_holds; [exact IH|]. constructor; [|done].
      destruct (canonical_entries_spec (single <$> m')) as [Hc Hp].
      assert (∀ k x, (k, x) ∈ canonical_entries (single <$> m') → size k < 2 ^ 62 ∧ wf_item x) as Hin.
      { intros k x Hkx. rewrite Hp, elem_of_map_to_list, lookup_fmap in Hkx. destruct (m' !! k) as [p|] eqn:Hpk; simplify_eq/=.
        split; [apply (Hk k (stream_of p.1 p.2)); by rewrite lookup_fmap, Hpk|].
        destruct (Hm' k p Hpk) as [Hw _]. pose proof (content_wf p.1 p.2 Hw ltac:(rewrite (Hone k p Hpk); lia)) as Hcw.
        rewrite content_single in Hcw by exact (Hone k p Hpk). by apply Forall_cons in Hcw as [? _]. }
      constructor.
      * apply Permutation_length in Hp. unfold size. rewrite Hp, length_map_to_list, map_size_fmap. lia.
      * exact Hc.
      * apply Forall_forall. intros [k x] Hkx. destruct (Hin k x Hkx). cbn. lia.
      * apply Forall_forall. intros [k x] Hkx. by destruct (Hin k x Hkx).
    + intros k p Hpk. split; [apply (Hk k (stream_of p.1 p.2)); by rewrite lookup_fmap, Hpk|]. destruct (Hm' k p Hpk). lia.
    + lia.
Qed.

End typed.
(** * What is written *)

Section theorems.
Context {M : Type} `{!Multiformats M, !TinyCborEncoder, !TinyCborEncoderLaws}.

Lemma encode_adds (put : encoder ()) its : adds put its → encode put = returned (Buffer.mkBuffer (encode_items its)).
Proof. intros Hp. unfold encode. rewrite (on_adds _ _ _ Hp). cbn [mbind attempt_bind]. done. Qed.

(** C15: the type of an encoding stream.  Whatever the operations that made it,
    a stream that was built without an exception holds well-formed CBOR items,
    [count_] is their number, [data_] is exactly their encoding with shortest heads
    and canonically ordered keys, which determines them, and [data()] writes them,
    as one array if the stream is a list. *)
Theorem encode_stream_typed s : built (M:=M) s →
  ∃ its, Forall wf_item its ∧ count_ s = size its ∧ data_ s = encode_items its ∧
    data s = returned (encode_items (content (is_list_ s) its)) ∧
    ∀ its', Forall wf_item its' → data_ s = encode_items its' → its' = its.
Proof.
  intros Hb. destruct (built_holds s Hb) as [its Hh]. pose proof (holds_size _ _ Hh). pose proof (built_fits s Hb).
  destruct Hh as [He Hw]. pose proof (size_nonneg its). exists its. split_and!.
  - done.
  - rewrite He. unfold stream_of, extend. cbn [count_]. apply wrap_small. lia.
  - rewrite He. done.
  - pose proof (data_stream_of (is_list_ s) its ltac:(lia)) as Hd. by rewrite <- He in Hd.
  - intros its' Hw' Hd. apply encode_items_inj; [done|done|]. rewrite <- Hd, He. done.
Qed.

(** C16: what [cbor::encode] gives.  Booleans, integers, strings, byte strings,
    null and CIDs are the item of the RFC; a vector of values is their array; an
    optional is its value or null; a map is the map of its values in canonical key
    order, each key once. *)
Theorem encode_values :
  (∀ b, encode (put_bool b) = returned (Buffer.mkBuffer (encode_item (cBool b)))) ∧
  (∀ n, 0 ≤ n < 2 ^ 64 → encode (put_unsigned n) = returned (Buffer.mkBuffer (encode_item (cUint n)))) ∧
  (∀ n, - 2 ^ 63 ≤ n < 2 ^ 63 → encode (put_signed n) = returned (Buffer.mkBuffer (encode_item (int_item n)))) ∧
  (∀ b, size b < 2 ^ 63 → encode (put_bytes b) = returned (Buffer.mkBuffer (encode_item (cBytes b))) ∧
    encode (put_string b) = returned (Buffer.mkBuffer (encode_item (cText b)))) ∧
  encode put_null = returned (Buffer.mkBuffer (encode_item cNull)) ∧
  (∀ c : CID M, match toBytes c with
    | success b => size b < 2 ^ 62 → encode (put_cid c) = returned (Buffer.mkBuffer (encode_item (cTag 42 (cBytes (0 :: b)))))
    | failure _ => ∀ s, put_cid c s = (failed INVALID_CID_, s)
    end) ∧
  ∀ T (put : T → encoder ()) denote valid, denotes put denote valid →
    (∀ l, Forall valid l → size l < 2 ^ 64 →
      encode (put_span put l) = returned (Buffer.mkBuffer (encode_item (cArray (denote <$> l))))) ∧
    (∀ o, (∀ x, o = Some x → valid x) →
      encode (put_optional put o) = returned (Buffer.mkBuffer (encode_item (from_option denote cNull o)))) ∧
    (∀ m : gmap bytes T, (∀ k x, m !! k = Some x → size k < 2 ^ 62 ∧ valid x) → Z.of_nat (base.size m) < 2 ^ 64 →
      ∃ l, encode (put_items put m) = returned (Buffer.mkBuffer (encode_item (cMap l))) ∧
        canonical l ∧ ∀ k x, (k, x) ∈ l ↔ ∃ y, m !! k = Some y ∧ x = denote y).
Proof.
  assert (∀ (put : encoder ()) x, adds put [x] → encode put = returned (Buffer.mkBuffer (encode_item x))) as Hone.
  { intros put x Hp. by rewrite (encode_adds _ _ Hp), encode_items_one. }
  split_and!.
  - intros b. apply Hone, put_bool_adds.
  - intros n Hn. by apply Hone, put_unsigned_adds.
  - intros n Hn. by apply Hone, put_signed_adds.
  - intros b Hb. split; [by apply Hone, put_bytes_adds|by apply Hone, put_string_adds].
  - apply Hone, put_null_adds.
  - intros c. destruct (toBytes c) as [b|e] eqn:Hc; [intros Hs; by apply Hone, put_cid_adds|].
    intros s. unfold put_cid. by rewrite Hc.
  - intros T put denote valid Hp. split_and!.
    + intros l Hl Hs. apply Hone, (denotes_span put denote valid Hp). done.
    + intros o Ho. apply Hone, (denotes_optional put denote valid Hp o Ho).
    + intros m Hm Hn. exists (canonical_entries (denote <$> m)). split; [apply Hone, (denotes_items put denote valid Hp); done|].
      destruct (canonical_entries_spec (denote <$> m)) as [Hc Hperm]. split; [done|]. intros k x.
      rewrite Hperm, elem_of_map_to_list, lookup_fmap. destruct (m !! k) as [y|]; cbn; naive_solver.
Qed.

(** Maps of streams.  A map whose values hold one item each becomes one map
    item in canonical key order, a list stream of one element as the array of it;
    otherwise, for a list of any other length too, although it is one item, the
    call raises, and leaves the head of the map in the stream without its entries,
    counted as an item. *)
Theorem put_map_result (m : gmap bytes (bool * list item)) s :
  (∀ k p, m !! k = Some p → size k < 2 ^ 62 ∧ size p.2 < 2 ^ 64) → Z.of_nat (base.size m) < 2 ^ 64 →
  put_map ((λ p, stream_of p.1 p.2) <$> m) s =
    if decide (map_Forall (λ _ p, size p.2 = 1) m)
    then (returned tt, extend s [cMap (canonical_entries (single <$> m))])
    else (failed EXPECTED_MAP_VALUE_SINGLE, map_header (Z.of_nat (base.size m)) s).
Proof. apply put_map_spec. Qed.

End theorems.

(** ** A concrete encoder *)

Module SampleEncoder.

#[export] Instance encoder : TinyCborEncoder := {
  cbor_encode_boolean b := encode_item (cBool b);
  cbor_encode_uint n := encode_item (cUint n);
  cbor_encode_int n := encode_item (int_item n);
  cbor_encode_byte_string b := encode_item (cBytes b);
  cbor_encode_text_string b := encode_item (cText b);
  cbor_encode_tag t := head 6 t;
  cbor_encode_null := encode_item cNull;
  cbor_encoder_create_array n := head 4 n;
  cbor_encoder_create_map n := head 5 n
}.

#[export] Instance laws : TinyCborEncoderLaws.
Proof. by split. Qed.

(** [{"aa": 1, "b": 2, "c": 3}] of the tests. *)
Definition sample_map : gmap bytes Z := {[ [0x61; 0x61] := 1; [0x62] := 2; [0x63] := 3 ]}.

End SampleEncoder.

#[export] Existing Instances SampleEncoder.encoder SampleEncoder.laws.

(** The vectors of [cbor_test.cpp]. *)
Example encode_map_vector :
  encode (put_items put_signed SampleEncoder.sample_map) =
    returned (Buffer.mkBuffer [0xA3; 0x61; 0x62; 0x02; 0x61; 0x63; 0x03; 0x62; 0x61; 0x61; 0x01]).
Proof. vm_compute. reflexivity. Qed.

Example list_nest_vector :
  (s ← on list_stream (l ← attempted (on list_stream (_ ← put_signed 1; put_signed 2)); _ ← put_stream l;
    t ← attempted (on new_CborEncodeStream (_ ← put_signed 3; _ ← put_signed 4; put_signed 5)); put_stream t); data s) =
    returned [0x84; 0x82; 0x01; 0x02; 0x03; 0x04; 0x05].
Proof. vm_compute. reflexivity. Qed.

Lemma encode_stream_typed_witness :
  ∃ s its, put_stream list_stream new_CborEncodeStream = (returned tt, s) ∧ data_ s = [0x80] ∧ data_ s = encode_items its.
Proof.
  destruct (put_stream list_stream new_CborEncodeStream) as [r s] eqn:Hs. vm_compute in Hs. injection Hs as <- <-.
  destruct (encode_stream_typed (M:=Sample.Multihash) (mkEncodeStream false [0x80] 1)) as (its & _ & _ & Hd & _).
  - apply (built_stream new_CborEncodeStream _ list_stream); [constructor|constructor|vm_compute; reflexivity|vm_compute; reflexivity].
  - exists (mkEncodeStream false [0x80] 1), its. split; [reflexivity|]. split; [reflexivity|exact Hd].
Defined.

Lemma put_map_result_witness :
  (put_map ((λ p, stream_of p.1 p.2) <$> {[ [0x61] := (true, [cUint 1; cUint 2]) ]}) new_CborEncodeStream) =
    (failed EXPECTED_MAP_VALUE_SINGLE, mkEncodeStream false [0xA1] 1).
Proof.
  rewrite (put_map_result {[ [0x61] := (true, [cUint 1; cUint 2]) ]} new_CborEncodeStream).
  - vm_compute. reflexivity.
  - intros k p [<- <-]%lookup_singleton_Some. split; reflexivity.
  - vm_compute. reflexivity.
Defined.

Lemma encode_values_witness :
  encode (put_string [0x66; 0x6F; 0x6F]) = returned (Buffer.mkBuffer [0x63; 0x66; 0x6F; 0x6F]) ∧
  encode (put_span put_unsigned [2; 5; 9]) = returned (Buffer.mkBuffer [0x83; 0x02; 0x05; 0x09]).
Proof.
  destruct (encode_values (M:=Sample.Multihash)) as (_ & _ & _ & Hb & _ & _ & Hv). split.
  - rewrite (proj2 (Hb [0x66; 0x6F; 0x6F] ltac:(reflexivity))). reflexivity.
  - destruct (Hv Z put_unsigned cUint (λ n, 0 ≤ n < 2 ^ 64) put_unsigned_adds) as [Hs _].
    rewrite (Hs [2; 5; 9]); [reflexivity|repeat constructor; discriminate|reflexivity].
Defined.
