(* ===== verification/CborDecode.v ===== *)
(** CBOR read: [src/codec/cbor] ([cbor_decode_stream.*], [cbor.hpp],
    [cbor_resolve.*]) over tinycbor's parser.

    A pointer into the shared bytes [data_] of a stream is an offset; of a
    [CborParser] the stream uses only where the input ends.  The state of a stream
    after an exception is not followed. *)
From stdpp Require Import base numbers countable list gmap strings sorting.
From S2P Require Import Prelude Bytes Cid Cbor.

Open Scope Z_scope.

(** ** tinycbor's parser *)

(** The bytes between two offsets. *)
Definition slice (d : bytes) (p e : Z) : bytes := take (Z.to_nat (e - p)) (drop (Z.to_nat p) d).

(** The arguments [d] and [e] are the buffer and the end of the parser of a value;
    [None] is an error code. *)
Class TinyCborParser := {
  CborValue : Type;
  ptr : CborValue → Z;
  remaining : CborValue → Z;
  set_remaining : Z → CborValue → CborValue;
  cbor_parser_init : bytes → Z → Z → option CborValue;   (* buffer, offset, size *)
  cbor_value_advance : bytes → Z → CborValue → option CborValue;
  cbor_value_skip_tag : bytes → Z → CborValue → option CborValue;
  cbor_value_enter_container : bytes → Z → CborValue → option CborValue;
  cbor_value_at_end : CborValue → bool;
  cbor_value_is_boolean : CborValue → bool;
  cbor_value_is_null : CborValue → bool;
  cbor_value_is_integer : CborValue → bool;
  cbor_value_is_unsigned_integer : CborValue → bool;
  cbor_value_is_byte_string : CborValue → bool;
  cbor_value_is_text_string : CborValue → bool;
  cbor_value_is_array : CborValue → bool;
  cbor_value_is_map : CborValue → bool;
  cbor_value_is_tag : CborValue → bool;
  cbor_value_get_boolean : bytes → CborValue → bool;
  cbor_value_get_uint64 : bytes → CborValue → Z;
  cbor_value_get_int64 : bytes → CborValue → Z;
  cbor_value_get_tag : bytes → CborValue → Z;
  cbor_value_get_string_length : bytes → Z → CborValue → option Z;
  cbor_value_get_array_length : bytes → Z → CborValue → option Z;
  cbor_value_copy_byte_string : bytes → Z → CborValue → option bytes;
  cbor_value_copy_text_string : bytes → Z → CborValue → option bytes
}.

(** ** [CborDecodeStream] *)

Section decode.
Context {M : Type} `{!Multiformats M, !TinyCborParser}.

Record CborDecodeStream := mkDecodeStream {
  bytes_ : bytes;          (* data_ *)
  end_ : Z;                (* parser_->end *)
  value_ : CborValue
}.

(** What leaves a call as an exception: a [std::system_error] with a code of the
    stream or of a library, the [std::length_error] of a container, and what
    [value()] throws on a failure. *)
Inductive decode_exception :=
| cbor_error (e : CborDecodeError)
| library_error (value : Z)
| length_error
| bad_access.

(** The codes of the system errors. *)
Inductive decode_code :=
| own_code (e : CborDecodeError)
| library_code (value : Z).

(** [catch ( std::system_error &e )] and [e.code()]: the others go on. *)
Definition caught {A} (a : attempt decode_exception A) : attempt decode_code A :=
  match a with
  | returned x => returned x
  | failed (cbor_error e) => failed (own_code e)
  | failed (library_error v) => failed (library_code v)
  | failed length_error | failed bad_access => thrown
  | thrown => thrown
  end.

(** [thrown] is undefined behaviour. *)
Definition decoder A : Type := CborDecodeStream → attempt decode_exception (A * CborDecodeStream).

#[export] Instance decoder_ret : MRet decoder := λ A a s, returned (a, s).
#[export] Instance decoder_bind : MBind decoder := λ A B f c s,
  match c s with
  | returned (a, s) => f a s
  | failed e => failed e
  | thrown => thrown
  end.

Definition throw {A} (e : CborDecodeError) : decoder A := λ s, failed (cbor_error e).
Definition undefined {A} : decoder A := λ s, thrown.
Definition observe {A} (f : CborDecodeStream → A) : decoder A := λ s, returned (f s, s).
Definition set_value (v : CborValue) : decoder () := λ s, returned (tt, mkDecodeStream (bytes_ s) (end_ s) v).

Definition lifted {A} (a : attempt decode_exception A) : decoder A := λ s, x ← a; returned (x, s).

(** [if( CborNoError != call ) raise( INVALID_CBOR )]. *)
Definition checked {A} (f : CborDecodeStream → option A) : decoder A := λ s,
  match f s with Some a => returned (a, s) | None => failed (cbor_error INVALID_CBOR) end.
Definition update_value (f : bytes → Z → CborValue → option CborValue) : decoder () :=
  v ← checked (λ s, f (bytes_ s) (end_ s) (value_ s)); set_value v.

Definition UINT32_MAX : Z := 2 ^ 32 - 1.

(** The constructor. *)
Definition new_CborDecodeStream (data : bytes) : attempt decode_exception CborDecodeStream :=
  match cbor_parser_init data 0 (size data) with
  | None => failed (cbor_error INVALID_CBOR)
  | Some v => returned (mkDecodeStream data (size data) (set_remaining UINT32_MAX v))
  end.

Definition isCid (s : CborDecodeStream) : bool :=
  if negb (cbor_value_is_tag (value_ s)) then false
  else cbor_value_get_tag (bytes_ s) (value_ s) =? kCidTag.
Definition isList (s : CborDecodeStream) : bool := cbor_value_is_array (value_ s).
Definition isMap (s : CborDecodeStream) : bool := cbor_value_is_map (value_ s).
Definition isNull (s : CborDecodeStream) : bool := cbor_value_is_null (value_ s).
Definition isBool (s : CborDecodeStream) : bool := cbor_value_is_boolean (value_ s).
Definition isInt (s : CborDecodeStream) : bool := cbor_value_is_integer (value_ s).
Definition isStr (s : CborDecodeStream) : bool := cbor_value_is_text_string (value_ s).
Definition isBytes (s : CborDecodeStream) : bool := cbor_value_is_byte_string (value_ s).

(** Skips the current element. *)
Definition next : decoder () :=
  cid ← observe isCid;
  _ ← (if cid : bool then update_value cbor_value_skip_tag else mret tt);
  saved ← observe (λ s, remaining (value_ s));
  _ ← (v ← observe value_; set_value (set_remaining 1 v));
  _ ← update_value cbor_value_advance;
  s ← observe id;
  if ptr (value_ s) =? end_ s then mret tt
  else
    let rest := wrap 32 (saved + (remaining (value_ s) - 1)) in
    v ← checked (λ s, cbor_parser_init (bytes_ s) (ptr (value_ s)) (end_ s - ptr (value_ s)));
    set_value (set_remaining rest v).

(** The length of an array; what tinycbor gives for a value that is not one is
    undefined. *)
Definition listLength : decoder Z :=
  l ← observe isList;
  if l : bool then checked (λ s, cbor_value_get_array_length (bytes_ s) (end_ s) (value_ s)) else undefined.

Definition container : decoder CborDecodeStream :=
  v ← checked (λ s, cbor_value_enter_container (bytes_ s) (end_ s) (value_ s));
  observe (λ s, mkDecodeStream (bytes_ s) (end_ s) v).

Definition list_ : decoder CborDecodeStream :=
  l ← observe isList;
  if negb l then throw WRONG_TYPE
  else stream ← container; _ ← next; mret stream.

Definition bytesLength : decoder Z :=
  b ← observe isBytes;
  if negb b then throw WRONG_TYPE
  else checked (λ s, cbor_value_get_string_length (bytes_ s) (end_ s) (value_ s)).

(** The template for integers, for a type with [w] bits. *)
Definition get_bool : decoder bool :=
  b ← observe isBool;
  if negb b then throw WRONG_TYPE
  else num ← observe (λ s, cbor_value_get_boolean (bytes_ s) (value_ s)); _ ← next; mret num.

Definition get_unsigned (w : Z) : decoder Z :=
  i ← observe isInt;
  if negb i then throw WRONG_TYPE
  else
    u ← observe (λ s, cbor_value_is_unsigned_integer (value_ s));
    if negb u then throw INT_OVERFLOW
    else
      num64 ← observe (λ s, cbor_value_get_uint64 (bytes_ s) (value_ s));
      if 2 ^ w - 1 <? num64 then throw INT_OVERFLOW
      else _ ← next; mret num64.

Definition get_signed (w : Z) : decoder Z :=
  i ← observe isInt;
  if negb i then throw WRONG_TYPE
  else
    num64 ← observe (λ s, cbor_value_get_int64 (bytes_ s) (value_ s));
    if (2 ^ (w - 1) - 1 <? num64) || (num64 <? - 2 ^ (w - 1)) then throw INT_OVERFLOW
    else _ ← next; mret num64.

Definition get_optional {T} (get : decoder T) : decoder (option T) :=
  null ← observe isNull;
  if null : bool then _ ← next; mret None else x ← get; mret (Some x).

(** Into a span of [n] bytes. *)
Definition get_span (n : Z) : decoder bytes :=
  len ← bytesLength;
  if negb (n =? len) then throw WRONG_SIZE
  else
    bs ← checked (λ s, cbor_value_copy_byte_string (bytes_ s) (end_ s) (set_remaining 1 (value_ s)));
    _ ← next; mret bs.

(** [resize] of a vector of bytes or a string. *)
Definition max_size : Z := 2 ^ 63 - 1.
Definition resize_to (n : Z) : decoder () := λ s, if max_size <? n then failed length_error else returned (tt, s).

Definition get_bytes : decoder bytes :=
  n ← bytesLength;
  _ ← resize_to n;
  get_span n.

Definition get_string : decoder bytes :=
  t ← observe isStr;
  if negb t then throw WRONG_TYPE
  else
    n ← checked (λ s, cbor_value_get_string_length (bytes_ s) (end_ s) (value_ s));
    _ ← resize_to n;
    str ← checked (λ s, cbor_value_copy_text_string (bytes_ s) (end_ s) (set_remaining 1 (value_ s)));
    _ ← next; mret str.

(** [bytes[0]] of an empty vector is undefined. *)
Definition get_cid : decoder (CID M) :=
  t ← observe (λ s, cbor_value_is_tag (value_ s));
  if negb t then throw INVALID_CBOR_CID
  else
    tag ← observe (λ s, cbor_value_get_tag (bytes_ s) (value_ s));
    if negb (tag =? kCidTag) then throw INVALID_CBOR_CID
    else
      _ ← update_value cbor_value_advance;
      b ← observe isBytes;
      if negb b then throw INVALID_CBOR_CID
      else
        bs ← get_bytes;
        match bs with
        | [] => undefined
        | b :: bs =>
          if negb (b =? 0) then throw INVALID_CBOR_CID
          else match fromBytes bs with success cid => mret cid | failure _ => throw INVALID_CID end
        end.

(** A call on another stream, which it leaves behind. *)
Definition within {A} (l : CborDecodeStream) (c : decoder A) : decoder (A * CborDecodeStream) := λ s,
  match c l with returned al => returned (al, s) | failed e => failed e | thrown => thrown end.

Fixpoint get_each {T} (get : decoder T) (n : nat) (l : CborDecodeStream) (values : list T) : decoder (list T) :=
  match n with
  | O => mret values
  | S n => '(x, l) ← within l get; get_each get n l (values ++ [x])
  end.

Definition get_vector {T} (get : decoder T) : decoder (list T) :=
  n ← listLength;
  l ← list_;
  get_each get (Z.to_nat n) l [].

(** The bytes of the current element. *)
Definition raw : decoder bytes :=
  begin ← observe (λ s, ptr (value_ s));
  _ ← next;
  observe (λ s, slice (bytes_ s) begin (ptr (value_ s))).

(** [std::map::insert]. *)
Definition insert_new {A} (k : bytes) (x : A) (m : gmap bytes A) : gmap bytes A :=
  match m !! k with Some _ => m | None => <[k := x]> m end.

(** The loop of [map()] on the stream of the container. *)
Fixpoint map_loop (fuel : nat) (stream : CborDecodeStream) (m : gmap bytes CborDecodeStream) :
    attempt decode_exception (gmap bytes CborDecodeStream) :=
  match fuel with
  | O => thrown
  | S fuel =>
    if cbor_value_at_end (value_ stream) then returned m
    else
      '(key, stream) ← get_string stream;
      let begin := ptr (value_ stream) in
      '(_, stream) ← update_value cbor_value_skip_tag stream;
      '(_, stream) ← update_value cbor_value_advance stream;
      match cbor_parser_init (bytes_ stream) begin (ptr (value_ stream) - begin) with
      | None => failed (cbor_error INVALID_CBOR)
      | Some v => map_loop fuel stream (insert_new key (mkDecodeStream (bytes_ stream) (ptr (value_ stream)) v) m)
      end
  end.

(** An entry takes a byte at least, so the bytes are fuel enough. *)
Definition map_ : decoder (gmap bytes CborDecodeStream) :=
  b ← observe isMap;
  if negb b then throw WRONG_TYPE
  else
    stream ← container;
    _ ← next;
    lifted (map_loop (S (length (bytes_ stream))) stream ∅).

(** Elements to a map: [items[key]] is made for each, in the order of the keys. *)
Fixpoint get_entries {T} (get : decoder T) (l : list (bytes * CborDecodeStream)) (items : gmap bytes T) : decoder (gmap bytes T) :=
  match l with
  | [] => mret items
  | (first, second) :: l => '(x, _) ← within second get; get_entries get l (<[first := x]> items)
  end.

Definition get_items {T} (get : decoder T) (items : gmap bytes T) : decoder (gmap bytes T) :=
  m ← map_;
  get_entries get (map_entries m) items.

(** [cbor::decode]: only the error codes are caught. *)
Definition decode {T} (get : decoder T) (input : bytes) : attempt decode_code T :=
  caught (s ← new_CborDecodeStream input; '(x, _) ← get s; returned x).

(** ** [cbor_resolve.*] *)

Inductive CborResolveError := INT_KEY_EXPECTED | KEY_NOT_FOUND | CONTAINER_EXPECTED | INT_KEY_TOO_BIG.

Definition CborResolveError_code (e : CborResolveError) : Z :=
  match e with INT_KEY_EXPECTED => 1 | KEY_NOT_FOUND => 2 | CONTAINER_EXPECTED => 3 | INT_KEY_TOO_BIG => 4 end.

Definition is_space (c : Z) : bool := (c =? 0x20) || (0x09 <=? c) && (c <=? 0x0D).
Definition is_decimal (c : Z) : bool := (0x30 <=? c) && (c <=? 0x39).

Fixpoint take_while (f : Z → bool) (s : bytes) : bytes :=
  match s with c :: s => if f c then c :: take_while f s else [] | [] => [] end.

(** [std::stoul]: white space, a sign, digits; the value and the characters used. *)
Inductive stoul_exception := invalid_argument | out_of_range.
Definition stoul (str : bytes) : outcome stoul_exception (Z * Z) :=
  let spaces := take_while is_space str in
  let rest := drop (length spaces) str in
  let '(sign, rest) := match rest with c :: r => if (c =? 0x2B) || (c =? 0x2D) then ([c], r) else ([], rest) | [] => ([], []) end in
  let digits := take_while is_decimal rest in
  let value := foldl (λ v c, 10 * v + (c - 0x30)) 0 digits in
  if bool_decide (digits = []) then failure invalid_argument
  else if 2 ^ 64 - 1 <? value then failure out_of_range
  else success (if bool_decide (sign = [0x2D]) then u64 (- value) else value, size spaces + size sign + size digits).

Definition parseIndex (str : bytes) : outcome CborResolveError Z :=
  match stoul str with
  | failure invalid_argument => failure INT_KEY_EXPECTED
  | failure out_of_range => failure KEY_NOT_FOUND
  | success (value, chars) =>
    if negb (chars =? size str) then failure INT_KEY_EXPECTED
    else if bool_decide (str !! 0%nat = Some 0x2D) then failure INT_KEY_EXPECTED
    else success value
  end.

Inductive resolve_error :=
| resolve_path (e : CborResolveError)
| resolve_cbor (e : decode_code).

Fixpoint skip (n : nat) : decoder () :=
  match n with O => mret tt | S n => _ ← next; skip n end.

(** What an exception of the body becomes. *)
Definition resolving {A} (a : attempt decode_exception A) : attempt resolve_error A :=
  match caught a with returned x => returned x | failed e => failed (resolve_cbor e) | thrown => thrown end.

(** The stream that [resolve] leaves in [stream]. *)
Definition resolve (stream : CborDecodeStream) (part : bytes) : attempt resolve_error CborDecodeStream :=
  if isList stream then
    match parseIndex part with
    | failure e => failed (resolve_path e)
    | success index =>
      '(n, stream) ← resolving (listLength stream);
      if n <=? index then failed (resolve_path KEY_NOT_FOUND)
      else
        '(l, _) ← resolving (list_ stream);
        '(_, l) ← resolving (skip (Z.to_nat index) l);
        returned l
    end
  else if isMap stream then
    '(m, _) ← resolving (map_ stream);
    match m !! part with
    | None => failed (resolve_path KEY_NOT_FOUND)
    | Some s => returned s
    end
  else failed (resolve_path CONTAINER_EXPECTED).

End decode.

Coercion own_code : CborDecodeError >-> decode_code.

(** [value()] of a [std::error_code]. *)
Definition decode_code_value (e : decode_code) : Z :=
  match e with own_code e => CborDecodeError_code e | library_code v => v end.

Lemma decoder_run `{!TinyCborParser} {A B} (c : decoder A) (f : A → decoder B) s a s' : c s = returned (a, s') → (c ≫= f) s = f a s'.
Proof. intros Hc. unfold mbind, decoder_bind. by rewrite Hc. Qed.

(** A step that cannot fail. *)
Ltac run := erewrite decoder_run by done; cbv beta.
