(* ===== verification/CborReads.v ===== *)
(** CBOR read back: what the decoding streams of [CborDecode.v] rely on of
    tinycbor's parser ([TinyCborParserLaws]), and what each reader then does in
    front of an encoded item ([reads]), containers and [resolve] included, and what
    they do not check. *)
From stdpp Require Import base numbers countable list gmap strings sorting.
From S2P Require Import Prelude Bytes Cid Cbor CborDecode.

Open Scope Z_scope.

(** * What the parser is relied on for *)

(** The head of a type this codec knows. *)
Definition known_head (major n : Z) : Prop := 0 ≤ n < 2 ^ 64 ∧ (0 ≤ major ≤ 6 ∨ major = 7 ∧ 20 ≤ n ≤ 22).

(** The head at [p] of the input that ends at [e]. *)
Definition head_at (d : bytes) (p e major n : Z) (rest : bytes) : Prop :=
  0 ≤ p ≤ e ∧ e ≤ size d ∧ known_head major n ∧ slice d p e = head major n ++ rest.

Definition is_tag (x : item) : bool := match x with cTag _ _ => true | _ => false end.

(** The items within the limits of the parser: the nesting and the counts. *)
Inductive parsable : nat → item → Prop :=
| parsable_array k l : size l < 2 ^ 31 → Forall (parsable k) l → parsable (S k) (cArray l)
| parsable_map k l : size l < 2 ^ 30 → Forall (λ p, parsable k p.2) l → parsable (S k) (cMap l)
| parsable_tag k t x : parsable k x → parsable (S k) (cTag t x)
| parsable_leaf k x : match x with cArray _ | cMap _ | cTag _ _ => False | _ => True end → parsable k x.

Definition readable (k : nat) (x : item) : Prop := wf_item x ∧ parsable k x.

Lemma parsable_le a b x : parsable a x → (a ≤ b)%nat → parsable b x.
Proof.
  revert a b. induction x as [n|n|y|y|l IH|l IH|t x IH|y|] using item_ind'; intros a b Hp Hab;
    try (apply parsable_leaf; done); inversion Hp; subst; try done; (destruct b as [|b]; [lia|]); constructor; try done.
  - rewrite List.Forall_forall in *. intros x Hx. eapply IH; [done|by match goal with H : ∀ x, In x _ → parsable _ x |- _ => apply H end|lia].
  - rewrite List.Forall_forall in *. intros x Hx. eapply (IH x Hx); [by match goal with H : ∀ x, In x _ → parsable _ x.2 |- _ => apply H end|lia].
  - eapply IH; [done|lia].
Qed.

(** Its documentation, on input that is well formed where it is read.  [points]
    says that a value is at an offset, with a number of elements left in its
    container; [finished] that it is behind the last of them.  A tag is not an
    element.  Integers are converted to [int64_t] without a check. *)
Class TinyCborParserLaws `{TinyCborParser} := {
  points : bytes → Z → CborValue → Z → Z → Prop;
  finished : CborValue → Z → Prop;
  max_nesting : nat;   (* CBOR_PARSER_MAX_RECURSIONS *)
  max_nesting_ok : (8 ≤ max_nesting)%nat;
  points_fields d e v p r : points d e v p r → ptr v = p ∧ remaining v = r ∧ cbor_value_at_end v = (r =? 0);
  points_set d e v p r r' : points d e v p r → 0 ≤ r' < 2 ^ 32 → points d e (set_remaining r' v) p r';
  finished_fields v p : finished v p → ptr v = p ∧ remaining v = 0 ∧ cbor_value_at_end v = true;
  parser_init d p e major n rest : head_at d p e major n rest → ∃ v, cbor_parser_init d p (e - p) = Some v ∧ points d e v p 1;
  value_kind d e v p r major n rest : points d e v p r → head_at d p e major n rest →
    cbor_value_is_boolean v = (major =? 7) && negb (n =? 22) ∧ cbor_value_is_null v = (major =? 7) && (n =? 22) ∧
    cbor_value_is_integer v = (major <? 2) ∧ cbor_value_is_unsigned_integer v = (major =? 0) ∧
    cbor_value_is_byte_string v = (major =? 2) ∧ cbor_value_is_text_string v = (major =? 3) ∧
    cbor_value_is_array v = (major =? 4) ∧ cbor_value_is_map v = (major =? 5) ∧ cbor_value_is_tag v = (major =? 6);
  value_get d e v p r major n rest : points d e v p r → head_at d p e major n rest →
    (major = 7 → cbor_value_get_boolean d v = (n =? 21)) ∧
    (major = 0 → cbor_value_get_uint64 d v = n ∧ cbor_value_get_int64 d v = swrap 64 n) ∧
    (major = 1 → cbor_value_get_int64 d v = swrap 64 (-1 - n)) ∧
    (major = 2 ∨ major = 3 → cbor_value_get_string_length d e v = Some n) ∧
    (major = 4 → cbor_value_get_array_length d e v = Some n) ∧
    (major = 6 → cbor_value_get_tag d v = n);
  value_copy d e v p r major b rest : points d e v p r → 1 ≤ r → head_at d p e major (size b) (b ++ rest) →
    (major = 2 → cbor_value_copy_byte_string d e v = Some b) ∧ (major = 3 → cbor_value_copy_text_string d e v = Some b);
  advance_last d e v p x rest : points d e v p 1 → 0 ≤ p ≤ e → e ≤ size d → readable max_nesting x → is_tag x = false →
    slice d p e = encode_item x ++ rest →
    ∃ v', cbor_value_advance d e v = Some v' ∧ finished v' (p + size (encode_item x));
  advance_more d e v p r x major n rest : points d e v p r → 1 < r < 2 ^ 32 - 1 → 0 ≤ p ≤ e → e ≤ size d →
    readable max_nesting x → is_tag x = false → slice d p e = encode_item x ++ head major n ++ rest → known_head major n →
    ∃ v', cbor_value_advance d e v = Some v' ∧ points d e v' (p + size (encode_item x)) (r - 1);
  advance_tag d e v p r t major n rest : points d e v p r → 1 ≤ r → head_at d p e 6 t (head major n ++ rest) → known_head major n →
    ∃ v', cbor_value_advance d e v = Some v' ∧ points d e v' (p + size (head 6 t)) r;
  skip_no_tag d e v p r major n rest : points d e v p r → head_at d p e major n rest → major ≠ 6 → cbor_value_skip_tag d e v = Some v;
  skip_one_tag d e v p r t major n rest : points d e v p r → 1 ≤ r → head_at d p e 6 t (head major n ++ rest) → known_head major n → major ≠ 6 →
    ∃ v', cbor_value_skip_tag d e v = Some v' ∧ points d e v' (p + size (head 6 t)) r;
  enter_empty d e v p r major rest : points d e v p r → head_at d p e major 0 rest → major = 4 ∨ major = 5 →
    ∃ v', cbor_value_enter_container d e v = Some v' ∧ finished v' (p + 1);
  enter_container d e v p r major n major' n' rest : points d e v p r → head_at d p e major n (head major' n' ++ rest) → known_head major' n' →
    major = 4 ∨ major = 5 → 0 < n < 2 ^ 31 → (major = 5 → n < 2 ^ 30) →
    ∃ v', cbor_value_enter_container d e v = Some v' ∧ points d e v' (p + size (head major n)) (if major =? 4 then n else 2 * n)
}.

(** ** Slices *)

Lemma slice_app d p e a b : 0 ≤ p ≤ e → e ≤ size d → slice d p e = a ++ b →
  p + size a ≤ e ∧ slice d p (p + size a) = a ∧ slice d (p + size a) e = b.
Proof.
  intros Hp He Hs. pose proof (size_nonneg a). pose proof (size_nonneg b).
  assert (size a + size b = e - p) as Hsz.
  { rewrite <- size_app, <- Hs. unfold slice, size in *. rewrite length_take, length_drop. lia. }
  split; [lia|]. unfold slice in *. split.
  - replace (Z.to_nat (p + size a - p)) with (length a) by (unfold size; lia).
    transitivity (take (length a) (a ++ b)); [|apply take_app_length]. rewrite <- Hs, take_take. f_equal. unfold size in *. lia.
  - transitivity (drop (length a) (a ++ b)); [|apply drop_app_length].
    rewrite <- Hs, skipn_firstn_comm, drop_drop. f_equal; [unfold size in *; lia|]. f_equal. unfold size in *. lia.
Qed.

Lemma slice_all d : slice d 0 (size d) = d.
Proof. unfold slice. rewrite drop_0. apply take_ge. unfold size. lia. Qed.

(** ** The head of an item *)

Definition item_head (x : item) : Z * Z :=
  match x with
  | cUint n => (0, n)
  | cNint n => (1, n)
  | cBytes b => (2, size b)
  | cText b => (3, size b)
  | cArray l => (4, size l)
  | cMap l => (5, size l)
  | cTag t _ => (6, t)
  | cBool b => (7, 20 + Z.b2z b)
  | cNull => (7, 22)
  end.

Definition item_body (x : item) : bytes :=
  match x with
  | cBytes b | cText b => b
  | cArray l => encode_items l
  | cMap l => encode_items (l ≫= λ p, [cText p.1; p.2])
  | cTag _ x => encode_item x
  | _ => []
  end.

Lemma item_split x : encode_item x = head (item_head x).1 (item_head x).2 ++ item_body x.
Proof.
  destruct x as [n|n|b|b|l|l|t x|b|]; cbn [encode_item item_head item_body fst snd]; rewrite ?app_nil_r; try done.
  - f_equal. apply encode_entries.
  - by destruct b.
Qed.

Lemma item_head_known x : wf_item x → known_head (item_head x).1 (item_head x).2.
Proof.
  unfold known_head. inversion 1; subst; cbn [item_head fst snd]; try (split; [|lia]); try lia;
    try (split; [apply size_nonneg|done]). destruct b; cbn; lia.
Qed.

Section decoding.
Context {M : Type} `{!Multiformats M, !TinyCborParser, !TinyCborParserLaws}.
Implicit Types (s : CborDecodeStream) (x : item).

(** A stream in front of items, with [r] of them left in the container it reads;
    the items behind these are those that follow the container. *)
Definition decoder_at s (its : list item) (r : Z) : Prop :=
  0 ≤ end_ s ≤ size (bytes_ s) ∧
  match its with
  | [] => finished (value_ s) (end_ s)
  | _ => ∃ p, points (bytes_ s) (end_ s) (value_ s) p r ∧ 0 ≤ p ≤ end_ s ∧
      slice (bytes_ s) p (end_ s) = encode_items its ∧ Forall (readable max_nesting) its
  end.

(** The items, and that the end and the bytes are those of another stream. *)
Definition moved s s' : Prop := bytes_ s' = bytes_ s ∧ end_ s' = end_ s.

Lemma item_head_at s p x its : 0 ≤ p ≤ end_ s → end_ s ≤ size (bytes_ s) → wf_item x →
  slice (bytes_ s) p (end_ s) = encode_items (x :: its) →
  head_at (bytes_ s) p (end_ s) (item_head x).1 (item_head x).2 (item_body x ++ encode_items its).
Proof.
  intros Hp He Hx Hs. split_and!; [lia..|by apply item_head_known|]. rewrite Hs. unfold encode_items. cbn [flat_map].
  by rewrite item_split, <- app_assoc.
Qed.

(** What a stream in front of an item can tell. *)
Lemma decoder_at_head s x its r : decoder_at s (x :: its) r →
  ∃ p, points (bytes_ s) (end_ s) (value_ s) p r ∧ ptr (value_ s) = p ∧ remaining (value_ s) = r ∧
    head_at (bytes_ s) p (end_ s) (item_head x).1 (item_head x).2 (item_body x ++ encode_items its) ∧
    slice (bytes_ s) p (end_ s) = encode_item x ++ encode_items its ∧ readable max_nesting x ∧ Forall (readable max_nesting) its.
Proof.
  intros (He & p & Hp & Hpe & Hs & Hr). apply Forall_cons in Hr as [Hx Hr]. destruct (points_fields _ _ _ _ _ Hp) as (? & ? & _).
  exists p. split_and!; try done. by apply item_head_at; [|lia|apply Hx|].
Qed.

(** Entering [next], after a tag is skipped: the element is left behind. *)
Lemma advance_reinit s x its r : decoder_at s (x :: its) r → is_tag x = false → 0 ≤ r < 2 ^ 32 →
  ∃ v, cbor_value_advance (bytes_ s) (end_ s) (set_remaining 1 (value_ s)) = Some v ∧ remaining v = 0 ∧
    ptr v = ptr (value_ s) + size (encode_item x) ∧
    (ptr v = end_ s ∧ its = [] ∧ finished v (end_ s) ∨
     ptr v ≠ end_ s ∧ ∃ v', cbor_parser_init (bytes_ s) (ptr v) (end_ s - ptr v) = Some v' ∧
       ∀ r', 0 ≤ r' < 2 ^ 32 → decoder_at (mkDecodeStream (bytes_ s) (end_ s) (set_remaining r' v')) its r' ∧ ptr (set_remaining r' v') = ptr v).
Proof.
  intros Hat Ht Hr. pose proof Hat as (Hend & _). apply decoder_at_head in Hat as (p & Hp & Hptr & _ & Hhead & Hs & Hx & Hits).
  destruct Hhead as (Hpe & He & _). apply (points_set _ _ _ _ _ 1) in Hp; [|lia].
  destruct (advance_last _ _ _ _ _ _ Hp Hpe He Hx Ht Hs) as (v & Hv & Hf). exists v. destruct (finished_fields _ _ Hf) as (Hvp & Hvr & _).
  destruct (slice_app _ _ _ _ _ Hpe He Hs) as (Hle & _ & Hrest). pose proof (size_nonneg (encode_item x)).
  rewrite Hptr. split_and!; [done|done|done|]. rewrite Hvp. destruct its as [|y its].
  - left. assert (p + size (encode_item x) = end_ s) as Heq; [|by rewrite <- Heq].
    apply (f_equal size) in Hrest. unfold slice, encode_items in Hrest. cbn [flat_map] in Hrest. unfold size in Hrest.
    rewrite length_take, length_drop in Hrest. cbn [length] in Hrest. unfold size in *. lia.
  - right. apply Forall_cons in Hits as [Hy Hits].
    pose proof (item_head_at s (p + size (encode_item x)) y its ltac:(lia) He (proj1 Hy) Hrest) as Hha.
    split.
    + intros Heq. rewrite Heq in Hrest. unfold slice in Hrest. rewrite Z.sub_diag in Hrest. change (Z.to_nat 0) with 0%nat in Hrest. rewrite take_0 in Hrest.
      apply (f_equal size) in Hrest. unfold encode_items in Hrest. cbn [flat_map] in Hrest. rewrite size_app, (@size_nil Z) in Hrest.
      pose proof (encode_item_size y). pose proof (size_nonneg (flat_map encode_item its)). lia.
    + destruct (parser_init _ _ _ _ _ _ Hha) as (v' & Hv' & Hp'). exists v'. split; [done|]. intros r' Hr'.
      pose proof (points_set _ _ _ _ _ _ Hp' Hr') as Hp''. split; [|apply (points_fields _ _ _ _ _ Hp'')].
      split; [done|]. exists (p + size (encode_item x)). cbn [bytes_ end_ value_]. split_and!; [done|lia|lia|done|by constructor].
Qed.

(** *** [next] *)

(** The elements that [next] steps over whole: anything but a tag other than that
    of a CID, and a CID's tag on an element without a tag. *)
Definition element x : Prop := match x with cTag t y => t = kCidTag ∧ is_tag y = false | _ => True end.

Lemma isCid_at s x its r : decoder_at s (x :: its) r → isCid s = match x with cTag t _ => t =? kCidTag | _ => false end.
Proof.
  intros (p & Hp & _ & _ & Hh & _ & Hx & _)%decoder_at_head. unfold isCid.
  destruct (value_kind _ _ _ _ _ _ _ _ Hp Hh) as (_ & _ & _ & _ & _ & _ & _ & _ & ->).
  destruct (value_get _ _ _ _ _ _ _ _ Hp Hh) as (_ & _ & _ & _ & _ & Htag).
  destruct x as [n|n|b|b|l|l|t x|b|]; cbn [item_head fst snd negb Z.eqb Pos.eqb] in *; try done. by rewrite Htag.
Qed.

(** The tag of a CID is skipped. *)
Lemma skip_cid_tag s t x its r : decoder_at s (cTag t x :: its) r → is_tag x = false → 1 ≤ r →
  ∃ v, cbor_value_skip_tag (bytes_ s) (end_ s) (value_ s) = Some v ∧
    decoder_at (mkDecodeStream (bytes_ s) (end_ s) v) (x :: its) r ∧ ptr v = ptr (value_ s) + size (head 6 t).
Proof.
  intros Hat Ht Hr. pose proof Hat as (Hend & _). apply decoder_at_head in Hat as (p & Hp & Hptr & _ & Hh & Hs & [Hx Hpx] & Hits).
  inversion Hx; subst. inversion Hpx; subst; [|done]. cbn [item_head item_body fst snd] in Hh. destruct Hh as (Hpe & He & Hk & Hsl).
  assert (head_at (bytes_ s) (ptr (value_ s)) (end_ s) 6 t (head (item_head x).1 (item_head x).2 ++ (item_body x ++ encode_items its))) as Hh'.
  { split_and!; try done; try lia; try apply Hk. rewrite Hsl. by rewrite item_split, <- app_assoc. }
  assert ((item_head x).1 ≠ 6) as H6 by (by destruct x).
  destruct (skip_one_tag _ _ _ _ _ _ _ _ _ Hp Hr Hh' (item_head_known x ltac:(done)) H6) as (v & Hv & Hpv).
  exists v. split; [done|]. destruct (points_fields _ _ _ _ _ Hpv) as (Hptr & _). split; [|done]. split; [done|].
  destruct (slice_app _ _ _ (head 6 t) _ Hpe He Hsl) as (Hle & _ & Hrest). pose proof (size_nonneg (head 6 t)).
  exists (ptr (value_ s) + size (head 6 t)). cbn [bytes_ end_ value_]. split_and!; [done|lia|lia| |].
  - rewrite Hrest. unfold encode_items. done.
  - constructor; [|done]. split; [done|].
    eapply parsable_le; [done|lia].
Qed.

Lemma update_value_run f s v : f (bytes_ s) (end_ s) (value_ s) = Some v →
  update_value f s = returned (tt, mkDecodeStream (bytes_ s) (end_ s) v).
Proof. intros Hf. unfold update_value, checked, mbind, decoder_bind. by rewrite Hf. Qed.

(** The part of [next] behind the tag. *)
Definition step_over : decoder () :=
  saved ← observe (λ s, remaining (value_ s));
  _ ← (v ← observe value_; set_value (set_remaining 1 v));
  _ ← update_value cbor_value_advance;
  s ← observe id;
  if ptr (value_ s) =? end_ s then mret tt
  else
    let rest := wrap 32 (saved + (remaining (value_ s) - 1)) in
    v ← checked (λ s, cbor_parser_init (bytes_ s) (ptr (value_ s)) (end_ s - ptr (value_ s)));
    set_value (set_remaining rest v).

Lemma next_eq : next = (cid ← observe isCid; _ ← (if cid : bool then update_value cbor_value_skip_tag else mret tt); step_over).
Proof. reflexivity. Qed.

Lemma step_over_at s x its r : decoder_at s (x :: its) r → is_tag x = false → 0 ≤ r < 2 ^ 32 →
  ∃ s', step_over s = returned (tt, s') ∧ decoder_at s' its (wrap 32 (r - 1)) ∧ moved s s' ∧
    ptr (value_ s') = ptr (value_ s) + size (encode_item x).
Proof.
  intros Hat Ht Hr. destruct (advance_reinit s x its r Hat Ht Hr) as (v & Hv & Hrem & Hptr & Hcase).
  pose proof (proj1 Hat) as Hend. apply decoder_at_head in Hat as (p & _ & _ & Hsaved & _).
  unfold step_over. run. rewrite Hsaved.
  run. erewrite decoder_run by (apply update_value_run; exact Hv).
  run. cbn [id bytes_ end_ value_]. destruct Hcase as [(He & -> & Hf)|(Hne & v' & Hi & Hat')].
  - rewrite He, Z.eqb_refl. eexists. split; [done|]. split; [done|]. split; [done|]. cbn [value_]. lia.
  - rewrite (proj2 (Z.eqb_neq _ _) Hne), Hrem. cbv zeta. erewrite decoder_run by (unfold checked; cbn [bytes_ end_ value_]; by rewrite Hi).
    pose proof (wrap_bound 32 (r - 1) ltac:(lia)) as Hb. replace (r + (0 - 1)) with (r - 1) by lia.
    destruct (Hat' (wrap 32 (r - 1)) Hb) as [Hd Hp'].
    eexists. split; [done|]. split; [exact Hd|]. split; [done|]. cbn [value_]. by rewrite Hp'.
Qed.

Lemma next_at s x its r : decoder_at s (x :: its) r → element x → 0 ≤ r < 2 ^ 32 → (is_tag x = true → 1 ≤ r) →
  ∃ s', next s = returned (tt, s') ∧ decoder_at s' its (wrap 32 (r - 1)) ∧ moved s s' ∧
    ptr (value_ s') = ptr (value_ s) + size (encode_item x).
Proof.
  intros Hat Hel Hr Htag. rewrite next_eq. run. rewrite (isCid_at _ _ _ _ Hat).
  destruct (is_tag x) eqn:Ht.
  - destruct x as [| | | | | |t x| |]; try done. destruct Hel as [-> Hnt]. rewrite Z.eqb_refl.
    destruct (skip_cid_tag _ _ _ _ _ Hat Hnt (Htag eq_refl)) as (v & Hv & Hat' & Hptr).
    erewrite decoder_run by (apply update_value_run; exact Hv).
    destruct (step_over_at _ _ _ _ Hat' Hnt Hr) as (s' & Hs' & Hd & Hm & Hp'). exists s'. split; [done|]. split; [done|]. split; [done|].
    rewrite Hp'. cbn [value_]. rewrite Hptr. cbn [encode_item]. rewrite size_app. lia.
  - assert (match x with cTag t _ => t =? kCidTag | _ => false end = false) as -> by (by destruct x).
    run. by apply step_over_at.
Qed.

(** *** Readers *)

(** A reader that takes the item [x] as [a], wherever there is one. *)
Definition reads {A} (get : decoder A) x (a : A) : Prop := ∀ s its r, decoder_at s (x :: its) r → 1 ≤ r < 2 ^ 32 →
  ∃ s', get s = returned (a, s') ∧ decoder_at s' its (r - 1) ∧ moved s s' ∧ ptr (value_ s') = ptr (value_ s) + size (encode_item x).

Lemma reads_next x : element x → reads next x tt.
Proof.
  intros Hel s its r Hat Hr. destruct (next_at s x its r Hat Hel ltac:(lia) ltac:(lia)) as (s' & Hs' & Hd & Hm & Hp).
  exists s'. rewrite wrap_small in Hd by lia. done.
Qed.

(** A reader that tests and observes the element, then goes on to the next. *)
Lemma reads_then {A} (a : A) x (c : decoder A) :
  element x → (∀ s its r, decoder_at s (x :: its) r → c s = returned (a, s)) → reads (a ← c; _ ← next; mret a) x a.
Proof.
  intros Hel Hc s its r Hat Hr. rewrite (decoder_run _ _ _ _ _ (Hc _ _ _ Hat)).
  destruct (reads_next x Hel s its r Hat Hr) as (s' & Hs' & Hd). exists s'. split; [|done]. by rewrite (decoder_run _ _ _ _ _ Hs').
Qed.

Lemma reads_ext {A} (c c' : decoder A) x a : (∀ s its r, decoder_at s (x :: its) r → 1 ≤ r → c s = c' s) → reads c' x a → reads c x a.
Proof. intros He Hc s its r Hat Hr. rewrite (He _ _ _ Hat ltac:(lia)). by apply Hc. Qed.

Lemma kind_at s x its r : decoder_at s (x :: its) r →
  let '(major, n) := item_head x in
  isBool s = (major =? 7) && negb (n =? 22) ∧ isNull s = (major =? 7) && (n =? 22) ∧
    isInt s = (major <? 2) ∧ cbor_value_is_unsigned_integer (value_ s) = (major =? 0) ∧
    isBytes s = (major =? 2) ∧ isStr s = (major =? 3) ∧
    isList s = (major =? 4) ∧ isMap s = (major =? 5) ∧ cbor_value_is_tag (value_ s) = (major =? 6).
Proof.
  intros (p & Hp & _ & _ & Hh & _)%decoder_at_head. pose proof (value_kind _ _ _ _ _ _ _ _ Hp Hh) as Hk.
  by destruct (item_head x).
Qed.

(** The containers, byte strings and tags a stream tells apart. *)
Definition is_array x : bool := match x with cArray _ => true | _ => false end.
Definition is_map x : bool := match x with cMap _ => true | _ => false end.
Definition is_bytes x : bool := match x with cBytes _ => true | _ => false end.

Lemma kinds_at s x its r : decoder_at s (x :: its) r →
  isList s = is_array x ∧ isMap s = is_map x ∧ isBytes s = is_bytes x ∧ cbor_value_is_tag (value_ s) = is_tag x.
Proof.
  intros Hat. pose proof (kind_at _ _ _ _ Hat) as Hk.
  destruct x as [n|n|b|b|l|l|t x|[|]|]; destruct Hk as (_ & _ & _ & _ & -> & _ & -> & -> & ->); done.
Qed.

Lemma reads_bool b : reads get_bool (cBool b) b.
Proof.
  eapply reads_ext; [|apply (reads_then b (cBool b) (observe (λ s, cbor_value_get_boolean (bytes_ s) (value_ s)))); [done|]].
  - intros s its r Hat _. destruct (kind_at _ _ _ _ Hat) as (Hb & _). unfold get_bool. run. rewrite Hb. by destruct b.
  - intros s its r (p & Hp & _ & _ & Hh & _)%decoder_at_head. destruct (value_get _ _ _ _ _ _ _ _ Hp Hh) as (Hg & _).
    unfold observe. rewrite Hg by done. by destruct b.
Qed.

Lemma reads_unsigned w n : 0 ≤ n < 2 ^ w → reads (get_unsigned w) (cUint n) n.
Proof.
  intros Hn. eapply reads_ext; [|apply (reads_then n (cUint n) (mret n)); [done|by intros]].
  intros s its r Hat _. destruct (kind_at _ _ _ _ Hat) as (_ & _ & Hi & Hu & _).
  pose proof Hat as (p & Hp & _ & _ & Hh & _)%decoder_at_head. destruct (value_get _ _ _ _ _ _ _ _ Hp Hh) as (_ & Hg & _).
  destruct (Hg eq_refl) as [Hg1 _]. unfold get_unsigned. run. rewrite Hi. change (negb (0 <? 2)) with false. cbv iota.
  run. rewrite Hu. change (negb (0 =? 0)) with false. cbv iota. run. rewrite Hg1. cbn [item_head snd].
  by rewrite (proj2 (Z.ltb_ge _ _)) by lia.
Qed.

Lemma reads_signed w n : 0 < w ≤ 64 → - 2 ^ (w - 1) ≤ n < 2 ^ (w - 1) → reads (get_signed w) (int_item n) n.
Proof.
  intros Hw Hn. assert (2 ^ (w - 1) ≤ 2 ^ 63) by (apply Z.pow_le_mono_r; lia).
  eapply reads_ext; [|apply (reads_then n (int_item n) (mret n)); [by unfold int_item; case_match|by intros]].
  intros s its r Hat _. pose proof (kind_at _ _ _ _ Hat) as Hk.
  pose proof Hat as (p & Hp & _ & _ & Hh & _)%decoder_at_head. destruct (value_get _ _ _ _ _ _ _ _ Hp Hh) as (_ & Hg & Hg' & _).
  assert (isInt s = true ∧ cbor_value_get_int64 (bytes_ s) (value_ s) = n) as [Hi Hv].
  { unfold int_item in *. destruct (Z.ltb_spec n 0); cbn [item_head fst snd] in *; destruct Hk as (_ & _ & -> & _); (split; [done|]).
    - rewrite Hg' by done. unfold swrap. rewrite Z.mod_small; lia.
    - destruct (Hg eq_refl) as [_ ->]. unfold swrap. rewrite Z.mod_small; lia. }
  unfold get_signed. run. rewrite Hi. cbn [negb]. run. rewrite Hv.
  by rewrite (proj2 (Z.ltb_ge _ _)), (proj2 (Z.ltb_ge _ _)) by lia.
Qed.

(** An unsigned integer above the range of [int64_t] is read as another one. *)
Lemma signed_wraps w n : 0 < w ≤ 64 → 2 ^ 63 ≤ n < 2 ^ 64 → - 2 ^ (w - 1) ≤ n - 2 ^ 64 →
  reads (get_signed w) (cUint n) (n - 2 ^ 64).
Proof.
  intros Hw Hn Hr. assert (2 ^ (w - 1) ≤ 2 ^ 63) by (apply Z.pow_le_mono_r; lia). assert (0 < 2 ^ (w - 1)) by (apply Z.pow_pos_nonneg; lia).
  eapply reads_ext; [|apply (reads_then (n - 2 ^ 64) (cUint n) (mret (n - 2 ^ 64))); [done|by intros]].
  intros s its r Hat _. destruct (kind_at _ _ _ _ Hat) as (_ & _ & Hi & _).
  pose proof Hat as (p & Hp & _ & _ & Hh & _)%decoder_at_head. destruct (value_get _ _ _ _ _ _ _ _ Hp Hh) as (_ & Hg & _).
  destruct (Hg eq_refl) as [_ Hv]. cbn [item_head snd] in Hv.
  assert (swrap 64 n = n - 2 ^ 64) as Hsw.
  { unfold swrap. replace ((n + 2 ^ (64 - 1)) mod 2 ^ 64) with (n + 2 ^ 63 - 2 ^ 64); [lia|]. apply Z.mod_unique with 1; lia. }
  unfold get_signed. run. rewrite Hi. change (negb (0 <? 2)) with false. cbv iota. run. rewrite Hv, Hsw.
  by rewrite (proj2 (Z.ltb_ge _ _)), (proj2 (Z.ltb_ge _ _)) by lia.
Qed.


(** *** Strings *)

Lemma string_at s x b its r : decoder_at s (x :: its) r → x = cBytes b ∨ x = cText b →
  cbor_value_get_string_length (bytes_ s) (end_ s) (value_ s) = Some (size b) ∧
  (x = cBytes b → cbor_value_copy_byte_string (bytes_ s) (end_ s) (set_remaining 1 (value_ s)) = Some b) ∧
  (x = cText b → cbor_value_copy_text_string (bytes_ s) (end_ s) (set_remaining 1 (value_ s)) = Some b).
Proof.
  intros (p & Hp & _ & _ & Hh & _)%decoder_at_head Hx.
  destruct (value_get _ _ _ _ _ _ _ _ Hp Hh) as (_ & _ & _ & Hlen & _).
  pose proof (points_set _ _ _ _ _ 1 Hp ltac:(lia)) as Hp1.
  destruct Hx as [-> | ->]; cbn [item_head item_body fst snd] in *;
    destruct (value_copy _ _ _ _ _ _ _ _ Hp1 ltac:(lia) Hh) as [Hb Ht]; (split; [apply Hlen; lia|]); split; auto; done.
Qed.

Lemma bytesLength_at s b its r : decoder_at s (cBytes b :: its) r → bytesLength s = returned (size b, s).
Proof.
  intros Hat. destruct (string_at _ _ b _ _ Hat ltac:(by left)) as (Hl & _). destruct (kind_at _ _ _ _ Hat) as (_ & _ & _ & _ & Hb & _).
  unfold bytesLength. run. rewrite Hb. change (negb (2 =? 2)) with false. cbv iota. unfold checked. by rewrite Hl.
Qed.

Lemma reads_span b : reads (get_span (size b)) (cBytes b) b.
Proof.
  eapply reads_ext; [|apply (reads_then b (cBytes b) (mret b)); [done|by intros]].
  intros s its r Hat _. destruct (string_at _ _ b _ _ Hat ltac:(by left)) as (_ & Hc & _).
  unfold get_span. rewrite (decoder_run _ _ _ _ _ (bytesLength_at _ _ _ _ Hat)). rewrite Z.eqb_refl. cbn [negb].
  erewrite decoder_run by (unfold checked; by rewrite Hc). done.
Qed.

Lemma reads_bytes b : size b ≤ max_size → reads get_bytes (cBytes b) b.
Proof.
  intros Hb. eapply reads_ext; [|apply (reads_span b)]. intros s its r Hat _. unfold get_bytes.
  rewrite (decoder_run _ _ _ _ _ (bytesLength_at _ _ _ _ Hat)).
  erewrite decoder_run by (unfold resize_to; by rewrite (proj2 (Z.ltb_ge _ _)) by lia). done.
Qed.

Lemma reads_string b : size b ≤ max_size → reads get_string (cText b) b.
Proof.
  intros Hb. eapply reads_ext; [|apply (reads_then b (cText b) (mret b)); [done|by intros]].
  intros s its r Hat _. destruct (string_at _ _ b _ _ Hat ltac:(by right)) as (Hl & _ & Hc).
  destruct (kind_at _ _ _ _ Hat) as (_ & _ & _ & _ & _ & Ht & _).
  unfold get_string. run. rewrite Ht. change (negb (3 =? 3)) with false. cbv iota.
  erewrite decoder_run by (unfold checked; by rewrite Hl).
  erewrite decoder_run by (unfold resize_to; by rewrite (proj2 (Z.ltb_ge _ _)) by lia).
  erewrite decoder_run by (unfold checked; by rewrite Hc). done.
Qed.

(** *** Optionals *)

Lemma reads_optional {A} (get : decoder A) (denote : A → item) (o : option A) :
  (∀ a, o = Some a → reads get (denote a) a ∧ denote a ≠ cNull) → reads (get_optional get) (from_option denote cNull o) o.
Proof.
  intros Ho. destruct o as [a|]; cbn [from_option].
  - destruct (Ho a eq_refl) as [Hr Hn]. intros s its r Hat Hr'. pose proof (kind_at _ _ _ _ Hat) as Hk.
    destruct (Hr s its r Hat Hr') as (s' & Hs' & Hd). exists s'. split; [|done]. unfold get_optional. run.
    assert (isNull s = false) as ->. { destruct (denote a) as [n|n|y|y|l|l|t y|[|]|]; [by destruct Hk as (_ & -> & _)..|done]. }
    by rewrite (decoder_run _ _ _ _ _ Hs').
  - intros s its r Hat Hr. destruct (kind_at _ _ _ _ Hat) as (_ & Hnull & _).
    destruct (reads_next cNull I s its r Hat Hr) as (s' & Hs' & Hd). exists s'. split; [|done]. unfold get_optional. run.
    rewrite Hnull. change ((7 =? 7) && (22 =? 22)) with true. cbv iota. by rewrite (decoder_run _ _ _ _ _ Hs').
Qed.

(** *** CIDs *)

Lemma advance_cid_tag s t x its r : decoder_at s (cTag t x :: its) r → 1 ≤ r →
  ∃ v, cbor_value_advance (bytes_ s) (end_ s) (value_ s) = Some v ∧
    decoder_at (mkDecodeStream (bytes_ s) (end_ s) v) (x :: its) r ∧ ptr v = ptr (value_ s) + size (head 6 t).
Proof.
  intros Hat Hr. pose proof Hat as (Hend & _). apply decoder_at_head in Hat as (p & Hp & Hptr & _ & Hh & Hs & [Hx Hpx] & Hits).
  inversion Hx; subst. inversion Hpx; subst; [|done]. cbn [item_head item_body fst snd] in Hh. destruct Hh as (Hpe & He & Hk & Hsl).
  assert (head_at (bytes_ s) (ptr (value_ s)) (end_ s) 6 t (head (item_head x).1 (item_head x).2 ++ (item_body x ++ encode_items its))) as Hh'.
  { split_and!; try done; try lia; try apply Hk. rewrite Hsl. by rewrite item_split, <- app_assoc. }
  destruct (advance_tag _ _ _ _ _ _ _ _ _ Hp Hr Hh' (item_head_known x ltac:(done))) as (v & Hv & Hpv).
  exists v. split; [done|]. destruct (points_fields _ _ _ _ _ Hpv) as (Hptr & _). split; [|done]. split; [done|].
  destruct (slice_app _ _ _ (head 6 t) _ Hpe He Hsl) as (Hle & _ & Hrest). pose proof (size_nonneg (head 6 t)).
  exists (ptr (value_ s) + size (head 6 t)). cbn [bytes_ end_ value_]. split_and!; [done|lia|lia| |].
  - rewrite Hrest. unfold encode_items. done.
  - constructor; [|done]. split; [done|]. eapply parsable_le; [done|lia].
Qed.

(** A tagged byte string, whatever is in it. *)
Lemma get_cid_run s b its r : decoder_at s (cTag kCidTag (cBytes b) :: its) r → 1 ≤ r < 2 ^ 32 → size b ≤ max_size →
  ∃ s', decoder_at s' its (r - 1) ∧ moved s s' ∧ ptr (value_ s') = ptr (value_ s) + size (encode_item (cTag kCidTag (cBytes b))) ∧
    get_cid (M:=M) s =
      match b with
      | [] => thrown
      | x :: b =>
        if negb (x =? 0) then failed (cbor_error INVALID_CBOR_CID)
        else match fromBytes b with success cid => returned (cid, s') | failure _ => failed (cbor_error INVALID_CID) end
      end.
Proof.
  intros Hat Hr Hb. destruct (kind_at _ _ _ _ Hat) as (_ & _ & _ & _ & _ & _ & _ & _ & Htag).
  destruct (advance_cid_tag _ _ _ _ _ Hat ltac:(lia)) as (v & Hv & Hat' & Hptr).
  destruct (reads_bytes b Hb _ _ _ Hat' Hr) as (s' & Hs' & Hd & Hm & Hp'). exists s'. split; [done|]. split; [done|].
  split. { rewrite Hp'. cbn [value_]. rewrite Hptr. cbn [encode_item]. rewrite !size_app. lia. }
  pose proof Hat as (p & Hp & _ & _ & Hh & _)%decoder_at_head. destruct (value_get _ _ _ _ _ _ _ _ Hp Hh) as (_ & _ & _ & _ & _ & Hgt).
  specialize (Hgt eq_refl). cbn [item_head snd] in Hgt.
  destruct (kind_at _ _ _ _ Hat') as (_ & _ & _ & _ & Hib & _).
  unfold get_cid. run. rewrite Htag. change (negb (6 =? 6)) with false. cbv iota. run. rewrite Hgt, Z.eqb_refl. cbn [negb].
  erewrite decoder_run by (apply update_value_run; exact Hv). run. rewrite Hib. change (negb (2 =? 2)) with false. cbv iota.
  rewrite (decoder_run _ _ _ _ _ Hs'). destruct b as [|x b]; [done|]. destruct (x =? 0); [|done]. cbn [negb]. by destruct (fromBytes b).
Qed.

Lemma reads_cid (c : CID M) b : fromBytes b = success c → size b < max_size → reads get_cid (cTag kCidTag (cBytes (0 :: b))) c.
Proof.
  intros Hc Hb s its r Hat Hr. destruct (get_cid_run s (0 :: b) its r Hat Hr) as (s' & Hd & Hm & Hp & Hrun); [rewrite size_cons; lia|].
  exists s'. split; [|done]. rewrite Hrun. cbn [negb Z.eqb]. by rewrite Hc.
Qed.

(** *** Containers *)

(** A stream inside a container of the items [l]; [its] follow the container. *)
Definition inside s s' (l its : list item) : Prop := moved s s' ∧
  match l with
  | [] => cbor_value_at_end (value_ s') = true
  | _ => decoder_at s' (l ++ its) (size l)
  end.

Lemma container_at s x l its r : decoder_at s (x :: its) r →
  x = cArray l ∨ (∃ es, x = cMap es ∧ l = es ≫= λ p, [cText p.1; p.2]) → Forall (readable max_nesting) l →
  ∃ s', container s = returned (s', s) ∧ inside s s' l its.
Proof.
  intros Hat Hx Hl. pose proof Hat as (Hend & _). apply decoder_at_head in Hat as (p & Hp & _ & _ & Hh & Hsl & [Hwx Hpx] & Hits).
  assert (∃ major n, item_head x = (major, n) ∧ (major = 4 ∨ major = 5) ∧ item_body x = encode_items l ∧
    size l = (if major =? 4 then n else 2 * n) ∧ n < 2 ^ 31 ∧ (major = 5 → n < 2 ^ 30)) as (major & n & Hxh & Hmaj & Hbody & Hsize & Hn & Hn').
  { destruct Hx as [-> | (es & -> & ->)].
    - exists 4, (size l). inversion Hpx; subst; [|done]. split_and!; first [done|lia|by left].
    - exists 5, (size es). rewrite size_entries. inversion Hpx; subst; [|done]. split_and!; first [done|lia|by right]. }
  rewrite Hxh in Hh. cbn [fst snd] in Hh. rewrite Hbody in Hh. pose proof Hh as (Hpe & He & [Hn64 _] & Hs).
  unfold container. destruct l as [|y l].
  - assert (n = 0) as -> by (change (size []) with 0 in Hsize; destruct (major =? 4); lia).
    destruct (enter_empty _ _ _ _ _ _ _ Hp Hh Hmaj) as (v & Hv & Hf).
    erewrite decoder_run by (unfold checked; by rewrite Hv). eexists. split; [done|]. split; [done|]. cbn [value_]. apply (finished_fields _ _ Hf).
  - assert (0 < n) as Hpos by (rewrite size_cons in Hsize; pose proof (size_nonneg l); destruct (major =? 4); lia).
    pose proof (Forall_inv Hl) as [Hwy _].
    assert (head_at (bytes_ s) p (end_ s) major n (head (item_head y).1 (item_head y).2 ++ (item_body y ++ encode_items (l ++ its)))) as Hh'.
    { destruct Hh as (H1 & H2 & H3 & H4). split_and!; try lia; try apply H3. rewrite H4, encode_items_app. unfold encode_items at 1. cbn [flat_map].
      rewrite item_split, <- !app_assoc. done. }
    destruct (enter_container _ _ _ _ _ _ _ _ _ _ Hp Hh' (item_head_known y Hwy) Hmaj (conj Hpos Hn) Hn') as (v & Hv & Hpv).
    erewrite decoder_run by (unfold checked; by rewrite Hv). eexists. split; [done|]. split; [done|].
    destruct (slice_app _ _ _ (head major n) _ Hpe He Hs) as (Hle & _ & Hrest). pose proof (size_nonneg (head major n)).
    split; [done|]. exists (p + size (head major n)). cbn [bytes_ end_ value_]. rewrite Hsize. split_and!; [done|lia|lia| |].
    + rewrite Hrest, <- encode_items_app. done.
    + by apply Forall_app_2.
Qed.

Lemma readable_array l : readable max_nesting (cArray l) → Forall (readable max_nesting) l ∧ size l < 2 ^ 31.
Proof.
  intros [Hw Hp]. inversion Hw; subst. inversion Hp; subst; [|done]. split; [|done]. apply List.Forall_forall. intros x Hx. split.
  - match goal with H : Forall wf_item l |- _ => exact (proj1 (List.Forall_forall _ _) H x Hx) end.
  - eapply parsable_le; [match goal with H : Forall (parsable _) l |- _ => exact (proj1 (List.Forall_forall _ _) H x Hx) end|lia].
Qed.

Lemma readable_map l : readable max_nesting (cMap l) → Forall (λ p, readable max_nesting p.2 ∧ size p.1 < 2 ^ 64) l ∧ size l < 2 ^ 30.
Proof.
  intros [Hw Hp]. inversion Hw as [| | | | |? Hs Hc Hk Hv| | |]; subst. inversion Hp as [|k ? Hs' Hv'| |]; subst; [|done]. split; [|done].
  apply List.Forall_forall. intros x Hx. pose proof (proj1 (List.Forall_forall _ _) Hk x Hx). split; [split|done].
  - exact (proj1 (List.Forall_forall _ _) Hv x Hx).
  - eapply parsable_le; [exact (proj1 (List.Forall_forall _ _) Hv' x Hx)|lia].
Qed.

Lemma listLength_at s l its r : decoder_at s (cArray l :: its) r → listLength s = returned (size l, s).
Proof.
  intros Hat. destruct (kind_at _ _ _ _ Hat) as (_ & _ & _ & _ & _ & _ & Hl & _).
  pose proof Hat as (p & Hp & _ & _ & Hh & _)%decoder_at_head. destruct (value_get _ _ _ _ _ _ _ _ Hp Hh) as (_ & _ & _ & _ & Hg & _).
  unfold listLength. run. rewrite Hl. change (4 =? 4) with true. cbv iota. unfold checked. by rewrite Hg.
Qed.

Lemma list_at s l its r : decoder_at s (cArray l :: its) r → 1 ≤ r < 2 ^ 32 →
  ∃ sub s', list_ s = returned (sub, s') ∧ inside s sub l its ∧ decoder_at s' its (r - 1) ∧ moved s s' ∧
    ptr (value_ s') = ptr (value_ s) + size (encode_item (cArray l)).
Proof.
  intros Hat Hr. pose proof Hat as (_ & _ & _ & _ & _ & _ & Hx & _)%decoder_at_head. destruct (readable_array _ Hx) as [Hl _].
  destruct (container_at s (cArray l) l its r Hat ltac:(by left) Hl) as (sub & Hc & Hin).
  destruct (reads_next (cArray l) I s its r Hat Hr) as (s' & Hn & Hd). exists sub, s'. split; [|done].
  destruct (kind_at _ _ _ _ Hat) as (_ & _ & _ & _ & _ & _ & Hl' & _).
  unfold list_. run. rewrite Hl'. change (negb (4 =? 4)) with false. cbv iota.
  by rewrite (decoder_run _ _ _ _ _ Hc), (decoder_run _ _ _ _ _ Hn).
Qed.

Lemma get_each_at {A} (get : decoder A) l (values : list A) : Forall2 (reads get) l values → ∀ sub its acc s, size l < 2 ^ 31 →
  (l ≠ [] → decoder_at sub (l ++ its) (size l)) → get_each get (length l) sub acc s = returned (acc ++ values, s).
Proof.
  induction 1 as [|x a l values Hx _ IH]; intros sub its acc s Hs Hat; cbn [get_each length]; [by rewrite app_nil_r|].
  rewrite size_cons in *. pose proof (size_nonneg l). destruct (Hx sub (l ++ its) (size l + 1) (Hat ltac:(done)) ltac:(lia)) as (sub' & Hg & Hd & _).
  erewrite decoder_run by (unfold within; by rewrite Hg). cbv beta iota. rewrite (IH sub' its); [by rewrite <- app_assoc|lia|].
  intros _. by replace (size l + 1 - 1) with (size l) in Hd by lia.
Qed.

Lemma reads_vector {A} (get : decoder A) l (values : list A) : Forall2 (reads get) l values → reads (get_vector get) (cArray l) values.
Proof.
  intros Hv s its r Hat Hr. destruct (list_at s l its r Hat Hr) as (sub & s' & Hl & [_ Hin] & Hd). exists s'. split; [|done].
  pose proof Hat as (_ & _ & _ & _ & _ & _ & Hx & _)%decoder_at_head. destruct (readable_array _ Hx) as [_ Hs].
  unfold get_vector. rewrite (decoder_run _ _ _ _ _ (listLength_at _ _ _ _ Hat)), (decoder_run _ _ _ _ _ Hl).
  unfold size at 1. rewrite Nat2Z.id. rewrite (get_each_at get l values Hv sub its); [done|done|]. by destruct l.
Qed.

(** *** Maps *)

(** The values [map()] takes whole: at most one tag. *)
Definition plain x : Prop := match x with cTag _ y => is_tag y = false | _ => True end.

Lemma advance_item s x rest r : decoder_at s (x :: rest) r → is_tag x = false → 1 ≤ r < 2 ^ 32 - 1 → (1 < r → rest ≠ []) →
  ∃ v, cbor_value_advance (bytes_ s) (end_ s) (value_ s) = Some v ∧ ptr v = ptr (value_ s) + size (encode_item x) ∧
    (r = 1 → cbor_value_at_end v = true) ∧ (1 < r → decoder_at (mkDecodeStream (bytes_ s) (end_ s) v) rest (r - 1)).
Proof.
  intros Hat Ht Hr Hrest. pose proof (proj1 Hat) as Hend. apply decoder_at_head in Hat as (p & Hp & Hptr & _ & Hh & Hs & Hx & Hits).
  destruct Hh as (Hpe & He & _). destruct (slice_app _ _ _ _ _ Hpe He Hs) as (Hle & _ & Hsl). pose proof (size_nonneg (encode_item x)).
  destruct (decide (r = 1)) as [->|Hr1].
  - destruct (advance_last _ _ _ _ _ _ Hp Hpe He Hx Ht Hs) as (v & Hv & Hf). destruct (finished_fields _ _ Hf) as (Hvp & _ & Hae).
    exists v. rewrite Hptr. split_and!; [done|done|done|lia].
  - destruct rest as [|y rest]; [exfalso; apply Hrest; [lia|done]|]. apply Forall_cons in Hits as Hits'. destruct Hits' as [[Hwy _] _].
    assert (slice (bytes_ s) p (end_ s) = encode_item x ++ head (item_head y).1 (item_head y).2 ++ (item_body y ++ encode_items rest)) as Hs'.
    { rewrite Hs. f_equal. unfold encode_items. cbn [flat_map]. by rewrite item_split, <- app_assoc. }
    destruct (advance_more _ _ _ _ _ _ _ _ _ Hp ltac:(lia) Hpe He Hx Ht Hs' (item_head_known y Hwy)) as (v & Hv & Hpv).
    destruct (points_fields _ _ _ _ _ Hpv) as (Hvp & _). exists v. rewrite Hptr. split; [done|]. split; [done|]. split; [lia|]. intros _.
    split; [done|]. exists (p + size (encode_item x)). cbn [bytes_ end_ value_]. by split_and!; [|lia|lia| |].
Qed.

Lemma advance_value s x rest r : decoder_at s (x :: rest) r → plain x → 1 ≤ r < 2 ^ 32 - 1 → (1 < r → rest ≠ []) →
  ∃ s1 s2, update_value cbor_value_skip_tag s = returned (tt, s1) ∧ update_value cbor_value_advance s1 = returned (tt, s2) ∧
    moved s s2 ∧ ptr (value_ s2) = ptr (value_ s) + size (encode_item x) ∧
    (r = 1 → cbor_value_at_end (value_ s2) = true) ∧ (1 < r → decoder_at s2 rest (r - 1)).
Proof.
  intros Hat Hpl Hr Hrest. destruct (is_tag x) eqn:Ht.
  - destruct x as [| | | | | |t x| |]; try done. destruct (skip_cid_tag _ _ _ _ _ Hat Hpl ltac:(lia)) as (v & Hv & Hat' & Hptr).
    destruct (advance_item _ _ _ _ Hat' Hpl Hr Hrest) as (v2 & Hv2 & Hptr2 & Hlast & Hmore). cbn [bytes_ end_ value_] in *.
    exists (mkDecodeStream (bytes_ s) (end_ s) v), (mkDecodeStream (bytes_ s) (end_ s) v2).
    split; [by apply update_value_run|]. split; [by apply (update_value_run _ (mkDecodeStream _ _ v))|]. split; [done|]. cbn [value_].
    split; [|done]. rewrite Hptr2, Hptr. cbn [encode_item]. rewrite size_app. lia.
  - destruct (advance_item _ _ _ _ Hat Ht Hr Hrest) as (v2 & Hv2 & Hptr2 & Hlast & Hmore).
    pose proof Hat as (p & Hp & _ & _ & Hh & _)%decoder_at_head. assert ((item_head x).1 ≠ 6) as H6 by (by destruct x).
    pose proof (skip_no_tag _ _ _ _ _ _ _ _ Hp Hh H6) as Hskip.
    exists s, (mkDecodeStream (bytes_ s) (end_ s) v2). split; [rewrite (update_value_run _ _ _ Hskip); by destruct s|].
    split; [by apply update_value_run|]. done.
Qed.

(** The stream of one element, cut out of the bytes. *)
Lemma cut_stream s x rest r : decoder_at s (x :: rest) r →
  ∃ v, cbor_parser_init (bytes_ s) (ptr (value_ s)) (ptr (value_ s) + size (encode_item x) - ptr (value_ s)) = Some v ∧
    decoder_at (mkDecodeStream (bytes_ s) (ptr (value_ s) + size (encode_item x)) v) [x] 1.
Proof.
  intros Hat. pose proof (proj1 Hat) as Hend. apply decoder_at_head in Hat as (p & Hp & <- & _ & Hh & Hs & Hx & Hits).
  destruct Hh as (Hpe & He & _). destruct (slice_app _ _ _ _ _ Hpe He Hs) as (Hle & Hsl & _). pose proof (size_nonneg (encode_item x)).
  set (e := ptr (value_ s) + size (encode_item x)) in *.
  assert (head_at (bytes_ s) (ptr (value_ s)) e (item_head x).1 (item_head x).2 (item_body x)) as Hh'.
  { split_and!; [lia..|apply item_head_known, Hx|]. rewrite Hsl. apply item_split. }
  destruct (parser_init _ _ _ _ _ _ Hh') as (v & Hv & Hpv). exists v. split; [done|]. split; [cbn; lia|].
  exists (ptr (value_ s)). cbn [bytes_ end_ value_]. split_and!; [done|lia|lia| |by constructor]. by rewrite encode_items_one.
Qed.

Definition flat (l : list (bytes * item)) : list item := l ≫= λ p, [cText p.1; p.2].

(** The stream of an entry of a map. *)
Definition entry_stream (d : bytes) x s : Prop := bytes_ s = d ∧ decoder_at s [x] 1.

Lemma map_loop_at (l : list (bytes * item)) : Forall (λ p, size p.1 ≤ max_size ∧ plain p.2) l → size l < 2 ^ 30 → ∀ fuel sub its m,
  (length l < fuel)%nat →
  match l with [] => cbor_value_at_end (value_ sub) = true | _ => decoder_at sub (flat l ++ its) (2 * size l) end →
  ∃ m', map_loop fuel sub m = returned m' ∧ (∀ k, k ∉ l.*1 → m' !! k = m !! k) ∧
    (NoDup l.*1 → (∀ k, k ∈ l.*1 → m !! k = None) → ∀ k x, (k, x) ∈ l → ∃ s, m' !! k = Some s ∧ entry_stream (bytes_ sub) x s).
Proof.
  induction 1 as [|[k x] l [Hk Hx] _ IH]; intros Hsz fuel sub its m Hfuel Hat; destruct fuel as [|fuel]; try lia.
  { cbn [map_loop]. rewrite Hat. exists m. split; [done|]. split; [done|]. intros _ _ k x Hin. by apply not_elem_of_nil in Hin. }
  rewrite size_cons in *. pose proof (size_nonneg l). cbn [fst snd] in *.
  change (flat ((k, x) :: l) ++ its) with (cText k :: x :: flat l ++ its) in Hat.
  pose proof Hat as (p & Hp & _ & _ & _)%decoder_at_head. destruct (points_fields _ _ _ _ _ Hp) as (_ & _ & Hend). clear Hp.
  destruct (reads_string k Hk _ _ _ Hat ltac:(lia)) as (s1 & Hs1 & Hd1 & [Hb1 He1] & _).
  replace (2 * (size l + 1) - 1) with (2 * size l + 1) in Hd1 by lia.
  destruct (cut_stream _ _ _ _ Hd1) as (v & Hv & Hcut).
  destruct (advance_value _ _ _ _ Hd1 Hx ltac:(lia)) as (s2 & s3 & Hs2 & Hs3 & [Hb3 He3] & Hptr & Hlast & Hmore).
  { intros Hlt. destruct l as [|[k' x'] l]; [|done]. change (size []) with 0 in Hlt. lia. }
  cbn [map_loop]. rewrite Hend, (proj2 (Z.eqb_neq _ _)) by lia. rewrite Hs1. cbn [mbind attempt_bind]. rewrite Hs2. cbn [mbind attempt_bind].
  rewrite Hs3. cbn [mbind attempt_bind]. rewrite Hptr, Hb3, Hv.
  set (st := mkDecodeStream _ _ v). set (m1 := insert_new k st m).
  destruct (IH ltac:(lia) fuel s3 its m1) as (m' & Hm' & Hother & Hin); [cbn in Hfuel; lia| |].
  { destruct l as [|q l]; [apply Hlast; reflexivity|]. replace (2 * size (q :: l)) with (2 * size (q :: l) + 1 - 1) by lia. apply Hmore. rewrite size_cons. pose proof (size_nonneg l). lia. }
  exists m'. split; [done|]. rewrite !fmap_cons. cbn [fst]. split.
  - intros k' Hk'. apply not_elem_of_cons in Hk' as [Hne Hk']. rewrite Hother by done. unfold m1, insert_new.
    destruct (m !! k); [done|]. by rewrite lookup_insert_ne.
  - intros Hnd Hm k' x' Hin'. apply NoDup_cons in Hnd as [Hkl Hnd]. assert (m1 = <[k := st]> m) as Hm1.
    { unfold m1, insert_new. rewrite Hm by left. done. }
    apply elem_of_cons in Hin' as [[= -> ->]|Hin'].
    + exists st. split; [rewrite Hother, Hm1 by done; apply lookup_insert_eq|]. split; [done|]. exact Hcut.
    + destruct (Hin Hnd) with k' x' as (s & Hs & Hst & Hst'); [|done|].
      * intros k'' Hk''. rewrite Hm1, lookup_insert_ne by (intros ->; done). apply Hm. by right.
      * exists s. split; [done|]. split; [|done]. by rewrite Hst, Hb3, Hb1.
Qed.

Lemma map_at s l its r : decoder_at s (cMap l :: its) r → 1 ≤ r < 2 ^ 32 → Forall (λ p, size p.1 ≤ max_size ∧ plain p.2) l →
  ∃ m s', map_ s = returned (m, s') ∧ decoder_at s' its (r - 1) ∧ moved s s' ∧ ptr (value_ s') = ptr (value_ s) + size (encode_item (cMap l)) ∧
    (∀ k, k ∉ l.*1 → m !! k = None) ∧ ∀ k x, (k, x) ∈ l → ∃ e, m !! k = Some e ∧ entry_stream (bytes_ s) x e.
Proof.
  intros Hat Hr Hok. pose proof Hat as (p & _ & _ & _ & Hh & Hs & Hx & _)%decoder_at_head. destruct (readable_map _ Hx) as [Hl Hsz].
  assert (canonical l) as Hcan by (destruct Hx as [Hw _]; by inversion Hw).
  assert (Forall (readable max_nesting) (flat l)) as Hfl.
  { unfold flat. apply Forall_forall. intros y (q & Hy & Hq)%list_elem_of_bind. rewrite Forall_forall in Hl. destruct (Hl q Hq) as [Hrq Hkq].
    apply elem_of_cons in Hy as [->|Hy]; [|by apply list_elem_of_singleton in Hy as ->]. split; [by constructor|by apply parsable_leaf]. }
  destruct (container_at s (cMap l) (flat l) its r Hat) as (sub & Hc & [[Hb _] Hin]); [right; by exists l|done|].
  destruct (reads_next (cMap l) I s its r Hat Hr) as (s' & Hn & Hd).
  destruct (kind_at _ _ _ _ Hat) as (_ & _ & _ & _ & _ & _ & _ & Hm & _).
  destruct (map_loop_at l Hok Hsz (S (length (bytes_ sub))) sub its ∅) as (m & Hml & Hother & Hall).
  - rewrite Hb. destruct Hh as (Hpe & He & _). destruct (slice_app _ _ _ _ _ Hpe He Hs) as (Hle & _).
    assert (size l ≤ size (encode_item (cMap l))); [|unfold size in *; lia]. cbn [encode_item]. rewrite size_app, encode_entries.
    pose proof (encode_items_size (flat l)). unfold flat in *. rewrite size_entries in *. pose proof (size_nonneg (head 5 (size l))). pose proof (size_nonneg l). lia.
  - destruct l as [|q l]; [exact Hin|]. change (decoder_at sub (flat (q :: l) ++ its) (size (flat (q :: l)))) in Hin.
    rewrite <- (size_entries (q :: l)). exact Hin.
  - exists m, s'. split.
    + unfold map_. run. rewrite Hm. change (negb (5 =? 5)) with false. cbv iota. rewrite (decoder_run _ _ _ _ _ Hc), (decoder_run _ _ _ _ _ Hn).
      unfold lifted. by rewrite Hml.
    + destruct Hd as (Hd & Hmv & Hp'). split; [done|]. split; [done|]. split; [done|]. split.
      * intros k Hk. rewrite (Hother k Hk). apply lookup_empty.
      * rewrite <- Hb. apply Hall; [by apply canonical_NoDup|]. intros. apply lookup_empty.
Qed.

Lemma get_entries_spec {A} (get : decoder A) (l : list (bytes * CborDecodeStream)) (items : gmap bytes A) (f : bytes → A) s :
  Forall (λ p, ∃ s', get p.2 = returned (f p.1, s')) l →
  get_entries get l items s = returned (foldl (λ m p, <[p.1 := f p.1]> m) items l, s).
Proof.
  intros Hl. revert items. induction Hl as [|[k e] l (s' & He) _ IH]; intros items; [done|]. cbn [get_entries foldl fst snd] in *.
  erewrite decoder_run by (unfold within; by rewrite He). cbv beta iota. apply IH.
Qed.

(** Maps of values, read into an empty map. *)
Lemma reads_items {A} (get : decoder A) (denote : A → item) (l : list (bytes * item)) (items : gmap bytes A) :
  Forall (λ p, size p.1 ≤ max_size ∧ plain p.2) l →
  (∀ k a, items !! k = Some a → (k, denote a) ∈ l ∧ reads get (denote a) a) → (∀ k x, (k, x) ∈ l → is_Some (items !! k)) →
  reads (get_items get ∅) (cMap l) items.
Proof.
  intros Hok Hitems Hl s its r Hat Hr. destruct (map_at s l its r Hat Hr Hok) as (m & s' & Hm & Hd & Hmv & Hp & Hnone & Hsome).
  exists s'. split; [|done]. unfold get_items. rewrite (decoder_run _ _ _ _ _ Hm).
  assert (∀ k e, m !! k = Some e → ∃ a e', items !! k = Some a ∧ get e = returned (a, e')) as Hget.
  { intros k e Hke. destruct (decide (k ∈ l.*1)) as [Hin|Hin]; [|by rewrite (Hnone k Hin) in Hke].
    apply list_elem_of_fmap in Hin as ([k' x] & -> & Hin). cbn [fst] in *. destruct (Hl _ _ Hin) as [a Ha].
    destruct (Hitems _ _ Ha) as [Hin' Hrd]. destruct (Hsome _ _ Hin') as (e2 & He2 & _ & Hat2).
    destruct (Hrd _ _ _ Hat2 ltac:(lia)) as (e' & He' & _). rewrite He2 in Hke. injection Hke as <-. by exists a, e'. }
  destruct (decide (items = ∅)) as [->|Hne].
  - assert (m = ∅) as ->. { apply map_eq. intros k. rewrite lookup_empty. destruct (m !! k) as [e|] eqn:He; [|done]. destruct (Hget k e He) as (a & e' & Ha & _). by rewrite lookup_empty in Ha. }
    done.
  - apply map_choose in Hne as (k0 & a0 & Ha0). set (f := λ k, default a0 (items !! k)).
    rewrite (get_entries_spec get (map_entries m) ∅ f).
    2: { apply Forall_forall. intros [k e] He%map_entries_lookup. destruct (Hget k e He) as (a & e' & Ha & He'). exists e'. unfold f. cbn [fst snd]. by rewrite Ha. }
    do 2 f_equal. apply map_eq. intros k.
    assert (∀ (es : list (bytes * CborDecodeStream)) (acc : gmap bytes A), foldl (λ m p, <[p.1 := f p.1]> m) acc es !! k =
      if decide (k ∈ es.*1) then Some (f k) else acc !! k) as Hfold.
    { clear. induction es as [|[k' e] es IH]; intros acc; [done|]. cbn [foldl fst]. rewrite IH, fmap_cons. cbn [fst].
      destruct (decide (k ∈ es.*1)) as [Hin|Hin]; [by rewrite decide_True by (by right)|].
      destruct (decide (k = k')) as [->|Hne]; [rewrite decide_True by left; apply lookup_insert_eq|].
      rewrite decide_False by (intros [?|?]%elem_of_cons; done). by rewrite lookup_insert_ne. }
    rewrite Hfold, lookup_empty. unfold f. destruct (decide (k ∈ (map_entries m).*1)) as [Hin|Hin].
    + apply list_elem_of_fmap in Hin as ([k' e] & -> & He%map_entries_lookup). destruct (Hget _ _ He) as (a & _ & Ha & _). cbn [fst]. by rewrite Ha.
    + destruct (items !! k) as [a|] eqn:Ha; [|done]. exfalso. apply Hin. destruct (Hitems _ _ Ha) as [Hin' _].
      destruct (Hsome _ _ Hin') as (e & He & _). apply list_elem_of_fmap. exists (k, e). split; [done|]. by apply map_entries_lookup.
Qed.

(** *** The bytes of an element, and whole inputs *)

Lemma reads_raw x : element x → reads raw x (encode_item x).
Proof.
  intros Hel s its r Hat Hr. destruct (reads_next x Hel s its r Hat Hr) as (s' & Hs' & Hd & Hm & Hp). exists s'. split; [|done].
  unfold raw. run. rewrite (decoder_run _ _ _ _ _ Hs'). unfold observe. do 2 f_equal. destruct Hm as [-> _]. rewrite Hp.
  apply decoder_at_head in Hat as (p & _ & <- & _ & (Hpe & He & _) & Hs & _). by destruct (slice_app _ _ _ _ _ Hpe He Hs) as (_ & -> & _).
Qed.

Lemma stream_at x its : Forall (readable max_nesting) (x :: its) →
  ∃ s, new_CborDecodeStream (encode_items (x :: its)) = returned s ∧ bytes_ s = encode_items (x :: its) ∧ decoder_at s (x :: its) UINT32_MAX.
Proof.
  intros Hr. set (d := encode_items (x :: its)). pose proof (Forall_inv Hr) as [Hw _]. pose proof (size_nonneg d).
  assert (head_at d 0 (size d) (item_head x).1 (item_head x).2 (item_body x ++ encode_items its)) as Hh.
  { split_and!; [lia..|by apply item_head_known|]. rewrite slice_all. unfold d, encode_items. cbn [flat_map]. by rewrite item_split, <- app_assoc. }
  destruct (parser_init _ _ _ _ _ _ Hh) as (v & Hv & Hp). rewrite Z.sub_0_r in Hv. unfold new_CborDecodeStream. rewrite Hv.
  eexists. split; [done|]. split; [done|]. split; [cbn [bytes_ end_]; lia|]. exists 0. cbn [bytes_ end_ value_].
  split_and!; [by eapply points_set|lia|lia|apply slice_all|done].
Qed.

Lemma stream_on x : readable max_nesting x →
  ∃ s, new_CborDecodeStream (encode_item x) = returned s ∧ decoder_at s [x] UINT32_MAX.
Proof.
  intros Hx. destruct (stream_at x []) as (s & Hs & _ & Hat); [by constructor|]. rewrite encode_items_one in Hs. by exists s.
Qed.

Lemma decode_reads {A} (get : decoder A) x a : reads get x a → readable max_nesting x → decode get (encode_item x) = returned a.
Proof.
  intros Hg Hr. destruct (stream_on x) as (s & Hs & Hat); [done|].
  unfold decode. rewrite Hs. cbn [mbind attempt_bind]. destruct (Hg s [] UINT32_MAX Hat) as (s' & -> & _); [by unfold UINT32_MAX|done].
Qed.

(** ** [resolve] *)

Lemma skip_at l : Forall element l → ∀ s its r, decoder_at s (l ++ its) r → size l ≤ r < 2 ^ 32 →
  ∃ s', skip (length l) s = returned (tt, s') ∧ decoder_at s' its (r - size l) ∧ moved s s'.
Proof.
  induction 1 as [|x l Hx _ IH]; intros s its r Hat Hr; cbn [skip length].
  - exists s. split; [done|]. by replace (r - size []) with r by (rewrite size_nil; lia).
  - rewrite size_cons in *. pose proof (size_nonneg l). destruct (reads_next x Hx s _ r Hat ltac:(lia)) as (s1 & Hs1 & Hd1 & [Hb1 He1] & _).
    destruct (IH s1 its (r - 1) Hd1 ltac:(lia)) as (s' & Hs' & Hd & [Hb He]). exists s'.
    rewrite (decoder_run _ _ _ _ _ Hs1). split; [done|]. replace (r - (size l + 1)) with (r - 1 - size l) by lia. split; [done|].
    split; [by rewrite Hb|by rewrite He].
Qed.

Lemma resolve_list s l its r part : decoder_at s (cArray l :: its) r → 1 ≤ r < 2 ^ 32 → Forall element l →
  match parseIndex part with
  | failure e => resolve s part = failed (resolve_path e)
  | success index =>
    if size l <=? index then resolve s part = failed (resolve_path KEY_NOT_FOUND)
    else 0 ≤ index → ∃ s', resolve s part = returned s' ∧ bytes_ s' = bytes_ s ∧
      decoder_at s' (drop (Z.to_nat index) l ++ its) (size l - index)
  end.
Proof.
  intros Hat Hr Hel. destruct (kind_at _ _ _ _ Hat) as (_ & _ & _ & _ & _ & _ & Hl & _). unfold resolve. rewrite Hl. change (4 =? 4) with true. cbv iota.
  destruct (parseIndex part) as [index|e]; [|done]. rewrite (listLength_at _ _ _ _ Hat). cbn [resolving caught mbind attempt_bind].
  destruct (Z.leb_spec (size l) index) as [Hge|Hlt]; [done|]. intros Hi.
  destruct (list_at _ _ _ _ Hat Hr) as (sub & s' & -> & [[Hb He] Hin] & _). cbn [resolving caught mbind attempt_bind].
  assert (l ≠ []) as Hne by (intros ->; change (size []) with 0 in Hlt; lia).
  assert (decoder_at sub (l ++ its) (size l)) as Hsub by (by destruct l).
  pose proof Hat as (_ & _ & _ & _ & _ & _ & Hx & _)%decoder_at_head. destruct (readable_array _ Hx) as [_ Hs].
  rewrite <- (take_drop (Z.to_nat index) l), <- app_assoc in Hsub at 1.
  assert (size (take (Z.to_nat index) l) = index) as Htk by (unfold size in *; rewrite length_take; lia).
  destruct (skip_at (take (Z.to_nat index) l) ltac:(by apply Forall_take) _ _ _ Hsub) as (s2 & Hs2 & Hd2 & [Hb2 _]); [rewrite Htk; lia|].
  replace (length (take (Z.to_nat index) l)) with (Z.to_nat index) in Hs2 by (unfold size in Htk; lia).
  rewrite Hs2. cbn [resolving caught mbind attempt_bind]. exists s2. split; [done|]. split; [by rewrite Hb2|]. by rewrite Htk in Hd2.
Qed.

Lemma resolve_map s l its r part : decoder_at s (cMap l :: its) r → 1 ≤ r < 2 ^ 32 → Forall (λ p, size p.1 ≤ max_size ∧ plain p.2) l →
  (part ∉ l.*1 → resolve s part = failed (resolve_path KEY_NOT_FOUND)) ∧
  ∀ x, (part, x) ∈ l → ∃ s', resolve s part = returned s' ∧ entry_stream (bytes_ s) x s'.
Proof.
  intros Hat Hr Hok. destruct (kind_at _ _ _ _ Hat) as (_ & _ & _ & _ & _ & _ & Hl & Hm & _). unfold resolve. rewrite Hl, Hm.
  change (5 =? 4) with false. change (5 =? 5) with true. cbv iota.
  destruct (map_at _ _ _ _ Hat Hr Hok) as (m & s' & -> & _ & _ & _ & Hnone & Hsome). cbn [resolving caught mbind attempt_bind]. split.
  - intros Hp. by rewrite (Hnone _ Hp).
  - intros x Hx. destruct (Hsome _ _ Hx) as (e & -> & He). by exists e.
Qed.

Lemma resolve_other s x its r part : decoder_at s (x :: its) r → match x with cArray _ | cMap _ => False | _ => True end →
  resolve s part = failed (resolve_path CONTAINER_EXPECTED).
Proof.
  intros Hat Hx. destruct (kinds_at _ _ _ _ Hat) as (Hl & Hm & _). unfold resolve. rewrite Hl, Hm. by destruct x.
Qed.

(** *** What is not checked *)

Lemma head_stream major n rest : 2 ≤ major ≤ 3 → 0 ≤ n < 2 ^ 64 → size (head major n ++ rest) < 2 ^ 63 →
  ∃ s, new_CborDecodeStream (head major n ++ rest) = returned s ∧
    isBytes s = (major =? 2) ∧ isStr s = (major =? 3) ∧ cbor_value_get_string_length (bytes_ s) (end_ s) (value_ s) = Some n.
Proof.
  intros Hm Hn _. set (d := head major n ++ rest). pose proof (size_nonneg d).
  assert (head_at d 0 (size d) major n rest) as Hh.
  { split; [lia|]. split; [lia|]. split; [split; [done|lia]|]. apply slice_all. }
  destruct (parser_init _ _ _ _ _ _ Hh) as (v & Hv & Hp). rewrite Z.sub_0_r in Hv. unfold new_CborDecodeStream. rewrite Hv.
  apply (points_set _ _ _ _ _ UINT32_MAX) in Hp; [|done]. eexists. split; [done|]. cbn [bytes_ end_ value_].
  destruct (value_kind _ _ _ _ _ _ _ _ Hp Hh) as (_ & _ & _ & _ & Hb & Ht & _). split; [exact Hb|]. split; [exact Ht|].
  destruct (value_get _ _ _ _ _ _ _ _ Hp Hh) as (_ & _ & _ & Hl & _). apply Hl. lia.
Qed.

Lemma unchecked_length major n rest : 2 ≤ major ≤ 3 → 2 ^ 63 ≤ n < 2 ^ 64 → size (head major n ++ rest) < 2 ^ 63 →
  decode (if major =? 2 then get_bytes else get_string) (head major n ++ rest) = thrown.
Proof.
  intros Hm Hn Hs. destruct (head_stream major n rest Hm ltac:(lia) Hs) as (s & Hnew & Hb & Ht & Hl). unfold decode. rewrite Hnew. cbn [mbind attempt_bind].
  assert (max_size <? n = true) as Hmax by (apply Z.ltb_lt; unfold max_size; lia).
  assert (major = 2 ∨ major = 3) as [-> | ->] by lia.
  - change (2 =? 2) with true in *. cbv iota. unfold get_bytes.
    erewrite decoder_run. 2: { unfold bytesLength. run. rewrite Hb. cbn [negb]. unfold checked. rewrite Hl. done. }
    unfold resize_to, mbind, decoder_bind. by rewrite Hmax.
  - change (3 =? 2) with false. change (3 =? 3) with true in *. cbv iota. unfold get_string. run. rewrite Ht. cbn [negb].
    erewrite decoder_run by (unfold checked; rewrite Hl; done). unfold resize_to, mbind, decoder_bind. by rewrite Hmax.
Qed.

(** [next] on another tag than a CID's. *)
Lemma next_foreign_tag s t x its r : decoder_at s (cTag t x :: its) r → t ≠ kCidTag → is_tag x = false → 1 ≤ r < 2 ^ 32 →
  ∃ s', next s = returned (tt, s') ∧ decoder_at s' (x :: its) r.
Proof.
  intros Hat Ht Hx Hr. rewrite next_eq. run. rewrite (isCid_at _ _ _ _ Hat), (proj2 (Z.eqb_neq _ _)) by done. run. unfold step_over.
  pose proof Hat as (p & Hp & Hptr & Hrem & Hh & Hsl & _ & _)%decoder_at_head.
  set (s1 := mkDecodeStream (bytes_ s) (end_ s) (set_remaining 1 (value_ s))).
  assert (decoder_at s1 (cTag t x :: its) 1) as Hat1.
  { destruct Hat as (He & q & Hq & Hrest). split; [done|]. exists q. split; [by eapply points_set|done]. }
  destruct (advance_cid_tag s1 t x its 1 Hat1 ltac:(lia)) as (v & Hv & Hat2 & Hptr2). cbn [bytes_ end_ value_] in *.
  run. rewrite Hrem. run. erewrite decoder_run by (apply update_value_run; exact Hv). run. cbn [id bytes_ end_ value_].
  pose proof Hat2 as (q & Hq & Hqp & Hqr & Hqh & Hqs & _)%decoder_at_head. cbn [bytes_ end_ value_] in *.
  assert (ptr v ≠ end_ s) as Hne.
  { intros Heq. rewrite <- Hqp, Heq in Hqs. unfold slice in Hqs. rewrite Z.sub_diag in Hqs. change (Z.to_nat 0) with 0%nat in Hqs. rewrite take_0 in Hqs.
    apply (f_equal size) in Hqs. rewrite size_app, (@size_nil Z) in Hqs. pose proof (encode_item_size x). pose proof (size_nonneg (encode_items its)). lia. }
  rewrite (proj2 (Z.eqb_neq _ _) Hne). rewrite Hqr. replace (r + (1 - 1)) with r by lia. rewrite wrap_small by lia. cbv zeta.
  destruct (parser_init _ _ _ _ _ _ Hqh) as (v' & Hv' & Hp'). rewrite <- Hqp in Hv', Hp'.
  erewrite decoder_run by (unfold checked; cbn [bytes_ end_ value_ s1] in *; rewrite Hv'; done). eexists. split; [done|].
  destruct Hat2 as (He & q' & Hq' & Hrest). split; [done|]. exists (ptr v). cbn [bytes_ end_ value_] in *.
  destruct (points_fields _ _ _ _ _ Hq') as (-> & _). split; [eapply points_set; [|lia]|done].
  destruct (points_fields _ _ _ _ _ Hq') as (Hpv & _). rewrite Hpv in Hp'. exact Hp'.
Qed.

(** C31: what the decoder does not check, for input an encoder may send.
    An unsigned integer from [2 ^ 63] on is read into a signed type as that integer
    less [2 ^ 64] when this fits the type, with no [INT_OVERFLOW]; a vector is read
    of anything but an array by asking tinycbor for an array length it does not
    have; the first byte of an empty byte string under the tag of CIDs is accessed;
    a string length from [2 ^ 63] on leaves [decode] as a [std::length_error];
    the reader of a list goes on behind its end; [next] steps over a tag other than
    that of CIDs without what it tags. *)
Theorem decode_unchecked :
  (∀ w n, 0 < w ≤ 64 → 2 ^ 63 ≤ n < 2 ^ 64 → - 2 ^ (w - 1) ≤ n - 2 ^ 64 →
    decode (get_signed w) (encode_item (cUint n)) = returned (n - 2 ^ 64)) ∧
  (∀ x A (get : decoder A), readable max_nesting x → match x with cArray _ => False | _ => True end →
    decode (get_vector get) (encode_item x) = thrown) ∧
  decode (get_cid (M:=M)) (encode_item (cTag kCidTag (cBytes []))) = thrown ∧
  (∀ n rest, 2 ^ 63 ≤ n < 2 ^ 64 → size (head 3 n ++ rest) < 2 ^ 63 →
    decode get_bytes (head 2 n ++ rest) = thrown ∧ decode get_string (head 3 n ++ rest) = thrown) ∧
  (∀ s l n its r, decoder_at s (cArray l :: cUint n :: its) r → l ≠ [] → Forall element l → 1 ≤ r < 2 ^ 32 → 
    ∃ sub s' sub1 sub2, list_ s = returned (sub, s') ∧ skip (length l) sub = returned (tt, sub1) ∧
      get_unsigned 64 sub1 = returned (n, sub2)) ∧
  (∀ s t x its r, decoder_at s (cTag t x :: its) r → t ≠ kCidTag → is_tag x = false → 1 ≤ r < 2 ^ 32 →
    ∃ s', next s = returned (tt, s') ∧ decoder_at s' (x :: its) r).
Proof.
  split_and!.
  - intros w n Hw Hn Hr. apply decode_reads; [by apply signed_wraps|]. split; [constructor; lia|by apply parsable_leaf].
  - intros x A get Hx Hna. destruct (stream_on x) as (s & Hs & Hat); [done|].
    unfold decode. rewrite Hs. cbn [mbind attempt_bind]. destruct (kinds_at _ _ _ _ Hat) as (Hl & _).
    unfold get_vector, listLength, mbind, decoder_bind, observe. rewrite Hl. by destruct x.
  - assert (readable max_nesting (cTag kCidTag (cBytes []))) as Hr.
    { split; [by constructor; [|constructor]|]. pose proof max_nesting_ok. eapply parsable_le; [by apply parsable_tag, (parsable_leaf 0)|lia]. }
    destruct (stream_on _ Hr) as (s & Hs & Hat).
    unfold decode. rewrite Hs. cbn [mbind attempt_bind]. by destruct (get_cid_run s [] [] UINT32_MAX Hat) as (s' & _ & _ & _ & ->).
  - intros n rest Hn Hs. split; [apply (unchecked_length 2)|apply (unchecked_length 3)]; try lia; try done.
    revert Hs. rewrite !size_app. unfold head. repeat case_match; unfold size; cbn [length]; lia.
  - intros s l n its r Hat Hne Hel Hr. destruct (list_at s l _ r Hat Hr) as (sub & s' & Hl & [_ Hin] & _).
    assert (decoder_at sub (l ++ cUint n :: its) (size l)) as Hsub by (by destruct l).
    pose proof Hat as (_ & _ & _ & _ & _ & _ & Hrd & Hits)%decoder_at_head. destruct (readable_array _ Hrd) as [_ Hs]. pose proof (size_nonneg l).
    destruct (skip_at l Hel sub _ _ Hsub ltac:(lia)) as (sub1 & Hsk & Hat1 & _). rewrite Z.sub_diag in Hat1.
    destruct (next_at sub1 (cUint n) its 0 Hat1 I ltac:(lia) ltac:(done)) as (sub2 & Hnx & _).
    exists sub, s', sub1, sub2. split; [done|]. split; [done|].
    destruct (kind_at _ _ _ _ Hat1) as (_ & _ & Hi & Hu & _). apply Forall_cons in Hits as [[Hw _] _]. inversion Hw; subst.
    pose proof Hat1 as (p & Hp & _ & _ & Hh & _)%decoder_at_head. destruct (value_get _ _ _ _ _ _ _ _ Hp Hh) as (_ & Hg & _).
    destruct (Hg eq_refl) as [Hg1 _]. unfold get_unsigned. run. rewrite Hi. change (negb (0 <? 2)) with false. cbv iota. run.
    rewrite Hu. change (negb (0 =? 0)) with false. cbv iota. run. rewrite Hg1. cbn [item_head snd].
    rewrite (proj2 (Z.ltb_ge _ _)) by lia. by rewrite (decoder_run _ _ _ _ _ Hnx).
  - intros s t x its r Hat Ht Hx Hr. by apply (next_foreign_tag s t x its r).
Qed.

End decoding.
