(* ===== verification/CborCodec.v ===== *)
(** CBOR, both ways: the types the templates make, the round trip at every one,
    [resolve], and a parser that satisfies the laws. *)
From stdpp Require Import base numbers countable list gmap strings sorting.
From S2P Require Import Prelude Bytes Cid Cbor CborDecode CborReads.

Open Scope Z_scope.

Section types.
Context {M : Type} `{!Multiformats M, !TinyCborParser, !TinyCborParserLaws}.

(** * The types of the templates *)

Inductive ty :=
| tBool
| tUint (w : Z)
| tInt (w : Z)
| tBytes
| tString
| tCid
| tVector (t : ty)
| tOptional (t : ty)
| tMap (t : ty).

Fixpoint val (t : ty) : Type :=
  match t with
  | tBool => bool
  | tUint _ | tInt _ => Z
  | tBytes | tString => bytes
  | tCid => CID M
  | tVector t => list (val t)
  | tOptional t => option (val t)
  | tMap t => gmap bytes (val t)
  end.

(** What [operator<<] and [operator>>] are at a type. *)
Fixpoint put_ty `{!TinyCborEncoder} (t : ty) : val t → encoder () :=
  match t with
  | tBool => put_bool
  | tUint _ => put_unsigned
  | tInt _ => put_signed
  | tBytes => put_bytes
  | tString => put_string
  | tCid => put_cid
  | tVector t => put_span (put_ty t)
  | tOptional t => put_optional (put_ty t)
  | tMap t => put_items (put_ty t)
  end.

Fixpoint get_ty (t : ty) : decoder (val t) :=
  match t with
  | tBool => get_bool
  | tUint w => get_unsigned w
  | tInt w => get_signed w
  | tBytes => get_bytes
  | tString => get_string
  | tCid => get_cid
  | tVector t => get_vector (get_ty t)
  | tOptional t => get_optional (get_ty t)
  | tMap t => get_items (get_ty t) ∅
  end.

Fixpoint denote_ty (t : ty) : val t → item :=
  match t return val t → item with
  | tBool => cBool
  | tUint _ => cUint
  | tInt _ => int_item
  | tBytes => cBytes
  | tString => cText
  | tCid => λ c : CID M, match toBytes c with success b => cid_item b | failure _ => cNull end
  | tVector t => λ l : list (val t), cArray (denote_ty t <$> l)
  | tOptional t => λ o : option (val t), from_option (denote_ty t) cNull o
  | tMap t => λ m : gmap bytes (val t), cMap (canonical_entries (denote_ty t <$> m))
  end.

(** The values of a type that fit the memory and the counts of the parser; an
    optional of an optional has two ways to be null. *)
Fixpoint valid_ty (t : ty) : val t → Prop :=
  match t return val t → Prop with
  | tBool => λ _, True
  | tUint w => λ n : Z, 0 < w ≤ 64 ∧ 0 ≤ n < 2 ^ w
  | tInt w => λ n : Z, 0 < w ≤ 64 ∧ - 2 ^ (w - 1) ≤ n < 2 ^ (w - 1)
  | tBytes | tString => λ b : bytes, size b < 2 ^ 62
  | tCid => λ c : CID M, ∃ b, toBytes c = success b ∧ fromBytes b = success c ∧ size b < 2 ^ 62
  | tVector t => λ l : list (val t), Forall (valid_ty t) l ∧ size l < 2 ^ 31
  | tOptional t => λ o : option (val t), ∀ x : val t, o = Some x → valid_ty t x ∧ denote_ty t x ≠ cNull
  | tMap t => λ m : gmap bytes (val t), (∀ k (x : val t), m !! k = Some x → size k < 2 ^ 62 ∧ valid_ty t x) ∧ Z.of_nat (base.size m) < 2 ^ 30
  end.

Fixpoint nesting (t : ty) : nat :=
  match t with tCid => 1 | tVector t | tMap t => S (nesting t) | tOptional t => nesting t | _ => 0 end.

Lemma denotes_ty `{!TinyCborEncoder, !TinyCborEncoderLaws} t : denotes (put_ty t) (denote_ty t) (valid_ty t).
Proof.
  induction t as [|w|w| | | |t IH|t IH|t IH]; cbn [put_ty denote_ty valid_ty]; intros v Hv.
  - apply put_bool_adds.
  - apply put_unsigned_adds. destruct Hv as [Hw Hv]. pose proof (Z.pow_le_mono_r 2 w 64). lia.
  - apply put_signed_adds. destruct Hv as [Hw Hv]. pose proof (Z.pow_le_mono_r 2 (w - 1) 63). lia.
  - apply put_bytes_adds. lia.
  - apply put_string_adds. lia.
  - destruct Hv as (b & Hb & _ & Hs). rewrite Hb. by apply put_cid_adds.
  - apply (denotes_span _ _ _ IH). destruct Hv. split; [done|lia].
  - apply (denotes_optional _ _ _ IH). intros x Hx. by apply Hv.
  - apply (denotes_items _ _ _ IH). destruct Hv as [Hv Hs]. split; [done|lia].
Qed.

Lemma plain_ty t v : plain (denote_ty t v).
Proof.
  induction t as [|w|w| | | |t IH|t IH|t IH]; cbn [denote_ty]; try done.
  - unfold int_item. by case_match.
  - by destruct (toBytes v).
  - destruct v; [apply IH|done].
Qed.

Lemma readable_ty t v : valid_ty t v → wf_item (denote_ty t v) ∧ parsable (nesting t) (denote_ty t v).
Proof.
  induction t as [|w|w| | | |t IH|t IH|t IH]; cbn [denote_ty valid_ty nesting]; intros Hv.
  - split; [constructor|by apply parsable_leaf].
  - split; [|by apply parsable_leaf]. constructor. destruct Hv as [Hw Hv]. pose proof (Z.pow_le_mono_r 2 w 64). lia.
  - destruct Hv as [Hw Hv]. pose proof (Z.pow_le_mono_r 2 (w - 1) 63). split; [apply int_item_wf; lia|].
    unfold int_item. case_match; by apply parsable_leaf.
  - split; [|by apply parsable_leaf]. constructor. lia.
  - split; [|by apply parsable_leaf]. constructor. lia.
  - destruct Hv as (b & -> & _ & Hs). split; [|by apply parsable_tag, parsable_leaf]. constructor; [done|]. constructor. rewrite size_cons. lia.
  - destruct Hv as [Hv Hs]. change (list (val t)) in v.
    assert (size (denote_ty t <$> v) = size v) as Hsz by (unfold size; by rewrite length_fmap).
    assert (Forall wf_item (denote_ty t <$> v) ∧ Forall (parsable (nesting t)) (denote_ty t <$> v)) as [Hw Hp].
    { split; apply Forall_fmap; (eapply Forall_impl; [exact Hv|]); intros x Hx; by apply IH. }
    split; [apply wf_array|apply parsable_array]; try done.
    + change (size (denote_ty t <$> v) < 2 ^ 64). lia.
    + change (size (denote_ty t <$> v) < 2 ^ 31). lia.
  - destruct v as [x|]; cbn [from_option]; [by apply IH, Hv|]. split; [constructor|by apply parsable_leaf].
  - destruct Hv as [Hv Hs]. change (gmap bytes (val t)) in v. destruct (canonical_entries_spec (denote_ty t <$> v)) as [Hc Hp].
    assert (size (canonical_entries (denote_ty t <$> v)) < 2 ^ 30) as Hsz.
    { apply Permutation_length in Hp. unfold size. rewrite Hp, length_map_to_list, map_size_fmap. lia. }
    assert (∀ p, p ∈ canonical_entries (denote_ty t <$> v) → size p.1 < 2 ^ 62 ∧ wf_item p.2 ∧ parsable (nesting t) p.2) as Hin.
    { intros [k x] Hk. rewrite Hp, elem_of_map_to_list, lookup_fmap in Hk. destruct (v !! k) as [y|] eqn:Hy; [|done].
      injection Hk as <-. destruct (Hv k y Hy) as [Hks Hy']. by split; [|apply IH]. }
    split; [apply wf_map|apply parsable_map]; try lia; try done; apply Forall_forall; intros p Hpin; destruct (Hin p Hpin) as (Hk & Hw & Hn); try done. lia.
Qed.

Lemma reads_ty t v : valid_ty t v → reads (get_ty t) (denote_ty t v) v.
Proof.
  induction t as [|w|w| | | |t IH|t IH|t IH]; cbn [get_ty denote_ty valid_ty]; intros Hv.
  - apply reads_bool.
  - apply reads_unsigned, Hv.
  - destruct Hv. by apply reads_signed.
  - apply reads_bytes. unfold max_size. lia.
  - apply reads_string. unfold max_size. lia.
  - destruct Hv as (b & -> & Hc & Hs). apply reads_cid; [done|]. unfold max_size. lia.
  - apply reads_vector. destruct Hv as [Hv _]. induction Hv; constructor; auto.
  - apply reads_optional. intros a Ha. destruct (Hv a Ha). by split; [apply IH|].
  - destruct Hv as [Hv Hs]. change (gmap bytes (val t)) in v. destruct (canonical_entries_spec (denote_ty t <$> v)) as [Hc Hp].
    assert (∀ k x, (k, x) ∈ canonical_entries (denote_ty t <$> v) ↔ ∃ y, v !! k = Some y ∧ x = denote_ty t y) as Hin.
    { intros k x. rewrite Hp, elem_of_map_to_list, lookup_fmap. destruct (v !! k); cbn; naive_solver. }
    apply (reads_items _ (denote_ty t)).
    + apply Forall_forall. intros [k x] (y & Hy & ->)%Hin. split; [|apply plain_ty]. destruct (Hv k y Hy). cbn. unfold max_size. lia.
    + intros k a Ha. split; [apply Hin; by exists a|]. apply IH, (Hv k a Ha).
    + intros k x (y & Hy & _)%Hin. by exists y.
Qed.

End types.

(** * A concrete parser *)

Module SampleParser.

Record value := mkValue { v_ptr : Z; v_remaining : Z; v_head : option (Z * Z) }.

Definition is_known (major n : Z) : bool := (major <=? 6) || (major =? 7) && (20 <=? n) && (n <=? 22).

Definition preparse (d : bytes) (e p r : Z) : option value :=
  match parse_head (slice d p e) with
  | Some (major, n, _) => if is_known major n then Some (mkValue p r (Some (major, n))) else None
  | None => None
  end.

(** The offset behind the head, and behind the item. *)
Definition behind_head (d : bytes) (e : Z) (v : value) : option Z :=
  '(_, _, rest) ← parse_head (slice d (v_ptr v) e); Some (e - size rest).
Definition behind_item (d : bytes) (e : Z) (v : value) : option Z :=
  '(_, rest) ← parse_items (2 * length (slice d (v_ptr v) e) + 2) 1 (slice d (v_ptr v) e); Some (e - size rest).

Definition advance (d : bytes) (e : Z) (v : value) : option value :=
  '(major, _) ← v_head v;
  if v_remaining v <=? 0 then None
  else if major =? 6 then p ← behind_head d e v; preparse d e p (v_remaining v)
  else
    p ← behind_item d e v;
    if v_remaining v =? 1 then Some (mkValue p 0 None) else preparse d e p (v_remaining v - 1).

Fixpoint skip_tags (fuel : nat) (d : bytes) (e : Z) (v : value) : option value :=
  match fuel with
  | O => Some v
  | S fuel =>
    '(major, _) ← v_head v;
    if major =? 6 then v ← advance d e v; skip_tags fuel d e v else Some v
  end.

Definition enter (d : bytes) (e : Z) (v : value) : option value :=
  '(major, n) ← v_head v;
  p ← behind_head d e v;
  if n =? 0 then Some (mkValue p 0 None) else preparse d e p (if major =? 4 then n else 2 * n).

Definition of_major (f : Z → bool) (v : value) : bool := match v_head v with Some (major, _) => f major | None => false end.
Definition argument (v : value) : Z := match v_head v with Some (_, n) => n | None => 0 end.
Definition copy (d : bytes) (e : Z) (v : value) : option bytes :=
  p ← behind_head d e v; Some (slice d p (p + argument v)).

#[export] Instance parser : TinyCborParser := {
  CborValue := value;
  ptr := v_ptr;
  remaining := v_remaining;
  set_remaining r v := mkValue (v_ptr v) r (v_head v);
  cbor_parser_init d p n := preparse d (p + n) p 1;
  cbor_value_advance := advance;
  cbor_value_skip_tag d e v := skip_tags (length d) d e v;
  cbor_value_enter_container := enter;
  cbor_value_at_end v := v_remaining v =? 0;
  cbor_value_is_boolean v := of_major (λ m, m =? 7) v && negb (argument v =? 22);
  cbor_value_is_null v := of_major (λ m, m =? 7) v && (argument v =? 22);
  cbor_value_is_integer := of_major (λ m, m <? 2);
  cbor_value_is_unsigned_integer := of_major (λ m, m =? 0);
  cbor_value_is_byte_string := of_major (λ m, m =? 2);
  cbor_value_is_text_string := of_major (λ m, m =? 3);
  cbor_value_is_array := of_major (λ m, m =? 4);
  cbor_value_is_map := of_major (λ m, m =? 5);
  cbor_value_is_tag := of_major (λ m, m =? 6);
  cbor_value_get_boolean d v := argument v =? 21;
  cbor_value_get_uint64 d v := argument v;
  cbor_value_get_int64 d v := swrap 64 (if of_major (λ m, m =? 0) v then argument v else -1 - argument v);
  cbor_value_get_tag d v := argument v;
  cbor_value_get_string_length d e v := Some (argument v);
  cbor_value_get_array_length d e v := Some (argument v);
  cbor_value_copy_byte_string := copy;
  cbor_value_copy_text_string := copy
}.

Lemma is_known_head major n : known_head major n → is_known major n = true ∧ 0 ≤ major < 8.
Proof.
  intros [Hn Hm]. unfold is_known. destruct Hm as [Hm|[-> Hm]]; (split; [|lia]).
  - by rewrite (proj2 (Z.leb_le _ _)) by lia.
  - by rewrite (proj2 (Z.leb_le 20 n)), (proj2 (Z.leb_le n 22)) by lia.
Qed.

Lemma head_parsed d p e major n rest : head_at d p e major n rest → parse_head (slice d p e) = Some (major, n, rest).
Proof. intros (_ & _ & Hk & ->). apply parse_head_head; [by apply (is_known_head _ n)|apply Hk]. Qed.

Lemma preparse_head d p e r major n rest : head_at d p e major n rest → preparse d e p r = Some (mkValue p r (Some (major, n))).
Proof.
  intros Hh. unfold preparse. rewrite (head_parsed _ _ _ _ _ _ Hh). destruct Hh as (_ & _ & Hk & _).
  by destruct (is_known_head _ _ Hk) as [-> _].
Qed.

(** What is behind a part of the input. *)
Lemma rest_offset d p e a b : 0 ≤ p ≤ e → e ≤ size d → slice d p e = a ++ b → e - size b = p + size a.
Proof.
  intros Hp He Hs. apply (f_equal size) in Hs. rewrite size_app in Hs. unfold slice, size in *. rewrite length_take, length_drop in Hs. lia.
Qed.

Lemma behind_head_at d p e r major n rest k : head_at d p e major n rest →
  behind_head d e (mkValue p r k) = Some (p + size (head major n)).
Proof.
  intros Hh. unfold behind_head. cbn [v_ptr]. rewrite (head_parsed _ _ _ _ _ _ Hh). cbn [mbind option_bind].
  destruct Hh as (Hp & He & _ & Hs). by rewrite (rest_offset _ _ _ _ _ Hp He Hs).
Qed.

Lemma weight_size x : (weight x ≤ 2 * length (encode_item x))%nat.
Proof.
  assert (∀ major n, (1 ≤ length (head major n))%nat) as Hh by (intros; unfold head; repeat case_match; cbn; lia).
  induction x as [n|n|b|b|l IH|l IH|t x IH|b|] using item_ind'; cbn [weight encode_item]; rewrite ?length_app; cbn [length].
  - pose proof (Hh 0 n). lia.
  - pose proof (Hh 1 n). lia.
  - pose proof (Hh 2 (size b)). lia.
  - pose proof (Hh 3 (size b)). lia.
  - assert (list_sum (List.map weight l) ≤ 2 * length (flat_map encode_item l))%nat; [|pose proof (Hh 4 (size l)); lia].
    induction IH as [|x l Hx _ IH]; [done|]. cbn [List.map flat_map]. unfold list_sum in *. cbn [fold_right]. rewrite length_app. lia.
  - assert (list_sum (List.map (λ p, 1 + weight p.2) l) ≤ 2 * length (flat_map (λ p, (head 3 (size p.1) ++ p.1) ++ encode_item p.2) l))%nat;
      [|pose proof (Hh 5 (size l)); lia].
    induction IH as [|x l Hx _ IH]; [done|]. cbn [List.map flat_map]. unfold list_sum in *. cbn [fold_right]. rewrite !length_app.
    pose proof (Hh 3 (size x.1)). lia.
  - pose proof (Hh 6 t). lia.
  - lia.
  - lia.
Qed.

Lemma behind_item_at d p e r x rest k : 0 ≤ p ≤ e → e ≤ size d → wf_item x → slice d p e = encode_item x ++ rest →
  behind_item d e (mkValue p r k) = Some (p + size (encode_item x)).
Proof.
  intros Hp He Hx Hs. unfold behind_item. cbn [v_ptr]. rewrite Hs.
  pose proof (parse_encode [x] rest (2 * length (encode_item x ++ rest) + 2) ltac:(by constructor)) as Hparse.
  rewrite encode_items_one in Hparse. change (size [x]) with 1 in Hparse. rewrite Hparse.
  - cbn [mbind option_bind]. by rewrite (rest_offset _ _ _ _ _ Hp He Hs).
  - unfold fuel_of. cbn [List.map list_sum fold_right]. rewrite length_app. pose proof (weight_size x). unfold list_sum. cbn. lia.
Qed.

Lemma head_at_next d p e a major n rest : 0 ≤ p ≤ e → e ≤ size d → slice d p e = a ++ head major n ++ rest → known_head major n →
  head_at d (p + size a) e major n rest.
Proof.
  intros Hp He Hs Hk. destruct (slice_app _ _ _ _ _ Hp He Hs) as (Hle & _ & Hrest). pose proof (size_nonneg a).
  split; [lia|]. split; [lia|]. done.
Qed.

Definition points_ (d : bytes) (e : Z) (v : value) (p r : Z) : Prop := preparse d e p r = Some v.

Lemma points_value d e v p r : points_ d e v p r → v_ptr v = p ∧ v_remaining v = r.
Proof. unfold points_, preparse. repeat case_match; try done. by intros [= <-]. Qed.

Lemma points_head d e v p r major n rest : points_ d e v p r → head_at d p e major n rest → v = mkValue p r (Some (major, n)).
Proof. unfold points_. intros Hp Hh. rewrite (preparse_head _ _ _ _ _ _ _ Hh) in Hp. by injection Hp. Qed.

Lemma advance_element d p e r x rest : 0 ≤ p ≤ e → e ≤ size d → wf_item x → is_tag x = false → slice d p e = encode_item x ++ rest → 0 < r →
  advance d e (mkValue p r (Some (item_head x))) =
    if r =? 1 then Some (mkValue (p + size (encode_item x)) 0 None) else preparse d e (p + size (encode_item x)) (r - 1).
Proof.
  intros Hp He Hx Ht Hs Hr. unfold advance. cbn [v_head v_remaining mbind option_bind]. destruct (item_head x) as [major n] eqn:Hhd.
  rewrite (proj2 (Z.leb_gt _ _)) by lia. assert ((major =? 6) = false) as ->.
  { apply Z.eqb_neq. destruct x; cbn in Hhd; simplify_eq; lia || done. }
  by rewrite (behind_item_at _ _ _ _ x rest).
Qed.

#[export] Program Instance parser_laws : TinyCborParserLaws := {
  points := points_;
  finished v p := v = mkValue p 0 None;
  max_nesting := 1024
}.
Next Obligation. lia. Qed.
Next Obligation. intros d e v p r [<- <-]%points_value. done. Qed.
Next Obligation.
  intros d e v p r r' Hp _. unfold points_, preparse in *. cbn. repeat case_match; try done. injection Hp as <-. done.
Qed.
Next Obligation. by intros v p ->. Qed.
Next Obligation.
  intros d p e major n rest Hh. cbn. replace (p + (e - p)) with e by lia. rewrite (preparse_head _ _ _ _ _ _ _ Hh). eexists. split; [done|].
  unfold points_. apply (preparse_head _ _ _ _ _ _ _ Hh).
Qed.
Next Obligation. intros d e v p r major n rest Hp Hh. by rewrite (points_head _ _ _ _ _ _ _ _ Hp Hh). Qed.
Next Obligation.
  intros d e v p r major n rest Hp Hh. rewrite (points_head _ _ _ _ _ _ _ _ Hp Hh). cbn.
  split_and!; intros; subst; try done.
Qed.
Next Obligation.
  intros d e v p r major b rest Hp _ Hh. rewrite (points_head _ _ _ _ _ _ _ _ Hp Hh). cbn. unfold copy.
  rewrite (behind_head_at _ _ _ _ _ _ _ _ Hh). cbn [mbind option_bind argument v_head].
  destruct Hh as (Hpe & He & _ & Hs). destruct (slice_app _ _ _ _ _ Hpe He Hs) as (Hle & _ & Hrest).
  pose proof (size_nonneg (head major (size b))).
  by destruct (slice_app _ _ _ b rest ltac:(split; [|exact Hle]; lia) He Hrest) as (_ & -> & _).
Qed.
Next Obligation.
  intros d e v p x rest Hp Hpe He [Hx _] Ht Hs. pose proof (item_head_known x Hx) as Hk.
  assert (head_at d p e (item_head x).1 (item_head x).2 (item_body x ++ rest)) as Hh.
  { split; [done|]. split; [done|]. split; [done|]. by rewrite Hs, item_split, <- app_assoc. }
  rewrite (points_head _ _ _ _ _ _ _ _ Hp Hh), <- surjective_pairing. cbn [cbor_value_advance parser].
  rewrite (advance_element _ _ _ _ x rest) by (done || lia). by eexists.
Qed.
Next Obligation.
  intros d e v p r x major n rest Hp Hr Hpe He [Hx _] Ht Hs Hk. pose proof (item_head_known x Hx) as Hkx.
  assert (head_at d p e (item_head x).1 (item_head x).2 (item_body x ++ head major n ++ rest)) as Hh.
  { split; [done|]. split; [done|]. split; [done|]. by rewrite Hs, item_split, <- app_assoc. }
  rewrite (points_head _ _ _ _ _ _ _ _ Hp Hh), <- surjective_pairing. cbn [cbor_value_advance parser].
  rewrite (advance_element _ _ _ _ x (head major n ++ rest)) by (done || lia). rewrite (proj2 (Z.eqb_neq _ _)) by lia.
  pose proof (preparse_head _ _ _ (r - 1) _ _ _ (head_at_next _ _ _ _ _ _ _ Hpe He Hs Hk)) as Hpp. rewrite Hpp. by eexists.
Qed.
Next Obligation.
  intros d e v p r t major n rest Hp Hr Hh Hk. rewrite (points_head _ _ _ _ _ _ _ _ Hp Hh). cbn [cbor_value_advance parser]. unfold advance. cbn [v_head v_remaining mbind option_bind].
  rewrite (proj2 (Z.leb_gt _ _)) by lia. rewrite (behind_head_at _ _ _ _ _ _ _ _ Hh). cbn [mbind option_bind]. destruct Hh as (Hpe & He & _ & Hs).
  pose proof (preparse_head _ _ _ r _ _ _ (head_at_next _ _ _ _ _ _ _ Hpe He Hs Hk)) as Hpp. change (6 =? 6) with true. cbv iota. rewrite Hpp. by eexists.
Qed.
Next Obligation.
  intros d e v p r major n rest Hp Hh Hm. rewrite (points_head _ _ _ _ _ _ _ _ Hp Hh). cbn [cbor_value_skip_tag parser]. destruct (length d); [done|]. cbn [skip_tags v_head mbind option_bind].
  by rewrite (proj2 (Z.eqb_neq _ _)).
Qed.
Next Obligation.
  intros d e v p r t major n rest Hp Hr Hh Hk Hm. destruct (parser_laws_obligation_11 d e v p r t major n rest Hp Hr Hh Hk) as (v' & Hv' & Hp').
  exists v'. split; [|done]. pose proof Hh as (Hpe & He & _ & Hs). rewrite (points_head _ _ _ _ _ _ _ _ Hp Hh) in *. cbn [cbor_value_skip_tag cbor_value_advance parser] in *.
  pose proof (rest_offset _ _ _ _ _ Hpe He Hs) as Ho. rewrite size_app in Ho.
  assert (1 ≤ size (head 6 t) ∧ 1 ≤ size (head major n)) as [H1 H2].
  { split; unfold head; repeat case_match; unfold size; cbn; lia. }
  pose proof (size_nonneg rest). destruct (length d) as [|[|m]] eqn:Hd; [unfold size in *; lia..|].
  cbn [skip_tags v_head mbind option_bind]. change (6 =? 6) with true. cbv iota. rewrite Hv'. cbn [mbind option_bind].
  rewrite (points_head _ _ _ _ _ _ _ _ Hp' (head_at_next _ _ _ _ _ _ _ Hpe He Hs Hk)). cbn [skip_tags v_head mbind option_bind].
  by rewrite (proj2 (Z.eqb_neq _ _)).
Qed.
Next Obligation.
  intros d e v p r major rest Hp Hh Hm. rewrite (points_head _ _ _ _ _ _ _ _ Hp Hh). cbn [cbor_value_enter_container parser]. unfold enter. cbn [v_head mbind option_bind].
  rewrite (behind_head_at _ _ _ _ _ _ _ _ Hh). cbn. eexists. split; [done|]. done.
Qed.
Next Obligation.
  intros d e v p r major n major' n' rest Hp Hh Hk Hm Hn _. rewrite (points_head _ _ _ _ _ _ _ _ Hp Hh). cbn [cbor_value_enter_container parser]. unfold enter. cbn [v_head mbind option_bind].
  rewrite (behind_head_at _ _ _ _ _ _ _ _ Hh). cbn [mbind option_bind]. rewrite (proj2 (Z.eqb_neq _ _)) by lia. destruct Hh as (Hpe & He & _ & Hs).
  pose proof (preparse_head _ _ _ (if major =? 4 then n else 2 * n) _ _ _ (head_at_next _ _ _ _ _ _ _ Hpe He Hs Hk)) as Hpp. rewrite Hpp. by eexists.
Qed.

End SampleParser.
(** * What the codec promises *)

Section codec.
Context {M : Type} `{!Multiformats M, !TinyCborEncoder, !TinyCborEncoderLaws, !TinyCborParser, !TinyCborParserLaws}.

(** C11: what is encoded is decoded.  For every type the templates make of
    booleans, integers of any width, byte strings, strings, CIDs, vectors,
    optionals and maps, and every value that fits the counts of the parser,
    [cbor::decode] of the bytes of [cbor::encode] gives the value back. *)
Theorem cbor_roundtrip (t : ty) (v : val t) : valid_ty t v → (nesting t ≤ max_nesting)%nat →
  ∃ b, encode (put_ty t v) = returned (Buffer.mkBuffer b) ∧ decode (get_ty t) b = returned v.
Proof.
  intros Hv Hn. exists (encode_item (denote_ty t v)). split.
  - rewrite (encode_adds _ _ (denotes_ty t v Hv)). by rewrite encode_items_one.
  - destruct (readable_ty t v Hv) as [Hw Hp]. apply decode_reads; [by apply reads_ty|]. split; [done|by eapply parsable_le].
Qed.

(** The value of decimal digits. *)
Definition decimal (ds : bytes) : Z := foldl (λ v c, 10 * v + (c - 0x30)) 0 ds.

Lemma take_while_all f s : Forall (λ c, f c = true) s → take_while f s = s.
Proof. induction 1 as [|c s Hc _ IH]; [done|]. cbn. by rewrite Hc, IH. Qed.

Lemma decimal_nonneg ds : Forall (λ c, is_decimal c = true) ds → 0 ≤ decimal ds.
Proof.
  unfold decimal. intros Hd. enough (∀ v, 0 ≤ v → 0 ≤ foldl (λ v c, 10 * v + (c - 0x30)) v ds) as Hgo by (apply Hgo; lia).
  induction Hd as [|c ds Hc Hd IH]; intros v Hv; [done|]. cbn [foldl]. apply IH.
  unfold is_decimal in Hc. apply andb_prop in Hc as [Hc _]. apply Z.leb_le in Hc. lia.
Qed.

(** The start of a key that [std::stoul] reads: white space, a sign, digits. *)
Record numeral (sp sign ds : bytes) : Prop := {
  num_spaces : Forall (λ c, is_space c = true) sp;
  num_sign : sign = [] ∨ sign = [0x2B] ∨ sign = [0x2D];
  num_digits : ds ≠ [] ∧ Forall (λ c, is_decimal c = true) ds
}.

(** The digits end before [rest]. *)
Definition not_digit (rest : bytes) : Prop := ∀ c, rest !! 0%nat = Some c → is_decimal c = false.

(** The index a numeral denotes: [std::stoul] negates in 64 bits. *)
Definition index_value (sign ds : bytes) : Z := if bool_decide (sign = [0x2D]) then u64 (- decimal ds) else decimal ds.

Lemma take_while_app f s y : Forall (λ c, f c = true) s → (∀ c, y !! 0%nat = Some c → f c = false) → take_while f (s ++ y) = s.
Proof.
  induction 1 as [|c s Hc _ IH]; intros Hy; cbn [app take_while].
  - destruct y as [|c y]; [done|]. cbn. by rewrite (Hy c).
  - by rewrite Hc, IH.
Qed.

Lemma decimal_range c : is_decimal c = true → 0x30 ≤ c ≤ 0x39.
Proof. unfold is_decimal. intros [Hlo Hhi]%andb_prop. apply Z.leb_le in Hlo, Hhi. lia. Qed.

Lemma decimal_plain c : 0x30 ≤ c ≤ 0x39 → is_space c = false ∧ (c =? 0x2B) || (c =? 0x2D) = false.
Proof.
  intros Hc. unfold is_space. rewrite (proj2 (Z.eqb_neq c 0x20)), (proj2 (Z.leb_gt c 0x0D)), andb_false_r by lia.
  by rewrite (proj2 (Z.eqb_neq c 0x2B)), (proj2 (Z.eqb_neq c 0x2D)) by lia.
Qed.

Lemma stoul_numeral sp sign ds rest : numeral sp sign ds → not_digit rest →
  stoul (sp ++ sign ++ ds ++ rest) =
    if 2 ^ 64 - 1 <? decimal ds then failure out_of_range
    else success (index_value sign ds, size sp + size sign + size ds).
Proof.
  intros [Hsp Hsign [Hne Hds]] Hrest. destruct ds as [|d ds]; [done|]. pose proof (decimal_range d (Forall_inv Hds)) as Hd.
  destruct (decimal_plain d Hd) as [Hds1 Hds2].
  unfold stoul. rewrite take_while_app; [|done|]. 2: { destruct Hsign as [->|[->| ->]]; intros c; cbn; intros [= <-]; [done|reflexivity..]. }
  rewrite drop_app_length. unfold index_value.
  assert (take_while is_decimal ((d :: ds) ++ rest) = d :: ds) as Ht by (by apply take_while_app).
  destruct Hsign as [->|[->| ->]]; cbn [app]; [rewrite Hds2|cbn [Z.eqb Pos.eqb orb]..]; cbn [app] in Ht; rewrite Ht; reflexivity.
Qed.

(** A key that does not start with a number. *)
Lemma stoul_none k : (∀ sp sign ds rest, k = sp ++ sign ++ ds ++ rest → ¬ numeral sp sign ds) → stoul k = failure invalid_argument.
Proof.
  intros Hk. unfold stoul.
  assert (∀ f s, s = take_while f s ++ drop (length (take_while f s)) s) as Hsplit.
  { intros f s. induction s as [|c s IH]; cbn; [done|]. destruct (f c); cbn; [by rewrite <- IH|done]. }
  assert (∀ f s, Forall (λ c, f c = true) (take_while f s)) as Hall.
  { intros f s. induction s as [|c s IH]; cbn; [constructor|]. destruct (f c) eqn:Hc; by constructor. }
  set (sp := take_while is_space k). set (r := drop (length sp) k).
  assert (∃ sign r', (match r with c :: r => if (c =? 0x2B) || (c =? 0x2D) then ([c], r) else ([], c :: r) | [] => ([], []) end) = (sign, r')
    ∧ r = sign ++ r' ∧ (sign = [] ∨ sign = [0x2B] ∨ sign = [0x2D])) as (sign & r' & Hm & Hr & Hsign).
  { destruct r as [|c r']; [by exists [], []; auto|]. destruct (Z.eqb_spec c 0x2B) as [->|]; [by exists [0x2B], r'; auto|].
    destruct (Z.eqb_spec c 0x2D) as [->|]; [by exists [0x2D], r'; auto|]. by exists [], (c :: r'); auto. }
  assert ((match r with c :: r0 => if (c =? 0x2B) || (c =? 0x2D) then ([c], r0) else ([], r) | [] => ([], []) end) = (sign, r')) as ->
    by (rewrite <- Hm; by destruct r).
  case_bool_decide as Hd; [done|]. destruct (Hk sp sign (take_while is_decimal r') (drop (length (take_while is_decimal r')) r')).
  - rewrite <- Hsplit, <- Hr. apply Hsplit.
  - split; [apply Hall|done|]. split; [done|apply Hall].
Qed.

Lemma parseIndex_numeral sp sign ds rest : numeral sp sign ds → not_digit rest →
  parseIndex (sp ++ sign ++ ds ++ rest) =
    if 2 ^ 64 <=? decimal ds then failure KEY_NOT_FOUND
    else if bool_decide (rest ≠ [] ∨ (sp = [] ∧ sign = [0x2D])) then failure INT_KEY_EXPECTED
    else success (index_value sign ds).
Proof.
  intros Hn Hrest. unfold parseIndex. rewrite (stoul_numeral _ _ _ _ Hn Hrest).
  destruct (Z.leb_spec (2 ^ 64) (decimal ds)) as [Hb|Hb]; [by rewrite (proj2 (Z.ltb_lt _ _)) by lia|].
  rewrite (proj2 (Z.ltb_ge _ _)) by lia. rewrite !size_app. pose proof (size_nonneg rest).
  destruct rest as [|c rest].
  2: { rewrite (bool_decide_true (_ ∨ _)) by (by left). rewrite size_cons. pose proof (size_nonneg rest).
       by rewrite (proj2 (Z.eqb_neq _ _)) by lia. }
  rewrite size_nil, (proj2 (Z.eqb_eq _ _)) by lia. cbn [negb]. rewrite app_nil_r.
  destruct Hn as [Hsp Hsign [Hne Hds]]. assert ((sp ++ sign ++ ds) !! 0%nat = Some 0x2D ↔ sp = [] ∧ sign = [0x2D]) as Hiff.
  { destruct sp as [|c sp]; cbn.
    - destruct ds as [|d ds]; [done|]. pose proof (decimal_range d (Forall_inv Hds)).
      assert (d ≠ 0x2D) by lia. destruct Hsign as [->|[->| ->]]; cbn; naive_solver.
    - apply Forall_inv in Hsp. split; [|by intros [? _]]. intros Heq. assert (c = 0x2D) as -> by congruence. done. }
  case_bool_decide as Hc1; case_bool_decide as Hc2; naive_solver.
Qed.

(** C17: [resolve], on every stream at an item and every key.  In a list a key that
    starts with a number (white space, a sign and digits, as [std::stoul] reads it)
    of [2^64] or more is [KEY_NOT_FOUND]; otherwise one that goes on behind the
    digits, or begins with a minus, is [INT_KEY_EXPECTED], and any other gives the
    element at its index (negated in 64 bits for a minus behind white space), or
    [KEY_NOT_FOUND] when there is none; a key that does not start with a number is
    [INT_KEY_EXPECTED].  In a map a key gives its value, another key is
    [KEY_NOT_FOUND]; anything else is [CONTAINER_EXPECTED].  The element found is
    the one whose bytes [raw] returns.  The elements skipped, and the values of the
    map, are to be without tags other than those of CIDs. *)
Theorem resolve_spec s x its r : decoder_at s (x :: its) r → 1 ≤ r < 2 ^ 32 →
  match x with
  | cArray l => Forall element l →
      (∀ sp sign ds rest, numeral sp sign ds → not_digit rest →
         let k := sp ++ sign ++ ds ++ rest in
         if 2 ^ 64 <=? decimal ds then resolve s k = failed (resolve_path KEY_NOT_FOUND)
         else if bool_decide (rest ≠ [] ∨ (sp = [] ∧ sign = [0x2D])) then resolve s k = failed (resolve_path INT_KEY_EXPECTED)
         else match l !! Z.to_nat (index_value sign ds) with
              | Some y => ∃ s' s'', resolve s k = returned s' ∧ raw s' = returned (encode_item y, s'')
              | None => resolve s k = failed (resolve_path KEY_NOT_FOUND)
              end) ∧
      (∀ k, (∀ sp sign ds rest, k = sp ++ sign ++ ds ++ rest → ¬ numeral sp sign ds) →
         resolve s k = failed (resolve_path INT_KEY_EXPECTED))
  | cMap l => Forall (λ p, size p.1 ≤ max_size ∧ element p.2) l → ∀ k,
      (k ∉ l.*1 → resolve s k = failed (resolve_path KEY_NOT_FOUND)) ∧
      ∀ y, (k, y) ∈ l → ∃ s' s'', resolve s k = returned s' ∧ raw s' = returned (encode_item y, s'')
  | _ => ∀ k, resolve s k = failed (resolve_path CONTAINER_EXPECTED)
  end.
Proof.
  intros Hat Hr. destruct x as [n|n|b|b|l|l|t y|b|] eqn:Hx; try (intros k; by apply (resolve_other _ _ _ _ _ Hat)).
  - intros Hel. pose proof (λ k, resolve_list s l its r k Hat Hr Hel) as Hres. split.
    2: { intros k Hk. specialize (Hres k). unfold parseIndex in Hres. by rewrite (stoul_none k Hk) in Hres. }
    intros sp sign ds rest Hn Hrest k. specialize (Hres k). subst k. rewrite (parseIndex_numeral _ _ _ _ Hn Hrest) in Hres.
    destruct (Z.leb_spec (2 ^ 64) (decimal ds)) as [Hb|Hb]; [done|]. case_bool_decide as Hbad; [done|].
    assert (0 ≤ index_value sign ds) as Hi.
    { unfold index_value. case_bool_decide; [apply Z.mod_pos_bound; lia|apply decimal_nonneg, Hn]. }
    pose proof Hat as (_ & _ & _ & _ & _ & _ & Hrd & _)%decoder_at_head. destruct (readable_array _ Hrd) as [_ Hs].
    destruct (l !! Z.to_nat (index_value sign ds)) as [y|] eqn:Hy.
    + pose proof (lookup_lt_Some _ _ _ Hy) as Hlt. rewrite (proj2 (Z.leb_gt _ _)) in Hres by (unfold size in *; lia).
      destruct (Hres ltac:(done)) as (s' & Hs' & _ & Hat').
      rewrite (drop_S _ _ _ Hy) in Hat'. cbn [app] in Hat'.
      destruct (reads_raw y (Forall_lookup_1 _ _ _ _ Hel Hy) _ _ _ Hat') as (s'' & Hs'' & _); [unfold size in *; lia|]. by exists s', s''.
    + apply lookup_ge_None in Hy. by rewrite (proj2 (Z.leb_le _ _)) in Hres by (unfold size in *; lia).
  - intros Hel k. destruct (resolve_map s l its r k Hat Hr) as [Hnone Hsome].
    { eapply Forall_impl; [exact Hel|]. intros [k' y] [Hk Hy]. split; [done|]. destruct y; try done. by destruct Hy. }
    split; [done|]. intros y Hy. destruct (Hsome y Hy) as (s' & Hs' & _ & Hat').
    rewrite Forall_forall in Hel. destruct (reads_raw y (proj2 (Hel _ Hy)) _ _ _ Hat' ltac:(lia)) as (s'' & Hs'' & _). by exists s', s''.
Qed.

End codec.

#[export] Existing Instances SampleParser.parser SampleParser.parser_laws.

(** ** The vectors of [cbor_test.cpp] *)

Module SampleCbor.

Abbreviation cid := (CID Sample.Multihash).

(** A stream on some bytes, for a call on it. *)
Definition on {A} (input : bytes) (c : decoder A) : attempt decode_exception A :=
  s ← new_CborDecodeStream input; '(a, _) ← c s; returned a.

Definition bytes_eqb (a b : bytes) : bool := bool_decide (a = b).

Definition kCidCbor : bytes :=
  [0xD8; 0x2A; 0x58; 0x23; 0x00; 0x12; 0x20] ++ replicate 32 0x31.
Definition kCidRaw : cid := mkCID Version_V0 DAG_PB (Sample.mh HashType_sha256 (replicate 32 0x31)).

Definition resolved (input part : bytes) : attempt resolve_error bytes :=
  s ← resolving (new_CborDecodeStream input);
  s ← resolve s part;
  resolving ('(b, _) ← raw s; returned b).

(** Streams for the theorem on [resolve]: the map of [StringKey], the list of [IntKey]. *)
Definition string_key : item := cMap [([0x61], cUint 3); ([0x62], cUint 4); ([0x63], cUint 5)].
Definition int_key : item := cArray [cUint 5; cUint 6; cUint 7; cUint 8].

Definition nested_ty : ty := tMap (tVector (tOptional (tInt 32))).
Definition nested_value : gmap bytes (list (option Z)) := {[ [0x61; 0x61] := [Some 1; None; Some (-300)]; [0x62] := [] ]}.

End SampleCbor.

Example decode_integers :
  (decode (get_signed 32) [0x01] = returned 1 ∧ decode (get_signed 32) [0x18; 0x18] = returned 24 ∧
   decode (get_signed 32) [0x20] = returned (-1) ∧ decode get_bool [0xF5] = returned true) ∧
  (decode get_bool [0x01] = failed (own_code WRONG_TYPE) ∧ decode (get_unsigned 8) [0x80] = failed (own_code WRONG_TYPE) ∧
   decode (get_unsigned 8) [0x21] = failed (own_code INT_OVERFLOW) ∧ decode (get_unsigned 8) [0x19; 0x01; 0x00] = failed (own_code INT_OVERFLOW) ∧
   decode (get_signed 8) [0x18; 0x80] = failed (own_code INT_OVERFLOW)) ∧
  decode (get_span 3) [0x42; 0xCA; 0xFE] = failed (own_code WRONG_SIZE) ∧ decode (get_span 3) [0x43; 0xCA; 0xFE; 0xDE] = returned [0xCA; 0xFE; 0xDE].
Proof. vm_compute. done. Qed.

Example decode_cids :
  decode get_cid SampleCbor.kCidCbor = returned SampleCbor.kCidRaw ∧
  decode (get_cid (M:=Sample.Multihash)) (drop 2 SampleCbor.kCidCbor) = failed (own_code INVALID_CBOR_CID) ∧
  decode (get_cid (M:=Sample.Multihash)) ([0xD8; 0x2B] ++ drop 2 SampleCbor.kCidCbor) = failed (own_code INVALID_CBOR_CID) ∧
  decode (get_cid (M:=Sample.Multihash)) [0xD8; 0x2A] = failed (own_code INVALID_CBOR) ∧
  decode (get_cid (M:=Sample.Multihash)) [0xD8; 0x2A; 0x42; 0x00; 0x00] = failed (own_code INVALID_CID) ∧
  SampleCbor.on (SampleCbor.kCidCbor ++ [0x01]) (_ ← next; get_signed 32) = returned 1.
Proof. vm_compute. done. Qed.

Example decode_containers :
  SampleCbor.on [0x82; 0x05; 0x04; 0x03] (s2 ← list_; '(a, s2) ← within s2 (get_signed 32); '(b, _) ← within s2 (get_signed 32);
    c ← get_signed 32; mret (a, b, c)) = returned (5, 4, 3) ∧
  SampleCbor.on [0x01] (_ ← list_; mret ()) = failed (cbor_error WRONG_TYPE) ∧ SampleCbor.on [0x81] (_ ← list_; mret ()) = failed (cbor_error INVALID_CBOR) ∧
  SampleCbor.on [0x80; 0x18] (_ ← list_; mret ()) = failed (cbor_error INVALID_CBOR) ∧
  SampleCbor.on [0x82; 0x01; 0x01] listLength = returned 2 ∧ SampleCbor.on [0x81; 0x02; 0x01] raw = returned [0x81; 0x02] ∧
  decode (get_vector (get_signed 32)) [0x83; 0x02; 0x05; 0x09] = returned [2; 5; 9].
Proof. vm_compute. done. Qed.

Example resolve_vectors :
  let a := [0x84; 0x05; 0x06; 0x07; 0x08] in
  let m := encode_item SampleCbor.string_key in
  SampleCbor.resolved a [0x32] = returned [0x07] ∧
  SampleCbor.resolved a [0x61] = failed (resolve_path INT_KEY_EXPECTED) ∧ SampleCbor.resolved a [0x31; 0x61] = failed (resolve_path INT_KEY_EXPECTED) ∧
  SampleCbor.resolved a [0x2D; 0x34] = failed (resolve_path INT_KEY_EXPECTED) ∧ SampleCbor.resolved a [0x34] = failed (resolve_path KEY_NOT_FOUND) ∧
  SampleCbor.resolved m [0x62] = returned [0x04] ∧ SampleCbor.resolved m [0x31] = failed (resolve_path KEY_NOT_FOUND) ∧
  SampleCbor.resolved [0x01] [0x30] = failed (resolve_path CONTAINER_EXPECTED) ∧
  SampleCbor.resolved [0x82; 0x81] [0x31] = failed (resolve_cbor INVALID_CBOR).
Proof. vm_compute. done. Qed.

(** White space and a sign are accepted before an index, and [" -1"] is the largest. *)
Example parseIndex_lenient :
  parseIndex [0x20; 0x2B; 0x32] = success 2 ∧ parseIndex [0x20; 0x2D; 0x31] = success (2 ^ 64 - 1).
Proof. vm_compute. done. Qed.

Lemma cbor_roundtrip_witness :
  ∃ b, encode (put_ty (M:=Sample.Multihash) SampleCbor.nested_ty SampleCbor.nested_value) = returned (Buffer.mkBuffer b) ∧
    decode (get_ty (M:=Sample.Multihash) SampleCbor.nested_ty) b = returned SampleCbor.nested_value.
Proof.
  apply (cbor_roundtrip (M:=Sample.Multihash) SampleCbor.nested_ty SampleCbor.nested_value).
  - split; [|vm_compute; reflexivity].
    intros k x Hx. change (list (option Z)) in x. change (SampleCbor.nested_value !! k = Some x) in Hx. unfold SampleCbor.nested_value in Hx. apply lookup_insert_Some in Hx as [[<- <-]|[_ [<- <-]%lookup_singleton_Some]].
    + split; [vm_compute; reflexivity|]. split; [|vm_compute; reflexivity].
      apply Forall_cons; split; [intros y [= <-]; split; [vm_compute; repeat split; discriminate|vm_compute; discriminate]|].
      apply Forall_cons; split; [intros y; discriminate|].
      apply Forall_singleton. intros y [= <-]; split; [vm_compute; repeat split; discriminate|vm_compute; discriminate].
    + split; [vm_compute; reflexivity|]. split; [constructor|vm_compute; reflexivity].
  - vm_compute. repeat constructor.
Defined.

(** The map of [StringKey]; in the list of [IntKey] the keys ["2"], ["a"], ["1a"] and ["-4"]. *)
Lemma resolve_spec_witness :
  (∃ s, new_CborDecodeStream (encode_item SampleCbor.string_key) = returned s ∧
    (resolve s [0x31] = failed (resolve_path KEY_NOT_FOUND)) ∧
    ∃ s' s'', resolve s [0x62] = returned s' ∧ raw s' = returned (encode_item (cUint 4), s'')) ∧
  (∃ s, new_CborDecodeStream (encode_item SampleCbor.int_key) = returned s ∧
    (∃ s' s'', resolve s [0x32] = returned s' ∧ raw s' = returned (encode_item (cUint 7), s'')) ∧
    resolve s [0x61] = failed (resolve_path INT_KEY_EXPECTED) ∧
    resolve s [0x31; 0x61] = failed (resolve_path INT_KEY_EXPECTED) ∧
    resolve s [0x2D; 0x34] = failed (resolve_path INT_KEY_EXPECTED)).
Proof.
  split.
  - destruct (stream_on SampleCbor.string_key) as (s & Hs & Hat).
    { repeat constructor; vm_compute; try discriminate; repeat constructor. }
    pose proof (resolve_spec s SampleCbor.string_key [] UINT32_MAX Hat ltac:(vm_compute; split; [discriminate|reflexivity])
      ltac:(repeat constructor; vm_compute; discriminate)) as Hspec.
    exists s. split; [exact Hs|]. split.
    + apply (proj1 (Hspec [0x31])). cbn. rewrite !not_elem_of_cons. repeat split; try discriminate. apply not_elem_of_nil.
    + apply (proj2 (Hspec [0x62]) (cUint 4)). right. left.
  - destruct (stream_on SampleCbor.int_key) as (s & Hs & Hat).
    { repeat constructor; vm_compute; try discriminate; repeat constructor. }
    destruct (resolve_spec s SampleCbor.int_key [] UINT32_MAX Hat ltac:(vm_compute; split; [discriminate|reflexivity])
      ltac:(repeat constructor; vm_compute; discriminate)) as [Hnum Hnone].
    assert (∀ sign d, sign = [] ∨ sign = [0x2B] ∨ sign = [0x2D] → is_decimal d = true → numeral [] sign [d]) as Hn
      by (intros sign d H1 H2; split; [constructor|exact H1|split; [discriminate|repeat constructor; exact H2]]).
    exists s. split; [exact Hs|]. split; [|split; [|split]].
    + exact (Hnum [] [] [0x32] [] (Hn [] 0x32 (or_introl eq_refl) eq_refl) ltac:(intros c H; discriminate H)).
    + apply Hnone. intros sp sign ds rest Heq [Hsp Hsign [Hne Hds]].
      destruct sp as [|c sp]; [|injection Heq as <- _; apply Forall_inv in Hsp; discriminate Hsp].
      destruct Hsign as [->|[->| ->]]; [|discriminate Heq|discriminate Heq]. destruct ds as [|d ds]; [by apply Hne|].
      injection Heq as <- _. apply Forall_inv in Hds. discriminate Hds.
    + exact (Hnum [] [] [0x31] [0x61] (Hn [] 0x31 (or_introl eq_refl) eq_refl) ltac:(intros c [= <-]; reflexivity)).
    + exact (Hnum [] [0x2D] [0x34] [] (Hn [0x2D] 0x34 (or_intror (or_intror eq_refl)) eq_refl) ltac:(intros c H; discriminate H)).
Defined.
