(* ===== verification/CborStream.v ===== *)
(** CBOR objects over a stream: [src/common/libp2p/cbor_stream.hpp] and
    [cbor_stream.cpp], on the framing of [CborBuffering.v] and the codec.

    A call that ends in [readSome] waits for libp2p's stream, whose callback is
    [onRead].  The span given to a callback is the object's bytes; the state after
    an error is not followed. *)
From stdpp Require Import base numbers countable list gmap strings sorting.
From S2P Require Import Prelude CborBuffering Bytes Cid Cbor CborDecode CborReads CborCodec.

Open Scope Z_scope.

(** *** [CborStream] *)

Record CborStream := mkCborStream {
  buffering_ : CborBuffering.CborBuffering;
  buffer_ : bytes;
  size_ : Z
}.

Definition kReserveBytes : Z := Z.shiftl 4 10.

Definition new_CborStream : CborStream := mkCborStream CborBuffering.initial [] 0.

Inductive stream_error :=
| framing_error (e : CborBuffering.Error)
| io_error (e : Z).   (* of the stream *)

(** How a call goes on: [readSome] of at most [kReserveBytes], the callback with an
    object, the callback with an error, or a failed assertion. *)
Inductive step :=
| Reads (s : CborStream)
| Object (s : CborStream) (input : bytes)
| Fails (e : stream_error)
| Aborts.

(** [std::vector::resize]. *)
Definition vector_resize (n : Z) (v : bytes) : bytes := list.resize (Z.to_nat n) 0 v.

Definition readMore (s : CborStream) : step :=
  if CborBuffering.done_ (buffering_ s) then Object s (take (Z.to_nat (size_ s)) (buffer_ s))
  else Reads (mkCborStream (buffering_ s) (vector_resize (u64 (size_ s + kReserveBytes)) (buffer_ s)) (size_ s)).

Definition consume_input (input : bytes) (s : CborStream) : step :=
  if CborBuffering.done_ (buffering_ s) then Aborts
  else
    match CborBuffering.consume (buffering_ s) input with
    | failure e => Fails (framing_error e)
    | success (b, consumed) => readMore (mkCborStream b (buffer_ s) (u64 (size_ s + consumed)))
    end.

Definition readRaw (s : CborStream) : step :=
  if negb (CborBuffering.done_ (buffering_ s)) then Aborts
  else
    let buffer := drop (Z.to_nat (size_ s)) (buffer_ s) in
    consume_input buffer (mkCborStream (CborBuffering.reset (buffering_ s)) buffer 0).

(** The callback of [readSome]: the bytes the stream put into the span behind
    [size_], or its error. *)
Definition onRead (result : outcome Z bytes) (s : CborStream) : step :=
  match result with
  | failure e => Fails (io_error e)
  | success bs =>
    let filled := take (Z.to_nat (size_ s)) (buffer_ s) ++ bs ++ drop (Z.to_nat (size_ s + size bs)) (buffer_ s) in
    let buffer := vector_resize (u64 (size_ s + size bs)) filled in
    consume_input (drop (Z.to_nat (size_ s)) buffer) (mkCborStream (buffering_ s) buffer (size_ s))
  end.

(** [writeRaw] gives the bytes to the stream. *)
Definition writeRaw (input : bytes) : bytes := input.

Section typed.
Context {M : Type} `{!Multiformats M, !TinyCborEncoder, !TinyCborParser}.

(** [read] decodes the object for its callback. *)
Definition read {T} (get : decoder T) (input : outcome stream_error bytes) : attempt (stream_error + decode_code) T :=
  match input with
  | failure e => failed (inl e)
  | success bs => match decode get bs with returned x => returned x | failed e => failed (inr e) | thrown => thrown end
  end.

(** [write]: what the stream is given. *)
Definition write (put : encoder ()) : attempt CborEncodeError bytes :=
  encoded ← encode put; returned (writeRaw (Buffer.data_ encoded)).

End typed.

(** The chunks the stream gives, one for each [readSome], as long as it is read. *)
Fixpoint run_reads (p : step) (chunks : list bytes) : step * list bytes :=
  match p, chunks with
  | Reads s, c :: chunks => run_reads (onRead (success c) s) chunks
  | _, _ => (p, chunks)
  end.

(** [n] objects, one after another: their bytes. *)
Fixpoint read_objects (n : nat) (s : CborStream) (chunks : list bytes) : list bytes :=
  match n with
  | O => []
  | S n =>
    match run_reads (readRaw s) chunks with
    | (Object s o, chunks) => o :: read_objects n s chunks
    | _ => []
    end
  end.

(** ** One object *)

(** The bytes a stream may give at once. *)
Definition chunk (c : bytes) : Prop := Forall is_byte c ∧ size c ≤ kReserveBytes.

(** Between two reads: the object read lies before [size_], and behind it what was
    read further. *)
Definition ready (s : CborStream) (left : bytes) : Prop :=
  buffering_ s = CborBuffering.initial ∧ 0 ≤ size_ s ≤ size (buffer_ s) ∧ drop (Z.to_nat (size_ s)) (buffer_ s) = left ∧ Forall is_byte left.

(** Inside a read: the bytes [pre] of the object are there, and it is not done. *)
Definition reading (s : CborStream) (pre : bytes) : Prop :=
  CborBuffering.feed (CborBuffering.reset CborBuffering.initial) pre = success (buffering_ s, size pre) ∧
  CborBuffering.done_ (buffering_ s) = false ∧ size_ s = size pre ∧
  take (length pre) (buffer_ s) = pre ∧ size (buffer_ s) = size pre + kReserveBytes.

(** What the framing says about a part of an object and about all of it. *)
Lemma feed_part bs pre more : CborBuffering.items 1 bs → bs = pre ++ more → more ≠ [] →
  ∃ b, CborBuffering.feed (CborBuffering.reset CborBuffering.initial) pre = success (b, size pre) ∧ CborBuffering.done_ b = false.
Proof.
  intros Hi -> Hne. pose proof (CborBuffering.feed_object (pre ++ more) [] Hi ltac:(constructor)) as Hc.
  rewrite app_nil_r, CborBuffering.feed_app in Hc. destruct (CborBuffering.feed _ pre) as [[b n]|] eqn:Hf; [|done].
  cbn [mbind outcome_bind] in Hc. pose proof (CborBuffering.feed_progress _ _ _ _ Hf) as [Hn Hd].
  assert (1 ≤ size more) by (destruct more; [done|rewrite size_cons; pose proof (size_nonneg more); lia]).
  assert (CborBuffering.done_ b = false) as Hdone.
  { destruct (CborBuffering.done_ b) eqn:Hb; [|done]. rewrite (CborBuffering.feed_done _ _ Hb) in Hc. cbn in Hc. injection Hc as _ Hsz. rewrite size_app in Hsz. lia. }
  exists b. split; [|done]. do 2 f_equal. destruct (decide (n < size pre)) as [Hlt|]; [|lia]. rewrite (Hd Hlt) in Hdone. done.
Qed.

(** An object that is there as a whole. *)
Lemma app_split {A} (a b c d : list A) : a ++ b = c ++ d →
  (size a < size c ∧ ∃ e, e ≠ [] ∧ c = a ++ e ∧ b = e ++ d) ∨ (size c ≤ size a ∧ ∃ e, a = c ++ e ∧ d = e ++ b).
Proof.
  intros (e & [(-> & ->)|(-> & ->)])%app_eq_app.
  - right. rewrite size_app. pose proof (size_nonneg e). split; [lia|by exists e].
  - destruct e as [|x e]; [right; rewrite app_nil_r; split; [lia|exists []; by rewrite app_nil_r]|left].
    rewrite size_app, size_cons. pose proof (size_nonneg e). split; [lia|by exists (x :: e)].
Qed.

Lemma resize_exact (v w : bytes) n : n = size v → vector_resize n (v ++ w) = v.
Proof. intros ->. unfold vector_resize, size. rewrite Nat2Z.id, resize_le by (rewrite length_app; lia). apply take_app_length. Qed.

(** [consume] on the next bytes of what arrives. *)
Lemma consume_at b pre input bs rest tail :
  CborBuffering.feed (CborBuffering.reset CborBuffering.initial) pre = success (b, size pre) → CborBuffering.done_ b = false →
  (pre ++ input) ++ tail = bs ++ rest → CborBuffering.items 1 bs → Forall is_byte rest → size bs < 2 ^ 63 →
  (size (pre ++ input) < size bs ∧ ∃ s, consume_input input (mkCborStream b (pre ++ input) (size pre)) = Reads s ∧ reading s (pre ++ input)) ∨
  ∃ s left, consume_input input (mkCborStream b (pre ++ input) (size pre)) = Object s bs ∧ ready s left ∧ left ++ tail = rest.
Proof.
  intros Hf Hd Heq Hi Hrest Hbs. pose proof (CborBuffering.items_bytes _ _ Hi) as Hib.
  assert (Forall is_byte (pre ++ input)) as HF. { assert (Forall is_byte ((pre ++ input) ++ tail)) as HF by (rewrite Heq; by apply Forall_app). by apply Forall_app in HF as [? _]. }
  pose proof (proj1 (Forall_app _ _ _) HF) as [HFp HFi]. pose proof (CborBuffering.feed_wf _ _ _ _ CborBuffering.wf_reset HFp Hf) as Hwf.
  pose proof (CborBuffering.feed_app (CborBuffering.reset CborBuffering.initial) pre input) as Happ. rewrite Hf in Happ. cbn [mbind outcome_bind] in Happ.
  unfold consume_input. cbn [buffering_ buffer_ size_]. rewrite Hd, CborBuffering.consume_feed by done.
  pose proof (size_nonneg pre). pose proof (size_nonneg input).
  destruct (app_split _ _ _ _ Heq) as [(Hlt & more & Hne & -> & ->)|(Hle & left & Hl & ->)].
  - left. split; [done|]. destruct (feed_part _ (pre ++ input) more Hi eq_refl Hne) as (b' & Hb' & Hd').
    rewrite Hb' in Happ. destruct (CborBuffering.feed b input) as [[b1 n]|]; [|done]. cbn in Happ. injection Happ as -> Hn.
    rewrite !size_app in *. unfold readMore. cbn [buffering_ buffer_ size_]. rewrite Hd'. eexists. split; [done|].
    change kReserveBytes with 4096. rewrite (wrap_small 64 (size pre + n)) by lia. rewrite wrap_small by lia.
    unfold reading. cbn [buffering_ buffer_ size_]. split_and!; [by rewrite size_app|done|rewrite size_app; lia| |].
    + unfold vector_resize. rewrite resize_ge by (rewrite length_app; unfold size in *; lia). by rewrite take_app_length.
    + unfold vector_resize, size in *. rewrite length_resize, length_app. change kReserveBytes with 4096. lia.
  - right. rewrite Hl in HF. apply Forall_app in HF as [_ HFl]. rewrite Hl, CborBuffering.feed_object in Happ by done.
    destruct (CborBuffering.feed b input) as [[b1 n]|]; [|done]. cbn in Happ. injection Happ as <- Hn.
    unfold readMore. cbn [buffering_ buffer_ size_]. change (CborBuffering.done_ CborBuffering.initial) with true. cbv iota.
    pose proof (size_nonneg bs). rewrite (wrap_small 64 (size pre + n)) by lia. rewrite <- Hn, Hl. exists (mkCborStream CborBuffering.initial (bs ++ left) (size bs)), left.
    split; [|split; [|done]].
    + f_equal. unfold size. by rewrite Nat2Z.id, take_app_length.
    + split; [done|]. cbn [buffer_ size_]. rewrite size_app. pose proof (size_nonneg left). split; [lia|]. split; [|done].
      unfold size. by rewrite Nat2Z.id, drop_app_length.
Qed.

(** A chunk arrives behind the bytes that are there. *)
Lemma onRead_at s pre c : reading s pre → chunk c → size pre < 2 ^ 63 →
  onRead (success c) s = consume_input c (mkCborStream (buffering_ s) (pre ++ c) (size pre)).
Proof.
  intros (_ & _ & Hsz & Htk & Hlen) [_ Hc] Hp. unfold onRead. rewrite Hsz. change kReserveBytes with 4096 in Hc.
  pose proof (size_nonneg pre). pose proof (size_nonneg c). rewrite wrap_small by lia.
  assert (take (Z.to_nat (size pre)) (buffer_ s) = pre) as -> by (unfold size; by rewrite Nat2Z.id).
  rewrite (app_assoc pre c), resize_exact by (by rewrite size_app). unfold size at 1. by rewrite Nat2Z.id, drop_app_length.
Qed.

Lemma run_object chunks s pre bs rest : reading s pre → Forall chunk chunks → pre ++ concat chunks = bs ++ rest →
  CborBuffering.items 1 bs → Forall is_byte rest → size bs < 2 ^ 63 → size pre < size bs →
  ∃ s' left more, run_reads (Reads s) chunks = (Object s' bs, more) ∧ ready s' left ∧ left ++ concat more = rest ∧ Forall chunk more.
Proof.
  intros Hs Hch. revert s pre Hs. induction Hch as [|c chunks Hc Hch IH]; intros s pre Hs Heq Hi Hr Hbs Hlt.
  - cbn [concat] in Heq. rewrite app_nil_r in Heq. rewrite Heq, size_app in Hlt. pose proof (size_nonneg rest). lia.
  - cbn [concat run_reads] in *. rewrite app_assoc in Heq. rewrite (onRead_at s pre c) by (done || lia). destruct Hs as (Hf & Hd & _).
    destruct (consume_at (buffering_ s) pre c bs rest (concat chunks) Hf Hd Heq Hi Hr Hbs) as [(Hlt' & s' & -> & Hs')|(s' & left & -> & Hrd & Hl)].
    + by apply (IH s' (pre ++ c)).
    + exists s', left, chunks. by destruct chunks.
Qed.

(** One [readRaw] takes one object, whatever the chunks and whatever was read before. *)
Lemma read_one s left chunks bs rest : ready s left → Forall chunk chunks → left ++ concat chunks = bs ++ rest →
  CborBuffering.items 1 bs → Forall is_byte rest → size bs < 2 ^ 63 →
  ∃ s' left' more, run_reads (readRaw s) chunks = (Object s' bs, more) ∧ ready s' left' ∧ left' ++ concat more = rest ∧ Forall chunk more.
Proof.
  intros (Hb & Hsz & Hleft & HF) Hch Heq Hi Hr Hbs. unfold readRaw. rewrite Hb. change (CborBuffering.done_ CborBuffering.initial) with true. cbn [negb].
  rewrite Hleft. destruct (consume_at (CborBuffering.reset CborBuffering.initial) [] left bs rest (concat chunks)) as [(Hlt & s' & Hs & Hs')|(s' & left' & Hs & Hrd & Hl)]; try done.
  - cbn [app size length] in Hs. change (Z.of_nat 0) with 0 in Hs. change (size []) with 0 in Hs. rewrite Hs. by apply (run_object _ s' left).
  - change (size []) with 0 in Hs. cbn [app] in Hs. rewrite Hs. exists s', left', chunks. by destruct chunks.
Qed.

(** ** Items that can be framed *)

(** Booleans and null are of major type 7, which the framing refuses. *)
Inductive framed : item → Prop :=
| framed_uint n : framed (cUint n)
| framed_nint n : framed (cNint n)
| framed_bytes b : Forall is_byte b → framed (cBytes b)
| framed_text b : Forall is_byte b → framed (cText b)
| framed_array l : Forall framed l → framed (cArray l)
| framed_map l : size l < 2 ^ 62 → Forall (λ p, Forall is_byte p.1 ∧ framed p.2) l → framed (cMap l)
| framed_tag t x : framed x → framed (cTag t x).

Lemma be_values b : CborBuffering.be_value b = Integers.be_value b.
Proof.
  unfold CborBuffering.be_value, Integers.be_value. generalize 0 as v.
  induction b as [|x b IH]; intros v; [done|]. cbn [foldl]. rewrite IH. f_equal. lia.
Qed.

Lemma head_is_head t n : 0 ≤ n < 2 ^ 64 → CborBuffering.is_head t n (head (CborBuffering.type_code t) n).
Proof.
  intros Hn. assert (∀ k info, (info, k) ∈ [(24, 1%nat); (25, 2%nat); (26, 4%nat); (27, 8%nat)] → n < 256 ^ Z.of_nat k →
    CborBuffering.is_head t n ((CborBuffering.type_code t * 32 + info) :: Integers.be_bytes k n)) as Hlong.
  { intros k info Hin Hlt. destruct (Integers.be_bytes_spec k n ltac:(lia)) as (Hl & HF & Hv). apply CborBuffering.head_long; [by rewrite Hl|done|].
    by rewrite be_values, Hv. }
  unfold head. destruct (Z.ltb_spec n 24); [apply CborBuffering.head_short; lia|].
  repeat case_match; apply Hlong; try (repeat (left || right); done); try lia.
Qed.

Definition frames (x : item) : Prop := ∀ k rest, CborBuffering.items k rest → CborBuffering.items (k + 1) (encode_item x ++ rest).

Lemma frames_list l : Forall frames l → ∀ k rest, CborBuffering.items k rest → CborBuffering.items (k + size l) (flat_map encode_item l ++ rest).
Proof.
  induction 1 as [|x l Hx _ IH]; intros k rest Hi; cbn [flat_map]; [by rewrite size_nil, Z.add_0_r|].
  rewrite size_cons, <- app_assoc, Z.add_assoc. by apply Hx, IH.
Qed.

Lemma item_frames x : wf_item x → framed x → frames x.
Proof.
  induction x as [n|n|b|b|l IH|l IH|t x IH|b|] using item_ind'; intros Hw Hf k rest Hi; inversion Hw; inversion Hf; subst; cbn [encode_item]; rewrite <- ?app_assoc.
  - apply (CborBuffering.items_int CborBuffering.Unsigned n); [by left|by apply head_is_head|done].
  - apply (CborBuffering.items_int CborBuffering.Signed n); [by right|by apply head_is_head|done].
  - apply (CborBuffering.items_string CborBuffering.Bytes); [by left|apply head_is_head|done|done]. split; [apply size_nonneg|done].
  - apply (CborBuffering.items_string CborBuffering.Text); [by right|apply head_is_head|done|done]. split; [apply size_nonneg|done].
  - apply (CborBuffering.items_array (size l)); [apply (head_is_head CborBuffering.Array); split; [apply size_nonneg|done]| |done].
    rewrite <- (app_nil_r (flat_map _ _)), <- (Z.add_0_l (size l)). apply frames_list; [|constructor].
    apply List.Forall_forall. intros x Hx. apply (proj1 (List.Forall_forall _ _) IH x Hx); by match goal with H : Forall ?P l |- ?P x => exact (proj1 (List.Forall_forall _ _) H x Hx) end.
  - pose proof (size_nonneg l). apply (CborBuffering.items_map (size l)); [apply (head_is_head CborBuffering.Map); lia|lia| |done].
    rewrite encode_entries, <- (app_nil_r (encode_items _)), <- size_entries, <- (Z.add_0_l (size _)). apply frames_list; [|constructor].
    match goal with Hw : Forall (λ p, wf_item p.2) l, Hk : Forall (λ p, size p.1 < _) l, Hf : Forall (λ p, Forall is_byte _ ∧ _) l |- _ =>
      clear -IH Hw Hk Hf; induction IH as [|[k' y] l Hy _ IHl]; [constructor|]; apply Forall_cons in Hw as [Hwy Hw], Hk as [Hky Hk], Hf as [[Hb Hfy] Hf] end.
    cbn [fst snd] in *. change (((k', y) :: l) ≫= λ p, [cText p.1; p.2]) with (cText k' :: y :: (l ≫= λ p, [cText p.1; p.2])).
    constructor; [|constructor; [by apply Hy|by apply IHl]]. intros k rest Hi. cbn [encode_item]. rewrite <- app_assoc.
    apply (CborBuffering.items_string CborBuffering.Text); [by right|apply head_is_head; split; [apply size_nonneg|done]|done|done].
  - apply (CborBuffering.items_tag t); [by apply (head_is_head CborBuffering.Tag)| |done]. rewrite <- (app_nil_r (encode_item x)).
    change 1 with (0 + 1). by apply IH; [..|constructor].
Qed.

(** * What a stream of objects promises *)

Lemma run_objects vs s left chunks : Forall (λ bs, CborBuffering.items 1 bs ∧ size bs < 2 ^ 63) vs →
  ready s left → Forall chunk chunks → left ++ concat chunks = concat vs → read_objects (length vs) s chunks = vs.
Proof.
  intros Hvs. revert s left chunks. induction Hvs as [|bs vs [Hi Hs] Hvs IH]; intros s left chunks Hrd Hch Heq; [done|]. cbn [length read_objects concat] in *.
  assert (Forall is_byte (concat vs)) as HF.
  { clear -Hvs. induction Hvs as [|bs vs [Hi _] _ IH]; [constructor|]. cbn [concat]. apply Forall_app. split; [by eapply CborBuffering.items_bytes|done]. }
  destruct (read_one s left chunks bs (concat vs) Hrd Hch Heq Hi HF Hs) as (s' & left' & more & -> & Hrd' & Heq' & Hch').
  by rewrite (IH s' left' more).
Qed.

Section stream.
Context {M : Type} `{!Multiformats M, !TinyCborEncoder, !TinyCborEncoderLaws, !TinyCborParser, !TinyCborParserLaws}.

(** C12: objects over a stream.  Values of any type, without booleans and nulls, that
    one side writes one after another the other side reads one after another, as
    they were, whatever chunks of at most [kReserveBytes] the stream delivers them
    in; a boolean is written too, but the reader refuses it. *)
Theorem objects_roundtrip (t : ty) (vs : list (val (M:=M) t)) : (nesting t ≤ max_nesting)%nat →
  Forall (λ v, valid_ty t v ∧ framed (denote_ty t v) ∧ size (encode_item (denote_ty t v)) < 2 ^ 63) vs →
  (∃ ws, Forall2 (λ v w, write (put_ty t v) = returned w) vs ws ∧
    ∀ chunks, Forall chunk chunks → concat chunks = concat ws →
      read_objects (length vs) new_CborStream chunks = ws ∧ Forall2 (λ w v, read (get_ty t) (success w) = returned v) ws vs) ∧
  ∀ b, ∃ w, write (put_bool b) = returned w ∧ run_reads (readRaw new_CborStream) [w] = (Fails (framing_error CborBuffering.INVALID_HEAD_TYPE), []).
Proof.
  intros Hn Hvs. split.
  - exists ((λ v, encode_item (denote_ty t v)) <$> vs). split.
    + apply Forall2_fmap_r, Forall_Forall2_diag. eapply Forall_impl; [exact Hvs|]. intros v (Hv & _). unfold write.
      rewrite (encode_adds _ _ (denotes_ty t v Hv)). cbn [mbind attempt_bind]. by rewrite encode_items_one.
    + intros chunks Hch Heq. split.
      * rewrite <- (length_fmap (λ v, encode_item (denote_ty t v)) vs). apply (run_objects _ _ []); [|by repeat constructor|done|done].
        apply Forall_fmap. eapply Forall_impl; [exact Hvs|]. intros v (Hv & Hf & Hs). split; [|done].
        rewrite <- (app_nil_r (encode_item _)). change 1 with (0 + 1). apply (item_frames (denote_ty t v)); [apply readable_ty|..]; done || constructor.
      * apply Forall2_fmap_l, Forall_Forall2_diag. eapply Forall_impl; [exact Hvs|]. intros v (Hv & _). unfold read, compose. cbv beta.
        destruct (readable_ty t v Hv) as [Hw Hp]. rewrite (decode_reads _ _ _ (reads_ty t v Hv)); [done|]. split; [done|by eapply parsable_le].
  - intros b. exists [0xF4 + Z.b2z b]. split; [|by destruct b]. unfold write. by rewrite (encode_adds _ _ (put_bool_adds b)).
Qed.

End stream.

(** Two objects, in chunks that split and join them. *)
Lemma objects_roundtrip_witness :
  ∃ ws, Forall2 (λ v w, write (put_ty (M:=Sample.Multihash) (tVector (tUint 16)) v) = returned w) [[7; 300]; []] ws ∧
    read_objects 2 new_CborStream [[0x82]; [0x07; 0x19; 0x01]; [0x2C; 0x80]] = ws ∧
    Forall2 (λ w v, read (get_ty (M:=Sample.Multihash) (tVector (tUint 16))) (success w) = returned v) ws [[7; 300]; []].
Proof.
  destruct (objects_roundtrip (M:=Sample.Multihash) (tVector (tUint 16)) [[7; 300]; []]) as [(ws & Hw & Hread) _].
  - vm_compute. repeat constructor.
  - repeat constructor; vm_compute; done.
  - exists ws. split; [exact Hw|]. apply Hread; [repeat constructor; vm_compute; done|].
    apply Forall2_cons_inv_l in Hw as (w & ws1 & Hw & Hws & ->). apply Forall2_cons_inv_l in Hws as (w' & ws2 & Hw' & ->%Forall2_nil_inv_l & ->).
    vm_compute in Hw, Hw'. by simplify_eq.
Defined.
