(* ===== verification/CborValues.v ===== *)
(** Values of the program's own types in CBOR: big integers,
    [src/primitives/big_int.hpp], and buffers, [src/common/buffer.hpp].

    [boost::multiprecision] writes and reads the magnitude of an integer, here with
    the most significant byte first. *)
From stdpp Require Import base numbers countable list gmap strings sorting.
From S2P Require Import Prelude Bytes Cid Cbor CborDecode CborReads CborCodec.
Import MpUtils.

Open Scope Z_scope.

Section values.
Context {M : Type} `{!Multiformats M, !TinyCborEncoder, !TinyCborParser, !Multiprecision}.

(** [export_bits( big_int, _, 8 )] and [import_bits]. *)
Definition export_msv (i : Z) : bytes := reverse (export_bits (Z.abs i)).
Definition import_msv (b : bytes) : Z := import_bits (reverse b).

(** [CBOR_ENCODE( cpp_int, big_int )]. *)
Definition big_int_bytes (big_int : Z) : bytes :=
  if negb (big_int =? 0) then (if big_int <? 0 then 1 else 0) :: export_msv big_int else [].
Definition put_big_int (big_int : Z) : encoder () := put_bytes (big_int_bytes big_int).

(** [CBOR_DECODE( cpp_int, big_int )]. *)
Definition get_big_int : decoder Z :=
  bs ← get_bytes;
  match bs with
  | [] => mret 0
  | sign :: bs =>
    let big_int := import_msv bs in
    mret (if sign =? 1 then - big_int else big_int)
  end.

(** [CBOR_ENCODE( Buffer, buffer )] and [CBOR_DECODE( Buffer, buffer )]. *)
Definition put_buffer (buffer : Buffer.Buffer) : encoder () := put_bytes (Buffer.data_ buffer).
Definition get_buffer (buffer : Buffer.Buffer) : decoder Buffer.Buffer :=
  data ← get_bytes;
  mret (Buffer.cbor_decoded data buffer).

End values.

Section theorems.
Context {M : Type} `{!Multiformats M, !TinyCborEncoder, !TinyCborEncoderLaws, !TinyCborParser, !TinyCborParserLaws}.
Context `{!Multiprecision, !MultiprecisionLaws}.

Lemma reads_map {A B} (get : decoder A) (f : A → B) x a : reads get x a → reads (a ← get; mret (f a)) x (f a).
Proof. intros Hg s its r Hat Hr. destruct (Hg s its r Hat Hr) as (s' & Hs & Hd). exists s'. by rewrite (decoder_run _ _ _ _ _ Hs). Qed.

Lemma get_big_int_eq s : get_big_int s =
  (bs ← get_bytes; mret (match bs with [] => 0 | sign :: bs => if sign =? 1 then - import_msv bs else import_msv bs end)) s.
Proof. unfold get_big_int, mbind, decoder_bind. by destruct (get_bytes s) as [[[|z bs] s']|e|]. Qed.

Lemma decode_bytes_as {A} (get : decoder A) (f : bytes → A) b : size b < 2 ^ 62 → (∀ s, get s = (bs ← get_bytes; mret (f bs)) s) →
  decode get (encode_item (cBytes b)) = returned (f b).
Proof.
  intros Hb Heq. apply decode_reads.
  - intros s its r Hat Hr. rewrite Heq. by apply (reads_map get_bytes f _ _ (reads_bytes b ltac:(unfold max_size; lia))).
  - split; [constructor; lia|by apply parsable_leaf].
Qed.

(** Big integers and buffers.  Every integer is encoded as its sign and the
    bytes of its magnitude, zero as no bytes, and comes back; on decoding, any sign
    byte but [1] is a plus.  A buffer comes back behind what the target holds. *)
Theorem values_roundtrip :
  (∀ i, size (big_int_bytes i) < 2 ^ 62 → ∃ b, encode (put_big_int i) = returned (Buffer.mkBuffer b) ∧ decode get_big_int b = returned i) ∧
  (∀ sign bs, Forall is_byte bs → size bs < 2 ^ 61 →
    decode get_big_int (encode_item (cBytes (sign :: bs))) =
      returned (if sign =? 1 then - Integers.be_value bs else Integers.be_value bs)) ∧
  ∀ b old, size b < 2 ^ 62 → ∃ e, encode (put_buffer (Buffer.mkBuffer b)) = returned (Buffer.mkBuffer e) ∧
    decode (get_buffer (Buffer.mkBuffer old)) e = returned (Buffer.mkBuffer (old ++ b)).
Proof.
  assert (∀ bs, Forall is_byte bs → import_msv bs = Integers.be_value bs) as Himport.
  { intros bs Hbs. unfold import_msv. rewrite import_bits_value by (by apply Forall_reverse). by rewrite <- Integers.be_value_reverse, reverse_involutive. }
  split; [|split].
  - intros i Hs. exists (encode_item (cBytes (big_int_bytes i))). split.
    + unfold put_big_int. assert (size (big_int_bytes i) < 2 ^ 63) as Hs2 by lia. rewrite (encode_adds _ _ (put_bytes_adds _ Hs2)). by rewrite encode_items_one.
    + rewrite (decode_bytes_as _ _ _ Hs get_big_int_eq). f_equal. unfold big_int_bytes. destruct (Z.eqb_spec i 0) as [->|Hi]; [done|]. cbn [negb].
      destruct (export_bits_value (Z.abs i) ltac:(lia)) as [HF Hv]. rewrite Himport by (by apply Forall_reverse).
      unfold export_msv. rewrite Integers.be_value_reverse, Hv. destruct (Z.ltb_spec i 0); cbn; lia.
  - intros sign bs Hbs Hs. rewrite (decode_bytes_as _ _ (sign :: bs) ltac:(rewrite size_cons; lia) get_big_int_eq). by rewrite !Himport.
  - intros b old Hb. exists (encode_item (cBytes b)). split.
    + unfold put_buffer. rewrite (encode_adds _ _ (put_bytes_adds b ltac:(lia))). by rewrite encode_items_one.
    + by rewrite (decode_bytes_as (get_buffer (Buffer.mkBuffer old)) (λ data, Buffer.cbor_decoded data (Buffer.mkBuffer old)) b Hb).
Qed.

End theorems.

(** The vectors of [cbor_test.cpp]. *)
Example big_int_vectors :
  encode (put_big_int 0xCAFE) = returned (Buffer.mkBuffer [0x43; 0x00; 0xCA; 0xFE]) ∧
  encode (put_big_int (-0xCAFE)) = returned (Buffer.mkBuffer [0x43; 0x01; 0xCA; 0xFE]) ∧
  encode (put_big_int 0) = returned (Buffer.mkBuffer [0x40]) ∧
  decode get_big_int [0x43; 0x01; 0xCA; 0xFE] = returned (-0xCAFE) ∧ decode get_big_int [0x40] = returned 0.
Proof. vm_compute. done. Qed.
