(* ===== verification/CborStore.v ===== *)
(** Values in CBOR under their CIDs: [src/primitives/cid/cid_of_cbor.hpp] and the
    templates of [src/ipfs_lite/ipfs/datastore.hpp], over any datastore. *)
From stdpp Require Import base numbers countable list gmap strings sorting.
From S2P Require Import Prelude Bytes Crypto Cid Datastore Cbor CborDecode CborReads CborCodec.

Open Scope Z_scope.

Section store.
Context {M D : Type} `{!Multiformats M, !IpfsDatastore M D, !TinyCborEncoder, !TinyCborParser}.

(** The code of an error of the codec. *)
Definition encoded_value (put : encoder ()) : attempt DatastoreError bytes :=
  match encode put with
  | returned b => returned (Buffer.data_ b)
  | failed e => failed (store_codec (CborEncodeError_code e))
  | thrown => thrown
  end.

Definition cid_of (data : bytes) : attempt DatastoreError (CID M) :=
  match getCidOf data with success key => returned key | failure e => failed (store_cid e) end.

(** [getCidOfCbor]. *)
Definition getCidOfCbor (put : encoder ()) : attempt DatastoreError (CID M) :=
  bs ← encoded_value put;
  cid_of bs.

(** [setCbor] and [getCbor]. *)
Definition setCbor (put : encoder ()) (d : D) : attempt DatastoreError (CID M) * D :=
  match encoded_value put with
  | returned bs =>
    match cid_of bs with
    | returned key =>
      match ds_set key bs d with
      | (success _, d) => (returned key, d)
      | (failure e, d) => (failed e, d)
      end
    | failed e => (failed e, d)
    | thrown => (thrown, d)
    end
  | failed e => (failed e, d)
  | thrown => (thrown, d)
  end.

Definition getCbor {T} (get : decoder T) (key : CID M) (d : D) : attempt DatastoreError T :=
  bs ← ds_get key d;
  match decode get bs with
  | returned x => returned x
  | failed e => failed (store_codec (decode_code_value e))
  | thrown => thrown
  end.

End store.

Section theorems.
Context {M D : Type} `{!Multiformats M, !MultiformatsLaws M, !IpfsDatastore M D, !DatastoreLaws M D}.
Context `{!TinyCborEncoder, !TinyCborEncoderLaws, !TinyCborParser, !TinyCborParserLaws}.

(** The enumerators of the two codes convert to themselves. *)
Definition codes_known : Prop := to_Multicodec DAG_CBOR = DAG_CBOR ∧ to_HashType HashType_blake2b_256 = HashType_blake2b_256.

Lemma getCidOf_spec data : codes_known → size data < 2 ^ 64 →
  ∃ c : CID M, getCidOf data = success c ∧ wf_cid c ∧ getHash (content_address c) = Blake2.blake2b_256 data ∧
    version c = Version_V1 ∧ content_type c = DAG_CBOR ∧ getType (content_address c) = HashType_blake2b_256.
Proof.
  intros [Hc Hh] Hs. destruct (mh_create_ok HashType_blake2b_256 (Blake2.blake2b_256 data)) as [m Hm].
  { by rewrite Blake2.blake2b_256_size. }
  destruct (mh_create_spec _ _ _ Hm) as [Ht Hg]. unfold getCidOf. rewrite Hm. eexists. split; [done|].
  cbn [content_address version content_type]. split; [|done]. apply wf_v1; rewrite ?Ht; vm_compute; done || apply Hc || apply Hh.
Qed.

(** A value of the type whose encoding fits the memory. *)
Definition fits (t : ty) (v : val (M:=M) t) : Prop := valid_ty t v ∧ size (encode_item (denote_ty t v)) < 2 ^ 64.

(** C14: values in a store.  Over every store that keeps the laws of datastores, the
    in-memory one, RocksDB's and the block service among them, a value of any type
    is stored under the CID that [getCidOfCbor] gives it and read back from it, and
    no other block changes; two values have one CID exactly when their encodings
    have one BLAKE2b digest; a value that cannot be encoded leaves the store as it
    is. *)
Theorem cbor_store (t : ty) (v : val (M:=M) t) (d : D) : codes_known → fits t v → (nesting t ≤ max_nesting)%nat →
  (∃ key d', getCidOfCbor (put_ty t v) = returned key ∧ setCbor (put_ty t v) d = (returned key, d') ∧
    getCbor (get_ty t) key d' = returned v ∧ (∀ c, wf_cid c → c ≠ key → ds_get c d' = ds_get c d) ∧
    ∀ t' (v' : val (M:=M) t'), fits t' v' →
      getCidOfCbor (put_ty t' v') = returned key ↔
        Blake2.blake2b_256 (encode_item (denote_ty t' v')) = Blake2.blake2b_256 (encode_item (denote_ty t v))) ∧
  ∀ put e, encode put = failed e → setCbor (M:=M) put d = (failed (store_codec (CborEncodeError_code e)), d).
Proof.
  intros Hk [Hv Hs] Hn. assert (∀ t (v : val (M:=M) t), valid_ty t v → encoded_value (put_ty t v) = returned (encode_item (denote_ty t v))) as Henc.
  { clear t v Hv Hs Hn. intros t v Hv. unfold encoded_value. rewrite (encode_adds _ _ (denotes_ty t v Hv)). cbn [Buffer.data_]. by rewrite encode_items_one. }
  split.
  - destruct (getCidOf_spec (encode_item (denote_ty t v)) Hk Hs) as (key & Hkey & Hwf & Hh & Hver & Hct & Hty).
    destruct (ds_set key (encode_item (denote_ty t v)) d) as [r d'] eqn:Hset.
    pose proof (set_succeeds key (encode_item (denote_ty t v)) d Hwf) as Hok. rewrite Hset in Hok. cbn in Hok. subst r.
    exists key, d'. split; [unfold getCidOfCbor, cid_of; rewrite Henc by done; cbn; by rewrite Hkey|]. split; [unfold setCbor, cid_of; by rewrite Henc, Hkey, Hset by done|].
    split; [|split].
    + unfold getCbor. pose proof (get_set key (encode_item (denote_ty t v)) d Hwf) as Hget. rewrite Hset in Hget. cbn in Hget. rewrite Hget.
      cbn [mbind attempt_bind]. destruct (readable_ty t v Hv) as [Hw Hp].
      rewrite (decode_reads _ _ _ (reads_ty t v Hv)); [done|]. split; [done|by eapply parsable_le].
    + intros c Hc Hne. pose proof (get_set_ne key c (encode_item (denote_ty t v)) d Hwf Hc) as Hget. rewrite Hset in Hget. by apply Hget.
    + intros t' v' [Hv' Hs']. destruct (getCidOf_spec (encode_item (denote_ty t' v')) Hk Hs') as (key' & Hkey' & _ & Hh' & Hver' & Hct' & Hty').
      unfold getCidOfCbor, cid_of. rewrite Henc by done. cbn [mbind attempt_bind]. rewrite Hkey'. rewrite <- Hh, <- Hh'. split; [by intros [= ->]|intros He]. f_equal.
      destruct key as [ver ct m], key' as [ver' ct' m']. cbn in *. subst. f_equal. apply mh_ext; [by rewrite Hty, Hty'|done].
  - intros put e He. unfold setCbor, encoded_value. by rewrite He.
Qed.

End theorems.

(** In the in-memory store. *)
Lemma cbor_store_witness :
  ∃ key d', setCbor (put_ty (M:=Sample.Multihash) (tVector (tUint 16)) [7; 300]) (mkInMemory ∅ ∅) = (returned key, d') ∧
    getCbor (get_ty (M:=Sample.Multihash) (tVector (tUint 16))) key d' = returned [7; 300].
Proof.
  destruct (cbor_store (M:=Sample.Multihash) (D:=InMemoryDatastore Sample.Multihash) (tVector (tUint 16)) [7; 300] (mkInMemory ∅ ∅))
    as [(key & d' & _ & Hset & Hget & _) _].
  - split; vm_compute; reflexivity.
  - split; [split; [repeat constructor; vm_compute; discriminate|vm_compute; reflexivity]|vm_compute; reflexivity].
  - vm_compute. repeat constructor.
  - exists key, d'. split; [exact Hset|exact Hget].
Defined.
