(* ===== verification/Peers.v ===== *)
(** Peers and their addresses in CBOR: [src/common/libp2p/multi/cbor_multiaddress.hpp],
    [src/common/libp2p/peer] and the tuples of [src/codec/cbor/streams_annotation.hpp].

    Addresses and peer ids are libp2p's: the class [Peers] has its operations and
    [PeersLaws] what they promise. *)
From Stdlib Require Import Ascii String.
From stdpp Require Import base numbers countable list gmap strings.
From S2P Require Import Prelude Bytes Cid Cbor CborDecode CborReads CborCodec.

Open Scope Z_scope.

Class Peers (M : Type) := {
  Multiaddress : Type;
  PeerId : Type;
  (** The two overloads of [Multiaddress::create]. *)
  ma_create : string → outcome Z Multiaddress;
  ma_create_bytes : bytes → outcome Z Multiaddress;
  getBytesAddress : Multiaddress → bytes;
  getStringAddress : Multiaddress → string;
  (** The peer id an address ends with, in base 58. *)
  getPeerId : Multiaddress → option string;
  fromBase58 : string → outcome Z PeerId;
  peer_fromBytes : bytes → outcome Z PeerId;
  fromHash : M → outcome Z PeerId;
  toVector : PeerId → bytes
}.

Class PeersLaws (M : Type) `{!Peers M} := {
  ma_bytes ma : ma_create_bytes (getBytesAddress ma) = success ma;
  peer_bytes p : peer_fromBytes (toVector p) = success p
}.

Section peers.
Context {M : Type} `{!Multiformats M, !Peers M, !TinyCborEncoder, !TinyCborParser}.

(** [libp2p::peer::PeerInfo]. *)
Record PeerInfo := mkPeerInfo { id : PeerId; addresses : list Multiaddress }.

(** [peerInfoToPrettyString]. *)
Definition peerInfoToPrettyString (peer_info : PeerInfo) : string :=
  foldl (λ ss address, ss +:+ getStringAddress address +:+ " ")%string ""%string (addresses peer_info).

(** ** The values [kDefaultT] makes *)

(** [value()]. *)
Definition value_of {A} (o : outcome Z A) : decoder A := λ s,
  match o with success a => returned (a, s) | failure _ => failed bad_access end.

(** [OUTCOME_EXCEPT]. *)
Definition or_raise {A} (o : outcome Z A) : decoder A := λ s,
  match o with success a => returned (a, s) | failure e => failed (library_error e) end.

Definition default_Multiaddress : decoder Multiaddress := value_of (ma_create "/ip4/0.0.0.1/udp/1").
Definition default_PeerId : decoder PeerId := h ← value_of (mh_create HashType_sha256 []); value_of (fromHash h).
Definition default_PeerInfo : decoder PeerInfo := peer ← default_PeerId; mret (mkPeerInfo peer []).

(** [T value{ kDefaultT<T>() }; stream >> value]. *)
Definition with_default {T} (default get : decoder T) : decoder T := _ ← default; get.

(** ** Encoding and decoding *)

Definition put_multiaddress (ma : Multiaddress) : encoder () := put_bytes (getBytesAddress ma).
Definition put_peer_id (peer : PeerId) : encoder () := put_bytes (toVector peer).

(** [CBOR_TUPLE( PeerInfo, id, addresses )]. *)
Definition put_peer_info (t : PeerInfo) : encoder () :=
  l ← attempted (on list_stream (_ ← put_peer_id (id t); put_span put_multiaddress (addresses t)));
  put_stream l.

Definition get_multiaddress : decoder Multiaddress :=
  bs ← get_bytes; or_raise (ma_create_bytes bs).
Definition get_peer_id : decoder PeerId :=
  bs ← get_bytes; or_raise (peer_fromBytes bs).

(** The list stream is dropped at the end: elements behind the second are not
    looked at. *)
Definition get_peer_info : decoder PeerInfo :=
  l ← list_;
  '(t, _) ← within l (
    i ← get_peer_id;
    a ← get_vector (with_default default_Multiaddress get_multiaddress);
    mret (mkPeerInfo i a));
  mret t.

End peers.
Arguments PeerInfo M {_}.

(** ** The properties *)

Section properties.
Context {M : Type} `{!Multiformats M, !Peers M, !PeersLaws M}.
Context `{!TinyCborEncoder, !TinyCborEncoderLaws, !TinyCborParser, !TinyCborParserLaws}.

Definition ma_item (ma : Multiaddress) : item := cBytes (getBytesAddress ma).
Definition peer_item (t : PeerInfo M) : item := cArray [cBytes (toVector (id t)); cArray (ma_item <$> addresses t)].

(** What fits the memory and tinycbor's counts. *)
Definition ma_fits (ma : Multiaddress) : Prop := size (getBytesAddress ma) < 2 ^ 62.
Definition peer_fits (t : PeerInfo M) : Prop :=
  size (toVector (id t)) < 2 ^ 62 ∧ Forall ma_fits (addresses t) ∧ size (addresses t) < 2 ^ 31.

(** libp2p's defaults exist. *)
Definition defaults : Prop :=
  (∃ ma, ma_create (M:=M) "/ip4/0.0.0.1/udp/1" = success ma) ∧
  ∃ h p, mh_create HashType_sha256 [] = success h ∧ fromHash h = success p.

Lemma denotes_ma : denotes put_multiaddress ma_item ma_fits.
Proof. intros ma Hm. apply put_bytes_adds. unfold ma_fits in Hm. lia. Qed.

Lemma denotes_peer : denotes put_peer_info peer_item peer_fits.
Proof.
  intros [i a] (Hi & Ha & Hs) s. unfold put_peer_info. cbn [id addresses] in *.
  assert (on list_stream (_ ← put_peer_id i; put_span put_multiaddress a) =
    returned (stream_of true [cBytes (toVector i); cArray (ma_item <$> a)])) as Hon.
  { unfold on. erewrite bind_run by (apply put_bytes_adds; lia).
    rewrite (denotes_span _ _ _ denotes_ma a) by (split; [done|lia]). by rewrite extend_app. }
  erewrite bind_run by (unfold attempted; by rewrite Hon).
  by apply (put_stream_adds true).
Qed.

Lemma element_bytes b : size b < 2 ^ 62 → readable 0 (cBytes b).
Proof. intros Hb. split; [constructor; lia|by apply parsable_leaf]. Qed.

Lemma readable_ma ma : ma_fits ma → readable 0 (ma_item ma).
Proof. apply element_bytes. Qed.

Lemma reads_raised {A} (create : bytes → outcome Z A) b a : size b < 2 ^ 62 → create b = success a →
  reads (bs ← get_bytes; or_raise (create bs)) (cBytes b) a.
Proof.
  intros Hb Hc s its r Hat Hr. destruct (reads_bytes b ltac:(unfold max_size; lia) s its r Hat Hr) as (s' & Hs & Hd).
  exists s'. rewrite (decoder_run _ _ _ _ _ Hs). unfold or_raise. by rewrite Hc.
Qed.

Lemma reads_default {A} (default get : decoder A) x a d : (∀ s, default s = returned (d, s)) → reads get x a →
  reads (with_default default get) x a.
Proof. intros Hd. apply reads_ext. intros s its r _ _. unfold with_default. by rewrite (decoder_run _ _ _ _ _ (Hd s)). Qed.

Lemma default_ma_run : defaults → ∃ d, ∀ s, default_Multiaddress s = returned (d, s).
Proof. intros [[ma Hm] _]. exists ma. intros s. unfold default_Multiaddress, value_of. by rewrite Hm. Qed.

Lemma default_peer_run : defaults → ∃ d, ∀ s, default_PeerInfo s = returned (d, s).
Proof.
  intros [_ (h & p & Hh & Hp)]. exists (mkPeerInfo p []). intros s. unfold default_PeerInfo, default_PeerId, value_of.
  cbn [mbind decoder_bind]. unfold mbind, decoder_bind. by rewrite Hh, Hp.
Qed.

Lemma reads_addresses a : defaults → Forall ma_fits a →
  reads (get_vector (with_default default_Multiaddress get_multiaddress)) (cArray (ma_item <$> a)) a.
Proof.
  intros [d Hd]%default_ma_run Ha. apply reads_vector. induction Ha as [|ma a Hm Ha IH]; [constructor|].
  cbn. constructor; [|done]. apply (reads_default _ _ _ _ d Hd), reads_raised; [exact Hm|]. apply ma_bytes.
Qed.

(** The elements behind the two of the tuple are skipped. *)
Definition peer_items (t : PeerInfo M) (more : list item) : item :=
  cArray (cBytes (toVector (id t)) :: cArray (ma_item <$> addresses t) :: more).

Lemma reads_peer t more : defaults → peer_fits t → reads get_peer_info (peer_items t more) t.
Proof.
  intros Hdef. destruct t as [i a]. intros (Hi & Ha & Hs) s its r Hat Hr. unfold peer_items in Hat. cbn [id addresses] in *.
  destruct (list_at s _ its r Hat Hr) as (sub & s' & Hl & [_ Hin] & Hd). exists s'. split; [|done].
  unfold get_peer_info. rewrite (decoder_run _ _ _ _ _ Hl). cbn [app] in Hin. rewrite !size_cons in Hin.
  pose proof Hat as (_ & _ & _ & _ & _ & _ & Hx & _)%decoder_at_head. destruct (readable_array _ Hx) as [_ Hsz].
  rewrite !size_cons in Hsz. pose proof (size_nonneg more).
  destruct (reads_raised peer_fromBytes (toVector i) i Hi (peer_bytes i) _ _ _ Hin) as (s1 & Hs1 & Hd1 & _); [lia|].
  destruct (reads_addresses a Hdef Ha _ _ _ Hd1) as (s2 & Hs2 & _); [lia|].
  erewrite decoder_run. 2: { unfold within, get_peer_id. rewrite (decoder_run _ _ _ _ _ Hs1), (decoder_run _ _ _ _ _ Hs2). done. }
  done.
Qed.

Lemma readable_peer t : peer_fits t → readable 2 (peer_item t).
Proof.
  destruct t as [i a]. intros (Hi & Ha & Hs). cbn [id addresses] in *. unfold peer_item. cbn [id addresses].
  assert (size (ma_item <$> a) = size a) as Hsz by (unfold size; by rewrite length_fmap).
  assert (readable 1 (cArray (ma_item <$> a))) as [Hwa Hpa].
  { split; [apply wf_array|apply parsable_array].
    - change (size (ma_item <$> a) < 2 ^ 64). lia.
    - apply Forall_fmap. eapply Forall_impl; [exact Ha|]. intros ma Hm. by apply readable_ma.
    - change (size (ma_item <$> a) < 2 ^ 31). lia.
    - apply Forall_fmap. eapply Forall_impl; [exact Ha|]. intros ma Hm. by apply readable_ma. }
  destruct (element_bytes (toVector i) Hi) as [Hwi Hpi]. split.
  - apply wf_array; [done|]. constructor; [done|]. constructor; [done|constructor].
  - apply parsable_array; [done|]. constructor; [by eapply parsable_le; [exact Hpi|lia]|]. constructor; [done|constructor].
Qed.

Lemma decode_refused {A} (create : bytes → outcome Z A) bs e : size bs < 2 ^ 62 → create bs = failure e →
  decode (bs ← get_bytes; or_raise (create bs)) (encode_item (cBytes bs)) = failed (library_code e).
Proof.
  intros Hb He. destruct (stream_on (cBytes bs)) as (s & Hs & Hat).
  { destruct (element_bytes bs Hb) as [Hw Hp]. split; [done|]. by apply parsable_leaf. }
  destruct (reads_bytes bs ltac:(unfold max_size; lia) s [] _ Hat) as (s' & Hg & _); [by unfold UINT32_MAX|].
  unfold decode. rewrite Hs. cbn [mbind attempt_bind]. rewrite (decoder_run _ _ _ _ _ Hg). unfold or_raise. by rewrite He.
Qed.

(** C39: peers in CBOR.  A list of peers is encoded as arrays of an id and a list
    of addresses and decoded to itself; elements behind the second of such an
    array are skipped; bytes that libp2p does not take for an id or an address
    give libp2p's error. *)
Theorem peers_roundtrip : defaults → (3 ≤ max_nesting)%nat →
  (∀ l : list (PeerInfo M), Forall peer_fits l → size l < 2 ^ 31 → ∃ b,
    encode (put_span put_peer_info l) = returned (Buffer.mkBuffer b) ∧
    decode (get_vector (with_default default_PeerInfo get_peer_info)) b = returned l) ∧
  (∀ (t : PeerInfo M) more, peer_fits t → readable max_nesting (peer_items t more) →
    decode get_peer_info (encode_item (peer_items t more)) = returned t) ∧
  ∀ bs e, size bs < 2 ^ 62 →
    (peer_fromBytes (M:=M) bs = failure e → decode get_peer_id (encode_item (cBytes bs)) = failed (library_code e)) ∧
    (ma_create_bytes (M:=M) bs = failure e → decode get_multiaddress (encode_item (cBytes bs)) = failed (library_code e)).
Proof.
  intros Hdef Hnest. split; [|split].
  - intros l Hl Hs. exists (encode_item (cArray (peer_item <$> l))). split.
    + rewrite (encode_adds _ _ (denotes_span _ _ _ denotes_peer l ltac:(split; [done|lia]))). by rewrite encode_items_one.
    + apply decode_reads.
      * destruct (default_peer_run Hdef) as [d Hd]. apply reads_vector. clear Hs. induction Hl as [|t l Ht Hl IH]; [constructor|].
        cbn. constructor; [|done]. by apply (reads_default _ _ _ _ d Hd), (reads_peer t []).
      * assert (size (peer_item <$> l) = size l) as Hsz by (unfold size; by rewrite length_fmap).
        assert (readable 3 (cArray (peer_item <$> l))) as [Hw Hp]; [|split; [done|]; by eapply parsable_le; [exact Hp|lia]].
        split; [apply wf_array|apply parsable_array].
        -- change (size (peer_item <$> l) < 2 ^ 64). lia.
        -- apply Forall_fmap. eapply Forall_impl; [exact Hl|]. intros t Ht. by apply readable_peer.
        -- change (size (peer_item <$> l) < 2 ^ 31). lia.
        -- apply Forall_fmap. eapply Forall_impl; [exact Hl|]. intros t Ht. by apply readable_peer.
  - intros t more Ht Hr. apply decode_reads; [by apply reads_peer|done].
  - intros bs e Hb. split; by apply decode_refused.
Qed.

End properties.

(** ** Instances *)

Module SamplePeers.

(** A string and its bytes. *)
Definition chars (s : string) : bytes := (λ a, Z.of_N (Ascii.N_of_ascii a)) <$> String.list_ascii_of_string s.
Definition unchars (b : bytes) : string := String.string_of_list_ascii ((λ z, Ascii.ascii_of_N (Z.to_N z)) <$> b).

Lemma unchars_chars s : unchars (chars s) = s.
Proof.
  unfold unchars, chars. rewrite <- list_fmap_compose. rewrite <- (String.string_of_list_ascii_of_string s) at 2. f_equal.
  rewrite <- (list_fmap_id (String.list_ascii_of_string s)) at 2. apply list_fmap_ext. intros _ a _. cbn.
  by rewrite N2Z.id, Ascii.ascii_N_embedding.
Qed.

(** What follows "/p2p/". *)
Fixpoint peer_part (s : string) : option string :=
  match s with
  | EmptyString => None
  | String c s' => if String.prefix "/p2p/" s then Some (String.substring 5 (String.length s) s) else peer_part s'
  end.

Definition nonempty (s : string) : outcome Z (Ascii.ascii * string) :=
  match s with EmptyString => failure 1 | String c s => success (c, s) end.

(** An address is what follows its first slash, a peer id is not empty. *)
#[export] Instance peers : Peers Sample.Multihash := {
  Multiaddress := string;
  PeerId := Ascii.ascii * string;
  ma_create s := '(c, s) ← nonempty s; if bool_decide (c = "/"%char) then success s else failure 2;
  ma_create_bytes b := '(c, s) ← nonempty (unchars b); if bool_decide (c = "/"%char) then success s else failure 2;
  getBytesAddress s := chars (String "/" s);
  getStringAddress s := String "/" s;
  getPeerId s := peer_part (String "/" s);
  fromBase58 := nonempty;
  peer_fromBytes b := nonempty (unchars b);
  fromHash _ := success ("h"%char, ""%string);
  toVector p := chars (String p.1 p.2)
}.

#[export] Instance peers_laws : PeersLaws Sample.Multihash.
Proof.
  constructor; cbn [ma_create_bytes getBytesAddress peer_fromBytes toVector peers]; intros x; rewrite unchars_chars; [done|by destruct x].
Qed.

Definition sample_peer : PeerInfo Sample.Multihash := mkPeerInfo ("Q"%char, "m1"%string) ["ip4/1"%string; "ip4/2/p2p/Qm1"%string].

Lemma sample_defaults : defaults (M:=Sample.Multihash).
Proof. split; [by eexists|]. eexists _, _. split; vm_compute; reflexivity. Qed.

End SamplePeers.
Import SamplePeers.

Lemma peers_roundtrip_witness : ∃ b,
  encode (put_span put_peer_info [sample_peer; sample_peer]) = returned (Buffer.mkBuffer b) ∧
  decode (get_vector (with_default default_PeerInfo get_peer_info)) b = returned [sample_peer; sample_peer].
Proof.
  destruct (peers_roundtrip sample_defaults) as (Hl & _); [vm_compute; lia|].
  apply (Hl [sample_peer; sample_peer]); [|vm_compute; reflexivity].
  repeat constructor; vm_compute; reflexivity.
Defined.

Example pretty_peer : peerInfoToPrettyString sample_peer = "/ip4/1 /ip4/2/p2p/Qm1 "%string.
Proof. reflexivity. Qed.
