(* ===== verification/Dht.v ===== *)
(** The wrapper of the DHT: [IpfsDHT], [src/ipfs_lite/dht].

    libp2p's Kademlia is outside: its calls are effects, in order, and the
    environment of a call has its answers.  The [steady_timer] is its expiry and
    the handlers that wait for it.  Printing is left out. *)
From Stdlib Require Import Ascii.
From stdpp Require Import base numbers countable list gmap strings.
From S2P Require Import Prelude Cid Peers.

Open Scope Z_scope.

Section dht.
Context {M : Type} `{!Multiformats M, !Peers M, !EqDecision (PeerId (M:=M))}.
(** [kademlia::ContentId] of the bytes of a CID. *)
Context {ContentId : Type} (content_id : bytes → ContentId).
(** The iteration order of the [std::unordered_map] with these entries. *)
Context (iterate : list (PeerId * list Multiaddress) → list (PeerId * list Multiaddress)).

Inductive kad_call :=
| K_addPeer (peer : PeerInfo M) (permanent : bool)
| K_start
| K_bootstrap
| K_findProviders (key : ContentId) (limit : Z) (callback : Z)
| K_findPeer (peer : PeerId) (callback : Z)
| K_provide (key : ContentId) (need_error : bool).

Record DhtEnv := mkDhtEnv { dht_now : Z; answer : kad_call → outcome Z () }.

Record steady_timer := mkTimer { expiry : Z; waiting : list (ContentId * bool) }.
Record IpfsDHT := mkDHT { bootstrapAddresses_ : list string; dht_timer_ : steady_timer }.

Definition set_dht_timer t (d : IpfsDHT) := mkDHT (bootstrapAddresses_ d) t.

Definition new_IpfsDHT (bootstrapAddresses : list string) : IpfsDHT := mkDHT bootstrapAddresses (mkTimer 0 []).

(** [value()] of a result or an optional throws when there is none. *)
Definition value {A} (o : outcome Z A) : attempt Z A := match o with success a => returned a | failure _ => thrown end.
Definition opt_value {A} (o : option A) : attempt Z A := match o with Some a => returned a | None => thrown end.

(** ** The bootstrap nodes *)

(** [addresses_by_peer_id[peer_id].emplace_back( ma )]. *)
Fixpoint emplace (peer_id : PeerId) (ma : Multiaddress) (m : list (PeerId * list Multiaddress)) :
    list (PeerId * list Multiaddress) :=
  match m with
  | [] => [(peer_id, [ma])]
  | (p, mas) :: m => if decide (p = peer_id) then (p, mas ++ [ma]) :: m else (p, mas) :: emplace peer_id ma m
  end.

(** The body of the loop up to the map: the address and its peer. *)
Definition address_of (address : string) : attempt Z (PeerId * Multiaddress) :=
  ma ← value (ma_create address);
  peer_id_base58 ← opt_value (getPeerId ma);
  peer_id ← value (fromBase58 peer_id_base58);
  returned (peer_id, ma).

Fixpoint by_peer_id (addresses : list string) (m : list (PeerId * list Multiaddress)) :
    attempt Z (list (PeerId * list Multiaddress)) :=
  match addresses with
  | [] => returned m
  | address :: addresses =>
      '(peer_id, ma) ← address_of address;
      by_peer_id addresses (emplace peer_id ma m)
  end.

Definition GetBootstrapNodes (d : IpfsDHT) : attempt Z (list (PeerInfo M)) :=
  m ← by_peer_id (bootstrapAddresses_ d) [];
  returned ((λ '(p, mas), mkPeerInfo p mas) <$> iterate m).

(** ** The operations *)

Definition dht (A : Type) : Type := DhtEnv → IpfsDHT → attempt Z A * IpfsDHT * list kad_call.

#[export] Instance dht_ret : MRet dht := λ A a e d, (returned a, d, []).
#[export] Instance dht_bind : MBind dht := λ A B f c e d,
  match c e d with
  | (returned a, d, ev) => let '(b, d, ev') := f a e d in (b, d, ev ++ ev')
  | (failed x, d, ev) => (failed x, d, ev)
  | (thrown, d, ev) => (thrown, d, ev)
  end.

Definition kademlia (c : kad_call) : dht () := λ e d, (attempt_of (answer e c), d, [c]).
Definition notify (c : kad_call) : dht () := λ e d, (returned tt, d, [c]).
Definition dht_lift {A} (a : IpfsDHT → attempt Z A) : dht A := λ e d, (a d, d, []).

Fixpoint add_peers (nodes : list (PeerInfo M)) : dht () :=
  match nodes with
  | [] => mret tt
  | bootstrap_node :: nodes => _ ← notify (K_addPeer bootstrap_node true); add_peers nodes
  end.

Definition Start : dht () :=
  bootstrapNodes ← dht_lift GetBootstrapNodes;
  _ ← add_peers bootstrapNodes;
  _ ← notify K_start;
  kademlia K_bootstrap.

Definition Bootstrap : dht () := kademlia K_bootstrap.

(** The two overloads; [value()] of a CID without bytes throws. *)
Definition FindProviders (key : ContentId) (onProvidersFound : Z) : dht () :=
  kademlia (K_findProviders key 0 onProvidersFound).
Definition FindProviders_cid (cid : CID M) (onProvidersFound : Z) : dht () :=
  encoded ← dht_lift (λ _, value (codec_encode (version cid) (content_type cid) (content_address cid)));
  FindProviders (content_id encoded) onProvidersFound.

Definition FindPeer (peerId : PeerId) (onPeerFound : Z) : dht () := kademlia (K_findPeer peerId onPeerFound).

(** [std::chrono::hours( 1 )] in milliseconds. *)
Definition hour : Z := 60 * 60 * 1000.

(** [expires_after( hours( 1 ) )], whatever the message printed before it says,
    cancels the handlers that wait, which then do nothing; [async_wait] adds one. *)
Definition ScheduleProvideCID (key : ContentId) (need_err : bool) : dht () := λ e d,
  (returned tt, set_dht_timer (mkTimer (dht_now e + hour) [(key, need_err)]) d, []).

Definition ProvideCID (key : ContentId) (need_error force : bool) : dht () :=
  _ ← kademlia (K_provide key need_error);
  if force then mret tt else ScheduleProvideCID key need_error.

(** The timer: a handler of an expired timer runs, and drops the result. *)
Definition on_timer : dht () := λ e d,
  match waiting (dht_timer_ d) with
  | (key, need_err) :: rest =>
      if dht_now e <? expiry (dht_timer_ d) then (returned tt, d, [])
      else
        let '(_, d, ev) := ProvideCID key need_err false e (set_dht_timer (mkTimer (expiry (dht_timer_ d)) rest) d) in
        (returned tt, d, ev)
  | [] => (returned tt, d, [])
  end.

(** ** Runs *)

Inductive dht_op :=
| D_start
| D_bootstrap
| D_findProviders (key : ContentId) (callback : Z)
| D_findProviders_cid (cid : CID M) (callback : Z)
| D_findPeer (peer : PeerId) (callback : Z)
| D_provide (key : ContentId) (need_error force : bool)
| D_timer.

Definition dht_handle (o : dht_op) : dht () :=
  match o with
  | D_start => Start
  | D_bootstrap => Bootstrap
  | D_findProviders key cb => FindProviders key cb
  | D_findProviders_cid cid cb => FindProviders_cid cid cb
  | D_findPeer peer cb => FindPeer peer cb
  | D_provide key need_error force => ProvideCID key need_error force
  | D_timer => on_timer
  end.

(** The state after a run, and when the timer provided what in it. *)
Fixpoint dht_run (l : list (DhtEnv * dht_op)) (d : IpfsDHT) : IpfsDHT * list (Z * kad_call) :=
  match l with
  | [] => (d, [])
  | (e, o) :: l =>
      let '(_, d, ev) := dht_handle o e d in
      let '(d, ev') := dht_run l d in
      (d, (match o with D_timer => pair (dht_now e) <$> ev | _ => [] end) ++ ev')
  end.

End dht.

(** ** The properties *)

Section properties.
Context {M : Type} `{!Multiformats M, !Peers M, !EqDecision (PeerId (M:=M))}.
Context {ContentId : Type} (content_id : bytes → ContentId).
Context (iterate : list (PeerId * list (Multiaddress (M:=M))) → list (PeerId * list Multiaddress)).

(** *** Grouping *)

Notation grouped := (list (PeerId (M:=M) * list (Multiaddress (M:=M)))).

(** What the map holds after the entries [l]. *)
Definition holds_groups (m : grouped) (l : list (PeerId * Multiaddress)) : Prop :=
  NoDup m.*1 ∧ (∀ p, p ∈ m.*1 ↔ p ∈ l.*1) ∧
  Forall (λ g : PeerId * list Multiaddress, g.2 = (filter (λ q : PeerId * Multiaddress, q.1 = g.1) l).*2) m.

Lemma emplace_keys p ma (m : grouped) : (emplace p ma m).*1 = if decide (p ∈ m.*1) then m.*1 else m.*1 ++ [p].
Proof.
  induction m as [|[q mas] m IH]; cbn [emplace fmap list_fmap fst].
  - rewrite decide_False by apply not_elem_of_nil. done.
  - destruct (decide (q = p)) as [->|Hne].
    + rewrite decide_True; [done|left].
    + cbn [fmap list_fmap fst]. change (list_fmap _ _ fst (emplace p ma m)) with ((emplace p ma m).*1). rewrite IH.
      destruct (decide (p ∈ m.*1)) as [Hin|Hin].
      * rewrite decide_True; [done|by right].
      * rewrite decide_False; [done|]. intros [->|?]%elem_of_cons; done.
Qed.

Lemma emplace_group p ma (m : grouped) l : NoDup m.*1 → (p ∉ m.*1 → p ∉ l.*1) →
  Forall (λ g : PeerId * list Multiaddress, g.2 = (filter (λ q : PeerId * Multiaddress, q.1 = g.1) l).*2) m →
  Forall (λ g : PeerId * list Multiaddress, g.2 = (filter (λ q : PeerId * Multiaddress, q.1 = g.1) (l ++ [(p, ma)])).*2) (emplace p ma m).
Proof.
  assert (∀ g : PeerId * list Multiaddress, g.1 ≠ p →
    filter (λ q : PeerId * Multiaddress, q.1 = g.1) (l ++ [(p, ma)]) = filter (λ q : PeerId * Multiaddress, q.1 = g.1) l) as Hother.
  { intros g Hg. rewrite filter_app, filter_cons_False by (cbn; congruence). by rewrite app_nil_r. }
  assert (filter (λ q : PeerId * Multiaddress, q.1 = p) (l ++ [(p, ma)]) = filter (λ q : PeerId * Multiaddress, q.1 = p) l ++ [(p, ma)]) as Hsame.
  { rewrite filter_app, filter_cons_True by (cbn; done). done. }
  intros HN Hp HF. induction HF as [|[q mas] m Hq HF IH]; cbn [emplace fst snd] in *.
  - constructor; [|constructor]. cbn [fst snd]. rewrite Hsame, fmap_app. cbn.
    assert (filter (λ q : PeerId * Multiaddress, q.1 = p) l = []) as ->; [|done]. apply elem_of_nil_inv. intros q [Hqp Hin]%list_elem_of_filter.
    apply Hp; [apply not_elem_of_nil|]. apply list_elem_of_fmap. by exists q.
  - apply NoDup_cons in HN as [Hnin HN]. destruct (decide (q = p)) as [->|Hne].
    + constructor; [cbn [fst snd]; by rewrite Hsame, fmap_app, Hq|].
      apply Forall_forall. intros g Hg. rewrite Hother; [exact (proj1 (Forall_forall _ _) HF g Hg)|].
      intros <-. apply Hnin, list_elem_of_fmap. by exists g.
    + constructor; [rewrite Hother; [exact Hq|exact Hne]|]. apply IH; [done|]. intros Hni. apply Hp. by intros [->|?]%elem_of_cons.
Qed.

Lemma emplace_holds p ma (m : grouped) l : holds_groups m l → holds_groups (emplace p ma m) (l ++ [(p, ma)]).
Proof.
  intros (HN & Hk & HF). split; [|split].
  - rewrite emplace_keys. destruct (decide _) as [|Hni]; [done|]. apply NoDup_app. split; [done|]. split; [|apply NoDup_singleton].
    intros q Hq ->%list_elem_of_singleton. done.
  - intros q. rewrite emplace_keys, fmap_app. cbn. rewrite elem_of_app, list_elem_of_singleton, <- Hk.
    destruct (decide _) as [Hin|_]; [|by rewrite elem_of_app, list_elem_of_singleton]. naive_solver.
  - apply emplace_group; [done|by rewrite Hk|done].
Qed.

Lemma by_peer_id_spec addresses : ∀ (m : grouped) l, holds_groups m l →
  match mapM address_of addresses with
  | returned pairs => ∃ m', by_peer_id addresses m = returned m' ∧ holds_groups m' (l ++ pairs)
  | _ => by_peer_id addresses m = thrown
  end.
Proof.
  assert (∀ a e, address_of a ≠ failed e) as Hnf.
  { intros a e. unfold address_of, value, opt_value. by repeat (case_match; cbn [mbind attempt_bind]). }
  induction addresses as [|a addresses IH]; intros m l Hm; cbn [mapM by_peer_id].
  - exists m. by rewrite app_nil_r.
  - specialize (Hnf a). destruct (address_of a) as [[p ma]|e|]; cbn [mbind attempt_bind]; [|by destruct (Hnf e)|done].
    specialize (IH _ _ (emplace_holds p ma m l Hm)).
    destruct (mapM address_of addresses) as [pairs|e|]; cbn [mbind attempt_bind] in *; [|done..].
    destruct IH as (m' & Hb & Hg). exists m'. split; [done|]. by rewrite <- app_assoc in Hg.
Qed.

(** The bootstrap nodes.  The addresses are grouped by the peer id they end
    with: one node for each id, with exactly its addresses in their order.  One
    address that libp2p does not take, or without a peer id, makes [GetBootstrapNodes]
    throw, and then [Start] neither adds a peer nor starts the DHT. *)
Theorem bootstrap_nodes (d : IpfsDHT (ContentId:=ContentId)) (e : DhtEnv (ContentId:=ContentId)) :
  (∀ l, iterate l ≡ₚ l) →
  match mapM address_of (bootstrapAddresses_ d) with
  | returned pairs => ∃ nodes,
      GetBootstrapNodes iterate d = returned nodes ∧
      NoDup (id <$> nodes) ∧ (∀ p, p ∈ id <$> nodes ↔ p ∈ pairs.*1) ∧
      Forall (λ n, addresses n = (filter (λ q : PeerId * Multiaddress, q.1 = id n) pairs).*2) nodes ∧
      Start iterate e d = (attempt_of (answer e K_bootstrap), d,
        ((λ n, K_addPeer n true) <$> nodes) ++ [K_start; K_bootstrap])
  | _ => GetBootstrapNodes iterate d = thrown ∧ Start iterate e d = (thrown, d, [])
  end.
Proof.
  intros Hit. assert (holds_groups [] []) as H0.
  { split; [constructor|]. split; [done|constructor]. }
  pose proof (by_peer_id_spec (bootstrapAddresses_ d) [] [] H0) as Hby.
  assert (∀ nodes, add_peers nodes e d = (returned tt, d, (λ n, K_addPeer n true) <$> nodes)) as Hadd.
  { intros nodes. induction nodes as [|n nodes IH]; [done|]. cbn [add_peers]. unfold mbind, dht_bind, notify. by rewrite IH. }
  unfold GetBootstrapNodes, Start, dht_lift, mbind, dht_bind. destruct (mapM address_of (bootstrapAddresses_ d)) as [pairs| |].
  2, 3: unfold GetBootstrapNodes; by rewrite Hby.
  destruct Hby as (m & Hm & HN & Hk & HF). rewrite app_nil_l in *. rewrite Hm. cbn [mbind attempt_bind].
  set (nodes := _ <$> iterate m). exists nodes.
  assert (id <$> nodes = (iterate m).*1) as Hids.
  { subst nodes. rewrite <- list_fmap_compose. apply list_fmap_ext. intros ? [p mas] _. done. }
  split; [done|]. split; [|split; [|split]].
  - by rewrite Hids, Hit.
  - intros p. rewrite Hids, Hit. apply Hk.
  - subst nodes. apply Forall_fmap, Forall_forall. intros [p mas]. rewrite Hit. intros Hin. exact (proj1 (Forall_forall _ _) HF (p, mas) Hin).
  - unfold GetBootstrapNodes. rewrite Hm. cbn [mbind attempt_bind]. rewrite Hadd. unfold notify, kademlia. rewrite app_nil_l. by destruct (answer e K_bootstrap).
Qed.

(** *** The timer *)

(** The run is not asked to keep another key. *)
Definition keeps_none (o : dht_op (M:=M) (ContentId:=ContentId)) : Prop :=
  match o with D_provide _ _ force => force = true | _ => True end.

(** Every call but those of the timer leaves the timer alone. *)
Lemma quiet_step content_id' o e d : keeps_none o → o ≠ D_timer → (dht_handle content_id' iterate o e d).1.2 = d.
Proof.
  intros Ho Ht. destruct o as [| |k cb|c cb|p cb|k n f|]; cbn [dht_handle]; try done.
  - unfold Start, mbind, dht_bind, dht_lift. destruct (GetBootstrapNodes iterate d) as [nodes| |]; [|done..].
    assert (∀ nodes, (add_peers (ContentId:=ContentId) nodes e d).1.2 = d ∧ (add_peers nodes e d).1.1 = returned tt) as Hadd.
    { clear nodes. intros nodes. induction nodes as [|n nodes' IH]; [done|]. cbn [add_peers]. unfold mbind, dht_bind, notify.
      destruct (add_peers nodes' e d) as [[a d'] ev]. cbn in *. by destruct IH as [-> ->]. }
    specialize (Hadd nodes). destruct (add_peers nodes e d) as [[a d'] ev]. cbn in Hadd. destruct Hadd as [-> ->].
    unfold notify, kademlia. done.
  - unfold FindProviders_cid, mbind, dht_bind, dht_lift. by destruct (value _).
  - cbn in Ho. subst f. unfold ProvideCID, mbind, dht_bind, kademlia. by destruct (answer e _).
Qed.

Lemma run_step content_id' o e ops d : keeps_none o → o ≠ D_timer →
  (dht_run content_id' iterate ((e, o) :: ops) d).2 = (dht_run content_id' iterate ops d).2.
Proof.
  intros Ho Ht. cbn [dht_run]. pose proof (quiet_step content_id' o e d Ho Ht) as Hd.
  destruct (dht_handle _ _ o e d) as [[r d'] ev]. cbn in Hd. subst d'. destruct (dht_run _ _ ops d) as [d2 ev2]. by destruct o.
Qed.

(** When call [c] is made again in a run, by the times of the wake-ups of the timer:
    at the first one 3,600,000 ms after time [t] or later, from there on again
    while Kademlia takes it, and never after a refusal. *)
Fixpoint provided_at (c : kad_call) (t : Z) (ops : list (DhtEnv (M:=M) (ContentId:=ContentId) * dht_op (M:=M) (ContentId:=ContentId))) : list Z :=
  match ops with
  | [] => []
  | (e, D_timer) :: ops =>
      if dht_now e <? t + 3600000 then provided_at c t ops
      else dht_now e :: (if is_success (answer e c) then provided_at c (dht_now e) ops else [])
  | _ :: ops => provided_at c t ops
  end.

Lemma provided_other c t e o ops : o ≠ D_timer → provided_at c t ((e, o) :: ops) = provided_at c t ops.
Proof. by destruct o. Qed.

Lemma dht_op_timer (o : dht_op (M:=M) (ContentId:=ContentId)) : o = D_timer ∨ o ≠ D_timer.
Proof. destruct o; (by left) || by right. Qed.

Lemma idle_run ops d : Forall (λ x, keeps_none x.2) ops → waiting (dht_timer_ d) = [] → (dht_run content_id iterate ops d).2 = [].
Proof.
  intros Hops Hd. induction Hops as [|[e o] ops Ho Hops IH]; [done|]. destruct (dht_op_timer o) as [->|Ht].
  - cbn [dht_run dht_handle]. unfold on_timer. rewrite Hd. destruct (dht_run _ _ ops d) as [d2 ev2]. by cbn in *.
  - by rewrite run_step.
Qed.

Lemma timed_run key need_error ops : Forall (λ x, keeps_none x.2) ops → ∀ t d, dht_timer_ d = mkTimer (t + hour) [(key, need_error)] →
  (dht_run content_id iterate ops d).2 = (λ t, (t, K_provide key need_error)) <$> provided_at (K_provide key need_error) t ops.
Proof.
  intros Hops. induction Hops as [|[e o] ops Ho Hops IH]; intros t d Hd; [done|]. destruct (dht_op_timer o) as [->|Ht].
  2: { rewrite run_step, provided_other by done. by apply IH. }
  cbn [dht_run dht_handle provided_at]. unfold on_timer. rewrite Hd. cbn [waiting expiry]. change hour with 3600000.
  destruct (dht_now e <? t + 3600000).
  - specialize (IH t d Hd). destruct (dht_run _ _ ops d) as [d2 ev2]. by cbn in *.
  - unfold ProvideCID, mbind, dht_bind, kademlia. destruct (answer e _) as [[]|err]; cbn [attempt_of is_success].
    + unfold ScheduleProvideCID. cbn [app]. set (d' := set_dht_timer (mkTimer (dht_now e + hour) _) _).
      specialize (IH (dht_now e) d' eq_refl). destruct (dht_run _ _ ops d') as [d2 ev2]. cbn in *. by rewrite IH.
    + cbn [app]. set (d' := set_dht_timer _ d). pose proof (idle_run ops d' Hops eq_refl) as Hi.
      destruct (dht_run _ _ ops d') as [d2 ev2]. cbn in *. by rewrite Hi.
Qed.

(** C36: what is provided again, and when.  After a call of [ProvideCID] that is not
    forced and succeeds, whatever had been provided before and whatever else the DHT
    is asked meanwhile, short of keeping another key: the timer provides this key
    and no other (the one timer forgets every earlier key), at its first wake-up
    that is 3,600,000 ms, one hour, after the last time or later, and at none
    before, as long as Kademlia takes it, and after the first refusal never again.
    (The comment and the message of [ScheduleProvideCID] say 8 hours; the timer is
    set to 1.)  A call that is forced, or fails, leaves the timer alone. *)
Theorem provided_again key need_error e d :
  (is_success (answer e (K_provide key need_error)) = true →
   ∃ d', ProvideCID key need_error false e d = (returned tt, d', [K_provide key need_error]) ∧
     ∀ ops, Forall (λ x, keeps_none x.2) ops →
       (dht_run content_id iterate ops d').2 =
         (λ t, (t, K_provide key need_error)) <$> provided_at (K_provide key need_error) (dht_now e) ops) ∧
  (∀ force, force = true ∨ is_success (answer e (K_provide key need_error)) = false →
     (ProvideCID key need_error force e d).1.2 = d).
Proof.
  split.
  - intros Ha. unfold ProvideCID, mbind, dht_bind, kademlia. destruct (answer e _) as [[]|]; [|done]. cbn.
    eexists. split; [done|]. intros ops Hops. by apply timed_run.
  - intros force Hf. unfold ProvideCID, mbind, dht_bind, kademlia.
    destruct (answer e _) as [[]|]; [|done]. destruct Hf as [->|]; done.
Qed.

End properties.

(** *** Witnesses *)

Import SamplePeers.

Module SampleDht.
#[export] Instance peer_eq_dec : EqDecision (PeerId (M:=Sample.Multihash)).
Proof. unfold PeerId. cbn. solve_decision. Defined.

Definition dht : IpfsDHT (ContentId:=bytes) := new_IpfsDHT ["/a/p2p/Q1"; "/b/p2p/Q2"; "/c/p2p/Q1"]%string.
Definition dht_nodes : list (PeerInfo Sample.Multihash) :=
  [mkPeerInfo ("Q"%char, "1"%string) ["a/p2p/Q1"; "c/p2p/Q1"]%string; mkPeerInfo ("Q"%char, "2"%string) ["b/p2p/Q2"]%string].
Definition malformed : IpfsDHT (ContentId:=bytes) := new_IpfsDHT ["/a/p2p/Q1"; "/b"]%string.
Definition env_at (t : Z) (up : bool) : DhtEnv (M:=Sample.Multihash) (ContentId:=bytes) :=
  mkDhtEnv t (λ _, if up then success tt else failure 5).
End SampleDht.
Import SampleDht.

Lemma bootstrap_nodes_witness : ∃ nodes : list (PeerInfo Sample.Multihash),
  GetBootstrapNodes (λ l, l) dht = returned nodes ∧ addresses <$> nodes = [["a/p2p/Q1"; "c/p2p/Q1"]; ["b/p2p/Q2"]]%string ∧
  GetBootstrapNodes (λ l, l) malformed = thrown.
Proof.
  pose proof (bootstrap_nodes (λ l, l) dht (env_at 0 true) ltac:(done)) as H1.
  pose proof (bootstrap_nodes (λ l, l) malformed (env_at 0 true) ltac:(done)) as H2.
  destruct H1 as (nodes & Hn & _). destruct H2 as [H2 _]. exists nodes. split; [exact Hn|]. split; [|exact H2].
  assert (GetBootstrapNodes (λ l, l) dht = returned dht_nodes) as He by reflexivity. rewrite He in Hn. injection Hn as <-. reflexivity.
Defined.

(** Keys [1] and [2] are provided, the latter at time 10; wake-ups come too early, an
    hour later, too early again, and another hour later, when [2] is refused. *)
Lemma provided_again_witness : ∃ d1 d2,
  ProvideCID [1] true false (env_at 0 true) dht = (returned tt, d1, [K_provide [1] true]) ∧
  ProvideCID [2] true false (env_at 10 true) d1 = (returned tt, d2, [K_provide [2] true]) ∧
  (dht_run (λ b, b) (λ l, l)
    [(env_at 3600009 true, D_timer); (env_at 3600010 true, D_timer); (env_at 3600011 true, D_bootstrap);
     (env_at 7200009 true, D_timer); (env_at 7200010 false, D_timer); (env_at 90000000 true, D_timer)] d2).2 =
    [(3600010, K_provide [2] true); (7200010, K_provide [2] true)].
Proof.
  destruct (provided_again (λ b, b) (λ l, l) [1] true (env_at 0 true) dht) as [H1 _]. destruct (H1 eq_refl) as (d1 & Hd1 & _).
  destruct (provided_again (λ b, b) (λ l, l) [2] true (env_at 10 true) d1) as [H2 _]. destruct (H2 eq_refl) as (d2 & Hd2 & Hr).
  exists d1, d2. split; [exact Hd1|]. split; [exact Hd2|]. rewrite Hr; [reflexivity|]. repeat constructor.
Defined.
