(* ===== verification/Status.v ===== *)
(** Status codes, error codes and constants shared by the graphsync components:
    [graphsync.hpp], [impl/common.hpp], [impl/common.cpp] and
    [impl/network/network_fwd.hpp] under [src/ipfs_lite/ipfs/graphsync]. *)
From stdpp Require Import base numbers list gmap strings.
From S2P Require Import Prelude Cid.

Open Scope Z_scope.

(** *** [enum ResponseStatusCode: int8_t] *)

Inductive ResponseStatusCode :=
| RS_NO_PEERS | RS_CANNOT_CONNECT | RS_TIMEOUT | RS_CONNECTION_ERROR | RS_INTERNAL_ERROR
| RS_REJECTED_LOCALLY | RS_SLOW_STREAM | RS_AWAITING_STATUS
| RS_REQUEST_ACKNOWLEDGED | RS_ADDITIONAL_PEERS | RS_NOT_ENOUGH_GAS | RS_OTHER_PROTOCOL
| RS_PARTIAL_RESPONSE
| RS_FULL_CONTENT | RS_PARTIAL_CONTENT
| RS_REJECTED | RS_TRY_AGAIN | RS_REQUEST_FAILED | RS_LEGAL_ISSUES | RS_NOT_FOUND.

#[export] Instance ResponseStatusCode_eq_dec : EqDecision ResponseStatusCode.
Proof. solve_decision. Defined.

Definition code (s : ResponseStatusCode) : Z :=
  match s with
  | RS_NO_PEERS => -1
  | RS_CANNOT_CONNECT => -2
  | RS_TIMEOUT => -3
  | RS_CONNECTION_ERROR => -4
  | RS_INTERNAL_ERROR => -5
  | RS_REJECTED_LOCALLY => -6
  | RS_SLOW_STREAM => -7
  | RS_AWAITING_STATUS => -8
  | RS_REQUEST_ACKNOWLEDGED => 10
  | RS_ADDITIONAL_PEERS => 11
  | RS_NOT_ENOUGH_GAS => 12
  | RS_OTHER_PROTOCOL => 13
  | RS_PARTIAL_RESPONSE => 14
  | RS_FULL_CONTENT => 20
  | RS_PARTIAL_CONTENT => 21
  | RS_REJECTED => 30
  | RS_TRY_AGAIN => 31
  | RS_REQUEST_FAILED => 32
  | RS_LEGAL_ISSUES => 33
  | RS_NOT_FOUND => 34
  end.

Definition isTerminal (s : ResponseStatusCode) : bool := (code s <? 10) || (code s >=? 20).
Definition isSuccess (s : ResponseStatusCode) : bool := (code s >=? 20) && (code s <=? 21).
Definition isError (s : ResponseStatusCode) : bool := (code s <? 10) || (code s >=? 30).

Definition statusCodeToString (s : ResponseStatusCode) : string :=
  match s with
  | RS_NO_PEERS => "NO_PEERS"
  | RS_CANNOT_CONNECT => "CANNOT_CONNECT"
  | RS_TIMEOUT => "TIMEOUT"
  | RS_CONNECTION_ERROR => "CONNECTION_ERROR"
  | RS_INTERNAL_ERROR => "INTERNAL_ERROR"
  | RS_REJECTED_LOCALLY => "REJECTED_LOCALLY"
  | RS_REQUEST_ACKNOWLEDGED => "REQUEST_ACKNOWLEDGED"
  | RS_ADDITIONAL_PEERS => "ADDITIONAL_PEERS"
  | RS_NOT_ENOUGH_GAS => "NOT_ENOUGH_GAS"
  | RS_OTHER_PROTOCOL => "OTHER_PROTOCOL"
  | RS_PARTIAL_RESPONSE => "PARTIAL_RESPONSE"
  | RS_FULL_CONTENT => "FULL_CONTENT"
  | RS_PARTIAL_CONTENT => "PARTIAL_CONTENT"
  | RS_REJECTED => "REJECTED"
  | RS_TRY_AGAIN => "TRY_AGAIN"
  | RS_REQUEST_FAILED => "REQUEST_FAILED"
  | RS_LEGAL_ISSUES => "LEGAL_ISSUES"
  | RS_NOT_FOUND => "NOT_FOUND"
  | _ => "UNKNOWN"
  end%string.

(** *** [enum class Error: uint8_t], [impl/common.hpp] *)

Inductive Error :=
| MESSAGE_SIZE_OUT_OF_BOUNDS
| MESSAGE_PARSE_ERROR
| MESSAGE_VALIDATION_FAILED
| MESSAGE_SERIALIZE_ERROR
| STREAM_NOT_READABLE
| MESSAGE_READ_ERROR
| STREAM_NOT_WRITABLE
| WRITE_QUEUE_OVERFLOW
| MESSAGE_WRITE_ERROR.

#[export] Instance Error_eq_dec : EqDecision Error.
Proof. solve_decision. Defined.

(** A [std::error_code]: one of the graphsync category or of a library's. *)
Inductive error_code :=
| graphsync_error (e : Error)
| cid_error (e : Cid.CidError)
| library_error (value : Z).

#[export] Instance error_code_eq_dec : EqDecision error_code.
Proof. solve_decision. Defined.

(** The message of the graphsync category; other categories have their own. *)
Definition error_message (e : error_code) : string :=
  match e with
  | graphsync_error MESSAGE_PARSE_ERROR => "message parse error"
  | graphsync_error MESSAGE_SIZE_OUT_OF_BOUNDS => "message size out of bounds"
  | graphsync_error MESSAGE_VALIDATION_FAILED => "message validation failed"
  | graphsync_error MESSAGE_SERIALIZE_ERROR => "message serialize error"
  | graphsync_error STREAM_NOT_READABLE => "stream is not readable"
  | graphsync_error MESSAGE_READ_ERROR => "message read error"
  | graphsync_error STREAM_NOT_WRITABLE => "stream is not writable"
  | graphsync_error WRITE_QUEUE_OVERFLOW => "write queue overflow"
  | graphsync_error MESSAGE_WRITE_ERROR => "message write error"
  | _ => "unknown error"
  end%string.

(** *** Types and constants of [impl/common.hpp] and [network_fwd.hpp] *)

(** [RequestId] is an [int32_t]: an integer of [[-2^31, 2^31)]. *)
Abbreviation RequestId := Z.
(** [shared_ptr<const ByteArray>]; [None] is the null pointer. *)
Abbreviation SharedData := (option bytes).
(** [StreamPtr]: the address of a libp2p stream, which orders
    [std::map<StreamPtr, _>]. *)
Abbreviation StreamPtr := Z.

Definition kMaxMessageSize : Z := 16 * 1024 * 1024.
Definition kMaxPendingBytes : Z := 64 * 1024 * 1024.
Definition kPeerCloseDelayMsec : Z := 60000.
Definition kStreamCloseDelayMsec : Z := 60000.
Definition kWindowExhaustionTimeoutMultiplier : Z := 3.

(** ** Classification of the codes *)

Definition all_codes : list ResponseStatusCode :=
  [RS_NO_PEERS; RS_CANNOT_CONNECT; RS_TIMEOUT; RS_CONNECTION_ERROR; RS_INTERNAL_ERROR;
   RS_REJECTED_LOCALLY; RS_SLOW_STREAM; RS_AWAITING_STATUS; RS_REQUEST_ACKNOWLEDGED;
   RS_ADDITIONAL_PEERS; RS_NOT_ENOUGH_GAS; RS_OTHER_PROTOCOL; RS_PARTIAL_RESPONSE;
   RS_FULL_CONTENT; RS_PARTIAL_CONTENT; RS_REJECTED; RS_TRY_AGAIN; RS_REQUEST_FAILED;
   RS_LEGAL_ISSUES; RS_NOT_FOUND].

Lemma all_codes_complete s : s ∈ all_codes.
Proof. destruct s; unfold all_codes; set_solver. Qed.

(** The three predicates partition the codes as the comments of the enum
    say: a code ends the session exactly when it is a success or an error, never
    both, distinct codes have distinct wire values, and the string of a code
    determines it but for [RS_SLOW_STREAM] and [RS_AWAITING_STATUS], which share
    the string of unknown codes. *)
Theorem status_partition s :
  isTerminal s = isSuccess s || isError s ∧ isSuccess s && isError s = false ∧
  (∀ t, code s = code t → s = t) ∧
  (∀ t, statusCodeToString s = statusCodeToString t →
    s = t ∨ (statusCodeToString s = "UNKNOWN"%string ∧ s ∈ [RS_SLOW_STREAM; RS_AWAITING_STATUS])).
Proof.
  split_and!; [by destruct s|by destruct s|..]; intros t.
  - destruct s; destruct t; cbn; lia || done.
  - destruct s, t; cbn; (by left) || (intros; discriminate) || (right; set_solver).
Qed.
