(* ===== verification/MessageQueue.v ===== *)
(** Outgoing messages: [MessageQueue] and [OutboundEndpoint] of
    [src/ipfs_lite/ipfs/graphsync/impl/network].

    An operation returns the new state and what it did outside of the object, in
    order: the writes it started on the stream and the calls of the owner's
    callback.  [closedW s] is [isClosedForWrite()] of the libp2p stream [s]. *)
From stdpp Require Import base numbers list gmap.
From S2P Require Import Prelude Status.

Open Scope Z_scope.

Inductive queue_event :=
| Write (stream : StreamPtr) (buffer : bytes)
| Feedback (stream : option StreamPtr) (res : outcome error_code unit).

Record State := mkState {
  stream : option StreamPtr;
  writing_bytes : Z;
  pending_bytes : Z;
  total_bytes_written : Z;
  active : bool
}.

(** [pending_buffers_] holds no null pointer: [enqueue] refuses them. *)
Record MessageQueue := mkMessageQueue {
  pending_buffers_ : list bytes;
  state_ : State
}.

Definition new_MessageQueue (s : StreamPtr) : MessageQueue :=
  mkMessageQueue [] (mkState (Some s) 0 0 0 true).

Definition set_writing_bytes (n : Z) (q : MessageQueue) : MessageQueue :=
  let st := state_ q in
  mkMessageQueue (pending_buffers_ q)
    (mkState (stream st) n (pending_bytes st) (total_bytes_written st) (active st)).

Definition set_pending (buffers : list bytes) (n : Z) (q : MessageQueue) : MessageQueue :=
  let st := state_ q in
  mkMessageQueue buffers
    (mkState (stream st) (writing_bytes st) n (total_bytes_written st) (active st)).

Definition add_total (n : Z) (q : MessageQueue) : MessageQueue :=
  let st := state_ q in
  mkMessageQueue (pending_buffers_ q)
    (mkState (stream st) (writing_bytes st) (pending_bytes st)
       (u64 (total_bytes_written st + n)) (active st)).

Definition queue_clear (q : MessageQueue) : MessageQueue := set_pending [] 0 q.

Definition queue_close (q : MessageQueue) : MessageQueue :=
  let q := queue_clear q in
  let st := state_ q in
  mkMessageQueue (pending_buffers_ q)
    (mkState None 0 (pending_bytes st) (total_bytes_written st) false).

Section queue.
Context (closedW : StreamPtr → bool).

Definition beginWrite (buffer : SharedData) (q : MessageQueue) : MessageQueue * list queue_event :=
  match buffer with
  | None => (q, [Feedback (stream (state_ q)) (failure (graphsync_error MESSAGE_WRITE_ERROR))])
  | Some buffer =>
      match stream (state_ q) with
      | None => (q, [Feedback None (failure (graphsync_error MESSAGE_WRITE_ERROR))])
      | Some s =>
          if closedW s then
            (q, [Feedback (Some s) (failure (graphsync_error MESSAGE_WRITE_ERROR))])
          else (set_writing_bytes (size buffer) q, [Write s buffer])
      end
  end.

Definition queue_enqueue (data : SharedData) (q : MessageQueue) : MessageQueue * list queue_event :=
  match data with
  | None => (q, [])
  | Some d =>
      if (size d =? 0) || negb (active (state_ q)) then (q, [])
      else if 0 <? writing_bytes (state_ q) then
        (set_pending (pending_buffers_ q ++ [d]) (u64 (pending_bytes (state_ q) + size d)) q, [])
      else beginWrite data q
  end.

Definition dequeue (q : MessageQueue) : MessageQueue * list queue_event :=
  match pending_buffers_ q with
  | [] => (q, [])
  | buffer :: rest =>
      beginWrite (Some buffer) (set_pending rest (u64 (pending_bytes (state_ q) - size buffer)) q)
  end.

Definition onMessageWritten (res : outcome error_code Z) (q : MessageQueue) :
    MessageQueue * list queue_event :=
  if negb (active (state_ q)) then (q, [])
  else
    let n := writing_bytes (state_ q) in
    let q := set_writing_bytes 0 q in
    match res with
    | failure e => (q, [Feedback (stream (state_ q)) (failure e)])
    | success m =>
        if negb (n =? m) then
          (q, [Feedback (stream (state_ q)) (failure (graphsync_error MESSAGE_WRITE_ERROR))])
        else
          let '(q, ev) := dequeue (add_total n q) in
          (q, ev ++ [Feedback (stream (state_ q)) (success tt)])
    end.

End queue.

(** ** [OutboundEndpoint]

    [queue_] is shared with the stream's context; the objects live in [queues],
    at the address of their stream, and the pointer is that address. *)

Abbreviation Queues := (gmap StreamPtr MessageQueue).

Record OutboundEndpoint := mkOutboundEndpoint {
  ep_pending_buffers_ : list bytes;
  pending_bytes_ : Z;
  is_connecting_ : bool;
  queue_ : option StreamPtr
}.

Definition new_OutboundEndpoint : OutboundEndpoint := mkOutboundEndpoint [] 0 true None.

(** [queue_->getState().stream]. *)
Definition getStream (qs : Queues) (ep : OutboundEndpoint) : option StreamPtr :=
  q ← queue_ ep; q ← qs !! q; stream (state_ q).

Definition isConnecting (ep : OutboundEndpoint) : bool := is_connecting_ ep.
Definition isConnected (ep : OutboundEndpoint) : bool :=
  match queue_ ep with Some _ => true | None => false end.

Section endpoint.
Context (closedW : StreamPtr → bool).

(** [queue_->enqueue]: an operation on a shared queue. *)
Definition enqueue_at (s : StreamPtr) (data : SharedData) (qs : Queues) : Queues * list queue_event :=
  match qs !! s with
  | None => (qs, [])
  | Some q => let '(q, ev) := queue_enqueue closedW data q in (<[s := q]> qs, ev)
  end.

(** [for ( auto &buf : pending_buffers_ ) queue_->enqueue( buf );] *)
Fixpoint enqueue_all (s : StreamPtr) (buffers : list bytes) (qs : Queues) :
    Queues * list queue_event :=
  match buffers with
  | [] => (qs, [])
  | b :: rest =>
      let '(qs, ev) := enqueue_at s (Some b) qs in
      let '(qs, ev') := enqueue_all s rest qs in
      (qs, ev ++ ev')
  end.

Definition onConnected (s : StreamPtr) (ep : OutboundEndpoint) (qs : Queues) :
    OutboundEndpoint * Queues * list queue_event :=
  let '(qs, ev) := enqueue_all s (ep_pending_buffers_ ep) qs in
  (mkOutboundEndpoint [] 0 false (Some s), qs, ev).

(** [queue_ ? queue_->getState().pending_bytes : pending_bytes_]. *)
Definition pending_of (ep : OutboundEndpoint) (qs : Queues) : Z :=
  match queue_ ep with
  | Some s => match qs !! s with Some q => pending_bytes (state_ q) | None => 0 end
  | None => pending_bytes_ ep
  end.

Definition ep_enqueue (data : SharedData) (ep : OutboundEndpoint) (qs : Queues) :
    outcome Error unit * OutboundEndpoint * Queues * list queue_event :=
  match data with
  | None => (success tt, ep, qs, [])
  | Some d =>
      if size d =? 0 then (success tt, ep, qs, [])
      else if kMaxPendingBytes <? u64 (pending_of ep qs + size d) then
        (failure WRITE_QUEUE_OVERFLOW, ep, qs, [])
      else
        match queue_ ep with
        | Some s => let '(qs, ev) := enqueue_at s data qs in (success tt, ep, qs, ev)
        | None =>
            (success tt,
             mkOutboundEndpoint (ep_pending_buffers_ ep ++ [d]) (u64 (pending_bytes_ ep + size d))
               (is_connecting_ ep) (queue_ ep), qs, [])
        end
  end.

Definition clearPendingMessages (ep : OutboundEndpoint) (qs : Queues) : OutboundEndpoint * Queues :=
  match queue_ ep with
  | Some s => (ep, alter queue_clear s qs)
  | None => (mkOutboundEndpoint [] 0 (is_connecting_ ep) (queue_ ep), qs)
  end.

End endpoint.

(** ** Runs of a queue

    [writes] are the buffers written to the stream, in order.  The runs have one
    step per call of the object: an owner's [enqueue] or [clear], or libp2p's
    completion of the write in flight; libp2p calls back once per write, with the
    number of bytes written or an error. *)

Definition writes (ev : list queue_event) : list bytes :=
  omap (λ e, match e with Write _ b => Some b | Feedback _ _ => None end) ev.

Lemma writes_app e1 e2 : writes (e1 ++ e2) = writes e1 ++ writes e2.
Proof. apply omap_app. Qed.

Definition total (l : list bytes) : Z := foldr (λ b n, size b + n) 0 l.

Lemma total_bytes_app l k : total (l ++ k) = total l + total k.
Proof. induction l as [|b l IH]; cbn; [done|]. fold (total (l ++ k)) (total l). lia. Qed.

(** A message the queue takes: neither null nor empty. *)
Definition nonempty (d : bytes) : bool := negb (size d =? 0).

Lemma nonempty_spec d : nonempty d = true ↔ 0 < size d.
Proof. unfold nonempty. pose proof (size_nonneg d). destruct (Z.eqb_spec (size d) 0); cbn; naive_solver lia. Qed.

Definition accepted (data : SharedData) : list bytes :=
  match data with Some d => if nonempty d then [d] else [] | None => [] end.

Inductive op :=
| Enqueue (data : SharedData)
| Written (res : outcome error_code Z)
| Clear.

Section runs.
Context (closedW : StreamPtr → bool).

(** The queue, the writes started so far, and the write in flight. *)
Record run_state := mkRun { rq : MessageQueue; started : list bytes; in_flight : option bytes }.

Definition initial_run (s : StreamPtr) : run_state := mkRun (new_MessageQueue s) [] None.

Definition after_events (q : MessageQueue) (ev : list queue_event) (r : run_state) : run_state :=
  mkRun q (started r ++ writes ev)
    (match writes ev with [] => in_flight r | b :: _ => Some b end).

Inductive step (r : run_state) : op → run_state → Prop :=
| step_enqueue data q ev :
    queue_enqueue closedW data (rq r) = (q, ev) → step r (Enqueue data) (after_events q ev r)
| step_written b res q ev :
    in_flight r = Some b → onMessageWritten closedW res (rq r) = (q, ev) →
    step r (Written res) (after_events q ev (mkRun (rq r) (started r) None))
| step_clear : step r Clear (mkRun (queue_clear (rq r)) (started r) (in_flight r)).

Inductive runs (s : StreamPtr) : list op → run_state → Prop :=
| runs_nil : runs s [] (initial_run s)
| runs_snoc ops r o r' : runs s ops r → step r o r' → runs s (ops ++ [o]) r'.

(** *** The invariant *)

(** What [writing_bytes] and [pending_bytes] mean. *)
Record queue_inv (q : MessageQueue) (flight : option bytes) : Prop := mk_queue_inv {
  inv_active : active (state_ q) = true;
  inv_stream : is_Some (stream (state_ q));
  inv_writing : writing_bytes (state_ q) = match flight with Some b => size b | None => 0 end;
  inv_flight : ∀ b, flight = Some b → 0 < size b;
  inv_pending : pending_bytes (state_ q) = u64 (total (pending_buffers_ q));
  inv_nonempty : Forall (λ d, 0 < size d) (pending_buffers_ q)
}.

Lemma beginWrite_inv d q q' ev : 0 < size d → queue_inv q None →
  beginWrite closedW (Some d) q = (q', ev) →
  queue_inv q' (match writes ev with [] => None | b :: _ => Some b end) ∧
  (writes ev = [] ∨ writes ev = [d]).
Proof.
  intros Hd [Ha [s Hs] Hw Hf Hp Hn]. unfold beginWrite. rewrite Hs. destruct (closedW s); intros [= <- <-].
  - split; [by split|by left].
  - split; [|by right]. split; try done. cbn. naive_solver.
Qed.

Lemma enqueue_inv data q flight q' ev : queue_inv q flight →
  queue_enqueue closedW data q = (q', ev) →
  queue_inv q' (match writes ev with [] => flight | b :: _ => Some b end) ∧
  (writes ev ≠ [] → flight = None).
Proof.
  intros Hinv. unfold queue_enqueue. destruct data as [d|]; [|by intros [= <- <-]].
  pose proof Hinv as [Ha Hs Hw Hf Hp Hn]. rewrite Ha, orb_false_r.
  pose proof (size_nonneg d). destruct (Z.eqb_spec (size d) 0); [by intros [= <- <-]|].
  destruct (Z.ltb_spec 0 (writing_bytes (state_ q))).
  - intros [= <- <-]. split; [|done]. split; try done; cbn.
    + rewrite Hp, wrap_add_l, total_bytes_app. cbn. by rewrite Z.add_0_r.
    + apply Forall_app. split; [done|]. by constructor; [lia|].
  - destruct flight as [b|]; [specialize (Hf b eq_refl); lia|]. intros Hb.
    apply beginWrite_inv in Hb as [? _]; [by split|lia|done].
Qed.

Lemma dequeue_inv q q' ev : queue_inv q None → dequeue closedW q = (q', ev) →
  queue_inv q' (match writes ev with [] => None | b :: _ => Some b end).
Proof.
  intros [Ha Hs Hw Hf Hp Hn]. unfold dequeue.
  destruct (pending_buffers_ q) as [|b rest] eqn:Hq; [intros [= <- <-]; split; by rewrite ?Hq|].
  apply Forall_cons in Hn as [Hb Hn]. intros Hbw. apply beginWrite_inv in Hbw as [? _]; [done|done|].
  split; try done. cbn in *. rewrite Hp. cbn. rewrite wrap_sub_l. f_equal. lia.
Qed.

Lemma written_inv res q b q' ev : queue_inv q (Some b) → onMessageWritten closedW res q = (q', ev) →
  queue_inv q' (match writes ev with [] => None | b :: _ => Some b end).
Proof.
  intros [Ha Hs Hw Hf Hp Hn]. unfold onMessageWritten. rewrite Ha. cbn [negb].
  destruct res as [m|e]; [|intros [= <- <-]; by split].
  destruct (_ =? m); cbn [negb]; [|intros [= <- <-]; by split].
  destruct (dequeue closedW (add_total (writing_bytes (state_ q)) (set_writing_bytes 0 q))) as [q1 ev1] eqn:Hd.
  intros [= <- <-]. apply dequeue_inv in Hd; [|by split].
  rewrite writes_app. by rewrite app_nil_r.
Qed.

Lemma step_inv r o r' : queue_inv (rq r) (in_flight r) → step r o r' → queue_inv (rq r') (in_flight r').
Proof.
  intros Hinv Hs. destruct Hs as [data q ev He|b res q ev Hb He|]; cbn.
  - by eapply enqueue_inv in He as [? _].
  - rewrite Hb in Hinv. by eapply written_inv in He.
  - destruct Hinv as [Ha Hst Hw Hf Hp Hn]. by split.
Qed.

Lemma runs_inv s ops r : runs s ops r → queue_inv (rq r) (in_flight r).
Proof. induction 1 as [|ops r o r' _ IH Hs]; [by split|]. by eapply step_inv. Qed.

(** In every run, failed and short writes and calls of [clear] included,
    [pending_bytes] is the size of the pending buffers (modulo [2^64]),
    [writing_bytes] the size of the one write in flight, and no write is started
    while another is in flight: libp2p streams take one write at a time. *)
Theorem one_write_at_a_time s ops r o r' :
  runs s ops r → step r o r' →
  pending_bytes (state_ (rq r')) = u64 (total (pending_buffers_ (rq r'))) ∧
  writing_bytes (state_ (rq r')) = match in_flight r' with Some b => size b | None => 0 end ∧
  (∀ data, o = Enqueue data → is_Some (in_flight r) → started r' = started r).
Proof.
  intros Hr Hs. pose proof (runs_inv _ _ _ Hr) as Hinv.
  destruct (step_inv _ _ _ Hinv Hs) as [_ _ Hw _ Hp _]. split_and!; [done|done|].
  intros data -> [b Hb]. inversion Hs as [? q ev He Ho| |]; subst. cbn.
  apply (enqueue_inv _ _ (in_flight r)) in He as [_ Hno]; [|done].
  destruct (writes ev); [by rewrite app_nil_r|]. rewrite Hno in Hb by done. done.
Qed.

(** *** The abstract queue: messages leave in the order they came *)

Definition enqueued (ops : list op) : list bytes :=
  concat (map (λ o, match o with Enqueue d => accepted d | _ => [] end) ops).

(** No write failed, none was short, nothing was cleared. *)
Inductive fault_free (s : StreamPtr) : list op → run_state → Prop :=
| fault_free_nil : fault_free s [] (initial_run s)
| fault_free_enqueue ops r data r' :
    fault_free s ops r → step r (Enqueue data) r' → fault_free s (ops ++ [Enqueue data]) r'
| fault_free_written ops r b r' :
    fault_free s ops r → in_flight r = Some b → step r (Written (success (size b))) r' →
    fault_free s (ops ++ [Written (success (size b))]) r'.

Lemma fault_free_runs s ops r : fault_free s ops r → runs s ops r.
Proof. induction 1; by econstructor. Qed.

Lemma enqueued_snoc ops o :
  enqueued (ops ++ [o]) = enqueued ops ++ match o with Enqueue d => accepted d | _ => [] end.
Proof. unfold enqueued. rewrite map_app, concat_app. cbn. by rewrite app_nil_r. Qed.

(** The refinement relation: the messages written and the messages pending are
    the messages accepted, and an idle queue has nothing pending. *)
Definition fifo (r : run_state) (ops : list op) : Prop :=
  started r ++ pending_buffers_ (rq r) = enqueued ops ∧
  (in_flight r = None → pending_buffers_ (rq r) = []).

Lemma beginWrite_open d q : (∀ s, stream (state_ q) = Some s → closedW s = false) →
  is_Some (stream (state_ q)) →
  ∃ q' ev, beginWrite closedW (Some d) q = (q', ev) ∧ writes ev = [d] ∧
    pending_buffers_ q' = pending_buffers_ q ∧ stream (state_ q') = stream (state_ q).
Proof.
  intros Ho [s Hs]. unfold beginWrite. rewrite Hs, Ho by done. by do 2 eexists.
Qed.

Lemma beginWrite_stream d q q' ev : beginWrite closedW d q = (q', ev) → stream (state_ q') = stream (state_ q).
Proof. unfold beginWrite. intros. repeat case_match; by simplify_eq. Qed.

Lemma step_stream r o r' : step r o r' → stream (state_ (rq r')) = stream (state_ (rq r)).
Proof.
  intros Hs. destruct Hs as [data q ev He|b res q ev Hb He|]; cbn; [| |done].
  - unfold queue_enqueue in He. repeat case_match; simplify_eq; try done; by eapply beginWrite_stream.
  - unfold onMessageWritten, dequeue in He. repeat case_match; simplify_eq; try done;
      match goal with H : beginWrite _ _ _ = _ |- _ => by apply beginWrite_stream in H end.
Qed.

Lemma runs_stream s ops r : runs s ops r → stream (state_ (rq r)) = Some s.
Proof. induction 1 as [|ops r o r' _ IH Hs]; [done|]. by rewrite (step_stream _ _ _ Hs). Qed.

Lemma enqueue_fifo s ops r data r' : closedW s = false → runs s ops r → fifo r ops →
  step r (Enqueue data) r' → fifo r' (ops ++ [Enqueue data]).
Proof.
  intros Ho Hr [Hf Hidle] Hs. pose proof (runs_inv _ _ _ Hr) as Hinv. pose proof (runs_stream _ _ _ Hr) as Hst.
  inversion Hs as [? q ev He| |]; subst. unfold fifo. rewrite enqueued_snoc. cbn [rq started in_flight after_events].
  rewrite <- Hf. destruct Hinv as [Ha _ Hw Hfl Hp Hn]. unfold queue_enqueue in He.
  destruct data as [d|]; cbn [accepted]; [|simplify_eq; cbn; by rewrite !app_nil_r].
  unfold nonempty. rewrite Ha, orb_false_r in He.
  destruct (Z.eqb_spec (size d) 0); cbn [negb]; [simplify_eq; cbn; by rewrite !app_nil_r|].
  destruct (in_flight r) as [b|] eqn:Hb; rewrite Hw in He.
  - specialize (Hfl b eq_refl). destruct (Z.ltb_spec 0 (size b)); [|lia]. simplify_eq. cbn.
    rewrite app_nil_r. by rewrite app_assoc.
  - change (0 <? 0) with false in He. cbv iota in He. destruct (beginWrite_open d (rq r)) as (q' & ev' & Hbw & Hwr & Hpb & _);
      [naive_solver|by rewrite Hst|]. rewrite Hbw in He. simplify_eq. rewrite Hwr, Hpb, Hidle by done.
    by rewrite !app_nil_r.
Qed.

Lemma written_fifo s ops r b r' : closedW s = false → runs s ops r → fifo r ops →
  in_flight r = Some b → step r (Written (success (size b))) r' →
  fifo r' (ops ++ [Written (success (size b))]).
Proof.
  intros Ho Hr [Hf Hidle] Hb Hs. pose proof (runs_inv _ _ _ Hr) as [Ha _ Hw _ _ _].
  pose proof (runs_stream _ _ _ Hr) as Hst. inversion Hs as [|? ? q ev _ He|]; subst.
  unfold fifo. rewrite enqueued_snoc, app_nil_r, <- Hf. cbn [rq started in_flight after_events].
  unfold onMessageWritten in He. rewrite Ha, Hw, Hb, Z.eqb_refl in He. cbn [negb] in He.
  unfold dequeue in He. cbn [pending_buffers_ add_total set_writing_bytes state_] in He.
  destruct (pending_buffers_ (rq r)) as [|p rest] eqn:Hpend.
  - simplify_eq. cbn. rewrite Hpend, !app_nil_r. done.
  - match type of He with (let '(_, _) := beginWrite _ _ ?q0 in _) = _ =>
      destruct (beginWrite_open p q0) as (q' & ev' & Hbw & Hwr & Hpb & _); [cbn; naive_solver|cbn; by rewrite Hst|] end.
    rewrite Hbw in He. simplify_eq. rewrite writes_app, Hwr, Hpb. cbn. by rewrite <- app_assoc.
Qed.

(** C6: refinement of a FIFO: while the stream is open and writes complete, the
    buffers written followed by the buffers pending are the non-empty messages
    enqueued, in order, and an idle queue has nothing pending.  Nothing is lost,
    duplicated or reordered. *)
Theorem queue_fifo s ops r :
  closedW s = false → fault_free s ops r →
  started r ++ pending_buffers_ (rq r) = enqueued ops ∧
  (in_flight r = None → pending_buffers_ (rq r) = []).
Proof.
  intros Ho. induction 1 as [|ops r data r' Hr IH Hs|ops r b r' Hr IH Hb Hs]; [done| |].
  - eapply enqueue_fifo; eauto using fault_free_runs.
  - eapply written_fifo; eauto using fault_free_runs.
Qed.

(** *** Draining *)

(** libp2p completes every write in full: [k] completions. *)
Fixpoint complete (k : nat) (r : run_state) : run_state :=
  match k, in_flight r with
  | S k, Some b =>
      let '(q, ev) := onMessageWritten closedW (success (size b)) (rq r) in
      complete k (after_events q ev (mkRun (rq r) (started r) None))
  | _, _ => r
  end.

(** C35: a queue with a write in flight drains: once that write and one more per
    pending buffer complete, every pending buffer has been written, in order,
    nothing is pending or in flight, and the bytes are counted. *)
Theorem queue_drains s ops r b :
  closedW s = false → runs s ops r → in_flight r = Some b →
  let r' := complete (S (length (pending_buffers_ (rq r)))) r in
  started r' = started r ++ pending_buffers_ (rq r) ∧
  pending_buffers_ (rq r') = [] ∧ in_flight r' = None ∧
  writing_bytes (state_ (rq r')) = 0 ∧ pending_bytes (state_ (rq r')) = 0 ∧
  u64 (total_bytes_written (state_ (rq r'))) =
    u64 (total_bytes_written (state_ (rq r)) + size b + total (pending_buffers_ (rq r))).
Proof.
  intros Ho Hr. pose proof (runs_inv _ _ _ Hr) as Hinv. pose proof (runs_stream _ _ _ Hr) as Hst.
  clear Hr ops. remember (pending_buffers_ (rq r)) as pend eqn:Hpend. revert r b Hinv Hst Hpend.
  induction pend as [|p pend IH]; intros r b Hinv Hst Hpend Hb; pose proof Hinv as [Ha _ Hw _ Hp Hn].
  - cbn [complete length]. rewrite Hb. unfold onMessageWritten. rewrite Ha, Hw, Hb, Z.eqb_refl. cbn [negb].
    unfold dequeue. cbn [pending_buffers_ add_total set_writing_bytes state_]. rewrite <- Hpend. cbn.
    rewrite Hp, <- Hpend, app_nil_r. cbn. split_and!; try done. unfold wrap. rewrite Zmod_mod. f_equal. lia.
  - assert (∃ q' ev, onMessageWritten closedW (success (size b)) (rq r) = (q', ev) ∧ writes ev = [p] ∧
      pending_buffers_ q' = pend ∧ stream (state_ q') = Some s ∧
      total_bytes_written (state_ q') = u64 (total_bytes_written (state_ (rq r)) + size b))
      as (q' & ev & He & Hwr & Hpb & Hs' & Ht).
    { unfold onMessageWritten. rewrite Ha, Hw, Hb, Z.eqb_refl. cbn [negb]. unfold dequeue.
      cbn [pending_buffers_ add_total set_writing_bytes state_]. rewrite <- Hpend.
      unfold beginWrite. cbn. rewrite Hst, Ho. do 2 eexists. split; [reflexivity|]. by rewrite <- ?Hst. }
    cbn [length]. change (complete (S (S (length pend))) r) with
      (match in_flight r with
       | Some b => let '(q, ev) := onMessageWritten closedW (success (size b)) (rq r) in
         complete (S (length pend)) (after_events q ev (mkRun (rq r) (started r) None))
       | None => r end). rewrite Hb, He.
    set (r1 := after_events q' ev (mkRun (rq r) (started r) None)).
    assert (queue_inv (rq r1) (in_flight r1)) as Hinv1.
    { cbn. rewrite Hb in Hinv. by eapply written_inv in He. }
    specialize (IH r1 p Hinv1 Hs' (eq_sym Hpb)). cbn zeta in IH.
    destruct IH as (Hst1 & -> & -> & -> & -> & ->); [cbn; by rewrite Hwr|].
    split_and!; try done.
    + rewrite Hst1. cbn. by rewrite Hwr, <- app_assoc.
    + cbn. rewrite Ht, <- Z.add_assoc, wrap_add_l. f_equal; unfold total; lia.
Qed.

End runs.

(** *** A concrete run *)

(** Enqueue two messages and an empty one; the first write completes. *)
Definition sample_ops : list op :=
  [Enqueue (Some [1; 2]); Enqueue (Some []); Enqueue (Some [3]); Written (success 2)].

Definition sample_run : run_state :=
  mkRun (mkMessageQueue [] (mkState (Some 7) 1 0 2 true)) [[1; 2]; [3]] (Some [3]).

Lemma sample_fault_free : fault_free (λ _, false) 7 sample_ops sample_run.
Proof.
  refine (fault_free_written _ _ [Enqueue (Some [1; 2]); Enqueue (Some []); Enqueue (Some [3])]
    (mkRun (mkMessageQueue [[3]] (mkState (Some 7) 2 1 0 true)) [[1; 2]] (Some [1; 2])) [1; 2] _ _ eq_refl _).
  - refine (fault_free_enqueue _ _ [Enqueue (Some [1; 2]); Enqueue (Some [])]
      (mkRun (mkMessageQueue [] (mkState (Some 7) 2 0 0 true)) [[1; 2]] (Some [1; 2])) _ _ _ _).
    + refine (fault_free_enqueue _ _ [Enqueue (Some [1; 2])]
        (mkRun (mkMessageQueue [] (mkState (Some 7) 2 0 0 true)) [[1; 2]] (Some [1; 2])) _ _ _ _).
      * refine (fault_free_enqueue _ _ [] _ _ _ (fault_free_nil _ _) _).
        by refine (step_enqueue _ _ _ _ [Write 7 [1; 2]] _).
      * by refine (step_enqueue _ (mkRun _ _ _) _ _ [] _).
    + by refine (step_enqueue _ (mkRun _ _ _) _ _ [] _).
  - by refine (step_written _ (mkRun _ _ _) [1; 2] _ _ [Write 7 [3]; Feedback (Some 7) (success tt)] eq_refl _).
Qed.

Lemma queue_fifo_witness :
  started sample_run ++ pending_buffers_ (rq sample_run) = [[1; 2]; [3]].
Proof.
  rewrite (proj1 (queue_fifo (λ _, false) 7 sample_ops sample_run eq_refl sample_fault_free)).
  vm_compute. reflexivity.
Defined.

Definition sample_busy : run_state :=
  mkRun (mkMessageQueue [] (mkState (Some 7) 2 0 0 true)) [[1; 2]] (Some [1; 2]).

Definition sample_waiting : run_state :=
  mkRun (mkMessageQueue [[3]] (mkState (Some 7) 2 1 0 true)) [[1; 2]] (Some [1; 2]).

Lemma sample_runs : runs (λ _, false) 7 [Enqueue (Some [1; 2])] sample_busy.
Proof.
  refine (runs_snoc _ _ [] _ _ _ (runs_nil _ _) _). by refine (step_enqueue _ _ _ _ [Write 7 [1; 2]] _).
Qed.

Lemma sample_step : step (λ _, false) sample_busy (Enqueue (Some [3])) sample_waiting.
Proof. by refine (step_enqueue _ sample_busy _ _ [] _). Qed.

Lemma one_write_at_a_time_witness :
  started sample_waiting = started sample_busy ∧ pending_bytes (state_ (rq sample_waiting)) = 1.
Proof.
  destruct (one_write_at_a_time (λ _, false) 7 [Enqueue (Some [1; 2])] sample_busy (Enqueue (Some [3]))
    sample_waiting sample_runs sample_step) as (H1 & _ & H3).
  split; [exact (H3 _ eq_refl (ex_intro _ _ eq_refl))|rewrite H1; vm_compute; reflexivity].
Defined.

Lemma queue_drains_witness :
  started (complete (λ _, false) 2 sample_waiting) = [[1; 2]; [3]].
Proof.
  refine (proj1 (queue_drains (λ _, false) 7 [Enqueue (Some [1; 2]); Enqueue (Some [3])]
    sample_waiting [1; 2] eq_refl _ eq_refl)).
  exact (runs_snoc _ _ [Enqueue (Some [1; 2])] _ _ _ sample_runs sample_step).
Defined.

(** ** The endpoint *)

Section endpoint_properties.
Context (closedW : StreamPtr → bool).

(** The endpoint before a stream is connected. *)
Definition connecting (ep : OutboundEndpoint) : Prop :=
  queue_ ep = None ∧ pending_bytes_ ep = u64 (total (ep_pending_buffers_ ep)) ∧
  Forall (λ d, 0 < size d) (ep_pending_buffers_ ep).

(** Flow control of [OutboundEndpoint::enqueue].  A message is refused, with
    [WRITE_QUEUE_OVERFLOW] and no effect, exactly when it would take the pending
    bytes over [kMaxPendingBytes]; otherwise the pending bytes, of the endpoint
    or of the connected queue, stay within the bound. *)
Theorem ep_enqueue_bound data ep qs :
  0 ≤ pending_of ep qs ≤ kMaxPendingBytes →
  (∀ d, data = Some d → size d < 2 ^ 63) →
  let '(res, ep', qs', ev) := ep_enqueue closedW data ep qs in
  0 ≤ pending_of ep' qs' ≤ kMaxPendingBytes ∧
  (res = failure WRITE_QUEUE_OVERFLOW ↔
     ∃ d, data = Some d ∧ 0 < size d ∧ kMaxPendingBytes < pending_of ep qs + size d) ∧
  (res ≠ success tt → res = failure WRITE_QUEUE_OVERFLOW ∧ ep' = ep ∧ qs' = qs ∧ ev = []).
Proof.
  intros Hb Hd. unfold kMaxPendingBytes in *. unfold ep_enqueue. destruct data as [d|].
  2: { split_and!; [lia..| |done]. split; [done|]. naive_solver. }
  specialize (Hd d eq_refl). pose proof (size_nonneg d).
  destruct (Z.eqb_spec (size d) 0); [split_and!; [lia..| |done]; split; [done|]; naive_solver lia|].
  rewrite wrap_small by lia. unfold kMaxPendingBytes.
  destruct (Z.ltb_spec (64 * 1024 * 1024) (pending_of ep qs + size d)).
  { split_and!; [lia..| |done]. split; [|done]. intros _. eexists. split_and!; [done|lia..]. }
  assert (success tt = @failure Error unit WRITE_QUEUE_OVERFLOW ↔
    ∃ d0, Some d = Some d0 ∧ 0 < size d0 ∧ 64 * 1024 * 1024 < pending_of ep qs + size d0) as Hiff.
  { split; [done|]. intros (d0 & [= <-] & ? & ?). lia. }
  destruct (queue_ ep) as [s|] eqn:Hq.
  - unfold enqueue_at. destruct (qs !! s) as [q|] eqn:Hqs.
    2: { split_and!; try done; lia. }
    destruct (queue_enqueue closedW (Some d) q) as [q' ev] eqn:He.
    split; [|by split]. unfold pending_of in *. rewrite Hq in *. rewrite lookup_insert_eq.
    rewrite Hqs in *. unfold queue_enqueue in He.
    repeat (case_match; simplify_eq; try done); cbn.
    + rewrite wrap_small by lia. lia.
    + unfold beginWrite in He. repeat case_match; simplify_eq; done.
  - split; [|by split]. unfold pending_of in *. rewrite Hq in *. cbn. rewrite wrap_small by lia. lia.
Qed.

Lemma enqueue_all_spec s buffers : ∀ qs q, qs !! s = Some q → Forall (λ d, 0 < size d) buffers →
  active (state_ q) = true → 0 < writing_bytes (state_ q) →
  enqueue_all closedW s buffers qs =
    (<[s := set_pending (pending_buffers_ q ++ buffers)
              (match buffers with [] => pending_bytes (state_ q) | _ =>
                 u64 (pending_bytes (state_ q) + total buffers) end) q]> qs, []).
Proof.
  induction buffers as [|b buffers IH]; intros qs q Hq HF Ha Hw; cbn [enqueue_all].
  { rewrite app_nil_r. rewrite insert_id; [done|]. rewrite Hq. by destruct q as [? []]. }
  apply Forall_cons in HF as [Hb HF]. unfold enqueue_at. rewrite Hq. unfold queue_enqueue.
  rewrite Ha, orb_false_r. destruct (Z.eqb_spec (size b) 0); [lia|].
  destruct (Z.ltb_spec 0 (writing_bytes (state_ q))); [|lia].
  rewrite (IH _ (set_pending (pending_buffers_ q ++ [b]) (u64 (pending_bytes (state_ q) + size b)) q));
    [|by rewrite lookup_insert_eq|done..].
  rewrite insert_insert_eq. cbn [app]. f_equal. f_equal. unfold set_pending. cbn. rewrite <- app_assoc. f_equal.
  f_equal. destruct buffers as [|b' buffers]; cbn; [f_equal; lia|].
  rewrite wrap_add_l. f_equal. lia.
Qed.

(** The messages enqueued while the endpoint was connecting are handed to
    the stream's new queue in order when it connects: the first is written at
    once, the others wait in the queue, and the endpoint keeps none. *)
Theorem onConnected_flush s ep qs :
  connecting ep → closedW s = false → qs !! s = Some (new_MessageQueue s) →
  let '(ep', qs', ev) := onConnected closedW s ep qs in
  ep_pending_buffers_ ep' = [] ∧ pending_bytes_ ep' = 0 ∧ isConnecting ep' = false ∧
  isConnected ep' = true ∧ getStream qs' ep' = Some s ∧
  ∃ q', qs' = <[s := q']> qs ∧
    writes ev ++ pending_buffers_ q' = ep_pending_buffers_ ep ∧
    (length (writes ev) ≤ 1)%nat ∧
    pending_bytes (state_ q') = u64 (total (pending_buffers_ q')).
Proof.
  intros (Hn & Hp & HF) Ho Hq. unfold onConnected. destruct (ep_pending_buffers_ ep) as [|b buffers] eqn:Hb.
  { cbn. split_and!; try done.
    - unfold getStream. cbn. by rewrite Hq.
    - exists (new_MessageQueue s). rewrite insert_id by done. split_and!; try done. cbn. lia. }
  apply Forall_cons in HF as [Hb0 HF]. cbn [enqueue_all]. unfold enqueue_at. rewrite Hq.
  unfold queue_enqueue. cbn [new_MessageQueue state_ active writing_bytes negb].
  rewrite orb_false_r. destruct (Z.eqb_spec (size b) 0); [lia|].
  change (0 <? 0) with false. cbv iota. unfold beginWrite. cbn [new_MessageQueue state_ stream]. rewrite Ho.
  erewrite enqueue_all_spec; [|apply lookup_insert_eq|done|done|cbn; lia].
  rewrite insert_insert_eq. cbn [isConnecting isConnected queue_ ep_pending_buffers_ pending_bytes_ is_connecting_].
  split_and!; try done.
  - unfold getStream. cbn. rewrite lookup_insert_eq. done.
  - eexists. split; [reflexivity|]. cbn. split_and!; [done|lia|]. by destruct buffers.
Qed.

End endpoint_properties.

Lemma ep_enqueue_bound_witness :
  0 ≤ pending_of (mkOutboundEndpoint [] 67108000 true None) ∅ ≤ kMaxPendingBytes ∧
  fst (fst (fst (ep_enqueue (λ _, false) (Some (replicate 1000 0)) (mkOutboundEndpoint [] 67108000 true None) ∅))) =
    failure WRITE_QUEUE_OVERFLOW.
Proof.
  assert (0 ≤ pending_of (mkOutboundEndpoint [] 67108000 true None) ∅ ≤ kMaxPendingBytes) as H
    by (vm_compute; split; discriminate).
  split; [exact H|].
  pose proof (ep_enqueue_bound (λ _, false) (Some (replicate 1000 0))
    (mkOutboundEndpoint [] 67108000 true None) ∅ H) as Hspec.
  destruct (ep_enqueue _ _ _ _) as [[[res ep'] qs'] ev].
  apply (proj1 (proj2 (Hspec ltac:(intros d [= <-]; vm_compute; reflexivity)))).
  exists (replicate 1000 0). split; [reflexivity|]. split; vm_compute; reflexivity.
Defined.

Lemma onConnected_flush_witness :
  let ep := mkOutboundEndpoint [[1; 2]; [3]] 3 true None in
  let '(_, qs', ev) := onConnected (λ _, false) 7 ep {[7 := new_MessageQueue 7]} in
  ∃ q', qs' !! 7 = Some q' ∧ writes ev ++ pending_buffers_ q' = [[1; 2]; [3]].
Proof.
  pose proof (onConnected_flush (λ _, false) 7 (mkOutboundEndpoint [[1; 2]; [3]] 3 true None)
    {[7 := new_MessageQueue 7]}) as Hspec. cbv zeta.
  destruct (onConnected _ _ _ _) as [[ep' qs'] ev].
  destruct Hspec as (_ & _ & _ & _ & _ & q' & -> & Hw & _).
  - split; [reflexivity|]. split; [vm_compute; reflexivity|]. repeat constructor; vm_compute; reflexivity.
  - reflexivity.
  - reflexivity.
  - exists q'. split; [apply lookup_insert_eq|exact Hw].
Defined.
