(* ===== verification/Marshalling.v ===== *)
(** The wire protocol: [src/ipfs_lite/ipfs/graphsync/impl/network/marshalling],
    [length_delimited_message_reader.cpp] and [message_reader.cpp].

    [pb] has the messages of [marshalling/protobuf/message.proto].  The protobuf
    runtime is a library: its parser, its serializer and the order in which it
    iterates a map field are the operations of the class [Protobuf], and
    [ProtobufLaws] what its documentation promises. *)
From stdpp Require Import base numbers countable list gmap strings.
From S2P Require Import Prelude Cid Status.

Open Scope Z_scope.

(** ** [message.proto] *)

Module pb.

Record Request := mkRequest {
  id : Z;
  root : bytes;
  selector : bytes;
  extensions : gmap string bytes;
  priority : Z;
  cancel : bool;
  update : bool
}.

Record Response := mkResponse {
  resp_id : Z;
  status : Z;
  resp_extensions : gmap string bytes
}.

Record Block := mkBlock { prefix : bytes; data : bytes }.

Record Message := mkMessage {
  completeRequestList : bool;
  requests : list Request;
  responses : list Response;
  blocks : list Block
}.

Definition empty : Message := mkMessage false [] [] [].

End pb.

Class Protobuf := {
  ByteSizeLong : pb.Message → Z;
  (** [SerializeToArray] into a buffer of that many bytes. *)
  SerializeToArray : pb.Message → Z → option bytes;
  ParseFromArray : bytes → option pb.Message;
  map_iter : gmap string bytes → list (string * bytes)
}.

(** ** [message.hpp], [extension.hpp] *)

Record Extension := mkExtension { name : string; ext_data : bytes }.

#[export] Instance Extension_eq_dec : EqDecision Extension.
Proof. solve_decision. Defined.

Section message.
Context (M : Type).

Record Request := mkRequest {
  id : RequestId;
  root_cid : CID M;
  selector : bytes;
  extensions : list Extension;
  priority : Z;
  cancel : bool
}.

Record Response := mkResponse {
  resp_id : RequestId;
  status : ResponseStatusCode;
  resp_extensions : list Extension
}.

Record Message := mkMessage {
  complete_request_list : bool;
  requests : list Request;
  responses : list Response;
  data : list (CID M * bytes)
}.

End message.

Arguments mkRequest {M}. Arguments id {M}. Arguments root_cid {M}. Arguments selector {M}.
Arguments extensions {M}. Arguments priority {M}. Arguments cancel {M}.
Arguments mkMessage {M}. Arguments complete_request_list {M}. Arguments requests {M}.
Arguments responses {M}. Arguments data {M}.

Section marshalling.
Context {M : Type} `{!Multiformats M, !Protobuf}.
Context (mh_default : M).

(** ** [message_parser.cpp] *)

Definition extractStatusCode (code : Z) : outcome error_code ResponseStatusCode :=
  match code with
  | 20 => success RS_FULL_CONTENT
  | 21 => success RS_PARTIAL_CONTENT
  | 34 => success RS_NOT_FOUND
  | 10 => success RS_REQUEST_ACKNOWLEDGED
  | 11 => success RS_ADDITIONAL_PEERS
  | 12 => success RS_NOT_ENOUGH_GAS
  | 13 => success RS_OTHER_PROTOCOL
  | 14 => success RS_PARTIAL_RESPONSE
  | 30 => success RS_REJECTED
  | 31 => success RS_TRY_AGAIN
  | 32 => success RS_REQUEST_FAILED
  | 33 => success RS_LEGAL_ISSUES
  | _ => failure (graphsync_error MESSAGE_PARSE_ERROR)
  end.

(** The loop over a map field of extensions. *)
Definition parse_extensions (m : gmap string bytes) : list Extension :=
  map (λ '(k, v), mkExtension k v) (map_iter m).

(** The body of the loop of [parseRequests], from a default [Message::Request]. *)
Definition parseRequest (src : pb.Request) : attempt error_code (Request M) :=
  if pb.cancel src then
    returned (mkRequest (pb.id src) (default_CID mh_default) [] [] 1 true)
  else
    match fromBytes (pb.root src) with
    | failure e => failed (cid_error e)
    | success cid =>
        returned (mkRequest (pb.id src) cid (pb.selector src) (parse_extensions (pb.extensions src))
                    (pb.priority src) false)
    end.

Definition parseRequests (m : pb.Message) : attempt error_code (list (Request M)) :=
  mapM parseRequest (pb.requests m).

Definition parseResponse (src : pb.Response) : attempt error_code Response :=
  status ← attempt_of (extractStatusCode (pb.status src));
  returned (mkResponse (pb.resp_id src) status (parse_extensions (pb.resp_extensions src))).

Definition parseResponses (m : pb.Message) : attempt error_code (list Response) :=
  mapM parseResponse (pb.responses m).

Definition parseBlock (src : pb.Block) : attempt error_code (CID M * bytes) :=
  match read (pb.prefix src) true with
  | thrown => thrown
  | failed e => failed (cid_error e)
  | returned (cid, prefix_reader) =>
      match prefix_reader with
      | _ :: _ => failed (graphsync_error MESSAGE_PARSE_ERROR)
      | [] =>
          match calculate (getType (content_address cid)) (pb.data src) with
          | returned mh => returned (mkCID (version cid) (content_type cid) mh, pb.data src)
          | _ => thrown
          end
      end
  end.

Definition parseBlocks (m : pb.Message) : attempt error_code (list (CID M * bytes)) :=
  mapM parseBlock (pb.blocks m).

Definition parseMessage (data : bytes) : attempt error_code (Message M) :=
  match ParseFromArray data with
  | None => failed (graphsync_error MESSAGE_PARSE_ERROR)
  | Some pb_msg =>
      requests ← parseRequests pb_msg;
      responses ← parseResponses pb_msg;
      blocks ← parseBlocks pb_msg;
      returned (mkMessage (pb.completeRequestList pb_msg) requests responses blocks)
  end.

(** ** [serialize.cpp]: the message after the varint of its length *)

Definition serializeProtobufMessage (msg : pb.Message) : option bytes :=
  let msg_sz := ByteSizeLong msg in
  match SerializeToArray msg msg_sz with
  | None => None
  | Some body => Some (uv_encode msg_sz ++ body)
  end.

(** ** [MessageBuilder] and its derived classes *)

Record MessageBuilder := mkMessageBuilder { pb_msg_ : pb.Message; empty_ : bool }.

Definition new_MessageBuilder : MessageBuilder := mkMessageBuilder pb.empty true.

Definition getSerializedSize (b : MessageBuilder) : Z := ByteSizeLong (pb_msg_ b).

Definition serialize (b : MessageBuilder) : outcome Error SharedData :=
  match serializeProtobufMessage (pb_msg_ b) with
  | None => failure MESSAGE_SERIALIZE_ERROR
  | Some data => success (Some data)
  end.

Definition builder_clear (b : MessageBuilder) : MessageBuilder := mkMessageBuilder pb.empty true.

(** [mutable_extensions()->insert( { name, data } )]: an entry with the same key
    stays. *)
Definition insert_extension (m : gmap string bytes) (e : Extension) : gmap string bytes :=
  match m !! name e with Some _ => m | None => <[name e := ext_data e]> m end.

Definition insert_extensions (l : list Extension) : gmap string bytes :=
  foldl insert_extension ∅ l.

Definition add_pb_request (r : pb.Request) (m : pb.Message) : pb.Message :=
  pb.mkMessage (pb.completeRequestList m) (pb.requests m ++ [r]) (pb.responses m) (pb.blocks m).
Definition add_pb_response (r : pb.Response) (m : pb.Message) : pb.Message :=
  pb.mkMessage (pb.completeRequestList m) (pb.requests m) (pb.responses m ++ [r]) (pb.blocks m).
Definition add_pb_block (d : pb.Block) (m : pb.Message) : pb.Message :=
  pb.mkMessage (pb.completeRequestList m) (pb.requests m) (pb.responses m) (pb.blocks m ++ [d]).

(** [RequestBuilder::addRequest]: the builder, and whether it returned.  The CID
    that has no bytes throws after the entry was added. *)
Definition addRequest (request_id : RequestId) (root_cid : CID M) (selector : bytes)
    (extensions : list Extension) (b : MessageBuilder) : MessageBuilder * attempt Error unit :=
  match toBytes root_cid with
  | failure _ =>
      (mkMessageBuilder
         (add_pb_request (pb.mkRequest request_id [] [] ∅ 0 false false) (pb_msg_ b)) (empty_ b), thrown)
  | success d =>
      (mkMessageBuilder
         (add_pb_request
            (pb.mkRequest request_id d selector (insert_extensions extensions) 1 false false) (pb_msg_ b))
         false, returned tt)
  end.

Definition addCancelRequest (request_id : RequestId) (b : MessageBuilder) : MessageBuilder :=
  mkMessageBuilder (add_pb_request (pb.mkRequest request_id [] [] ∅ 0 true false) (pb_msg_ b)) false.

Definition setCompleteRequestList (b : MessageBuilder) : MessageBuilder :=
  let m := pb_msg_ b in
  mkMessageBuilder (pb.mkMessage true (pb.requests m) (pb.responses m) (pb.blocks m)) false.

(** [ResponseBuilder::addResponse]. *)
Definition addResponse (request_id : RequestId) (status : ResponseStatusCode)
    (extensions : list Extension) (b : MessageBuilder) : MessageBuilder :=
  mkMessageBuilder
    (add_pb_response (pb.mkResponse request_id (code status) (insert_extensions extensions)) (pb_msg_ b))
    false.

(** [ResponseBuilder::addDataBlock]. *)
Definition addDataBlock (cid : CID M) (data : bytes) (b : MessageBuilder) :
    MessageBuilder * attempt Error unit :=
  let throws := (mkMessageBuilder (add_pb_block (pb.mkBlock [] []) (pb_msg_ b)) (empty_ b), thrown) in
  match toBytes cid with
  | failure _ => throws
  | success d =>
      match read d true with
      | returned (_, prefix_reader) =>
          (mkMessageBuilder
             (add_pb_block (pb.mkBlock (take (length d - length prefix_reader) d) data) (pb_msg_ b)) false,
           returned tt)
      | _ => throws
      end
  end.

(** ** [LengthDelimitedMessageReader]

    [stream_] is owned by the reader and others; [sole_owner] is
    [stream_.use_count() == 1].  The operations return the calls they make. *)

Inductive reader_event :=
| ReadVarint (stream : StreamPtr)
| ReadBytes (stream : StreamPtr) (length : Z)
| CloseStream (stream : StreamPtr)
| ReaderFeedback (stream : option StreamPtr) (res : outcome error_code bytes).

Record LengthDelimitedMessageReader := mkReader {
  stream_ : option StreamPtr;
  max_message_size_ : Z;
  buffer_size : Z;
  reading_ : bool
}.

Definition new_reader (max_message_size : Z) : LengthDelimitedMessageReader :=
  mkReader None max_message_size 0 false.

Definition set_reading (b : bool) (r : LengthDelimitedMessageReader) :=
  mkReader (stream_ r) (max_message_size_ r) (buffer_size r) b.

Definition continueReading (r : LengthDelimitedMessageReader) :
    LengthDelimitedMessageReader * list reader_event :=
  if reading_ r then (r, [])
  else
    match stream_ r with
    | Some s => (set_reading true r, [ReadVarint s])
    | None => (r, [])
    end.

Definition reader_close (closedR : StreamPtr → bool) (sole_owner : bool)
    (r : LengthDelimitedMessageReader) : LengthDelimitedMessageReader * list reader_event :=
  match stream_ r with
  | None => (r, [])
  | Some s =>
      (mkReader None (max_message_size_ r) (buffer_size r) false,
       if negb (closedR s) && sole_owner then [CloseStream s] else [])
  end.

(** [read( stream )]. *)
Definition reader_read (closedR : StreamPtr → bool) (sole_owner : bool) (stream : StreamPtr)
    (r : LengthDelimitedMessageReader) : bool * LengthDelimitedMessageReader * list reader_event :=
  if closedR stream then (false, r, [])
  else
    let '(r, ev) :=
      if bool_decide (stream_ r = Some stream) then (r, [])
      else
        let '(r, ev) := reader_close closedR sole_owner r in
        (mkReader (Some stream) (max_message_size_ r) (buffer_size r) (reading_ r), ev)
    in
    let '(r, ev') := continueReading r in (true, r, ev ++ ev').

Definition onLengthRead (length : Z) (r : LengthDelimitedMessageReader) :
    LengthDelimitedMessageReader * list reader_event :=
  if negb (reading_ r) then (r, [])
  else if length =? 0 then
    (set_reading false r, [ReaderFeedback (stream_ r) (failure (graphsync_error STREAM_NOT_READABLE))])
  else if max_message_size_ r <? length then
    (set_reading false r,
     [ReaderFeedback (stream_ r) (failure (graphsync_error MESSAGE_SIZE_OUT_OF_BOUNDS))])
  else
    (mkReader (stream_ r) (max_message_size_ r) length (reading_ r),
     match stream_ r with Some s => [ReadBytes s length] | None => [] end).

(** The callback of [readVarint]: the value of the varint, if one was read. *)
Definition onVarint (varint_opt : option Z) (r : LengthDelimitedMessageReader) :
    LengthDelimitedMessageReader * list reader_event :=
  if reading_ r then onLengthRead (default 0 varint_opt) r else (r, []).

(** [onMessageRead]: [res] is the number of bytes read, [content] the buffer.
    The buffer is moved to the owner, who may close the reader while it handles
    the message: [closed_by_owner]. *)
Definition onMessageRead (res : outcome error_code Z) (content : bytes) (closed_by_owner : bool)
    (closedR : StreamPtr → bool) (r : LengthDelimitedMessageReader) :
    LengthDelimitedMessageReader * list reader_event :=
  if negb (reading_ r) then (r, [])
  else
    let r := set_reading false r in
    match res with
    | failure e => (r, [ReaderFeedback (stream_ r) (failure e)])
    | success n =>
        if negb (buffer_size r =? n) then
          (r, [ReaderFeedback (stream_ r) (failure (graphsync_error MESSAGE_READ_ERROR))])
        else
          let ev := [ReaderFeedback (stream_ r) (success content)] in
          let r := mkReader (stream_ r) (max_message_size_ r) 0 (reading_ r) in
          if closed_by_owner then
            let '(r, ev') := reader_close closedR false r in (r, ev ++ ev')
          else
            let '(r, ev') := continueReading r in (r, ev ++ ev')
    end.

(** ** [MessageReader]

    It owns a [LengthDelimitedMessageReader], reads from the stream it is given and
    closes its reader at its end. *)
Definition new_MessageReader (closedR : StreamPtr → bool) (stream : StreamPtr) :
    LengthDelimitedMessageReader * list reader_event :=
  let '(_, r, ev) := reader_read closedR false stream (new_reader kMaxMessageSize) in (r, ev).

Definition destroy_MessageReader (closedR : StreamPtr → bool) (sole_owner : bool) (r : LengthDelimitedMessageReader) :
    LengthDelimitedMessageReader * list reader_event := reader_close closedR sole_owner r.

(** [onMessageRead]: what is passed on to [onReaderEvent].

    [None]: the owner is gone.  [thrown]: the parser's exception leaves the
    callback. *)
Definition MessageReader_onMessageRead (owner_alive : bool) (res : outcome error_code bytes) :
    option (attempt error_code (Message M)) :=
  if negb owner_alive then None
  else
    match res with
    | failure e => Some (failed e)
    | success data => Some (parseMessage data)
    end.

End marshalling.

(** ** What protobuf promises *)

Class ProtobufLaws `{Protobuf} := {
  (** The messages protobuf encodes: fields in the range of their types, UTF-8
      strings, and less than 2 GiB. *)
  encodable : pb.Message → Prop;
  serialize_parse m : encodable m →
    ∃ body, SerializeToArray m (ByteSizeLong m) = Some body ∧ size body = ByteSizeLong m ∧
            ParseFromArray body = Some m;
  map_iter_perm m : map_iter m ≡ₚ map_to_list m;
  ByteSizeLong_nonneg m : 0 ≤ ByteSizeLong m;
  (** A block takes its data, its prefix and at least one tag. *)
  ByteSizeLong_block p d m :
    ByteSizeLong m + size p + size d < ByteSizeLong (add_pb_block (pb.mkBlock p d) m);
  ByteSizeLong_response r m : ByteSizeLong m < ByteSizeLong (add_pb_response r m)
}.

Lemma mapM_returned {E A B} (f : A → attempt E B) l k :
  Forall2 (λ x y, f x = returned y) l k → mapM f l = returned k.
Proof. induction 1 as [|x y l k Hf _ IH]; [done|]. cbn. rewrite Hf. cbn. by rewrite IH. Qed.

(** *** Status codes on the wire *)

Lemma extractStatusCode_spec n s :
  extractStatusCode n = success s ↔ n = code s ∧ 10 ≤ n.
Proof.
  split; [|intros [-> ?]; by destruct s; cbn in *; try lia].
  unfold extractStatusCode. repeat case_match; intros; simplify_eq; cbn; lia.
Qed.

(** *** Extensions *)

Lemma insert_extensions_list l : NoDup (name <$> l) →
  map_to_list (insert_extensions l) ≡ₚ (λ e, (name e, ext_data e)) <$> l.
Proof.
  assert (∀ m, NoDup (name <$> l) → (∀ e, e ∈ l → m !! name e = None) →
    map_to_list (foldl insert_extension m l) ≡ₚ map_to_list m ++ ((λ e, (name e, ext_data e)) <$> l)) as Hgen.
  { induction l as [|e l IH]; intros m HN Hm; cbn; [by rewrite app_nil_r|].
    apply NoDup_cons in HN as [He HN]. unfold insert_extension at 2. rewrite (Hm e) by set_solver.
    rewrite IH; [|done|].
    - rewrite map_to_list_insert by (apply Hm; set_solver).
      rewrite <- Permutation_middle. done.
    - intros e' He'. rewrite lookup_insert_ne; [apply Hm; set_solver|].
      intros Heq. apply He. rewrite Heq. apply list_elem_of_fmap. by exists e'. }
  intros HN. unfold insert_extensions. rewrite Hgen; [|done|done]. by rewrite map_to_list_empty.
Qed.

Section roundtrip.
Context {M : Type} `{!Multiformats M, !MultiformatsLaws M, !Protobuf, !ProtobufLaws}.
Context (mh_default : M).

Lemma parse_insert_extensions l : NoDup (name <$> l) → parse_extensions (insert_extensions l) ≡ₚ l.
Proof.
  intros HN. unfold parse_extensions. rewrite map_iter_perm, insert_extensions_list by done.
  clear HN. induction l as [|[k v] l IH]; cbn; [done|]. by constructor.
Qed.

(** *** Building a message, entry by entry *)

Inductive entry :=
| E_request (request_id : RequestId) (root_cid : CID M) (selector : bytes) (extensions : list Extension)
| E_cancel (request_id : RequestId)
| E_response (request_id : RequestId) (status : ResponseStatusCode) (extensions : list Extension)
| E_block (cid : CID M) (data : bytes)
| E_complete.

Definition add_entry (b : MessageBuilder) (e : entry) : MessageBuilder :=
  match e with
  | E_request i c s x => fst (addRequest i c s x b)
  | E_cancel i => addCancelRequest i b
  | E_response i s x => addResponse i s x b
  | E_block c d => fst (addDataBlock c d b)
  | E_complete => setCompleteRequestList b
  end.

(** What a sender may send: proper CIDs, one entry per extension name, a status
    of the wire protocol, and blocks that have the hash their CID claims. *)
Definition wf_entry (e : entry) : Prop :=
  match e with
  | E_request _ c _ x => wf_cid c ∧ NoDup (name <$> x)
  | E_response _ s x => 10 ≤ code s ∧ NoDup (name <$> x)
  | E_block c d =>
      wf_cid c ∧ calculate (getType (content_address c)) d = returned (content_address c)
  | _ => True
  end.

(** What the receiver gets for an entry. *)
Definition entry_requests (e : entry) : list (Request M) :=
  match e with
  | E_request i c s x => [mkRequest i c s x 1 false]
  | E_cancel i => [mkRequest i (default_CID mh_default) [] [] 1 true]
  | _ => []
  end.
Definition entry_responses (e : entry) : list Response :=
  match e with E_response i s x => [mkResponse i s x] | _ => [] end.
Definition entry_blocks (e : entry) : list (CID M * bytes) :=
  match e with E_block c d => [(c, d)] | _ => [] end.
Definition entry_complete (e : entry) : bool := match e with E_complete => true | _ => false end.

(** Extensions are a map on the wire: they arrive in some order. *)
Definition request_equiv (r s : Request M) : Prop :=
  id r = id s ∧ root_cid r = root_cid s ∧ selector r = selector s ∧
  extensions r ≡ₚ extensions s ∧ priority r = priority s ∧ cancel r = cancel s.
Definition response_equiv (r s : Response) : Prop :=
  resp_id r = resp_id s ∧ status r = status s ∧ resp_extensions r ≡ₚ resp_extensions s.

(** The protobuf entries an entry adds. *)
Definition pb_requests (e : entry) : list pb.Request :=
  match e with
  | E_request i c s x =>
      [pb.mkRequest i (cid_prefix c ++ getHash (content_address c)) s (insert_extensions x) 1 false false]
  | E_cancel i => [pb.mkRequest i [] [] ∅ 0 true false]
  | _ => []
  end.
Definition pb_responses (e : entry) : list pb.Response :=
  match e with E_response i s x => [pb.mkResponse i (code s) (insert_extensions x)] | _ => [] end.
Definition pb_blocks (e : entry) : list pb.Block :=
  match e with E_block c d => [pb.mkBlock (cid_prefix c) d] | _ => [] end.

Lemma add_entry_pb b e : wf_entry e →
  let m := pb_msg_ b in
  pb_msg_ (add_entry b e) =
    pb.mkMessage (pb.completeRequestList m || entry_complete e) (pb.requests m ++ pb_requests e)
      (pb.responses m ++ pb_responses e) (pb.blocks m ++ pb_blocks e).
Proof.
  intros Hwf m. subst m. destruct b as [[c rq rs bl] em].
  destruct e as [i c' s x|i|i s x|c' d|]; cbn in Hwf |- *; rewrite ?orb_false_r, ?orb_true_r, ?app_nil_r; try done.
  - destruct Hwf as [Hc _]. unfold addRequest. by rewrite toBytes_wf.
  - destruct Hwf as [Hc _]. unfold addDataBlock. rewrite toBytes_wf by done.
    destruct (read_prefix c' (getHash (content_address c')) Hc) as (z & _ & _ & ->).
    cbn. unfold add_pb_block. cbn. rewrite length_app.
    replace (_ + _ - _)%nat with (length (cid_prefix c')) by lia. by rewrite take_app_length.
Qed.

Lemma add_entries_pb b es : Forall wf_entry es →
  let m := pb_msg_ b in
  pb_msg_ (foldl add_entry b es) =
    pb.mkMessage (pb.completeRequestList m || existsb entry_complete es)
      (pb.requests m ++ concat (map pb_requests es))
      (pb.responses m ++ concat (map pb_responses es)) (pb.blocks m ++ concat (map pb_blocks es)).
Proof.
  intros HF m. subst m. revert b. induction HF as [|e es He HF IH]; intros b; cbn.
  { rewrite orb_false_r, !app_nil_r. by destruct (pb_msg_ b). }
  rewrite IH, add_entry_pb by done. cbn. by rewrite <- !app_assoc, orb_assoc.
Qed.

(** *** Parsing the entries *)

Lemma parseRequest_entry e : wf_entry e →
  ∃ k, Forall2 (λ x y, parseRequest mh_default x = returned y) (pb_requests e) k ∧
       Forall2 request_equiv k (entry_requests e).
Proof.
  intros Hwf. destruct e as [i c s x|i|i s x|c d|]; cbn [pb_requests entry_requests]; try (by exists []; split).
  - destruct Hwf as [Hc HN].
    exists [mkRequest i c s (parse_extensions (insert_extensions x)) 1 false].
    split; [|constructor; [|done]].
    + constructor; [|done]. unfold parseRequest. cbn [pb.cancel pb.root].
      unfold fromBytes. pose proof (toBytes_wf c Hc) as Ht. unfold toBytes in Ht.
      destruct (codec_encode _ _ _) as [b|] eqn:Hb; [|done]. apply success_inj in Ht as <-.
      rewrite (codec_roundtrip _ _ _ _ Hb). by destruct c.
    + cbn. split_and!; try done. by apply parse_insert_extensions.
  - exists (entry_requests (E_cancel i)). split; by repeat constructor.
Qed.

Lemma parseResponse_entry e : wf_entry e →
  ∃ k, Forall2 (λ x y, parseResponse x = returned y) (pb_responses e) k ∧
       Forall2 response_equiv k (entry_responses e).
Proof.
  intros Hwf. destruct e as [i c s x|i|i s x|c d|]; cbn [pb_responses entry_responses]; try (by exists []; split).
  destruct Hwf as [Hs HN]. exists [mkResponse i s (parse_extensions (insert_extensions x))].
  split; [|constructor; [|done]].
  - constructor; [|done]. unfold parseResponse. cbn [pb.status].
    rewrite (proj2 (extractStatusCode_spec (code s) s)) by done. reflexivity.
  - cbn. split_and!; try done. by apply parse_insert_extensions.
Qed.

Lemma parseBlock_entry e : wf_entry e →
  Forall2 (λ x y, parseBlock x = returned y) (pb_blocks e) (entry_blocks e).
Proof.
  intros Hwf. destruct e as [i c s x|i|i s x|c d|]; cbn [pb_blocks entry_blocks]; try done.
  destruct Hwf as [Hc Hh]. constructor; [|done]. unfold parseBlock. cbn [pb.prefix pb.data].
  destruct (read_prefix c [] Hc) as (z & _ & Hz & Hr). rewrite app_nil_r in Hr. rewrite Hr.
  cbn [content_address]. rewrite Hz, Hh. cbn [version content_type]. by destruct c.
Qed.

Lemma Forall2_concat {A B X} (P : A → B → Prop) (f : X → list A) (g : X → list B) (es : list X) :
  Forall (λ e, Forall2 P (f e) (g e)) es → Forall2 P (concat (map f es)) (concat (map g es)).
Proof. induction 1; cbn; [done|]. by apply Forall2_app. Qed.

Lemma Forall_concat_ex {A B C X} (P : A → B → Prop) (Q : B → C → Prop) (f : X → list A) (g : X → list C)
    (es : list X) :
  Forall (λ e, ∃ k, Forall2 P (f e) k ∧ Forall2 Q k (g e)) es →
  ∃ k, Forall2 P (concat (map f es)) k ∧ Forall2 Q k (concat (map g es)).
Proof.
  induction 1 as [|e es (k & H1 & H2) _ (k' & H3 & H4)]; [by exists []|].
  exists (k ++ k'). split; cbn; by apply Forall2_app.
Qed.

(** What the body of a message built from entries parses to. *)
Lemma parse_entries es body : Forall wf_entry es →
  ParseFromArray body = Some (pb_msg_ (foldl add_entry new_MessageBuilder es)) →
  ∃ msg, parseMessage mh_default body = returned msg ∧
    complete_request_list msg = existsb entry_complete es ∧
    Forall2 request_equiv (requests msg) (concat (map entry_requests es)) ∧
    Forall2 response_equiv (responses msg) (concat (map entry_responses es)) ∧
    data msg = concat (map entry_blocks es).
Proof.
  intros HF Hp. pose proof (add_entries_pb new_MessageBuilder es HF) as Hpb. cbn in Hpb.
  destruct (Forall_concat_ex (λ x y, parseRequest mh_default x = returned y) request_equiv
    pb_requests entry_requests es) as (rq & Hrq & Hrq').
  { eapply Forall_impl; [done|]. apply parseRequest_entry. }
  destruct (Forall_concat_ex (λ x y, parseResponse x = returned y) response_equiv
    pb_responses entry_responses es) as (rs & Hrs & Hrs').
  { eapply Forall_impl; [done|]. apply parseResponse_entry. }
  exists (mkMessage (existsb entry_complete es) rq rs (concat (map entry_blocks es))).
  split_and!; try done.
  unfold parseMessage. rewrite Hp, Hpb. unfold parseRequests, parseResponses, parseBlocks.
  cbn [pb.requests pb.responses pb.blocks pb.completeRequestList].
  rewrite (mapM_returned _ _ _ Hrq). cbn [mbind attempt_bind].
  rewrite (mapM_returned _ _ _ Hrs). cbn [mbind attempt_bind].
  rewrite (mapM_returned _ _ (concat (map entry_blocks es))); [done|].
  apply Forall2_concat. eapply Forall_impl; [done|]. apply parseBlock_entry.
Qed.

(** The frame of a message that protobuf encodes. *)
Lemma frame_of m : encodable m →
  ∃ body, serializeProtobufMessage m = Some (uv_encode (size body) ++ body) ∧ size body = ByteSizeLong m ∧
    ParseFromArray body = Some m.
Proof.
  intros Henc. destruct (serialize_parse _ Henc) as (body & Hs & Hsz & Hp). exists body.
  unfold serializeProtobufMessage. by rewrite Hs, Hsz.
Qed.

(** C8: the wire format round trips.  The message a builder serializes is the
    varint of its length and a body, and parsing the body gives the requests, the
    cancels, the responses and the blocks that were added, in order, with the full
    CID of every block recomputed from its prefix and its data; extensions come
    back as a set. *)
Theorem message_roundtrip es b :
  Forall wf_entry es → b = foldl add_entry new_MessageBuilder es → encodable (pb_msg_ b) →
  ∃ body msg,
    serialize b = success (Some (uv_encode (size body) ++ body)) ∧
    parseMessage mh_default body = returned msg ∧
    complete_request_list msg = existsb entry_complete es ∧
    Forall2 request_equiv (requests msg) (concat (map entry_requests es)) ∧
    Forall2 response_equiv (responses msg) (concat (map entry_responses es)) ∧
    data msg = concat (map entry_blocks es).
Proof.
  intros HF -> Henc. destruct (frame_of _ Henc) as (body & Hs & _ & Hp).
  destruct (parse_entries es body HF Hp) as (msg & Hmsg). exists body, msg. split; [|done].
  unfold serialize. by rewrite Hs.
Qed.

(** A block whose prefix names a hash function other than SHA-256 and
    BLAKE2b-256 does not make [parseMessage] return an error: [std::out_of_range]
    leaves it, and its callers have no handler. *)
Theorem unsupported_hash_throws c d m input :
  ParseFromArray input = Some m →
  pb.requests m = [] → pb.responses m = [] → pb.blocks m = [pb.mkBlock (cid_prefix c) d] →
  wf_cid c →
  getType (content_address c) ≠ HashType_sha256 → getType (content_address c) ≠ HashType_blake2b_256 →
  MessageReader_onMessageRead mh_default true (success input) = Some thrown.
Proof.
  intros Hp Hrq Hrs Hb Hc H1 H2. unfold MessageReader_onMessageRead, parseMessage. cbn [negb].
  rewrite Hp. unfold parseRequests, parseResponses, parseBlocks. rewrite Hrq, Hrs, Hb. cbn.
  unfold parseBlock. cbn [pb.prefix pb.data].
  destruct (read_prefix c [] Hc) as (z & _ & Hz & Hr). rewrite app_nil_r in Hr. rewrite Hr.
  cbn [content_address]. rewrite Hz. unfold calculate.
  destruct (Z.eqb_spec (getType (content_address c)) HashType_sha256); [done|].
  by destruct (Z.eqb_spec (getType (content_address c)) HashType_blake2b_256).
Qed.

End roundtrip.

(** ** The reader of one stream *)

Section reader.
Context (closedR : StreamPtr → bool) (s : StreamPtr) (max : Z).

(** The libp2p operation in flight. *)
Inductive outstanding := NoOp | VarintOp | BodyOp (n : Z).

Definition op_of (ev : list reader_event) (old : outstanding) : outstanding :=
  foldl (λ o e, match e with ReadVarint _ => VarintOp | ReadBytes _ n => BodyOp n | _ => o end) old ev.

(** The runs of a reader that was started once, as [MessageReader] does: libp2p
    completes the operation in flight, or the owner closes the reader. *)
Inductive reader_run : LengthDelimitedMessageReader → outstanding → list reader_event → Prop :=
| run_start r ev :
    reader_read closedR false s (new_reader max) = (true, r, ev) → reader_run r (op_of ev NoOp) ev
| run_varint r evs v r' ev :
    reader_run r VarintOp evs → (∀ n, v = Some n → 0 ≤ n) → onVarint v r = (r', ev) →
    reader_run r' (op_of ev NoOp) (evs ++ ev)
| run_body r evs n res content closes r' ev :
    reader_run r (BodyOp n) evs → size content = n →
    onMessageRead res content closes closedR r = (r', ev) →
    reader_run r' (op_of ev NoOp) (evs ++ ev)
| run_close r o evs sole r' ev :
    reader_run r o evs → reader_close closedR sole r = (r', ev) →
    reader_run r' o (evs ++ ev).

Definition reader_inv (r : LengthDelimitedMessageReader) (o : outstanding) : Prop :=
  max_message_size_ r = max ∧ (reading_ r = true → stream_ r = Some s ∧ o ≠ NoOp) ∧
  (stream_ r = Some s ∨ stream_ r = None) ∧
  match o with BodyOp n => 0 < n ≤ max ∧ (reading_ r = true → buffer_size r = n) | _ => True end.

(** What the reader may do with a length it was given by the peer. *)
Definition event_ok (e : reader_event) : Prop :=
  match e with
  | ReadBytes _ n => 0 < n ≤ max
  | ReaderFeedback _ (success content) => 0 < size content ≤ max
  | _ => True
  end.

Lemma continueReading_spec r r' ev : continueReading r = (r', ev) → reading_ r = false →
  max_message_size_ r = max → (stream_ r = Some s ∨ stream_ r = None) →
  reader_inv r' (op_of ev NoOp) ∧ Forall event_ok ev.
Proof.
  unfold continueReading. intros Hc Hr Hm Hs. rewrite Hr in Hc.
  destruct Hs as [Hs|Hs]; rewrite Hs in Hc; simplify_eq; cbn; (split; [|by repeat constructor]).
  - split_and!; [done|done|by left|done].
  - split_and!; [done|by rewrite Hr|by right|done].
Qed.

Lemma stopped_inv r o : reading_ r = false → max_message_size_ r = max →
  (stream_ r = Some s ∨ stream_ r = None) → (∀ n, o = BodyOp n → 0 < n ≤ max) → reader_inv r o.
Proof. intros Hr Hm Hs Ho. unfold reader_inv. rewrite Hr. destruct o; naive_solver. Qed.

Lemma inv_body r o n : reader_inv r o → o = BodyOp n → 0 < n ≤ max.
Proof. intros (_ & _ & _ & Ho) ->. naive_solver. Qed.

Lemma close_spec sole r o r' ev : reader_close closedR sole r = (r', ev) → reader_inv r o →
  reader_inv r' o ∧ Forall event_ok ev ∧ op_of ev NoOp = NoOp ∧ reading_ r' = false.
Proof.
  unfold reader_close. intros Hc Hinv. pose proof Hinv as (Hm & Hr & Hs & Ho).
  destruct (stream_ r) as [s'|] eqn:Hst; simplify_eq.
  - split; [apply stopped_inv; eauto using inv_body|].
    destruct (_ && _); split_and!; by repeat constructor.
  - split_and!; try done. destruct (reading_ r') eqn:Hrd; [|done]. by destruct (Hr eq_refl).
Qed.

Lemma onVarint_spec v r r' ev : (∀ n, v = Some n → 0 ≤ n) → onVarint v r = (r', ev) →
  reader_inv r VarintOp → reader_inv r' (op_of ev NoOp) ∧ Forall event_ok ev.
Proof.
  intros Hn Hv (Hm & Hrd & Hs & _). unfold onVarint, onLengthRead in Hv.
  destruct (reading_ r) eqn:Hread; cbn [negb] in Hv.
  2: { simplify_eq. split; [by apply stopped_inv|done]. }
  destruct (Hrd eq_refl) as [Hst _].
  destruct (Z.eqb_spec (default 0 v) 0).
  { simplify_eq. split; [by apply stopped_inv|by repeat constructor]. }
  destruct (Z.ltb_spec (max_message_size_ r) (default 0 v)).
  { simplify_eq. split; [by apply stopped_inv|by repeat constructor]. }
  assert (0 < default 0 v ≤ max) as Hb.
  { destruct v as [k|]; cbn in *; [specialize (Hn k eq_refl)|]; lia. }
  rewrite Hst in Hv. simplify_eq. cbn. split; [|by constructor].
  unfold reader_inv. cbn. naive_solver.
Qed.

Lemma onMessageRead_spec res content closes n r r' ev : size content = n →
  onMessageRead res content closes closedR r = (r', ev) → reader_inv r (BodyOp n) →
  reader_inv r' (op_of ev NoOp) ∧ Forall event_ok ev.
Proof.
  intros Hc He (Hm & Hrd & Hs & Hn & Hb). unfold onMessageRead in He.
  destruct (reading_ r) eqn:Hread; cbn [negb] in He.
  2: { simplify_eq. split; [by apply stopped_inv|done]. }
  destruct res as [k|e]; [|simplify_eq; split; [by apply stopped_inv|by repeat constructor]].
  destruct (_ =? k); cbn [negb] in He; [|simplify_eq; split; [by apply stopped_inv|by repeat constructor]].
  assert (event_ok (ReaderFeedback (stream_ r) (success content))) as Hok by (cbn; lia).
  destruct closes.
  - destruct (reader_close _ _ _) as [r1 ev1] eqn:Hcl. simplify_eq.
    apply (close_spec _ _ NoOp) in Hcl as (Hinv & HF & Hop & _); [|by apply stopped_inv].
    change (op_of (_ ++ ev1) NoOp) with (op_of ev1 NoOp). rewrite Hop. split; [done|]. by constructor.
  - destruct (continueReading _) as [r1 ev1] eqn:Hcl. simplify_eq.
    apply continueReading_spec in Hcl as (Hinv & HF); [|done..]. split; [done|]. by constructor.
Qed.

Lemma reader_run_inv r o evs : reader_run r o evs → reader_inv r o ∧ Forall event_ok evs.
Proof.
  induction 1 as [r ev Hr|r evs v r' ev Hrun [Hinv HF] Hn Hv
    |r evs n res content closes r' ev Hrun [Hinv HF] Hc He|r o evs sole r' ev Hrun [Hinv HF] Hc];
    rewrite ?Forall_app.
  - unfold reader_read in Hr. destruct (closedR s); [done|]. cbn in Hr.
    rewrite bool_decide_false in Hr by done. cbn in Hr. simplify_eq. cbn. split; [unfold reader_inv; cbn; naive_solver|by repeat constructor].
  - destruct (onVarint_spec _ _ _ _ Hn Hv Hinv). done.
  - destruct (onMessageRead_spec _ _ _ _ _ _ _ Hc He Hinv). done.
  - destruct (close_spec _ _ _ _ _ Hc Hinv) as (? & ? & _). done.
Qed.

(** The size limit protects the receiver: whatever lengths the peer announces,
    in every run of a stream's reader each read it starts, and each message it
    hands to the owner, has between 1 and [max_message_size_] bytes. *)
Theorem reader_bound r o evs e :
  reader_run r o evs → e ∈ evs → event_ok e.
Proof.
  intros Hr He. apply reader_run_inv in Hr as [_ HF]. rewrite Forall_forall in HF. by apply HF.
Qed.

(** A length that is zero (or no varint) or above the limit stops the reader:
    the owner gets one error, [STREAM_NOT_READABLE] or
    [MESSAGE_SIZE_OUT_OF_BOUNDS], nothing is read any more and nothing is in
    flight. *)
Theorem reader_rejects r evs v r' ev :
  reader_run r VarintOp evs → reading_ r = true → onVarint v r = (r', ev) →
  default 0 v = 0 ∨ max < default 0 v →
  reading_ r' = false ∧ op_of ev NoOp = NoOp ∧
  ev = [ReaderFeedback (Some s) (failure (graphsync_error
          (if default 0 v =? 0 then STREAM_NOT_READABLE else MESSAGE_SIZE_OUT_OF_BOUNDS)))].
Proof.
  intros Hrun Hread Hv Hb. apply reader_run_inv in Hrun as [(Hm & Hrd & _) _].
  destruct (Hrd Hread) as [Hst _]. unfold onVarint, onLengthRead in Hv. rewrite Hread in Hv. cbn [negb] in Hv.
  rewrite Hm, Hst in Hv. destruct (Z.eqb_spec (default 0 v) 0).
  { simplify_eq. done. }
  destruct (Z.ltb_spec max (default 0 v)); [|lia]. simplify_eq. done.
Qed.

End reader.

(** ** A concrete protobuf *)

Module SamplePb.

Definition req_tuple (r : pb.Request) :=
  (pb.id r, pb.root r, pb.selector r, pb.extensions r, pb.priority r, pb.cancel r, pb.update r).
Definition resp_tuple (r : pb.Response) := (pb.resp_id r, pb.status r, pb.resp_extensions r).
Definition block_tuple (b : pb.Block) := (pb.prefix b, pb.data b).
Definition msg_tuple (m : pb.Message) :=
  (pb.completeRequestList m, map req_tuple (pb.requests m), map resp_tuple (pb.responses m),
   map block_tuple (pb.blocks m)).

Definition of_tuple (t : bool * list (Z * bytes * bytes * gmap string bytes * Z * bool * bool) *
    list (Z * Z * gmap string bytes) * list (bytes * bytes)) : pb.Message :=
  let '(c, rq, rs, bl) := t in
  pb.mkMessage c (map (λ '(i, r, s, x, p, c, u), pb.mkRequest i r s x p c u) rq)
    (map (λ '(i, s, x), pb.mkResponse i s x) rs) (map (λ '(p, d), pb.mkBlock p d) bl).

Lemma of_msg_tuple m : of_tuple (msg_tuple m) = m.
Proof.
  destruct m as [c rq rs bl]. unfold of_tuple, msg_tuple. cbn.
  rewrite !map_map. f_equal; rewrite <- map_id; apply map_ext; by intros [].
Qed.

Definition message_size (m : pb.Message) : Z :=
  foldr (λ b n, size (pb.prefix b) + size (pb.data b) + 1 + n) (1 + size (pb.responses m)) (pb.blocks m).

Lemma message_size_app m p d :
  message_size (add_pb_block (pb.mkBlock p d) m) = message_size m + size p + size d + 1.
Proof. unfold message_size. cbn. induction (pb.blocks m) as [|b l IH]; cbn; lia. Qed.

Lemma message_size_pos m : 1 ≤ message_size m.
Proof.
  unfold message_size. pose proof (size_nonneg (pb.responses m)).
  induction (pb.blocks m) as [|b l IH]; cbn; [lia|]. pose proof (size_nonneg (pb.prefix b)). pose proof (size_nonneg (pb.data b)). lia.
Qed.

(** The message as one number, padded to its size. *)
Definition to_array (m : pb.Message) : bytes :=
  Z.pos (countable.encode (msg_tuple m)) :: replicate (Z.to_nat (message_size m - 1)) 0.

Definition of_array (data : bytes) : option pb.Message :=
  match data with
  | Z.pos p :: _ => of_tuple <$> countable.decode p
  | _ => None
  end.

#[export] Instance protobuf : Protobuf := {
  ByteSizeLong := message_size;
  SerializeToArray m n := Some (to_array m);
  ParseFromArray := of_array;
  map_iter := map_to_list
}.

#[export] Instance laws : ProtobufLaws.
Proof.
  refine {| encodable _ := True |}.
  - intros m _. exists (to_array m). split; [done|]. pose proof (message_size_pos m). split.
    + unfold to_array. cbn [ByteSizeLong protobuf]. rewrite size_cons. unfold size. rewrite length_replicate. lia.
    + cbn [ParseFromArray protobuf]. unfold of_array, to_array. rewrite countable.decode_encode.
      cbn [fmap option_fmap option_map]. by rewrite of_msg_tuple.
  - done.
  - intros m. cbn. pose proof (message_size_pos m). lia.
  - intros p d m. change (message_size m + size p + size d < message_size (add_pb_block (pb.mkBlock p d) m)).
    rewrite message_size_app. lia.
  - intros r m. cbn. unfold message_size. cbn. rewrite size_app, size_cons, size_nil.
    induction (pb.blocks m) as [|b l IH]; cbn; lia.
Defined.

End SamplePb.

#[export] Existing Instances SamplePb.protobuf SamplePb.laws.

(** A request, its cancel, a response and its block. *)
Definition sample_block_cid : CID Cid.Sample.Multihash :=
  mkCID Version_V1 DAG_PB (Cid.Sample.mh HashType_sha256 (replicate 32 3)).

Definition sample_entries : list (entry (M:=Cid.Sample.Multihash)) :=
  [E_request 7 (Cid.Sample.cid_v1 5) [1; 2] [mkExtension "graphsync/response-metadata" [0xf5]];
   E_response 9 RS_FULL_CONTENT []; E_block sample_block_cid [1; 2; 3]; E_cancel 7; E_complete].

Lemma message_roundtrip_witness :
  ∃ body msg,
    parseMessage (Cid.Sample.mh 0 []) body = returned msg ∧
    data msg = [(sample_block_cid, [1; 2; 3])] ∧ complete_request_list msg = true.
Proof.
  destruct (message_roundtrip (Cid.Sample.mh 0 []) sample_entries
    (foldl add_entry new_MessageBuilder sample_entries)) as (body & msg & _ & Hp & Hc & _ & _ & Hd).
  - constructor; [|constructor; [|constructor; [|repeat constructor]]].
    + split; [apply Cid.Sample.cid_v1_wf|]. cbn. apply NoDup_singleton.
    + split; [cbn; lia|apply NoDup_nil_2].
    + split; [apply wf_v1; vm_compute; repeat split; discriminate|].
      vm_compute. reflexivity.
  - reflexivity.
  - exact I.
  - exists body, msg. split; [exact Hp|]. split; [exact Hd|exact Hc].
Defined.

(** SHA-1 *)
Definition sha1_cid : CID Cid.Sample.Multihash :=
  mkCID Version_V1 DAG_PB (Cid.Sample.mh 0x11 (replicate 20 3)).

Definition sha1_message : pb.Message :=
  pb.mkMessage false [] [] [pb.mkBlock (cid_prefix sha1_cid) [1]].

Lemma unsupported_hash_throws_witness :
  MessageReader_onMessageRead (Cid.Sample.mh 0 []) true
    (success (SamplePb.to_array sha1_message)) = Some thrown.
Proof.
  refine (unsupported_hash_throws (Cid.Sample.mh 0 []) sha1_cid [1] sha1_message
    (SamplePb.to_array sha1_message) _ eq_refl eq_refl eq_refl _ _ _).
  - cbn. rewrite countable.decode_encode. cbn [fmap option_fmap option_map]. by rewrite SamplePb.of_msg_tuple.
  - apply wf_v1; vm_compute; repeat split; discriminate.
  - vm_compute. discriminate.
  - vm_compute. discriminate.
Defined.

Definition sample_reader : LengthDelimitedMessageReader := mkReader (Some 3) 100 0 true.

Lemma sample_reader_run : reader_run (λ _, false) 3 100 sample_reader VarintOp [ReadVarint 3].
Proof. by refine (run_start _ _ _ _ [ReadVarint 3] _). Qed.

Lemma reader_bound_witness : event_ok 100 (ReadBytes 3 40).
Proof.
  refine (reader_bound (λ _, false) 3 100 (mkReader (Some 3) 100 40 true) (BodyOp 40)
    ([ReadVarint 3] ++ [ReadBytes 3 40]) _ _ _).
  - refine (run_varint _ _ _ sample_reader _ (Some 40) _ [ReadBytes 3 40] sample_reader_run _ _);
      [by intros ? [= <-]|reflexivity].
  - apply elem_of_cons. right. apply elem_of_cons. by left.
Defined.

Lemma reader_rejects_witness :
  onVarint (Some 101) sample_reader =
    (set_reading false sample_reader,
     [ReaderFeedback (Some 3) (failure (graphsync_error MESSAGE_SIZE_OUT_OF_BOUNDS))]) ∧
  reading_ (set_reading false sample_reader) = false.
Proof.
  assert (onVarint (Some 101) sample_reader = (set_reading false sample_reader,
    [ReaderFeedback (Some 3) (failure (graphsync_error MESSAGE_SIZE_OUT_OF_BOUNDS))])) as H by reflexivity.
  split; [exact H|].
  refine (proj1 (reader_rejects (λ _, false) 3 100 sample_reader _ _ _ _ sample_reader_run eq_refl H _)).
  right. cbn. lia.
Defined.
