(* ===== verification/Extension.v ===== *)
(** The graphsync extensions:
    [src/ipfs_lite/ipfs/graphsync/extension.hpp] and [impl/extension.cpp].

    The log is not modelled.  A [std::set] of CIDs is the list of its elements in
    the order of [operator<], which is libp2p's. *)
From stdpp Require Import base numbers countable list gmap strings sorting.
From S2P Require Import Prelude Bytes Cid Cbor CborDecode CborReads CborCodec Status Marshalling.

Open Scope Z_scope.

(** The characters of a string. *)
Definition chars (s : string) : bytes := (λ a, Z.of_N (Ascii.N_of_ascii a)) <$> String.list_ascii_of_string s.

Definition kResponseMetadataProtocol : string := "graphsync/response-metadata".
Definition kDontSendCidsProtocol : string := "graphsync/do-not-send-cids".

Definition link : bytes := chars "link".
Definition blockPresent : bytes := chars "blockPresent".

Section extension.
Context {M : Type} `{!Multiformats M, !TinyCborEncoder, !TinyCborParser}.

Definition ResponseMetadata : Type := list (CID M * bool).

(** *** Encoding; an exception of the encoder leaves the calls *)

Definition encodeMetadataItem (item : CID M * bool) : attempt CborEncodeError (gmap bytes CborEncodeStream) :=
  m ← at_key link (put_cid item.1) ∅;
  at_key blockPresent (put_bool item.2) m.

Definition encodeMetadataRequest : Extension := mkExtension kResponseMetadataProtocol [0xF5].

Fixpoint put_metadata (metadata : ResponseMetadata) : encoder () :=
  match metadata with
  | [] => mret tt
  | item :: metadata =>
    m ← attempted (encodeMetadataItem item);
    _ ← put_map m;
    put_metadata metadata
  end.

Definition encodeResponseMetadata (metadata : ResponseMetadata) : attempt CborEncodeError Extension :=
  l ← on list_stream (put_metadata metadata);
  encoder ← on new_CborEncodeStream (put_stream l);
  bs ← Cbor.data encoder;
  returned (mkExtension kResponseMetadataProtocol bs).

Definition encodeDontSendCids (dont_send_cids : list (CID M)) : attempt CborEncodeError Extension :=
  encoder ← on new_CborEncodeStream (put_span put_cid dont_send_cids);
  bs ← Cbor.data encoder;
  returned (mkExtension kDontSendCidsProtocol bs).

(** *** Decoding *)

Definition decodeBool_byte (byte : Z) : outcome Error bool :=
  if byte =? 0xF4 then success false
  else if byte =? 0xF5 then success true
  else failure MESSAGE_PARSE_ERROR.

Definition decodeBool (s : bytes) : outcome Error bool :=
  match s with
  | [byte] => decodeBool_byte byte
  | _ => failure MESSAGE_PARSE_ERROR
  end.

(** How the body of [try] is left before its end: with [return], or by an
    exception, which all derive from [std::exception]. *)
Inductive early_exit :=
| returns (e : Error)
| throws (e : decode_exception).

Definition call {A} (a : attempt decode_exception A) : attempt early_exit A :=
  match a with returned x => returned x | failed e => failed (throws e) | thrown => thrown end.
Definition try_ {A} (a : outcome Error A) : attempt early_exit A :=
  match a with success x => returned x | failure e => failed (returns e) end.

Definition catch_all {A} (a : attempt early_exit A) : attempt Error A :=
  match a with
  | returned x => returned x
  | failed (returns e) => failed e
  | failed (throws _) => failed MESSAGE_PARSE_ERROR
  | thrown => thrown
  end.

(** The body of the loop, on the bytes of an element. *)
Definition decode_entry (raw_ : bytes) : attempt early_exit (CID M * bool) :=
  x ← call (new_CborDecodeStream raw_);
  if negb (isMap x) then failed (returns MESSAGE_PARSE_ERROR)
  else
    '(m, _) ← call (map_ x);
    match m !! link, m !! blockPresent with
    | Some link_p, Some present_p =>
      '(cid, _) ← call (get_cid link_p);
      '(b, _) ← call (raw present_p);
      present ← try_ (decodeBool b);
      returned (cid, present)
    | _, _ => failed (returns MESSAGE_PARSE_ERROR)
    end.

Fixpoint decode_entries (n : nat) (decoder : CborDecodeStream) (pairs : ResponseMetadata) : attempt early_exit ResponseMetadata :=
  match n with
  | O => returned pairs
  | S n =>
    '(raw_, decoder) ← call (raw decoder);
    p ← decode_entry raw_;
    decode_entries n decoder (pairs ++ [p])
  end.

(** [max_pairs] is the [max_size()] of the vector. *)
Definition decodeResponseMetadata (max_pairs : Z) (extension : Extension) : attempt Error ResponseMetadata :=
  if negb (bool_decide (name extension = kResponseMetadataProtocol)) then failed MESSAGE_PARSE_ERROR
  else if bool_decide (ext_data extension = []) then returned []
  else
    catch_all (
      decoder ← call (new_CborDecodeStream (ext_data extension));
      if negb (isList decoder) then failed (returns MESSAGE_PARSE_ERROR)
      else
        '(n, decoder) ← call (listLength decoder);
        if max_pairs <? n then failed (throws length_error)
        else
          '(l, _) ← call (list_ decoder);
          decode_entries (Z.to_nat n) l []).

(** [std::set::insert]. *)
Fixpoint set_insert (less : CID M → CID M → bool) (x : CID M) (s : list (CID M)) : list (CID M) :=
  match s with
  | [] => [x]
  | y :: s' => if less x y then x :: s else if less y x then y :: set_insert less x s' else s
  end.

Definition decodeDontSendCids (less : CID M → CID M → bool) (extension : Extension) : attempt Error (list (CID M)) :=
  if negb (bool_decide (name extension = kDontSendCidsProtocol)) then failed MESSAGE_PARSE_ERROR
  else
    cids ← catch_all (
      decoder ← call (new_CborDecodeStream (ext_data extension));
      '(cids, _) ← call (get_vector get_cid decoder);
      returned cids);
    returned (foldl (λ s c, set_insert less c s) [] cids).

End extension.

(** * What the extensions are as items *)

Section items.
Context {M : Type} `{!Multiformats M}.

Fixpoint field (k : bytes) (l : list (bytes * item)) : option item :=
  match l with [] => None | (k', x) :: l => if bool_decide (k = k') then Some x else field k l end.

Definition cid_of_item (x : item) : attempt Error (CID M) :=
  match x with
  | cTag t (cBytes b) =>
    if t =? kCidTag then
      match b with
      | [] => thrown   (* the first byte of no bytes *)
      | z :: b =>
        if z =? 0 then match fromBytes b with success c => returned c | failure _ => failed MESSAGE_PARSE_ERROR end
        else failed MESSAGE_PARSE_ERROR
      end
    else failed MESSAGE_PARSE_ERROR
  | _ => failed MESSAGE_PARSE_ERROR
  end.

Definition present_of_item (x : item) : attempt Error bool :=
  match x with cBool b => returned b | _ => failed MESSAGE_PARSE_ERROR end.

Definition metadata_of_item (x : item) : attempt Error (CID M * bool) :=
  match x with
  | cMap l =>
    match field link l, field blockPresent l with
    | Some a, Some b => c ← cid_of_item a; present ← present_of_item b; returned (c, present)
    | _, _ => failed MESSAGE_PARSE_ERROR
    end
  | _ => failed MESSAGE_PARSE_ERROR
  end.

Fixpoint metadata_of_items (l : list item) : attempt Error (list (CID M * bool)) :=
  match l with
  | [] => returned []
  | x :: l => p ← metadata_of_item x; r ← metadata_of_items l; returned (p :: r)
  end.

(** The entries the decoder takes whole: no tags but those of CIDs. *)
Definition whole (x : item) : Prop := element x ∧ match x with cMap l => Forall (λ p, element p.2) l | _ => True end.

Lemma field_elem k l : NoDup l.*1 → match field k l with Some x => (k, x) ∈ l | None => k ∉ l.*1 end.
Proof.
  induction l as [|[k' x] l IH]; intros Hnd; [apply not_elem_of_nil|]. rewrite fmap_cons in *. apply NoDup_cons in Hnd as [_ Hnd]. specialize (IH Hnd).
  cbn [field fst]. case_bool_decide as Hk; [subst; left|]. destruct (field k l); [by right|]. by rewrite not_elem_of_cons.
Qed.

Lemma element_plain x : element x → plain x.
Proof. destruct x; try done. by intros [_ ?]. Qed.

Lemma encode_item_in x l : x ∈ l → size (encode_item x) ≤ size (encode_items l).
Proof.
  induction 1 as [x l|x y l _ IH]; unfold encode_items in *; cbn [flat_map]; rewrite size_app; pose proof (size_nonneg (flat_map encode_item l)); pose proof (encode_item_size x); try lia.
  pose proof (encode_item_size y). lia.
Qed.

Lemma encode_item_nonempty x : encode_item x ≠ [].
Proof. intros He. pose proof (encode_item_size x) as Hs. by rewrite He in Hs. Qed.

Lemma encode_array_size l : size (encode_items l) ≤ size (encode_item (cArray l)).
Proof. cbn [encode_item]. rewrite size_app. pose proof (size_nonneg (head 4 (size l))). unfold encode_items. lia. Qed.

Lemma encode_key_in k x l : (k, x) ∈ l → size k ≤ size (encode_item (cMap l)).
Proof.
  intros Hin. cbn [encode_item]. rewrite encode_entries, size_app. pose proof (size_nonneg (head 5 (size l))).
  assert (cText k ∈ l ≫= λ p, [cText p.1; p.2]) as Hk by (apply list_elem_of_bind; exists (k, x); split; [by left|done]).
  apply encode_item_in in Hk. cbn [encode_item] in Hk. rewrite size_app in Hk. pose proof (size_nonneg (head 3 (size k))). lia.
Qed.

Lemma present_single x b : wf_item x → encode_item x = [0xF4 + Z.b2z b] → x = cBool b.
Proof.
  intros Hx He. assert ([x] = [cBool b]) as [= ->]; [|done]. apply encode_items_inj; [by constructor|repeat constructor|].
  rewrite !encode_items_one. exact He.
Qed.

Lemma catch_bind {A B} (c : attempt early_exit A) (f : A → attempt early_exit B) :
  catch_all (c ≫= f) = (a ← catch_all c; catch_all (f a)).
Proof. destruct c as [a|[e|e]|]; done. Qed.

End items.

(** * Reading them *)

Section reading.
Context {M : Type} `{!Multiformats M, !TinyCborParser, !TinyCborParserLaws}.
Implicit Types (s : CborDecodeStream) (x : item).

(** What an item gives, and the call that reads it. *)
Definition agrees {A} (r : attempt Error A) (a : attempt decode_exception (A * CborDecodeStream)) : Prop :=
  match r with
  | returned x => ∃ s', a = returned (x, s')
  | failed e => e = MESSAGE_PARSE_ERROR ∧ ∃ e', a = failed e'
  | thrown => a = thrown
  end.

Lemma agrees_bind {A B} (r : attempt Error A) a (f : A * CborDecodeStream → attempt early_exit B) (g : A → attempt Error B) :
  agrees r a → (∀ y s', catch_all (f (y, s')) = g y) → catch_all (call a ≫= f) = (r ≫= g).
Proof.
  intros Ha Hf. rewrite catch_bind. destruct r as [x|e|]; cbn in Ha |- *.
  - destruct Ha as [s' ->]. cbn. apply Hf.
  - by destruct Ha as (-> & e' & ->).
  - by rewrite Ha.
Qed.

Lemma get_cid_at s x its r : decoder_at s (x :: its) r → 1 ≤ r < 2 ^ 32 → size (encode_item x) ≤ max_size →
  agrees (cid_of_item (M:=M) x) (get_cid s).
Proof.
  intros Hat Hr Hsz. destruct (kinds_at _ _ _ _ Hat) as (_ & _ & _ & Hv). destruct (is_tag x) eqn:Htag.
  2: { assert (get_cid (M:=M) s = failed (cbor_error INVALID_CBOR_CID)) as ->; [unfold get_cid; run; by rewrite Hv|].
    destruct x; try done; by (split; [done|eexists]). }
  destruct x as [| | | | | |t y| |]; try done.
  pose proof Hat as (p & Hp & _ & _ & Hh & _)%decoder_at_head. destruct (value_get _ _ _ _ _ _ _ _ Hp Hh) as (_ & _ & _ & _ & _ & Hgt).
  specialize (Hgt eq_refl). cbn [item_head snd] in Hgt.
  destruct (decide (t = kCidTag)) as [->|Ht].
  2: { assert (get_cid (M:=M) s = failed (cbor_error INVALID_CBOR_CID)) as ->.
    { unfold get_cid. run. rewrite Hv. cbn [negb]. run. rewrite Hgt. by rewrite (proj2 (Z.eqb_neq _ _) Ht). }
    destruct y; try (by split; [done|eexists]). cbn [cid_of_item]. rewrite (proj2 (Z.eqb_neq _ _) Ht). by split; [done|eexists]. }
  destruct (is_bytes y) eqn:Hy.
  - destruct y as [| |b| | | | | |]; try done.
    assert (size b ≤ max_size) as Hb. { cbn [encode_item] in Hsz. rewrite !size_app in Hsz. pose proof (size_nonneg (head 6 kCidTag)). pose proof (size_nonneg (head 2 (size b))). lia. }
    destruct (get_cid_run s b its r Hat Hr Hb) as (s' & _ & _ & _ & ->). cbn [cid_of_item]. change (kCidTag =? kCidTag) with true. cbv iota.
    destruct b as [|z b]; [done|]. destruct (z =? 0); cbn [negb]; [|by split; [done|eexists]]. destruct (fromBytes b); cbn; [by eexists|by split; [done|eexists]].
  - destruct (advance_cid_tag _ _ _ _ _ Hat ltac:(lia)) as (v & Hadv & Hat' & _). destruct (kinds_at _ _ _ _ Hat') as (_ & _ & Hib & _).
    rewrite Hy in Hib.
    assert (get_cid (M:=M) s = failed (cbor_error INVALID_CBOR_CID)) as ->.
    { unfold get_cid. run. rewrite Hv. cbn [negb]. run. rewrite Hgt, Z.eqb_refl. cbn [negb].
      erewrite decoder_run by (apply update_value_run; exact Hadv). run. by rewrite Hib. }
    destruct y; try done; by (split; [done|eexists]).
Qed.

Lemma present_at x : wf_item x → catch_all (try_ (decodeBool (encode_item x))) = present_of_item x.
Proof.
  intros Hx. assert ((∃ b, x = cBool b) ∨ ∀ b, x ≠ cBool b) as [[b ->]|Hn] by (destruct x; try (by right); left; by eexists); [by destruct b|].
  transitivity (failed (A:=bool) MESSAGE_PARSE_ERROR); [|destruct x; try done; by destruct (Hn b)].
  destruct (encode_item x) as [|z [|z' l]] eqn:He; [done| |done]. cbn. unfold decodeBool_byte.
  destruct (Z.eqb_spec z 0xF4) as [->|]; [by destruct (Hn false); apply present_single|].
  destruct (Z.eqb_spec z 0xF5) as [->|]; [by destruct (Hn true); apply present_single|]. done.
Qed.

Lemma decode_entry_at x : readable max_nesting x → whole x → size (encode_item x) ≤ max_size →
  catch_all (decode_entry (encode_item x)) = metadata_of_item (M:=M) x.
Proof.
  intros Hx [_ Hw] Hs. destruct (stream_on x) as (s & Hnew & Hat); [done|].
  unfold decode_entry. rewrite Hnew. cbn [call mbind attempt_bind]. destruct (kinds_at _ _ _ _ Hat) as (_ & -> & _).
  destruct (is_map x) eqn:Hm; cbn [negb]; [|by destruct x]. destruct x as [| | | | |l| | |]; try done.
  destruct (readable_map _ Hx) as [Hl _]. assert (NoDup l.*1) as Hnd by (destruct Hx as [Hwf _]; inversion Hwf; by apply canonical_NoDup).
  assert (∀ k y, (k, y) ∈ l → size k ≤ max_size ∧ size (encode_item y) ≤ max_size ∧ element y ∧ wf_item y) as Hin.
  { intros k y Hky. pose proof (encode_key_in k y l Hky). rewrite Forall_forall in Hw. rewrite Forall_forall in Hl.
    split; [lia|]. split; [|by split; [apply (Hw _ Hky)|apply (Hl _ Hky)]].
    assert (y ∈ l ≫= λ p, [cText p.1; p.2]) as Hy by (apply list_elem_of_bind; exists (k, y); split; [by right; left|done]).
    apply encode_item_in in Hy. cbn [encode_item] in Hs. rewrite encode_entries, size_app in Hs. pose proof (size_nonneg (head 5 (size l))). lia. }
  destruct (map_at s l [] UINT32_MAX Hat) as (m & s' & -> & _ & _ & _ & Hnone & Hsome); [by unfold UINT32_MAX| |].
  { apply Forall_forall. intros [k y] Hky. destruct (Hin _ _ Hky) as (? & _ & ? & _). split; [done|by apply element_plain]. }
  cbn [call mbind attempt_bind metadata_of_item].
  pose proof (field_elem link l Hnd) as Hlink. pose proof (field_elem blockPresent l Hnd) as Hpres.
  destruct (field link l) as [a|]; [|by rewrite (Hnone _ Hlink)]. destruct (Hsome _ _ Hlink) as (ea & -> & _ & Ha).
  destruct (field blockPresent l) as [b|]; [|by rewrite (Hnone _ Hpres)]. destruct (Hsome _ _ Hpres) as (eb & -> & _ & Hb).
  destruct (Hin _ _ Hlink) as (_ & Hsa & _). destruct (Hin _ _ Hpres) as (_ & _ & Heb & Hwb).
  apply agrees_bind; [by apply (get_cid_at _ _ _ _ Ha)|]. intros c s1.
  destruct (reads_raw b Heb _ _ _ Hb) as (s2 & -> & _); [done|]. cbn [call]. rewrite catch_bind. cbn [catch_all mbind attempt_bind].
  rewrite catch_bind, present_at by done. by destruct (present_of_item b).
Qed.

Lemma decode_entries_at l : Forall whole l → Forall (readable max_nesting) l → ∀ s its pairs, size (encode_items l) ≤ max_size → size l < 2 ^ 32 →
  (l ≠ [] → decoder_at s (l ++ its) (size l)) →
  catch_all (decode_entries (length l) s pairs) = (r ← metadata_of_items (M:=M) l; returned (pairs ++ r)).
Proof.
  induction 1 as [|x l Hx _ IH]; intros Hr s its pairs Hs Hlen Hat; [cbn; by rewrite app_nil_r|].
  apply Forall_cons in Hr as [Hrx Hr]. specialize (Hat ltac:(done)). rewrite size_cons in *. pose proof (size_nonneg l).
  cbn [decode_entries length]. destruct (reads_raw x (proj1 Hx) s (l ++ its) (size l + 1) Hat ltac:(lia)) as (s' & -> & Hd & _).
  cbn [call mbind attempt_bind]. replace (size l + 1 - 1) with (size l) in Hd by lia.
  unfold encode_items in Hs. cbn [flat_map] in Hs. rewrite size_app in Hs.
  pose proof (size_nonneg (encode_item x)). pose proof (size_nonneg (flat_map encode_item l)). rewrite catch_bind.
  rewrite decode_entry_at by (done || lia). cbn [metadata_of_items]. destruct (metadata_of_item x) as [p|e|]; [|done|done].
  cbn [mbind attempt_bind]. rewrite (IH Hr s' its); [|unfold encode_items; lia|lia|done].
  destruct (metadata_of_items l) as [r|e|]; [|done|done]. cbn. by rewrite <- app_assoc.
Qed.

End reading.

(** * What the extensions promise *)

Section codec.
Context {M : Type} `{!Multiformats M, !TinyCborEncoder, !TinyCborEncoderLaws, !TinyCborParser, !TinyCborParserLaws}.

Definition metadata_item (b : bytes) (present : bool) : item := cMap [(link, cid_item b); (blockPresent, cBool present)].

(** A CID whose bytes are [b]. *)
Definition cid_bytes (c : CID M) (b : bytes) : Prop := toBytes c = success b ∧ fromBytes b = success c ∧ size b < 2 ^ 62.

Lemma encodeMetadataItem_eq c b present : cid_bytes c b →
  encodeMetadataItem (c, present) = returned ((λ p, stream_of p.1 p.2) <$>
    {[link := (false, [cid_item b]); blockPresent := (false, [cBool present])]}).
Proof.
  intros (Hb & _ & Hs). unfold encodeMetadataItem, at_key. cbn [fst snd]. rewrite lookup_empty. cbn [default from_option].
  rewrite (on_adds _ _ _ (put_cid_adds c b Hb Hs)). cbn [mbind attempt_bind]. rewrite lookup_insert_ne, lookup_empty by done. cbn [default from_option].
  rewrite (on_adds _ _ _ (put_bool_adds present)). cbn [mbind attempt_bind]. done.
Qed.

Lemma metadata_entries (x y : item) : canonical_entries {[link := x; blockPresent := y]} = [(link, x); (blockPresent, y)].
Proof. vm_compute. reflexivity. Qed.

Lemma put_metadata_item c b present s : cid_bytes c b →
  (m ← attempted (encodeMetadataItem (c, present)); put_map m) s = (returned tt, extend s [metadata_item b present]).
Proof.
  intros Hc. erewrite bind_run by (unfold attempted; by rewrite (encodeMetadataItem_eq c b present Hc)).
  rewrite put_map_spec; [|intros k p; rewrite lookup_insert_Some, lookup_singleton_Some|done].
  - rewrite decide_True. { by rewrite fmap_insert, map_fmap_singleton, metadata_entries. }
    apply map_Forall_insert_2; [done|]. by apply map_Forall_singleton.
  - by intros [[<- <-]|[_ [<- <-]]].
Qed.

(** The list of metadata, as an item. *)
Definition metadata_items (md : list (CID M * bool)) (bs : list bytes) : list item :=
  zip_with (λ p b, metadata_item b p.2) md bs.

Lemma put_metadata_run md bs k s : Forall2 (λ p b, cid_bytes p.1 b) md bs → 0 ≤ count_ s < 2 ^ 64 →
  put_metadata (md ++ k) s = put_metadata k (extend s (metadata_items md bs)).
Proof.
  intros Hmd. revert s. induction Hmd as [|[c present] b md bs Hc _ IH]; intros s Hs; [cbn; by rewrite extend_nil|].
  pose proof (put_metadata_item c b present s Hc) as Hput. cbn [put_metadata app]. unfold mbind, encoder_bind in *.
  destruct (attempted (encodeMetadataItem (c, present)) s) as [[m|e|] s1]; try done. destruct (put_map m s1) as [[[]|e|] s2]; try done.
  injection Hput as ->. rewrite IH by (apply wrap_bound; lia). by rewrite extend_app.
Qed.

Lemma metadata_items_size md bs : Forall2 (λ p b, cid_bytes p.1 b) md bs → size (metadata_items md bs) = size md.
Proof. intros Hmd%Forall2_length. unfold size, metadata_items. rewrite length_zip_with. lia. Qed.

Lemma metadata_items_whole md bs : Forall2 (λ p b, cid_bytes p.1 b) md bs →
  Forall whole (metadata_items md bs) ∧ Forall (λ x, wf_item x ∧ parsable 2 x) (metadata_items md bs) ∧
  metadata_of_items (metadata_items md bs) = returned md.
Proof.
  induction 1 as [|[c present] b md bs (Hb & Hf & Hs) _ (Hw & Hr & IH)]; [done|]. cbn [metadata_items zip_with snd].
  split_and!.
  - constructor; [|done]. split; [done|]. by repeat constructor.
  - constructor; [|done]. unfold metadata_item, cid_item. split.
    + apply wf_map; [done|repeat constructor; vm_compute; done|repeat constructor; vm_compute; done|].
      apply Forall_cons_2; [cbn [snd]|apply Forall_cons_2; [cbn [snd]; constructor|apply Forall_nil_2]].
      constructor; [done|]. constructor. rewrite size_cons. pose proof (size_nonneg b). lia.
    + constructor; [done|]. apply Forall_cons_2; [cbn [snd]; apply parsable_tag, (parsable_leaf 0); done|].
      apply Forall_cons_2; [cbn [snd]; by apply parsable_leaf|apply Forall_nil_2].
  - cbn [metadata_of_items metadata_of_item metadata_item field]. rewrite bool_decide_true by done. rewrite bool_decide_false, bool_decide_true by done.
    cbn [cid_of_item cid_item]. change (kCidTag =? kCidTag) with true. change (0 =? 0) with true. cbv iota. rewrite Hf. cbn [mbind attempt_bind present_of_item].
    unfold metadata_items in IH. by rewrite IH.
Qed.

Lemma decode_array max_pairs l : readable max_nesting (cArray l) → Forall whole l → size (encode_item (cArray l)) ≤ max_size →
  decodeResponseMetadata max_pairs (mkExtension kResponseMetadataProtocol (encode_item (cArray l))) =
    if max_pairs <? size l then failed MESSAGE_PARSE_ERROR else metadata_of_items (M:=M) l.
Proof.
  intros Hr Hw Hs. destruct (stream_on (cArray l)) as (s & Hnew & Hat); [done|].
  unfold decodeResponseMetadata. cbn [name ext_data]. rewrite bool_decide_true by done. cbn [negb]. rewrite bool_decide_false by apply encode_item_nonempty.
  rewrite Hnew. cbn [call mbind attempt_bind]. destruct (kind_at _ _ _ _ Hat) as (_ & _ & _ & _ & _ & _ & -> & _).
  change (negb (4 =? 4)) with false. cbv iota. rewrite (listLength_at _ _ _ _ Hat). cbn [call mbind attempt_bind].
  destruct (max_pairs <? size l); [done|]. destruct (list_at s l [] UINT32_MAX Hat) as (sub & s' & -> & [_ Hin] & _); [by unfold UINT32_MAX|].
  destruct (readable_array _ Hr) as [Hl Hsz]. pose proof (encode_array_size l). cbn [call mbind attempt_bind].
  unfold size at 1. rewrite Nat2Z.id.
  rewrite (decode_entries_at l Hw Hl sub [] []); [by destruct (metadata_of_items l)|lia|lia|by destruct l].
Qed.

(** Decoded metadata.  An extension of another name is [MESSAGE_PARSE_ERROR];
    no data is no metadata; any item but an array is the error; an array gives, in
    order, the CID at ["link"] and the flag at ["blockPresent"] of each of its maps,
    whatever else these hold, and the error as soon as an element is not a map, misses
    a field, has something else in it or a CID that does not parse.  An element
    with an empty byte string tagged as a CID is undefined, not an error. *)
Theorem metadata_decoded max_pairs :
  (∀ n d, n ≠ kResponseMetadataProtocol → decodeResponseMetadata (M:=M) max_pairs (mkExtension n d) = failed MESSAGE_PARSE_ERROR) ∧
  decodeResponseMetadata (M:=M) max_pairs (mkExtension kResponseMetadataProtocol []) = returned [] ∧
  ∀ x, readable max_nesting x → size (encode_item x) ≤ max_size →
    let decoded := decodeResponseMetadata max_pairs (mkExtension kResponseMetadataProtocol (encode_item x)) in
    match x with
    | cArray l => Forall whole l → decoded = if max_pairs <? size l then failed MESSAGE_PARSE_ERROR else metadata_of_items (M:=M) l
    | _ => decoded = failed MESSAGE_PARSE_ERROR
    end.
Proof.
  split; [|split; [done|]].
  - intros n d Hn. unfold decodeResponseMetadata. cbn [name]. by rewrite bool_decide_false.
  - intros x Hx Hs decoded. destruct (is_array x) eqn:Ha.
    { destruct x; try done. intros Hw. by apply decode_array. }
    assert (decoded = failed MESSAGE_PARSE_ERROR) as ->; [|by destruct x].
    destruct (stream_on x) as (s & Hnew & Hat); [done|].
    unfold decoded, decodeResponseMetadata. cbn [name ext_data]. rewrite bool_decide_true by done. cbn [negb]. rewrite bool_decide_false by apply encode_item_nonempty.
    rewrite Hnew. cbn [call mbind attempt_bind].
    destruct (kinds_at _ _ _ _ Hat) as (-> & _). by rewrite Ha.
Qed.

(** C13: metadata comes back.  Any list of CIDs that have bytes, with its flags, is
    encoded to one CBOR array and decoded from it as it was; with a CID that has
    no bytes the encoder's exception leaves [encodeResponseMetadata]. *)
Theorem metadata_roundtrip max_pairs md : Forall (λ p, ∃ b, cid_bytes p.1 b) md → size md < 2 ^ 31 →
  (∃ d, encodeResponseMetadata md = returned (mkExtension kResponseMetadataProtocol d) ∧
    (size d ≤ max_size → size md ≤ max_pairs →
      decodeResponseMetadata max_pairs (mkExtension kResponseMetadataProtocol d) = returned md)) ∧
  ∀ (c : CID M) present md' e, toBytes c = failure e → encodeResponseMetadata (md ++ (c, present) :: md') = failed INVALID_CID_.
Proof.
  intros Hmd Hs. assert (∃ bs, Forall2 (λ p b, cid_bytes p.1 b) md bs) as [bs Hbs].
  { clear Hs. induction Hmd as [|p md [b Hb] _ [bs Hbs]]; [by exists []|]. exists (b :: bs). by constructor. }
  destruct (metadata_items_whole md bs Hbs) as (Hw & Hr & Hof). pose proof (metadata_items_size md bs Hbs) as Hsz.
  pose proof (λ k, put_metadata_run md bs k list_stream Hbs ltac:(cbn; lia)) as Hrun. split.
  - exists (encode_item (cArray (metadata_items md bs))). split.
    + unfold encodeResponseMetadata. pose proof (Hrun []) as Hrun0. rewrite app_nil_r in Hrun0.
      assert (on list_stream (put_metadata md) = returned (extend list_stream (metadata_items md bs))) as -> by (unfold on; by rewrite Hrun0).
      cbn [mbind attempt_bind].
      change (extend list_stream (metadata_items md bs)) with (stream_of true (metadata_items md bs)).
      rewrite (on_adds _ _ _ (put_stream_adds true (metadata_items md bs) ltac:(lia))). cbn [mbind attempt_bind content].
      change (extend new_CborEncodeStream [cArray (metadata_items md bs)]) with (stream_of false [cArray (metadata_items md bs)]).
      rewrite data_stream_of by done. cbn [mbind attempt_bind content]. by rewrite encode_items_one.
    + intros Hd Hmax. rewrite decode_array; [|split|done|done].
      * rewrite Hsz, (proj2 (Z.ltb_ge _ _)) by lia. done.
      * apply wf_array; [lia|]. eapply Forall_impl; [exact Hr|]. by intros ? [? _].
      * pose proof max_nesting_ok. apply (parsable_le 3); [|lia]. apply parsable_array; [lia|]. eapply Forall_impl; [exact Hr|]. by intros ? [_ ?].
  - intros c present md' e He. unfold encodeResponseMetadata.
    assert (on list_stream (put_metadata (md ++ (c, present) :: md')) = failed INVALID_CID_) as ->; [|done]. unfold on. rewrite Hrun. cbn [put_metadata].
    assert (encodeMetadataItem (c, present) = failed INVALID_CID_) as ->; [|done].
    unfold encodeMetadataItem, at_key, on, put_cid. cbn [fst]. by rewrite He.
Qed.

(** [std::set::insert] under a strict total order. *)
Lemma set_insert_spec (less : CID M → CID M → bool) x s :
  Transitive (λ a b, less a b = true) → (∀ a b, a = b ∨ less a b = true ∨ less b a = true) → StronglySorted (λ a b, less a b = true) s →
  StronglySorted (λ a b, less a b = true) (set_insert less x s) ∧ ∀ c, c ∈ set_insert less x s ↔ c = x ∨ c ∈ s.
Proof.
  intros Htr Htot. induction 1 as [|y s Hs [IHs IHe] Hy]; cbn [set_insert].
  { split; [repeat constructor|]. intros c. rewrite list_elem_of_singleton, elem_of_nil. tauto. }
  destruct (less x y) eqn:Hxy.
  { split; [|intros c; by rewrite elem_of_cons]. constructor; [by constructor|]. constructor; [done|].
    eapply Forall_impl; [exact Hy|]. intros z Hz. by apply (Htr x y z). }
  destruct (less y x) eqn:Hyx.
  - split; [|intros c; rewrite !elem_of_cons, IHe; tauto]. constructor; [done|]. apply Forall_forall. intros c Hc%IHe.
    rewrite Forall_forall in Hy. destruct Hc as [->|Hc]; [done|by apply Hy].
  - destruct (Htot x y) as [->|[|]]; [|congruence..]. split; [by constructor|]. intros c. rewrite elem_of_cons. tauto.
Qed.

(** The CIDs not to send.  Any list of CIDs that have bytes comes back as a set:
    in the order of [operator<], each once.  Another extension is
    [MESSAGE_PARSE_ERROR], but any data that is not an array is undefined, since its
    length is asked for first. *)
Theorem dont_send_cids (less : CID M → CID M → bool) :
  Transitive (λ a b, less a b = true) → (∀ a b, a = b ∨ less a b = true ∨ less b a = true) →
  (∀ l, Forall (λ c, ∃ b, cid_bytes c b) l → size l < 2 ^ 31 → ∃ d s, encodeDontSendCids l = returned (mkExtension kDontSendCidsProtocol d) ∧
    decodeDontSendCids less (mkExtension kDontSendCidsProtocol d) = returned s ∧
    StronglySorted (λ a b, less a b = true) s ∧ ∀ c, c ∈ s ↔ c ∈ l) ∧
  (∀ n d, n ≠ kDontSendCidsProtocol → decodeDontSendCids less (mkExtension n d) = failed MESSAGE_PARSE_ERROR) ∧
  (∀ x, readable max_nesting x → match x with cArray _ => False | _ => True end →
    decodeDontSendCids less (mkExtension kDontSendCidsProtocol (encode_item x)) = thrown).
Proof.
  intros Htr Htot. split; [|split].
  - intros l Hl Hs. assert (valid_ty (tVector tCid) l) as Hv by done. set (x := denote_ty (tVector tCid) l).
    destruct (readable_ty (tVector tCid) l Hv) as [Hw Hp]. exists (encode_item x), (foldl (λ s c, set_insert less c s) [] l). split; [|split].
    + unfold encodeDontSendCids. change (put_span put_cid l) with (put_ty (tVector tCid) l). rewrite (on_adds _ _ _ (denotes_ty (tVector tCid) l Hv)).
      cbn [mbind attempt_bind]. change (extend new_CborEncodeStream [denote_ty (tVector tCid) l]) with (stream_of false [x]).
      rewrite data_stream_of by done. cbn [mbind attempt_bind content]. by rewrite encode_items_one.
    + destruct (stream_on x) as (s & Hnew & Hat).
      { split; [exact Hw|]. eapply parsable_le; [exact Hp|]. pose proof max_nesting_ok. cbn. lia. }
      destruct (reads_ty (tVector tCid) l Hv s [] UINT32_MAX Hat ltac:(by unfold UINT32_MAX)) as (s' & Hg & _).
      unfold decodeDontSendCids. cbn [name ext_data]. rewrite bool_decide_true by done. cbn [negb]. rewrite Hnew. cbn [call mbind attempt_bind].
      change (get_vector get_cid s) with (get_ty (tVector tCid) s). by rewrite Hg.
    + assert (∀ acc, StronglySorted (λ a b, less a b = true) acc → let s := foldl (λ s c, set_insert less c s) acc l in
        StronglySorted (λ a b, less a b = true) s ∧ ∀ c, c ∈ s ↔ c ∈ l ∨ c ∈ acc) as Hgo.
      { clear -Htr Htot. induction l as [|c l IH]; intros acc Hacc; cbn [foldl]; [split; [done|]; intros c; rewrite elem_of_nil; tauto|].
        destruct (set_insert_spec less c acc Htr Htot Hacc) as [Hs He]. destruct (IH _ Hs) as [Hs' He']. split; [done|].
        intros c'. rewrite He', He, elem_of_cons. tauto. }
      destruct (Hgo [] ltac:(constructor)) as [Hsrt Hel]. split; [done|]. intros c. rewrite Hel, elem_of_nil. tauto.
  - intros n d Hn. unfold decodeDontSendCids. cbn [name]. by rewrite bool_decide_false.
  - intros x Hx Ha. destruct (stream_on x) as (s & Hnew & Hat); [done|].
    unfold decodeDontSendCids. cbn [name ext_data]. rewrite bool_decide_true by done. cbn [negb]. rewrite Hnew. cbn [call mbind attempt_bind].
    destruct (kinds_at _ _ _ _ Hat) as (Hl & _). unfold get_vector, listLength, mbind, decoder_bind, observe. rewrite Hl. by destruct x.
Qed.

End codec.

(** * Concrete extensions *)

Module SampleExtension.

Abbreviation cid := (CID Sample.Multihash).

Definition cid_a : cid := Sample.cid_v1 5.
Definition cid_b : cid := Sample.cid_v1 9.
Definition bytes_of (c : cid) : bytes := match toBytes c with success b => b | failure _ => [] end.

(** An order of CIDs. *)
Definition key (c : cid) : bytes := [version c; content_type c; (proj1_sig (content_address c)).1] ++ (proj1_sig (content_address c)).2.
Definition less (a b : cid) : bool := bytes_less (key a) (key b).

Lemma key_inj a b : key a = key b → a = b.
Proof.
  destruct a as [v t m], b as [v' t' m']. unfold key. cbn. intros [= -> -> Ht Hh]. f_equal. apply Sample.mh_eq.
  destruct (proj1_sig m), (proj1_sig m'). cbn in *. by subst.
Qed.

Lemma less_total a b : a = b ∨ less a b = true ∨ less b a = true.
Proof.
  destruct (decide (key a = key b)) as [Hk|Hk]; [left; by apply key_inj|right]. unfold less.
  destruct (bytes_less (key a) (key b)) eqn:Hl; [by left|right]. by apply bytes_less_total.
Qed.

Lemma less_trans : Transitive (λ a b, less a b = true).
Proof. intros a b c. apply bytes_less_trans. Qed.

Lemma cids_bytes : cid_bytes cid_a (bytes_of cid_a) ∧ cid_bytes cid_b (bytes_of cid_b).
Proof. vm_compute. done. Qed.

End SampleExtension.

(** No elements are no metadata, as in [extensions_test.cpp]; the data of a request for
    metadata, an empty element and a break are refused. *)
Example decode_metadata_vectors :
  let e d := mkExtension kResponseMetadataProtocol d in
  decodeResponseMetadata (M:=Sample.Multihash) 1000 (e [0xF5]) = failed MESSAGE_PARSE_ERROR ∧
  decodeResponseMetadata (M:=Sample.Multihash) 1000 (e [0x80]) = returned [] ∧
  decodeResponseMetadata (M:=Sample.Multihash) 1000 (e [0x81; 0xA0]) = failed MESSAGE_PARSE_ERROR ∧
  decodeResponseMetadata (M:=Sample.Multihash) 1000 (e [0xFF]) = failed MESSAGE_PARSE_ERROR.
Proof. vm_compute. done. Qed.

Lemma metadata_roundtrip_witness :
  ∃ d, encodeResponseMetadata [(SampleExtension.cid_a, true); (SampleExtension.cid_b, false)] =
      returned (mkExtension kResponseMetadataProtocol d) ∧
    (size d ≤ max_size → 2 ≤ 1000 → decodeResponseMetadata 1000 (mkExtension kResponseMetadataProtocol d) =
      returned [(SampleExtension.cid_a, true); (SampleExtension.cid_b, false)]).
Proof.
  apply (metadata_roundtrip 1000 [(SampleExtension.cid_a, true); (SampleExtension.cid_b, false)]).
  - constructor; [exists (SampleExtension.bytes_of SampleExtension.cid_a); apply SampleExtension.cids_bytes|].
    constructor; [exists (SampleExtension.bytes_of SampleExtension.cid_b); apply SampleExtension.cids_bytes|constructor].
  - vm_compute. reflexivity.
Defined.

Lemma dont_send_cids_witness :
  ∃ d s, encodeDontSendCids [SampleExtension.cid_b; SampleExtension.cid_a; SampleExtension.cid_b] =
      returned (mkExtension kDontSendCidsProtocol d) ∧
    decodeDontSendCids SampleExtension.less (mkExtension kDontSendCidsProtocol d) = returned s ∧
    StronglySorted (λ a b, SampleExtension.less a b = true) s ∧
    ∀ c, c ∈ s ↔ c ∈ [SampleExtension.cid_b; SampleExtension.cid_a; SampleExtension.cid_b].
Proof.
  apply (dont_send_cids SampleExtension.less SampleExtension.less_trans SampleExtension.less_total).
  - destruct SampleExtension.cids_bytes. repeat constructor; eexists; eassumption.
  - vm_compute. reflexivity.
Defined.
