(* ===== verification/InboundEndpoint.v ===== *)
(** Responses to a peer: [InboundEndpoint],
    [src/ipfs_lite/ipfs/graphsync/impl/network/inbound_endpoint.cpp].

    The endpoint is its response builder and the queue of its stream.  An
    operation returns its result, the builder, the queue and the queue's events;
    the mutex of the source makes the operations atomic. *)
From stdpp Require Import base numbers list gmap.
From S2P Require Import Prelude Cid Status MessageQueue Marshalling.

Open Scope Z_scope.

Section endpoint.
Context {M : Type} `{!Multiformats M, !Protobuf}.
Context (closedW : StreamPtr → bool).

(** The common body of [sendResponse] and [sendPartialResponse]. *)
Definition send (request_id : RequestId) (status : ResponseStatusCode) (extensions : list Extension)
    (b : MessageBuilder) (q : MessageQueue) :
    outcome Error unit * MessageBuilder * MessageQueue * list queue_event :=
  let b := addResponse request_id status extensions b in
  let res := serialize b in
  let b := builder_clear b in
  match res with
  | failure e => (failure e, b, q, [])
  | success data =>
      if kMaxPendingBytes <? pending_bytes (state_ q) then (failure WRITE_QUEUE_OVERFLOW, b, q, [])
      else let '(q, ev) := queue_enqueue closedW data q in (success tt, b, q, ev)
  end.

Definition endpoint_sendResponse (request_id : RequestId) (status : ResponseStatusCode)
    (extensions : list Extension) (b : MessageBuilder) (q : MessageQueue) :
    outcome Error unit * MessageBuilder * MessageQueue * list queue_event :=
  send request_id status extensions b q.

Definition sendPartialResponse (request_id : RequestId) (b : MessageBuilder) (q : MessageQueue) :
    outcome Error unit * MessageBuilder * MessageQueue * list queue_event :=
  send request_id RS_PARTIAL_CONTENT [] b q.

(** [addBlockToResponse]; a CID without bytes throws. *)
Definition endpoint_addBlockToResponse (request_id : RequestId) (cid : CID M) (data : bytes)
    (b : MessageBuilder) (q : MessageQueue) :
    attempt Error unit * MessageBuilder * MessageQueue * list queue_event :=
  let serialized_size := getSerializedSize b in
  if kMaxPendingBytes <? u64 (pending_bytes (state_ q) + serialized_size + size data) then
    (failed WRITE_QUEUE_OVERFLOW, b, q, [])
  else
    let '(res, b, q, ev) :=
      if kMaxMessageSize <? u64 (serialized_size + size data) then sendPartialResponse request_id b q
      else (success tt, b, q, []) in
    match res with
    | failure e => (failed e, b, q, ev)
    | success _ =>
        let '(b, res) := addDataBlock cid data b in (res, b, q, ev)
    end.

End endpoint.

(** ** The properties *)

Section properties.
Context {M : Type} `{!Multiformats M, !MultiformatsLaws M, !Protobuf, !ProtobufLaws}.
Context (closedW : StreamPtr → bool) (s : StreamPtr).

(** A queue in use on an open stream. *)
Definition usable (q : MessageQueue) : Prop :=
  active (state_ q) = true ∧ stream (state_ q) = Some s ∧ closedW s = false ∧
  (writing_bytes (state_ q) ≤ 0 → pending_buffers_ q = []).

(** What leaves and what waits, when one more message is enqueued. *)
Lemma queue_enqueue_app q d q' ev : usable q → 0 < size d →
  queue_enqueue closedW (Some d) q = (q', ev) →
  usable q' ∧ writes ev ++ pending_buffers_ q' = pending_buffers_ q ++ [d].
Proof.
  intros (Ha & Hs & Ho & Hp) Hd He. unfold queue_enqueue in He. rewrite Ha, orb_false_r in He.
  destruct (Z.eqb_spec (size d) 0); [lia|]. destruct (Z.ltb_spec 0 (writing_bytes (state_ q))).
  - simplify_eq. split; [|done]. unfold usable. cbn. split_and!; [done..|intros; lia].
  - unfold beginWrite in He. rewrite Hs, Ho in He. simplify_eq. split; [|by cbn; rewrite Hp by lia].
    unfold usable. cbn. split_and!; [done..|intros; lia].
Qed.

(** The bytes of a message on the wire. *)
Definition wire (m : pb.Message) (d : bytes) : Prop := serializeProtobufMessage m = Some d.

Lemma wire_pos m d : wire m d → 0 < size d.
Proof.
  unfold wire, serializeProtobufMessage. destruct (SerializeToArray _ _) as [body|]; [|done].
  intros [= <-]. pose proof (size_nonneg body). rewrite size_app.
  destruct (uv_encode (ByteSizeLong m)) as [|x l] eqn:He; [by apply uv_encode_nonempty in He|].
  rewrite size_cons. pose proof (size_nonneg l). lia.
Qed.

Lemma send_spec rid st x b q b' q' ev :
  usable q → send closedW rid st x b q = (success tt, b', q', ev) →
  b' = new_MessageBuilder ∧ usable q' ∧
  ∃ d, wire (pb_msg_ (addResponse rid st x b)) d ∧
       writes ev ++ pending_buffers_ q' = pending_buffers_ q ++ [d].
Proof.
  intros Hq He. unfold send, serialize in He.
  destruct (serializeProtobufMessage _) as [d|] eqn:Hd; [|done].
  destruct (_ <? _); [done|]. destruct (queue_enqueue _ _ _) as [q1 ev1] eqn:Hen. simplify_eq.
  apply queue_enqueue_app in Hen as [? ?]; [|done|by eapply wire_pos].
  split; [done|]. split; [done|]. by exists d.
Qed.

(** *** A response of many blocks *)

(** Add the blocks in order, then send the response: the results, the final
    builder and queue, and the events. *)
Fixpoint respond (rid : RequestId) (blocks : list (CID M * bytes)) (st : ResponseStatusCode)
    (x : list Extension) (b : MessageBuilder) (q : MessageQueue) :
    bool * MessageBuilder * MessageQueue * list queue_event :=
  match blocks with
  | [] =>
      let '(res, b, q, ev) := endpoint_sendResponse closedW rid st x b q in (is_success res, b, q, ev)
  | (c, d) :: rest =>
      let '(res, b, q, ev) := endpoint_addBlockToResponse closedW rid c d b q in
      match res with
      | returned _ =>
          let '(ok, b, q, ev') := respond rid rest st x b q in (ok, b, q, ev ++ ev')
      | _ => (false, b, q, ev)
      end
  end.

Definition pb_block (c : CID M) (d : bytes) : pb.Block := pb.mkBlock (cid_prefix c) d.

Lemma addDataBlock_wf c d b : wf_cid c →
  addDataBlock c d b =
    (mkMessageBuilder (add_pb_block (pb_block c d) (pb_msg_ b)) false, returned tt).
Proof.
  intros Hc. unfold addDataBlock. rewrite toBytes_wf by done.
  destruct (read_prefix c (getHash (content_address c)) Hc) as (z & _ & _ & ->).
  rewrite length_app. replace (_ + _ - _)%nat with (length (cid_prefix c)) by lia.
  by rewrite take_app_length.
Qed.

Lemma addBlock_spec rid c d b q b' q' ev :
  usable q → wf_cid c →
  endpoint_addBlockToResponse closedW rid c d b q = (returned tt, b', q', ev) →
  usable q' ∧
  ∃ ms ds, Forall2 wire ms ds ∧ writes ev ++ pending_buffers_ q' = pending_buffers_ q ++ ds ∧
    concat (map pb.blocks ms) ++ pb.blocks (pb_msg_ b') = pb.blocks (pb_msg_ b) ++ [pb_block c d].
Proof.
  intros Hq Hc He. unfold endpoint_addBlockToResponse in He.
  destruct (_ <? _); [done|].
  destruct (_ <? _).
  - destruct (sendPartialResponse closedW rid b q) as [[[r b1] q1] ev1] eqn:Hs.
    destruct r as [[]|]; [|done]. rewrite addDataBlock_wf in He by done. simplify_eq.
    apply send_spec in Hs as (-> & Hq' & dd & Hw & Happ); [|done..]. split; [done|].
    exists [pb_msg_ (addResponse rid RS_PARTIAL_CONTENT [] b)], [dd]. split; [by repeat constructor|].
    split; [done|]. cbn. by rewrite app_nil_r.
  - rewrite addDataBlock_wf in He by done. simplify_eq. split; [done|]. exists [], []. split; [constructor|].
    cbn. by rewrite app_nil_r.
Qed.

(** C20: no block of a response is lost or reordered.  However the endpoint
    splits the blocks into messages to respect [kMaxMessageSize], when every call
    succeeds the messages handed to the queue, in order, carry exactly the blocks
    that were added (after those the builder already had), each with its CID's
    prefix, and the builder is left empty. *)
Theorem response_blocks_complete rid blocks st x b q b' q' ev :
  usable q → Forall (λ '(c, _), wf_cid c) blocks →
  respond rid blocks st x b q = (true, b', q', ev) →
  b' = new_MessageBuilder ∧ usable q' ∧
  ∃ ms ds, Forall2 wire ms ds ∧ writes ev ++ pending_buffers_ q' = pending_buffers_ q ++ ds ∧
    concat (map pb.blocks ms) = pb.blocks (pb_msg_ b) ++ map (λ '(c, d), pb_block c d) blocks.
Proof.
  intros Hq HF. revert b q b' q' ev Hq.
  induction HF as [|[c d] blocks Hc HF IH]; intros b q b' q' ev Hq He; cbn [respond] in He.
  - destruct (endpoint_sendResponse _ _ _ _ _ _) as [[[r b1] q1] ev1] eqn:Hs.
    destruct r as [[]|]; cbn in He; [|done]. simplify_eq.
    apply send_spec in Hs as (-> & Hq' & dd & Hw & Happ); [|done..]. split; [done|]. split; [done|].
    exists [pb_msg_ (addResponse rid st x b)], [dd]. split; [by repeat constructor|]. split; [done|].
    cbn. by rewrite !app_nil_r.
  - destruct (endpoint_addBlockToResponse _ _ _ _ _ _) as [[[r b1] q1] ev1] eqn:Hs.
    destruct r as [[]| |]; [|done..]. destruct (respond rid blocks st x b1 q1) as [[[ok b2] q2] ev2] eqn:Hr.
    simplify_eq. apply addBlock_spec in Hs as (Hq1 & ms & ds & Hms & Happ & Hbl); [|done..].
    apply IH in Hr as (-> & Hq2 & ms' & ds' & Hms' & Happ' & Hbl'); [|done].
    split; [done|]. split; [done|]. exists (ms ++ ms'), (ds ++ ds'). split; [by apply Forall2_app|].
    rewrite writes_app, <- app_assoc, Happ', app_assoc, Happ, <- app_assoc. split; [done|].
    rewrite map_app, concat_app, Hbl', app_assoc, Hbl, <- app_assoc. done.
Qed.

(** An endpoint on an open stream only writes to it. *)
Lemma queue_enqueue_writes q d q' ev : usable q → queue_enqueue closedW (Some d) q = (q', ev) → ev = Write s <$> writes ev.
Proof.
  intros (_ & Hs & Ho & _) He. unfold queue_enqueue in He. destruct (_ || _); [by simplify_eq|].
  destruct (_ <? _); [by simplify_eq|]. unfold beginWrite in He. rewrite Hs, Ho in He. by simplify_eq.
Qed.

Lemma send_writes rid st x b q r b' q' ev : usable q → send closedW rid st x b q = (r, b', q', ev) → ev = Write s <$> writes ev.
Proof.
  intros Hq He. unfold send, serialize in He. destruct (serializeProtobufMessage _) as [d|]; [|by simplify_eq].
  destruct (_ <? _); [by simplify_eq|]. destruct (queue_enqueue _ _ _) as [q1 ev1] eqn:Hen. simplify_eq.
  by apply queue_enqueue_writes in Hen.
Qed.

Lemma addBlock_writes rid c d b q r b' q' ev : usable q →
  endpoint_addBlockToResponse closedW rid c d b q = (r, b', q', ev) → ev = Write s <$> writes ev.
Proof.
  intros Hq He. unfold endpoint_addBlockToResponse in He. destruct (_ <? _); [by simplify_eq|].
  destruct (_ <? _).
  - destruct (sendPartialResponse closedW rid b q) as [[[r1 b1] q1] ev1] eqn:Hs. apply send_writes in Hs; [|done].
    destruct r1; [destruct (addDataBlock _ _ _)|]; by simplify_eq.
  - destruct (addDataBlock _ _ _). by simplify_eq.
Qed.

(** *** The messages of a response *)

(** A message: its blocks, and the status and the extensions behind them. *)
Abbreviation part := (list (CID M * bytes) * ResponseStatusCode * list Extension)%type.

Definition block_entries (blocks : list (CID M * bytes)) : list entry := (λ '(c, d), E_block c d) <$> blocks.
Definition block_builder (blocks : list (CID M * bytes)) : MessageBuilder :=
  foldl add_entry new_MessageBuilder (block_entries blocks).

Definition part_entries (rid : RequestId) (m : part) : list entry :=
  block_entries m.1.1 ++ [E_response rid m.1.2 m.2].
Definition part_message (rid : RequestId) (m : part) : pb.Message :=
  pb_msg_ (foldl add_entry new_MessageBuilder (part_entries rid m)).

(** A response sent in parts: all but the last say [RS_PARTIAL_CONTENT]. *)
Definition parts (gs : list (list (CID M * bytes))) (last : list (CID M * bytes)) (st : ResponseStatusCode)
    (x : list Extension) : list part :=
  ((λ g, (g, RS_PARTIAL_CONTENT, [])) <$> gs) ++ [(last, st, x)].

Lemma part_message_eq rid blocks st x :
  part_message rid (blocks, st, x) = pb_msg_ (addResponse rid st x (block_builder blocks)).
Proof. unfold part_message, part_entries. by rewrite foldl_app. Qed.

Lemma block_builder_snoc blocks c d : block_builder (blocks ++ [(c, d)]) = (addDataBlock c d (block_builder blocks)).1.
Proof. unfold block_builder, block_entries. by rewrite fmap_app, foldl_app. Qed.

(** A builder grows with its blocks. *)
Lemma builder_grows blocks : Forall (λ '(c, _), wf_cid c) blocks → ∀ g,
  getSerializedSize (block_builder g) ≤ getSerializedSize (block_builder (g ++ blocks)).
Proof.
  induction 1 as [|[c d] blocks Hc _ IH]; intros g; [by rewrite app_nil_r|].
  specialize (IH (g ++ [(c, d)])). rewrite <- app_assoc in IH. etransitivity; [|exact IH].
  rewrite block_builder_snoc, addDataBlock_wf by done. unfold getSerializedSize. cbn [fst pb_msg_].
  pose proof (ByteSizeLong_block (cid_prefix c) d (pb_msg_ (block_builder g))).
  pose proof (size_nonneg (cid_prefix c)). pose proof (size_nonneg d). unfold pb_block. lia.
Qed.

(** The messages [respond] hands to the queue, from a builder with the blocks
    [g]: the blocks in order in parts, one part when they fit a message. *)
Lemma respond_messages rid st x blocks : Forall (λ '(c, _), wf_cid c) blocks → ∀ g q b' q' ev,
  usable q → respond rid blocks st x (block_builder g) q = (true, b', q', ev) →
  ∃ gs last ds, concat gs ++ last = g ++ blocks ∧
    Forall2 (λ m d, wire (part_message rid m) d) (parts gs last st x) ds ∧
    writes ev ++ pending_buffers_ q' = pending_buffers_ q ++ ds ∧
    (getSerializedSize (block_builder (g ++ blocks)) ≤ kMaxMessageSize → gs = []).
Proof.
  induction 1 as [|[c d] blocks Hc HF IH]; intros g q b' q' ev Hq He; cbn [respond] in He.
  - destruct (endpoint_sendResponse _ _ _ _ _ _) as [[[r b1] q1] ev1] eqn:Hs.
    destruct r as [[]|]; cbn in He; [|done]. simplify_eq.
    apply send_spec in Hs as (_ & _ & dd & Hw & Happ); [|done..].
    exists [], g, [dd]. rewrite app_nil_r. split_and!; try done. constructor; [by rewrite part_message_eq|constructor].
  - destruct (endpoint_addBlockToResponse _ _ _ _ _ _) as [[[r b1] q1] ev1] eqn:Hs.
    destruct r as [[]| |]; [|done..]. destruct (respond rid blocks st x b1 q1) as [[[ok b2] q2] ev2] eqn:Hr.
    simplify_eq. unfold endpoint_addBlockToResponse in Hs. destruct (_ <? _); [done|].
    destruct (Z.ltb_spec kMaxMessageSize (u64 (getSerializedSize (block_builder g) + size d))) as [Hbig|Hfit].
    + destruct (sendPartialResponse closedW rid (block_builder g) q) as [[[r b0] q0] ev0] eqn:Hp.
      destruct r as [[]|]; [|done]. apply send_spec in Hp as (-> & Hq0 & dd & Hw & Happ); [|done..].
      change new_MessageBuilder with (block_builder []) in Hs.
      rewrite (surjective_pairing (addDataBlock _ _ _)), <- block_builder_snoc, addDataBlock_wf in Hs by done.
      simplify_eq. apply IH in Hr as (gs & last & ds & Hcat & Hds & Hq2 & Hone); [|done].
      exists (g :: gs), last, (dd :: ds). cbn [concat app] in *. rewrite <- app_assoc, Hcat. split; [done|]. split; [|split].
      * constructor; [by rewrite part_message_eq|done].
      * rewrite writes_app, <- app_assoc, Hq2, app_assoc, Happ, <- app_assoc. done.
      * intros Hsz. exfalso. pose proof (builder_grows blocks HF (g ++ [(c, d)])) as Hg.
        rewrite <- app_assoc in Hg. cbn [app] in Hg.
        rewrite block_builder_snoc, addDataBlock_wf in Hg by done. unfold getSerializedSize in *. cbn [fst pb_msg_] in Hg.
        pose proof (ByteSizeLong_block (cid_prefix c) d (pb_msg_ (block_builder g))). unfold pb_block in Hg.
        pose proof (size_nonneg (cid_prefix c)). pose proof (size_nonneg d).
        pose proof (ByteSizeLong_nonneg (pb_msg_ (block_builder g))).
        rewrite wrap_small in Hbig by (unfold kMaxMessageSize in *; lia). lia.
    + rewrite (surjective_pairing (addDataBlock _ _ _)), <- block_builder_snoc, addDataBlock_wf in Hs by done.
      simplify_eq. apply IH in Hr as (gs & last & ds & Hcat & Hds & Hq2 & Hone); [|done].
      rewrite <- app_assoc in Hcat, Hone. by exists gs, last, ds.
Qed.
(** A response that fits a message is sent in one: [respond] succeeds and writes
    its frame when the queue is idle. *)
Lemma respond_fits rid st x blocks : Forall (λ '(c, _), wf_cid c) blocks → ∀ g q,
  usable q → pending_bytes (state_ q) = 0 → writing_bytes (state_ q) ≤ 0 →
  getSerializedSize (block_builder (g ++ blocks)) ≤ kMaxMessageSize → encodable (part_message rid (g ++ blocks, st, x)) →
  ∃ b' q' d, respond rid blocks st x (block_builder g) q = (true, b', q', [Write s d]) ∧
    wire (part_message rid (g ++ blocks, st, x)) d.
Proof.
  induction 1 as [|[c d] blocks Hc HF IH]; intros g q Hu Hpb Hw Hsz Henc.
  - rewrite app_nil_r in *. destruct (frame_of _ Henc) as (body & Hs & _).
    rewrite part_message_eq in *. set (m := pb_msg_ _) in *. assert (wire m (uv_encode (size body) ++ body)) as Hwire by exact Hs.
    pose proof (wire_pos _ _ Hwire) as Hpos. set (d := uv_encode _ ++ body) in *.
    exists new_MessageBuilder, (set_writing_bytes (size d) q), d. split; [|done].
    cbn [respond]. unfold endpoint_sendResponse, send, serialize. fold m. rewrite Hs, Hpb. change (kMaxPendingBytes <? 0) with false.
    cbv iota. unfold queue_enqueue. destruct Hu as (Ha & Hst & Ho & _). rewrite Ha. destruct (Z.eqb_spec (size d) 0); [lia|].
    cbn [orb negb]. destruct (Z.ltb_spec 0 (writing_bytes (state_ q))); [lia|]. unfold beginWrite. by rewrite Hst, Ho.
  - change ((c, d) :: blocks) with ([(c, d)] ++ blocks) in *. rewrite app_assoc in *.
    destruct (IH (g ++ [(c, d)]) q Hu Hpb Hw Hsz Henc) as (b' & q' & d' & Hr & Hwire). exists b', q', d'. split; [|done].
    pose proof (builder_grows blocks HF (g ++ [(c, d)])) as Hg. cbn [respond app]. unfold endpoint_addBlockToResponse.
    rewrite block_builder_snoc, addDataBlock_wf in Hr, Hg by done. unfold getSerializedSize in *. cbn [fst pb_msg_] in *.
    pose proof (ByteSizeLong_block (cid_prefix c) d (pb_msg_ (block_builder g))). pose proof (ByteSizeLong_nonneg (pb_msg_ (block_builder g))).
    pose proof (size_nonneg (cid_prefix c)). pose proof (size_nonneg d). unfold pb_block in *. rewrite Hpb, Z.add_0_l.
    assert (ByteSizeLong (pb_msg_ (block_builder g)) + size d < kMaxMessageSize) as Hfit by lia.
    rewrite wrap_small by (unfold kMaxMessageSize in Hfit; lia). unfold kMaxPendingBytes, kMaxMessageSize in *.
    destruct (Z.ltb_spec (64 * 1024 * 1024) (ByteSizeLong (pb_msg_ (block_builder g)) + size d)); [lia|].
    destruct (Z.ltb_spec (16 * 1024 * 1024) (ByteSizeLong (pb_msg_ (block_builder g)) + size d)); [lia|].
    rewrite addDataBlock_wf by done. unfold pb_block. by rewrite Hr.
Qed.

(** [addBlockToResponse] admits a message the peer refuses.  It compares the
    size of the message so far plus the size of the data with [kMaxMessageSize]
    and so leaves out the block's own header and the response sent with it: a
    block that fits exactly is added without error, the response is sent in one
    message, and that message is longer than [kMaxMessageSize], which makes the
    reader of any receiver stop with [MESSAGE_SIZE_OUT_OF_BOUNDS]. *)
Theorem message_over_limit rid c d st b q :
  wf_cid c → usable q → pending_bytes (state_ q) = 0 →
  getSerializedSize b + size d = kMaxMessageSize →
  ∃ b', endpoint_addBlockToResponse closedW rid c d b q = (returned tt, b', q, []) ∧
    let n := getSerializedSize (addResponse rid st [] b') in
    kMaxMessageSize < n ∧
    ∀ r, reading_ r = true → max_message_size_ r = kMaxMessageSize →
      onVarint (Some n) r =
        (set_reading false r,
         [ReaderFeedback (stream_ r) (failure (graphsync_error MESSAGE_SIZE_OUT_OF_BOUNDS))]).
Proof.
  intros Hc Hq Hp Hsz. unfold endpoint_addBlockToResponse.
  pose proof (size_nonneg d). pose proof (ByteSizeLong_nonneg (pb_msg_ b)).
  unfold getSerializedSize in *. rewrite Hp, Z.add_0_l. rewrite Hsz, wrap_small by done.
  change (kMaxPendingBytes <? kMaxMessageSize) with false. rewrite Z.ltb_irrefl. cbv iota.
  rewrite addDataBlock_wf by done. eexists. split; [reflexivity|].
  cbv zeta. set (n := ByteSizeLong _).
  assert (kMaxMessageSize < n) as Hn.
  { subst n. cbn [pb_msg_ addResponse].
    pose proof (ByteSizeLong_block (cid_prefix c) d (pb_msg_ b)). pose proof (size_nonneg (cid_prefix c)).
    pose proof (ByteSizeLong_response (pb.mkResponse rid (code st) (insert_extensions []))
      (add_pb_block (pb_block c d) (pb_msg_ b))). unfold pb_block in *. lia. }
  split; [done|]. intros r Hr Hmax. unfold onVarint, onLengthRead. rewrite Hr. cbn [negb].
  change (default 0 (Some n)) with n.
  unfold kMaxMessageSize in *.
  destruct (Z.eqb_spec n 0); [lia|]. rewrite Hmax. by destruct (Z.ltb_spec (16 * 1024 * 1024) n); [|lia].
Qed.

End properties.

(** *** Witnesses *)

Definition sample_queue : MessageQueue := new_MessageQueue 7.

Lemma sample_usable : usable (λ _, false) 7 sample_queue.
Proof. by repeat split. Qed.

Lemma sample_block_cid_wf : wf_cid sample_block_cid.
Proof. apply wf_v1; vm_compute; repeat split; discriminate. Qed.

Lemma response_blocks_complete_witness :
  let run := respond (λ _, false) 3 [(sample_block_cid, [1; 2; 3]); (sample_block_cid, [4])]
    RS_FULL_CONTENT [] new_MessageBuilder sample_queue in
  fst (fst (fst run)) = true ∧
  ∃ ms, concat (map pb.blocks ms) =
    [pb_block sample_block_cid [1; 2; 3]; pb_block sample_block_cid [4]].
Proof.
  intros run. subst run.
  destruct (respond _ _ _ _ _ _ _) as [[[ok b'] q'] ev] eqn:Hr.
  assert (ok = true) as -> by (vm_compute in Hr; congruence).
  split; [reflexivity|].
  destruct (response_blocks_complete (λ _, false) 7 3 [(sample_block_cid, [1; 2; 3]); (sample_block_cid, [4])]
    RS_FULL_CONTENT [] new_MessageBuilder sample_queue b' q' ev) as (_ & _ & ms & ds & _ & _ & Hb).
  - exact sample_usable.
  - constructor; [exact sample_block_cid_wf|]. constructor; [exact sample_block_cid_wf|constructor].
  - exact Hr.
  - exists ms. exact Hb.
Defined.

Lemma size_replicate n : 0 ≤ n → size (replicate (Z.to_nat n) 0) = n.
Proof. intros. unfold size. rewrite length_replicate. lia. Qed.

(** A block one byte smaller than the limit, after the empty message's one. *)
Lemma message_over_limit_witness :
  ∃ d b', endpoint_addBlockToResponse (λ _, false) 3 sample_block_cid d new_MessageBuilder sample_queue =
      (returned tt, b', sample_queue, []) ∧
    kMaxMessageSize < getSerializedSize (addResponse 3 RS_FULL_CONTENT [] b').
Proof.
  exists (replicate (Z.to_nat (kMaxMessageSize - 1)) 0).
  assert (getSerializedSize new_MessageBuilder + size (replicate (Z.to_nat (kMaxMessageSize - 1)) 0) =
    kMaxMessageSize) as Hsz.
  { rewrite size_replicate by (vm_compute; discriminate). vm_compute. reflexivity. }
  destruct (message_over_limit (λ _, false) 7 3 sample_block_cid
    (replicate (Z.to_nat (kMaxMessageSize - 1)) 0) RS_FULL_CONTENT new_MessageBuilder sample_queue
    sample_block_cid_wf sample_usable eq_refl Hsz) as (b' & Hb & Hn & _).
  exists b'. split; [exact Hb|exact Hn].
Defined.
