(* ===== verification/LocalRequests.v ===== *)
(** Requests made by this node: [RequestIdGenerator] and [LocalRequests],
    [src/ipfs_lite/ipfs/graphsync/impl/local_requests.hpp] and
    [local_requests.cpp].

    A progress callback is a token; calling it is an event.  A callback that
    calls back into the object finds it in its final state: every operation makes
    its calls last. *)
From stdpp Require Import base numbers countable list gmap strings sorting.
From S2P Require Import Prelude Cid Status Marshalling.

Open Scope Z_scope.

(** ** [RequestIdGenerator]

    [statuses] is the store of the shared [StatusHolder]s, by address; the
    address of a holder is its [holder_id]. *)

Record RequestIdGenerator := mkGenerator {
  counter_ : Z;
  next_holder_id_ : Z;
  request_holders_ : gmap RequestId (list Z);
  statuses : gmap Z ResponseStatusCode
}.

Definition new_RequestIdGenerator : RequestIdGenerator := mkGenerator 0 0 ∅ ∅.

(** [++counter_] on [std::atomic<int32_t>] wraps around. *)
Definition next_id (g : RequestIdGenerator) : RequestId * RequestIdGenerator :=
  let c := i32 (counter_ g + 1) in
  (c, mkGenerator c (next_holder_id_ g) (request_holders_ g) (statuses g)).

Definition set_holders (m : gmap RequestId (list Z)) (g : RequestIdGenerator) : RequestIdGenerator :=
  mkGenerator (counter_ g) (next_holder_id_ g) m (statuses g).

Definition registerStatus (request_id : RequestId) (g : RequestIdGenerator) : Z * RequestIdGenerator :=
  let holder := next_holder_id_ g in
  let holders := default [] (request_holders_ g !! request_id) in
  (holder,
   mkGenerator (counter_ g) (u64 (holder + 1)) (<[request_id := holders ++ [holder]]> (request_holders_ g))
     (<[holder := RS_AWAITING_STATUS]> (statuses g))).

(** [holder->status = status]. *)
Definition setStatus (holder : Z) (status : ResponseStatusCode) (g : RequestIdGenerator) : RequestIdGenerator :=
  mkGenerator (counter_ g) (next_holder_id_ g) (request_holders_ g) (<[holder := status]> (statuses g)).

(** The loop of [removeStatus]: the first element equal to [holder] goes. *)
Fixpoint erase_first (holder : Z) (l : list Z) : list Z :=
  match l with
  | [] => []
  | h :: l => if h =? holder then l else h :: erase_first holder l
  end.

Definition removeStatus (request_id : RequestId) (holder : Z) (g : RequestIdGenerator) : RequestIdGenerator :=
  match request_holders_ g !! request_id with
  | None => g
  | Some holders =>
      match erase_first holder holders with
      | [] => set_holders (delete request_id (request_holders_ g)) g
      | holders => set_holders (<[request_id := holders]> (request_holders_ g)) g
      end
  end.

Definition allStatusesNotFound (request_id : RequestId) (g : RequestIdGenerator) : bool :=
  match request_holders_ g !! request_id with
  | None | Some [] => false
  | Some holders => forallb (λ h, bool_decide (statuses g !! h = Some RS_NOT_FOUND)) holders
  end.

Definition removeRequest (request_id : RequestId) (g : RequestIdGenerator) : RequestIdGenerator :=
  set_holders (delete request_id (request_holders_ g)) g.

(** ** [LocalRequests] *)

Abbreviation Callback := Z.
Abbreviation RequestMap := (gmap RequestId Callback).

Inductive local_event :=
| Call (cb : Callback) (status : ResponseStatusCode) (extensions : list Extension)
| ScheduleNotify
| CancelFn (request_id : RequestId) (body : SharedData).

(** The entries of a [std::map] with integer keys, in iteration order. *)
Definition entry_le (a b : RequestId * Callback) : Prop := a.1 ≤ b.1.
#[export] Instance entry_le_dec : RelDecision entry_le.
Proof. intros a b. unfold entry_le. apply _. Defined.
Definition sorted_entries (m : RequestMap) : list (RequestId * Callback) :=
  merge_sort entry_le (map_to_list m).

Section local_requests.
Context {M : Type} `{!Multiformats M, !Protobuf}.

Record LocalRequests := mkLocalRequests {
  active_requests_ : RequestMap;
  rejected_requests_ : RequestMap;
  request_builder_ : MessageBuilder;
  rejected_notify_scheduled_ : bool;
  current_rejected_request_id_ : Z;
  request_to_cid_ : gmap RequestId (CID M)
}.

Definition new_LocalRequests : LocalRequests :=
  mkLocalRequests ∅ ∅ new_MessageBuilder false 0 ∅.

Definition set_active m (l : LocalRequests) :=
  mkLocalRequests m (rejected_requests_ l) (request_builder_ l) (rejected_notify_scheduled_ l)
    (current_rejected_request_id_ l) (request_to_cid_ l).
Definition set_rejected m n (l : LocalRequests) :=
  mkLocalRequests (active_requests_ l) m (request_builder_ l) (rejected_notify_scheduled_ l) n
    (request_to_cid_ l).
Definition set_builder b (l : LocalRequests) :=
  mkLocalRequests (active_requests_ l) (rejected_requests_ l) b (rejected_notify_scheduled_ l)
    (current_rejected_request_id_ l) (request_to_cid_ l).
Definition set_request_cid i c (l : LocalRequests) :=
  mkLocalRequests (active_requests_ l) (rejected_requests_ l) (request_builder_ l)
    (rejected_notify_scheduled_ l) (current_rejected_request_id_ l) (<[i := c]> (request_to_cid_ l)).

(** The loop of [nextRequestId].  [++id] on the largest [int32_t] is undefined; it
    takes [2^31 - 1] active requests to get there.  Each turn passes one more
    active request, so that one turn more than there are requests is enough. *)
Fixpoint search_id (fuel : nat) (id : RequestId) (active : RequestMap) : RequestId :=
  match fuel with
  | O => 0
  | S fuel =>
      if bool_decide (active !! id = None) then id
      else let id := i32 (id + 1) in if id =? 0 then 0 else search_id fuel id active
  end.

Definition nextRequestId (g : RequestIdGenerator) (l : LocalRequests) : RequestId * RequestIdGenerator :=
  let '(id, g) := next_id g in
  if (0 <? id) && bool_decide (active_requests_ l !! id = None) then (id, g)
  else (search_id (S (base.size (active_requests_ l))) 1 (active_requests_ l), g).

(** [asyncNotifyRejectedRequests]: nothing sets the flag it tests. *)
Definition asyncNotifyRejectedRequests (l : LocalRequests) : list local_event :=
  if rejected_notify_scheduled_ l then [] else [ScheduleNotify].

(** A [Subscription] is its ticket, [None] the empty one. *)
Definition newRejectedRequest (callback : Callback) (l : LocalRequests) :
    option Z * LocalRequests * list local_event :=
  let request_id := i32 (current_rejected_request_id_ l - 1) in
  if request_id =? 0 then (None, set_rejected (rejected_requests_ l) request_id l, [])
  else
    let l := set_rejected (<[request_id := callback]> (rejected_requests_ l)) request_id l in
    (Some (u64 request_id), l, asyncNotifyRejectedRequests l).

Record NewRequest := mkNewRequest {
  subscription : option Z;
  request_id : RequestId;
  body : SharedData
}.

(** Rejection inside [newRequest]. *)
Definition reject_new (callback : Callback) (l : LocalRequests) :
    NewRequest * LocalRequests * list local_event :=
  let '(sub, l, ev) := newRejectedRequest callback l in
  (mkNewRequest sub (current_rejected_request_id_ l) None, l, ev).

(** [newRequest].  A CID that has no bytes throws out of it and leaves the
    half-made entry in the builder. *)
Definition newRequest (root_cid : CID M) (selector : bytes) (extensions : list Extension)
    (callback : Callback) (g : RequestIdGenerator) (l : LocalRequests) :
    attempt Error NewRequest * RequestIdGenerator * LocalRequests * list local_event :=
  let '(id, g) := nextRequestId g l in
  if id =? 0 then let '(ctx, l, ev) := reject_new callback l in (returned ctx, g, l, ev)
  else
    match addRequest id root_cid selector extensions (request_builder_ l) with
    | (b, returned _) =>
        let l := set_builder (builder_clear b) l in
        match serialize b with
        | failure _ => let '(ctx, l, ev) := reject_new callback l in (returned ctx, g, l, ev)
        | success body =>
            let l := set_request_cid id root_cid (set_active (<[id := callback]> (active_requests_ l)) l) in
            (returned (mkNewRequest (Some (u64 id)) id body), g, l, [])
        end
    | (b, _) => (thrown, g, set_builder b l, [])
    end.

Definition local_onResponse (request_id : RequestId) (status : ResponseStatusCode)
    (extensions : list Extension) (l : LocalRequests) : LocalRequests * list local_event :=
  match active_requests_ l !! request_id with
  | None => (l, [])
  | Some cb =>
      (if isTerminal status then set_active (delete request_id (active_requests_ l)) l else l,
       [Call cb status extensions])
  end.

(** [cancelAll( requests )]: the calls; the map is left empty. *)
Definition cancel_calls (requests : RequestMap) : list local_event :=
  (λ '(_, cb), Call cb RS_REJECTED_LOCALLY []) <$> sorted_entries requests.

(** The callback that [asyncNotifyRejectedRequests] schedules. *)
Definition onNotifyTimer (l : LocalRequests) : LocalRequests * list local_event :=
  (set_rejected ∅ 0 l, cancel_calls (rejected_requests_ l)).

Definition cancelAll (l : LocalRequests) : LocalRequests * list local_event :=
  (set_rejected ∅ (current_rejected_request_id_ l) (set_active ∅ l),
   cancel_calls (active_requests_ l) ++ cancel_calls (rejected_requests_ l)).

Definition unsubscribe (ticket : Z) (l : LocalRequests) : LocalRequests * list local_event :=
  let request_id := i32 ticket in
  if request_id <? 0 then
    (set_rejected (delete request_id (rejected_requests_ l)) (current_rejected_request_id_ l) l, [])
  else
    match active_requests_ l !! request_id with
    | None => (l, [])
    | Some _ =>
        let l := set_active (delete request_id (active_requests_ l)) l in
        let b := addCancelRequest request_id (request_builder_ l) in
        (set_builder (builder_clear b) l,
         [CancelFn request_id match serialize b with success body => body | failure _ => None end])
    end.

Definition getRequestRootCid (request_id : RequestId) (l : LocalRequests) : option (CID M) :=
  request_to_cid_ l !! request_id.

End local_requests.
Arguments LocalRequests M : clear implicits.

(** ** Request ids *)

Definition above (id : RequestId) (active : RequestMap) : nat :=
  base.size (filter (λ k, id ≤ k) (dom active)).

Lemma above_step id active cb : active !! id = Some cb → (above (id + 1) active < above id active)%nat.
Proof.
  intros Hi. unfold above. apply subset_size. split.
  - intros k. rewrite !elem_of_filter. intros [? ?]. split; [lia|done].
  - intros Hs. specialize (Hs id). rewrite !elem_of_filter in Hs.
    destruct Hs as [Hs _]; [split; [lia|]; by apply elem_of_dom|lia].
Qed.

Lemma above_le_size id active : (above id active ≤ base.size active)%nat.
Proof.
  unfold above. rewrite <- size_dom. apply subseteq_size. intros k. rewrite elem_of_filter. naive_solver.
Qed.

Lemma i32_small x : - 2 ^ 31 ≤ x < 2 ^ 31 → i32 x = x.
Proof. intros. unfold swrap. rewrite Z.mod_small; lia. Qed.

Lemma search_id_spec fuel : ∀ id active, 0 < id → (above id active < fuel)%nat →
  id + Z.of_nat (above id active) < 2 ^ 31 →
  let r := search_id fuel id active in id ≤ r < 2 ^ 31 ∧ active !! r = None.
Proof.
  induction fuel as [|fuel IH]; intros id active Hid Hf Hb; [lia|]. cbn [search_id].
  destruct (active !! id) as [cb|] eqn:Hi.
  - rewrite bool_decide_false by done. pose proof (above_step id active cb Hi) as Hs.
    rewrite i32_small by lia. destruct (Z.eqb_spec (id + 1) 0); [lia|].
    destruct (IH (id + 1) active) as [H1 H2]; [lia..|]. split; [lia|done].
  - rewrite bool_decide_true by done. split; [lia|done].
Qed.

Section ids.
Context {M : Type} `{!Multiformats M, !Protobuf}.

Lemma next_request_id_spec g (l : LocalRequests M) :
  Z.of_nat (base.size (active_requests_ l)) < 2 ^ 31 - 1 →
  let '(id, g') := nextRequestId g l in 0 < id < 2 ^ 31 ∧ active_requests_ l !! id = None.
Proof.
  intros Hs. unfold nextRequestId, next_id.
  assert (- 2 ^ 31 ≤ i32 (counter_ g + 1) < 2 ^ 31) as Hc.
  { unfold swrap. pose proof (Z.mod_pos_bound (counter_ g + 1 + 2 ^ (32 - 1)) (2 ^ 32) ltac:(lia)).
    change (2 ^ (32 - 1)) with (2 ^ 31) in *. lia. }
  pose proof (above_le_size 1 (active_requests_ l)) as Hle.
  pose proof (search_id_spec (S (base.size (active_requests_ l))) 1 (active_requests_ l)
    ltac:(lia) ltac:(lia) ltac:(lia)) as [J1 J2].
  destruct (Z.ltb_spec 0 (i32 (counter_ g + 1))); cbn [andb]; [|split; [lia|done]].
  case_bool_decide; (split; [lia|done]).
Qed.

(** Request ids are fresh.  Whatever the shared counter holds, wrapped or
    not, [nextRequestId] ends and returns a positive [int32_t] no active request
    of this object has, as long as there are fewer than [2^31 - 1] of them. *)
Theorem next_request_id_fresh g (l : LocalRequests M) :
  Z.of_nat (base.size (active_requests_ l)) < 2 ^ 31 - 1 →
  let '(id, g') := nextRequestId g l in
  0 < id < 2 ^ 31 ∧ active_requests_ l !! id = None ∧ counter_ g' = i32 (counter_ g + 1).
Proof.
  intros Hs. pose proof (next_request_id_spec g l Hs) as Hid. unfold nextRequestId in *.
  destruct (next_id g) as [c g'] eqn:Hn. unfold next_id in Hn. simplify_eq. destruct (_ && _).
  all: split; [apply Hid|split; [apply Hid|done]].
Qed.

End ids.

(** ** Callbacks *)

(** The number of entries of a map that hold a callback. *)
Definition entries (c : Callback) (m : RequestMap) : nat :=
  length (filter (λ kv, kv.2 = c) (map_to_list m)).

Definition one_if (b : bool) : nat := if b then 1%nat else 0%nat.

Lemma length_filter_cons {A} (P : A → Prop) `{∀ x, Decision (P x)} x l :
  length (filter P (x :: l)) = (one_if (bool_decide (P x)) + length (filter P l))%nat.
Proof. rewrite filter_cons. unfold one_if. by repeat case_decide || case_bool_decide. Qed.

Lemma entries_insert c i x m : m !! i = None →
  entries c (<[i := x]> m) = (one_if (bool_decide (x = c)) + entries c m)%nat.
Proof. intros Hi. unfold entries. rewrite map_to_list_insert by done. by rewrite length_filter_cons. Qed.

Lemma entries_delete c i x m : m !! i = Some x →
  entries c m = (one_if (bool_decide (x = c)) + entries c (delete i m))%nat.
Proof. intros Hi. unfold entries. rewrite <- (map_to_list_delete m i x) by done. by rewrite length_filter_cons. Qed.

Lemma entries_empty c : entries c ∅ = 0%nat.
Proof. unfold entries. by rewrite map_to_list_empty. Qed.

Lemma entries_pos c i m : m !! i = Some c → (0 < entries c m)%nat.
Proof. intros Hi. rewrite (entries_delete c i c) by done. rewrite bool_decide_true by done. cbn. lia. Qed.

(** Terminal calls of a callback among events. *)
Definition ends (c : Callback) (ev : local_event) : Prop :=
  match ev with Call cb st _ => cb = c ∧ isTerminal st = true | _ => False end.
#[export] Instance ends_dec c ev : Decision (ends c ev).
Proof. destruct ev; cbn; apply _. Defined.
Definition ended (c : Callback) (ev : list local_event) : nat := length (filter (ends c) ev).

Lemma ended_app c a b : ended c (a ++ b) = (ended c a + ended c b)%nat.
Proof. unfold ended. by rewrite filter_app, length_app. Qed.

Lemma ended_call c cb st ext :
  ended c [Call cb st ext] = if isTerminal st then one_if (bool_decide (cb = c)) else 0%nat.
Proof.
  unfold ended. rewrite length_filter_cons, Nat.add_0_r. destruct (isTerminal st) eqn:Hst.
  - f_equal. apply bool_decide_ext. cbn. naive_solver.
  - rewrite bool_decide_false; [done|]. cbn. rewrite Hst. naive_solver.
Qed.

Lemma ended_notify c : ended c [ScheduleNotify] = 0%nat.
Proof. done. Qed.

Lemma ended_cancel_fn c i b : ended c [CancelFn i b] = 0%nat.
Proof. done. Qed.

Lemma ended_cancel_calls c m : ended c (cancel_calls m) = entries c m.
Proof.
  unfold ended, cancel_calls, entries, sorted_entries.
  assert (∀ l, length (filter (ends c) ((λ '(_, cb), Call cb RS_REJECTED_LOCALLY []) <$> l)) =
    length (filter (λ kv : RequestId * Callback, kv.2 = c) l)) as ->; [|by rewrite merge_sort_Permutation].
  induction l as [|[k cb] l IH]; [done|]. cbn [fmap list_fmap]. rewrite !length_filter_cons, IH. f_equal.
  f_equal. apply bool_decide_ext. cbn. naive_solver.
Qed.

Lemma call_in_cancel_calls c st x m : Call c st x ∈ cancel_calls m → (0 < entries c m)%nat.
Proof.
  unfold cancel_calls, sorted_entries. intros ([k cb] & Heq & Hin)%list_elem_of_fmap. simplify_eq.
  rewrite merge_sort_Permutation in Hin. apply elem_of_map_to_list in Hin. by apply (entries_pos _ k).
Qed.

Section callbacks.
Context {M : Type} `{!Multiformats M, !Protobuf}.

Definition outstanding (c : Callback) (l : LocalRequests M) : nat :=
  (entries c (active_requests_ l) + entries c (rejected_requests_ l))%nat.

Inductive local_op :=
| OpNew (root_cid : CID M) (selector : bytes) (extensions : list Extension) (cb : Callback)
| OpReject (cb : Callback)
| OpResponse (request_id : RequestId) (status : ResponseStatusCode) (extensions : list Extension)
| OpNotify
| OpCancelAll
| OpUnsubscribe (ticket : Z).

Definition local_step (o : local_op) (g : RequestIdGenerator) (l : LocalRequests M) :
    RequestIdGenerator * LocalRequests M * list local_event :=
  match o with
  | OpNew cid sel ext cb => let '(_, g, l, ev) := newRequest cid sel ext cb g l in (g, l, ev)
  | OpReject cb => let '(_, l, ev) := newRejectedRequest cb l in (g, l, ev)
  | OpResponse id st ext => let '(l, ev) := local_onResponse id st ext l in (g, l, ev)
  | OpNotify => let '(l, ev) := onNotifyTimer l in (g, l, ev)
  | OpCancelAll => let '(l, ev) := cancelAll l in (g, l, ev)
  | OpUnsubscribe t => let '(l, ev) := unsubscribe t l in (g, l, ev)
  end.

(** Other objects take ids of the shared generator between the operations: each
    operation comes with the generator it finds. *)
Fixpoint local_run (ops : list (RequestIdGenerator * local_op)) (l : LocalRequests M) :
    LocalRequests M * list local_event :=
  match ops with
  | [] => (l, [])
  | (g, o) :: ops =>
      let '(_, l, ev) := local_step o g l in
      let '(l, ev') := local_run ops l in (l, ev ++ ev')
  end.

(** The callbacks an operation is given, and the subscriptions it drops. *)
Definition given (c : Callback) (o : local_op) : nat :=
  match o with OpNew _ _ _ cb | OpReject cb => one_if (bool_decide (cb = c)) | _ => 0 end.
Definition is_unsubscribe (o : local_op) : bool := match o with OpUnsubscribe _ => true | _ => false end.
Definition has_bytes (o : local_op) : Prop :=
  match o with OpNew cid _ _ _ => is_success (toBytes cid) = true | _ => True end.

(** Operations that take an id of this object. *)
Definition adds (o : local_op) : nat := match o with OpNew _ _ _ _ | OpReject _ => 1%nat | _ => 0%nat end.
Definition all_adds (ops : list (RequestIdGenerator * local_op)) : nat := sum_list (adds ∘ snd <$> ops).

Lemma all_adds_length ops : (all_adds ops ≤ length ops)%nat.
Proof. unfold all_adds. induction ops as [|[g []] ops IH]; cbn in *; lia. Qed.

Record lr_inv (n : nat) (l : LocalRequests M) : Prop := {
  li_active : (base.size (active_requests_ l) ≤ n)%nat;
  li_current : - Z.of_nat n ≤ current_rejected_request_id_ l ≤ 0;
  li_rejected k : is_Some (rejected_requests_ l !! k) → current_rejected_request_id_ l ≤ k < 0;
  li_flag : rejected_notify_scheduled_ l = false
}.

Lemma lr_inv_new : lr_inv 0 new_LocalRequests.
Proof. split; cbn; [done|lia| |done]. intros k [? Hk]. by rewrite lookup_empty in Hk. Qed.

Lemma reject_spec n c cb (l : LocalRequests M) : lr_inv n l → Z.of_nat n < 2 ^ 31 - 1 →
  let '(sub, l', ev) := newRejectedRequest cb l in
  lr_inv (S n) l' ∧ active_requests_ l' = active_requests_ l ∧ ev = [ScheduleNotify] ∧
  entries c (rejected_requests_ l') = (one_if (bool_decide (cb = c)) + entries c (rejected_requests_ l))%nat.
Proof.
  intros HI Hn. pose proof (li_current n l HI). unfold newRejectedRequest. rewrite i32_small by lia.
  destruct (Z.eqb_spec (current_rejected_request_id_ l - 1) 0); [lia|].
  unfold asyncNotifyRejectedRequests. cbn. rewrite (li_flag n l HI).
  assert (rejected_requests_ l !! (current_rejected_request_id_ l - 1) = None) as Hfresh.
  { apply eq_None_not_Some. intros Hk. apply (li_rejected n l HI) in Hk. lia. }
  split; [|split; [done|split; [done|by apply entries_insert]]].
  split; cbn.
  - pose proof (li_active n l HI). lia.
  - lia.
  - intros k. rewrite lookup_insert_is_Some'. intros [<-|Hk]; [lia|]. apply (li_rejected n l HI) in Hk. lia.
  - apply (li_flag n l HI).
Qed.

(** An operation keeps the bounds and, but for a dropped subscription, trades
    each callback it is given for one outstanding, each terminal call for one no
    longer outstanding. *)
Lemma local_step_spec n c o g (l : LocalRequests M) :
  lr_inv n l → Z.of_nat (adds o + n) < 2 ^ 31 → has_bytes o →
  let '(g', l', ev) := local_step o g l in
  lr_inv (adds o + n) l' ∧ (ended c ev + outstanding c l' ≤ given c o + outstanding c l)%nat ∧
  (is_unsubscribe o = false → ended c ev + outstanding c l' = given c o + outstanding c l)%nat.
Proof.
  intros HI Hn Ho. destruct o as [cid sel ext cb|cb|i st ext| | |t]; cbn [local_step given is_unsubscribe adds Nat.add] in *.
  - (* new *)
    pose proof (next_request_id_spec g l ltac:(pose proof (li_active n l HI); lia)) as Hid.
    unfold newRequest. destruct (nextRequestId g l) as [id g']. destruct Hid as [Hid Hfresh].
    destruct (Z.eqb_spec id 0); [lia|]. unfold addRequest. cbn in Ho.
    destruct (toBytes cid) as [d|]; [|done]. set (b := mkMessageBuilder _ _).
    destruct (serialize b) as [body|].
    + cbn. unfold outstanding. cbn. rewrite entries_insert by done. split; [|split; lia].
      split; cbn; [|pose proof (li_current n l HI); lia|apply (li_rejected n l HI)|apply (li_flag n l HI)].
      rewrite map_size_insert_None by done. pose proof (li_active n l HI). lia.
    + assert (lr_inv n (set_builder (builder_clear b) l)) as HI' by (by destruct HI).
      unfold reject_new. pose proof (reject_spec n c cb _ HI' ltac:(lia)) as Hr.
      destruct (newRejectedRequest cb _) as [[sub l'] ev]. destruct Hr as (J1 & J2 & -> & J4).
      split; [done|]. unfold outstanding. rewrite J2, J4, ended_notify. cbn. split; lia.
  - pose proof (reject_spec n c cb _ HI ltac:(lia)) as Hr. destruct (newRejectedRequest cb _) as [[sub l'] ev].
    destruct Hr as (J1 & J2 & -> & J4). split; [done|]. unfold outstanding. rewrite J2, J4, ended_notify. cbn. split; lia.
  - unfold local_onResponse. destruct (active_requests_ l !! i) as [cb|] eqn:Hi.
    + rewrite ended_call. destruct (isTerminal st).
      * split; [destruct HI; split; cbn; try done; rewrite map_size_delete_Some by (by eexists); lia|].
        unfold outstanding. cbn [active_requests_ rejected_requests_ set_active].
        rewrite (entries_delete c i cb (active_requests_ l)) by done. split; lia.
      * split; [done|]. split; lia.
    + split; [done|]. cbn. split; lia.
  - unfold onNotifyTimer. rewrite ended_cancel_calls. unfold outstanding. cbn.
    split; [|rewrite !entries_empty; split; lia].
    destruct HI; split; cbn; [lia|lia| |done]. intros k [? Hk]. by rewrite lookup_empty in Hk.
  - unfold cancelAll. rewrite ended_app, !ended_cancel_calls. unfold outstanding. cbn.
    split; [|rewrite !entries_empty; split; lia].
    destruct HI; split; cbn; [rewrite map_size_empty; lia|lia| |done]. intros k [? Hk]. by rewrite lookup_empty in Hk.
  - unfold unsubscribe. destruct (i32 t <? 0).
    + split; [pose proof HI as []; split; cbn; [lia|lia| |done]; intros k Hk; rewrite lookup_delete_is_Some in Hk; destruct Hk as [_ Hk]; apply (li_rejected n l HI k Hk)|].
      split; [|done]. unfold outstanding. cbn. destruct (rejected_requests_ l !! i32 t) as [cb|] eqn:Hi.
      * rewrite (entries_delete c _ cb (rejected_requests_ l)) by done. lia.
      * rewrite delete_id by done. lia.
    + destruct (active_requests_ l !! i32 t) as [cb|] eqn:Hi.
      * split; [destruct HI; split; cbn; [|lia|done|done]; rewrite map_size_delete_Some by (by eexists); lia|].
        split; [|done]. rewrite ended_cancel_fn. unfold outstanding. cbn. rewrite (entries_delete c _ cb (active_requests_ l)) by done. lia.
      * split; [done|]. split; [cbn; lia|done].
Qed.

(** Every call goes to a callback that is outstanding when the operation starts. *)
Lemma call_outstanding c o g (l : LocalRequests M) st ext :
  Call c st ext ∈ (local_step o g l).2 → (0 < outstanding c l)%nat.
Proof.
  unfold outstanding. destruct o as [cid sel x cb|cb|i st' x| | |t]; cbn [local_step].
  - unfold newRequest, reject_new, newRejectedRequest, asyncNotifyRejectedRequests.
    intros Hin. exfalso. revert Hin. repeat case_match; simplify_eq/=; set_solver.
  - unfold newRejectedRequest, asyncNotifyRejectedRequests.
    intros Hin. exfalso. revert Hin. repeat case_match; simplify_eq/=; set_solver.
  - unfold local_onResponse. destruct (active_requests_ l !! i) as [cb|] eqn:Hi; cbn; [|set_solver].
    intros [= <- <- <-]%list_elem_of_singleton. pose proof (entries_pos c i _ Hi). lia.
  - cbn. intros Hin%call_in_cancel_calls. lia.
  - cbn. intros [Hin%call_in_cancel_calls|Hin%call_in_cancel_calls]%elem_of_app; lia.
  - unfold unsubscribe. intros Hin. exfalso. revert Hin. repeat case_match; simplify_eq/=; set_solver.
Qed.

Definition all_given (c : Callback) (ops : list (RequestIdGenerator * local_op)) : nat :=
  sum_list (given c ∘ snd <$> ops).

Lemma local_run_spec c ops : ∀ n (l : LocalRequests M), lr_inv n l →
  Z.of_nat (all_adds ops + n) < 2 ^ 31 → Forall (has_bytes ∘ snd) ops →
  let '(l', ev) := local_run ops l in
  lr_inv (all_adds ops + n) l' ∧ (ended c ev + outstanding c l' ≤ all_given c ops + outstanding c l)%nat ∧
  (Forall (λ o, is_unsubscribe o.2 = false) ops →
   ended c ev + outstanding c l' = all_given c ops + outstanding c l)%nat.
Proof.
  induction ops as [|[g o] ops IH]; intros n l HI Hn Hb.
  - cbn. split; [done|]. split; [lia|intros _; lia].
  - inversion Hb as [|?? Ho Hb']; subst. unfold all_adds in *. cbn in Hn.
    pose proof (local_step_spec n c o g l HI ltac:(lia) Ho) as Hs. cbn [local_run].
    destruct (local_step o g l) as [[g' l'] ev]. destruct Hs as (HI' & Hle & Heq).
    specialize (IH (adds o + n)%nat l' HI' ltac:(lia) Hb'). destruct (local_run ops l') as [l'' ev'].
    destruct IH as (HI'' & Hle' & Heq'). split; [cbn; by replace (adds o + _ + n)%nat with (sum_list (adds ∘ snd <$> ops) + (adds o + n))%nat by lia|].
    rewrite ended_app. unfold all_given in *. cbn. split; [lia|].
    intros Hu. inversion Hu as [|?? Hu0 Hu']; subst. specialize (Heq Hu0). specialize (Heq' Hu'). lia.
Qed.

(** Every progress callback is called with a terminal status at most once,
    and exactly once if its subscription is kept.  In any run of an object of
    [LocalRequests] (with other users of the id generator in between), the
    terminal calls of a callback are at most the requests it was given to; after
    [cancelAll], when no subscription was dropped, they are exactly as many, and
    nothing is outstanding.  An operation calls no callback but one that is
    outstanding. *)
Theorem callback_exactly_once c ops o g :
  Z.of_nat (length ops) < 2 ^ 31 → Forall (has_bytes ∘ snd) ops →
  let '(l, ev) := local_run ops new_LocalRequests in
  (ended c ev ≤ all_given c ops)%nat ∧
  (Forall (λ o, is_unsubscribe o.2 = false) ops →
   let '(l', ev') := cancelAll l in
   ended c (ev ++ ev') = all_given c ops ∧ outstanding c l' = 0%nat) ∧
  (∀ st ext, Call c st ext ∈ (local_step o g l).2 → (0 < outstanding c l)%nat).
Proof.
  intros Hn Hb. pose proof (all_adds_length ops) as Ha. pose proof (local_run_spec c ops 0 new_LocalRequests lr_inv_new ltac:(lia) Hb) as Hr.
  destruct (local_run ops new_LocalRequests) as [l ev]. destruct Hr as (_ & Hle & Heq).
  change (outstanding c new_LocalRequests) with 0%nat in *. rewrite Nat.add_0_r in *.
  split; [lia|]. split; [|intros st ext; apply call_outstanding].
  intros Hu. specialize (Heq Hu). unfold cancelAll. rewrite !ended_app, !ended_cancel_calls.
  unfold outstanding in *. cbn. rewrite !entries_empty. lia.
Qed.

End callbacks.

(** *** Witnesses *)

Definition sample_requests : LocalRequests Cid.Sample.Multihash :=
  set_active {[1 := 10; 2 := 11]} new_LocalRequests.
Definition wrapped_generator : RequestIdGenerator := mkGenerator 2147483647 0 ∅ ∅.

Lemma next_request_id_fresh_witness :
  let '(id, _) := nextRequestId wrapped_generator sample_requests in
  active_requests_ sample_requests !! id = None.
Proof.
  assert (Z.of_nat (base.size (active_requests_ sample_requests)) < 2 ^ 31 - 1) as Hs
    by (vm_compute; reflexivity).
  pose proof (next_request_id_fresh wrapped_generator sample_requests Hs) as Hid.
  destruct (nextRequestId wrapped_generator sample_requests) as [id g]. exact (proj1 (proj2 Hid)).
Defined.

(** Two requests, a partial and a final response to the first, a rejected one. *)
Definition sample_ops : list (RequestIdGenerator * local_op (M:=Cid.Sample.Multihash)) :=
  [(new_RequestIdGenerator, OpNew (Cid.Sample.cid_v1 5) [] [] 10);
   (mkGenerator 1 0 ∅ ∅, OpNew (Cid.Sample.cid_v1 6) [1] [] 11);
   (new_RequestIdGenerator, OpReject 12);
   (new_RequestIdGenerator, OpResponse 1 RS_PARTIAL_RESPONSE []);
   (new_RequestIdGenerator, OpResponse 1 RS_FULL_CONTENT []);
   (new_RequestIdGenerator, OpNotify)].

Lemma callback_exactly_once_witness :
  ended 10 (local_run sample_ops new_LocalRequests).2 = 1%nat ∧
  ended 11 ((local_run sample_ops new_LocalRequests).2 ++
    (cancelAll (local_run sample_ops new_LocalRequests).1).2) = 1%nat.
Proof.
  assert (Z.of_nat (length sample_ops) < 2 ^ 31) as Hn by (vm_compute; reflexivity).
  assert (Forall (has_bytes ∘ snd) sample_ops) as Hb by repeat constructor.
  assert (Forall (λ o, is_unsubscribe o.2 = false) sample_ops) as Hu by repeat constructor.
  pose proof (callback_exactly_once 11 sample_ops OpNotify new_RequestIdGenerator Hn Hb) as H11.
  split; [vm_compute; reflexivity|].
  destruct (local_run sample_ops new_LocalRequests) as [l ev]. destruct H11 as (_ & H11 & _).
  specialize (H11 Hu). change (l, ev).1 with l. change (l, ev).2 with ev.
  destruct (cancelAll l) as [l' ev']. exact (proj1 H11).
Defined.
