(* ===== verification/PeerContext.v ===== *)
(** The context of one peer: [PeerContext],
    [src/ipfs_lite/ipfs/graphsync/impl/network/peer_context.cpp].

    A handler is an action: it reads the environment (the scheduler's clock, which
    streams are closed for writing, which feedback objects are alive), changes the
    state and emits effects, in order.  The effects are the calls that leave the
    object; the calls back into the object that a feedback implementation could
    make during a call are not followed.  The recursive mutex makes a handler
    atomic.

    The message queues are shared between a stream's context, its response
    endpoint and the requests endpoint: they live in [queues], at the address of
    their stream. *)
From stdpp Require Import base numbers list gmap strings.
From S2P Require Import Prelude Cid Status MessageQueue Marshalling InboundEndpoint.

Open Scope Z_scope.

(** [PeerContext::State]. *)
Inductive ContextState := can_connect | is_connecting | is_connected | is_closed.

#[export] Instance ContextState_eq_dec : EqDecision ContextState.
Proof. solve_decision. Defined.

Definition GRAHPSYNC_WINDOW_SIZE : Z := 64 * 1024 * 1024.

(** [timer_]: the scheduled callback the handle owns.  Assigning the handle drops
    the old one. *)
Inductive timer :=
| NoTimer
| CleanupTimer (deadline : Z)
| PeerClosedTimer.

Record Env := mkEnv {
  now : Z;
  closedW : StreamPtr → bool;
  alive : Z → bool
}.

Section peer_context.
Context {M : Type} `{!Multiformats M, !Protobuf}.
Context (mh_default : M).

Record StreamCtx := mkStreamCtx {
  has_queue : bool;
  remote_request_ids : gset RequestId;
  response_endpoint : option MessageBuilder;
  expire_time : Z
}.

Record PeerContext := mkPeerContext {
  graphsync_feedbacks_ : list Z;
  timer_ : timer;
  connect_to_ : option (list string);
  requests_endpoint_ : option OutboundEndpoint;
  local_request_ids_ : gset RequestId;
  remote_requests_streams_ : gmap RequestId StreamPtr;
  streams_ : gmap StreamPtr StreamCtx;
  closed_ : bool;
  close_status_ : ResponseStatusCode;
  queues : Queues
}.

Inductive effect :=
| OnResponse (feedback : Z) (request_id : RequestId) (status : ResponseStatusCode)
    (extensions : list Extension)
| OnRemoteRequest (feedback : Z) (request : Request M)
| OnBlock (feedback : Z) (root_cid cid : CID M) (data : bytes)
| PeerClosed (status : ResponseStatusCode)
| Schedule (delay : Z)
| Reschedule (delay : Z)
| StartReading (stream : StreamPtr)
| WriteStream (stream : StreamPtr) (data : bytes)
| CloseStream (stream : StreamPtr)
| ResetStream (stream : StreamPtr)
| AdjustWindow (stream : StreamPtr) (n : Z).

(** ** Actions *)

Definition act (A : Type) : Type := Env → PeerContext → A * PeerContext * list effect.

#[export] Instance act_ret : MRet act := λ A a e p, (a, p, []).
#[export] Instance act_bind : MBind act := λ A B f c e p,
  let '(a, p, ev) := c e p in
  let '(b, p, ev') := f a e p in (b, p, ev ++ ev').

Definition get {A} (f : PeerContext → A) : act A := λ e p, (f p, p, []).
Definition env {A} (f : Env → A) : act A := λ e p, (f e, p, []).
Definition modify (f : PeerContext → PeerContext) : act unit := λ e p, (tt, f p, []).
Definition emit (ev : effect) : act unit := λ e p, (tt, p, [ev]).
Definition skip : act unit := mret tt.

Fixpoint for_each {A} (l : list A) (f : A → act unit) : act unit :=
  match l with
  | [] => skip
  | x :: l => _ ← f x; for_each l f
  end.

(** Field updates. *)
Definition set_timer (t : timer) (p : PeerContext) :=
  mkPeerContext (graphsync_feedbacks_ p) t (connect_to_ p) (requests_endpoint_ p)
    (local_request_ids_ p) (remote_requests_streams_ p) (streams_ p) (closed_ p) (close_status_ p) (queues p).
Definition set_connect_to c (p : PeerContext) :=
  mkPeerContext (graphsync_feedbacks_ p) (timer_ p) c (requests_endpoint_ p)
    (local_request_ids_ p) (remote_requests_streams_ p) (streams_ p) (closed_ p) (close_status_ p) (queues p).
Definition set_endpoint o (p : PeerContext) :=
  mkPeerContext (graphsync_feedbacks_ p) (timer_ p) (connect_to_ p) o
    (local_request_ids_ p) (remote_requests_streams_ p) (streams_ p) (closed_ p) (close_status_ p) (queues p).
Definition set_local_ids ids (p : PeerContext) :=
  mkPeerContext (graphsync_feedbacks_ p) (timer_ p) (connect_to_ p) (requests_endpoint_ p)
    ids (remote_requests_streams_ p) (streams_ p) (closed_ p) (close_status_ p) (queues p).
Definition set_remote m (p : PeerContext) :=
  mkPeerContext (graphsync_feedbacks_ p) (timer_ p) (connect_to_ p) (requests_endpoint_ p)
    (local_request_ids_ p) m (streams_ p) (closed_ p) (close_status_ p) (queues p).
Definition set_streams m (p : PeerContext) :=
  mkPeerContext (graphsync_feedbacks_ p) (timer_ p) (connect_to_ p) (requests_endpoint_ p)
    (local_request_ids_ p) (remote_requests_streams_ p) m (closed_ p) (close_status_ p) (queues p).
Definition set_closed st (p : PeerContext) :=
  mkPeerContext (graphsync_feedbacks_ p) (timer_ p) (connect_to_ p) (requests_endpoint_ p)
    (local_request_ids_ p) (remote_requests_streams_ p) (streams_ p) true st (queues p).
Definition set_queues qs (p : PeerContext) :=
  mkPeerContext (graphsync_feedbacks_ p) (timer_ p) (connect_to_ p) (requests_endpoint_ p)
    (local_request_ids_ p) (remote_requests_streams_ p) (streams_ p) (closed_ p) (close_status_ p) qs.

Definition set_ctx_queue (c : StreamCtx) :=
  mkStreamCtx true (remote_request_ids c) (response_endpoint c) (expire_time c).
Definition set_ctx_ids ids (c : StreamCtx) :=
  mkStreamCtx (has_queue c) ids (response_endpoint c) (expire_time c).
Definition set_ctx_endpoint b (c : StreamCtx) :=
  mkStreamCtx (has_queue c) (remote_request_ids c) b (expire_time c).
Definition set_ctx_expire t (c : StreamCtx) :=
  mkStreamCtx (has_queue c) (remote_request_ids c) (response_endpoint c) t.

Definition new_PeerContext (feedbacks : list Z) : PeerContext :=
  mkPeerContext feedbacks NoTimer None None ∅ ∅ ∅ false RS_INTERNAL_ERROR ∅.

(** The loop [for ( const auto &wfb : graphsync_feedbacks_ ) if ( auto fb = wfb.lock() )]. *)
Definition feedback (mk : Z → effect) : act unit :=
  fbs ← get graphsync_feedbacks_;
  live ← env alive;
  for_each (filter (λ fb, live fb = true) fbs) (λ fb, emit (mk fb)).

(** ** State queries *)

Definition setOutboundAddress (connect_to : option (list string)) : act unit :=
  match connect_to with
  | Some _ => modify (set_connect_to connect_to)
  | None => skip
  end.

Definition getState (p : PeerContext) : ContextState :=
  if closed_ p then is_closed
  else if negb (bool_decide (streams_ p = ∅)) then is_connected
  else
    match requests_endpoint_ p with
    | Some ep => if isConnecting ep then is_connecting else can_connect
    | None => can_connect
    end.

(** The addresses of [getOutboundPeerInfo]. *)
Definition getOutboundPeerInfo (p : PeerContext) : list string := default [] (connect_to_ p).

(** ** Timers *)

(** [timer_.reschedule( delay )]: an empty handle refuses. *)
Definition reschedule (delay : Z) : act unit :=
  t ← get timer_;
  n ← env now;
  match t with
  | NoTimer => skip
  | CleanupTimer _ => _ ← modify (set_timer (CleanupTimer (n + delay))); emit (Reschedule delay)
  | PeerClosedTimer => emit (Reschedule delay)
  end.

Definition resetPeerTimeout : act unit :=
  c ← get closed_;
  if c : bool then skip else reschedule kPeerCloseDelayMsec.

Definition keepAlive : act unit := resetPeerTimeout.

(** [shiftExpireTime( ctx )] on the context of a stream in [streams_]. *)
Definition shiftExpireTime (s : StreamPtr) : act unit :=
  n ← env now;
  modify (λ p, set_streams (alter (set_ctx_expire (n + kStreamCloseDelayMsec)) s (streams_ p)) p).

(** ** Closing *)

Definition closeLocalRequests (status : ResponseStatusCode) : act unit :=
  ids ← get local_request_ids_;
  _ ← modify (set_local_ids ∅);
  _ ← for_each (sorted_elements ids) (λ id, feedback (λ fb, OnResponse fb id status []));
  modify (set_endpoint None).

(** [closeStream], with the call of [close] at its end. *)
Definition closeStream_with (close : ResponseStatusCode → act unit) (s : StreamPtr)
    (status : ResponseStatusCode) : act unit :=
  o ← get (λ p, streams_ p !! s);
  match o with
  | None => skip
  | Some ctx =>
      _ ← modify (λ p, set_remote
            (filter (λ '(id, _), id ∉ remote_request_ids ctx) (remote_requests_streams_ p)) p);
      _ ← modify (λ p, set_streams (delete s (streams_ p)) p);
      st ← get (λ p, ep ← requests_endpoint_ p; getStream (queues p) ep);
      _ ← (if bool_decide (st = Some s) then closeLocalRequests status else skip);
      _ ← modify (λ p, set_queues (delete s (queues p)) p);
      _ ← emit (CloseStream s);
      again ← get (λ p, negb (closed_ p) && bool_decide (streams_ p = ∅) && isError status);
      if again : bool then close status else skip
  end.

(** [while ( !streams_.empty() ) closeStream( streams_.begin()->first, status )],
    where [closed_] is set: the call of [close] is not reached. *)
Fixpoint close_streams (fuel : nat) (status : ResponseStatusCode) : act unit :=
  match fuel with
  | O => skip
  | S fuel =>
      o ← get (λ p, head (sorted_elements (dom (streams_ p))));
      match o with
      | None => skip
      | Some s => _ ← closeStream_with (λ _, skip) s status; close_streams fuel status
      end
  end.

Definition close (status : ResponseStatusCode) : act unit :=
  c ← get closed_;
  if c : bool then skip
  else
    _ ← modify (set_closed status);
    _ ← modify (set_remote ∅);
    n ← get (λ p, base.size (streams_ p));
    _ ← close_streams n status;
    ep ← get requests_endpoint_;
    _ ← match ep with Some _ => closeLocalRequests status | None => skip end;
    if bool_decide (status = RS_REJECTED_LOCALLY) then emit (PeerClosed RS_REJECTED_LOCALLY)
    else _ ← modify (set_timer PeerClosedTimer); emit (Schedule 0).

Definition closeStream (s : StreamPtr) (status : ResponseStatusCode) : act unit :=
  closeStream_with close s status.

(** The destructor. *)
Definition destroy : act unit :=
  c ← get closed_;
  if c : bool then skip else close RS_INTERNAL_ERROR.

(** The callback of the timer [close] schedules. *)
Definition onPeerClosedTimer : act unit :=
  st ← get close_status_;
  emit (PeerClosed st).

(** ** Write events *)

Definition onWriterEvent (so : option StreamPtr) (result : outcome error_code unit) : act unit :=
  c ← get closed_;
  if c : bool then skip
  else
    match result with
    | failure _ => close RS_CONNECTION_ERROR
    | success _ =>
        _ ← resetPeerTimeout;
        match so with Some s => shiftExpireTime s | None => skip end
    end.

(** The events of a queue: its writes and its calls of [onWriterEvent]. *)
Definition queue_events (ev : list queue_event) : act unit :=
  for_each ev (λ e,
    match e with
    | Write s d => emit (WriteStream s d)
    | Feedback so res => onWriterEvent so res
    end).

(** libp2p's completion of the write on [s]: the queue is gone with its stream. *)
Definition onWritten (s : StreamPtr) (res : outcome error_code Z) : act unit :=
  o ← get (λ p, queues p !! s);
  match o with
  | None => skip
  | Some q =>
      cw ← env closedW;
      let '(q, ev) := onMessageWritten cw res q in
      _ ← modify (λ p, set_queues (<[s := q]> (queues p)) p);
      queue_events ev
  end.

(** ** Streams *)

(** [createMessageQueue] and [createResponseEndpoint] on a stream in [streams_]. *)
Definition createMessageQueue (s : StreamPtr) : act unit :=
  o ← get (λ p, streams_ p !! s);
  match o with
  | Some ctx =>
      if has_queue ctx then skip
      else
        _ ← modify (λ p, set_streams (<[s := set_ctx_queue ctx]> (streams_ p)) p);
        modify (λ p, set_queues (<[s := new_MessageQueue s]> (queues p)) p)
  | None => skip
  end.

Definition createResponseEndpoint (s : StreamPtr) : act unit :=
  _ ← createMessageQueue s;
  o ← get (λ p, streams_ p !! s);
  match o with
  | Some ctx =>
      match response_endpoint ctx with
      | Some _ => skip
      | None =>
          modify (λ p, set_streams (<[s := set_ctx_endpoint (Some new_MessageBuilder) ctx]> (streams_ p)) p)
      end
  | None => skip
  end.

(** [requests_endpoint_->onConnected( queue )].  A write that fails at once closes the
    context and with it destroys the endpoint and the list of buffers that
    [onConnected] is going through, which is undefined; here the loop goes on with
    the buffers it had, and the feedback of the writes follows. *)
Definition endpoint_connected (s : StreamPtr) : act unit :=
  ep ← get requests_endpoint_;
  match ep with
  | None => skip
  | Some ep =>
      qs ← get queues;
      cw ← env closedW;
      let '(ep, qs, ev) := onConnected cw s ep qs in
      _ ← modify (set_endpoint (Some ep));
      _ ← modify (set_queues qs);
      queue_events ev
  end.

Definition needToConnect : act bool :=
  ep ← get requests_endpoint_;
  match ep with
  | Some _ => mret false
  | None =>
      _ ← modify (set_endpoint (Some new_OutboundEndpoint));
      first ← get (λ p, head (sorted_elements (dom (streams_ p))));
      match first with
      | None => mret true
      | Some s =>
          _ ← createMessageQueue s;
          _ ← endpoint_connected s;
          mret false
      end
  end.

(** [onNewStream] starts the window adjustment, whose callback is
    [onWindowAdjusted]. *)
Definition onNewStream (s : StreamPtr) : act unit :=
  known ← get (λ p, streams_ p !! s);
  match known with
  | Some _ => skip
  | None => emit (AdjustWindow s GRAHPSYNC_WINDOW_SIZE)
  end.

Definition finishStreamConfig (s : StreamPtr) : act unit :=
  _ ← emit (StartReading s);
  st ← get getState;
  _ ← (if bool_decide (st = is_connecting) then
         _ ← modify (λ p, set_queues (<[s := new_MessageQueue s]> (queues p)) p);
         endpoint_connected s
       else skip);
  n ← env now;
  none ← get (λ p, bool_decide (streams_ p = ∅));
  _ ← (if none : bool then
         _ ← modify (set_timer (CleanupTimer (n + kPeerCloseDelayMsec)));
         emit (Schedule kPeerCloseDelayMsec)
       else skip);
  _ ← resetPeerTimeout;
  modify (λ p, set_streams
    (match streams_ p !! s with
     | Some _ => streams_ p
     | None => <[s := mkStreamCtx (bool_decide (st = is_connecting)) ∅ None (n + kStreamCloseDelayMsec)]> (streams_ p)
     end) p).

Definition onWindowAdjusted (s : StreamPtr) (ok : bool) : act unit :=
  if ok then finishStreamConfig s
  else
    st ← get getState;
    if bool_decide (st = is_connecting) then close RS_CANNOT_CONNECT else skip.

(** [None]: the dialer's error. *)
Definition onStreamConnected (rstream : option StreamPtr) : act unit :=
  c ← get closed_;
  if c : bool then skip
  else
    match rstream with
    | Some s => onNewStream s
    | None =>
        st ← get getState;
        if bool_decide (st = is_connecting) then close RS_CANNOT_CONNECT else skip
    end.

Definition onStreamAccepted (s : StreamPtr) : act unit :=
  c ← get closed_;
  if c : bool then emit (ResetStream s) else onNewStream s.

(** ** Requests of this node *)

(** [requests_endpoint_->enqueue( body )]; the endpoint exists.  A write that fails at
    once closes the context and destroys the endpoint whose [enqueue] is running,
    which touches nothing of it afterwards. *)
Definition endpoint_enqueue (ep : OutboundEndpoint) (body : SharedData) : act (outcome Error unit) :=
  qs ← get queues;
  cw ← env closedW;
  let '(res, ep, qs, ev) := ep_enqueue cw body ep qs in
  _ ← modify (set_endpoint (Some ep));
  _ ← modify (set_queues qs);
  _ ← queue_events ev;
  mret res.

Definition enqueueRequest (request_id : RequestId) (request_body : SharedData) : act unit :=
  c ← get closed_;
  if c : bool then feedback (λ fb, OnResponse fb request_id RS_INTERNAL_ERROR [])
  else
    ep ← get requests_endpoint_;
    match ep with
    | None => close RS_INTERNAL_ERROR
    | Some ep =>
        res ← endpoint_enqueue ep request_body;
        if is_success res then modify (λ p, set_local_ids ({[request_id]} ∪ local_request_ids_ p) p)
        else close RS_SLOW_STREAM
    end.

Definition cancelRequest (request_id : RequestId) (request_body : SharedData) : act unit :=
  c ← get closed_;
  if c : bool then skip
  else
    _ ← modify (λ p, set_local_ids (local_request_ids_ p ∖ {[request_id]}) p);
    ep ← get requests_endpoint_;
    match ep with
    | None => skip
    | Some ep => _ ← endpoint_enqueue ep request_body; skip
    end.

(** ** Requests of the peer *)

Definition findResponseSink (request_id : RequestId) (p : PeerContext) : option StreamPtr :=
  s ← remote_requests_streams_ p !! request_id;
  _ ← streams_ p !! s;
  Some s.

(** Store what a response endpoint's operation left, then follow its events. *)
Definition response_done (s : StreamPtr) (b : MessageBuilder) (q : MessageQueue)
    (ev : list queue_event) : act unit :=
  _ ← modify (λ p, set_streams (alter (set_ctx_endpoint (Some b)) s (streams_ p)) p);
  _ ← modify (λ p, set_queues (<[s := q]> (queues p)) p);
  queue_events ev.

(** The builder and the queue of a stream's response endpoint. *)
Definition response_parts (s : StreamPtr) (p : PeerContext) : option (MessageBuilder * MessageQueue) :=
  ctx ← streams_ p !! s;
  b ← response_endpoint ctx;
  q ← queues p !! s;
  Some (b, q).

(** The result is that of the source, or the exception of a CID without bytes. *)
Definition addBlockToResponse (request_id : RequestId) (cid : CID M) (data : bytes) :
    act (attempt Error bool) :=
  sink ← get (findResponseSink request_id);
  match sink with
  | None => mret (returned false)
  | Some s =>
      _ ← createResponseEndpoint s;
      parts ← get (response_parts s);
      match parts with
      | None => mret (returned false)
      | Some (b, q) =>
          cw ← env closedW;
          let '(res, b, q, ev) := endpoint_addBlockToResponse cw request_id cid data b q in
          _ ← response_done s b q ev;
          match res with
          | returned _ => mret (returned true)
          | failed _ => _ ← close RS_SLOW_STREAM; mret (returned false)
          | thrown => mret thrown
          end
      end
  end.

Definition sendResponse (request_id : RequestId) (status : ResponseStatusCode)
    (extensions : list Extension) : act unit :=
  sink ← get (findResponseSink request_id);
  match sink with
  | None => skip
  | Some s =>
      _ ← createResponseEndpoint s;
      parts ← get (response_parts s);
      match parts with
      | None => skip
      | Some (b, q) =>
          cw ← env closedW;
          let '(res, b, q, ev) := endpoint_sendResponse cw request_id status extensions b q in
          _ ← response_done s b q ev;
          if is_success res then skip else close RS_SLOW_STREAM
      end
  end.

Definition onRequest (s : StreamPtr) (request : Request M) : act unit :=
  o ← get (λ p, streams_ p !! s);
  match o with
  | None => skip
  | Some ctx =>
      if cancel request then
        _ ← modify (λ p, set_streams
              (<[s := set_ctx_ids (remote_request_ids ctx ∖ {[id request]}) ctx]> (streams_ p)) p);
        modify (λ p, set_remote (delete (id request) (remote_requests_streams_ p)) p)
      else
        _ ← createResponseEndpoint s;
        known ← get (λ p, remote_requests_streams_ p !! id request);
        match known with
        | Some _ => sendResponse (id request) RS_REJECTED []
        | None =>
            _ ← modify (λ p, set_remote (<[id request := s]> (remote_requests_streams_ p)) p);
            _ ← modify (λ p, set_streams
                  (alter (λ ctx, set_ctx_ids ({[id request]} ∪ remote_request_ids ctx) ctx) s (streams_ p)) p);
            feedback (λ fb, OnRemoteRequest fb request)
        end
  end.

(** ** Messages of the peer *)

Definition onResponse (response : Response) : act unit :=
  ids ← get local_request_ids_;
  if bool_decide (resp_id response ∈ ids) then
    _ ← (if isTerminal (status response) then
           modify (λ p, set_local_ids (local_request_ids_ p ∖ {[resp_id response]}) p)
         else skip);
    feedback (λ fb, OnResponse fb (resp_id response) (status response) (resp_extensions response))
  else skip.

(** The loop over [msg.data]: the first block is the root. *)
Definition onBlocks (data : list (CID M * bytes)) : act unit :=
  match data with
  | [] => skip
  | (root_cid, _) :: _ =>
      for_each data (λ '(cid, d), feedback (λ fb, OnBlock fb root_cid cid d))
  end.

(** [msg.complete_request_list]: forget the requests of the stream. *)
Definition forget_requests (s : StreamPtr) (ctx : StreamCtx) : act unit :=
  _ ← modify (λ p, set_remote
        (filter (λ '(id, _), id ∉ remote_request_ids ctx) (remote_requests_streams_ p)) p);
  modify (λ p, set_streams (<[s := set_ctx_ids ∅ ctx]> (streams_ p)) p).

Definition onReaderEvent (so : option StreamPtr) (msg_res : outcome error_code (Message M)) : act unit :=
  match so with
  | None => skip
  | Some s =>
      c ← get closed_;
      if c : bool then skip
      else
        match msg_res with
        | failure _ => closeStream s RS_CONNECTION_ERROR
        | success msg =>
            _ ← resetPeerTimeout;
            o ← get (λ p, streams_ p !! s);
            match o with
            | None => skip
            | Some ctx =>
                _ ← (if complete_request_list msg then forget_requests s ctx else skip);
                _ ← for_each (requests msg) (onRequest s);
                _ ← for_each (responses msg) onResponse;
                _ ← onBlocks (data msg);
                shiftExpireTime s
            end
        end
  end.

(** ** Expired streams *)

(** One iteration of the loop over [streams_]: the stream's context, whether it
    timed out, and the largest expire time so far. *)
Definition check_stream (n : Z) (q : option MessageQueue) (ctx : StreamCtx) (max_expire_time : Z) :
    StreamCtx * bool * Z :=
  let expired :=
    if expire_time ctx <=? n then (ctx, true, max_expire_time)
    else (ctx, false, Z.max max_expire_time (expire_time ctx)) in
  match q with
  | None => expired
  | Some q =>
      if 0 <? writing_bytes (state_ q) then (ctx, false, max_expire_time)
      else if 0 <? pending_bytes (state_ q) then
        let t := Z.max (expire_time ctx)
                   (n + kStreamCloseDelayMsec * kWindowExhaustionTimeoutMultiplier) in
        (set_ctx_expire t ctx, false, Z.max max_expire_time t)
      else expired
  end.

Fixpoint check_streams (n : Z) (p : PeerContext) (l : list StreamPtr) (streams : gmap StreamPtr StreamCtx)
    (max_expire_time : Z) : gmap StreamPtr StreamCtx * list StreamPtr * Z :=
  match l with
  | [] => (streams, [], max_expire_time)
  | s :: l =>
      match streams !! s with
      | None => check_streams n p l streams max_expire_time
      | Some ctx =>
          let q := if has_queue ctx then queues p !! s else None in
          let '(ctx, out, m) := check_stream n q ctx max_expire_time in
          let '(streams, timed_out, m) := check_streams n p l (<[s := ctx]> streams) m in
          (streams, if out then s :: timed_out else timed_out, m)
      end
  end.

Definition onStreamCleanupTimer : act unit :=
  none ← get (λ p, bool_decide (streams_ p = ∅));
  if none : bool then close RS_TIMEOUT
  else
    n ← env now;
    r ← get (λ p, check_streams n p (sorted_elements (dom (streams_ p))) (streams_ p) 0);
    let '(streams, timed_out, max_expire_time) := r in
    _ ← modify (set_streams streams);
    _ ← for_each timed_out (λ s, closeStream s RS_TIMEOUT);
    stop ← get (λ p, closed_ p || bool_decide (streams_ p = ∅));
    if stop : bool then skip
    else if n <? max_expire_time then reschedule (max_expire_time - n)
    else reschedule kPeerCloseDelayMsec.

End peer_context.

(** ** Reasoning about actions *)

Section actions.
Context {M : Type} `{!Multiformats M, !Protobuf}.

(** The final state and the effects. *)
Definition final {A} (r : A * PeerContext * list (effect (M:=M))) : PeerContext := r.1.2.
Definition trace {A} (r : A * PeerContext * list (effect (M:=M))) : list effect := r.2.
Definition result {A} (r : A * PeerContext * list (effect (M:=M))) : A := r.1.1.

Lemma final_pair {A} (a : A) p ev : final (a, p, ev) = p.
Proof. done. Qed.
Lemma trace_pair {A} (a : A) p ev : trace (a, p, ev) = ev.
Proof. done. Qed.
Lemma result_pair {A} (a : A) p ev : result (a, p, ev) = a.
Proof. done. Qed.

Lemma bind_final {A B} (m : act A) (f : A → act B) e p :
  final ((m ≫= f) e p) = final (f (result (m e p)) e (final (m e p))).
Proof.
  unfold mbind, act_bind, final, result. destruct (m e p) as [[a p1] ev1]. cbn.
  by destruct (f a e p1) as [[b p2] ev2].
Qed.

Lemma bind_trace {A B} (m : act A) (f : A → act B) e p :
  trace ((m ≫= f) e p) = trace (m e p) ++ trace (f (result (m e p)) e (final (m e p))).
Proof.
  unfold mbind, act_bind, final, result, trace. destruct (m e p) as [[a p1] ev1]. cbn.
  by destruct (f a e p1) as [[b p2] ev2].
Qed.

Lemma bind_result {A B} (m : act A) (f : A → act B) e p :
  result ((m ≫= f) e p) = result (f (result (m e p)) e (final (m e p))).
Proof.
  unfold mbind, act_bind, final, result. destruct (m e p) as [[a p1] ev1]. cbn.
  by destruct (f a e p1) as [[b p2] ev2].
Qed.

(** *** Answers to local requests, counted *)

(** [OnResponse] with a terminal status for request [i], to feedback [fb]. *)
Definition is_answer (fb : Z) (i : RequestId) (ef : effect (M:=M)) : bool :=
  match ef with
  | OnResponse fb' i' st _ => bool_decide (fb' = fb) && bool_decide (i' = i) && isTerminal st
  | _ => false
  end.

Definition answers (fb : Z) (i : RequestId) (ev : list effect) : nat :=
  length (filter (λ ef, is_answer fb i ef = true) ev).

Lemma answers_app fb i e1 e2 : answers fb i (e1 ++ e2) = (answers fb i e1 + answers fb i e2)%nat.
Proof. unfold answers. by rewrite filter_app, length_app. Qed.

Definition awaiting (i : RequestId) (p : PeerContext) : nat :=
  if decide (i ∈ local_request_ids_ p) then 1 else 0.

(** [m] answers request [i] at most once, only if it is awaited, and then it is
    not awaited any more. *)
Definition answers_once (fb : Z) (i : RequestId) {A} (m : act A) : Prop :=
  ∀ e p, NoDup (graphsync_feedbacks_ p) →
    graphsync_feedbacks_ (final (m e p)) = graphsync_feedbacks_ p ∧
    (answers fb i (trace (m e p)) + awaiting i (final (m e p)) ≤ awaiting i p)%nat.

Lemma once_bind fb i {A B} (m : act A) (f : A → act B) :
  answers_once fb i m → (∀ a, answers_once fb i (f a)) → answers_once fb i (m ≫= f).
Proof.
  intros Hm Hf e p HN. rewrite bind_final, bind_trace, answers_app.
  destruct (Hm e p HN) as [Hfb Hc]. destruct (Hf (result (m e p)) e (final (m e p))) as [Hfb' Hc'].
  { by rewrite Hfb. }
  split; [by rewrite Hfb'|lia].
Qed.

Lemma once_ret fb i {A} (a : A) : answers_once fb i (mret a).
Proof. intros e p HN. split; [done|cbn; lia]. Qed.

Lemma once_get fb i {A} (f : PeerContext → A) : answers_once fb i (get f).
Proof. intros e p HN. split; [done|cbn; lia]. Qed.

Lemma once_env fb i {A} (f : Env → A) : answers_once fb i (env f).
Proof. intros e p HN. split; [done|cbn; lia]. Qed.

Lemma once_modify fb i f :
  (∀ p, graphsync_feedbacks_ (f p) = graphsync_feedbacks_ p ∧
        local_request_ids_ (f p) ⊆ local_request_ids_ p) → answers_once fb i (modify f).
Proof.
  intros Hf e p HN. destruct (Hf p) as [Hfb Hl]. split; [done|]. cbn. unfold awaiting.
  repeat case_decide; set_solver by lia.
Qed.

Lemma once_emit fb i ef : is_answer fb i ef = false → answers_once fb i (emit ef).
Proof. intros Hef e p HN. split; [done|]. cbn. unfold answers. cbn. rewrite decide_False by congruence. cbn. lia. Qed.

Lemma once_for_each fb i {A} (l : list A) f :
  (∀ x, answers_once fb i (f x)) → answers_once fb i (for_each l f).
Proof.
  intros Hf. induction l as [|x l IH]; cbn; [apply once_ret|]. apply once_bind; [done|]. by intros _.
Qed.

Lemma once_feedback fb i mk : (∀ fb', is_answer fb i (mk fb') = false) → answers_once fb i (feedback mk).
Proof.
  intros Hmk. unfold feedback. apply once_bind; [apply once_get|]. intros fbs.
  apply once_bind; [apply once_env|]. intros live. apply once_for_each. intros x. by apply once_emit.
Qed.

(** *** The calls of [feedback] *)

Definition live (e : Env) (p : PeerContext) : list Z :=
  filter (λ fb, alive e fb = true) (graphsync_feedbacks_ p).

Lemma for_each_emit {A} (l : list A) (mk : A → effect (M:=M)) e p :
  for_each l (λ x, emit (mk x)) e p = (tt, p, map mk l).
Proof.
  induction l as [|x l IH]; [done|]. cbn [for_each]. unfold mbind, act_bind. cbn. by rewrite IH.
Qed.

Lemma feedback_eq (mk : Z → effect (M:=M)) e p : feedback mk e p = (tt, p, map mk (live e p)).
Proof.
  unfold feedback, mbind, act_bind, get, env. cbn. by rewrite for_each_emit.
Qed.

Lemma answers_map_fb fb i st x l : NoDup l →
  (answers fb i (map (λ fb', OnResponse fb' i st x) l) ≤ 1)%nat.
Proof.
  intros HN. unfold answers. induction HN as [|y l Hy HN IH]; cbn [map]; [cbn; lia|].
  rewrite filter_cons. case_decide as Hd; [|done]. cbn [length].
  enough (length (filter (λ ef, is_answer fb i ef = true) (map (λ fb' : Z, OnResponse fb' i st x) l)) = 0%nat) by lia.
  cbn in Hd. rewrite !andb_true_iff, !bool_decide_eq_true in Hd. destruct Hd as [[-> _] _].
  clear IH HN. induction l as [|z l IH]; cbn [map]; [done|]. rewrite filter_cons, decide_False; [apply IH; set_solver|].
  cbn. rewrite bool_decide_false by set_solver. done.
Qed.

Lemma answers_other fb i i' st x l : i' ≠ i → answers fb i (map (λ fb', OnResponse fb' i' st x) l) = 0%nat.
Proof.
  intros Hne. unfold answers. induction l as [|y l IH]; cbn [map]; [done|].
  rewrite filter_cons, decide_False; [done|]. cbn. rewrite (bool_decide_false (i' = i)) by done.
  by rewrite andb_false_r.
Qed.

Lemma NoDup_live e p : NoDup (graphsync_feedbacks_ p) → NoDup (live e p).
Proof. apply NoDup_filter. Qed.

(** The loop of [closeLocalRequests]. *)
Lemma notify_all_eq st (l : list RequestId) e p :
  for_each (M:=M) l (λ i, feedback (λ fb, OnResponse fb i st [])) e p =
    (tt, p, concat (map (λ i, map (λ fb, OnResponse fb i st []) (live e p)) l)).
Proof.
  induction l as [|i l IH]; [done|]. cbn [for_each map concat]. unfold mbind, act_bind.
  rewrite feedback_eq, IH. done.
Qed.

Lemma answers_notify fb i st l e p : NoDup (graphsync_feedbacks_ p) → NoDup l →
  (answers fb i (concat (map (λ i, map (λ fb, OnResponse fb i st []) (live e p)) l)) ≤
   if decide (i ∈ l) then 1 else 0)%nat.
Proof.
  intros Hfb HN. induction HN as [|j l Hj HN IH]; cbn [map concat]; [done|].
  rewrite answers_app. destruct (decide (j = i)) as [->|Hne].
  - rewrite (decide_True (P := i ∈ i :: l)) by set_solver. rewrite (decide_False (P := i ∈ l)) in IH by done.
    pose proof (answers_map_fb fb i st [] (live e p) (NoDup_live e p Hfb)). lia.
  - rewrite answers_other by done. destruct (decide (i ∈ l)); [rewrite decide_True by set_solver|
      rewrite decide_False by set_solver]; lia.
Qed.

Lemma closeLocalRequests_eq st e p :
  closeLocalRequests (M:=M) st e p =
    (tt, set_endpoint None (set_local_ids ∅ p),
     concat (map (λ i, map (λ fb, OnResponse fb i st []) (live e p)) (sorted_elements (local_request_ids_ p)))).
Proof.
  unfold closeLocalRequests, mbind, act_bind, get, modify. cbn. rewrite notify_all_eq. cbn.
  by rewrite app_nil_r.
Qed.

Lemma once_closeLocalRequests fb i st : answers_once fb i (closeLocalRequests st).
Proof.
  intros e p HN. rewrite closeLocalRequests_eq. split; [done|]. unfold trace, final, awaiting. cbn.
  pose proof (answers_notify fb i st (sorted_elements (local_request_ids_ p)) e p HN (NoDup_sorted_elements _)) as H0. unfold answers in H0.
  rewrite (decide_False (P := i ∈ ∅)) by set_solver.
  destruct (decide (i ∈ local_request_ids_ p)) as [Hi|Hi].
  - rewrite decide_True in H0 by (by apply elem_of_sorted_elements). lia.
  - rewrite decide_False in H0 by (by rewrite elem_of_sorted_elements). lia.
Qed.

End actions.

Create HintDb peer discriminated.
#[export] Hint Resolve once_ret once_get once_env once_closeLocalRequests : peer.
#[export] Hint Extern 1 (answers_once _ _ (emit _)) => apply once_emit; reflexivity : peer.
#[export] Hint Extern 1 (answers_once _ _ skip) => apply once_ret : peer.
#[export] Hint Extern 1 (answers_once _ _ (modify _)) =>
  apply once_modify; intros ?; split; [reflexivity|cbn; set_solver] : peer.
#[export] Hint Extern 1 (answers_once _ _ (feedback _)) => apply once_feedback; reflexivity : peer.

(** Follow the structure of an action. *)
Ltac follow :=
  repeat first
    [ solve [eauto with peer]
    | apply once_bind; [|intros ?]
    | apply once_for_each; intros ?
    | case_match ].

Section once_handlers.
Context {M : Type} `{!Multiformats M, !Protobuf}.
Context (mh_default : M) (fb : Z) (i : RequestId).

Lemma once_reschedule d : answers_once (M:=M) fb i (reschedule d).
Proof. unfold reschedule. follow. Qed.
#[local] Hint Resolve once_reschedule : peer.

Lemma once_resetPeerTimeout : answers_once (M:=M) fb i resetPeerTimeout.
Proof. unfold resetPeerTimeout. follow. Qed.
#[local] Hint Resolve once_resetPeerTimeout : peer.

Lemma once_shiftExpireTime s : answers_once (M:=M) fb i (shiftExpireTime s).
Proof. unfold shiftExpireTime. follow. Qed.
#[local] Hint Resolve once_shiftExpireTime : peer.

Lemma once_closeStream_with k s st :
  (∀ st, answers_once (M:=M) fb i (k st)) → answers_once fb i (closeStream_with k s st).
Proof. intros Hk. unfold closeStream_with. follow. Qed.

Lemma once_close_streams n st : answers_once (M:=M) fb i (close_streams n st).
Proof.
  induction n as [|n IH]; cbn [close_streams]; [apply once_ret|]. follow.
Qed.
#[local] Hint Resolve once_close_streams : peer.

Lemma once_close st : answers_once (M:=M) fb i (close st).
Proof. unfold close. follow. Qed.
#[local] Hint Resolve once_close : peer.

Lemma once_closeStream s st : answers_once (M:=M) fb i (closeStream s st).
Proof. apply once_closeStream_with. apply once_close. Qed.
#[local] Hint Resolve once_closeStream : peer.

Lemma once_onWriterEvent so r : answers_once (M:=M) fb i (onWriterEvent so r).
Proof. unfold onWriterEvent. follow. Qed.
#[local] Hint Resolve once_onWriterEvent : peer.

Lemma once_queue_events ev : answers_once (M:=M) fb i (queue_events ev).
Proof. unfold queue_events. follow. Qed.
#[local] Hint Resolve once_queue_events : peer.

Lemma once_onWritten s r : answers_once (M:=M) fb i (onWritten s r).
Proof. unfold onWritten. follow. Qed.

Lemma once_createMessageQueue s : answers_once (M:=M) fb i (createMessageQueue s).
Proof. unfold createMessageQueue. follow. Qed.
#[local] Hint Resolve once_createMessageQueue : peer.

Lemma once_createResponseEndpoint s : answers_once (M:=M) fb i (createResponseEndpoint s).
Proof. unfold createResponseEndpoint. follow. Qed.
#[local] Hint Resolve once_createResponseEndpoint : peer.

Lemma once_endpoint_connected s : answers_once (M:=M) fb i (endpoint_connected s).
Proof. unfold endpoint_connected. follow. Qed.
#[local] Hint Resolve once_endpoint_connected : peer.

Lemma once_endpoint_enqueue ep body : answers_once (M:=M) fb i (endpoint_enqueue ep body).
Proof. unfold endpoint_enqueue. follow. Qed.
#[local] Hint Resolve once_endpoint_enqueue : peer.

Lemma once_response_done s b q ev : answers_once (M:=M) fb i (response_done s b q ev).
Proof. unfold response_done. follow. Qed.
#[local] Hint Resolve once_response_done : peer.

Lemma once_sendResponse j st x : answers_once (M:=M) fb i (sendResponse j st x).
Proof. unfold sendResponse. follow. Qed.
#[local] Hint Resolve once_sendResponse : peer.

Lemma once_onRequest s r : answers_once (M:=M) fb i (onRequest s r).
Proof. unfold onRequest. follow. Qed.

Lemma once_onResponse r : answers_once (M:=M) fb i (onResponse r).
Proof.
  intros e p HN. unfold onResponse, mbind, act_bind, get. cbn.
  case_bool_decide as Hin; [|split; [done|cbn; lia]].
  destruct (isTerminal (status r)) eqn:Ht; cbn.
  - rewrite feedback_eq. split; [done|]. unfold final, trace. cbn [fst snd app].
    unfold awaiting. cbn [local_request_ids_ set_local_ids]. destruct (decide (resp_id r = i)) as [<-|Hne].
    + pose proof (answers_map_fb (M:=M) fb (resp_id r) (status r) (resp_extensions r) (live e p) (NoDup_live e p HN)).
      rewrite (decide_True (P := resp_id r ∈ local_request_ids_ p)) by done.
      rewrite decide_False by set_solver. change (live e (set_local_ids _ p)) with (live e p). lia.
    + rewrite answers_other by done. repeat case_decide; set_solver by lia.
  - rewrite feedback_eq. split; [done|]. unfold final, trace. cbn [fst snd app].
    assert (answers (M:=M) fb i (map (λ fb', OnResponse fb' (resp_id r) (status r) (resp_extensions r)) (live e p)) = 0%nat)
      as ->; [|lia].
    unfold answers. induction (live e p) as [|y l IH]; cbn [map]; [done|].
    rewrite filter_cons, decide_False; [done|]. cbn. by rewrite Ht, andb_false_r.
Qed.
#[local] Hint Resolve once_onRequest once_onResponse : peer.

Lemma once_forget_requests s ctx : answers_once (M:=M) fb i (forget_requests s ctx).
Proof. unfold forget_requests. follow. Qed.
#[local] Hint Resolve once_forget_requests : peer.

Lemma once_onBlocks l : answers_once (M:=M) fb i (onBlocks l).
Proof. unfold onBlocks. follow. Qed.
#[local] Hint Resolve once_onBlocks : peer.

Lemma once_onReaderEvent so r : answers_once (M:=M) fb i (onReaderEvent so r).
Proof. unfold onReaderEvent. follow. Qed.

Lemma once_onStreamCleanupTimer : answers_once (M:=M) fb i onStreamCleanupTimer.
Proof. unfold onStreamCleanupTimer. follow. Qed.

Lemma once_addBlockToResponse j c d : answers_once (M:=M) fb i (addBlockToResponse j c d).
Proof. unfold addBlockToResponse. follow. Qed.

Lemma once_needToConnect : answers_once (M:=M) fb i needToConnect.
Proof. unfold needToConnect. follow. Qed.

Lemma once_cancelRequest j body : answers_once (M:=M) fb i (cancelRequest j body).
Proof. unfold cancelRequest. follow. Qed.

Lemma once_onStream s ok o :
  answers_once (M:=M) fb i (onWindowAdjusted s ok) ∧ answers_once (M:=M) fb i (onStreamConnected o) ∧
  answers_once (M:=M) fb i (onStreamAccepted s).
Proof.
  unfold onWindowAdjusted, finishStreamConfig, onStreamConnected, onStreamAccepted, onNewStream.
  split_and!; follow.
Qed.

Lemma once_misc a : answers_once (M:=M) fb i (setOutboundAddress a) ∧ answers_once (M:=M) fb i keepAlive ∧
  answers_once (M:=M) fb i destroy ∧ answers_once (M:=M) fb i onPeerClosedTimer.
Proof.
  unfold setOutboundAddress, keepAlive, destroy, onPeerClosedTimer. split_and!; follow.
Qed.

(** [enqueueRequest], branch by branch. *)
Lemma enqueueRequest_closed j body e p : closed_ p = true →
  enqueueRequest (M:=M) j body e p =
    (tt, p, map (λ fb, OnResponse fb j RS_INTERNAL_ERROR []) (live e p)).
Proof.
  intros Hc. unfold enqueueRequest, mbind, act_bind, get. rewrite Hc, feedback_eq. done.
Qed.

Lemma enqueueRequest_no_endpoint j body e p : closed_ p = false → requests_endpoint_ p = None →
  enqueueRequest (M:=M) j body e p = close RS_INTERNAL_ERROR e p.
Proof.
  intros Hc Hep. unfold enqueueRequest, mbind, act_bind, get. rewrite Hc, Hep.
  by destruct (close RS_INTERNAL_ERROR e p) as [[[] p1] ev1].
Qed.

Lemma enqueueRequest_endpoint j body e p ep : closed_ p = false → requests_endpoint_ p = Some ep →
  let r := endpoint_enqueue ep body e p in
  enqueueRequest (M:=M) j body e p =
    if is_success (result r) then
      (tt, set_local_ids ({[j]} ∪ local_request_ids_ (final r)) (final r), trace r)
    else
      let c := close RS_SLOW_STREAM e (final r) in (tt, final c, trace r ++ trace c).
Proof.
  intros Hc Hep r. unfold enqueueRequest, mbind, act_bind, get. rewrite Hc, Hep. subst r.
  destruct (endpoint_enqueue ep body e p) as [[res p1] ev1]. unfold result, final, trace. cbn [fst snd].
  destruct (is_success res); cbn; [by rewrite app_nil_r|].
  by destruct (close RS_SLOW_STREAM e p1) as [[[] p2] ev2].
Qed.

(** [enqueueRequest] starts to await the request, or answers it at once. *)
Lemma once_enqueueRequest j body e p : NoDup (graphsync_feedbacks_ p) →
  graphsync_feedbacks_ (final (enqueueRequest (M:=M) j body e p)) = graphsync_feedbacks_ p ∧
  (answers (M:=M) fb i (trace (enqueueRequest j body e p)) + awaiting i (final (enqueueRequest (M:=M) j body e p)) ≤
   awaiting i p + if decide (j = i) then 1 else 0)%nat.
Proof.
  intros HN. destruct (closed_ p) eqn:Hcl; [|destruct (requests_endpoint_ p) as [ep|] eqn:Hep].
  - rewrite enqueueRequest_closed by done. unfold final, trace. cbn [fst snd]. split; [done|].
    destruct (decide (j = i)) as [->|].
    + pose proof (answers_map_fb (M:=M) fb i RS_INTERNAL_ERROR [] (live e p) (NoDup_live e p HN)). lia.
    + rewrite answers_other by done. lia.
  - rewrite (enqueueRequest_endpoint _ _ _ _ ep) by done. cbv zeta.
    destruct (once_endpoint_enqueue ep body e p HN) as [Hfb Hc].
    set (p1 := final (endpoint_enqueue ep body e p)) in *.
    set (r := result (endpoint_enqueue ep body e p)) in *. clearbody p1 r.
    destruct (is_success r); rewrite !final_pair, !trace_pair.
    + split; [done|]. unfold awaiting in *. cbn [local_request_ids_ set_local_ids].
      destruct (decide (j = i)) as [->|]; repeat case_decide; set_solver by lia.
    + destruct (once_close RS_SLOW_STREAM e p1) as [Hfb' Hc']; [by rewrite Hfb|].
      split; [by rewrite Hfb'|]. rewrite answers_app. lia.
  - rewrite enqueueRequest_no_endpoint by done.
    destruct (once_close RS_INTERNAL_ERROR e p HN) as [? ?]. split; [done|lia].
Qed.

End once_handlers.

(** ** Runs of a context *)

Section handlers.
Context {M : Type} `{!Multiformats M, !Protobuf}.

(** The calls a context gets: from the network, from libp2p and from timers. *)
Inductive handler :=
| H_setOutboundAddress (connect_to : option (list string))
| H_needToConnect
| H_enqueueRequest (request_id : RequestId) (body : SharedData)
| H_cancelRequest (request_id : RequestId) (body : SharedData)
| H_streamConnected (rstream : option StreamPtr)
| H_streamAccepted (s : StreamPtr)
| H_windowAdjusted (s : StreamPtr) (ok : bool)
| H_readerEvent (s : option StreamPtr) (msg : outcome error_code (Message M))
| H_written (s : StreamPtr) (res : outcome error_code Z)
| H_addBlockToResponse (request_id : RequestId) (cid : CID M) (data : bytes)
| H_sendResponse (request_id : RequestId) (status : ResponseStatusCode) (extensions : list Extension)
| H_keepAlive
| H_close (status : ResponseStatusCode)
| H_cleanupTimer
| H_peerClosedTimer
| H_destroy.

Definition handle (h : handler) : act (M:=M) unit :=
  match h with
  | H_setOutboundAddress a => setOutboundAddress a
  | H_needToConnect => _ ← needToConnect; skip
  | H_enqueueRequest i body => enqueueRequest i body
  | H_cancelRequest i body => cancelRequest i body
  | H_streamConnected o => onStreamConnected o
  | H_streamAccepted s => onStreamAccepted s
  | H_windowAdjusted s ok => onWindowAdjusted s ok
  | H_readerEvent s msg => onReaderEvent s msg
  | H_written s res => onWritten s res
  | H_addBlockToResponse i c d => _ ← addBlockToResponse i c d; skip
  | H_sendResponse i st x => sendResponse i st x
  | H_keepAlive => keepAlive
  | H_close st => close st
  | H_cleanupTimer => onStreamCleanupTimer
  | H_peerClosedTimer => onPeerClosedTimer
  | H_destroy => destroy
  end.

(** A run: the calls, each in its environment, one after the other. *)
Fixpoint run (l : list (Env * handler)) (p : PeerContext) : PeerContext * list (effect (M:=M)) :=
  match l with
  | [] => (p, [])
  | (e, h) :: l =>
      let r := handle h e p in
      let '(p, ev) := run l (final r) in (p, trace r ++ ev)
  end.

(** How often request [i] is enqueued. *)
Fixpoint enqueues (i : RequestId) (l : list (Env * handler)) : nat :=
  match l with
  | [] => 0
  | (_, H_enqueueRequest j _) :: l => (if decide (j = i) then 1 else 0) + enqueues i l
  | _ :: l => enqueues i l
  end.

Lemma handle_once fb i h e p : NoDup (graphsync_feedbacks_ p) →
  graphsync_feedbacks_ (final (handle h e p)) = graphsync_feedbacks_ p ∧
  (answers fb i (trace (handle h e p)) + awaiting i (final (handle h e p)) ≤
   awaiting i p + match h with H_enqueueRequest j _ => if decide (j = i) then 1 else 0 | _ => 0 end)%nat.
Proof.
  intros HN. destruct h; cbn [handle]; try (by apply once_enqueueRequest);
    try (match goal with
      | |- graphsync_feedbacks_ (final (?m e p)) = _ ∧ _ =>
          assert (answers_once fb i m) as Ho; [|destruct (Ho e p HN); split; [done|lia]] end).
  - by apply once_misc.
  - apply once_bind; [apply once_needToConnect|intros; apply once_ret].
  - apply once_cancelRequest.
  - apply (once_onStream fb i 0 true).
  - by apply (once_onStream fb i s true None).
  - by apply (once_onStream fb i s ok None).
  - apply once_onReaderEvent.
  - apply once_onWritten.
  - apply once_bind; [apply once_addBlockToResponse|intros; apply once_ret].
  - apply once_sendResponse.
  - by apply (once_misc fb i None).
  - apply once_close.
  - apply once_onStreamCleanupTimer.
  - by apply (once_misc fb i None).
  - by apply (once_misc fb i None).
Qed.

(** C4: in any run of a context, whatever the peer, libp2p, the timers and the
    owner do and in whatever order, each feedback object gets at most one
    terminal answer for a request per [enqueueRequest] of it; a request that is
    still awaited has not been answered. *)
Theorem at_most_one_answer fb i l p :
  NoDup (graphsync_feedbacks_ p) → i ∉ local_request_ids_ p →
  (answers fb i (run l p).2 + awaiting i (run l p).1 ≤ enqueues i l)%nat.
Proof.
  intros HN Hi. assert (awaiting i p = 0%nat) as H0 by (unfold awaiting; by rewrite decide_False).
  enough (answers fb i (run l p).2 + awaiting i (run l p).1 ≤ awaiting i p + enqueues i l)%nat by lia.
  clear Hi H0. revert p HN. induction l as [|[e h] l IH]; intros p HN; [cbn; lia|]. cbn [run].
  destruct (handle_once fb i h e p HN) as [Hfb Hc]. specialize (IH (final (handle h e p))).
  rewrite Hfb in IH. specialize (IH HN). destruct (run l (final (handle h e p))) as [p' ev]. cbn [fst snd] in *.
  rewrite answers_app. destruct h; cbn [enqueues]; lia.
Qed.

End handlers.

(** *** A concrete run *)

Definition sample_env : Env := mkEnv 1000 (λ _, false) (λ _, true).

Definition sample_context : PeerContext := new_PeerContext [1].

Definition sample_run_calls : list (Env * handler (M:=Cid.Sample.Multihash)) :=
  [(sample_env, H_needToConnect); (sample_env, H_enqueueRequest 5 (Some [1; 2]));
   (sample_env, H_streamConnected (Some 7)); (sample_env, H_windowAdjusted 7 true);
   (sample_env, H_written 7 (success 2));
   (sample_env, H_readerEvent (Some 7) (success (mkMessage false []
      [mkResponse 5 RS_FULL_CONTENT []; mkResponse 5 RS_FULL_CONTENT []] [])));
   (sample_env, H_close RS_TIMEOUT)].

Lemma at_most_one_answer_witness :
  (answers 1 5 (run sample_run_calls sample_context).2 = 1)%nat ∧
  (answers 1 5 (run sample_run_calls sample_context).2 +
   awaiting 5 (run sample_run_calls sample_context).1 ≤ 1)%nat.
Proof.
  split; [vm_compute; reflexivity|].
  refine (at_most_one_answer 1 5 sample_run_calls sample_context _ _).
  - apply NoDup_singleton.
  - apply not_elem_of_empty.
Defined.
