(* ===== verification/PeerProofs.v ===== *)
(** The lifetime of a peer's context: what closing does, the invariant that ties
    the maps of a [PeerContext] together, the cleanup of expired streams, and the
    cases in which a request is left without an answer. *)
From stdpp Require Import base numbers list gmap strings.
From S2P Require Import Prelude Cid Status MessageQueue Marshalling InboundEndpoint PeerContext.

Open Scope Z_scope.

Section closing.
Context {M : Type} `{!Multiformats M, !Protobuf}.

(** *** Running an action one statement at a time *)

Lemma bind_eq {A B} (m : act (M:=M) A) (f : A → act B) e p a p1 ev :
  m e p = (a, p1, ev) →
  (m ≫= f) e p = let r := f a e p1 in (result r, final r, ev ++ trace r).
Proof.
  intros Hm. unfold mbind, act_bind. rewrite Hm.
  by destruct (f a e p1) as [[b p2] ev2].
Qed.

Lemma bind_get {A B} (g : PeerContext → A) (f : A → act (M:=M) B) e p : (get g ≫= f) e p = f (g p) e p.
Proof. unfold mbind, act_bind, get. by destruct (f (g p) e p) as [[b p2] ev2]. Qed.

Lemma bind_env {A B} (g : Env → A) (f : A → act (M:=M) B) e p : (env g ≫= f) e p = f (g e) e p.
Proof. unfold mbind, act_bind, env. by destruct (f (g e) e p) as [[b p2] ev2]. Qed.

Lemma bind_modify {B} g (f : unit → act (M:=M) B) e p : (modify g ≫= f) e p = f tt e (g p).
Proof. unfold mbind, act_bind, modify. by destruct (f tt e (g p)) as [[b p2] ev2]. Qed.

Lemma bind_skip {B} (f : unit → act (M:=M) B) e p : (skip ≫= f) e p = f tt e p.
Proof. unfold mbind, act_bind, skip, mret, act_ret. by destruct (f tt e p) as [[b p2] ev2]. Qed.

Lemma bind_emit {B} ef (f : unit → act (M:=M) B) e p :
  (emit ef ≫= f) e p = let r := f tt e p in (result r, final r, ef :: trace r).
Proof. unfold mbind, act_bind, emit. by destruct (f tt e p) as [[b p2] ev2]. Qed.

Lemma act_eta {A} (r : A * PeerContext * list (effect (M:=M))) : r = (result r, final r, trace r).
Proof. by destruct r as [[a p] ev]. Qed.

(** *** Closed forms *)

(** The answers [closeLocalRequests] gives. *)
Definition notices (st : ResponseStatusCode) (e : Env) (p : PeerContext) : list (effect (M:=M)) :=
  concat (map (λ i, map (λ fb, OnResponse fb i st []) (live e p)) (sorted_elements (local_request_ids_ p))).

(** The stream of the requests endpoint. *)
Definition endpoint_stream (p : PeerContext) : option StreamPtr :=
  ep ← requests_endpoint_ p; getStream (queues p) ep.

(** The state when [closeStream] has dropped the stream [s]. *)
Definition dropped (s : StreamPtr) (ctx : StreamCtx) (p : PeerContext) : PeerContext :=
  let p := set_remote (filter (λ '(i, _), i ∉ remote_request_ids ctx) (remote_requests_streams_ p)) p in
  let p := set_streams (delete s (streams_ p)) p in
  let p := if bool_decide (endpoint_stream p = Some s) then set_endpoint None (set_local_ids ∅ p) else p in
  set_queues (delete s (queues p)) p.

Definition drop_effects (s : StreamPtr) (st : ResponseStatusCode) (e : Env) (p : PeerContext) : list effect :=
  (if bool_decide (endpoint_stream p = Some s) then notices st e p else []) ++ [CloseStream s].

Lemma closeStream_with_eq k s st e p ctx : streams_ p !! s = Some ctx →
  closeStream_with (M:=M) k s st e p =
    let p' := dropped s ctx p in
    if negb (closed_ p) && bool_decide (delete s (streams_ p) = ∅) && isError st then
      let r := k st e p' in (result r, final r, drop_effects s st e p ++ trace r)
    else (tt, p', drop_effects s st e p).
Proof.
  intros Hs. unfold closeStream_with, mbind, act_bind, get, modify, emit, dropped, drop_effects.
  cbn [set_remote set_streams requests_endpoint_ queues streams_]. rewrite Hs.
  change (option_bind _ _ (λ ep, getStream (queues p) ep) (requests_endpoint_ p)) with (endpoint_stream p).
  change (endpoint_stream (set_streams _ _)) with (endpoint_stream p).
  destruct (bool_decide (endpoint_stream p = Some s)).
  - rewrite closeLocalRequests_eq. cbn.
    destruct (_ && _ && _); [|by rewrite ?app_nil_r].
    destruct (k st e _) as [[[] p4] ev4]. unfold notices, live. cbn. by rewrite <- app_assoc.
  - cbn. destruct (_ && _ && _); [|done].
    by destruct (k st e _) as [[[] p4] ev4].
Qed.

Lemma closeStream_with_none k s st e p : streams_ p !! s = None →
  closeStream_with (M:=M) k s st e p = (tt, p, []).
Proof. intros Hs. unfold closeStream_with, mbind, act_bind, get. by rewrite Hs. Qed.

Lemma dropped_fields s ctx p :
  streams_ (dropped s ctx p) = delete s (streams_ p) ∧ closed_ (dropped s ctx p) = closed_ p ∧
  close_status_ (dropped s ctx p) = close_status_ p ∧ timer_ (dropped s ctx p) = timer_ p ∧
  graphsync_feedbacks_ (dropped s ctx p) = graphsync_feedbacks_ p ∧
  queues (dropped s ctx p) = delete s (queues p) ∧
  remote_requests_streams_ (dropped s ctx p) =
    filter (λ '(i, _), i ∉ remote_request_ids ctx) (remote_requests_streams_ p).
Proof.
  unfold dropped. cbn. destruct (bool_decide _); by split_and!.
Qed.

(** *** Projections of the effects *)

Definition responses_of (ev : list (effect (M:=M))) : list (Z * RequestId * ResponseStatusCode) :=
  omap (λ ef, match ef with OnResponse fb i st _ => Some (fb, i, st) | _ => None end) ev.

Definition closed_streams (ev : list (effect (M:=M))) : list StreamPtr :=
  omap (λ ef, match ef with CloseStream s => Some s | _ => None end) ev.

Lemma responses_app e1 e2 : responses_of (e1 ++ e2) = responses_of e1 ++ responses_of e2.
Proof. apply omap_app. Qed.
Lemma closed_app e1 e2 : closed_streams (e1 ++ e2) = closed_streams e1 ++ closed_streams e2.
Proof. apply omap_app. Qed.

Lemma notices_closed st e p : closed_streams (notices st e p) = [].
Proof.
  unfold notices. induction (sorted_elements _) as [|i l IH]; cbn [map concat]; [done|].
  rewrite closed_app, IH, app_nil_r. clear IH. induction (live e p) as [|fb k IHk]; [done|]. exact IHk.
Qed.

(** One answer per awaited request and live feedback. *)
Definition one_each (st : ResponseStatusCode) (e : Env) (p : PeerContext) :
    list (Z * RequestId * ResponseStatusCode) :=
  concat (map (λ i, map (λ fb, (fb, i, st)) (live e p)) (sorted_elements (local_request_ids_ p))).

Lemma notices_responses st e p : responses_of (notices st e p) = one_each st e p.
Proof.
  unfold notices, one_each. induction (sorted_elements _) as [|i l IH]; cbn [map concat]; [done|].
  rewrite responses_app, IH. f_equal. clear. induction (live e p) as [|fb k IHk]; [done|].
  cbn [map]. unfold responses_of in *. cbn. by rewrite <- IHk.
Qed.

Lemma drop_effects_closed s st e p : closed_streams (drop_effects s st e p) = [s].
Proof. unfold drop_effects. rewrite closed_app. destruct (bool_decide _); [by rewrite notices_closed|done]. Qed.

(** *** The loop over the streams *)

(** What closing some streams has done to the local requests: nothing yet, or
    everything. *)
Definition notified (st : ResponseStatusCode) (e : Env) (p p' : PeerContext) (ev : list effect) : Prop :=
  (requests_endpoint_ p' = requests_endpoint_ p ∧ local_request_ids_ p' = local_request_ids_ p ∧
   responses_of ev = []) ∨
  (requests_endpoint_ p ≠ None ∧ requests_endpoint_ p' = None ∧ local_request_ids_ p' = ∅ ∧
   responses_of ev = one_each st e p).

Lemma dropped_notified s ctx st e p : notified st e p (dropped s ctx p) (drop_effects s st e p).
Proof.
  unfold notified, dropped, drop_effects. cbn. unfold endpoint_stream. cbn.
  destruct (requests_endpoint_ p) as [ep|] eqn:Hep; cbn.
  - case_bool_decide.
    + right. rewrite responses_app, notices_responses. cbn. by rewrite app_nil_r.
    + left. cbn. by rewrite ?Hep.
  - left. cbn. by rewrite ?Hep.
Qed.

Lemma notified_trans st e p p1 p2 ev1 ev2 :
  graphsync_feedbacks_ p1 = graphsync_feedbacks_ p →
  notified st e p p1 ev1 → notified st e p1 p2 ev2 → notified st e p p2 (ev1 ++ ev2).
Proof.
  intros Hfb [(H1 & H2 & H3)|(H1 & H2 & H3 & H4)] [(K1 & K2 & K3)|(K1 & K2 & K3 & K4)];
    unfold notified; rewrite responses_app.
  - left. by rewrite K1, K2, H3, K3.
  - right. split; [by rewrite <- H1|]. rewrite H3, K4. unfold one_each, live. by rewrite H2, Hfb.
  - right. by rewrite K1, K2, H4, K3, app_nil_r.
  - by destruct K1.
Qed.

Lemma head_sorted (s : gset Z) x : head (sorted_elements s) = Some x → x ∈ s.
Proof.
  intros Hh. apply elem_of_sorted_elements. destruct (sorted_elements s); [done|].
  cbn in Hh. simplify_eq. set_solver.
Qed.

Lemma head_sorted_none (s : gset Z) : head (sorted_elements s) = None → s = ∅.
Proof.
  intros Hh. apply leibniz_equiv. intros x. rewrite <- elem_of_sorted_elements.
  destruct (sorted_elements s); [set_solver|done].
Qed.

Lemma close_streams_spec n st e p :
  (base.size (streams_ p) ≤ n)%nat → closed_ p = true → remote_requests_streams_ p = ∅ →
  let r := close_streams (M:=M) n st e p in
  streams_ (final r) = ∅ ∧ remote_requests_streams_ (final r) = ∅ ∧ closed_ (final r) = true ∧
  close_status_ (final r) = close_status_ p ∧ timer_ (final r) = timer_ p ∧
  graphsync_feedbacks_ (final r) = graphsync_feedbacks_ p ∧
  closed_streams (trace r) ≡ₚ elements (dom (streams_ p)) ∧
  notified st e p (final r) (trace r).
Proof.
  revert p. induction n as [|n IH]; intros p Hn Hc Hr; cbn zeta.
  { assert (streams_ p = ∅) as Hs by (apply map_size_empty_inv; lia).
    cbn. unfold trace, final. cbn. rewrite Hs. split_and!; try done. by left. }
  cbn [close_streams]. rewrite bind_final, bind_trace. unfold get. cbv beta. rewrite ?final_pair, ?result_pair, ?trace_pair.
  destruct (head (sorted_elements (dom (streams_ p)))) as [s|] eqn:Hh.
  2: { apply head_sorted_none in Hh. apply dom_empty_inv_L in Hh. rewrite Hh. unfold skip.
       cbn. unfold final, trace. cbn. split_and!; try done. by left. }
  apply head_sorted in Hh as Hin. apply elem_of_dom in Hin as [ctx Hctx].
  rewrite bind_final, bind_trace, (closeStream_with_eq _ _ _ _ _ ctx) by done. rewrite Hc. cbn [negb andb].
  cbv zeta. rewrite ?final_pair, ?trace_pair, ?result_pair.
  destruct (dropped_fields s ctx p) as (Hs & Hc' & Hst & Ht & Hfb & Hq & Hrm).
  destruct (IH (dropped s ctx p)) as (I1 & I2 & I3 & I4 & I5 & I6 & I7 & I8).
  - rewrite Hs. pose proof (map_size_delete_Some s (streams_ p) ltac:(by eexists)). 
    assert (base.size (streams_ p) ≠ 0)%nat by (intros Hz%map_size_empty_inv; rewrite Hz in Hctx; done). lia.
  - by rewrite Hc'.
  - rewrite Hrm, Hr. done.
  - rewrite I1, I2, I3, I4, I5, I6. split_and!; try done.
    + rewrite !app_nil_l, closed_app, drop_effects_closed, I7, Hs, dom_delete_L.
      assert (dom (streams_ p) = {[s]} ∪ (dom (streams_ p) ∖ {[s]})) as Hd.
      { apply set_eq. intros x. destruct (decide (x = s)); [subst|]; set_solver by (apply elem_of_dom; eauto). }
      rewrite Hd at 2. rewrite elements_union_singleton by set_solver. done.
    + rewrite app_nil_l. eapply notified_trans; [exact Hfb| |exact I8]. apply dropped_notified.
Qed.

(** The answers [close] gives: one per awaited request and live feedback if there
    is a requests endpoint. *)
Definition close_answers (st : ResponseStatusCode) (e : Env) (p : PeerContext) : list (Z * RequestId * ResponseStatusCode) :=
  match requests_endpoint_ p with Some _ => one_each st e p | None => [] end.

(** What [close] does to an open context. *)
Definition closes (st : ResponseStatusCode) (e : Env) (p : PeerContext) (r : unit * PeerContext * list (effect (M:=M))) : Prop :=
  closed_ (final r) = true ∧ close_status_ (final r) = st ∧
  streams_ (final r) = ∅ ∧ remote_requests_streams_ (final r) = ∅ ∧ requests_endpoint_ (final r) = None ∧
  local_request_ids_ (final r) = match requests_endpoint_ p with Some _ => ∅ | None => local_request_ids_ p end ∧
  closed_streams (trace r) ≡ₚ elements (dom (streams_ p)) ∧ responses_of (trace r) = close_answers st e p ∧
  (if bool_decide (st = RS_REJECTED_LOCALLY) then last (trace r) = Some (PeerClosed RS_REJECTED_LOCALLY)
   else timer_ (final r) = PeerClosedTimer ∧ last (trace r) = Some (Schedule 0)).

Lemma close_facts st e p : closed_ p = false → closes st e p (close (M:=M) st e p).
Proof.
  intros Hc. unfold closes, close_answers, close. rewrite bind_get, Hc, !bind_modify, bind_get.
  set (p0 := set_remote ∅ (set_closed st p)).
  destruct (close_streams_spec (base.size (streams_ p0)) st e p0) as (I1 & I2 & I3 & I4 & I5 & I6 & I7 & I8);
    [done|done|done|].
  rewrite (bind_eq _ _ _ _ _ _ _ (act_eta _)). cbv zeta.
  set (r0 := close_streams (base.size (streams_ p0)) st e p0) in *.
  rewrite bind_get.
  set (m := match requests_endpoint_ (final r0) with Some _ => closeLocalRequests st | None => skip end).
  assert (requests_endpoint_ (final (m e (final r0))) = None ∧
    local_request_ids_ (final (m e (final r0))) = match requests_endpoint_ p with Some _ => ∅ | None => local_request_ids_ p end ∧
    streams_ (final (m e (final r0))) = ∅ ∧ remote_requests_streams_ (final (m e (final r0))) = ∅ ∧
    closed_ (final (m e (final r0))) = true ∧ close_status_ (final (m e (final r0))) = st ∧
    closed_streams (trace (m e (final r0))) = [] ∧
    responses_of (trace r0 ++ trace (m e (final r0))) = match requests_endpoint_ p with Some _ => one_each st e p | None => [] end)
    as (J1 & J2 & J3 & J4 & J5 & J6 & J7 & J8).
  { subst m. rewrite responses_app. destruct I8 as [(K1 & K2 & K3)|(K1 & K2 & K3 & K4)].
    - rewrite K1. cbn [p0 set_remote set_closed requests_endpoint_].
      destruct (requests_endpoint_ p) as [ep|] eqn:Hep; [|by cbn; rewrite K1, K2, K3].
      rewrite closeLocalRequests_eq, final_pair, trace_pair. cbn.
      fold (notices st e (final r0)). rewrite notices_closed, K3, notices_responses.
      split_and!; try done. cbn. unfold one_each, live. by rewrite I6, K2.
    - rewrite K2. change (skip e (final r0)) with (tt, final r0, @nil (effect (M:=M))).
      rewrite !final_pair, !trace_pair, K4. cbn in K1. destruct (requests_endpoint_ p); [|done].
      split_and!; try done. cbn. by rewrite app_nil_r. }
  rewrite (bind_eq m _ _ _ _ _ _ (act_eta _)). cbv zeta. set (r1 := m e (final r0)) in *.
  case_bool_decide as Hrj; [|rewrite bind_modify]; unfold emit; rewrite !final_pair, !trace_pair; cbn [app];
    (split_and!; try done; [rewrite !closed_app, J7, I7; cbn; by rewrite !app_nil_r
      |rewrite app_assoc, responses_app, J8; cbn; by rewrite app_nil_r
      |by rewrite app_assoc, last_snoc]).
Qed.

Lemma close_answers_endpoint st e p : requests_endpoint_ p ≠ None → close_answers st e p = one_each st e p.
Proof. unfold close_answers. by destruct (requests_endpoint_ p). Qed.

End closing.

(** ** The invariant of a context *)

Section invariant.
Context {M : Type} `{!Multiformats M, !Protobuf}.

(** A request of the peer is mapped to the open stream it came on, which knows
    it; a queue belongs to its stream and is active; the queue a stream's context
    or the requests endpoint refers to exists; a response endpoint has a queue. *)
Record Inv (p : PeerContext) : Prop := mkInv {
  inv_remote i s : remote_requests_streams_ p !! i = Some s →
    ∃ ctx, streams_ p !! s = Some ctx ∧ i ∈ remote_request_ids ctx;
  inv_queue s ctx : streams_ p !! s = Some ctx → has_queue ctx = true → is_Some (queues p !! s);
  inv_response s ctx : streams_ p !! s = Some ctx → is_Some (response_endpoint ctx) → has_queue ctx = true;
  inv_queues s q : queues p !! s = Some q → stream (state_ q) = Some s ∧ active (state_ q) = true;
  inv_endpoint ep s : requests_endpoint_ p = Some ep → queue_ ep = Some s → is_Some (queues p !! s)
}.

Definition pres {A} (m : act (M:=M) A) : Prop := ∀ e p, Inv p → Inv (final (m e p)).

Lemma pres_bind {A B} (m : act (M:=M) A) (f : A → act B) : pres m → (∀ a, pres (f a)) → pres (m ≫= f).
Proof. intros Hm Hf e p HI. rewrite bind_final. by apply Hf, Hm. Qed.

Lemma pres_get {A B} (g : PeerContext → A) (f : A → act (M:=M) B) : (∀ a, pres (f a)) → pres (get g ≫= f).
Proof. intros Hf e p HI. rewrite bind_get. by apply Hf. Qed.

Lemma pres_env {A B} (g : Env → A) (f : A → act (M:=M) B) : (∀ a, pres (f a)) → pres (env g ≫= f).
Proof. intros Hf e p HI. rewrite bind_env. by apply Hf. Qed.

Lemma pres_ret {A} (a : A) : pres (mret a).
Proof. by intros e p HI. Qed.

Lemma pres_emit ef : pres (emit ef).
Proof. by intros e p HI. Qed.

Lemma pres_modify f : (∀ p, Inv p → Inv (f p)) → pres (modify f).
Proof. intros Hf e p HI. by apply Hf. Qed.

Lemma pres_for_each {A} (l : list A) f : (∀ x, pres (f x)) → pres (for_each l f).
Proof.
  intros Hf. induction l as [|x l IH]; cbn; [apply pres_ret|]. apply pres_bind; [done|]. by intros _.
Qed.

Lemma pres_feedback mk : pres (feedback mk).
Proof. intros e p HI. by rewrite feedback_eq. Qed.

(** *** Changes of the state *)

(** Parts that are not in the invariant. *)
Lemma inv_same p p' :
  remote_requests_streams_ p' = remote_requests_streams_ p → streams_ p' = streams_ p →
  queues p' = queues p → requests_endpoint_ p' = requests_endpoint_ p → Inv p → Inv p'.
Proof. intros E1 E2 E3 E4 [H1 H2 H3 H4 H5]. split; rewrite ?E1, ?E2, ?E3, ?E4; done. Qed.

Lemma inv_no_endpoint p : Inv p → Inv (set_endpoint None (set_local_ids ∅ p)).
Proof. intros [H1 H2 H3 H4 H5]. by split. Qed.

Lemma inv_endpoint_same p ep ep' : Inv p → requests_endpoint_ p = Some ep → queue_ ep' = queue_ ep →
  Inv (set_endpoint (Some ep') p).
Proof.
  intros [H1 H2 H3 H4 H5] Hep Hq. split; try done. cbn. intros ? s [= <-]. rewrite Hq. by apply H5.
Qed.

Lemma inv_new_endpoint p : Inv p → Inv (set_endpoint (Some new_OutboundEndpoint) p).
Proof. intros [H1 H2 H3 H4 H5]. split; try done. cbn. by intros ? s [= <-]. Qed.

(** A queue of the same stream replaces another. *)
Lemma inv_set_queue p s q : Inv p → stream (state_ q) = Some s → active (state_ q) = true →
  Inv (set_queues (<[s := q]> (queues p)) p).
Proof.
  intros [H1 H2 H3 H4 H5] Hq Ha. split; try done; cbn.
  - intros s' ctx Hs Hh. rewrite lookup_insert_is_Some. destruct (decide (s = s')); [by left|right; eauto].
  - intros s' q' [[<- <-]|[? ?]]%lookup_insert_Some; eauto.
  - intros ep s' Hep Hs. rewrite lookup_insert_is_Some. destruct (decide (s = s')); [by left|right; eauto].
Qed.

(** Changes of one stream's context that keep its ids and its queue. *)
Lemma inv_alter p s f : Inv p →
  (∀ ctx, remote_request_ids (f ctx) = remote_request_ids ctx) →
  (∀ ctx, streams_ p !! s = Some ctx → has_queue (f ctx) = true → is_Some (queues p !! s)) →
  (∀ ctx, streams_ p !! s = Some ctx → is_Some (response_endpoint (f ctx)) → has_queue (f ctx) = true) →
  Inv (set_streams (alter f s (streams_ p)) p).
Proof.
  intros [H1 H2 H3 H4 H5] Hi Hq Hr. split; try done; cbn.
  - intros i s' Hs. destruct (H1 i s' Hs) as (ctx & Hc & Hin).
    destruct (decide (s = s')) as [<-|Hne].
    + exists (f ctx). rewrite lookup_alter_eq, Hc. split; [done|by rewrite Hi].
    + exists ctx. by rewrite lookup_alter_ne.
  - intros s' ctx' [(<- & ctx & Hc & ->)|[? ?]]%lookup_alter_Some; [|eauto]. by eapply Hq.
  - intros s' ctx' [(<- & ctx & Hc & ->)|[? ?]]%lookup_alter_Some; [|eauto]. by eapply Hr.
Qed.

Lemma inv_dropped p s ctx : Inv p → streams_ p !! s = Some ctx → Inv (dropped s ctx p).
Proof.
  intros HI Hs. pose proof HI as [H1 H2 H3 H4 H5].
  assert (∀ ep s', requests_endpoint_ (dropped s ctx p) = Some ep → queue_ ep = Some s' →
    is_Some (queues p !! s') ∧ s' ≠ s) as Hep.
  { unfold dropped. cbn. intros ep s' Hep Hq. unfold endpoint_stream in Hep. cbn in Hep.
    case_bool_decide as Hst; [done|]. cbn in Hep. split; [eauto|]. intros ->. apply Hst.
    rewrite Hep. cbn. unfold getStream. rewrite Hq. cbn. destruct (H5 ep s Hep Hq) as [q Hqs].
    rewrite Hqs. cbn. by apply H4. }
  destruct (dropped_fields s ctx p) as (E1 & E2 & E3 & E4 & E5 & E6 & E7).
  split; rewrite ?E1, ?E6, ?E7.
  - intros i s' [Hr Hi]%map_lookup_filter_Some. destruct (H1 i s' Hr) as (ctx' & Hc & Hin).
    exists ctx'. split; [|done]. apply lookup_delete_Some. split; [|done]. intros <-. by simplify_eq.
  - intros s' ctx' [Hne Hc]%lookup_delete_Some Hh. rewrite lookup_delete_ne by done. eauto.
  - intros s' ctx' [Hne Hc]%lookup_delete_Some. eauto.
  - intros s' q [Hne Hq]%lookup_delete_Some. eauto.
  - intros ep s' He Hq. destruct (Hep ep s' He Hq) as [? ?]. by rewrite lookup_delete_ne.
Qed.

(** *** The queue operations keep the stream *)

Lemma queue_op_stream cw q q' ev (data : SharedData) (res : outcome error_code Z) :
  queue_enqueue cw data q = (q', ev) ∨ onMessageWritten cw res q = (q', ev) →
  stream (state_ q') = stream (state_ q) ∧ active (state_ q') = active (state_ q).
Proof.
  intros [He|He]; unfold queue_enqueue, onMessageWritten, dequeue, beginWrite in He;
    repeat case_match; simplify_eq; done.
Qed.

Lemma enqueue_all_queues cw s l : ∀ qs qs' ev, enqueue_all cw s l qs = (qs', ev) →
  dom qs' = dom qs ∧ ∀ s' q', qs' !! s' = Some q' → ∃ q, qs !! s' = Some q ∧
    stream (state_ q') = stream (state_ q) ∧ active (state_ q') = active (state_ q).
Proof.
  induction l as [|b l IH]; intros qs qs' ev He; cbn [enqueue_all] in He; [simplify_eq; naive_solver|].
  destruct (enqueue_at cw s (Some b) qs) as [qs1 ev1] eqn:H1.
  destruct (enqueue_all cw s l qs1) as [qs2 ev2] eqn:H2. simplify_eq.
  apply IH in H2 as [Hd Hq]. unfold enqueue_at in H1. destruct (qs !! s) as [q|] eqn:Hs; [|by simplify_eq].
  destruct (queue_enqueue cw (Some b) q) as [q1 ev3] eqn:He. simplify_eq.
  destruct (queue_op_stream cw q q1 ev1 (Some b) (success 0)) as [E1 E2]; [by left|]. split.
  - rewrite Hd, dom_insert_L. assert (s ∈ dom qs) by (apply elem_of_dom; eauto). set_solver.
  - intros s' q' Hs'. destruct (Hq s' q' Hs') as (q0 & Hq0 & F1 & F2).
    apply lookup_insert_Some in Hq0 as [[<- <-]|[Hne Hq0]]; [exists q; by rewrite F1, F2|by exists q0].
Qed.

(** Queues replaced by queues of the same streams. *)
Lemma inv_queues_same p qs : Inv p → dom qs = dom (queues p) →
  (∀ s q', qs !! s = Some q' → ∃ q, queues p !! s = Some q ∧
     stream (state_ q') = stream (state_ q) ∧ active (state_ q') = active (state_ q)) →
  Inv (set_queues qs p).
Proof.
  intros [H1 H2 H3 H4 H5] Hd Hq.
  assert (∀ s, is_Some (queues p !! s) → is_Some (qs !! s)) as Hin.
  { intros s Hs. apply elem_of_dom. rewrite Hd. by apply elem_of_dom. }
  split; try done; cbn; [eauto| |eauto].
  intros s q' Hs. destruct (Hq s q' Hs) as (q & Hqs & -> & ->). eauto.
Qed.

End invariant.

#[export] Hint Resolve pres_ret pres_emit pres_feedback : peer.
#[export] Hint Extern 1 (pres skip) => apply pres_ret : peer.

(** Follow the structure of an action. *)
Ltac keep :=
  repeat first
    [ solve [eauto with peer]
    | apply pres_get; intros ?
    | apply pres_env; intros ?
    | apply pres_bind; [|intros ?]
    | apply pres_for_each; intros ?
    | apply pres_modify; intros ?p ?HI; apply (inv_same p); done
    | case_match ].

Section preservation.
Context {M : Type} `{!Multiformats M, !Protobuf}.

Lemma pres_reschedule d : pres (M:=M) (reschedule d).
Proof. unfold reschedule. keep. Qed.
#[local] Hint Resolve pres_reschedule : peer.

Lemma pres_resetPeerTimeout : pres (M:=M) resetPeerTimeout.
Proof. unfold resetPeerTimeout. keep. Qed.
#[local] Hint Resolve pres_resetPeerTimeout : peer.

Lemma pres_shiftExpireTime s : pres (M:=M) (shiftExpireTime s).
Proof.
  unfold shiftExpireTime. apply pres_env. intros n. apply pres_modify. intros p HI.
  apply inv_alter; [done|done|..]; cbn; intros ctx Hc; by eapply HI.
Qed.
#[local] Hint Resolve pres_shiftExpireTime : peer.

Lemma pres_closeLocalRequests st : pres (M:=M) (closeLocalRequests st).
Proof. intros e p HI. rewrite closeLocalRequests_eq. by apply inv_no_endpoint. Qed.
#[local] Hint Resolve pres_closeLocalRequests : peer.

Lemma pres_closeStream_with k s st : (∀ st, pres (M:=M) (k st)) → pres (closeStream_with k s st).
Proof.
  intros Hk e p HI. destruct (streams_ p !! s) as [ctx|] eqn:Hs.
  - rewrite (closeStream_with_eq _ _ _ _ _ ctx) by done. cbv zeta. pose proof (inv_dropped _ _ _ HI Hs).
    destruct (_ && _ && _); rewrite final_pair; [by apply Hk|done].
  - by rewrite closeStream_with_none.
Qed.

Lemma pres_close_streams n st : pres (M:=M) (close_streams n st).
Proof.
  induction n as [|n IH]; cbn [close_streams]; [apply pres_ret|].
  apply pres_get. intros [s|]; [|apply pres_ret]. apply pres_bind; [|by intros _].
  apply pres_closeStream_with. intros _. apply pres_ret.
Qed.
#[local] Hint Resolve pres_close_streams : peer.

Lemma pres_close st : pres (M:=M) (close st).
Proof.
  unfold close. apply pres_get. intros [|]; [apply pres_ret|].
  apply pres_bind; [apply pres_modify; intros p HI; by apply (inv_same p)|intros _].
  apply pres_bind; [apply pres_modify; intros p [H1 H2 H3 H4 H5]; split; try done|intros _].
  keep.
Qed.
#[local] Hint Resolve pres_close : peer.

Lemma pres_closeStream s st : pres (M:=M) (closeStream s st).
Proof. apply pres_closeStream_with, pres_close. Qed.
#[local] Hint Resolve pres_closeStream : peer.

Lemma pres_onWriterEvent so r : pres (M:=M) (onWriterEvent so r).
Proof. unfold onWriterEvent. keep. Qed.
#[local] Hint Resolve pres_onWriterEvent : peer.

Lemma pres_queue_events ev : pres (M:=M) (queue_events ev).
Proof. unfold queue_events. keep. Qed.
#[local] Hint Resolve pres_queue_events : peer.

Lemma pres_onWritten s r : pres (M:=M) (onWritten s r).
Proof.
  intros e p HI. unfold onWritten. rewrite bind_get. destruct (queues p !! s) as [q|] eqn:Hq; [|done].
  rewrite bind_env. destruct (onMessageWritten (closedW e) r q) as [q' ev] eqn:He. rewrite bind_modify.
  apply pres_queue_events.
  destruct (queue_op_stream (closedW e) q q' ev None r) as [E1 E2]; [by right|].
  destruct (inv_queues _ HI s q Hq). apply inv_set_queue; congruence.
Qed.

Lemma pres_createMessageQueue s : pres (M:=M) (createMessageQueue s).
Proof.
  intros e p HI. unfold createMessageQueue. rewrite bind_get.
  destruct (streams_ p !! s) as [ctx|] eqn:Hs; [|done]. destruct (has_queue ctx); [done|].
  rewrite bind_modify. unfold modify. rewrite final_pair.
  assert (Inv (set_queues (<[s := new_MessageQueue s]> (queues p)) p)) as HI' by (by apply inv_set_queue).
  apply (inv_same (set_streams (alter set_ctx_queue s (streams_ p)) (set_queues (<[s := new_MessageQueue s]> (queues p)) p)));
    [done| |done|done|].
  - cbn. apply map_eq. intros s'. destruct (decide (s = s')) as [<-|].
    + by rewrite lookup_insert_eq, lookup_alter_eq, Hs.
    + by rewrite lookup_insert_ne, lookup_alter_ne.
  - apply (inv_alter (set_queues _ p)); [done|done|..]; cbn; [|done].
    intros. by rewrite lookup_insert_eq.
Qed.
#[local] Hint Resolve pres_createMessageQueue : peer.

Lemma createMessageQueue_has s e p ctx : streams_ p !! s = Some ctx →
  ∃ ctx', streams_ (final (createMessageQueue (M:=M) s e p)) !! s = Some ctx' ∧ has_queue ctx' = true ∧
    remote_request_ids ctx' = remote_request_ids ctx ∧ response_endpoint ctx' = response_endpoint ctx.
Proof.
  intros Hs. unfold createMessageQueue. rewrite bind_get, Hs. destruct (has_queue ctx) eqn:Hh; [by exists ctx|].
  rewrite bind_modify. unfold modify. rewrite final_pair. exists (set_ctx_queue ctx). cbn.
  by rewrite lookup_insert_eq.
Qed.

Lemma insert_alter {A} (f : A → A) (m : gmap Z A) s x : m !! s = Some x → <[s := f x]> m = alter f s m.
Proof.
  intros Hs. apply map_eq. intros s'. destruct (decide (s = s')) as [<-|].
  - by rewrite lookup_insert_eq, lookup_alter_eq, Hs.
  - by rewrite lookup_insert_ne, lookup_alter_ne.
Qed.

Lemma pres_createResponseEndpoint s : pres (M:=M) (createResponseEndpoint s).
Proof.
  intros e p HI. unfold createResponseEndpoint. rewrite bind_final.
  pose proof (pres_createMessageQueue s e p HI) as HI'.
  pose proof (createMessageQueue_has s e p) as Hhas. set (p1 := final (createMessageQueue (M:=M) s e p)) in *.
  rewrite bind_get. destruct (streams_ p1 !! s) as [ctx|] eqn:Hs; [|done].
  destruct (response_endpoint ctx); [done|]. unfold modify. rewrite final_pair.
  rewrite (insert_alter (set_ctx_endpoint (Some new_MessageBuilder))) by done.
  assert (has_queue ctx = true) as Hh.
  { destruct (streams_ p !! s) as [ctx0|] eqn:Hs0.
    - destruct (Hhas ctx0 eq_refl) as (ctx' & Hc' & Hh & _). congruence.
    - subst p1. unfold createMessageQueue in Hs. rewrite bind_get, Hs0 in Hs.
      change (streams_ p !! s = Some ctx) in Hs. congruence. }
  apply inv_alter; [done|done|..]; cbn; intros ctx' Hc'; [by eapply HI'|intros; congruence].
Qed.
#[local] Hint Resolve pres_createResponseEndpoint : peer.

(** The endpoint is given the queue of [s], which exists. *)
Lemma inv_endpoint_connected s e p : Inv p → is_Some (queues p !! s) →
  Inv (final (endpoint_connected (M:=M) s e p)).
Proof.
  intros HI Hq. unfold endpoint_connected. rewrite bind_get.
  destruct (requests_endpoint_ p) as [ep|] eqn:Hep; [|done]. rewrite bind_get, bind_env.
  unfold onConnected. destruct (enqueue_all (closedW e) s _ (queues p)) as [qs ev] eqn:He.
  rewrite !bind_modify. apply pres_queue_events. apply enqueue_all_queues in He as [Hd Hqs].
  apply inv_queues_same; [|done|done]. destruct HI as [H1 H2 H3 H4 H5]. split; try done. cbn.
  by intros ? s' [= <-] [= <-].
Qed.

Lemma pres_needToConnect : pres (M:=M) needToConnect.
Proof.
  intros e p HI. unfold needToConnect. rewrite bind_get.
  destruct (requests_endpoint_ p); [done|]. rewrite bind_modify, bind_get.
  pose proof (inv_new_endpoint p HI) as HI0. set (p0 := set_endpoint (Some new_OutboundEndpoint) p) in *.
  destruct (head _) as [s|] eqn:Hh; [|done].
  apply head_sorted, elem_of_dom in Hh as [ctx Hc].
  rewrite !bind_final. destruct (createMessageQueue_has s e p0 ctx Hc) as (ctx' & Hc' & Hhas & _).
  pose proof (pres_createMessageQueue s e p0 HI0) as HI1. cbn [mret act_ret].
  apply inv_endpoint_connected; [done|]. by eapply HI1.
Qed.

(** Without streams, closing changes no queue. *)
Definition no_streams_same (p p' : PeerContext) : Prop := streams_ p' = ∅ ∧ queues p' = queues p.

Lemma close_no_streams st e p : streams_ p = ∅ → no_streams_same p (final (close (M:=M) st e p)).
Proof.
  intros Hs. unfold close. rewrite bind_get. destruct (closed_ p); [done|].
  rewrite !bind_modify, bind_get. cbn [streams_ set_remote set_closed]. rewrite Hs.
  change (base.size (∅ : gmap StreamPtr StreamCtx)) with 0%nat. cbn [close_streams].
  rewrite bind_skip, bind_get, bind_final.
  set (p0 := set_remote ∅ (set_closed st p)).
  assert (no_streams_same p (final ((match requests_endpoint_ p0 with
    Some _ => closeLocalRequests (M:=M) st | None => skip end) e p0))) as Hm.
  { destruct (requests_endpoint_ p0); [rewrite closeLocalRequests_eq|]; done. }
  destruct (bool_decide _); [done|]. by rewrite bind_modify.
Qed.

Lemma queue_events_no_streams ev e p : streams_ p = ∅ →
  no_streams_same p (final (queue_events (M:=M) ev e p)).
Proof.
  revert p. induction ev as [|x ev IH]; intros p Hs; [done|]. unfold queue_events. cbn [for_each].
  rewrite bind_final. change (for_each ev _) with (queue_events (M:=M) ev).
  assert (no_streams_same p (final (match x with Write s d => emit (WriteStream s d)
    | Feedback so res => onWriterEvent (M:=M) so res end e p))) as [H1 H2].
  { destruct x as [|so [[]|err]]; [done|..]; unfold onWriterEvent; rewrite bind_get; (destruct (closed_ p); [done|]).
    - rewrite bind_final. assert (no_streams_same p (final (resetPeerTimeout (M:=M) e p))) as [K1 K2].
      { unfold resetPeerTimeout. rewrite bind_get. destruct (closed_ p); [done|]. unfold reschedule.
        rewrite bind_get, bind_env. by destruct (timer_ p); [..|rewrite bind_modify|]. }
      destruct so as [s|]; [|done]. unfold shiftExpireTime. rewrite bind_env. unfold modify. rewrite final_pair.
      unfold no_streams_same. cbn. rewrite K1, K2. split; [|done]. apply map_eq. intros j. rewrite lookup_alter, lookup_empty. by case_decide.
    - by apply close_no_streams. }
  destruct (IH _ H1) as [K1 K2]. split; [done|by rewrite K2].
Qed.

Lemma insert_inv_streams p s ctx : Inv p → streams_ p !! s = None →
  remote_request_ids ctx = ∅ → response_endpoint ctx = None →
  (has_queue ctx = true → is_Some (queues p !! s)) → Inv (set_streams (<[s := ctx]> (streams_ p)) p).
Proof.
  intros [H1 H2 H3 H4 H5] Hs Hi Hr Hq. split; try done; cbn.
  - intros i s' Hrm. destruct (H1 i s' Hrm) as (c & Hc & Hin). exists c. split; [|done].
    rewrite lookup_insert_ne; [done|]. intros <-. congruence.
  - intros s' c [[<- <-]|[? ?]]%lookup_insert_Some; eauto.
  - intros s' c [[<- <-]|[? ?]]%lookup_insert_Some; [|eauto]. rewrite Hr. by intros [].
Qed.

Lemma pres_finishStreamConfig s : pres (M:=M) (finishStreamConfig s).
Proof.
  intros e p HI. unfold finishStreamConfig. rewrite bind_emit. cbv zeta. rewrite final_pair, bind_get.
  set (st := getState p). rewrite bind_final.
  set (m := if bool_decide (st = is_connecting) then _ else skip).
  assert (Inv (final (m e p)) ∧ (st = is_connecting → is_Some (queues (final (m e p)) !! s))) as [HI1 Hq].
  { subst m. case_bool_decide as Hst; [|by split]. rewrite bind_modify.
    assert (Inv (set_queues (<[s := new_MessageQueue s]> (queues p)) p)) as HI0 by (by apply inv_set_queue).
    split; [apply inv_endpoint_connected; [done|]; cbn; by rewrite lookup_insert_eq|]. intros _.
    assert (streams_ p = ∅) as Hs.
    { subst st. unfold getState in Hst. destruct (closed_ p); [done|]. by destruct (bool_decide_reflect (streams_ p = ∅)). }
    unfold endpoint_connected. rewrite bind_get. cbn [requests_endpoint_ set_queues].
    destruct (requests_endpoint_ p) as [ep|]; [|cbn; by rewrite lookup_insert_eq].
    rewrite bind_get, bind_env. unfold onConnected.
    destruct (enqueue_all (closedW e) s _ _) as [qs ev] eqn:He. rewrite !bind_modify.
    apply enqueue_all_queues in He as [Hd _].
    destruct (queue_events_no_streams ev e (set_queues qs (set_endpoint
      (Some (mkOutboundEndpoint [] 0 false (Some s))) (set_queues (<[s:=new_MessageQueue s]> (queues p)) p))))
      as [_ ->]; [done|]. cbn. apply elem_of_dom. rewrite Hd. cbn. set_solver. }
  set (p1 := final (m e p)) in *. clearbody p1. clear m.
  rewrite bind_env, bind_get, bind_final.
  set (m := if bool_decide (streams_ p1 = ∅) then _ else skip).
  assert (Inv (final (m e p1)) ∧ queues (final (m e p1)) = queues p1) as [HI2 Hq2].
  { subst m. case_bool_decide; [|done]. rewrite bind_modify. split; [|done]. by apply (inv_same p1). }
  set (p2 := final (m e p1)) in *. clearbody p2. clear m.
  rewrite bind_final. pose proof (pres_resetPeerTimeout e p2 HI2) as HI3.
  assert (queues (final (resetPeerTimeout (M:=M) e p2)) = queues p2) as Hq3.
  { unfold resetPeerTimeout. rewrite bind_get. destruct (closed_ p2); [done|]. unfold reschedule.
    rewrite bind_get, bind_env. by destruct (timer_ p2); [..|rewrite bind_modify|]. }
  set (p3 := final (resetPeerTimeout (M:=M) e p2)) in *. clearbody p3. unfold modify. rewrite final_pair.
  destruct (streams_ p3 !! s) as [ctx|] eqn:Hs; [by apply (inv_same p3)|].
  apply insert_inv_streams; [done|done|done|done|]. cbn. intros Hst%bool_decide_eq_true.
  rewrite Hq3, Hq2. by apply Hq.
Qed.
#[local] Hint Resolve pres_finishStreamConfig : peer.

Lemma pres_streams s ok o :
  pres (M:=M) (onWindowAdjusted s ok) ∧ pres (M:=M) (onStreamConnected o) ∧ pres (M:=M) (onStreamAccepted s).
Proof.
  unfold onWindowAdjusted, onStreamConnected, onStreamAccepted, onNewStream. split_and!; keep.
Qed.

Lemma ep_enqueue_facts cw data ep qs res ep' qs' ev : ep_enqueue cw data ep qs = (res, ep', qs', ev) →
  queue_ ep' = queue_ ep ∧ dom qs' = dom qs ∧
  ∀ s q', qs' !! s = Some q' → ∃ q, qs !! s = Some q ∧
     stream (state_ q') = stream (state_ q) ∧ active (state_ q') = active (state_ q).
Proof.
  unfold ep_enqueue. intros He. destruct data as [d|]; [|simplify_eq; naive_solver].
  destruct (size d =? 0); [simplify_eq; naive_solver|]. destruct (_ <? _); [simplify_eq; naive_solver|].
  destruct (queue_ ep) as [s|] eqn:Hq; [|simplify_eq; naive_solver].
  destruct (enqueue_at cw s (Some d) qs) as [qs1 ev1] eqn:H1. simplify_eq. split; [done|].
  apply (enqueue_all_queues cw s [d] qs qs' (ev ++ [])). cbn [enqueue_all]. by rewrite H1.
Qed.

Lemma inv_endpoint_enqueue ep body e p : Inv p → requests_endpoint_ p = Some ep →
  Inv (final (endpoint_enqueue (M:=M) ep body e p)).
Proof.
  intros HI Hep. unfold endpoint_enqueue. rewrite bind_get, bind_env.
  destruct (ep_enqueue (closedW e) body ep (queues p)) as [[[res ep'] qs'] ev] eqn:He.
  rewrite !bind_modify, bind_final. apply ep_enqueue_facts in He as (Hq & Hd & Hqs).
  change (Inv (final (queue_events (M:=M) ev e (set_queues qs' (set_endpoint (Some ep') p))))).
  apply pres_queue_events, inv_queues_same; [|done|done]. by eapply inv_endpoint_same.
Qed.

Lemma pres_enqueueRequest i body : pres (M:=M) (enqueueRequest i body).
Proof.
  intros e p HI. destruct (closed_ p) eqn:Hc; [by rewrite enqueueRequest_closed|].
  destruct (requests_endpoint_ p) as [ep|] eqn:Hep.
  - rewrite (enqueueRequest_endpoint _ _ _ _ ep) by done. cbv zeta.
    pose proof (inv_endpoint_enqueue ep body e p HI Hep) as HI1.
    destruct (is_success _); rewrite final_pair; [by apply (inv_same (final (endpoint_enqueue (M:=M) ep body e p)))|].
    by apply pres_close.
  - rewrite enqueueRequest_no_endpoint by done. by apply pres_close.
Qed.

Lemma pres_cancelRequest i body : pres (M:=M) (cancelRequest i body).
Proof.
  intros e p HI. unfold cancelRequest. rewrite bind_get. destruct (closed_ p); [done|].
  rewrite bind_modify, bind_get. set (p0 := set_local_ids _ p).
  assert (Inv p0) as HI0 by (by apply (inv_same p)).
  destruct (requests_endpoint_ p0) as [ep|] eqn:Hep; [|done]. rewrite bind_final.
  by apply inv_endpoint_enqueue.
Qed.

(** The result of an operation of a response endpoint. *)
Lemma inv_response_done s b q ev e p q0 : Inv p → queues p !! s = Some q0 →
  stream (state_ q) = stream (state_ q0) → active (state_ q) = active (state_ q0) →
  (∀ ctx, streams_ p !! s = Some ctx → has_queue ctx = true) →
  Inv (final (response_done (M:=M) s b q ev e p)).
Proof.
  intros HI Hq Hs Ha Hh. unfold response_done. rewrite !bind_modify. apply pres_queue_events.
  destruct (inv_queues _ HI s q0 Hq). apply inv_set_queue; [|congruence|congruence].
  apply inv_alter; [done|done|..]; cbn; intros ctx Hc; [by eapply HI|]. intros _. by apply Hh.
Qed.

Lemma send_queue cw i st x (b : MessageBuilder) q res b' q' ev :
  send cw i st x b q = (res, b', q', ev) →
  stream (state_ q') = stream (state_ q) ∧ active (state_ q') = active (state_ q).
Proof.
  unfold send. intros He. destruct (serialize _) as [d|]; [|by simplify_eq].
  destruct (_ <? _); [by simplify_eq|]. destruct (queue_enqueue cw d q) as [q1 ev1] eqn:H1. simplify_eq.
  apply (queue_op_stream cw q q' ev d (success 0)). by left.
Qed.

Lemma addBlock_queue cw i (c : CID M) d b q res b' q' ev :
  endpoint_addBlockToResponse cw i c d b q = (res, b', q', ev) →
  stream (state_ q') = stream (state_ q) ∧ active (state_ q') = active (state_ q).
Proof.
  unfold endpoint_addBlockToResponse. intros He. destruct (_ <? _); [by simplify_eq|].
  destruct (_ <? _).
  - destruct (sendPartialResponse cw i b q) as [[[r b1] q1] ev1] eqn:Hs. apply send_queue in Hs as [E1 E2].
    destruct r; [destruct (addDataBlock c d b1)|]; simplify_eq; done.
  - destruct (addDataBlock c d b). by simplify_eq.
Qed.

Lemma response_parts_some s p b q : Inv p → response_parts s p = Some (b, q) →
  queues p !! s = Some q ∧ ∀ ctx, streams_ p !! s = Some ctx → has_queue ctx = true.
Proof.
  intros HI. unfold response_parts. destruct (streams_ p !! s) as [ctx|] eqn:Hs; cbn; [|done].
  destruct (response_endpoint ctx) as [b0|] eqn:Hb; cbn; [|done].
  destruct (queues p !! s) as [q0|] eqn:Hq; cbn; [|done]. intros [= -> ->]. split; [done|].
  intros ? [= <-]. eapply HI; [done|]. by rewrite Hb.
Qed.

Lemma pres_sendResponse i st x : pres (M:=M) (sendResponse i st x).
Proof.
  intros e p HI. unfold sendResponse. rewrite bind_get. destruct (findResponseSink i p) as [s|]; [|done].
  rewrite bind_final. pose proof (pres_createResponseEndpoint s e p HI) as HI1.
  set (p1 := final (createResponseEndpoint (M:=M) s e p)) in *. rewrite bind_get.
  destruct (response_parts s p1) as [[b q]|] eqn:Hp; [|done]. apply response_parts_some in Hp as [Hq Hh]; [|done].
  rewrite bind_env. destruct (endpoint_sendResponse (closedW e) i st x b q) as [[[res b'] q'] ev] eqn:He.
  apply send_queue in He as [E1 E2]. rewrite bind_final.
  pose proof (inv_response_done s b' q' ev e p1 q HI1 Hq E1 E2 Hh).
  destruct (is_success res); [done|]. by apply pres_close.
Qed.
#[local] Hint Resolve pres_sendResponse : peer.

Lemma pres_addBlockToResponse i c d : pres (M:=M) (addBlockToResponse i c d).
Proof.
  intros e p HI. unfold addBlockToResponse. rewrite bind_get. destruct (findResponseSink i p) as [s|]; [|done].
  rewrite bind_final. pose proof (pres_createResponseEndpoint s e p HI) as HI1.
  set (p1 := final (createResponseEndpoint (M:=M) s e p)) in *. rewrite bind_get.
  destruct (response_parts s p1) as [[b q]|] eqn:Hp; [|done]. apply response_parts_some in Hp as [Hq Hh]; [|done].
  rewrite bind_env. destruct (endpoint_addBlockToResponse (closedW e) i c d b q) as [[[res b'] q'] ev] eqn:He.
  apply addBlock_queue in He as [E1 E2]. rewrite bind_final.
  pose proof (inv_response_done s b' q' ev e p1 q HI1 Hq E1 E2 Hh).
  destruct res; [done| |done]. rewrite bind_final. by apply pres_close.
Qed.

(** The peer's request [i] is registered on [s]. *)
Lemma inv_register p s i : Inv p → is_Some (streams_ p !! s) →
  Inv (set_streams (alter (λ ctx, set_ctx_ids ({[i]} ∪ remote_request_ids ctx) ctx) s (streams_ p))
        (set_remote (<[i := s]> (remote_requests_streams_ p)) p)).
Proof.
  intros [H1 H2 H3 H4 H5] [ctx0 Hs]. split; try done; cbn.
  - intros j s' [[<- <-]|[Hne Hr]]%lookup_insert_Some.
    + rewrite lookup_alter_eq, Hs. eexists. split; [done|]. cbn. set_solver.
    + destruct (H1 j s' Hr) as (c & Hc & Hin). destruct (decide (s = s')) as [<-|].
      * rewrite lookup_alter_eq, Hc. eexists. split; [done|]. cbn. set_solver.
      * exists c. by rewrite lookup_alter_ne.
  - intros s' c [(<- & c0 & Hc & ->)|[? ?]]%lookup_alter_Some; cbn; eauto.
  - intros s' c [(<- & c0 & Hc & ->)|[? ?]]%lookup_alter_Some; cbn; eauto.
Qed.

(** The requests in [gone] are forgotten, in the map and in the stream's set. *)
Lemma inv_forget p s ctx ids m : Inv p → streams_ p !! s = Some ctx → m ⊆ remote_requests_streams_ p →
  (∀ i, i ∈ remote_request_ids ctx → i ∉ ids → m !! i = None ∨ m !! i ≠ Some s) →
  Inv (set_streams (<[s := set_ctx_ids ids ctx]> (streams_ p)) (set_remote m p)).
Proof.
  intros [H1 H2 H3 H4 H5] Hs Hm Hgone. split; try done; cbn.
  - intros i s' Hi. destruct (H1 i s') as (c & Hc & Hin); [by eapply lookup_weaken|].
    destruct (decide (s = s')) as [<-|].
    + rewrite lookup_insert_eq. eexists. split; [done|]. cbn. simplify_eq.
      destruct (decide (i ∈ ids)); [done|]. destruct (Hgone i Hin); [done|congruence..].
    + exists c. by rewrite lookup_insert_ne.
  - intros s' c [[<- <-]|[? ?]]%lookup_insert_Some; cbn; eauto.
  - intros s' c [[<- <-]|[? ?]]%lookup_insert_Some; cbn; eauto.
Qed.

Lemma createResponseEndpoint_streams s e p : is_Some (streams_ p !! s) →
  is_Some (streams_ (final (createResponseEndpoint (M:=M) s e p)) !! s).
Proof.
  intros [ctx Hs]. unfold createResponseEndpoint. rewrite bind_final, bind_get.
  destruct (createMessageQueue_has s e p ctx Hs) as (ctx' & Hc' & _).
  cbv beta. rewrite Hc'. destruct (response_endpoint ctx'); [by eexists|]. unfold modify. rewrite final_pair. cbn.
  by rewrite lookup_insert_eq.
Qed.

Lemma pres_onRequest s r : pres (M:=M) (onRequest s r).
Proof.
  intros e p HI. unfold onRequest. rewrite bind_get. destruct (streams_ p !! s) as [ctx|] eqn:Hs; [|done].
  destruct (cancel r).
  - rewrite bind_modify. unfold modify. rewrite final_pair.
    apply (inv_same (set_streams (<[s := set_ctx_ids (remote_request_ids ctx ∖ {[id r]}) ctx]> (streams_ p))
      (set_remote (delete (id r) (remote_requests_streams_ p)) p))); [done..|].
    apply inv_forget; [done|done|apply delete_subseteq|]. intros i Hin Hni. left.
    apply lookup_delete_None. left.
    destruct (decide (id r = i)); [done|]. exfalso. set_solver.
  - rewrite bind_final. pose proof (pres_createResponseEndpoint s e p HI) as HI1.
    pose proof (createResponseEndpoint_streams s e p) as Hs1.
    set (p1 := final (createResponseEndpoint (M:=M) s e p)) in *. rewrite bind_get.
    destruct (remote_requests_streams_ p1 !! id r); [by apply pres_sendResponse|].
    rewrite !bind_modify. apply pres_feedback, (inv_register p1); [done|]. apply Hs1. by eexists.
Qed.
#[local] Hint Resolve pres_onRequest : peer.

Lemma pres_onResponse r : pres (M:=M) (onResponse r).
Proof. unfold onResponse. keep. Qed.
#[local] Hint Resolve pres_onResponse : peer.

Lemma pres_onBlocks l : pres (M:=M) (onBlocks l).
Proof. unfold onBlocks. keep. Qed.
#[local] Hint Resolve pres_onBlocks : peer.

Lemma pres_onReaderEvent so r : pres (M:=M) (onReaderEvent so r).
Proof.
  unfold onReaderEvent. destruct so as [s|]; [|apply pres_ret]. apply pres_get. intros [|]; [apply pres_ret|].
  destruct r as [msg|err]; [|apply pres_closeStream]. apply pres_bind; [apply pres_resetPeerTimeout|intros _].
  intros e p HI. rewrite bind_get. destruct (streams_ p !! s) as [ctx|] eqn:Hs; [|done]. rewrite bind_final.
  assert (Inv (final ((if complete_request_list msg then forget_requests (M:=M) s ctx else skip) e p))) as HI1.
  { destruct (complete_request_list msg); [|done]. unfold forget_requests. rewrite bind_modify.
    unfold modify. rewrite final_pair. apply (inv_forget p); [done|done|apply map_filter_subseteq|].
    intros i Hin _. left. apply map_lookup_filter_None. right. intros s' _. by destruct 1. }
  revert HI1. generalize (final ((if complete_request_list msg then forget_requests (M:=M) s ctx else skip) e p)).
  intros p1 HI1.
  assert (pres (M:=M) (_ ← for_each (requests msg) (onRequest s); _ ← for_each (responses msg) onResponse;
    _ ← onBlocks (data msg); shiftExpireTime s)) as Hrest by keep.
  by apply Hrest.
Qed.

(** *** The cleanup timer *)

Lemma check_streams_same n p0 l : ∀ m streams, 
  let r := check_streams n p0 l streams m in
  dom r.1.1 = dom streams ∧
  ∀ s ctx', r.1.1 !! s = Some ctx' → ∃ ctx, streams !! s = Some ctx ∧
    remote_request_ids ctx' = remote_request_ids ctx ∧ has_queue ctx' = has_queue ctx ∧
    response_endpoint ctx' = response_endpoint ctx.
Proof.
  induction l as [|s l IH]; intros m streams; cbn [check_streams]; [naive_solver|].
  destruct (streams !! s) as [ctx|] eqn:Hs; [|apply IH].
  destruct (check_stream n _ ctx m) as [[ctx1 out] m1] eqn:Hc.
  specialize (IH m1 (<[s:=ctx1]> streams)). cbn zeta in IH |- *.
  destruct (check_streams n p0 l (<[s:=ctx1]> streams) m1) as [[st to] m2]. cbn [fst] in *.
  destruct IH as [Hd Hl]. split.
  - rewrite Hd, dom_insert_L. assert (s ∈ dom streams) by (apply elem_of_dom; eauto). set_solver.
  - intros s' c' Hc'. destruct (Hl s' c' Hc') as (c & [[<- <-]|[? ?]]%lookup_insert_Some & E1 & E2 & E3);
      [|by exists c]. exists ctx. rewrite E1, E2, E3. split; [done|].
    unfold check_stream in Hc. repeat case_match; simplify_eq; done.
Qed.

Lemma inv_streams_same p st : Inv p → dom st = dom (streams_ p) →
  (∀ s ctx', st !! s = Some ctx' → ∃ ctx, streams_ p !! s = Some ctx ∧
    remote_request_ids ctx' = remote_request_ids ctx ∧ has_queue ctx' = has_queue ctx ∧
    response_endpoint ctx' = response_endpoint ctx) → Inv (set_streams st p).
Proof.
  intros [H1 H2 H3 H4 H5] Hd Hst. split; try done; cbn.
  - intros i s Hr. destruct (H1 i s Hr) as (ctx & Hc & Hin).
    assert (is_Some (st !! s)) as [c' Hc'] by (apply elem_of_dom; rewrite Hd; apply elem_of_dom; eauto).
    exists c'. split; [done|]. destruct (Hst s c' Hc') as (c & ? & -> & _). by simplify_eq.
  - intros s c' Hc'. destruct (Hst s c' Hc') as (c & ? & _ & -> & _). eauto.
  - intros s c' Hc'. destruct (Hst s c' Hc') as (c & ? & _ & -> & ->). eauto.
Qed.

Lemma pres_onStreamCleanupTimer : pres (M:=M) onStreamCleanupTimer.
Proof.
  intros e p HI. unfold onStreamCleanupTimer. rewrite bind_get.
  destruct (bool_decide (streams_ p = ∅)); [by apply pres_close|]. rewrite bind_env, bind_get.
  destruct (check_streams_same (now e) p (sorted_elements (dom (streams_ p))) 0 (streams_ p)) as [Hd Hl].
  destruct (check_streams _ _ _ _ _) as [[st to] mx]. cbn [fst] in *. rewrite bind_modify.
  pose proof (inv_streams_same p st HI Hd Hl) as HI1. revert HI1. generalize (set_streams st p). intros p1 HI1.
  assert (pres (M:=M) (_ ← for_each to (λ s, closeStream s RS_TIMEOUT);
    stop ← get (λ p, closed_ p || bool_decide (streams_ p = ∅));
    if (stop : bool) then skip else if now e <? mx then reschedule (mx - now e) else reschedule kPeerCloseDelayMsec))
    as Hrest by keep.
  by apply Hrest.
Qed.

Lemma pres_handle h : pres (handle (M:=M) h).
Proof.
  destruct h; cbn [handle].
  - unfold setOutboundAddress. keep.
  - apply pres_bind; [apply pres_needToConnect|intros; apply pres_ret].
  - apply pres_enqueueRequest.
  - apply pres_cancelRequest.
  - by apply (pres_streams 0 true).
  - by apply (pres_streams s true None).
  - by apply (pres_streams s ok None).
  - apply pres_onReaderEvent.
  - apply pres_onWritten.
  - apply pres_bind; [apply pres_addBlockToResponse|intros; apply pres_ret].
  - apply pres_sendResponse.
  - apply pres_resetPeerTimeout.
  - apply pres_close.
  - apply pres_onStreamCleanupTimer.
  - unfold onPeerClosedTimer. keep.
  - unfold destroy. keep.
Qed.

(** C19: the invariant of a context: every call, in every environment, keeps it.
    Hence in every run the stream a request of the peer is mapped to is open and
    knows the request (so [findResponseSink] never logs its inconsistency), the
    queue of every endpoint exists and is that of its stream. *)
Theorem context_invariant fbs l :
  Inv (run (M:=M) l (new_PeerContext fbs)).1.
Proof.
  assert (Inv (new_PeerContext fbs)) as H0 by (by split).
  revert H0. generalize (new_PeerContext fbs). induction l as [|[e h] l IH]; intros p HI; [done|].
  cbn [run]. specialize (IH (final (handle (M:=M) h e p))).
  destruct (run l (final (handle (M:=M) h e p))) as [p' ev]. apply IH. clear IH.
  by apply pres_handle.
Qed.

End preservation.

(** ** Awaited requests *)

Create HintDb tidy discriminated.

Section awaited.
Context {M : Type} `{!Multiformats M, !Protobuf}.

(** An open context without a requests endpoint awaits no answer. *)
Definition tidy (p : PeerContext) : Prop := closed_ p = false → requests_endpoint_ p = None → local_request_ids_ p = ∅.
Definition tidies {A} (m : act (M:=M) A) : Prop := ∀ e p, tidy p → tidy (final (m e p)).

Lemma tidy_bind {A B} (m : act (M:=M) A) (f : A → act B) : tidies m → (∀ a, tidies (f a)) → tidies (m ≫= f).
Proof. intros Hm Hf e p Hp. rewrite bind_final. by apply Hf, Hm. Qed.
Lemma tidy_ret {A} (a : A) : tidies (mret a).
Proof. by intros e p. Qed.
Lemma tidy_get {A} (g : PeerContext → A) : tidies (get g).
Proof. by intros e p. Qed.
Lemma tidy_env {A} (g : Env → A) : tidies (env g).
Proof. by intros e p. Qed.
Lemma tidy_emit ef : tidies (emit ef).
Proof. by intros e p. Qed.
Lemma tidy_feedback mk : tidies (feedback mk).
Proof. intros e p Hp. by rewrite feedback_eq. Qed.
Lemma tidy_for_each {A} (l : list A) f : (∀ x, tidies (f x)) → tidies (for_each l f).
Proof. intros Hf. induction l as [|x l IH]; [apply tidy_ret|]. by apply tidy_bind. Qed.
Lemma tidy_modify f : (∀ p, tidy p → tidy (f p)) → tidies (modify f).
Proof. intros Hf e p Hp. by apply Hf. Qed.

(** A field update that leaves no request awaited without an endpoint. *)
Ltac tidy_update := apply tidy_modify; intros ?p ?Hp; unfold tidy in *; cbn; solve [done|intros; set_solver].

Ltac tidy :=
  repeat first
    [ solve [eauto with tidy]
    | apply tidy_bind; [|intros ?]
    | apply tidy_for_each; intros ?
    | tidy_update
    | case_match ].

#[local] Hint Resolve tidy_ret tidy_get tidy_env tidy_emit tidy_feedback : tidy.
#[local] Hint Extern 1 (tidies skip) => apply tidy_ret : tidy.

(** [close] leaves the context closed. *)
Lemma close_closes st e p : closed_ (final (close (M:=M) st e p)) = true.
Proof.
  destruct (closed_ p) eqn:Hc; [|apply (close_facts st e p Hc)]. unfold close. by rewrite bind_get, Hc.
Qed.

Lemma tidy_close st : tidies (close st).
Proof. intros e p _ Hc. by rewrite close_closes in Hc. Qed.
#[local] Hint Resolve tidy_close : tidy.

Lemma tidy_closeStream s st : tidies (closeStream s st).
Proof.
  intros e p Hp. unfold closeStream. destruct (streams_ p !! s) as [ctx|] eqn:Hs; [|by rewrite closeStream_with_none].
  rewrite (closeStream_with_eq _ _ _ _ _ ctx) by done. cbv zeta. destruct (_ && _ && _); rewrite final_pair; [by intros Hc; rewrite close_closes in Hc|].
  unfold tidy, dropped in *. cbn. by case_bool_decide.
Qed.

Lemma tidy_reschedule d : tidies (reschedule d).
Proof. unfold reschedule. tidy. Qed.
Lemma tidy_shiftExpireTime s : tidies (shiftExpireTime s).
Proof. unfold shiftExpireTime. tidy. Qed.
#[local] Hint Resolve tidy_reschedule tidy_shiftExpireTime : tidy.
Lemma tidy_resetPeerTimeout : tidies resetPeerTimeout.
Proof. unfold resetPeerTimeout. tidy. Qed.
#[local] Hint Resolve tidy_resetPeerTimeout : tidy.

Lemma tidy_queue_events ev : tidies (queue_events ev).
Proof. unfold queue_events, onWriterEvent. tidy. Qed.
#[local] Hint Resolve tidy_closeStream tidy_queue_events : tidy.

Lemma tidy_createResponseEndpoint s : tidies (createResponseEndpoint s).
Proof. unfold createResponseEndpoint, createMessageQueue. tidy. Qed.
Lemma tidy_endpoint_connected s : tidies (endpoint_connected s).
Proof. unfold endpoint_connected. tidy. Qed.
#[local] Hint Resolve tidy_createResponseEndpoint tidy_endpoint_connected : tidy.

(** While the writes of a queue fail or complete, the endpoint stays or the context closes. *)
Definition busy (p : PeerContext) : Prop := closed_ p = true ∨ requests_endpoint_ p ≠ None.

Lemma busy_timers d s e p : closed_ (final (reschedule (M:=M) d e p)) = closed_ p ∧ requests_endpoint_ (final (reschedule (M:=M) d e p)) = requests_endpoint_ p ∧
  closed_ (final (shiftExpireTime (M:=M) s e p)) = closed_ p ∧ requests_endpoint_ (final (shiftExpireTime (M:=M) s e p)) = requests_endpoint_ p.
Proof.
  unfold reschedule, shiftExpireTime. rewrite !bind_get, !bind_env. destruct (timer_ p); rewrite ?bind_modify; done.
Qed.

Lemma busy_queue_events ev : ∀ e p, busy p → busy (final (queue_events (M:=M) ev e p)).
Proof.
  induction ev as [|[s d|so [[]|err]] ev IH]; intros e p Hp; unfold queue_events; cbn [for_each]; [done|..]; rewrite bind_final;
    (apply IH); [done| |].
  - unfold onWriterEvent. rewrite bind_get. destruct (closed_ p); [done|]. rewrite bind_final. unfold resetPeerTimeout.
    set (p1 := final ((get closed_ ≫= _) e p)).
    assert (busy p1) as Hp1.
    { subst p1. rewrite bind_get. destruct (closed_ p) eqn:Hc; [done|]. destruct (busy_timers kPeerCloseDelayMsec 0 e p) as (H1 & H2 & _).
      unfold busy in *. by rewrite H1, H2. }
    destruct so as [s|]; [|done]. destruct (busy_timers 0 s e p1) as (_ & _ & H1 & H2). unfold busy in *. by rewrite H1, H2.
  - unfold onWriterEvent. rewrite bind_get. destruct (closed_ p) eqn:Hc; [by left|]. left. apply close_closes.
Qed.

Lemma endpoint_enqueue_tidy ep body e p : tidy (final (endpoint_enqueue (M:=M) ep body e p)) ∧ busy (final (endpoint_enqueue (M:=M) ep body e p)).
Proof.
  unfold endpoint_enqueue. rewrite bind_get, bind_env. destruct (ep_enqueue _ _ _ _) as [[[res ep'] qs] ev]. rewrite !bind_modify, bind_final.
  split; [apply tidy_queue_events|apply busy_queue_events]; [by intros _ ?|by right].
Qed.

Lemma tidy_enqueueRequest i body : tidies (enqueueRequest i body).
Proof.
  intros e p Hp. destruct (closed_ p) eqn:Hc; [by rewrite enqueueRequest_closed|]. destruct (requests_endpoint_ p) as [ep|] eqn:Hep.
  - rewrite (enqueueRequest_endpoint _ _ _ _ ep) by done. cbv zeta. destruct (endpoint_enqueue_tidy ep body e p) as [Ht Hb].
    destruct (is_success _); rewrite final_pair; [|by intros Hcl; rewrite close_closes in Hcl].
    intros Hcl Hn. cbn in Hcl, Hn. destruct Hb as [Hb|Hb]; [congruence|done].
  - rewrite enqueueRequest_no_endpoint by done. by apply tidy_close.
Qed.

Lemma tidy_cancelRequest i body : tidies (cancelRequest i body).
Proof.
  unfold cancelRequest. apply tidy_bind; [tidy|]. intros [|]; [tidy|]. apply tidy_bind; [tidy|]. intros _. apply tidy_bind; [tidy|].
  intros [ep|]; [|tidy]. intros e p Hp. rewrite bind_final. by apply endpoint_enqueue_tidy.
Qed.

Lemma tidy_addBlockToResponse i c d : tidies (addBlockToResponse i c d).
Proof. unfold addBlockToResponse, response_done. tidy. Qed.
Lemma tidy_sendResponse i st x : tidies (sendResponse i st x).
Proof. unfold sendResponse, response_done. tidy. Qed.
#[local] Hint Resolve tidy_addBlockToResponse tidy_sendResponse : tidy.

Lemma tidy_onReaderEvent so msg : tidies (onReaderEvent so msg).
Proof. unfold onReaderEvent, forget_requests, onRequest, onResponse, onBlocks. tidy. Qed.

Lemma tidy_needToConnect : tidies needToConnect.
Proof. unfold needToConnect, createMessageQueue. tidy. Qed.
#[local] Hint Resolve tidy_needToConnect : tidy.

Lemma tidy_handle h : tidies (handle (M:=M) h).
Proof.
  destruct h; cbn [handle].
  - unfold setOutboundAddress. tidy.
  - tidy.
  - apply tidy_enqueueRequest.
  - apply tidy_cancelRequest.
  - unfold onStreamConnected, onNewStream. tidy.
  - unfold onStreamAccepted, onNewStream. tidy.
  - unfold onWindowAdjusted, finishStreamConfig. tidy.
  - apply tidy_onReaderEvent.
  - unfold onWritten. tidy.
  - tidy.
  - tidy.
  - unfold keepAlive. tidy.
  - tidy.
  - unfold onStreamCleanupTimer. tidy.
  - unfold onPeerClosedTimer. tidy.
  - unfold destroy. tidy.
Qed.

Lemma tidy_run l : ∀ p, tidy p → tidy (run (M:=M) l p).1.
Proof.
  induction l as [|[e h] l IH]; intros p Hp; [done|]. cbn [run]. specialize (IH (final (handle (M:=M) h e p)) (tidy_handle h e p Hp)).
  by destruct (run l (final (handle (M:=M) h e p))).
Qed.

(** Both invariants. *)
Definition sound (p : PeerContext) : Prop := Inv p ∧ tidy p.
Definition stays_sound {A} (m : act (M:=M) A) : Prop := pres m ∧ tidies m.

Lemma sound_handle h : stays_sound (handle (M:=M) h).
Proof. split; [apply pres_handle|apply tidy_handle]. Qed.

(** C7: closing a peer is complete.  From any open context, with a requests endpoint
    or without one, [close] closes every stream once, forgets the peer's requests,
    drops the requests endpoint, and reports the peer as closed: at once when the
    owner closed it, otherwise by the timer.  With a requests endpoint it answers
    every request of this node that is awaited exactly once per live feedback object
    with the close status; without one it answers nothing, and in any run of a
    context nothing is awaited then: every request that an open context awaits when
    it is closed is answered.  The loop over the streams ends. *)
Theorem close_complete st e p : closed_ p = false →
  closes st e p (close (M:=M) st e p) ∧
  ∀ fbs l, p = (run (M:=M) l (new_PeerContext fbs)).1 →
    local_request_ids_ (final (close (M:=M) st e p)) = ∅ ∧ responses_of (trace (close (M:=M) st e p)) = one_each st e p.
Proof.
  intros Hc. pose proof (close_facts (M:=M) st e p Hc) as Hcl. split; [done|]. intros fbs l Hp.
  assert (tidy p) as Ht by (rewrite Hp; by apply tidy_run). destruct Hcl as (_ & _ & _ & _ & _ & Hids & _ & -> & _). rewrite Hids.
  unfold close_answers. destruct (requests_endpoint_ p) eqn:Hep; [done|]. unfold one_each. by rewrite (Ht Hc Hep).
Qed.

End awaited.

(** ** Expired streams *)

Section cleanup.
Context {M : Type} `{!Multiformats M, !Protobuf}.

(** A stream is expired when its time has passed and its queue is idle. *)
Definition expired (n : Z) (p : PeerContext) (s : StreamPtr) : bool :=
  match streams_ p !! s with
  | Some ctx =>
      (expire_time ctx <=? n) &&
      match (if has_queue ctx then queues p !! s else None) with
      | Some q => (writing_bytes (state_ q) <=? 0) && (pending_bytes (state_ q) <=? 0)
      | None => true
      end
  | None => false
  end.

Lemma check_stream_out n q ctx m :
  (check_stream n q ctx m).1.2 =
    (expire_time ctx <=? n) &&
    match q with
    | Some q => (writing_bytes (state_ q) <=? 0) && (pending_bytes (state_ q) <=? 0)
    | None => true
    end.
Proof.
  unfold check_stream. destruct q as [q|].
  - rewrite !Z.leb_antisym. destruct (0 <? writing_bytes (state_ q)); cbn; [by rewrite andb_false_r|].
    destruct (0 <? pending_bytes (state_ q)); cbn; [by rewrite andb_false_r|].
    rewrite andb_true_r. destruct (expire_time ctx <=? n) eqn:He; rewrite Z.leb_antisym in He; by rewrite ?He.
  - rewrite andb_true_r. by destruct (_ <=? _).
Qed.

Lemma check_streams_out n p l : NoDup l → ∀ streams m, (∀ s, s ∈ l → streams !! s = streams_ p !! s) →
  (check_streams n p l streams m).1.2 = filter (λ s, expired n p s = true) l.
Proof.
  induction 1 as [|s l Hs HN IH]; intros streams m Heq; cbn [check_streams]; [done|].
  rewrite filter_cons, (Heq s) by set_solver. destruct (streams_ p !! s) as [ctx|] eqn:Hc.
  2: { rewrite decide_False by (unfold expired; by rewrite Hc). apply IH. set_solver. }
  pose proof (check_stream_out n (if has_queue ctx then queues p !! s else None) ctx m) as Hout.
  destruct (check_stream n _ ctx m) as [[ctx' out] m'] eqn:Hcs. cbn [fst snd] in Hout. cbn zeta.
  assert (expired n p s = out) as Hex by (unfold expired; by rewrite Hc).
  specialize (IH (<[s:=ctx']> streams) m').
  destruct (check_streams n p l (<[s:=ctx']> streams) m') as [[st to] m2]. cbn [fst snd] in *.
  rewrite IH.
  - destruct out; [by rewrite decide_True|by rewrite decide_False by congruence].
  - intros s' Hs'. rewrite lookup_insert_ne by (intros ->; done). apply Heq. set_solver.
Qed.

Lemma for_each_cons {A} (x : A) l (f : A → act (M:=M) unit) e p :
  for_each (x :: l) f e p =
    let r := f x e p in let r' := for_each l f e (final r) in (tt, final r', trace r ++ trace r').
Proof.
  cbn [for_each]. rewrite (bind_eq _ _ _ _ _ _ _ (act_eta _)). cbv zeta.
  by destruct (for_each l f e (final (f x e p))) as [[[] p2] ev2].
Qed.

Lemma close_empty st e p : closed_ p = false → streams_ p = ∅ →
  closed_ (final (close (M:=M) st e p)) = true ∧ close_status_ (final (close (M:=M) st e p)) = st ∧
  streams_ (final (close (M:=M) st e p)) = ∅ ∧ closed_streams (trace (close (M:=M) st e p)) = [].
Proof.
  intros Hc Hs. unfold close. rewrite bind_get, Hc, !bind_modify, bind_get.
  cbn [streams_ set_remote set_closed]. rewrite Hs.
  change (base.size (∅ : gmap StreamPtr StreamCtx)) with 0%nat. cbn [close_streams].
  rewrite bind_skip, bind_get. set (p0 := set_remote ∅ (set_closed st p)).
  set (m := match requests_endpoint_ p0 with Some _ => closeLocalRequests (M:=M) st | None => skip end).
  rewrite (bind_eq m _ _ _ _ _ _ (act_eta _)). cbv zeta.
  assert (closed_ (final (m e p0)) = true ∧ close_status_ (final (m e p0)) = st ∧
    streams_ (final (m e p0)) = ∅ ∧ closed_streams (trace (m e p0)) = []) as (J1 & J2 & J3 & J4).
  { subst m. destruct (requests_endpoint_ p0); [|done]. rewrite closeLocalRequests_eq, final_pair, trace_pair.
    split_and!; try done. apply notices_closed. }
  destruct (bool_decide _); [|rewrite bind_modify]; unfold emit;
    rewrite !final_pair, !trace_pair, closed_app, J4; done.
Qed.

(** Closing some of the streams. *)
Lemma close_list l e : ∀ p, closed_ p = false → NoDup l → (∀ s, s ∈ l → is_Some (streams_ p !! s)) →
  let r := for_each l (λ s, closeStream (M:=M) s RS_TIMEOUT) e p in
  streams_ (final r) = filter (λ '(s, _), s ∉ l) (streams_ p) ∧
  closed_streams (trace r) = l ∧ timer_ (final r) = (if closed_ (final r) then timer_ (final r) else timer_ p) ∧
  (if closed_ (final r) then streams_ (final r) = ∅ ∧ close_status_ (final r) = RS_TIMEOUT
   else l = [] ∨ streams_ (final r) ≠ ∅).
Proof.
  induction l as [|s l IH]; intros p Hc HN Hl; cbv zeta.
  { cbn. unfold final, trace. cbn. rewrite Hc. split_and!; try done; [|by left].
    symmetry. apply map_filter_id. intros i x _ Hin. by apply not_elem_of_nil in Hin. }
  apply NoDup_cons in HN as [Hs HN]. rewrite for_each_cons. cbv zeta. rewrite !final_pair, !trace_pair.
  destruct (Hl s) as [ctx Hctx]; [set_solver|].
  pose proof (closeStream_with_eq (M:=M) close s RS_TIMEOUT e p ctx Hctx) as Heq.
  change (closeStream_with (M:=M) close s RS_TIMEOUT e p) with (closeStream (M:=M) s RS_TIMEOUT e p) in Heq.
  rewrite Hc in Heq. cbn [negb andb] in Heq. change (isError RS_TIMEOUT) with true in Heq.
  rewrite andb_true_r in Heq. cbv zeta in Heq. rewrite Heq. clear Heq.
  destruct (dropped_fields s ctx p) as (Es & Ec & Est & Et & _).
  case_bool_decide as Hempty.
  - assert (l = []) as ->.
    { destruct l as [|s' l]; [done|]. destruct (Hl s') as [c' Hc']; [set_solver|].
      assert (delete s (streams_ p) !! s' = Some c') as Hd by (rewrite lookup_delete_ne; [done|set_solver]).
      by rewrite Hempty in Hd. }
    destruct (close_empty RS_TIMEOUT e (dropped s ctx p)) as (K1 & K2 & K3 & K4); [by rewrite Ec|by rewrite Es|].
    cbn [for_each]. rewrite !final_pair, !trace_pair. unfold skip, mret, act_ret. rewrite !final_pair, !trace_pair.
    rewrite app_nil_r, closed_app, drop_effects_closed, K4, K1, K3. split_and!; try done.
    rewrite <- Hempty. symmetry. apply map_eq. intros s'. rewrite map_lookup_filter.
    destruct (decide (s = s')) as [<-|Hne].
    + rewrite lookup_delete_eq, Hctx. cbn. rewrite option_guard_False; [done|set_solver].
    + rewrite lookup_delete_ne by done. destruct (streams_ p !! s'); cbn; [|done].
      rewrite option_guard_True; [done|set_solver].
  - rewrite !final_pair, !trace_pair.
    destruct (IH (dropped s ctx p)) as (K1 & K2 & K3 & K4); [by rewrite Ec|done| |].
    { intros s' Hs'. rewrite Es, lookup_delete_ne by (intros ->; done). apply Hl. set_solver. }
    rewrite closed_app, drop_effects_closed, K2. split_and!.
    + rewrite K1, Es. apply map_eq. intros s'. rewrite !map_lookup_filter.
      destruct (decide (s = s')) as [<-|Hne].
      * rewrite lookup_delete_eq, Hctx. cbn. rewrite option_guard_False; [done|set_solver].
      * rewrite lookup_delete_ne by done. destruct (streams_ p !! s'); cbn; [|done].
        destruct (decide (s' ∈ l)); [rewrite !option_guard_False by set_solver|rewrite !option_guard_True by set_solver]; done.
    + done.
    + by rewrite Et in K3.
    + destruct (closed_ (final _)); [done|]. right. destruct K4 as [->|K4]; [|done].
      change (streams_ (dropped s ctx p) ≠ ∅). by rewrite Es.
Qed.

(** Removing the expired streams. *)
Lemma expired_removed n p (st : gmap StreamPtr StreamCtx) to s : dom st = dom (streams_ p) →
  to = filter (λ s, expired n p s = true) (sorted_elements (dom (streams_ p))) →
  is_Some (filter (λ '(s, _), s ∉ to) st !! s) ↔ is_Some (streams_ p !! s) ∧ expired n p s = false.
Proof.
  intros Hd Hout. rewrite <- !elem_of_dom, <- Hd. split.
  - intros [ctx [Hs Hto]%map_lookup_filter_Some]%elem_of_dom. split; [by apply elem_of_dom; eexists|].
    destruct (expired n p s) eqn:Hex; [|done]. destruct Hto. rewrite Hout. apply list_elem_of_filter.
    split; [done|]. apply elem_of_sorted_elements. rewrite <- Hd. by apply elem_of_dom; eexists.
  - intros [[ctx Hs]%elem_of_dom Hex]. apply elem_of_dom. exists ctx. apply map_lookup_filter_Some. split; [done|].
    rewrite Hout, list_elem_of_filter, Hex. naive_solver.
Qed.

(** A timer that is set is armed again. *)
Lemma reschedule_armed d e p : timer_ p ≠ NoTimer →
  closed_streams (trace (reschedule (M:=M) d e p)) = [] ∧
  streams_ (final (reschedule (M:=M) d e p)) = streams_ p ∧
  closed_ (final (reschedule (M:=M) d e p)) = closed_ p ∧
  trace (reschedule (M:=M) d e p) = [Reschedule d].
Proof.
  intros Ht. unfold reschedule. rewrite bind_get, bind_env. by destruct (timer_ p); [|rewrite bind_modify|].
Qed.

(** C25: the cleanup timer closes the expired streams and no other.  A stream with
    a write in flight or with pending bytes is never expired.  When every stream
    is expired the whole context is closed with [RS_TIMEOUT]; otherwise it stays
    open with the other streams, and the timer is armed again with a positive
    delay. *)
Theorem cleanup_exact e p :
  closed_ p = false → streams_ p ≠ ∅ → timer_ p ≠ NoTimer →
  let r := onStreamCleanupTimer (M:=M) e p in
  closed_streams (trace r) = filter (λ s, expired (now e) p s = true) (sorted_elements (dom (streams_ p))) ∧
  (∀ s, is_Some (streams_ (final r) !! s) ↔ is_Some (streams_ p !! s) ∧ expired (now e) p s = false) ∧
  (if bool_decide (streams_ (final r) = ∅) then closed_ (final r) = true ∧ close_status_ (final r) = RS_TIMEOUT
   else closed_ (final r) = false ∧ ∃ d, 0 < d ∧ last (trace r) = Some (Reschedule d)).
Proof.
  intros Hc Hne Ht. cbv zeta. unfold onStreamCleanupTimer. rewrite bind_get, bool_decide_false by done.
  rewrite bind_env, bind_get. set (l := sorted_elements (dom (streams_ p))).
  pose proof (check_streams_out (now e) p l (NoDup_sorted_elements _) (streams_ p) 0 ltac:(done)) as Hout.
  pose proof (check_streams_same (now e) p l 0 (streams_ p)) as [Hd _].
  destruct (check_streams (now e) p l (streams_ p) 0) as [[st to] mx]. cbn [fst snd] in *.
  rewrite bind_modify, (bind_eq (for_each to _) _ _ _ _ _ _ (act_eta _)). cbv zeta.
  set (p1 := set_streams st p).
  destruct (close_list to e p1) as (K1 & K2 & K3 & K4); [done| | |].
  { rewrite Hout. apply NoDup_filter, NoDup_sorted_elements. }
  { intros s Hs. rewrite Hout in Hs. apply list_elem_of_filter in Hs as [_ Hs].
    apply elem_of_sorted_elements in Hs. cbn. apply elem_of_dom. by rewrite Hd. }
  set (r1 := for_each to (λ s, closeStream s RS_TIMEOUT) e p1) in *.
  rewrite bind_get.
  assert (∀ s, is_Some (streams_ (final r1) !! s) ↔ is_Some (streams_ p !! s) ∧ expired (now e) p s = false) as Hstr.
  { intros s. rewrite K1. by apply expired_removed. }
  assert (streams_ (final r1) ≠ ∅ → closed_ (final r1) = false) as Hopen.
  { intros Hs. destruct (closed_ (final r1)); [|done]. by destruct K4. }
  assert (streams_ (final r1) = ∅ → closed_ (final r1) = true ∧ close_status_ (final r1) = RS_TIMEOUT) as Hshut.
  { intros Hs. destruct (closed_ (final r1)); [by destruct K4|]. destruct K4 as [Hto|]; [|done].
    rewrite Hto in K1. destruct Hne. apply dom_empty_inv_L. rewrite <- Hd.
    assert (st = ∅) as ->; [|by rewrite dom_empty_L]. rewrite <- Hs, K1. cbn. symmetry.
    apply map_filter_id. intros i x _ Hin. by apply not_elem_of_nil in Hin. }
  destruct (decide (streams_ (final r1) = ∅)) as [Hs|Hs].
  - destruct (Hshut Hs) as [Hcl Hst]. rewrite Hcl. cbn [orb]. unfold skip, mret, act_ret.
    rewrite !final_pair, !trace_pair, app_nil_r, K2. rewrite bool_decide_true by done.
    split; [done|]. split; [done|]. by rewrite Hcl.
  - rewrite (Hopen Hs), bool_decide_false by done. cbn [orb].
    assert (∃ d, 0 < d ∧ (if now e <? mx then reschedule (M:=M) (mx - now e) else reschedule kPeerCloseDelayMsec) =
      reschedule d) as (d & Hpos & ->).
    { destruct (Z.ltb_spec (now e) mx); eexists; (split; [|done]); [lia|]. done. }
    destruct (reschedule_armed d e (final r1)) as (R1 & R2 & R3 & R4); [by rewrite K3, (Hopen Hs)|].
    rewrite !final_pair, !trace_pair, closed_app, K2, R1, R2, R3, R4, app_nil_r.
    rewrite bool_decide_false by done. split; [done|]. split; [done|]. split; [by apply Hopen|].
    exists d. split; [done|]. by rewrite last_snoc.
Qed.

End cleanup.

(** ** Requests left without an answer *)

Section lost.
Context {M : Type} `{!Multiformats M, !Protobuf}.

Lemma one_each_in st e p fb i st' : (fb, i, st') ∈ one_each st e p → i ∈ local_request_ids_ p.
Proof.
  unfold one_each. rewrite <- elem_of_sorted_elements. induction (sorted_elements (local_request_ids_ p)) as [|j l IH];
    cbn [map concat]; [intros Hn%elem_of_nil; done|].
  intros [(fb' & Heq & _)%list_elem_of_fmap|Hin]%elem_of_app; [|set_solver]. simplify_eq. set_solver.
Qed.

(** A call that changes nothing and has no effect. *)
Definition ignored (m : act (M:=M) unit) (p : PeerContext) : Prop := ∀ e, m e p = (tt, p, []).

(** Closing a closed context does nothing. *)
Lemma close_closed st p : closed_ p = true → ignored (close st) p.
Proof. intros Hc e. unfold close. by rewrite bind_get, Hc. Qed.

(** A request enqueued on a connected peer whose stream has been closed for
    writing is lost.  The write fails inside [enqueue], the context closes and
    answers the requests it knew; [enqueue] still returns success, and only then
    is the request inserted.  It stays in [local_request_ids_] of the closed
    context, gets no answer now, and closing again does nothing. *)
Theorem enqueue_on_closed_stream e p ep s q i d :
  closed_ p = false → requests_endpoint_ p = Some ep → queue_ ep = Some s →
  queues p !! s = Some q → stream (state_ q) = Some s → active (state_ q) = true →
  writing_bytes (state_ q) = 0 → pending_bytes (state_ q) = 0 →
  closedW e s = true → 0 < size d ≤ kMaxPendingBytes → i ∉ local_request_ids_ p →
  let r := enqueueRequest (M:=M) i (Some d) e p in
  closed_ (final r) = true ∧ i ∈ local_request_ids_ (final r) ∧
  (∀ fb st, (fb, i, st) ∉ responses_of (trace r)) ∧
  (∀ st, ignored (close st) (final r)).
Proof.
  intros Hc Hep Hq Hqs Hst Ha Hw Hpb Hcw Hd Hi. cbv zeta.
  rewrite (enqueueRequest_endpoint _ _ _ _ ep) by done. cbv zeta.
  assert (∃ p0, closed_ p0 = false ∧ requests_endpoint_ p0 ≠ None ∧ local_request_ids_ p0 = local_request_ids_ p ∧
    endpoint_enqueue (M:=M) ep (Some d) e p =
      let r := close (M:=M) RS_CONNECTION_ERROR e p0 in (success tt, final r, trace r)) as (p0 & Hc0 & Hep0 & Hl0 & ->).
  { unfold endpoint_enqueue. rewrite bind_get, bind_env. unfold ep_enqueue, pending_of. rewrite Hq, Hqs, Hpb.
    destruct (Z.eqb_spec (size d) 0); [lia|]. rewrite wrap_small by (unfold kMaxPendingBytes in *; lia).
    destruct (Z.ltb_spec kMaxPendingBytes (0 + size d)); [lia|].
    unfold enqueue_at. rewrite Hqs. unfold queue_enqueue. rewrite Ha, Hw, orb_false_r.
    destruct (Z.eqb_spec (size d) 0); [lia|]. change (0 <? 0) with false. cbv iota.
    unfold beginWrite. rewrite Hst, Hcw. rewrite !bind_modify.
    set (p0 := set_queues _ _). exists p0. split; [done|]. split; [done|]. split; [done|].
    rewrite (bind_eq _ _ _ _ _ _ _ (act_eta _)). unfold queue_events. rewrite for_each_cons. cbv zeta.
    unfold onWriterEvent. rewrite bind_get. change (closed_ p0) with (closed_ p). rewrite Hc.
    cbn [for_each]. unfold skip, mret, act_ret. rewrite !final_pair, !trace_pair, !result_pair, !app_nil_r. done. }
  rewrite !result_pair, !final_pair, !trace_pair. cbn [is_success].
  pose proof (close_facts (M:=M) RS_CONNECTION_ERROR e p0 Hc0) as (J1 & J2 & J3 & J4 & J5 & J6 & J7 & J8 & _).
  rewrite close_answers_endpoint in J8 by done. rewrite !final_pair, !trace_pair. split; [done|]. split; [cbn; set_solver|]. split.
  - intros fb st Hin. rewrite J8 in Hin. apply one_each_in in Hin. by rewrite Hl0 in Hin.
  - intros st. by apply close_closed.
Qed.

(** A request that overflows the outbound buffers closes the peer, which
    answers every request enqueued before it, but is itself never answered: it
    was not inserted. *)
Theorem enqueue_overflow_unanswered e p ep i d :
  closed_ p = false → requests_endpoint_ p = Some ep →
  0 ≤ pending_of ep (queues p) ≤ kMaxPendingBytes → 0 < size d < 2 ^ 63 →
  kMaxPendingBytes < pending_of ep (queues p) + size d → i ∉ local_request_ids_ p →
  let r := enqueueRequest (M:=M) i (Some d) e p in
  closed_ (final r) = true ∧ close_status_ (final r) = RS_SLOW_STREAM ∧
  responses_of (trace r) = one_each RS_SLOW_STREAM e p ∧
  i ∉ local_request_ids_ (final r) ∧ (∀ fb st, (fb, i, st) ∉ responses_of (trace r)).
Proof.
  intros Hc Hep Hb Hd Hov Hi. cbv zeta. rewrite (enqueueRequest_endpoint _ _ _ _ ep) by done. cbv zeta.
  assert (endpoint_enqueue (M:=M) ep (Some d) e p =
    (failure WRITE_QUEUE_OVERFLOW, set_queues (queues p) (set_endpoint (Some ep) p), [])) as ->.
  { unfold endpoint_enqueue. rewrite bind_get, bind_env. unfold ep_enqueue.
    destruct (Z.eqb_spec (size d) 0); [lia|]. rewrite wrap_small by (unfold kMaxPendingBytes in *; lia).
    destruct (Z.ltb_spec kMaxPendingBytes (pending_of ep (queues p) + size d)); [|lia]. by rewrite !bind_modify. }
  rewrite !result_pair, !final_pair, !trace_pair. cbn [is_success]. rewrite !final_pair, !trace_pair, app_nil_l.
  pose proof (close_facts (M:=M) RS_SLOW_STREAM e (set_queues (queues p) (set_endpoint (Some ep) p)) Hc)
    as (J1 & J2 & J3 & J4 & J5 & J6 & J7 & J8 & _).
  split; [done|]. split; [done|]. split; [done|]. split; [by rewrite J6|].
  intros fb st Hin. rewrite J8 in Hin. by apply one_each_in in Hin.
Qed.

(** [RS_PARTIAL_CONTENT] ends a request at the requester.  The endpoint of a
    responder sends it with every message but the last of a response that needs
    several ([sendPartialResponse]); the wire admits it; and the context that
    receives it stops to await the request and ignores every later response to
    it, the final one included. *)
Theorem partial_content_ends_request e p r i :
  resp_id r = i → status r = RS_PARTIAL_CONTENT → i ∈ local_request_ids_ p →
  (∀ cw b q, sendPartialResponse cw i b q = send cw i RS_PARTIAL_CONTENT [] b q) ∧
  extractStatusCode (code RS_PARTIAL_CONTENT) = success RS_PARTIAL_CONTENT ∧
  let p1 := final (onResponse (M:=M) r e p) in
  i ∉ local_request_ids_ p1 ∧
  ∀ r', resp_id r' = i → ignored (onResponse r') p1.
Proof.
  intros Hr Hs Hi. split; [done|]. split; [done|]. cbv zeta.
  assert (local_request_ids_ (final (onResponse (M:=M) r e p)) = local_request_ids_ p ∖ {[i]}) as Hl.
  { unfold onResponse. rewrite bind_get, Hr, bool_decide_true by done. rewrite Hs.
    change (isTerminal RS_PARTIAL_CONTENT) with true. cbv iota. by rewrite bind_modify, feedback_eq. }
  split; [rewrite Hl; set_solver|]. intros r' Hr' e'. unfold onResponse at 1. rewrite bind_get, Hr', Hl.
  by rewrite bool_decide_false by set_solver.
Qed.

(** A stream whose window adjustment completes after the context was closed
    is added to the closed context all the same: it is never closed by [close],
    which does nothing any more, and the timer that was to report the peer as
    closed is dropped. *)
Theorem stream_added_after_close e p s :
  closed_ p = true → streams_ p = ∅ → timer_ p = PeerClosedTimer →
  let r := onWindowAdjusted (M:=M) s true e p in
  is_Some (streams_ (final r) !! s) ∧ closed_ (final r) = true ∧
  timer_ (final r) = CleanupTimer (now e + kPeerCloseDelayMsec) ∧
  (∀ st, ignored (close st) (final r)).
Proof.
  intros Hc Hs Ht. cbv zeta. unfold onWindowAdjusted, finishStreamConfig. rewrite bind_emit. cbv zeta.
  rewrite !final_pair, bind_get. unfold getState. rewrite Hc. rewrite bool_decide_false by done.
  rewrite bind_skip, bind_env, bind_get, bool_decide_true by done. rewrite bind_final.
  rewrite bind_modify. unfold emit. rewrite final_pair. rewrite bind_final. unfold resetPeerTimeout.
  rewrite bind_get. cbn [closed_ set_timer]. rewrite Hc. unfold skip, mret, act_ret, modify. rewrite !final_pair.
  cbn [set_timer set_streams streams_ closed_ timer_]. rewrite Hs, lookup_empty, lookup_insert_eq.
  split; [by eexists|]. split; [done|]. split; [done|]. intros st. by apply close_closed.
Qed.

End lost.

(** *** Witnesses *)

Abbreviation SM := Cid.Sample.Multihash.

(** Two streams, the requests endpoint on stream 7, two awaited requests. *)
Definition busy_context : PeerContext :=
  mkPeerContext [1; 2] (CleanupTimer 61000) None (Some (mkOutboundEndpoint [] 0 false (Some 7))) {[5; 6]} ∅
    {[7 := mkStreamCtx true ∅ None 900; 9 := mkStreamCtx false ∅ None 5000]} false RS_INTERNAL_ERROR
    {[7 := new_MessageQueue 7]}.

(** The same after the requests were answered and while the node only responds. *)
Definition responding_context : PeerContext := set_endpoint None (set_local_ids ∅ busy_context).

(** A run that enqueues request 5. *)
Definition requesting_run : list (Env * handler (M:=SM)) :=
  [(sample_env, H_needToConnect); (sample_env, H_enqueueRequest 5 (Some [1; 2]))].
Definition requesting_context : PeerContext := (run requesting_run (new_PeerContext [1])).1.

Lemma close_complete_witness :
  responses_of (trace (close (M:=SM) RS_TIMEOUT sample_env busy_context)) =
    [(1, 5, RS_TIMEOUT); (2, 5, RS_TIMEOUT); (1, 6, RS_TIMEOUT); (2, 6, RS_TIMEOUT)] ∧
  streams_ (final (close (M:=SM) RS_TIMEOUT sample_env responding_context)) = ∅ ∧
  closed_streams (trace (close (M:=SM) RS_TIMEOUT sample_env responding_context)) ≡ₚ [7; 9] ∧
  responses_of (trace (close (M:=SM) RS_TIMEOUT sample_env requesting_context)) = [(1, 5, RS_TIMEOUT)].
Proof.
  destruct (close_complete (M:=SM) RS_TIMEOUT sample_env busy_context eq_refl) as [(_ & _ & _ & _ & _ & _ & _ & Hr & _) _].
  destruct (close_complete (M:=SM) RS_TIMEOUT sample_env responding_context eq_refl) as [(_ & _ & Hs & _ & _ & _ & Hcl & _) _].
  destruct (close_complete (M:=SM) RS_TIMEOUT sample_env requesting_context ltac:(vm_compute; reflexivity)) as [_ Hrun].
  destruct (Hrun [1] requesting_run eq_refl) as [_ Hr'].
  rewrite Hr, Hr'. split; [vm_compute; reflexivity|]. split; [exact Hs|]. rewrite Hcl. split; vm_compute; reflexivity.
Defined.

Lemma cleanup_exact_witness :
  closed_streams (trace (onStreamCleanupTimer (M:=SM) sample_env busy_context)) = [7].
Proof.
  destruct (cleanup_exact (M:=SM) sample_env busy_context eq_refl ltac:(discriminate) ltac:(discriminate)) as [H _].
  rewrite H. vm_compute. reflexivity.
Defined.

Definition closed_stream_env : Env := mkEnv 1000 (λ _, true) (λ _, true).

Lemma enqueue_on_closed_stream_witness :
  let r := enqueueRequest (M:=SM) 8 (Some [1; 2; 3]) closed_stream_env busy_context in
  closed_ (final r) = true ∧ 8 ∈ local_request_ids_ (final r) ∧
  (∀ fb st, (fb, 8, st) ∉ responses_of (trace r)).
Proof.
  destruct (enqueue_on_closed_stream (M:=SM) closed_stream_env busy_context
    (mkOutboundEndpoint [] 0 false (Some 7)) 7 (new_MessageQueue 7) 8 [1; 2; 3]) as (H1 & H2 & H3 & _);
    try reflexivity.
  - vm_compute. split; [reflexivity|discriminate].
  - vm_compute. set_solver.
  - split; [exact H1|]. split; [exact H2|exact H3].
Defined.

(** An endpoint not yet connected, with 64 MiB less 2 bytes pending. *)
Definition full_context : PeerContext :=
  mkPeerContext [1] NoTimer None (Some (mkOutboundEndpoint [] 67108862 true None)) {[5]} ∅ ∅ false
    RS_INTERNAL_ERROR ∅.

Lemma enqueue_overflow_unanswered_witness :
  let r := enqueueRequest (M:=SM) 8 (Some [1; 2; 3]) sample_env full_context in
  responses_of (trace r) = [(1, 5, RS_SLOW_STREAM)] ∧ 8 ∉ local_request_ids_ (final r).
Proof.
  destruct (enqueue_overflow_unanswered (M:=SM) sample_env full_context
    (mkOutboundEndpoint [] 67108862 true None) 8 [1; 2; 3]) as (_ & _ & H3 & H4 & _).
  - reflexivity.
  - reflexivity.
  - vm_compute. split; discriminate.
  - vm_compute. split; reflexivity.
  - vm_compute. reflexivity.
  - vm_compute. set_solver.
  - split; [rewrite H3; vm_compute; reflexivity|exact H4].
Defined.

Lemma partial_content_ends_request_witness :
  let p1 := final (onResponse (M:=SM) (mkResponse 5 RS_PARTIAL_CONTENT []) sample_env busy_context) in
  onResponse (M:=SM) (mkResponse 5 RS_FULL_CONTENT []) sample_env p1 = (tt, p1, []).
Proof.
  destruct (partial_content_ends_request (M:=SM) sample_env busy_context (mkResponse 5 RS_PARTIAL_CONTENT []) 5)
    as (_ & _ & _ & H).
  - reflexivity.
  - reflexivity.
  - apply (bool_decide_eq_true (5 ∈ local_request_ids_ busy_context)). vm_compute. reflexivity.
  - exact (H (mkResponse 5 RS_FULL_CONTENT []) eq_refl sample_env).
Defined.

Definition shut_context : PeerContext :=
  mkPeerContext [1] PeerClosedTimer None None ∅ ∅ ∅ true RS_TIMEOUT ∅.

Lemma stream_added_after_close_witness :
  timer_ (final (onWindowAdjusted (M:=SM) 7 true sample_env shut_context)) = CleanupTimer 61000.
Proof.
  exact (proj1 (proj2 (proj2 (stream_added_after_close (M:=SM) sample_env shut_context 7 eq_refl eq_refl eq_refl)))).
Defined.

(** ** A cancel on another stream *)

(** Request 4 comes on stream 7; its cancel, and then request 4 again, come on
    stream 9; stream 7 fails. *)
Definition cross_stream_calls : list (Env * handler (M:=SM)) :=
  let request c := mkMessage false [mkRequest 4 (Cid.Sample.cid_v1 5) [] [] 1 c] [] [] in
  [(sample_env, H_streamAccepted 7); (sample_env, H_windowAdjusted 7 true);
   (sample_env, H_streamAccepted 9); (sample_env, H_windowAdjusted 9 true);
   (sample_env, H_readerEvent (Some 7) (success (request false)));
   (sample_env, H_readerEvent (Some 9) (success (request true)));
   (sample_env, H_readerEvent (Some 9) (success (request false)));
   (sample_env, H_readerEvent (Some 7) (failure (library_error 1)))].

(** Requests are identified by their id alone, across the streams of a peer.
    After a cancel that arrives on another stream the first stream keeps the id,
    and when it closes it takes the new request of that id with it: stream 9 is
    open and knows request 4, but a response to it goes nowhere. *)
Theorem cross_stream_cancel :
  let p := (run cross_stream_calls sample_context).1 in
  remote_requests_streams_ p !! 4 = None ∧
  (∃ ctx, streams_ p !! 9 = Some ctx ∧ 4 ∈ remote_request_ids ctx) ∧
  sendResponse (M:=SM) 4 RS_FULL_CONTENT [] sample_env p = (tt, p, []).
Proof.
  split; [vm_compute; reflexivity|]. split; [|vm_compute; reflexivity].
  eexists. split; [vm_compute; reflexivity|]. apply (bool_decide_eq_true (4 ∈ _)). vm_compute. reflexivity.
Qed.
