(* ===== verification/Network.v ===== *)
(** The network module: [Network],
    [src/ipfs_lite/ipfs/graphsync/impl/network/network.cpp].

    It owns the contexts of the peers.  A [PeerId] is its bytes ([toVector()]),
    which order the set of contexts; a call on a context is run by [on_peer],
    which forwards the context's effects and handles [peerClosed].  A context
    that leaves [peers_] has no other owner and is destroyed. *)
From stdpp Require Import base numbers countable list gmap strings sorting.
From S2P Require Import Prelude Cid Status MessageQueue Marshalling InboundEndpoint PeerContext PeerProofs.

Open Scope Z_scope.

Abbreviation PeerId := bytes.

(** [less]: the lexicographic order of [std::vector<uint8_t>]. *)
Definition less (a b : PeerId) : bool := bytes_less a b.

Section network.
Context {M : Type} `{!Multiformats M, !Protobuf}.

(** [active_requests_per_peer_] maps to the peer of the context it points to. *)
Record Network := mkNetwork {
  feedbacks_ : list Z;
  peers_ : gmap PeerId PeerContext;
  active_requests_per_peer_ : gmap RequestId PeerId;
  started_ : bool
}.

Definition new_Network : Network := mkNetwork [] ∅ ∅ false.

Definition set_peers m (n : Network) :=
  mkNetwork (feedbacks_ n) m (active_requests_per_peer_ n) (started_ n).
Definition set_active_requests m (n : Network) :=
  mkNetwork (feedbacks_ n) (peers_ n) m (started_ n).

Inductive net_effect :=
| Peer (peer : PeerId) (ev : effect (M:=M))
| SetProtocolHandler
| NewStream (peer : PeerId) (addresses : list string).

Definition net (A : Type) : Type := Env → Network → A * Network * list net_effect.

#[export] Instance net_ret : MRet net := λ A a e n, (a, n, []).
#[export] Instance net_bind : MBind net := λ A B f c e n,
  let '(a, n, ev) := c e n in
  let '(b, n, ev') := f a e n in (b, n, ev ++ ev').

Definition net_get {A} (f : Network → A) : net A := λ e n, (f n, n, []).
Definition net_env {A} (f : Env → A) : net A := λ e n, (f e, n, []).
Definition net_modify (f : Network → Network) : net unit := λ e n, (tt, f n, []).
Definition net_emit (ev : net_effect) : net unit := λ e n, (tt, n, [ev]).

(** [peerClosed]. *)
Definition peerClosed (peer : PeerId) : net unit :=
  net_modify (λ n, set_peers (delete peer (peers_ n)) n).

Definition is_peer_closed (ev : effect (M:=M)) : bool :=
  match ev with PeerClosed _ => true | _ => false end.

(** A call on the context of a peer, [None] when there is none.  [peerClosed] is
    the last thing a handler of a context does. *)
Definition on_peer {A} (peer : PeerId) (m : act (M:=M) A) : net (option A) := λ e n,
  match peers_ n !! peer with
  | None => (None, n, [])
  | Some p =>
      let '(a, p, ev) := m e p in
      let n := set_peers (<[peer := p]> (peers_ n)) n in
      let n := if existsb is_peer_closed ev then (peerClosed peer e n).1.2 else n in
      (Some a, n, Peer peer <$> ev)
  end.

(** The two phases of [findContext]: a closed context is dropped, a missing one
    made if asked for.  The result says whether there is a context. *)
Definition findContext (peer : PeerId) (create_if_not_found : bool) : net bool :=
  started ← net_get started_;
  if negb started then mret false
  else
    ctx ← net_get (λ n, peers_ n !! peer);
    ctx ← match ctx with
          | Some p =>
              if bool_decide (getState p = is_closed) then
                _ ← net_modify (λ n, set_peers (delete peer (peers_ n)) n); mret false
              else mret true
          | None => mret false
          end;
    if negb ctx && create_if_not_found then
      _ ← net_modify (λ n, set_peers (<[peer := new_PeerContext (feedbacks_ n)]> (peers_ n)) n);
      mret true
    else mret ctx.

Definition canSendRequest (peer : PeerId) : net bool :=
  started ← net_get started_;
  if negb started then mret false
  else
    ctx ← findContext peer true;
    if negb ctx then mret false
    else
      state ← on_peer peer (get getState);
      if bool_decide (state = Some is_closed) then
        _ ← net_modify (λ n, set_peers (delete peer (peers_ n)) n); mret false
      else mret true.

Definition tryConnect (peer : PeerId) : net unit :=
  pi ← on_peer peer (get getOutboundPeerInfo);
  net_emit (NewStream peer (default [] pi)).

Definition makeRequest (peer : PeerId) (address : option (list string)) (request_id : RequestId)
    (request_body : SharedData) : net unit :=
  can ← canSendRequest peer;
  if negb can then mret tt
  else
    _ ← findContext peer false;
    _ ← on_peer peer (setOutboundAddress address);
    need ← on_peer peer needToConnect;
    _ ← (if bool_decide (need = Some true) then tryConnect peer else mret tt);
    _ ← on_peer peer (enqueueRequest request_id request_body);
    mret tt.

Definition net_cancelRequest (request_id : RequestId) (request_body : SharedData) : net unit :=
  started ← net_get started_;
  if negb started then mret tt
  else
    it ← net_get (λ n, active_requests_per_peer_ n !! request_id);
    match it with
    | None => mret tt
    | Some peer =>
        _ ← net_modify (λ n, set_active_requests (delete request_id (active_requests_per_peer_ n)) n);
        match request_body with
        | Some _ => _ ← on_peer peer (cancelRequest request_id request_body); mret tt
        | None => mret tt
        end
    end.

(** A CID without bytes throws. *)
Definition net_addBlockToResponse (peer : PeerId) (request_id : RequestId) (cid : CID M) (data : bytes) :
    net (attempt Error bool) :=
  started ← net_get started_;
  if negb started then mret (returned false)
  else
    ctx ← findContext peer false;
    if negb ctx then mret (returned false)
    else
      added ← on_peer peer (addBlockToResponse request_id cid data);
      mret (default (returned false) added).

Definition net_sendResponse (peer : PeerId) (request_id : RequestId) (status : ResponseStatusCode)
    (extensions : list Extension) : net unit :=
  started ← net_get started_;
  if negb started then mret tt
  else
    ctx ← findContext peer false;
    if negb ctx then mret tt
    else _ ← on_peer peer (sendResponse request_id status extensions); mret tt.

Definition keepPeerAlive (peer : PeerId) : net unit :=
  started ← net_get started_;
  if negb started then mret tt
  else
    ctx ← findContext peer false;
    if negb ctx then mret tt
    else _ ← on_peer peer keepAlive; mret tt.

(** [onStreamAccepted] of an accepted stream; [None] is an accept error.  The
    peer id of an accepted stream is known. *)
Definition net_onStreamAccepted (rstream : option (PeerId * StreamPtr)) : net unit :=
  started ← net_get started_;
  if negb started then mret tt
  else
    match rstream with
    | None => mret tt
    | Some (peer, stream) =>
        _ ← findContext peer true;
        _ ← on_peer peer (onStreamAccepted stream);
        mret tt
    end.

(** The iteration order of [PeerSet]: [map_entries] sorts by [less]. *)
Definition sorted_peers (m : gmap PeerId PeerContext) : list (PeerId * PeerContext) := map_entries m.

(** The contexts are moved out of [peers_] first: the [peerClosed] they call back
    finds nothing. *)
Definition close_peers (l : list (PeerId * PeerContext)) : net unit := λ e n,
  (tt, n, '(peer, p) ← l; Peer peer <$> trace (close RS_REJECTED_LOCALLY e p)).

Definition closeAllPeers : net unit :=
  peers ← net_get peers_;
  _ ← net_modify (λ n, set_active_requests ∅ (set_peers ∅ n));
  close_peers (sorted_peers peers).

Definition start (feedback : Z) : net unit :=
  first_feedback ← net_get (λ n, bool_decide (feedbacks_ n = []));
  _ ← net_modify (λ n, mkNetwork (feedbacks_ n ++ [feedback]) (peers_ n) (active_requests_per_peer_ n)
        (first_feedback || started_ n));
  if (first_feedback : bool) then net_emit SetProtocolHandler else mret tt.

Definition stop (feedback : Z) : net unit :=
  alive ← net_env alive;
  _ ← net_modify (λ n, mkNetwork (filter (λ f, alive f = true ∧ f ≠ feedback) (feedbacks_ n)) (peers_ n)
        (active_requests_per_peer_ n) (started_ n));
  should_close ← net_get (λ n, bool_decide (feedbacks_ n = []));
  if (should_close : bool) then
    _ ← net_modify (λ n, mkNetwork (feedbacks_ n) (peers_ n) (active_requests_per_peer_ n) false);
    closeAllPeers
  else mret tt.

(** The destructor. *)
Definition destroy_network : net unit := closeAllPeers.

End network.
Arguments net_effect M : clear implicits.

(** ** Runs *)

Section runs.
Context {M : Type} `{!Multiformats M, !Protobuf}.

(** The calls of the core module, of libp2p and of the timers of the contexts. *)
Inductive net_op :=
| N_start (feedback : Z)
| N_stop (feedback : Z)
| N_canSendRequest (peer : PeerId)
| N_makeRequest (peer : PeerId) (address : option (list string)) (request_id : RequestId) (body : SharedData)
| N_cancelRequest (request_id : RequestId) (body : SharedData)
| N_addBlock (peer : PeerId) (request_id : RequestId) (cid : CID M) (data : bytes)
| N_sendResponse (peer : PeerId) (request_id : RequestId) (status : ResponseStatusCode) (ext : list Extension)
| N_keepAlive (peer : PeerId)
| N_accepted (rstream : option (PeerId * StreamPtr))
| N_context (peer : PeerId) (h : handler (M:=M)).

Definition net_handle (o : net_op) : net (M:=M) unit :=
  match o with
  | N_start fb => start fb
  | N_stop fb => stop fb
  | N_canSendRequest peer => _ ← canSendRequest peer; mret tt
  | N_makeRequest peer a i body => makeRequest peer a i body
  | N_cancelRequest i body => net_cancelRequest i body
  | N_addBlock peer i c d => _ ← net_addBlockToResponse peer i c d; mret tt
  | N_sendResponse peer i st x => net_sendResponse peer i st x
  | N_keepAlive peer => keepPeerAlive peer
  | N_accepted r => net_onStreamAccepted r
  | N_context peer h => _ ← on_peer peer (handle h); mret tt
  end.

Fixpoint net_run (l : list (Env * net_op)) (n : Network) : Network * list (net_effect M) :=
  match l with
  | [] => (n, [])
  | (e, o) :: l =>
      let '(_, n, ev) := net_handle o e n in
      let '(n, ev') := net_run l n in (n, ev ++ ev')
  end.

(** *** The invariant *)

Record NetInv (n : Network) : Prop := {
  ni_started : started_ n = negb (bool_decide (feedbacks_ n = []));
  ni_stopped : started_ n = false → peers_ n = ∅;
  ni_active : active_requests_per_peer_ n = ∅;
  ni_peers peer p : peers_ n !! peer = Some p → sound p
}.

Definition npres {A} (m : net (M:=M) A) : Prop := ∀ e n, NetInv n → NetInv (m e n).1.2.

Lemma npres_ret {A} (a : A) : npres (mret a).
Proof. by intros e n HI. Qed.

Lemma npres_bind {A B} (m : net A) (f : A → net B) : npres m → (∀ a, npres (f a)) → npres (m ≫= f).
Proof.
  intros Hm Hf e n HI. unfold mbind, net_bind. specialize (Hm e n HI).
  destruct (m e n) as [[a n1] ev]. specialize (Hf a e n1 Hm). by destruct (f a e n1) as [[b n2] ev2].
Qed.

Lemma npres_get {A} (g : Network → A) : npres (net_get g).
Proof. by intros e n HI. Qed.

Lemma npres_emit ev : npres (net_emit ev).
Proof. by intros e n HI. Qed.

Lemma netinv_delete peer n : NetInv n → NetInv (set_peers (delete peer (peers_ n)) n).
Proof.
  intros [H1 H2 H3 H4]. split; cbn; [done| |done|].
  - intros Hs. by rewrite (H2 Hs), delete_empty.
  - intros q p Hq. apply lookup_delete_Some in Hq as [_ Hq]. by apply (H4 q).
Qed.

Lemma npres_forget peer : npres (net_modify (λ n, set_peers (delete peer (peers_ n)) n)).
Proof. intros e n HI. by apply netinv_delete. Qed.

Lemma inv_new_PeerContext fbs : sound (new_PeerContext fbs).
Proof. by split; [split|]. Qed.

Lemma npres_on_peer {A} peer (m : act (M:=M) A) : stays_sound m → npres (on_peer peer m).
Proof.
  intros [Hm Ht] e n HI. unfold on_peer. destruct (peers_ n !! peer) as [p|] eqn:Hp; [|done].
  destruct (ni_peers n HI peer p Hp) as [HIp Htp]. specialize (Hm e p HIp). specialize (Ht e p Htp). unfold final in Hm, Ht.
  destruct (m e p) as [[a p'] ev]. cbn [fst snd] in *.
  assert (NetInv (set_peers (<[peer := p']> (peers_ n)) n)) as HI'.
  { destruct HI as [H1 H2 H3 H4]. split; cbn; [done| |done|].
    - intros Hs. by rewrite (H2 Hs), lookup_empty in Hp.
    - intros q p0 [[_ <-]|[_ Hq]]%lookup_insert_Some; [done|by apply (H4 q)]. }
  destruct (existsb _ _); [|done]. by apply netinv_delete.
Qed.

Lemma getState_closed p : bool_decide (getState p = is_closed) = closed_ p.
Proof. unfold getState. destruct (closed_ p); repeat case_match; by try (apply bool_decide_true || apply bool_decide_false). Qed.

Definition dropped_context (peer : PeerId) (n : Network) : Network := set_peers (delete peer (peers_ n)) n.
Definition fresh_context (peer : PeerId) (n : Network) : Network :=
  set_peers (<[peer := new_PeerContext (feedbacks_ n)]> (peers_ n)) n.

Lemma findContext_eq peer c e n :
  findContext (M:=M) peer c e n =
    if started_ n then
      match peers_ n !! peer with
      | Some p =>
          if closed_ p then
            if c then (true, fresh_context peer (dropped_context peer n), []) else (false, dropped_context peer n, [])
          else (true, n, [])
      | None => if c then (true, fresh_context peer n, []) else (false, n, [])
      end
    else (false, n, []).
Proof.
  unfold findContext, mbind, net_bind, net_get, net_modify, mret, net_ret.
  destruct (started_ n); cbn; [|done]. destruct (peers_ n !! peer) as [p|]; [rewrite getState_closed; destruct (closed_ p)|];
    by destruct c.
Qed.

Lemma netinv_fresh peer n : NetInv n → started_ n = true → NetInv (fresh_context peer n).
Proof.
  intros [H1 H2 H3 H4] Hs. split; cbn; [done|by rewrite Hs|done|].
  intros q p [[_ <-]|[_ Hq]]%lookup_insert_Some; [apply inv_new_PeerContext|by apply (H4 q)].
Qed.

Lemma npres_findContext peer c : npres (findContext peer c).
Proof.
  intros e n HI. rewrite findContext_eq. destruct (started_ n) eqn:Hs; [|done].
  destruct (peers_ n !! peer) as [p|]; [destruct (closed_ p)|]; destruct c; cbn; try done.
  - apply netinv_fresh; [by apply netinv_delete|done].
  - by apply netinv_delete.
  - by apply netinv_fresh.
Qed.

Lemma sound_query {A} (f : PeerContext → A) : stays_sound (M:=M) (get f).
Proof. by split; intros e p HI. Qed.

(** Preservation by the shape of an action. *)
Ltac net_keep :=
  repeat first
    [ apply npres_ret | apply npres_get | apply npres_emit | apply npres_findContext | apply npres_forget
    | apply npres_on_peer
    | apply npres_bind; [|intros]
    | case_match ].

Lemma npres_canSendRequest peer : npres (canSendRequest peer).
Proof. unfold canSendRequest. net_keep. apply sound_query. Qed.

Lemma npres_closeAllPeers e n : active_requests_per_peer_ n = ∅ →
  started_ n = negb (bool_decide (feedbacks_ n = [])) →
  NetInv (closeAllPeers (M:=M) e n).1.2 ∧ peers_ (closeAllPeers (M:=M) e n).1.2 = ∅.
Proof.
  intros Ha Hs. cbn. split; [|done]. split; cbn; [done|done|done|].
  intros peer p Hp. by destruct (lookup_empty_Some _ _ Hp).
Qed.

Lemma npres_start fb : npres (start fb).
Proof.
  intros e n [H1 H2 H3 H4]. unfold start, mbind, net_bind, net_get, net_modify. cbn.
  assert (feedbacks_ n ++ [fb] ≠ []) as Hne by (by destruct (feedbacks_ n)).
  destruct (bool_decide (feedbacks_ n = [])) eqn:Hf; cbn.
  - split; cbn; [by rewrite bool_decide_false|done|done|done].
  - split; cbn; [rewrite H1; by rewrite bool_decide_false|done|done|done].
Qed.

Lemma npres_stop fb : npres (stop fb).
Proof.
  intros e n HI. unfold stop, mbind, net_bind, net_env, net_get, net_modify.
  set (n1 := mkNetwork _ _ _ _). destruct (bool_decide (feedbacks_ n1 = [])) eqn:Hf.
  - destruct (npres_closeAllPeers e (mkNetwork (feedbacks_ n1) (peers_ n1) (active_requests_per_peer_ n1) false))
      as [HI' _]; [apply (ni_active n HI)|cbn [started_ feedbacks_]; by rewrite Hf|].
    by destruct (closeAllPeers _ _) as [[[] n2] ev2].
  - apply bool_decide_eq_false in Hf. split; cbn; [|apply (ni_stopped n HI)|apply (ni_active n HI)|apply (ni_peers n HI)].
    rewrite (ni_started n HI), (bool_decide_false (filter _ _ = [])) by done.
    rewrite bool_decide_false; [done|]. intros Hn. apply Hf. cbn. by rewrite Hn.
Qed.

Lemma npres_handle o : npres (net_handle o).
Proof.
  destruct o; cbn [net_handle].
  - apply npres_start.
  - apply npres_stop.
  - apply npres_bind; [apply npres_canSendRequest|intros; apply npres_ret].
  - unfold makeRequest. apply npres_bind; [apply npres_canSendRequest|intros can]. destruct (negb can); [apply npres_ret|].
    unfold tryConnect. net_keep; try apply sound_query; [apply (sound_handle (H_setOutboundAddress _))|
      split; [apply pres_needToConnect|apply tidy_needToConnect]|apply (sound_handle (H_enqueueRequest _ _))].
  - intros e n HI. unfold net_cancelRequest, mbind, net_bind, net_get, mret, net_ret.
    destruct (negb (started_ n)); [done|]. by rewrite (ni_active n HI), lookup_empty.
  - unfold net_addBlockToResponse. net_keep. split; [apply pres_addBlockToResponse|apply tidy_addBlockToResponse].
  - unfold net_sendResponse. net_keep. apply (sound_handle (H_sendResponse _ _ _)).
  - unfold keepPeerAlive. net_keep. apply (sound_handle H_keepAlive).
  - unfold net_onStreamAccepted. net_keep. apply (sound_handle (H_streamAccepted _)).
  - net_keep. apply sound_handle.
Qed.

Lemma netinv_run l n : NetInv n → NetInv (net_run l n).1.
Proof.
  revert n. induction l as [|[e o] l IH]; intros n HI; [done|]. cbn [net_run].
  pose proof (npres_handle o e n HI) as HI'. destruct (net_handle o e n) as [[a n'] ev]. cbn [fst snd] in HI'.
  specialize (IH n' HI'). by destruct (net_run l n') as [n'' ev'].
Qed.

Lemma netinv_new : NetInv new_Network.
Proof. by split. Qed.

(** C26: the invariant of the network, in every run of calls of the core module,
    libp2p and the timers: it is started exactly while it has a feedback object,
    it has no contexts while stopped, and every context it owns satisfies the
    context invariant and, while open and without a requests endpoint, awaits no
    answer.  No request is ever entered in
    [active_requests_per_peer_], so that [cancelRequest] never reaches a peer:
    it changes nothing and sends nothing. *)
Theorem network_invariant l :
  let n := (net_run l new_Network).1 in
  NetInv n ∧ ∀ e i body, net_cancelRequest (M:=M) i body e n = (tt, n, []).
Proof.
  cbv zeta. pose proof (netinv_run l _ netinv_new) as HI. split; [done|]. intros e i body.
  unfold net_cancelRequest, mbind, net_bind, net_get, mret, net_ret.
  destruct (negb (started_ _)); [done|]. by rewrite (ni_active _ HI), lookup_empty.
Qed.

(** *** Stopping *)

(** The effects of one context. *)
Definition effects_of (peer : PeerId) (ev : list (net_effect M)) : list (effect (M:=M)) :=
  omap (λ x, match x with Peer q ef => if bool_decide (q = peer) then Some ef else None | _ => None end) ev.

Lemma effects_of_peer peer q ev :
  effects_of peer (Peer q <$> ev) = if bool_decide (q = peer) then ev else [].
Proof.
  unfold effects_of. induction ev as [|x ev IH]; cbn; [by destruct (bool_decide _)|].
  destruct (bool_decide (q = peer)); cbn; by rewrite ?IH.
Qed.

Lemma effects_of_app peer a b : effects_of peer (a ++ b) = effects_of peer a ++ effects_of peer b.
Proof. apply omap_app. Qed.

Lemma effects_of_none st e (l : list (PeerId * PeerContext)) peer : peer ∉ l.*1 →
  effects_of peer ('(peer, p) ← l; Peer peer <$> trace (close (M:=M) st e p)) = [].
Proof.
  induction l as [|[q p] l IH]; [done|]. rewrite fmap_cons, not_elem_of_cons. intros [Hne Hl].
  rewrite bind_cons, effects_of_app, effects_of_peer, bool_decide_false by done. by apply IH.
Qed.

Lemma effects_of_closed st e (l : list (PeerId * PeerContext)) peer p : NoDup l.*1 → (peer, p) ∈ l →
  effects_of peer ('(peer, p) ← l; Peer peer <$> trace (close (M:=M) st e p)) = trace (close (M:=M) st e p).
Proof.
  induction l as [|[q p0] l IH]; [by intros _ Hin%elem_of_nil|]. rewrite fmap_cons. intros [Hq HN]%NoDup_cons.
  rewrite bind_cons, effects_of_app, effects_of_peer. intros [[= <- <-]|Hin]%elem_of_cons.
  - rewrite bool_decide_true by done. rewrite effects_of_none by done. by rewrite app_nil_r.
  - rewrite bool_decide_false; [by apply IH|]. intros ->. apply Hq. by apply (list_elem_of_fmap_2 fst _ (peer, p)).
Qed.

Lemma sorted_peers_elem (m : gmap PeerId PeerContext) peer p :
  m !! peer = Some p → (peer, p) ∈ sorted_peers m ∧ NoDup (sorted_peers m).*1.
Proof.
  intros Hp. unfold sorted_peers. rewrite map_entries_perm.
  split; [by apply elem_of_map_to_list|apply NoDup_fst_map_to_list].
Qed.

Lemma closeAllPeers_eq e n :
  closeAllPeers (M:=M) e n = (tt, mkNetwork (feedbacks_ n) ∅ ∅ (started_ n),
    '(peer, p) ← sorted_peers (peers_ n); Peer peer <$> trace (close (M:=M) RS_REJECTED_LOCALLY e p)).
Proof. done. Qed.

Lemma sorted_peers_none (m : gmap PeerId PeerContext) peer : m !! peer = None → peer ∉ (sorted_peers m).*1.
Proof.
  intros Hp ([q p] & -> & Hin)%list_elem_of_fmap. unfold sorted_peers in Hin. rewrite map_entries_perm in Hin.
  apply elem_of_map_to_list in Hin. cbn in Hp. congruence.
Qed.

(** C37: stopping the network, in any run.  [stop] forgets its caller and the
    feedback objects that are gone.  While another is left nothing else happens.
    When none is left the network is stopped and without contexts, and every peer
    with an open context has had every stream closed once, every request this node
    awaited from it answered with [RS_REJECTED_LOCALLY] once for each feedback object
    of its context that is alive, and is then reported as closed; no other peer is
    touched. *)
Theorem stop_closes_peers l fb e :
  let n := (net_run l new_Network).1 in
  let others := filter (λ f, alive e f = true ∧ f ≠ fb) (feedbacks_ n) in
  let '(_, n', ev) := stop (M:=M) fb e n in
  feedbacks_ n' = others ∧
  (others ≠ [] → peers_ n' = peers_ n ∧ started_ n' = true ∧ ev = []) ∧
  (others = [] → started_ n' = false ∧ peers_ n' = ∅ ∧
     ∀ peer, match peers_ n !! peer with
       | Some p =>
           if closed_ p then effects_of peer ev = []
           else closed_streams (effects_of peer ev) ≡ₚ elements (dom (streams_ p)) ∧
                responses_of (effects_of peer ev) = one_each RS_REJECTED_LOCALLY e p ∧
                last (effects_of peer ev) = Some (PeerClosed RS_REJECTED_LOCALLY)
       | None => effects_of peer ev = []
       end).
Proof.
  cbv zeta. pose proof (netinv_run l _ netinv_new) as HI. set (n := (net_run l new_Network).1) in *. clearbody n.
  unfold stop, mbind, net_bind, net_env, net_get, net_modify. set (n1 := mkNetwork _ _ _ _).
  set (others := filter (λ f, alive e f = true ∧ f ≠ fb) (feedbacks_ n)). change (feedbacks_ n1) with others.
  case_bool_decide as Ho.
  - rewrite closeAllPeers_eq. cbn [started_ feedbacks_ peers_]. change (feedbacks_ n1) with others. change (peers_ n1) with (peers_ n).
    rewrite !app_nil_l. split; [done|]. split; [done|]. intros _. split; [done|]. split; [done|]. intros peer.
    destruct (peers_ n !! peer) as [p|] eqn:Hp; [|by apply effects_of_none, sorted_peers_none].
    destruct (sorted_peers_elem _ _ _ Hp) as [Hin HN]. rewrite (effects_of_closed _ _ _ _ p) by done.
    destruct (ni_peers n HI peer p Hp) as [_ Ht]. destruct (closed_ p) eqn:Hc; [unfold close; by rewrite bind_get, Hc|].
    destruct (close_facts (M:=M) RS_REJECTED_LOCALLY e p Hc) as (_ & _ & _ & _ & _ & _ & J7 & -> & J9). split; [done|].
    rewrite bool_decide_true in J9 by done. split; [|done]. unfold close_answers.
    destruct (requests_endpoint_ p) eqn:Hep; [done|]. unfold one_each. by rewrite (Ht Hc Hep).
  - split; [done|]. split; [|done]. intros _. split; [done|]. split; [|done]. cbn. rewrite (ni_started n HI).
    rewrite bool_decide_false; [done|]. intros Hf. apply Ho. subst others. by rewrite Hf.
Qed.

End runs.

(** *** Witnesses *)

Definition peer_one : PeerId := [1].

(** ** A feedback object that starts later *)

(** Feedback 1 starts and connects to peer 1; feedback 2 starts, makes request 8
    on the same peer, and the peer answers. *)
Definition late_start_calls : list (Env * net_op (M:=SM)) :=
  [(sample_env, N_start 1);
   (sample_env, N_makeRequest peer_one None 7 (Some [1; 2]));
   (sample_env, N_context peer_one (H_streamConnected (Some 20)));
   (sample_env, N_context peer_one (H_windowAdjusted 20 true));
   (sample_env, N_context peer_one (H_written 20 (success 2)));
   (sample_env, N_start 2);
   (sample_env, N_makeRequest peer_one None 8 (Some [3; 4]))].
Definition late_answer : handler (M:=SM) :=
  H_readerEvent (Some 20) (success (mkMessage false [] [mkResponse 8 RS_FULL_CONTENT []] [])).

(** A context copies the list of feedback objects when it is made.  An object
    that starts on a running network hears nothing of the peers the network
    already knows: its request is written to the peer, and the final response
    goes to the object that started earlier only; the request is no longer
    awaited. *)
Theorem late_feedback_unheard :
  let '(n, sent) := net_run late_start_calls new_Network in
  let '(_, n', ev) := net_handle (N_context peer_one late_answer) sample_env n in
  feedbacks_ n = [1; 2] ∧ Peer peer_one (WriteStream 20 [3; 4]) ∈ sent ∧
  responses_of (effects_of peer_one ev) = [(1, 8, RS_FULL_CONTENT)] ∧
  (local_request_ids_ <$> (peers_ n' !! peer_one)) = Some {[7]}.
Proof.
  vm_compute. split_and!; try reflexivity. repeat (apply list_elem_of_here || apply list_elem_of_further).
Qed.
