(* ===== verification/PeerSet.v ===== *)
(** The set of contexts of [Network]:
    [src/ipfs_lite/ipfs/graphsync/impl/network/peer_context.cpp] (the comparisons)
    and [network.hpp] ([PeerSet]).

    [PeerSet] is a [std::set] of shared pointers ordered by the peers they point to,
    searched by a peer id.  It refines the map from peers to contexts that
    [Network.v] has, as long as no pointer in it is null: the comparisons call a
    null pointer equal to everything. *)
From stdpp Require Import base numbers countable list gmap strings sorting.
From S2P Require Import Prelude Cid Status MessageQueue Marshalling InboundEndpoint PeerContext PeerProofs Network.

Open Scope Z_scope.

(** A context with the constant members the constructor sets; [None] is a null
    pointer. *)
Record Named := mkNamed { peer : PeerId; str : string; ctx : PeerContext }.
Abbreviation PeerContextPtr := (option Named).

Definition ctx_less_peer (ctx : PeerContextPtr) (p : PeerId) : bool :=
  match ctx with None => false | Some ctx => less (peer ctx) p end.

Definition peer_less_ctx (p : PeerId) (ctx : PeerContextPtr) : bool :=
  match ctx with None => false | Some ctx => less p (peer ctx) end.

Definition ctx_less (a b : PeerContextPtr) : bool :=
  match a, b with
  | Some a, Some b => less (peer a) (peer b)
  | _, _ => false
  end.

(** [std::set]: its elements in order; [lower_bound] passes the elements less than
    the key. *)
Abbreviation PeerSet := (list PeerContextPtr).

Fixpoint peers_find (p : PeerId) (s : PeerSet) : option PeerContextPtr :=
  match s with
  | [] => None
  | x :: s => if ctx_less_peer x p then peers_find p s else if peer_less_ctx p x then None else Some x
  end.

Fixpoint peers_insert (c : PeerContextPtr) (s : PeerSet) : PeerSet * bool :=
  match s with
  | [] => ([c], true)
  | x :: s' =>
      if ctx_less x c then let '(s', inserted) := peers_insert c s' in (x :: s', inserted)
      else if ctx_less c x then (c :: s, true) else (s, false)
  end.

(** [erase( it )] for the iterator [find] gives. *)
Fixpoint peers_erase (p : PeerId) (s : PeerSet) : PeerSet :=
  match s with
  | [] => []
  | x :: s' => if ctx_less_peer x p then x :: peers_erase p s' else if peer_less_ctx p x then s else s'
  end.

(** Base58 is libp2p's.  [substr] throws when the string is shorter. *)
Definition makeStringRepr (toBase58 : PeerId → string) (peer_id : PeerId) : option string :=
  let s := toBase58 peer_id in
  if Nat.ltb (String.length s) 46 then None else Some (String.substring 46 (String.length s - 46) s).

Definition named_context (toBase58 : PeerId → string) (peer_id : PeerId) (graphsync_feedbacks : list Z) : option Named :=
  s ← makeStringRepr toBase58 peer_id; Some (mkNamed peer_id s (new_PeerContext graphsync_feedbacks)).

(** ** The order *)

Lemma peer_less_irrefl p : less p p = false.
Proof. apply bytes_less_irrefl. Qed.

Lemma peer_less_trans p q r : less p q = true → less q r = true → less p r = true.
Proof. apply bytes_less_trans. Qed.

Lemma peer_less_total p q : less p q = false → less q p = false → p = q.
Proof. intros H H'. destruct (decide (p = q)) as [|Hn]; [done|]. unfold less in *. by rewrite (bytes_less_total p q Hn H) in H'. Qed.

(** ** The set and the map *)

Definition entry (c : PeerContextPtr) : option (PeerId * Named) := (λ c, (peer c, c)) <$> c.
Definition map_of (s : PeerSet) : gmap PeerId Named := list_to_map (omap entry s).

Lemma map_of_cons c s : map_of (Some c :: s) = <[peer c := c]> (map_of s).
Proof. done. Qed.

Definition wf_set (s : PeerSet) : Prop :=
  Forall is_Some s ∧ StronglySorted (λ a b, ctx_less a b = true) s.

Lemma wf_cons x s : wf_set (x :: s) ↔ ∃ c, x = Some c ∧ wf_set s ∧ Forall (λ y, ∃ c', y = Some c' ∧ less (peer c) (peer c') = true) s.
Proof.
  split.
  - intros [HF HS]. apply Forall_cons in HF as [[c ->] HF]. apply StronglySorted_inv in HS as [HS HL]. exists c. split; [done|].
    split; [done|]. apply Forall_forall. intros y Hy. rewrite Forall_forall in HF, HL. destruct (HF y Hy) as [c' ->].
    exists c'. split; [done|]. exact (HL _ Hy).
  - intros (c & -> & [HF HS] & HL). split; [by constructor|]. constructor; [done|]. eapply Forall_impl; [exact HL|]. by intros ? (c' & -> & ?).
Qed.

(** A peer not greater than the head is not behind it. *)
Lemma map_of_behind p (c : Named) s : Forall (λ y, ∃ c', y = Some c' ∧ less (peer c) (peer c') = true) s →
  less (peer c) p = false → map_of s !! p = None.
Proof.
  intros HF Hp. induction HF as [|y s (c' & -> & Hc) _ IH]; [done|]. rewrite map_of_cons, lookup_insert_ne; [exact IH|].
  intros <-. by rewrite Hc in Hp.
Qed.

Lemma find_lookup p s : wf_set s → peers_find p s = Some <$> map_of s !! p.
Proof.
  induction s as [|x s IH]; [done|]. intros (c & -> & Hwf & HF)%wf_cons. cbn [peers_find ctx_less_peer peer_less_ctx].
  rewrite map_of_cons. destruct (less (peer c) p) eqn:H1.
  - rewrite lookup_insert_ne; [by apply IH|]. intros He. by rewrite He, peer_less_irrefl in H1.
  - destruct (less p (peer c)) eqn:H2.
    + rewrite lookup_insert_ne by (intros He; by rewrite He, peer_less_irrefl in H2). by rewrite (map_of_behind _ _ _ HF H1).
    + rewrite (peer_less_total _ _ H1 H2). by rewrite lookup_insert_eq.
Qed.

(** ** Insertion and removal *)

Lemma insert_spec (c : Named) s : wf_set s →
  let '(s', inserted) := peers_insert (Some c) s in
  wf_set s' ∧ inserted = bool_decide (map_of s !! peer c = None) ∧
  map_of s' = (if inserted then <[peer c := c]> (map_of s) else map_of s) ∧
  ∀ q, Forall (λ y, ∃ c', y = Some c' ∧ less q (peer c') = true) s → less q (peer c) = true →
    Forall (λ y, ∃ c', y = Some c' ∧ less q (peer c') = true) s'.
Proof.
  induction s as [|x s IH]; intros Hwf.
  - cbn. split_and!; [|done|done|].
    + apply wf_cons. by exists c.
    + intros q _ Hq. repeat constructor. by exists c.
  - pose proof Hwf as (d & -> & Hs & HF)%wf_cons. cbn [peers_insert ctx_less].
    pose proof (map_of_cons d s) as Hm.
    destruct (less (peer d) (peer c)) eqn:H1.
    + specialize (IH Hs). destruct (peers_insert (Some c) s) as [s' inserted]. destruct IH as (Hs' & -> & Hmap & Hall).
      assert (peer d ≠ peer c) as Hne by (intros He; by rewrite He, peer_less_irrefl in H1).
      split_and!.
      * apply wf_cons. exists d. split; [done|]. split; [done|]. by apply Hall.
      * by rewrite Hm, lookup_insert_ne.
      * rewrite map_of_cons, Hmap, Hm.
        case_bool_decide; [|done]. by rewrite insert_insert_ne.
      * intros q HF' Hq. apply Forall_cons in HF' as [Hd HF']. constructor; [done|]. by apply Hall.
    + destruct (less (peer c) (peer d)) eqn:H2.
      * assert (map_of (Some d :: s) !! peer c = None) as Hnone.
        { rewrite Hm, lookup_insert_ne by (intros He; by rewrite He, peer_less_irrefl in H2). by apply (map_of_behind _ d). }
        split_and!.
        -- apply wf_cons. exists c. split; [done|]. split; [done|]. constructor; [by exists d|].
           eapply Forall_impl; [exact HF|]. intros ? (c' & -> & ?). exists c'. split; [done|]. by eapply peer_less_trans.
        -- by rewrite bool_decide_true.
        -- done.
        -- intros q HF' Hq. constructor; [by exists c|done].
      * pose proof (peer_less_total _ _ H1 H2) as He. split_and!; [done| |done|done].
        by rewrite Hm, He, lookup_insert_eq, bool_decide_false.
Qed.

Lemma erase_spec p s : wf_set s →
  wf_set (peers_erase p s) ∧ map_of (peers_erase p s) = delete p (map_of s) ∧
  ∀ q, Forall (λ y, ∃ c', y = Some c' ∧ less q (peer c') = true) s →
    Forall (λ y, ∃ c', y = Some c' ∧ less q (peer c') = true) (peers_erase p s).
Proof.
  induction s as [|x s IH]; intros Hwf; [done|].
  pose proof Hwf as (d & -> & Hs & HF)%wf_cons. cbn [peers_erase ctx_less_peer peer_less_ctx].
  pose proof (map_of_cons d s) as Hm.
  destruct (less (peer d) p) eqn:H1; [|destruct (less p (peer d)) eqn:H2].
  - destruct (IH Hs) as (Hs' & Hmap & Hall). split_and!.
    + apply wf_cons. exists d. split; [done|]. split; [done|]. by apply Hall.
    + rewrite map_of_cons, Hmap, Hm, delete_insert_ne; [done|]. intros He. by rewrite He, peer_less_irrefl in H1.
    + intros q [Hd HF']%Forall_cons. constructor; [done|by apply Hall].
  - split_and!; [done| |done]. rewrite delete_id; [done|]. rewrite Hm, lookup_insert_ne by (intros He; by rewrite He, peer_less_irrefl in H2).
    by apply (map_of_behind _ d).
  - rewrite <- (peer_less_total _ _ H1 H2). split_and!; [done| |by intros q [_ ?]%Forall_cons].
    rewrite Hm, delete_insert_id; [done|]. by eapply map_of_behind, peer_less_irrefl.
Qed.

(** ** Refinement *)

Inductive set_op := Find (p : PeerId) | Insert (c : Named) | Erase (p : PeerId).
Inductive set_reply := Found (x : option PeerContextPtr) | Inserted (new : bool) | Erased.

Definition on_set (o : set_op) (s : PeerSet) : set_reply * PeerSet :=
  match o with
  | Find p => (Found (peers_find p s), s)
  | Insert c => let '(s, inserted) := peers_insert (Some c) s in (Inserted inserted, s)
  | Erase p => (Erased, peers_erase p s)
  end.

Definition on_map (o : set_op) (m : gmap PeerId Named) : set_reply * gmap PeerId Named :=
  match o with
  | Find p => (Found (Some <$> m !! p), m)
  | Insert c => match m !! peer c with None => (Inserted true, <[peer c := c]> m) | Some _ => (Inserted false, m) end
  | Erase p => (Erased, delete p m)
  end.

Fixpoint run_ops {S} (step : set_op → S → set_reply * S) (ops : list set_op) (s : S) : list set_reply * S :=
  match ops with
  | [] => ([], s)
  | o :: ops => let '(r, s) := step o s in let '(rs, s) := run_ops step ops s in (r :: rs, s)
  end.

Lemma step_refines o s : wf_set s →
  let '(r, s') := on_set o s in wf_set s' ∧ on_map o (map_of s) = (r, map_of s').
Proof.
  intros Hwf. destruct o as [p|c|p]; cbn [on_set on_map].
  - by rewrite find_lookup.
  - pose proof (insert_spec c s Hwf) as Hi. destruct (peers_insert (Some c) s) as [s' inserted]. destruct Hi as (Hs' & -> & -> & _).
    split; [done|]. destruct (map_of s !! peer c); [by rewrite bool_decide_false|by rewrite bool_decide_true].
  - destruct (erase_spec p s Hwf) as (? & -> & _). done.
Qed.

(** The set of contexts is a map from peers.  From the empty set every sequence
    of searches, insertions and removals gets the replies a map from peers to
    contexts gives, and leaves the set in the order of the peers with the contexts of
    the map; but a null pointer in front of the set answers every search and
    refuses every context. *)
Theorem peer_set_refines ops :
  let '(replies, s) := run_ops on_set ops [] in
  run_ops on_map ops ∅ = (replies, map_of s) ∧ StronglySorted (λ a b, ctx_less a b = true) s ∧
  (∀ p, peers_find p s = Some <$> map_of s !! p) ∧
  (∀ p c, peers_find p (None :: s) = Some None ∧ peers_insert (Some c) (None :: s) = (None :: s, false)).
Proof.
  assert (∀ s, wf_set s → let '(replies, s') := run_ops on_set ops s in wf_set s' ∧ run_ops on_map ops (map_of s) = (replies, map_of s')) as H.
  { induction ops as [|o ops IH]; intros s Hs; [done|]. cbn [run_ops]. pose proof (step_refines o s Hs) as Ho.
    destruct (on_set o s) as [r s1]. destruct Ho as [Hs1 ->]. specialize (IH s1 Hs1). destruct (run_ops on_set ops s1) as [rs s2].
    destruct IH as [Hs2 ->]. done. }
  specialize (H [] ltac:(split; constructor)). destruct (run_ops on_set ops []) as [replies s]. destruct H as [Hwf Heq].
  split; [exact Heq|]. split; [apply Hwf|]. split; [|done]. intros p. by apply find_lookup.
Qed.

(** [str] for base58 names of 46 characters, of fewer and of more. *)
Example string_reprs :
  makeStringRepr (λ _, "QmYyQSo1c1Ym7orWxLYvCrM2EmxFTANf8wXmmE7DWjhx5N") [1] = Some EmptyString ∧
  named_context (λ _, "Qm") [1] [] = None ∧
  makeStringRepr (λ _, "12D3KooWEgUjBV5FJAuBSoNMRYFRHjV7PjZwRQ7b43EKX9g7D6xV") [1] = Some "g7D6xV".
Proof. by vm_compute. Qed.
