(* ===== verification/Graphsync.v ===== *)
(** The core of graphsync: [GraphsyncImpl],
    [src/ipfs_lite/ipfs/graphsync/impl/graphsync_impl.cpp].

    The module works against two interfaces, the network ([NetworkOps], whose
    implementation is [Network.v]) and the DAG ([DagService]), and owns a
    [LocalRequests].  The feedback calls that the network makes while it runs are
    dispatched to the object as they come, with the mutex in the state it is in
    then: [requested_cids_mutex_] is not recursive, and a thread that locks it
    twice is stuck.  The user's callbacks are events; what they call in turn is
    not followed. *)
From stdpp Require Import base numbers countable list gmap strings.
From S2P Require Import Prelude Cid Status MessageQueue Marshalling InboundEndpoint LocalRequests PeerContext.
From S2P Require Import PeerProofs Network.

Open Scope Z_scope.

(** *** The interfaces *)

(** A call of a [PeerToGraphsyncFeedback]. *)
Inductive feedback_call (M : Type) :=
| FB_onResponse (from : PeerId) (request_id : RequestId) (status : ResponseStatusCode) (ext : list Extension)
| FB_onBlock (from : PeerId) (root_cid cid : CID M) (data : bytes)
| FB_onRemoteRequest (from : PeerId) (request : Request M).
Arguments FB_onResponse {M}. Arguments FB_onBlock {M}. Arguments FB_onRemoteRequest {M}.

(** What the network offers: [N] is its state, [F] its effects; [op_feedback]
    says which effects are calls of a feedback object. *)
Class NetworkOps (M N F : Type) := {
  op_start : Z → Env → N → unit * N * list F;
  op_stop : Z → Env → N → unit * N * list F;
  op_canSendRequest : PeerId → Env → N → bool * N * list F;
  op_makeRequest : PeerId → option (list string) → RequestId → SharedData → Env → N → unit * N * list F;
  op_cancelRequest : RequestId → SharedData → Env → N → unit * N * list F;
  op_addBlockToResponse : PeerId → RequestId → CID M → bytes → Env → N →
    attempt Error bool * N * list F;
  op_sendResponse : PeerId → RequestId → ResponseStatusCode → list Extension → Env → N → unit * N * list F;
  op_keepPeerAlive : PeerId → Env → N → unit * N * list F;
  op_feedback : Z → F → option (feedback_call M)
}.

(** What the DAG offers: [getNode], and the nodes that [select] passes to its
    handler, in order, as long as the handler returns true. *)
Class DagService (M S : Type) := {
  dag_getNode : CID M → S → outcome Z (CID M * bytes);
  dag_select : bytes → bytes → S → outcome Z (list (CID M * bytes))
}.

(** The calls that [Network] makes on feedback object [fb]. *)
Definition network_feedback {M} (fb : Z) (ev : net_effect M) : option (feedback_call M) :=
  match ev with
  | Peer peer (OnResponse f i st x) => if f =? fb then Some (FB_onResponse peer i st x) else None
  | Peer peer (OnRemoteRequest f r) => if f =? fb then Some (FB_onRemoteRequest peer r) else None
  | Peer peer (OnBlock f root cid d) => if f =? fb then Some (FB_onBlock peer root cid d) else None
  | _ => None
  end.

#[export] Instance network_ops {M} `{!Multiformats M, !Protobuf} : NetworkOps M Network (net_effect M) := {
  op_start := start;
  op_stop := stop;
  op_canSendRequest := canSendRequest;
  op_makeRequest := makeRequest;
  op_cancelRequest := net_cancelRequest;
  op_addBlockToResponse := net_addBlockToResponse;
  op_sendResponse := net_sendResponse;
  op_keepPeerAlive := keepPeerAlive;
  op_feedback := network_feedback
}.

(** *** Data *)

(** [Graphsync::RequestState]. *)
Inductive RequestState := IN_PROGRESS | COMPLETED | FAILED.

#[export] Instance RequestState_eq_dec : EqDecision RequestState.
Proof. solve_decision. Defined.

Record RequestTrackingInfo := mkTracking {
  state : RequestState;
  tracked_id : RequestId;
  last_activity_time : Z;
  start_time : Z
}.

Definition kCleanupIntervalMs : Z := 120000.
Definition kRequestActivityTimeoutMs : Z := 180000.

(** Why a call does not return: it locks the mutex it holds, or it throws. *)
Inductive stuck := Deadlock | Exception.

Section graphsync.
Context {M N F S : Type} `{!EqDecision M, !Countable M, !Multiformats M, !Protobuf}.
Context `{!NetworkOps M N F, !DagService M S}.
(** libp2p's [ContentIdentifierCodec::toString]. *)
Context (toString : CID M → outcome Z string).

(** [self] is the identity of the object as a feedback object.  [service_] and
    [block_cb_] are set exactly while [g_started_] is. *)
Record GraphsyncImpl := mkGraphsync {
  self : Z;
  local_requests_ : LocalRequests M;
  tracked_requests_ : gmap (CID M) RequestTrackingInfo;
  g_started_ : bool;
  locked : bool
}.

(** The object, the network and the id generator, which other objects share. *)
Record World := mkWorld { impl : GraphsyncImpl; network_ : N; reqgenerator_ : RequestIdGenerator }.

Inductive event :=
| NetEffect (f : F)
| LocalCall (cb : Callback) (status : ResponseStatusCode) (ext : list Extension)
| ScheduleLocalNotify
| BlockCallback (cid : CID M) (data : bytes)
| PostTask (from : PeerId) (request : Request M) (holder : Z)
| ScheduleCleanup (weak : bool).

Record GEnv := mkGEnv { base_env : Env; service : S }.

(** ** Actions *)

Definition gact (A : Type) : Type := GEnv → World → outcome stuck A * World * list event.

#[export] Instance gact_ret : MRet gact := λ A a e w, (success a, w, []).
#[export] Instance gact_bind : MBind gact := λ A B f c e w,
  match c e w with
  | (success a, w, ev) => let '(b, w, ev') := f a e w in (b, w, ev ++ ev')
  | (failure s, w, ev) => (failure s, w, ev)
  end.

Definition g_get {A} (f : GraphsyncImpl → A) : gact A := λ e w, (success (f (impl w)), w, []).
Definition g_env {A} (f : GEnv → A) : gact A := λ e w, (success (f e), w, []).
Definition g_modify (f : GraphsyncImpl → GraphsyncImpl) : gact unit := λ e w,
  (success tt, mkWorld (f (impl w)) (network_ w) (reqgenerator_ w), []).
Definition g_emit (ev : event) : gact unit := λ e w, (success tt, w, [ev]).
Definition g_throw {A} : gact A := λ e w, (failure Exception, w, []).
Definition g_generator {A} (f : RequestIdGenerator → A * RequestIdGenerator) : gact A := λ e w,
  let '(a, g) := f (reqgenerator_ w) in (success a, mkWorld (impl w) (network_ w) g, []).

Fixpoint g_for_each {A} (l : list A) (f : A → gact unit) : gact unit :=
  match l with
  | [] => mret tt
  | x :: l => _ ← f x; g_for_each l f
  end.

Definition set_local l (g : GraphsyncImpl) := mkGraphsync (self g) l (tracked_requests_ g) (g_started_ g) (locked g).
Definition set_tracked m (g : GraphsyncImpl) := mkGraphsync (self g) (local_requests_ g) m (g_started_ g) (locked g).
Definition set_started b (g : GraphsyncImpl) := mkGraphsync (self g) (local_requests_ g) (tracked_requests_ g) b (locked g).
Definition set_locked b (g : GraphsyncImpl) := mkGraphsync (self g) (local_requests_ g) (tracked_requests_ g) (g_started_ g) b.

Definition now_ : gact Z := g_env (λ e, now (base_env e)).

(** [std::lock_guard lock( requested_cids_mutex_ )] around [m]. *)
Definition with_lock {A} (m : gact A) : gact A := λ e w,
  if locked (impl w) then (failure Deadlock, w, [])
  else
    let '(r, w, ev) := m e (mkWorld (set_locked true (impl w)) (network_ w) (reqgenerator_ w)) in
    match r with
    | failure Deadlock => (failure Deadlock, w, ev)
    | _ => (r, mkWorld (set_locked false (impl w)) (network_ w) (reqgenerator_ w), ev)
    end.

(** [cid.toString().value()] in the arguments of a log call. *)
Definition log_cid (c : CID M) : gact unit := if is_success (toString c) then mret tt else g_throw.

(** The calls of [LocalRequests], but for the cancel function. *)
Definition local_calls (ev : list local_event) : gact unit :=
  g_for_each ev (λ x,
    match x with
    | Call cb st ext => g_emit (LocalCall cb st ext)
    | ScheduleNotify => g_emit ScheduleLocalNotify
    | CancelFn _ _ => mret tt
    end).

(** ** Feedback from the network *)

(** What [onResponse] does with the tracking of the request's root CID. *)
Definition track_response (status : ResponseStatusCode) (n : Z) (info : RequestTrackingInfo) : RequestTrackingInfo :=
  let failed := isTerminal status && negb (bool_decide (status = RS_FULL_CONTENT)) in
  mkTracking (if failed then FAILED else state info) (tracked_id info) n (start_time info).

Definition g_onResponse (request_id : RequestId) (status : ResponseStatusCode) (extensions : list Extension) :
    gact unit :=
  started ← g_get g_started_;
  if negb started then mret tt
  else
    root_cid ← g_get (λ g, getRequestRootCid request_id (local_requests_ g));
    _ ← match root_cid with
        | None => mret tt
        | Some c =>
            with_lock (
              it ← g_get (λ g, tracked_requests_ g !! c);
              n ← now_;
              match it with
              | None => log_cid c
              | Some info =>
                  _ ← g_modify (λ g, set_tracked (<[c := track_response status n info]> (tracked_requests_ g)) g);
                  if bool_decide (status = RS_FULL_CONTENT ∧ state info = FAILED) then mret tt else log_cid c
              end)
        end;
    l ← g_get local_requests_;
    let '(l, ev) := local_onResponse request_id status extensions l in
    _ ← g_modify (set_local l);
    local_calls ev.

Definition g_onBlock (root_cid cid : CID M) (data : bytes) : gact unit :=
  _ ← log_cid cid;
  started ← g_get g_started_;
  if negb started then mret tt
  else
    tracked ← with_lock (
      it ← g_get (λ g, tracked_requests_ g !! root_cid);
      n ← now_;
      match it with
      | None => _ ← log_cid root_cid; mret None
      | Some info =>
          _ ← g_modify (λ g, set_tracked
                (<[root_cid := mkTracking (state info) (tracked_id info) n (start_time info)]> (tracked_requests_ g)) g);
          mret (Some (bool_decide (state info = IN_PROGRESS)))
      end);
    match tracked with
    | None => mret tt
    | Some should_mark_completed =>
        _ ← g_emit (BlockCallback cid data);
        if negb should_mark_completed then mret tt
        else
          with_lock (
            it ← g_get (λ g, tracked_requests_ g !! root_cid);
            match it with
            | Some (mkTracking IN_PROGRESS i a s) =>
                _ ← g_modify (λ g, set_tracked (<[root_cid := mkTracking COMPLETED i a s]> (tracked_requests_ g)) g);
                log_cid root_cid
            | _ => mret tt
            end)
    end.

Definition g_onRemoteRequest (from : PeerId) (request : Request M) : gact unit :=
  started ← g_get g_started_;
  if negb started then mret tt
  else
    holder ← g_generator (registerStatus (id request));
    g_emit (PostTask from request holder).

Definition on_feedback (c : feedback_call M) : gact unit :=
  match c with
  | FB_onResponse _ i st ext => g_onResponse i st ext
  | FB_onBlock _ root cid d => g_onBlock root cid d
  | FB_onRemoteRequest from r => g_onRemoteRequest from r
  end.

(** The effects of a call of the network, with the calls on this object. *)
Definition dispatch (l : list F) : gact unit :=
  g_for_each l (λ f,
    _ ← g_emit (NetEffect f);
    me ← g_get self;
    match op_feedback me f with Some c => on_feedback c | None => mret tt end).

Definition call_network {A} (m : Env → N → A * N * list F) : gact A := λ e w,
  let '(a, n, ev) := m (base_env e) (network_ w) in
  (_ ← dispatch ev; mret a) e (mkWorld (impl w) n (reqgenerator_ w)).

(** ** The public operations *)

(** The constructor: [weak_from_this()] of an object no [shared_ptr] owns yet is
    empty, so that the scheduled callback does nothing. *)
Definition new_GraphsyncImpl (self : Z) : GraphsyncImpl * list event :=
  (mkGraphsync self new_LocalRequests ∅ false false, [ScheduleCleanup false]).

Definition g_start : gact unit :=
  me ← g_get self;
  _ ← call_network (op_start me);
  g_modify (set_started true).

Definition doStop : gact unit :=
  started ← g_get g_started_;
  if negb started then mret tt
  else
    _ ← g_modify (set_started false);
    me ← g_get self;
    _ ← call_network (op_stop me);
    _ ← g_modify (set_tracked ∅);
    l ← g_get local_requests_;
    let '(l, ev) := cancelAll l in
    _ ← g_modify (set_local l);
    local_calls ev.

(** The destructor: [shared_from_this()] in [doStop] throws, as no [shared_ptr] is
    left; the exception leaves a destructor. *)
Definition destroy_graphsync : gact unit :=
  started ← g_get g_started_;
  if negb started then mret tt else _ ← g_modify (set_started false); g_throw.

Definition reject (callback : Callback) : gact (option Z) :=
  l ← g_get local_requests_;
  let '(sub, l, ev) := newRejectedRequest callback l in
  _ ← g_modify (set_local l);
  _ ← local_calls ev;
  mret sub.

(** [local_requests_->newRequest]. *)
Definition new_request (root_cid : CID M) (selector : bytes) (extensions : list Extension)
    (callback : Callback) : gact NewRequest := λ e w,
  let '(r, g, l, ev) := newRequest root_cid selector extensions callback (reqgenerator_ w) (local_requests_ (impl w)) in
  (_ ← local_calls ev;
   match r with returned ctx => mret ctx | _ => g_throw end)
    e (mkWorld (set_local l (impl w)) (network_ w) g).

Definition g_makeRequest (peer : PeerId) (address : option (list string)) (root_cid : CID M) (selector : bytes)
    (extensions : list Extension) (callback : Callback) : gact (option Z) :=
  started ← g_get g_started_;
  can ← (if (started : bool) then call_network (op_canSendRequest peer) else mret false);
  if negb can then reject callback
  else
    with_lock (
      it ← g_get (λ g, tracked_requests_ g !! root_cid);
      if bool_decide ((state <$> it) = Some IN_PROGRESS) then
        _ ← log_cid root_cid; reject callback
      else
        ctx ← new_request root_cid selector extensions callback;
        n ← now_;
        _ ← g_modify (λ g, set_tracked
              (<[root_cid := mkTracking IN_PROGRESS (request_id ctx) n n]> (tracked_requests_ g)) g);
        _ ← (if 0 <? request_id ctx then call_network (op_makeRequest peer address (request_id ctx) (body ctx))
             else mret tt);
        mret (subscription ctx)).

(** A subscription that is cancelled or goes out of scope: [LocalRequests::unsubscribe]
    and, through its cancel function, [cancelLocalRequest]. *)
Definition cancelLocalRequest (request_id : RequestId) (body : SharedData) : gact unit :=
  call_network (op_cancelRequest request_id body).

Definition g_unsubscribe (ticket : Z) : gact unit :=
  l ← g_get local_requests_;
  let '(l, ev) := unsubscribe ticket l in
  _ ← g_modify (set_local l);
  g_for_each ev (λ x, match x with CancelFn i b => cancelLocalRequest i b | _ => mret tt end).

(** [LocalRequests]' scheduled callback. *)
Definition g_onNotifyTimer : gact unit :=
  l ← g_get local_requests_;
  let '(l, ev) := onNotifyTimer l in
  _ ← g_modify (set_local l);
  local_calls ev.

(** ** Requests of peers *)

(** [data_handler] on the nodes in order; the result is whether a block was
    refused, and the number of nodes handed over. *)
Fixpoint hand_over (peer : PeerId) (rid : RequestId) (nodes : list (CID M * bytes)) (sent : Z) : gact (bool * Z) :=
  match nodes with
  | [] => mret (true, sent)
  | (cid, data) :: nodes =>
      if bool_decide (data = []) then hand_over peer rid nodes (sent + 1)
      else
        _ ← call_network (op_keepPeerAlive peer);
        added ← call_network (op_addBlockToResponse peer rid cid data);
        match added with
        | thrown => g_throw
        | returned true => hand_over peer rid nodes (sent + 1)
        | _ => mret (false, sent + 1)
        end
  end.

(** The selection: [send_response] and the result. *)
Definition select_nodes (peer : PeerId) (request : Request M) : gact (bool * outcome Z Z) :=
  s ← g_env service;
  if bool_decide (selector request = []) then
    match dag_getNode (root_cid request) s with
    | failure e => mret (true, failure e)
    | success node =>
        '(send_response, _) ← hand_over peer (id request) [node] 0;
        mret (send_response, success 1)
    end
  else
    match toBytes (root_cid request) with
    | failure _ => mret (true, failure 0)
    | success cid_encoded =>
        match dag_select cid_encoded (selector request) s with
        | failure e => mret (true, failure e)
        | success nodes =>
            '(send_response, n) ← hand_over peer (id request) nodes 0;
            mret (send_response, success n)
        end
    end.

Definition update_generator (f : RequestIdGenerator → RequestIdGenerator) : gact unit :=
  g_generator (λ g, (tt, f g)).

(** The response at the end of the task. *)
Definition answer (peer : PeerId) (request : Request M) (status : ResponseStatusCode) : gact unit :=
  _ ← call_network (op_keepPeerAlive peer);
  started ← g_get g_started_;
  _ ← (if (started : bool) then call_network (op_sendResponse peer (id request) status (extensions request))
       else mret tt);
  update_generator (removeRequest (id request)).

(** The task [onRemoteRequest] posts to the thread pool. *)
Definition remote_task (peer : PeerId) (request : Request M) (holder : Z) : gact unit :=
  started ← g_get g_started_;
  if negb started then update_generator (removeStatus (id request) holder)
  else
    _ ← call_network (op_keepPeerAlive peer);
    '(send_response, select_res) ← select_nodes peer request;
    match select_res with
    | success n =>
        if negb send_response then
          update_generator (removeStatus (id request) holder ∘ setStatus holder RS_REQUEST_FAILED)
        else if 0 <? n then
          _ ← update_generator (setStatus holder RS_FULL_CONTENT);
          answer peer request RS_FULL_CONTENT
        else
          _ ← update_generator (setStatus holder RS_NOT_FOUND);
          all ← g_generator (λ g, (allStatusesNotFound (id request) g, g));
          if (all : bool) then answer peer request RS_NOT_FOUND else mret tt
    | failure _ => update_generator (removeStatus (id request) holder ∘ setStatus holder RS_REQUEST_FAILED)
    end.

(** ** Tracked requests *)

(** Whether [cleanupOldRequests] removes a request, and whether it timed out. *)
Definition stalled (n : Z) (info : RequestTrackingInfo) : bool :=
  (kRequestActivityTimeoutMs <? n - last_activity_time info) ||
  (kRequestActivityTimeoutMs * 2 <? n - start_time info).

Definition cleanup_one (n : Z) (entry : CID M * RequestTrackingInfo) : gact unit :=
  let '(c, info) := entry in
  let forget := g_modify (λ g, set_tracked (delete c (tracked_requests_ g)) g) in
  if negb (bool_decide (state info = IN_PROGRESS)) then forget
  else if stalled n info then
    _ ← log_cid c;
    l ← g_get local_requests_;
    let '(l, ev) := local_onResponse (tracked_id info) RS_TIMEOUT [] l in
    _ ← g_modify (set_local l);
    _ ← local_calls ev;
    forget
  else mret tt.

Definition cleanupOldRequests : gact unit :=
  with_lock (
    n ← now_;
    entries ← g_get (λ g, map_to_list (tracked_requests_ g));
    _ ← g_for_each entries (cleanup_one n);
    g_emit (ScheduleCleanup true)).

(** The scheduled callback, by whether its weak pointer has an object. *)
Definition onCleanupTimer (weak : bool) : gact unit := if weak then cleanupOldRequests else mret tt.

(** [getRequestState]: [None] is [REQUEST_NOT_FOUND]. *)
Definition getRequestState (root_cid : CID M) : gact (option RequestState) :=
  with_lock (g_get (λ g, state <$> tracked_requests_ g !! root_cid)).

(** [getRequestInfo]: the state, the id, the times since start and activity. *)
Definition getRequestInfo (root_cid : CID M) : gact (option (RequestState * RequestId * Z * Z)) :=
  with_lock (
    it ← g_get (λ g, tracked_requests_ g !! root_cid);
    n ← now_;
    mret ((λ info, (state info, tracked_id info, n - start_time info, n - last_activity_time info)) <$> it)).

End graphsync.

(** ** Running an action *)

Section running.
Context {M N F S : Type} `{!EqDecision M, !Countable M, !Multiformats M, !Protobuf}.
Context `{!NetworkOps M N F, !DagService M S}.
Context (toString : CID M → outcome Z string).

Abbreviation G := (gact (M:=M) (N:=N) (F:=F) (S:=S)).
Abbreviation W := (World (M:=M) (N:=N)).

Definition g_result {A} (r : outcome stuck A * W * list (event (M:=M) (F:=F))) : outcome stuck A := r.1.1.
Definition g_world {A} (r : outcome stuck A * W * list (event (M:=M) (F:=F))) : W := r.1.2.
Definition g_trace {A} (r : outcome stuck A * W * list (event (M:=M) (F:=F))) : list event := r.2.

Lemma g_bind_eq {A B} (m : G A) (f : A → G B) e w a w1 ev :
  m e w = (success a, w1, ev) →
  (m ≫= f) e w = (g_result (f a e w1), g_world (f a e w1), ev ++ g_trace (f a e w1)).
Proof. intros Hm. unfold mbind, gact_bind. rewrite Hm. by destruct (f a e w1) as [[r w2] ev2]. Qed.

(** The actions that do nothing but compute. *)
Lemma g_bind_get {A B} (g : GraphsyncImpl → A) (f : A → G B) e w : (g_get g ≫= f) e w = f (g (impl w)) e w.
Proof. rewrite (g_bind_eq _ _ _ _ (g (impl w)) w []) by done. by destruct (f _ e w) as [[r w2] ev2]. Qed.

Lemma g_bind_now {B} (f : Z → G B) e w : (now_ ≫= f) e w = f (now (base_env e)) e w.
Proof. rewrite (g_bind_eq _ _ _ _ (now (base_env e)) w []) by done. by destruct (f _ e w) as [[r w2] ev2]. Qed.

Lemma g_bind_modify {B} g (f : unit → G B) e w :
  (g_modify g ≫= f) e w = f tt e (mkWorld (g (impl w)) (network_ w) (reqgenerator_ w)).
Proof. erewrite g_bind_eq by done. by destruct (f _ e _) as [[r w2] ev2]. Qed.

Lemma g_bind_log {B} c (f : unit → G B) e w : is_success (toString c) = true →
  (log_cid toString c ≫= f) e w = f tt e w.
Proof.
  intros Hc. unfold log_cid. rewrite Hc. erewrite g_bind_eq by done. by destruct (f _ e _) as [[r w2] ev2].
Qed.

Definition lock_of (b : bool) (w : W) : W := mkWorld (set_locked b (impl w)) (network_ w) (reqgenerator_ w).

Lemma with_lock_eq {A} (m : G A) e w a w1 ev : locked (impl w) = false →
  m e (lock_of true w) = (success a, w1, ev) → with_lock m e w = (success a, lock_of false w1, ev).
Proof. intros Hl Hm. unfold with_lock. rewrite Hl. fold (lock_of true w). by rewrite Hm. Qed.

(** ** Cleanup *)

Definition timed_out (n : Z) (info : RequestTrackingInfo) : bool :=
  bool_decide (state info = IN_PROGRESS) && stalled n info.
Definition removed (n : Z) (info : RequestTrackingInfo) : bool :=
  negb (bool_decide (state info = IN_PROGRESS)) || stalled n info.

Definition with_impl (g : GraphsyncImpl) (w : W) : W := mkWorld g (network_ w) (reqgenerator_ w).

(** The requests a timeout ends, and the call it makes. *)
Definition timeout_active (n : Z) (info : RequestTrackingInfo) (m : RequestMap) : RequestMap :=
  if timed_out n info then delete (tracked_id info) m else m.
Definition timeout_calls (n : Z) (info : RequestTrackingInfo) (m : RequestMap) : list (event (M:=M) (F:=F)) :=
  if timed_out n info then
    match m !! tracked_id info with Some cb => [LocalCall cb RS_TIMEOUT []] | None => [] end
  else [].

Lemma set_active_same (l : LocalRequests M) : set_active (active_requests_ l) l = l.
Proof. by destruct l. Qed.

Lemma cleanup_one_eq n c info e (w : W) : is_success (toString c) = true →
  let l := local_requests_ (impl w) in
  let m := active_requests_ l in
  cleanup_one (S:=S) toString n (c, info) e w =
    (success tt,
     with_impl (set_tracked (if removed n info then delete c (tracked_requests_ (impl w)) else tracked_requests_ (impl w))
       (set_local (set_active (timeout_active n info m) l) (impl w))) w,
     timeout_calls n info m).
Proof.
  intros Hc. cbv zeta. unfold cleanup_one, timeout_active, timeout_calls, timed_out, removed, with_impl.
  destruct (bool_decide (state info = IN_PROGRESS)) eqn:Hst; cbn [negb andb orb].
  2: { rewrite set_active_same. by destruct w as [[] ? ?]. }
  destruct (stalled n info).
  2: { rewrite set_active_same. by destruct w as [[] ? ?]. }
  rewrite (g_bind_log c) by exact Hc. rewrite g_bind_get. unfold local_onResponse.
  change (isTerminal RS_TIMEOUT) with true. cbv iota.
  destruct (active_requests_ (local_requests_ (impl w)) !! tracked_id info) as [cb|] eqn:Hi.
  - rewrite g_bind_modify. by destruct w as [[] ? ?].
  - rewrite g_bind_modify, (delete_id (active_requests_ _)) by done. rewrite set_active_same. by destruct w as [[] ? ?].
Qed.

(** What the loop leaves of the tracked requests. *)
Definition sweep (n : Z) (entries : list (CID M * RequestTrackingInfo)) (m : gmap (CID M) RequestTrackingInfo) :
    gmap (CID M) RequestTrackingInfo :=
  foldl (λ m en, if removed n en.2 then delete en.1 m else m) m entries.

(** The loop over the entries. *)
Lemma cleanup_loop n e entries : ∀ w : W, NoDup entries.*1 →
  Forall (λ en, is_success (toString en.1) = true) entries →
  ∃ l m ev, g_for_each entries (cleanup_one (S:=S) toString n) e w =
      (success tt, with_impl (set_tracked m (set_local l (impl w))) w, ev) ∧
    m = sweep n entries (tracked_requests_ (impl w)) ∧
    active_requests_ l ⊆ active_requests_ (local_requests_ (impl w)) ∧
    ∀ c info, (c, info) ∈ entries → timed_out n info = true →
      active_requests_ l !! tracked_id info = None ∧
      ∀ cb, active_requests_ (local_requests_ (impl w)) !! tracked_id info = Some cb → LocalCall (F:=F) cb RS_TIMEOUT [] ∈ ev.
Proof.
  induction entries as [|[c info] entries IH]; intros w HN Hok.
  - exists (local_requests_ (impl w)), (tracked_requests_ (impl w)), []. cbn. destruct w as [[] ? ?].
    split_and!; try done. by intros c info Hin%elem_of_nil.
  - rewrite fmap_cons in HN. apply NoDup_cons in HN as [_ HN]. apply Forall_cons in Hok as [Hc Hok]. cbn [g_for_each].
    pose proof (cleanup_one_eq n c info e w Hc) as H1. cbv zeta in H1.
    set (m0 := active_requests_ (local_requests_ (impl w))) in *.
    set (w1 := with_impl _ w) in H1.
    destruct (IH w1 HN Hok) as (l & m & ev & Heq & Hm & Hsub & Hcalls).
    assert (timeout_active n info m0 ⊆ m0) as Hsub0 by (unfold timeout_active; case_match; [apply delete_subseteq|done]).
    change (active_requests_ (local_requests_ (impl w1))) with (timeout_active n info m0) in *.
    exists l, m, (timeout_calls n info m0 ++ ev). rewrite (g_bind_eq _ _ _ _ _ _ _ H1), Heq.
    split; [by destruct w as [[] ? ?]|]. split; [done|]. split; [by transitivity (timeout_active n info m0)|].
    intros c' info' [[= -> ->]|Hin]%elem_of_cons Hto.
    + split.
      * apply eq_None_not_Some. intros [cb Hcb]. eapply lookup_weaken in Hcb; [|exact Hsub].
        unfold timeout_active in Hcb. rewrite Hto, lookup_delete_eq in Hcb. done.
      * intros cb Hcb. apply elem_of_app. left. unfold timeout_calls. rewrite Hto, Hcb. by apply list_elem_of_singleton.
    + destruct (Hcalls c' info' Hin Hto) as [Hn Hcb']. split; [done|]. intros cb Hcb. apply elem_of_app.
      destruct (timeout_active n info m0 !! tracked_id info') as [cb'|] eqn:Ha.
      * right. pose proof (lookup_weaken _ _ _ _ Ha Hsub0). simplify_eq. by apply Hcb'.
      * left. unfold timeout_active, timeout_calls in *. destruct (timed_out n info); [|congruence].
        destruct (decide (tracked_id info = tracked_id info')) as [Heqi|Hne]; [|by rewrite lookup_delete_ne in Ha; congruence].
        rewrite Heqi, Hcb. by apply list_elem_of_singleton.
Qed.

Lemma lookup_sweep n entries : ∀ m c,
  sweep n entries m !! c =
    if existsb (λ en, bool_decide (en.1 = c) && removed n en.2) entries then None else m !! c.
Proof.
  induction entries as [|[c0 info] entries IH]; intros m c; [done|]. cbn [sweep foldl existsb fst snd]. unfold sweep in IH. rewrite IH.
  destruct (existsb _ entries); [by rewrite orb_true_r|]. rewrite orb_false_r.
  destruct (removed n info); [|by rewrite andb_false_r]. rewrite andb_true_r.
  case_bool_decide; simplify_eq; [by rewrite lookup_delete_eq|by rewrite lookup_delete_ne].
Qed.

(** [cleanupOldRequests] is exact.  It forgets the requests that completed
    or failed and those in progress without activity for
    [kRequestActivityTimeoutMs] or older than twice that, keeps every other
    tracked request unchanged, ends each one it times out that is still active
    with [RS_TIMEOUT] to its callback, schedules itself again and releases the
    mutex. *)
Theorem cleanup_old_requests e (w : W) :
  locked (impl w) = false →
  (∀ c, is_Some (tracked_requests_ (impl w) !! c) → is_success (toString c) = true) →
  let n := now (base_env e) in
  let '(r, w', ev) := cleanupOldRequests (S:=S) toString e w in
  r = success tt ∧ locked (impl w') = false ∧ last ev = Some (ScheduleCleanup true) ∧
  (∀ c info, tracked_requests_ (impl w') !! c = Some info ↔
     tracked_requests_ (impl w) !! c = Some info ∧ state info = IN_PROGRESS ∧
     n - last_activity_time info ≤ kRequestActivityTimeoutMs ∧ n - start_time info ≤ 2 * kRequestActivityTimeoutMs) ∧
  (∀ c info, tracked_requests_ (impl w) !! c = Some info → timed_out n info = true →
     active_requests_ (local_requests_ (impl w')) !! tracked_id info = None ∧
     ∀ cb, active_requests_ (local_requests_ (impl w)) !! tracked_id info = Some cb →
       LocalCall (F:=F) cb RS_TIMEOUT [] ∈ ev).
Proof.
  intros Hl Hstr. cbv zeta. set (n := now (base_env e)).
  set (entries := map_to_list (tracked_requests_ (impl w))).
  destruct (cleanup_loop n e entries (lock_of true w)) as (l & m & ev & Heq & Hm & Hsub & Hcalls).
  { apply NoDup_fst_map_to_list. }
  { apply Forall_forall. intros [c info] Hin%elem_of_map_to_list. apply Hstr. by eexists. }
  unfold cleanupOldRequests. erewrite with_lock_eq; [|done|].
  2: { rewrite g_bind_now, g_bind_get. fold n entries.
       change (map_to_list (tracked_requests_ (impl (lock_of true w)))) with entries.
       rewrite (g_bind_eq _ _ _ _ _ _ _ Heq). reflexivity. }
  split; [done|]. split; [done|]. split; [exact (last_snoc _ ev)|]. split.
  - intros c info. match goal with |- ?a !! _ = _ ↔ _ => change a with m end. rewrite Hm, lookup_sweep.
    change (tracked_requests_ (impl (lock_of true w))) with (tracked_requests_ (impl w)).
    destruct (existsb _ entries) eqn:Hex.
    + apply existsb_exists in Hex as ([c0 i0] & Hin & Hp). apply list_elem_of_In in Hin.
      apply elem_of_map_to_list in Hin. cbn in Hp. apply andb_true_iff in Hp as [<-%bool_decide_eq_true Hr].
      split; [done|]. intros (Hc & Hst & Ha & Hs). simplify_eq. unfold removed, stalled in Hr.
      rewrite bool_decide_true in Hr by done. cbn in Hr. rewrite orb_true_iff, !Z.ltb_lt in Hr. lia.
    + split; [|naive_solver]. intros Hc. split; [done|].
      assert (removed n info = false) as Hr.
      { destruct (removed n info) eqn:Hr; [|done]. rewrite <- Hex. symmetry. apply existsb_exists. exists (c, info).
        split; [by apply list_elem_of_In, elem_of_map_to_list|]. cbn. by rewrite bool_decide_true, Hr. }
      unfold removed, stalled in Hr. rewrite !orb_false_iff, negb_false_iff, bool_decide_eq_true, !Z.ltb_ge in Hr.
      destruct Hr as (Hst & Ha & Hs). split; [done|]. lia.
  - intros c info Hc Hto. destruct (Hcalls c info) as [H1 H2]; [by apply elem_of_map_to_list|done|].
    split; [done|]. intros cb Hcb. apply elem_of_app. left. by apply H2.
Qed.

End running.

(** ** Calls of the network without effects *)

Section silent.
Context {M N F S : Type} `{!EqDecision M, !Countable M, !Multiformats M, !Protobuf}.
Context `{!NetworkOps M N F, !DagService M S}.
Context (toString : CID M → outcome Z string).

Abbreviation G := (gact (M:=M) (N:=N) (F:=F) (S:=S)).
Abbreviation W := (World (M:=M) (N:=N)).

Lemma g_bind_call {A B} (m : Env → N → A * N * list F) (f : A → G B) e (w : W) a n :
  m (base_env e) (network_ w) = (a, n, []) →
  (call_network toString m ≫= f) e w = f a e (mkWorld (impl w) n (reqgenerator_ w)).
Proof.
  intros Hm. erewrite (g_bind_eq (call_network toString m)).
  2: { unfold call_network. rewrite Hm. reflexivity. }
  by destruct (f _ e _) as [[r w2] ev2].
Qed.

Lemma g_bind_generator {A B} g (f : A → G B) e (w : W) :
  (g_generator g ≫= f) e w = f (g (reqgenerator_ w)).1 e (mkWorld (impl w) (network_ w) (g (reqgenerator_ w)).2).
Proof.
  unfold g_generator. destruct (g (reqgenerator_ w)) as [a g'] eqn:Hg.
  erewrite g_bind_eq by (cbv beta; rewrite Hg; reflexivity). by destruct (f _ e _) as [[r w2] ev2].
Qed.

Lemma g_bind_env {A B} (g : GEnv → A) (f : A → G B) e w : (g_env g ≫= f) e w = f (g e) e w.
Proof. erewrite g_bind_eq by done. by destruct (f _ e _) as [[r w2] ev2]. Qed.

(** A rejected request: nothing but the notification is scheduled. *)
Lemma reject_eq cb e (w : W) : ∃ sub l ev,
  reject (S:=S) cb e w = (success sub, with_impl (set_local l (impl w)) w, ev) ∧
  active_requests_ l = active_requests_ (local_requests_ (impl w)) ∧
  (ev = [] ∨ ev = [ScheduleLocalNotify (F:=F)]).
Proof.
  unfold reject. rewrite g_bind_get. unfold newRejectedRequest, asyncNotifyRejectedRequests.
  destruct (_ =? 0); [|cbn [set_rejected rejected_notify_scheduled_]; destruct (rejected_notify_scheduled_ _)];
    rewrite g_bind_modify; (do 3 eexists; split; [reflexivity|split; [done|by auto]]).
Qed.

End silent.

(** ** Answering a peer *)

(** A network that records the calls it gets and accepts blocks by [accept]. *)
Inductive net_call (M : Type) :=
| C_keepPeerAlive (peer : PeerId)
| C_addBlock (peer : PeerId) (rid : RequestId) (cid : CID M) (data : bytes)
| C_sendResponse (peer : PeerId) (rid : RequestId) (status : ResponseStatusCode) (ext : list Extension)
| C_other.
Arguments C_keepPeerAlive {M}. Arguments C_addBlock {M}. Arguments C_sendResponse {M}. Arguments C_other {M}.

Definition recording {M} (accept : CID M → bytes → bool) : NetworkOps M (list (net_call M)) Empty_set := {|
  op_start _ _ n := (tt, n ++ [C_other], []);
  op_stop _ _ n := (tt, n ++ [C_other], []);
  op_canSendRequest _ _ n := (true, n ++ [C_other], []);
  op_makeRequest _ _ _ _ _ n := (tt, n ++ [C_other], []);
  op_cancelRequest _ _ _ n := (tt, n ++ [C_other], []);
  op_addBlockToResponse p i c d _ n := (returned (accept c d), n ++ [C_addBlock p i c d], []);
  op_sendResponse p i st x _ n := (tt, n ++ [C_sendResponse p i st x], []);
  op_keepPeerAlive p _ n := (tt, n ++ [C_keepPeerAlive p], []);
  op_feedback _ _ := None
|}.

Section answering.
Context {M S : Type} `{!EqDecision M, !Countable M, !Multiformats M, !Protobuf, !DagService M S}.
Context (toString : CID M → outcome Z string) (accept : CID M → bytes → bool).

#[local] Instance recorder : NetworkOps M (list (net_call M)) Empty_set := recording accept.

(** The blocks offered to the network, and whether all of them were accepted. *)
Fixpoint offers (peer : PeerId) (rid : RequestId) (nodes : list (CID M * bytes)) : list (net_call M) * bool :=
  match nodes with
  | [] => ([], true)
  | (c, d) :: nodes =>
      if bool_decide (d = []) then offers peer rid nodes
      else if accept c d then
        let '(calls, ok) := offers peer rid nodes in
        (C_keepPeerAlive peer :: C_addBlock peer rid c d :: calls, ok)
      else ([C_keepPeerAlive peer; C_addBlock peer rid c d], false)
  end.

(** What a request selects. *)
Definition selection (request : Request M) (s : S) : outcome Z (list (CID M * bytes)) :=
  if bool_decide (selector request = []) then
    match dag_getNode (root_cid request) s with success node => success [node] | failure e => failure e end
  else
    match toBytes (root_cid request) with
    | success b => dag_select b (selector request) s
    | failure _ => failure 0
    end.

Lemma hand_over_eq peer rid nodes : ∀ n e (w : World (M:=M)), ∃ m,
  hand_over (S:=S) toString peer rid nodes n e w =
    (success ((offers peer rid nodes).2, m),
     mkWorld (impl w) (network_ w ++ (offers peer rid nodes).1) (reqgenerator_ w), []) ∧
  n ≤ m ∧ ((offers peer rid nodes).2 = true → m = n + size nodes).
Proof.
  induction nodes as [|[c d] nodes IH]; intros n e w.
  - exists n. cbn. rewrite app_nil_r. destruct w. split; [done|]. split; [lia|]. intros _. rewrite size_nil. lia.
  - cbn [hand_over offers]. rewrite size_cons. case_bool_decide as Hd.
    + destruct (IH (n + 1) e w) as (m & Heq & Hle & Hm). exists m. split; [done|]. split; [lia|]. intros Ho.
      rewrite (Hm Ho). lia.
    + erewrite g_bind_call by reflexivity. erewrite g_bind_call by reflexivity. destruct (accept c d).
      * destruct (IH (n + 1) e (mkWorld (impl w) ((network_ w ++ [C_keepPeerAlive peer]) ++ [C_addBlock peer rid c d])
          (reqgenerator_ w))) as (m & Heq & Hle & Hm).
        exists m. cbn [impl network_ reqgenerator_] in *. rewrite Heq. destruct (offers peer rid nodes) as [calls ok].
        rewrite <- !app_assoc. cbn [app fst snd] in *. split; [done|]. split; [lia|]. intros Ho. rewrite (Hm Ho). lia.
      * exists (n + 1). cbn. rewrite <- !app_assoc. split; [done|]. split; [lia|]. discriminate.
Qed.
Lemma select_nodes_eq peer request e (w : World (M:=M)) :
  match selection request (service e) with
  | failure x => ∃ x', select_nodes (S:=S) toString peer request e w = (success (true, failure x'), w, [])
  | success nodes => ∃ n,
      select_nodes (S:=S) toString peer request e w =
        (success ((offers peer (id request) nodes).2, success n),
         mkWorld (impl w) (network_ w ++ (offers peer (id request) nodes).1) (reqgenerator_ w), []) ∧
      ((offers peer (id request) nodes).2 = true → n = size nodes)
  end.
Proof.
  unfold selection, select_nodes. rewrite g_bind_env. case_bool_decide as Hs.
  - destruct (dag_getNode (root_cid request) (service e)) as [node|x]; [|by exists x].
    destruct (hand_over_eq peer (id request) [node] 0 e w) as (m & Heq & _). exists 1.
    rewrite (g_bind_eq _ _ _ _ _ _ _ Heq). done.
  - destruct (toBytes (root_cid request)) as [b|x]; [|by exists 0].
    destruct (dag_select b (selector request) (service e)) as [nodes|x]; [|by exists x].
    destruct (hand_over_eq peer (id request) nodes 0 e w) as (m & Heq & _ & Hm). exists m.
    rewrite (g_bind_eq _ _ _ _ _ _ _ Heq). split; [done|]. intros Ho. rewrite (Hm Ho). lia.
Qed.

Lemma answer_eq peer request st e (w : World (M:=M)) : g_started_ (impl w) = true →
  answer (S:=S) toString peer request st e w =
    (success tt,
     mkWorld (impl w) (network_ w ++ [C_keepPeerAlive peer; C_sendResponse peer (id request) st (extensions request)])
       (removeRequest (id request) (reqgenerator_ w)), []).
Proof.
  intros Hs. unfold answer. erewrite g_bind_call by reflexivity. rewrite g_bind_get. cbn [impl]. rewrite Hs.
  erewrite g_bind_call by reflexivity. cbn. by rewrite <- app_assoc.
Qed.

(** The task when the selection fails, and when it has nodes. *)
Lemma remote_task_failed peer request holder e (w : World (M:=M)) x :
  g_started_ (impl w) = true → selection request (service e) = failure x →
  remote_task (S:=S) toString peer request holder e w =
    (success tt, mkWorld (impl w) (network_ w ++ [C_keepPeerAlive peer])
       (removeStatus (id request) holder (setStatus holder RS_REQUEST_FAILED (reqgenerator_ w))), []).
Proof.
  intros Hs Hsel. unfold remote_task. rewrite g_bind_get, Hs. cbn [negb]. erewrite g_bind_call by reflexivity.
  pose proof (select_nodes_eq peer request e (mkWorld (impl w) (network_ w ++ [C_keepPeerAlive peer]) (reqgenerator_ w))) as Hn.
  rewrite Hsel in Hn. destruct Hn as (x' & Heq). rewrite (g_bind_eq _ _ _ _ _ _ _ Heq). done.
Qed.

Lemma remote_task_nodes peer request holder e (w : World (M:=M)) nodes :
  g_started_ (impl w) = true → selection request (service e) = success nodes → nodes ≠ [] →
  let '(calls, ok) := offers peer (id request) nodes in
  remote_task (S:=S) toString peer request holder e w =
    (success tt,
     mkWorld (impl w) (network_ w ++ C_keepPeerAlive peer :: calls ++
         if (ok : bool) then [C_keepPeerAlive peer; C_sendResponse peer (id request) RS_FULL_CONTENT (extensions request)] else [])
       (if ok then removeRequest (id request) (setStatus holder RS_FULL_CONTENT (reqgenerator_ w))
        else removeStatus (id request) holder (setStatus holder RS_REQUEST_FAILED (reqgenerator_ w))), []).
Proof.
  intros Hs Hsel Hne. unfold remote_task. rewrite g_bind_get, Hs. cbn [negb]. erewrite g_bind_call by reflexivity.
  pose proof (select_nodes_eq peer request e (mkWorld (impl w) (network_ w ++ [C_keepPeerAlive peer]) (reqgenerator_ w))) as Hn.
  rewrite Hsel in Hn. destruct Hn as (n & Heq & Hn). rewrite (g_bind_eq _ _ _ _ _ _ _ Heq).
  destruct (offers peer (id request) nodes) as [calls ok]. cbn [fst snd] in *. destruct ok; cbn [negb].
  2: { cbn. by rewrite app_nil_r, <- app_assoc. }
  rewrite (Hn eq_refl). destruct nodes as [|node nodes]; [done|].
  destruct (Z.ltb_spec 0 (size (node :: nodes))); [|rewrite size_cons in *; pose proof (size_nonneg nodes); lia].
  unfold update_generator. rewrite g_bind_generator, answer_eq by done. cbn. by rewrite <- !app_assoc.
Qed.

(** The response to a peer's request, on every branch.  The task keeps the
    peer alive and offers the non-empty nodes of the selection to the network, in
    order, until one is refused.  When all are accepted and there is a node, it
    sends one [RS_FULL_CONTENT] with the extensions of the request; with no node,
    [RS_NOT_FOUND] if every object that got the request found nothing.  When the
    selection fails, a missing root included, or a block is refused, it sends no
    response at all. *)
Theorem remote_task_calls peer request holder e (w : World (M:=M)) :
  g_started_ (impl w) = true →
  let rid := id request in
  let failed_ := removeStatus rid holder (setStatus holder RS_REQUEST_FAILED (reqgenerator_ w)) in
  let '(r, w', ev) := remote_task (S:=S) toString peer request holder e w in
  r = success tt ∧ ev = [] ∧ impl w' = impl w ∧
  match selection request (service e) with
  | failure _ => network_ w' = network_ w ++ [C_keepPeerAlive peer] ∧ reqgenerator_ w' = failed_
  | success nodes =>
      let '(calls, ok) := offers peer rid nodes in
      if negb ok then network_ w' = network_ w ++ C_keepPeerAlive peer :: calls ∧ reqgenerator_ w' = failed_
      else if bool_decide (nodes = []) then
        let g := setStatus holder RS_NOT_FOUND (reqgenerator_ w) in
        if allStatusesNotFound rid g then
          network_ w' = network_ w ++ [C_keepPeerAlive peer; C_keepPeerAlive peer;
            C_sendResponse peer rid RS_NOT_FOUND (extensions request)] ∧
          reqgenerator_ w' = removeRequest rid g
        else network_ w' = network_ w ++ [C_keepPeerAlive peer] ∧ reqgenerator_ w' = g
      else
        network_ w' = network_ w ++ C_keepPeerAlive peer :: calls ++
          [C_keepPeerAlive peer; C_sendResponse peer rid RS_FULL_CONTENT (extensions request)] ∧
        reqgenerator_ w' = removeRequest rid (setStatus holder RS_FULL_CONTENT (reqgenerator_ w))
  end.
Proof.
  intros Hs. cbv zeta. destruct (selection request (service e)) as [nodes|x] eqn:Hsel.
  2: { by rewrite (remote_task_failed _ _ _ _ _ _ Hs Hsel). }
  case_bool_decide as Hne.
  2: { pose proof (remote_task_nodes peer request holder e w nodes Hs Hsel Hne) as Ht.
       destruct (offers peer (id request) nodes) as [calls ok]. rewrite Ht. by destruct ok; cbn; rewrite ?app_nil_r. }
  subst nodes. cbn [offers negb]. unfold remote_task. rewrite g_bind_get, Hs. cbn [negb]. erewrite g_bind_call by reflexivity.
  pose proof (select_nodes_eq peer request e (mkWorld (impl w) (network_ w ++ [C_keepPeerAlive peer]) (reqgenerator_ w))) as Hn.
  rewrite Hsel in Hn. destruct Hn as (n & Heq & Hn). rewrite (g_bind_eq _ _ _ _ _ _ _ Heq). cbn [offers fst snd negb] in *.
  rewrite (Hn eq_refl). change (0 <? size []) with false. cbv iota.
  unfold update_generator. rewrite g_bind_generator, g_bind_generator. cbn [fst snd reqgenerator_].
  destruct (allStatusesNotFound _ _); [|cbn; by rewrite app_nil_r].
  rewrite answer_eq by done. cbn. by rewrite app_nil_r, <- app_assoc.
Qed.

End answering.

(** ** A cancelled request blocks its CID *)

Section cancelling.
Context {M S : Type} `{!EqDecision M, !Countable M, !Multiformats M, !Protobuf, !DagService M S}.
Context (toString : CID M → outcome Z string).

(** Actions of the network without effects. *)
Definition silent {A} (m : net (M:=M) A) : Prop := ∀ e n, (m e n).2 = [].

Lemma silent_bind {A B} (m : net A) (f : A → net B) : silent m → (∀ a, silent (f a)) → silent (m ≫= f).
Proof.
  intros Hm Hf e n. unfold mbind, net_bind. specialize (Hm e n). destruct (m e n) as [[a n1] ev]. cbn in Hm. subst ev.
  specialize (Hf a e n1). by destruct (f a e n1) as [[b n2] ev2].
Qed.

Lemma silent_canSendRequest peer : silent (canSendRequest (M:=M) peer).
Proof.
  unfold canSendRequest. apply silent_bind; [done|intros started]. destruct (negb started); [done|].
  apply silent_bind; [|intros ctx].
  - intros e n. rewrite findContext_eq. by repeat case_match.
  - destruct (negb ctx); [done|]. apply silent_bind.
    + intros e n. unfold on_peer. by destruct (peers_ n !! peer).
    + intros st. by case_bool_decide.
Qed.

Abbreviation W := (World (M:=M) (N:=Network)).

Lemma unsubscribe_quiet ticket e (w : W) : NetInv (network_ w) →
  g_unsubscribe (S:=S) toString ticket e w =
    (success tt, with_impl (set_local (unsubscribe ticket (local_requests_ (impl w))).1 (impl w)) w, []).
Proof.
  intros HI. unfold g_unsubscribe. rewrite g_bind_get.
  assert (∀ l (w1 : W) i b, network_ w1 = network_ w →
    (_ ← g_modify (set_local l); g_for_each [CancelFn i b]
      (λ x, match x with CancelFn i b => cancelLocalRequest (S:=S) toString i b | _ => mret tt end)) e w1 =
    (success tt, with_impl (set_local l (impl w1)) w1, [])) as Hone.
  { intros l w1 i b Hn. rewrite g_bind_modify. cbn [g_for_each]. unfold cancelLocalRequest.
    erewrite g_bind_call; [done|]. cbn [network_ op_cancelRequest network_ops]. rewrite Hn.
    unfold net_cancelRequest, mbind, net_bind, net_get, mret, net_ret.
    destruct (negb (started_ (network_ w))); [reflexivity|]. by rewrite (ni_active _ HI), lookup_empty. }
  unfold unsubscribe. destruct (i32 ticket <? 0); [rewrite g_bind_modify; done|].
  destruct (active_requests_ (local_requests_ (impl w)) !! i32 ticket); [by rewrite Hone|rewrite g_bind_modify; done].
Qed.

(** C24: cancelling a request blocks its CID.  When the subscription of a request
    in progress is dropped, nothing is sent to the peer and the request stays
    tracked as in progress; from then on every request for the same CID, to any
    peer, is rejected locally, and again nothing is sent. *)
Theorem cancelled_request_blocks_cid ticket e (w : W) c info :
  NetInv (network_ w) → g_started_ (impl w) = true → locked (impl w) = false →
  tracked_requests_ (impl w) !! c = Some info → state info = IN_PROGRESS → is_success (toString c) = true →
  let r := g_unsubscribe (S:=S) toString ticket e w in
  g_result r = success tt ∧ g_trace r = [] ∧ tracked_requests_ (impl (g_world r)) = tracked_requests_ (impl w) ∧
  ∀ peer address sel ext cb e',
    let r' := g_makeRequest (S:=S) toString peer address c sel ext cb e' (g_world r) in
    (∃ sub, g_result r' = success sub) ∧
    tracked_requests_ (impl (g_world r')) = tracked_requests_ (impl w) ∧
    active_requests_ (local_requests_ (impl (g_world r'))) = active_requests_ (local_requests_ (impl (g_world r))) ∧
    (∀ f, NetEffect f ∉ g_trace r').
Proof.
  intros HI Hs Hl Hc Hst Hp. cbv zeta. rewrite (unsubscribe_quiet ticket e w HI).
  set (w1 := with_impl _ w). change (g_world (success tt, w1, @nil (event (M:=M) (F:=net_effect M)))) with w1.
  split; [done|]. split; [done|]. split; [done|]. intros peer address sel ext cb e'.
  unfold g_makeRequest. rewrite g_bind_get. assert (g_started_ (impl w1) = true) as Hs1 by done.
  rewrite Hs1. destruct (canSendRequest (M:=M) peer (base_env e') (network_ w1)) as [[can n'] ev] eqn:Hcan.
  assert (ev = []) as -> by (pose proof (silent_canSendRequest peer (base_env e') (network_ w1)) as Hq; by rewrite Hcan in Hq).
  erewrite g_bind_call by exact Hcan.
  assert (∀ w2 : W, tracked_requests_ (impl w2) = tracked_requests_ (impl w) →
    active_requests_ (local_requests_ (impl w2)) = active_requests_ (local_requests_ (impl w1)) →
    ∃ sub w3 ev, reject (S:=S) (F:=net_effect M) cb e' w2 = (success sub, w3, ev) ∧
      tracked_requests_ (impl w3) = tracked_requests_ (impl w) ∧
      active_requests_ (local_requests_ (impl w3)) = active_requests_ (local_requests_ (impl w1)) ∧
      (∀ f, NetEffect f ∉ ev)) as Hrej.
  { intros w2 H1 H2. destruct (reject_eq (S:=S) (F:=net_effect M) cb e' w2) as (sub & l & ev & Heq & Ha & Hev).
    exists sub, (with_impl (set_local l (impl w2)) w2), ev. split; [done|]. split; [done|]. split; [by rewrite <- H2|].
    intros f. destruct Hev as [-> | ->]; set_solver. }
  destruct can; cbn [negb].
  - destruct (Hrej (lock_of true (mkWorld (impl w1) n' (reqgenerator_ w1))) eq_refl eq_refl) as (sub & w3 & ev & Heq & H1 & H2 & H3).
    erewrite with_lock_eq; [|done|].
    2: { rewrite g_bind_get. cbn [impl]. change (tracked_requests_ (impl (lock_of true _))) with (tracked_requests_ (impl w)).
         rewrite Hc. cbn [fmap option_fmap option_map]. rewrite Hst, bool_decide_true by done.
         rewrite g_bind_log by exact Hp. exact Heq. }
    split; [by eexists|]. split; [done|]. split; [done|]. done.
  - destruct (Hrej (mkWorld (impl w1) n' (reqgenerator_ w1)) eq_refl eq_refl) as (sub & w3 & ev & Heq & H1 & H2 & H3).
    rewrite Heq. split; [by eexists|]. split; [done|]. split; done.
Qed.

End cancelling.

(** ** Witnesses *)

Section samples.

Abbreviation SC := Cid.Sample.Multihash.

(** A DAG without nodes, and CIDs that print. *)
#[local] Instance empty_dag : DagService SC unit := {
  dag_getNode := λ _ _, failure 0;
  dag_select := λ _ _ _, failure 0
}.
Definition print_cid (c : CID SC) : outcome Z string := success ""%string.

Abbreviation sample_world := (World (M:=SC) (N:=Network)).

Definition initial_world : sample_world :=
  mkWorld (new_GraphsyncImpl (F:=net_effect SC) 1).1 new_Network new_RequestIdGenerator.

(** Request 1 for CID 5 is stalled, CID 6 is complete, request 3 for CID 7 goes on. *)
Definition old_world : sample_world :=
  mkWorld (mkGraphsync 1 (set_active {[1 := 10; 3 := 12]} new_LocalRequests)
    {[Cid.Sample.cid_v1 5 := mkTracking IN_PROGRESS 1 1000 1000;
      Cid.Sample.cid_v1 6 := mkTracking COMPLETED 2 1000 1000;
      Cid.Sample.cid_v1 7 := mkTracking IN_PROGRESS 3 150000 1000]} true false)
    new_Network new_RequestIdGenerator.
Definition late_env : GEnv (S:=unit) := mkGEnv (mkEnv 200000 (λ _, false) (λ _, true)) tt.

Lemma cleanup_old_requests_witness :
  tracked_requests_ (impl (cleanupOldRequests (F:=net_effect SC) print_cid late_env old_world).1.2) !! Cid.Sample.cid_v1 7 =
    Some (mkTracking IN_PROGRESS 3 150000 1000) ∧
  LocalCall 10 RS_TIMEOUT [] ∈ (cleanupOldRequests (F:=net_effect SC) print_cid late_env old_world).2.
Proof.
  pose proof (cleanup_old_requests (F:=net_effect SC) print_cid late_env old_world eq_refl (λ _ _, eq_refl)) as Hc.
  destruct (cleanupOldRequests print_cid late_env old_world) as [[r w'] ev]. cbv zeta in Hc.
  destruct Hc as (_ & _ & _ & Hkeep & Hto). split.
  - apply Hkeep. split; [vm_compute; reflexivity|]. split; [reflexivity|]. split; vm_compute; discriminate.
  - assert (tracked_requests_ (impl old_world) !! Cid.Sample.cid_v1 5 = Some (mkTracking IN_PROGRESS 1 1000 1000)) as H5
      by (vm_compute; reflexivity).
    destruct (Hto _ _ H5 eq_refl) as [_ Hcall]. apply Hcall. vm_compute. reflexivity.
Defined.

(** A DAG with one node that is not empty and one that is. *)
Definition two_nodes : DagService SC unit := {|
  dag_getNode := λ c _, success (c, [1; 2]);
  dag_select := λ _ _ _, success [(Cid.Sample.cid_v1 5, [1; 2]); (Cid.Sample.cid_v1 6, [])]
|}.
Definition sample_request : Request SC := mkRequest 4 (Cid.Sample.cid_v1 5) [160] [] 1 false.
Definition answering_world : World (M:=SC) (N:=list (net_call SC)) :=
  mkWorld (mkGraphsync 1 new_LocalRequests ∅ true false) [] (registerStatus 4 new_RequestIdGenerator).2.

Lemma remote_task_calls_witness :
  network_ (remote_task (NetworkOps0:=recorder (λ _ _, true)) (DagService0:=two_nodes) print_cid peer_one
    sample_request 0 late_env answering_world).1.2 =
  [C_keepPeerAlive peer_one; C_keepPeerAlive peer_one; C_addBlock peer_one 4 (Cid.Sample.cid_v1 5) [1; 2];
   C_keepPeerAlive peer_one; C_sendResponse peer_one 4 RS_FULL_CONTENT []].
Proof.
  pose proof (remote_task_calls (DagService0:=two_nodes) print_cid (λ _ _, true) peer_one sample_request 0 late_env
    answering_world eq_refl) as Hr.
  destruct (remote_task _ _ _ _ _ _) as [[r w'] ev]. destruct Hr as (_ & _ & _ & Hr). exact (proj1 Hr).
Defined.

(** The subscription of request 1 is dropped while the peer has not answered. *)
Lemma cancelled_request_blocks_cid_witness :
  let r := g_unsubscribe (S:=unit) print_cid 1 (mkGEnv sample_env tt)
    (mkWorld (impl old_world) new_Network new_RequestIdGenerator) in
  g_trace r = [] ∧
  ∃ sub, g_result (g_makeRequest (S:=unit) print_cid peer_one None (Cid.Sample.cid_v1 5) [] [] 20
    (mkGEnv sample_env tt) (g_world r)) = success sub.
Proof.
  pose proof (cancelled_request_blocks_cid (S:=unit) print_cid 1 (mkGEnv sample_env tt)
    (mkWorld (impl old_world) new_Network new_RequestIdGenerator) (Cid.Sample.cid_v1 5)
    (mkTracking IN_PROGRESS 1 1000 1000) netinv_new eq_refl eq_refl) as Hr.
  assert (tracked_requests_ (impl old_world) !! Cid.Sample.cid_v1 5 = Some (mkTracking IN_PROGRESS 1 1000 1000)) as H5
    by (vm_compute; reflexivity).
  destruct (Hr H5 eq_refl eq_refl) as (_ & Ht & _ & Hm). split; [exact Ht|].
  destruct (Hm peer_one None [] [] 20 (mkGEnv sample_env tt)) as (Hsub & _). exact Hsub.
Defined.

End samples.
