(* ===== verification/Delivery.v ===== *)
(** A message at a node: what a frame from a peer does to the objects of this
    repository one above the other, from the reader of the stream to the user's
    callbacks ([MessageReader], [PeerContext], [Network], [GraphsyncImpl]).

    The chain is the code's: the reader hands the body to [MessageReader_onMessageRead],
    which parses it for [onReaderEvent]; the context calls the feedbacks; the core
    module updates its requests and calls the user. *)
From stdpp Require Import base numbers countable list gmap strings.
From S2P Require Import Prelude Cid Status MessageQueue Marshalling InboundEndpoint LocalRequests PeerContext PeerProofs.
From S2P Require Import Network Graphsync.

Open Scope Z_scope.

(** ** Feedback on the core *)

Section feedback.
Context {M N F S : Type} `{!EqDecision M, !Countable M, !Multiformats M, !Protobuf}.
Context `{!NetworkOps M N F, !DagService M S}.
Context (toString : CID M → outcome Z string).

Abbreviation W := (World (M:=M) (N:=N)).

(** The object runs and no thread holds its mutex. *)
Definition idle (w : W) : Prop := g_started_ (impl w) = true ∧ locked (impl w) = false.

(** The CID has a text. *)
Definition prints (c : CID M) : Prop := is_success (toString c) = true.

(** The calls of the user's callback for a response. *)
Definition response_calls (i : RequestId) (st : ResponseStatusCode) (x : list Extension) (l : LocalRequests M) :
    list (event (M:=M) (F:=F)) :=
  match active_requests_ l !! i with Some cb => [LocalCall cb st x] | None => [] end.

(** The tracked requests after a response and after a block. *)
Definition tracked_response (n : Z) (i : RequestId) (st : ResponseStatusCode) (g : GraphsyncImpl) :
    gmap (CID M) RequestTrackingInfo :=
  match getRequestRootCid i (local_requests_ g) with
  | Some c => alter (track_response st n) c (tracked_requests_ g)
  | None => tracked_requests_ g
  end.
Definition touch (n : Z) (info : RequestTrackingInfo) : RequestTrackingInfo :=
  mkTracking (if bool_decide (state info = IN_PROGRESS) then COMPLETED else state info) (tracked_id info) n
    (start_time info).

Lemma touch_twice n info : touch n (touch n info) = touch n info.
Proof. unfold touch. cbn. by destruct (state info). Qed.

Lemma alter_lookup {A} (f : A → A) (c : CID M) (m : gmap (CID M) A) x : m !! c = Some x → alter f c m = <[c := f x]> m.
Proof.
  intros Hc. apply map_eq. intros c'. destruct (decide (c = c')) as [<-|Hne].
  - by rewrite lookup_alter_eq, Hc, lookup_insert_eq.
  - by rewrite lookup_alter_ne, lookup_insert_ne.
Qed.

Lemma touch_alter n c (m : gmap (CID M) RequestTrackingInfo) : alter (touch n) c (alter (touch n) c m) = alter (touch n) c m.
Proof.
  apply map_eq. intros c'. destruct (decide (c = c')) as [<-|Hne]; [|by rewrite !lookup_alter_ne].
  rewrite !lookup_alter_eq. destruct (m !! c) as [info|]; cbn; [by rewrite touch_twice|done].
Qed.

(** A call of one of our feedback functions, by its result. *)
Definition after (g : GraphsyncImpl) (w : W) : W := mkWorld g (network_ w) (reqgenerator_ w).

Lemma local_calls_eq ev e (w : W) : (∀ i b, CancelFn i b ∉ ev) →
  local_calls (S:=S) ev e w =
    (success tt, w, (λ x, match x with Call cb st ext => LocalCall (F:=F) cb st ext | _ => ScheduleLocalNotify end) <$> ev).
Proof.
  unfold local_calls. induction ev as [|x ev IH]; intros Hc; [done|]. cbn [g_for_each fmap list_fmap].
  assert (∀ i b, CancelFn i b ∉ ev) as Hc' by set_solver. specialize (IH Hc').
  destruct x as [cb st ext| |i b]; [| |by destruct (Hc i b); left].
  all: erewrite g_bind_eq by reflexivity; cbn [app]; by rewrite IH.
Qed.

Lemma set_local_same (g : GraphsyncImpl (M:=M)) : set_local (local_requests_ g) g = g.
Proof. by destruct g. Qed.
Lemma set_tracked_same (g : GraphsyncImpl (M:=M)) : set_tracked (tracked_requests_ g) g = g.
Proof. by destruct g. Qed.

Lemma onResponse_eq i st x e (w : W) : idle w → (∀ c, getRequestRootCid i (local_requests_ (impl w)) = Some c → prints c) →
  g_onResponse (S:=S) (F:=F) toString i st x e w =
    (success tt,
     after (set_local (local_onResponse i st x (local_requests_ (impl w))).1
       (set_tracked (tracked_response (now (base_env e)) i st (impl w)) (impl w))) w,
     response_calls i st x (local_requests_ (impl w))).
Proof.
  intros [Hs Hl] Hroot. unfold g_onResponse. rewrite g_bind_get, Hs. cbn [negb]. rewrite g_bind_get.
  set (w1 := after (set_tracked (tracked_response (now (base_env e)) i st (impl w)) (impl w)) w).
  match goal with |- (?m ≫= ?k) e w = _ => assert (m e w = (success tt, w1, [])) as Hm end.
  { subst w1. unfold tracked_response, after. destruct (getRequestRootCid i _) as [c|].
    2: { clear Hroot. rewrite set_tracked_same. by destruct w. }
    specialize (Hroot c eq_refl). unfold prints in Hroot.
    destruct w as [g net gen]. cbn [impl network_ reqgenerator_] in *. destruct (tracked_requests_ g !! c) as [info|] eqn:Hc.
    - rewrite (alter_lookup _ _ _ _ Hc). erewrite with_lock_eq; [|done|].
      2: { rewrite g_bind_get, g_bind_now. unfold lock_of. cbn [impl tracked_requests_ set_locked]. rewrite Hc, g_bind_modify.
           case_bool_decide; [reflexivity|]. unfold log_cid. rewrite Hroot. reflexivity. }
      unfold lock_of. cbn. destruct g as [me l tr st' lk]. cbn in *. by subst lk.
    - rewrite alter_id by (intros ? Hx; by rewrite Hc in Hx). rewrite set_tracked_same. erewrite with_lock_eq; [|done|].
      2: { rewrite g_bind_get, g_bind_now. unfold lock_of. cbn [impl tracked_requests_ set_locked]. rewrite Hc. unfold log_cid.
           rewrite Hroot. reflexivity. }
      unfold lock_of. cbn. destruct g as [me l tr st' lk]. cbn in *. by subst lk. }
  rewrite (g_bind_eq _ _ _ _ _ _ _ Hm), app_nil_l. rewrite g_bind_get.
  change (local_requests_ (impl w1)) with (local_requests_ (impl w)). unfold local_onResponse, response_calls.
  destruct (active_requests_ (local_requests_ (impl w)) !! i) as [cb|]; rewrite g_bind_modify; by rewrite local_calls_eq by set_solver.
Qed.

Lemma bind_quiet {A B} (m : gact (M:=M) (N:=N) (F:=F) (S:=S) A) (f : A → gact B) e w a w1 :
  m e w = (success a, w1, []) → (m ≫= f) e w = f a e w1.
Proof. intros Hm. rewrite (g_bind_eq _ _ _ _ _ _ _ Hm). by destruct (f a e w1) as [[r w2] ev2]. Qed.

Lemma onBlock_eq root c d e (w : W) : idle w → prints root → prints c →
  g_onBlock (S:=S) (F:=F) toString root c d e w =
    (success tt, after (set_tracked (alter (touch (now (base_env e))) root (tracked_requests_ (impl w))) (impl w)) w,
     if decide (is_Some (tracked_requests_ (impl w) !! root)) then [BlockCallback c d] else []).
Proof.
  intros [Hs Hl] Hroot Hc0. unfold g_onBlock. unfold prints in Hroot, Hc0. rewrite g_bind_log by done. rewrite g_bind_get, Hs. cbn [negb].
  destruct w as [[me l tr st lk] net gen]. cbn in Hs, Hl. subst st lk. unfold after. cbn [network_ reqgenerator_ impl tracked_requests_].
  destruct (tr !! root) as [info|] eqn:Hc.
  - rewrite decide_True by (by eexists). rewrite (alter_lookup _ _ _ _ Hc).
    erewrite bind_quiet.
    2: { apply with_lock_eq; [done|]. rewrite g_bind_get, g_bind_now. unfold lock_of. cbn [impl tracked_requests_ set_locked].
         rewrite Hc, g_bind_modify. reflexivity. }
    cbv iota. erewrite g_bind_eq by reflexivity. unfold touch. case_bool_decide as Hst; cbn [negb]; [|done].
    erewrite with_lock_eq; [|done|].
    2: { rewrite g_bind_get. unfold lock_of. cbn [impl tracked_requests_ set_locked set_tracked]. rewrite lookup_insert_eq.
         rewrite Hst, g_bind_modify. unfold log_cid. rewrite Hroot. reflexivity. }
    unfold lock_of. cbn [impl network_ reqgenerator_ set_locked set_tracked self local_requests_ tracked_requests_ g_started_ locked].
    by rewrite insert_insert_eq.
  - rewrite decide_False by (by intros [? ?]). rewrite alter_id by (intros ? Hx; by rewrite Hc in Hx).
    erewrite bind_quiet.
    2: { apply with_lock_eq; [done|]. rewrite g_bind_get, g_bind_now. unfold lock_of. cbn [impl tracked_requests_ set_locked].
         rewrite Hc. by rewrite g_bind_log by done. }
    done.
Qed.

End feedback.

(** ** A message at a context *)

Section context.
Context {M : Type} `{!Multiformats M, !Protobuf}.

(** The context when a response to an awaited request has come. *)
Definition answered (i : RequestId) (st : ResponseStatusCode) (p : PeerContext) : PeerContext :=
  if bool_decide (i ∈ local_request_ids_ p) && isTerminal st then
    set_local_ids (local_request_ids_ p ∖ {[i]}) p
  else p.

Lemma answered_fields i st p :
  closed_ (answered i st p) = closed_ p ∧ streams_ (answered i st p) = streams_ p ∧
  graphsync_feedbacks_ (answered i st p) = graphsync_feedbacks_ p ∧
  local_request_ids_ (answered i st p) =
    if bool_decide (i ∈ local_request_ids_ p) && isTerminal st then local_request_ids_ p ∖ {[i]} else local_request_ids_ p.
Proof. unfold answered. by destruct (_ && _). Qed.

Lemma resetPeerTimeout_eq e p : closed_ p = false →
  ∃ t ev, resetPeerTimeout (M:=M) e p = (tt, set_timer t p, ev) ∧ (ev = [] ∨ ∃ n, ev = [Reschedule n]).
Proof.
  intros Hc. unfold resetPeerTimeout. rewrite bind_get, Hc. unfold reschedule. rewrite bind_get, bind_env.
  destruct (timer_ p) as [|n|] eqn:Ht.
  - exists NoTimer, []. split; [|by left]. by destruct p; cbn in *; subst.
  - rewrite bind_modify. do 2 eexists. split; [reflexivity|right; by eexists].
  - exists PeerClosedTimer. eexists. split; [|right; by eexists]. by destruct p; cbn in *; subst.
Qed.

Lemma context_onResponse_eq r e p :
  onResponse (M:=M) r e p =
    (tt, answered (resp_id r) (status r) p,
     if bool_decide (resp_id r ∈ local_request_ids_ p) then
       (λ fb, OnResponse fb (resp_id r) (status r) (resp_extensions r)) <$> live e p
     else []).
Proof.
  unfold onResponse, answered. rewrite bind_get. case_bool_decide as Hi; cbn [andb]; [|done].
  destruct (isTerminal _); [rewrite bind_modify|rewrite bind_skip]; by rewrite feedback_eq.
Qed.

(** The events of a queue that only writes. *)
Lemma queue_events_writes s ev e p : ev = Write s <$> writes ev →
  queue_events (M:=M) ev e p = (tt, p, WriteStream s <$> writes ev).
Proof.
  intros Hev. rewrite Hev at 1. generalize (writes ev). intros l. unfold queue_events.
  induction l as [|d l IH]; [done|]. cbn [fmap list_fmap for_each]. rewrite bind_emit.
  cbn [fmap list_fmap] in IH. by rewrite IH.
Qed.

(** The calls of the feedbacks for the blocks of a message. *)
Definition rooted (root : CID M) (fbs : list Z) (data : list (CID M * bytes)) : list (effect (M:=M)) :=
  '(c, d) ← data; (λ fb, OnBlock fb root c d) <$> fbs.
Definition block_effects (data : list (CID M * bytes)) (fbs : list Z) : list (effect (M:=M)) :=
  match data with
  | [] => []
  | (root_cid, _) :: _ => rooted root_cid fbs data
  end.

Lemma onBlocks_eq data e p : onBlocks data e p = (tt, p, block_effects data (live e p)).
Proof.
  unfold onBlocks, block_effects, rooted. destruct data as [|[root d0] rest]; [done|]. generalize ((root, d0) :: rest). clear d0 rest.
  intros l. induction l as [|[c d] l IH]; [done|]. cbn [for_each].
  rewrite (bind_eq _ _ _ _ _ _ _ (feedback_eq _ _ _)). by rewrite IH.
Qed.

(** A message with one response and blocks, on an open stream. *)
Lemma reader_event_eq s msg r e p : closed_ p = false → is_Some (streams_ p !! s) →
  complete_request_list msg = false → requests msg = [] → responses msg = [r] →
  ∃ t ev0, (ev0 = [] ∨ ∃ n, ev0 = [Reschedule n]) ∧
    handle (H_readerEvent (Some s) (success msg)) e p =
      (tt, set_streams (alter (set_ctx_expire (now e + kStreamCloseDelayMsec)) s (streams_ p))
             (answered (resp_id r) (status r) (set_timer t p)),
       ev0 ++ (if bool_decide (resp_id r ∈ local_request_ids_ p) then
                 (λ fb, OnResponse fb (resp_id r) (status r) (resp_extensions r)) <$> live e p
               else []) ++ block_effects (data msg) (live e p)).
Proof.
  intros Hc [ctx Hs] Hcl Hrq Hrs. destruct (resetPeerTimeout_eq e p Hc) as (t & ev0 & Hr & Hev). exists t, ev0. split; [done|].
  cbn [handle]. unfold onReaderEvent. rewrite bind_get, Hc, (bind_eq _ _ _ _ _ _ _ Hr), bind_get.
  cbn [streams_ set_timer]. rewrite Hs, Hcl, Hrq, Hrs, bind_skip. cbn [for_each]. rewrite bind_skip.
  set (p1 := set_timer t p).
  assert (∀ B (f : unit → act (M:=M) B), ((_ ← onResponse r; skip) ≫= f) e p1 =
    let k := f tt e (answered (resp_id r) (status r) p1) in
    (result k, final k, (if bool_decide (resp_id r ∈ local_request_ids_ p) then
      (λ fb, OnResponse fb (resp_id r) (status r) (resp_extensions r)) <$> live e p else []) ++ trace k)) as Hone.
  { intros B f. erewrite bind_eq; [reflexivity|]. rewrite (bind_eq _ _ _ _ _ _ _ (context_onResponse_eq r e p1)).
    cbn. by rewrite app_nil_r. }
  rewrite Hone. cbv zeta. rewrite (bind_eq _ _ _ _ _ _ _ (onBlocks_eq _ _ _)).
  assert (live e (answered (resp_id r) (status r) p1) = live e p) as ->.
  { unfold answered. by destruct (_ && _). }
  unfold shiftExpireTime. rewrite bind_env. cbv zeta. unfold modify. rewrite !result_pair, !final_pair, !trace_pair, app_nil_r.
  unfold answered. by destruct (_ && _).
Qed.

End context.

(** ** A message at a node *)

Section receiving.
Context {M S : Type} `{!EqDecision M, !Countable M, !Multiformats M, !Protobuf, !DagService M S}.
Context (toString : CID M → outcome Z string).
Context (peer : PeerId) (s : StreamPtr).

Abbreviation W := (World (M:=M) (N:=Network)).
Abbreviation node_event := (event (M:=M) (F:=net_effect M)).

(** An event of libp2p at the context of the peer. *)
Definition at_peer (h : handler (M:=M)) : gact (M:=M) (N:=Network) (F:=net_effect M) (S:=S) unit :=
  _ ← call_network toString (on_peer peer (handle h)); mret tt.

(** The node runs and has the stream open to the peer. *)
Record connected (e : GEnv (S:=S)) (w : W) (p : PeerContext) : Prop := {
  co_idle : idle w;
  co_peer : peers_ (network_ w) !! peer = Some p;
  co_open : closed_ p = false;
  co_stream : is_Some (streams_ p !! s);
  co_live : live (base_env e) p = [self (impl w)]
}.

(** What the user sees: the calls of its callbacks. *)
Definition of_user (ev : node_event) : bool :=
  match ev with LocalCall _ _ _ | BlockCallback _ _ => true | _ => false end.
Definition user_events (l : list node_event) : list node_event := filter (λ ev, of_user ev = true) l.

Definition block_calls (tracked : gmap (CID M) RequestTrackingInfo) (data : list (CID M * bytes)) : list node_event :=
  match data with
  | [] => []
  | (root, _) :: _ => if decide (is_Some (tracked !! root)) then (λ '(c, d), BlockCallback c d) <$> data else []
  end.
Definition blocks_tracked (n : Z) (data : list (CID M * bytes)) (tracked : gmap (CID M) RequestTrackingInfo) :
    gmap (CID M) RequestTrackingInfo :=
  match data with [] => tracked | (root, _) :: _ => alter (touch n) root tracked end.

Lemma user_events_app l k : user_events (l ++ k) = user_events l ++ user_events k.
Proof. apply filter_app. Qed.

Lemma user_events_net f l : user_events (NetEffect f :: l) = user_events l.
Proof. done. Qed.

Lemma dispatch_step f (l : list (net_effect M)) e (w w1 : W) ev :
  (match network_feedback (self (impl w)) f with Some c => on_feedback (S:=S) toString c | None => mret tt end) e w =
    (success tt, w1, ev) →
  dispatch (S:=S) toString (f :: l) e w =
    let k := dispatch (S:=S) toString l e w1 in (g_result k, g_world k, NetEffect f :: ev ++ g_trace k).
Proof.
  intros Hf. cbv zeta. set (k := dispatch toString l e w1). unfold dispatch. cbn [g_for_each].
  rewrite (g_bind_eq _ _ e w tt w1 (NetEffect f :: ev)); [done|]. erewrite g_bind_eq by reflexivity. rewrite g_bind_get.
  cbn [op_feedback network_ops]. rewrite Hf. reflexivity.
Qed.

(** The blocks of a message, all with one root. *)
Lemma dispatch_blocks root e (l : list (CID M * bytes)) : prints toString root → Forall (λ b, prints toString b.1) l → ∀ w : W, idle w →
  ∃ ev, dispatch (S:=S) toString (Peer peer <$> rooted root [self (impl w)] l) e w =
      (success tt,
       after (set_tracked (match l with [] => tracked_requests_ (impl w) | _ => alter (touch (now (base_env e))) root (tracked_requests_ (impl w)) end) (impl w)) w, ev) ∧
    user_events ev = if decide (is_Some (tracked_requests_ (impl w) !! root)) then (λ '(c, d), BlockCallback c d) <$> l else [].
Proof.
  intros Hroot. induction 1 as [|[c d] l Hcid _ IH]; intros w Hi.
  - exists []. destruct w as [g n r]. cbn [impl]. unfold after. cbn. rewrite set_tracked_same. split; [done|by case_decide].
  - change (Peer peer <$> rooted root [self (impl w)] ((c, d) :: l)) with
      (Peer peer (OnBlock (self (impl w)) root c d) :: (Peer peer <$> rooted root [self (impl w)] l)).
    set (n := now (base_env e)).
    set (w1 := after (set_tracked (alter (touch n) root (tracked_requests_ (impl w))) (impl w)) w).
    destruct (IH w1 Hi) as (ev & Heq & Hev). cbn [impl after w1 set_tracked self tracked_requests_] in Heq.
    erewrite dispatch_step; [|cbn [network_feedback]; rewrite Z.eqb_refl; apply (onBlock_eq toString); done].
    fold n w1. cbv zeta. rewrite Heq. eexists. split.
    + unfold g_result, g_world. cbn [fst snd]. f_equal. f_equal. subst w1. unfold after. cbn [network_ reqgenerator_]. f_equal.
      destruct l; [done|]. by rewrite touch_alter.
    + unfold g_trace. cbn [snd]. rewrite user_events_net, user_events_app, Hev.
      cbn [impl w1 after set_tracked tracked_requests_]. rewrite lookup_alter_eq.
      destruct (tracked_requests_ (impl w) !! root) as [info|] eqn:Hr.
      * rewrite !decide_True by (by eexists). done.
      * rewrite !decide_False by (by intros [? ?]). done.
Qed.

Lemma dispatch_app (l k : list (net_effect M)) e : ∀ (w w1 : W) ev,
  dispatch (S:=S) toString l e w = (success tt, w1, ev) →
  dispatch (S:=S) toString (l ++ k) e w =
    let r := dispatch (S:=S) toString k e w1 in (g_result r, g_world r, ev ++ g_trace r).
Proof.
  induction l as [|f l IH]; intros w w1 ev Hl.
  - injection Hl as <- <-. cbn [app]. by destruct (dispatch toString k e w) as [[r w2] ev2].
  - change (dispatch toString ((f :: l) ++ k)) with (dispatch (S:=S) toString (f :: (l ++ k))).
    unfold dispatch in Hl. cbn [g_for_each] in Hl. unfold dispatch at 1. cbn [g_for_each].
    unfold mbind at 1, gact_bind at 1 in Hl. unfold mbind at 1, gact_bind at 1.
    match type of Hl with context [match ?t with _ => _ end] => destruct t as [[[[]|] w0] ev0] end; [|done].
    fold (dispatch (S:=S) toString l) in Hl. fold (dispatch (S:=S) toString (l ++ k)).
    destruct (dispatch toString l e w0) as [[r1 w2] ev2] eqn:Hd. injection Hl as -> -> <-.
    rewrite (IH _ _ _ Hd). unfold g_result, g_world, g_trace. cbn [fst snd]. by rewrite app_assoc.
Qed.

(** Effects of a context that call nobody. *)
Definition plain (ev : effect (M:=M)) : Prop :=
  match ev with Reschedule _ | WriteStream _ _ => True | _ => False end.

Lemma plain_timer ev : (ev = [] ∨ ∃ n, ev = [Reschedule n]) → Forall plain ev.
Proof. intros [->|[n ->]]; by repeat constructor. Qed.

Lemma plain_writes l : Forall plain (WriteStream s <$> l).
Proof. apply Forall_fmap. by induction l; constructor. Qed.

Lemma plain_open ev : Forall plain ev → existsb is_peer_closed ev = false.
Proof. induction 1 as [|f l Hf _ IH]; [done|]. cbn. rewrite IH. by destruct f. Qed.

Lemma dispatch_plain l e (w : W) : Forall plain l →
  dispatch (S:=S) toString (Peer peer <$> l) e w = (success tt, w, NetEffect <$> (Peer peer <$> l)).
Proof.
  induction 1 as [|f l Hf _ IH]; [done|]. cbn [fmap list_fmap]. rewrite (dispatch_step _ _ _ w w []).
  - cbv zeta. cbn [fmap list_fmap] in IH. by rewrite IH.
  - by destruct f.
Qed.

Lemma user_events_nets (l : list (net_effect M)) : user_events (NetEffect <$> l) = [].
Proof. by induction l. Qed.

Lemma user_response_calls i st x l : user_events (response_calls i st x l) = response_calls i st x l.
Proof. unfold response_calls. by destruct (_ !! i). Qed.

Lemma dispatch_response i st x e (w : W) : idle w → (∀ c, getRequestRootCid i (local_requests_ (impl w)) = Some c → prints toString c) →
  ∃ ev, dispatch (S:=S) toString [Peer peer (OnResponse (self (impl w)) i st x)] e w =
      (success tt,
       after (set_local (local_onResponse i st x (local_requests_ (impl w))).1
         (set_tracked (tracked_response (now (base_env e)) i st (impl w)) (impl w))) w, ev) ∧
    user_events ev = response_calls i st x (local_requests_ (impl w)).
Proof.
  intros Hi Hroot. erewrite dispatch_step; [|cbn [network_feedback]; rewrite Z.eqb_refl; by apply (onResponse_eq toString)].
  eexists. split; [reflexivity|]. cbv zeta. unfold dispatch, g_trace. cbn [g_for_each mret gact_ret snd]. rewrite app_nil_r.
  rewrite user_events_net. apply user_response_calls.
Qed.

(** What a message with a response of request [i] does at the node. *)
Lemma deliver i st x msg e (w : W) p : connected e w p →
  complete_request_list msg = false → requests msg = [] → responses msg = [mkResponse i st x] →
  (i ∈ local_request_ids_ p → ∀ c, getRequestRootCid i (local_requests_ (impl w)) = Some c → prints toString c) →
  Forall (λ b, prints toString b.1) (data msg) →
  let awaited := bool_decide (i ∈ local_request_ids_ p) in
  let n := now (base_env e) in
  ∃ w' p' ev, at_peer (H_readerEvent (Some s) (success msg)) e w = (success tt, w', ev) ∧ connected e w' p' ∧
    local_request_ids_ p' = local_request_ids_ (answered i st p) ∧
    user_events ev = (if awaited then response_calls i st x (local_requests_ (impl w)) else []) ++
      block_calls (tracked_requests_ (impl w)) (data msg) ∧
    local_requests_ (impl w') =
      (if awaited then (local_onResponse i st x (local_requests_ (impl w))).1 else local_requests_ (impl w)) ∧
    tracked_requests_ (impl w') =
      blocks_tracked n (data msg) (if awaited then tracked_response n i st (impl w) else tracked_requests_ (impl w)).
Proof.
  intros [Hidle Hp Ho Hst Hlive] Hcl Hrq Hrs Hroot Hcids awaited n.
  destruct (reader_event_eq s msg _ (base_env e) p Ho Hst Hcl Hrq Hrs) as (t & ev0 & Hev0 & Heq).
  cbn [resp_id status resp_extensions] in Heq. rewrite Hlive in Heq. fold awaited in Heq.
  set (p' := set_streams _ _) in Heq. set (evs := ev0 ++ _) in Heq.
  assert (existsb is_peer_closed evs = false) as Hnc.
  { subst evs. rewrite !existsb_app. apply orb_false_iff. split; [by apply plain_open, plain_timer|]. apply orb_false_iff. split; [by destruct awaited|].
    unfold block_effects, rooted. destruct (data msg) as [|[root d0] rest]; [done|]. generalize ((root, d0) :: rest).
    intros l. induction l as [|[c d] l IH]; [done|]. exact IH. }
  set (net' := set_peers (<[peer := p']> (peers_ (network_ w))) (network_ w)).
  assert (on_peer peer (handle (H_readerEvent (Some s) (success msg))) (base_env e) (network_ w) =
    (Some tt, net', Peer peer <$> evs)) as Hon.
  { unfold on_peer. rewrite Hp, Heq, Hnc. done. }
  set (w0 := mkWorld (impl w) net' (reqgenerator_ w)).
  set (tr := if awaited then tracked_response n i st (impl w) else tracked_requests_ (impl w)).
  set (l' := if awaited then (local_onResponse i st x (local_requests_ (impl w))).1 else local_requests_ (impl w)).
  set (w1 := after (set_local l' (set_tracked tr (impl w))) w0).
  assert (∃ ev1, dispatch (S:=S) toString (Peer peer <$> ev0 ++
      (if awaited then (λ fb, OnResponse fb i st x) <$> [self (impl w)] else [])) e w0 = (success tt, w1, ev1) ∧
    user_events ev1 = if awaited then response_calls i st x (local_requests_ (impl w)) else []) as (ev1 & Hd1 & Hu1).
  { rewrite fmap_app. pose proof (dispatch_plain ev0 e w0 (plain_timer _ Hev0)) as Hd0.
    rewrite (dispatch_app _ _ _ _ _ _ Hd0). cbv zeta. subst w1 tr l'. unfold awaited. case_bool_decide as Haw.
    - cbn [fmap list_fmap]. destruct (dispatch_response i st x e w0 Hidle (Hroot Haw)) as (ev1 & Hd1 & Hu1). cbn [impl w0] in Hd1, Hu1.
      rewrite Hd1. eexists. split; [reflexivity|]. unfold g_trace. cbn [snd]. by rewrite user_events_app, user_events_nets, Hu1.
    - cbn [fmap list_fmap]. eexists. split.
      + unfold dispatch, g_result, g_world. cbn [g_for_each mret gact_ret fst snd]. rewrite set_tracked_same, set_local_same. by destruct w.
      + unfold g_trace. cbn [dispatch g_for_each mret gact_ret snd]. by rewrite app_nil_r, user_events_nets. }
  assert (idle w1) as Hidle1 by done.
  assert (∃ ev2, dispatch (S:=S) toString (Peer peer <$> block_effects (data msg) [self (impl w)]) e w1 =
      (success tt, after (set_tracked (blocks_tracked n (data msg) tr) (impl w1)) w1, ev2) ∧
    user_events ev2 = block_calls (tracked_requests_ (impl w)) (data msg)) as (ev2 & Hd2 & Hu2).
  { unfold block_effects, blocks_tracked, block_calls. destruct (data msg) as [|[root d0] rest].
    - exists []. split; [|done]. cbn. subst w1. unfold after. cbn. by rewrite set_tracked_same || done.
    - pose proof (Forall_inv Hcids) as Hr0. cbn in Hr0. destruct (dispatch_blocks root e ((root, d0) :: rest) Hr0 Hcids w1 Hidle1) as (ev2 & Hd2 & Hu2). exists ev2. split; [exact Hd2|].
      rewrite Hu2. change (tracked_requests_ (impl w1)) with tr. subst tr.
      assert (is_Some ((if awaited then tracked_response n i st (impl w) else tracked_requests_ (impl w)) !! root) ↔
        is_Some (tracked_requests_ (impl w) !! root)) as Hdom.
      { destruct awaited; [|done]. unfold tracked_response. destruct (getRequestRootCid _ _); [|done]. apply lookup_alter_is_Some. }
      by rewrite (decide_ext _ _ _ _ Hdom). }
  set (w2 := after (set_tracked (blocks_tracked n (data msg) tr) (impl w1)) w1) in *.
  assert (call_network toString (on_peer peer (handle (H_readerEvent (Some s) (success msg)))) e w =
    (success (Some tt), w2, ev1 ++ ev2)) as Hcall.
  { unfold call_network. rewrite Hon. subst evs. rewrite app_assoc, fmap_app. fold w0.
    assert (dispatch (S:=S) toString ((Peer peer <$> ev0 ++ (if awaited then (λ fb, OnResponse fb i st x) <$> [self (impl w)] else [])) ++
      (Peer peer <$> block_effects (data msg) [self (impl w)])) e w0 = (success tt, w2, ev1 ++ ev2)) as Hd.
    { rewrite (dispatch_app _ _ _ _ _ _ Hd1). cbv zeta. by rewrite Hd2. }
    rewrite (g_bind_eq _ _ _ _ _ _ _ Hd). unfold g_result, g_world, g_trace. cbn. by rewrite app_nil_r. }
  exists w2, p', (ev1 ++ ev2).
  split; [|split; [|split; [|split; [|split]]]].
  - unfold at_peer. rewrite (g_bind_eq _ _ _ _ _ _ _ Hcall). unfold g_result, g_world, g_trace. cbn. by rewrite app_nil_r.
  - destruct (answered_fields i st (set_timer t p)) as (F1 & F2 & F3 & _). split; [done| | | |].
    + change (peers_ (network_ w2)) with (<[peer := p']> (peers_ (network_ w))). by rewrite lookup_insert_eq.
    + change (closed_ p') with (closed_ (answered i st (set_timer t p))). by rewrite F1.
    + change (streams_ p') with (alter (set_ctx_expire (now (base_env e) + kStreamCloseDelayMsec)) s (streams_ p)).
      by rewrite lookup_alter_is_Some.
    + transitivity (live (base_env e) p); [|exact Hlive]. unfold live. by change (graphsync_feedbacks_ p') with (graphsync_feedbacks_ (answered i st (set_timer t p))); rewrite F3.
  - change (local_request_ids_ p') with (local_request_ids_ (answered i st (set_timer t p))).
    destruct (answered_fields i st (set_timer t p)) as (_ & _ & _ & ->), (answered_fields i st p) as (_ & _ & _ & ->). done.
  - by rewrite user_events_app, Hu1, Hu2.
  - done.
  - done.
Qed.

End receiving.

(** ** A response on the wire *)

Section wire.
Context {M S : Type} `{!EqDecision M, !Countable M, !Multiformats M, !MultiformatsLaws M}.
Context `{!Protobuf, !ProtobufLaws, !DagService M S}.
Context (mh_default : M) (toString : CID M → outcome Z string) (wf_prints : ∀ c, wf_cid c → prints toString c).
Context (peer : PeerId) (s : StreamPtr).

Abbreviation W := (World (M:=M) (N:=Network)).
Abbreviation node_event := (event (M:=M) (F:=net_effect M)).
Abbreviation node_act := (gact (M:=M) (N:=Network) (F:=net_effect M) (S:=S)).
Abbreviation part := (list (CID M * bytes) * ResponseStatusCode * list Extension)%type.

(** libp2p reads a frame for the reader: the varint, then as many bytes as the
    reader asks for.  The owner does not close the reader meanwhile. *)
Definition read_frame (frame : bytes) (r : LengthDelimitedMessageReader) :
    LengthDelimitedMessageReader * list reader_event :=
  let '(length, rest) :=
    match uv_create frame with
    | Some (n, used) => (Some n, drop (Z.to_nat used) frame)
    | None => (None, [])
    end in
  let '(r, ev) := onVarint length r in
  match op_of ev NoOp with
  | BodyOp n =>
      let content := take (Z.to_nat n) rest in
      let '(r, ev') := onMessageRead (success (size content)) content false (λ _, false) r in (r, ev ++ ev')
  | _ => (r, ev)
  end.

(** The feedback of the reader: [MessageReader::onMessageRead], which parses, and
    the owner's [onReaderEvent]. *)
Definition on_reader_event (ev : reader_event) : node_act unit :=
  match ev with
  | ReaderFeedback so res =>
      match MessageReader_onMessageRead mh_default true res with
      | None => mret tt
      | Some (returned msg) => at_peer toString peer (H_readerEvent so (success msg))
      | Some (failed e) => at_peer toString peer (H_readerEvent so (failure e))
      | Some thrown => g_throw
      end
  | _ => mret tt
  end.

Fixpoint receive (frames : list bytes) (r : LengthDelimitedMessageReader) : node_act unit :=
  match frames with
  | [] => mret tt
  | frame :: frames =>
      let '(r, ev) := read_frame frame r in
      _ ← g_for_each ev on_reader_event;
      receive frames r
  end.

(** The reader of the stream between two messages. *)
Definition waiting_reader : LengthDelimitedMessageReader := mkReader (Some s) kMaxMessageSize 0 true.

(** It is the reader that a [MessageReader] starts with. *)
Lemma waiting_reader_started closedR : closedR s = false → new_MessageReader closedR s = (waiting_reader, [ReadVarint s]).
Proof.
  intros Ho. unfold new_MessageReader, reader_read. rewrite Ho. cbn [stream_ new_reader].
  by rewrite bool_decide_false.
Qed.

Lemma read_frame_eq body : 0 < size body ≤ kMaxMessageSize →
  read_frame (uv_encode (size body) ++ body) waiting_reader =
    (waiting_reader, [ReadBytes s (size body); ReaderFeedback (Some s) (success body); ReadVarint s]).
Proof.
  intros Hb. unfold read_frame. rewrite uv_create_encode by (unfold kMaxMessageSize in Hb; lia).
  assert (∀ l : bytes, Z.to_nat (size l) = length l) as Hn by (intros l; unfold size; lia).
  rewrite Hn, drop_app_length. unfold onVarint, onLengthRead. cbn [reading_ waiting_reader negb]. change (default 0 (Some (size body))) with (size body).
  destruct (Z.eqb_spec (size body) 0); [lia|]. cbn [max_message_size_ waiting_reader].
  destruct (Z.ltb_spec kMaxMessageSize (size body)); [lia|]. cbn [stream_ waiting_reader op_of foldl].
  rewrite Hn, take_ge by done. unfold onMessageRead. cbn [reading_ negb set_reading buffer_size stream_ max_message_size_].
  by rewrite Z.eqb_refl.
Qed.

(** *** What is sent *)

Definition wf_part (m : part) : Prop :=
  Forall (λ '(c, d), wf_entry (E_block c d)) m.1.1 ∧ 10 ≤ code m.1.2 ∧ NoDup (name <$> m.2).

(** A message that protobuf encodes, within the limit of a reader. *)
Definition sendable (i : RequestId) (m : part) : Prop :=
  encodable (part_message i m) ∧ ByteSizeLong (part_message i m) ≤ kMaxMessageSize.

Lemma parse_part i m body : wf_part m → ParseFromArray body = Some (part_message i m) →
  ∃ msg x, parseMessage mh_default body = returned msg ∧ x ≡ₚ m.2 ∧
    complete_request_list msg = false ∧ requests msg = [] ∧ responses msg = [mkResponse i m.1.2 x] ∧ data msg = m.1.1.
Proof.
  destruct m as [[g st] x]. intros (Hg & Hst & HN) Hp. cbn [fst snd] in *.
  assert (Forall wf_entry (part_entries i (g, st, x))) as HF.
  { apply Forall_app. split; [|by repeat constructor]. apply Forall_fmap. eapply Forall_impl; [exact Hg|]. by intros [c d]. }
  destruct (parse_entries mh_default _ _ HF Hp) as (msg & Hm & Hc & Hrq & Hrs & Hd).
  assert (∀ X (f : entry → list X), (∀ c d, f (E_block c d) = []) →
    concat (map f (part_entries i (g, st, x))) = f (E_response i st x)) as Hno.
  { intros X f Hf. unfold part_entries, block_entries. cbn [fst snd]. rewrite map_app, concat_app. cbn. rewrite app_nil_r.
    clear - Hf. induction g as [|[c d] g IH]; [done|]. cbn. by rewrite Hf. }
  rewrite Hno in Hrq, Hrs by done. cbn in Hrq, Hrs. apply Forall2_nil_inv_r in Hrq.
  apply Forall2_cons_inv_r in Hrs as (r & k & Hr & Hl & Heq). apply Forall2_nil_inv_r in Hl as ->.
  destruct r as [i' st' x'], Hr as (E1 & E2 & E3). cbn in E1, E2, E3. subst i' st'. exists msg, x'. split_and!; try done.
  - rewrite Hc. unfold part_entries, block_entries. cbn [fst snd]. rewrite existsb_app. cbn. clear. by induction g as [|[c d] g IH].
  - rewrite Hd. unfold part_entries, block_entries. cbn [fst snd]. rewrite map_app, concat_app. cbn. rewrite app_nil_r. clear.
    induction g as [|[c d] g IH]; [done|]. cbn in *. by rewrite IH.
Qed.

(** *** What is received *)

Definition wire_part (i : RequestId) (m : part) (d : bytes) : Prop :=
  InboundEndpoint.wire (part_message i m) d ∧ wf_part m ∧ sendable i m.

(** One message: [deliver] for its frame. *)
Lemma receive_part i m d frames e (w : W) p : connected peer s e w p → wire_part i m d →
  (i ∈ local_request_ids_ p → ∀ c, getRequestRootCid i (local_requests_ (impl w)) = Some c → wf_cid c) →
  let awaited := bool_decide (i ∈ local_request_ids_ p) in
  let n := now (base_env e) in
  let l := local_requests_ (impl w) in
  ∃ x w' p' ev, x ≡ₚ m.2 ∧ connected peer s e w' p' ∧
    receive (d :: frames) waiting_reader e w =
      (let k := receive frames waiting_reader e w' in (g_result k, g_world k, ev ++ g_trace k)) ∧
    local_request_ids_ p' = local_request_ids_ (answered i m.1.2 p) ∧
    user_events ev = (if awaited then response_calls i m.1.2 x l else []) ++ block_calls (tracked_requests_ (impl w)) m.1.1 ∧
    local_requests_ (impl w') = (if awaited then (local_onResponse i m.1.2 x l).1 else l) ∧
    tracked_requests_ (impl w') =
      blocks_tracked n m.1.1 (if awaited then tracked_response n i m.1.2 (impl w) else tracked_requests_ (impl w)).
Proof.
  intros Hco (Hw & Hwf & Henc & Hmax) Hroot awaited n l.
  destruct (frame_of _ Henc) as (body & Hs & Hsz & Hp). unfold InboundEndpoint.wire in Hw. rewrite Hs in Hw. injection Hw as <-.
  destruct (parse_part i m body Hwf Hp) as (msg & x & Hm & Hx & Hc & Hrq & Hrs & Hd).
  assert (Forall (λ b, prints toString b.1) (data msg)) as Hcids.
  { rewrite Hd. eapply Forall_impl; [exact (proj1 Hwf)|]. intros [c b] [Hcid _]. by apply wf_prints. }
  destruct (deliver toString peer s i m.1.2 x msg e w p Hco Hc Hrq Hrs ltac:(auto) Hcids) as (w' & p' & ev & Hat & Hco' & Hids & Hu & Hl & Ht).
  rewrite Hd in Hu, Ht. exists x, w', p', ev. split_and!; try done.
  cbn [receive]. rewrite read_frame_eq.
  2: { rewrite Hsz. split; [|done]. destruct m as [[g st] y]. rewrite part_message_eq. cbn [pb_msg_ addResponse].
       pose proof (ByteSizeLong_nonneg (pb_msg_ (block_builder g))).
       pose proof (ByteSizeLong_response (pb.mkResponse i (code st) (insert_extensions y)) (pb_msg_ (block_builder g))). lia. }
  cbv zeta. rewrite (g_bind_eq _ _ e w tt w' ev); [done|]. cbn [g_for_each on_reader_event].
  rewrite bind_quiet with (a:=tt) (w1:=w) by done. cbn [MessageReader_onMessageRead negb]. rewrite Hm.
  rewrite (g_bind_eq _ _ _ _ _ _ _ Hat). unfold g_result, g_world, g_trace. cbn. by rewrite app_nil_r.
Qed.

Lemma block_calls_ext (t t' : gmap (CID M) RequestTrackingInfo) data :
  (∀ c, is_Some (t' !! c) ↔ is_Some (t !! c)) → block_calls t' data = block_calls t data.
Proof. intros Ht. unfold block_calls. destruct data as [|[root d] rest]; [done|]. by rewrite (decide_ext _ _ _ _ (Ht root)). Qed.

Lemma blocks_tracked_lookup n data (t : gmap (CID M) RequestTrackingInfo) :
  (∀ c, is_Some (blocks_tracked n data t !! c) ↔ is_Some (t !! c)) ∧
  (∀ c info, t !! c = Some info → state info ≠ IN_PROGRESS → state <$> blocks_tracked n data t !! c = Some (state info)).
Proof.
  unfold blocks_tracked. destruct data as [|[root d] rest]; [split; [done|by intros c info -> _]|].
  split; [intros c; apply lookup_alter_is_Some|]. intros c info Hc Hst. destruct (decide (root = c)) as [<-|Hne].
  - rewrite lookup_alter_eq, Hc. cbn. by rewrite bool_decide_false.
  - by rewrite lookup_alter_ne, Hc.
Qed.

(** The messages behind the end of a request: only blocks under a tracked root
    are delivered. *)
Lemma receive_rest i ms ds : Forall2 (wire_part i) ms ds → ∀ e (w : W) p, connected peer s e w p →
  i ∉ local_request_ids_ p →
  ∃ w' p' ev, receive ds waiting_reader e w = (success tt, w', ev) ∧ connected peer s e w' p' ∧
    i ∉ local_request_ids_ p' ∧ local_requests_ (impl w') = local_requests_ (impl w) ∧
    user_events ev = concat (block_calls (tracked_requests_ (impl w)) <$> ms.*1.*1) ∧
    ∀ c info, tracked_requests_ (impl w) !! c = Some info → state info ≠ IN_PROGRESS →
      state <$> tracked_requests_ (impl w') !! c = Some (state info).
Proof.
  induction 1 as [|m d ms ds Hm _ IH]; intros e w p Hco Hi.
  - exists w, p, []. split_and!; try done. by intros c info -> _.
  - destruct (receive_part i m d ds e w p Hco Hm ltac:(done)) as (x & w1 & p1 & ev1 & _ & Hco1 & Heq & Hids & Hu & Hl & Ht).
    rewrite bool_decide_false in Hu, Hl, Ht by done.
    assert (local_request_ids_ p1 = local_request_ids_ p) as Hids1.
    { rewrite Hids. unfold answered. by rewrite bool_decide_false. }
    destruct (IH e w1 p1 Hco1) as (w' & p' & ev & Hr & Hco' & Hi' & Hl' & Hu' & Hst'); [by rewrite Hids1|].
    destruct (blocks_tracked_lookup (now (base_env e)) m.1.1 (tracked_requests_ (impl w))) as [Hdom Hkeep].
    rewrite <- Ht in Hdom, Hkeep. exists w', p', (ev1 ++ ev). rewrite Heq, Hr. split_and!; try done.
    + by rewrite Hl', Hl.
    + rewrite user_events_app, Hu, Hu'. cbn. f_equal. f_equal. apply list_fmap_ext. intros ? data _. by apply block_calls_ext.
    + intros c info Hc Hst. specialize (Hkeep c info Hc Hst). destruct (tracked_requests_ (impl w1) !! c) as [info'|] eqn:Hc'; [|done].
      cbn in Hkeep. injection Hkeep as Hkeep. rewrite <- Hkeep. apply Hst'; [done|by rewrite Hkeep].
Qed.

(** The node has made request [i] for [c] and waits for the answer. *)
Record awaits (i : RequestId) (c : CID M) (cb : Callback) (w : W) (p : PeerContext) : Prop := {
  aw_id : i ∈ local_request_ids_ p;
  aw_root : getRequestRootCid i (local_requests_ (impl w)) = Some c;
  aw_callback : active_requests_ (local_requests_ (impl w)) !! i = Some cb;
  aw_state : state <$> tracked_requests_ (impl w) !! c = Some IN_PROGRESS
}.

(** What the user has got at the end. *)
Definition delivered (i : RequestId) (c : CID M) (cb : Callback) (gs : list (list (CID M * bytes)))
    (last : list (CID M * bytes)) (x : list Extension) (w w' : W) (ev : list node_event) : Prop :=
  let tracked := tracked_requests_ (impl w) in
  active_requests_ (local_requests_ (impl w')) !! i = None ∧
  match gs with
  | [] =>
      state <$> tracked_requests_ (impl w') !! c = Some COMPLETED ∧
      ∃ x', x' ≡ₚ x ∧
        user_events ev = LocalCall cb RS_FULL_CONTENT x' :: ((λ '(c, d), BlockCallback c d) <$> last)
  | _ =>
      state <$> tracked_requests_ (impl w') !! c = Some FAILED ∧
      user_events ev = LocalCall cb RS_PARTIAL_CONTENT [] :: concat (block_calls tracked <$> gs ++ [last])
  end.

Lemma parts_blocks (gs : list (list (CID M * bytes))) last st x : (parts gs last st x).*1.*1 = gs ++ [last].
Proof.
  unfold parts. rewrite !fmap_app. f_equal. rewrite <- !list_fmap_compose. apply list_fmap_id.
Qed.

(** The blocks of messages on the wire are under CIDs that have bytes. *)
Lemma wire_cids i ms ds : Forall2 (wire_part i) ms ds → Forall (λ b, wf_cid b.1) (concat ms.*1.*1).
Proof.
  induction 1 as [|m d ms ds (_ & Hwf & _) _ IH]; [constructor|]. cbn. apply Forall_app. split; [|exact IH].
  eapply Forall_impl; [exact (proj1 Hwf)|]. by intros [c b] [Hc _].
Qed.

Lemma receive_response i c cb gs last x ds d0 rest e (w : W) p :
  connected peer s e w p → awaits i c cb w p →
  Forall2 (wire_part i) (parts gs last RS_FULL_CONTENT x) ds → concat gs ++ last = (c, d0) :: rest →
  ∃ w' p' ev, receive ds waiting_reader e w = (success tt, w', ev) ∧ connected peer s e w' p' ∧
    i ∉ local_request_ids_ p' ∧ delivered i c cb gs last x w w' ev.
Proof.
  intros Hco [Hi Hroot Hcb Hst] Hds Hcat.
  pose proof (parts_blocks gs last RS_FULL_CONTENT x) as Hblocks.
  assert (wf_cid c) as Hwfc.
  { pose proof (wire_cids _ _ _ Hds) as Hcids. rewrite Hblocks, concat_app in Hcids. cbn [concat] in Hcids. rewrite app_nil_r, Hcat in Hcids.
    exact (Forall_inv Hcids). }
  assert (∃ m ms, parts gs last RS_FULL_CONTENT x = m :: ms ∧ m.1.2 = (if gs then RS_FULL_CONTENT else RS_PARTIAL_CONTENT) ∧
    m.2 = (if gs then x else [])) as (m & ms & Hparts & Hst1 & Hx1) by (by destruct gs; do 2 eexists).
  rewrite Hparts in Hblocks. assert (isTerminal m.1.2 = true) as Hterm by (by rewrite Hst1; destruct gs).
  rewrite Hparts in Hds. apply Forall2_cons_inv_l in Hds as (d & ds' & Hm & Hms & ->).
  destruct (receive_part i m d ds' e w p Hco Hm ltac:(intros _ c'; rewrite Hroot; congruence)) as (x' & w1 & p1 & ev1 & Hx & Hco1 & Heq & Hids & Hu & Hl & Ht).
  rewrite bool_decide_true in Hu, Hl, Ht by done.
  assert (i ∉ local_request_ids_ p1) as Hi1.
  { rewrite Hids. unfold answered. rewrite bool_decide_true, Hterm by done. cbn. set_solver. }
  destruct (receive_rest i ms ds' Hms e w1 p1 Hco1 Hi1) as (w' & p' & ev & Hr & Hco' & Hi' & Hl' & Hu' & Hst').
  exists w', p', (ev1 ++ ev). rewrite Heq, Hr. split; [done|]. split; [done|]. split; [done|]. unfold delivered. split.
  { rewrite Hl', Hl. unfold local_onResponse. rewrite Hcb, Hterm. cbn. by rewrite lookup_delete_eq. }
  destruct (tracked_requests_ (impl w) !! c) as [info|] eqn:Hc; [|done]. cbn in Hst. injection Hst as Hst.
  assert (tracked_requests_ (impl w1) = blocks_tracked (now (base_env e)) m.1.1
    (<[c := track_response m.1.2 (now (base_env e)) info]> (tracked_requests_ (impl w)))) as Ht1.
  { rewrite Ht. unfold tracked_response. rewrite Hroot. by rewrite (alter_lookup _ _ _ _ Hc). }
  assert (∀ t data, is_Some (tracked_requests_ (impl w) !! t) ↔ is_Some (blocks_tracked (now (base_env e)) data
    (<[c := track_response m.1.2 (now (base_env e)) info]> (tracked_requests_ (impl w))) !! t)) as Hdom.
  { intros t data. destruct (blocks_tracked_lookup (now (base_env e)) data
      (<[c := track_response m.1.2 (now (base_env e)) info]> (tracked_requests_ (impl w)))) as [-> _].
    destruct (decide (c = t)) as [<-|Hne]; [rewrite lookup_insert_eq, Hc|by rewrite lookup_insert_ne]. split; by eexists. }
  rewrite Ht1 in Hu', Hst'. rewrite user_events_app, Hu, Hu'. unfold response_calls. rewrite Hcb. set (tr := <[c := _]> _) in *.
  assert (concat (block_calls (blocks_tracked (now (base_env e)) m.1.1 tr) <$> ms.*1.*1) =
    concat (block_calls (tracked_requests_ (impl w)) <$> ms.*1.*1)) as ->.
  { f_equal. apply list_fmap_ext. intros ? data _. apply block_calls_ext. intros t. by rewrite <- Hdom. }
  assert (tr !! c = Some (track_response m.1.2 (now (base_env e)) info)) as Htr by apply lookup_insert_eq.
  destruct gs as [|g gs]; rewrite Hst1, Hx1 in *.
  - cbn in Hblocks. injection Hblocks as Hm1 Hms1. rewrite Hm1, Hms1. cbn in Hcat. subst last. split.
    + assert (state (touch (now (base_env e)) (track_response RS_FULL_CONTENT (now (base_env e)) info)) = COMPLETED) as Hdone
        by (unfold touch, track_response; cbn; by rewrite Hst).
      rewrite <- Hdone. apply Hst'; [|by rewrite Hdone]. rewrite Hm1. cbn [blocks_tracked]. by rewrite lookup_alter_eq, Htr.
    + exists x'. split; [done|]. cbn [fmap list_fmap concat block_calls app]. rewrite app_nil_r.
      rewrite decide_True by (rewrite Hc; by eexists). done.
  - apply Permutation_nil_r in Hx as ->. cbn in Hblocks. injection Hblocks as Hm1 Hms1. split.
    + destruct (blocks_tracked_lookup (now (base_env e)) m.1.1 tr) as [_ Hkeep]. specialize (Hkeep c _ Htr ltac:(done)).
      destruct (blocks_tracked _ _ tr !! c) as [info'|] eqn:Hb; [|done]. cbn in Hkeep. injection Hkeep as Hkeep.
      rewrite (Hst' c info' Hb) by (by rewrite Hkeep). by rewrite Hkeep.
    + rewrite Hm1, Hms1. done.
Qed.

(** C33: a response in several messages.  Every response its endpoint could not send
    in one message has this form ([respond_messages]).  The requester takes the
    [RS_PARTIAL_CONTENT] of the first for the end of the request: the user gets
    it, and never [RS_FULL_CONTENT]; the request has failed and is not active any
    more; and of the blocks, which have all arrived, the user gets those of the
    messages whose first block is a tracked root, and no others.  (CIDs that have
    bytes are taken to have a text.) *)
Theorem response_in_parts i c cb g gs last x ds d0 rest e (w : W) p :
  connected peer s e w p → awaits i c cb w p →
  Forall2 (wire_part i) (parts (g :: gs) last RS_FULL_CONTENT x) ds → concat (g :: gs) ++ last = (c, d0) :: rest →
  let '(r, w', ev) := receive ds waiting_reader e w in
  r = success tt ∧ active_requests_ (local_requests_ (impl w')) !! i = None ∧
  state <$> tracked_requests_ (impl w') !! c = Some FAILED ∧
  user_events ev =
    LocalCall cb RS_PARTIAL_CONTENT [] :: concat (block_calls (tracked_requests_ (impl w)) <$> (g :: gs) ++ [last]).
Proof.
  intros Hco Haw Hds Hcat.
  destruct (receive_response i c cb (g :: gs) last x ds d0 rest e w p Hco Haw Hds Hcat) as (w' & p' & ev & -> & _ & _ & Ha & Hst & Hu).
  by split_and!.
Qed.

End wire.

(** *** Witness *)

Section samples.

Abbreviation SC := Cid.Sample.Multihash.

(** Request 1 for [sample_block_cid] is sent on stream 20 and awaited. *)
Definition ask : gact (M:=SC) (N:=Network) (F:=net_effect SC) (S:=unit) unit :=
  _ ← g_start print_cid;
  _ ← g_makeRequest print_cid peer_one None sample_block_cid [] [] 10;
  _ ← at_peer print_cid peer_one (H_streamConnected (Some 20));
  _ ← at_peer print_cid peer_one (H_windowAdjusted 20 true);
  at_peer print_cid peer_one (H_written 20 (success 2)).
Definition sample_genv : GEnv (S:=unit) := mkGEnv sample_env tt.
Definition asking_world : World (M:=SC) (N:=Network) := (ask sample_genv initial_world).1.2.
Definition asking_context : PeerContext := default (new_PeerContext []) (peers_ (network_ asking_world) !! peer_one).

(** A second block, which nobody asked for by its own CID. *)
Definition other_cid : CID SC := mkCID Version_V1 DAG_PB (Cid.Sample.mh HashType_sha256 (replicate 32 1)).

Lemma sample_connected : connected peer_one 20 sample_genv asking_world asking_context.
Proof. split; vm_compute; try reflexivity; [by split|by eexists]. Qed.

Lemma sample_awaits : awaits 1 sample_block_cid 10 asking_world asking_context.
Proof. split; [apply (bool_decide_eq_true (1 ∈ _))| | |]; vm_compute; reflexivity. Qed.

Lemma sample_part g st : Forall (λ '(c, d), wf_entry (E_block c d)) g → 10 ≤ code st →
  SamplePb.message_size (part_message 1 (g, st, [])) ≤ kMaxMessageSize → ∃ d, wire_part 1 (g, st, []) d.
Proof.
  intros Hg Hst Hsz. destruct (frame_of (part_message 1 (g, st, [])) ltac:(exact I)) as (body & Hs & _).
  eexists. split; [exact Hs|]. split; [|by split]. split_and!; [done|done|constructor].
Qed.

Lemma response_in_parts_witness :
  ∃ ds, let '(_, _, ev) := receive (Cid.Sample.mh 0 []) print_cid peer_one ds (waiting_reader 20) sample_genv asking_world in
    size ds = 2 ∧ user_events ev = [LocalCall 10 RS_PARTIAL_CONTENT []; BlockCallback sample_block_cid [1; 2; 3]].
Proof.
  destruct (sample_part [(sample_block_cid, [1; 2; 3])] RS_PARTIAL_CONTENT) as [d1 H1].
  { constructor; [|constructor]. split; [exact sample_block_cid_wf|vm_compute; reflexivity]. }
  { vm_compute. discriminate. }
  { vm_compute. discriminate. }
  destruct (sample_part [(other_cid, [4])] RS_FULL_CONTENT) as [d2 H2].
  { constructor; [|constructor]. split; [apply wf_v1; vm_compute; repeat split; discriminate|vm_compute; reflexivity]. }
  { vm_compute. discriminate. }
  { vm_compute. discriminate. }
  exists [d1; d2].
  pose proof (response_in_parts (Cid.Sample.mh 0 []) print_cid (λ _ _, eq_refl) peer_one 20 1 sample_block_cid 10
    [(sample_block_cid, [1; 2; 3])] [] [(other_cid, [4])] [] [d1; d2] [1; 2; 3] [(other_cid, [4])] sample_genv asking_world
    asking_context sample_connected sample_awaits) as Hr.
  destruct (receive _ _ _ _ _ _ _) as [[r w'] ev]. destruct Hr as (_ & _ & _ & Hu).
  - constructor; [exact H1|]. constructor; [exact H2|constructor].
  - reflexivity.
  - split; [reflexivity|]. rewrite Hu. vm_compute. reflexivity.
Defined.

End samples.
