(* ===== verification/Responder.v ===== *)
(** The responder end to end: [GraphsyncImpl::onRemoteRequest] over
    [MerkleDagServiceImpl], i.e. the task of [Graphsync.v] with the DAG of
    [MerkleDag.v] as its [DagService]. *)
From stdpp Require Import base numbers countable list gmap strings.
From S2P Require Import Prelude Rle CborBuffering Cid Status MessageQueue Marshalling InboundEndpoint LocalRequests PeerContext PeerProofs Network Graphsync Ipld Datastore MerkleDag.

Open Scope Z_scope.

Section responder.
Context {M D : Type} `{!EqDecision M, !Countable M, !Multiformats M, !MultiformatsLaws M, !Protobuf}.
Context `{!NodeProtobuf, !NodeProtobufLaws, !IpfsDatastore M D, !DatastoreLaws M D}.
Context (toBuffer : M → bytes).
Implicit Types (n : IPLDNodeImpl M) (s : D).

(** What [internal_handler] reads of a node: [getCID] and [getRawBytes]. *)
Definition node_block n : outcome Z (CID M * bytes) :=
  match getIPLDBlock toBuffer n with
  | returned (b, _) => success (block_cid b, block_bytes b)
  | failed e => failure e
  | thrown => failure 0
  end.

(** Nothing throws here ([getNode_returns], [node_block_spec]). *)
#[local] Instance merkle_dag : DagService M D := {
  dag_getNode c s :=
    match getNode c s with returned n => node_block n | _ => failure 0 end;
  dag_select root selector s :=
    match selected_nodes root selector s with returned nodes => mapM node_block nodes | _ => failure 0 end
}.

Context (toString : CID M → outcome Z string) (accept : CID M → bytes → bool).

(** The nodes a request selects. *)
Definition requested_nodes (request : Request M) s : attempt DagError (list (IPLDNodeImpl M)) :=
  if bool_decide (selector request = []) then n ← getNode (root_cid request) s; returned [n]
  else
    match toBytes (root_cid request) with
    | success b => selected_nodes b (selector request) s
    | failure e => failed (dag_cid e)
    end.

(** A block whose CID is that of its bytes. *)
Definition block_of n (b : CID M * bytes) : Prop :=
  b.2 = node_serialize toBuffer n ∧
  ∃ h, mh_create HashType_sha256 (libp2p_sha256 b.2) = success h ∧ b.1 = mkCID Version_V0 DAG_PB h.

Lemma node_block_spec n : node_wf toBuffer n → ∃ b, node_block n = success b ∧ block_of n b.
Proof.
  intros Hwf. destruct (block_got toBuffer n Hwf) as (h & n' & Hh & Hg & _).
  unfold node_block. rewrite Hg. eexists. split; [done|]. split; [done|]. by exists h.
Qed.

Lemma node_blocks_spec nodes s : (∀ m, m ∈ nodes → ∃ c, getNode c s = returned m) →
  ∃ blocks, mapM node_block nodes = success blocks ∧ Forall2 block_of nodes blocks.
Proof.
  induction nodes as [|n nodes IH]; intros Hn; [by exists []|]. destruct (Hn n) as [c Hc]; [left|].
  destruct (node_block_spec n (getNode_wf toBuffer _ _ _ Hc)) as (b & Hb & Hbo).
  destruct IH as (bs & Hbs & Hf); [intros m Hm; apply Hn; by right|].
  exists (b :: bs). cbn [mapM]. rewrite Hb. cbn [mbind outcome_bind]. rewrite Hbs. split; [done|]. by constructor.
Qed.

(** The selection of [Graphsync.v] over this DAG. *)
Lemma selection_dag request s :
  match requested_nodes request s with
  | returned nodes => ∃ blocks, selection request s = success blocks ∧ Forall2 block_of nodes blocks ∧ blocks ≠ []
  | _ => ∃ x, selection request s = failure x
  end.
Proof.
  unfold requested_nodes, selection. case_bool_decide as Hs.
  - cbn [dag_getNode merkle_dag]. destruct (getNode (root_cid request) s) as [n|e|] eqn:Hg; cbn [mbind attempt_bind]; [|by eexists..].
    destruct (node_block_spec n (getNode_wf toBuffer _ _ _ Hg)) as (b & -> & Hb). exists [b].
    split; [done|]. split; [by apply Forall2_cons_2; [|apply Forall2_nil_2]|done].
  - destruct (toBytes (root_cid request)) as [b|e]; [|by eexists]. cbn [dag_select merkle_dag].
    destruct (selected_nodes b (selector request) s) as [nodes|e|] eqn:Hsel; [|by eexists..].
    apply selected_nodes_resolved in Hsel as [Hne Hn]. destruct (node_blocks_spec nodes s Hn) as (bs & -> & Hf).
    exists bs. split; [done|]. split; [done|]. intros ->. by apply Forall2_nil_inv_r in Hf.
Qed.

Lemma offers_no_response peer rid blocks p i st x :
  C_sendResponse p i st x ∉ (offers accept peer rid blocks).1.
Proof.
  induction blocks as [|[c d] blocks IH]; cbn [offers]; [by intros ?%elem_of_nil|].
  case_bool_decide; [done|]. destruct (accept c d).
  - destruct (offers accept peer rid blocks). cbn [fst] in *. intros [[=]|[[=]|Hin]%elem_of_cons]%elem_of_cons. by apply IH.
  - cbn [fst]. intros Hin. repeat (apply elem_of_cons in Hin as [[=]|Hin]). by apply elem_of_nil in Hin.
Qed.

(** C23: what a peer is answered from the store.  The root of the request and,
    with a selector, the nodes of its links in the order of their names are
    offered as blocks, each under the SHA-256 CIDv0 of its own bytes; then
    [RS_FULL_CONTENT] unless the network refused a block.  When the root is
    missing or a link cannot be resolved, the peer gets nothing.  [RS_NOT_FOUND]
    is never sent: the branch of [onRemoteRequest] for a selection without nodes
    cannot be reached over this DAG. *)
Theorem remote_request_answer peer request holder e (w : World (M:=M)) :
  g_started_ (impl w) = true →
  let w' := (remote_task (NetworkOps0:=recorder accept) (S:=D) toString peer request holder e w).1.2 in
  match requested_nodes request (service e) with
  | returned nodes => ∃ blocks, Forall2 block_of nodes blocks ∧
      let '(calls, ok) := offers accept peer (id request) blocks in
      network_ w' = network_ w ++ C_keepPeerAlive peer :: calls ++
        if (ok : bool) then
          [C_keepPeerAlive peer; C_sendResponse peer (id request) RS_FULL_CONTENT (extensions request)]
        else []
  | _ => network_ w' = network_ w ++ [C_keepPeerAlive peer]
  end ∧
  (∀ p i x, C_sendResponse p i RS_NOT_FOUND x ∈ network_ w' → C_sendResponse p i RS_NOT_FOUND x ∈ network_ w).
Proof.
  intros Hs. cbv zeta. pose proof (selection_dag request (service e)) as Hsel.
  destruct (requested_nodes request (service e)) as [nodes|err|].
  2, 3: destruct Hsel as [x Hx]; rewrite (remote_task_failed _ _ _ _ _ _ _ _ Hs Hx); cbn [network_ fst snd];
    (split; [done|]); intros p i y [?|[=]%list_elem_of_singleton]%elem_of_app; done.
  destruct Hsel as (blocks & Hb & Hf & Hne).
  pose proof (remote_task_nodes toString accept peer request holder e w blocks Hs Hb Hne) as Ht.
  pose proof (offers_no_response peer (id request) blocks) as Ho.
  destruct (offers accept peer (id request) blocks) as [calls ok] eqn:Hoff. rewrite Ht. cbn [network_ fst snd] in *. split.
  - exists blocks. by rewrite Hoff.
  - intros p i x. rewrite elem_of_app, elem_of_cons, elem_of_app. intros [?|[[=]|[Hc|Hr]]]; [done| |].
    + by apply Ho in Hc.
    + destruct ok; [|by apply elem_of_nil in Hr]. repeat (apply elem_of_cons in Hr as [[=]|Hr]). by apply elem_of_nil in Hr.
Qed.

End responder.

(** *** Witness *)

(** A peer asks with a selector for the parent of [SampleDag]. *)
Definition dag_request : Request Cid.Sample.Multihash := mkRequest 4 (SampleDag.cid_of SampleDag.parent) [160] [] 1 false.
Definition dag_env : GEnv (S:=SampleDag.store) := mkGEnv sample_env SampleDag.stored.

Lemma remote_request_answer_witness :
  let w' := (remote_task (NetworkOps0:=recorder (λ _ _, true))
    (DagService0:=merkle_dag SampleNode.mh_buffer) print_cid peer_one dag_request 0 dag_env answering_world).1.2 in
  size (network_ w') = 7 ∧ C_sendResponse peer_one 4 RS_FULL_CONTENT [] ∈ network_ w' ∧
  ∀ p i x, C_sendResponse p i RS_NOT_FOUND x ∉ network_ w'.
Proof.
  destruct (remote_request_answer SampleNode.mh_buffer print_cid (λ _ _, true) peer_one dag_request 0
    dag_env answering_world eq_refl) as [_ Hn].
  assert (network_ (remote_task (NetworkOps0:=recorder (λ _ _, true))
    (DagService0:=merkle_dag SampleNode.mh_buffer) print_cid peer_one dag_request 0 dag_env answering_world).1.2 !! 6%nat =
    Some (C_sendResponse peer_one 4 RS_FULL_CONTENT [])) as H6 by (vm_compute; reflexivity).
  split; [vm_compute; reflexivity|]. split; [exact (list_elem_of_lookup_2 _ _ _ H6)|].
  intros p i x Hin. apply Hn, elem_of_nil in Hin. exact Hin.
Defined.
