(* ===== verification/Exchange.v ===== *)
(** An exchange between two nodes: [makeRequest] at one, the task that answers at
    the other, and the callbacks of the user at the first.

    The streams carry the bytes that are written, in order; everything between is
    the code's: [GraphsyncImpl], [Network], [PeerContext], the endpoints and the
    queues at both ends.  For the CIDs of the Merkle DAG, CIDv0s, the exchange
    completes; for a CIDv1 it does not. *)
From stdpp Require Import base numbers countable list gmap strings.
From S2P Require Import Prelude Rle CborBuffering Cid Status MessageQueue Marshalling InboundEndpoint LocalRequests PeerContext PeerProofs.
From S2P Require Import Network Graphsync Delivery Ipld Datastore MerkleDag Responder.

Open Scope Z_scope.


(** ** A response from a node *)

Section sending.
Context {M S : Type} `{!EqDecision M, !Countable M, !Multiformats M, !MultiformatsLaws M}.
Context `{!Protobuf, !ProtobufLaws, !DagService M S}.
Context (toString : CID M → outcome Z string) (peer : PeerId) (s : StreamPtr) (rid : RequestId).

Abbreviation W := (World (M:=M) (N:=Network)).
Abbreviation node_event := (event (M:=M) (F:=net_effect M)).
Abbreviation node_act := (gact (M:=M) (N:=Network) (F:=net_effect M) (S:=S)).

(** The node runs and answers the request on the stream, with this builder and
    this queue. *)
Record answering (b : MessageBuilder) (q : MessageQueue) (w : W) (p : PeerContext) : Prop := {
  an_started : g_started_ (impl w) = true ∧ started_ (network_ w) = true;
  an_peer : peers_ (network_ w) !! peer = Some p;
  an_open : closed_ p = false;
  an_sink : remote_requests_streams_ p !! rid = Some s;
  an_stream : ∃ ctx, streams_ p !! s = Some ctx ∧ has_queue ctx = true ∧ response_endpoint ctx = Some b;
  an_queue : queues p !! s = Some q
}.

(** What is written to the stream. *)
Definition written (l : list node_event) : list bytes :=
  omap (λ ev, match ev with NetEffect (Peer p (WriteStream s' d)) => if decide (p = peer ∧ s' = s) then Some d else None | _ => None end) l.

Lemma written_app l k : written (l ++ k) = written l ++ written k.
Proof. apply omap_app. Qed.

Definition with_peer (p : PeerContext) (w : W) : W :=
  mkWorld (impl w) (set_peers (<[peer := p]> (peers_ (network_ w))) (network_ w)) (reqgenerator_ w).

(** A call of the network that is a call of the context. *)
Lemma call_plain {A B} (call : net (M:=M) B) (m : act (M:=M) A) (k : option A → B) e (w : W) p a p' ev :
  peers_ (network_ w) !! peer = Some p → m (base_env e) p = (a, p', ev) → Forall plain ev →
  call (base_env e) (network_ w) = (o ← on_peer peer m; mret (k o)) (base_env e) (network_ w) →
  call_network (S:=S) toString call e w = (success (k (Some a)), with_peer p' w, NetEffect <$> (Peer peer <$> ev)).
Proof.
  intros Hp Hm Hev Hcall. unfold call_network. rewrite Hcall. unfold mbind at 1, net_bind at 1, on_peer. rewrite Hp, Hm.
  rewrite (plain_open _ Hev).
  cbn [mret net_ret]. rewrite app_nil_r.
  rewrite (g_bind_eq _ _ _ _ _ _ _ (dispatch_plain toString peer ev e _ Hev)). unfold g_result, g_world, g_trace. cbn. by rewrite app_nil_r.
Qed.

Lemma keepAlive_call b q e (w : W) p : answering b q w p →
  ∃ p' ev, call_network (S:=S) toString (op_keepPeerAlive peer) e w = (success tt, with_peer p' w, ev) ∧
    answering b q (with_peer p' w) p' ∧ written ev = [].
Proof.
  intros [[Hg Hn] Hp Ho Hk Hs Hq]. destruct (resetPeerTimeout_eq (M:=M) (base_env e) p Ho) as (t & ev & Hr & Hev).
  exists (set_timer t p), (NetEffect <$> (Peer peer <$> ev)). split; [|split].
  - apply (call_plain _ keepAlive (λ _, tt) e w p tt); [done|done| |].
    + by apply plain_timer.
    + cbn [op_keepPeerAlive network_ops]. unfold keepPeerAlive, mbind at 1, net_bind at 1, net_get. rewrite Hn. cbn [negb].
      unfold mbind at 1, net_bind at 1. rewrite findContext_eq, Hn, Hp, Ho. cbn [negb].
      unfold mbind, net_bind. by destruct (on_peer peer keepAlive (base_env e) (network_ w)) as [[[]?]?].
  - split; try done. cbn. by rewrite lookup_insert_eq.
  - by destruct Hev as [->|[n ->]].
Qed.

Lemma response_done_eq b q ev e p : ev = Write s <$> writes ev →
  response_done (M:=M) s b q ev e p =
    (tt, set_queues (<[s := q]> (queues p)) (set_streams (alter (set_ctx_endpoint (Some b)) s (streams_ p)) p),
     WriteStream s <$> writes ev).
Proof.
  intros Hev. unfold response_done. rewrite !bind_modify. by apply queue_events_writes.
Qed.

(** What the context has before its endpoint works, and after. *)
Lemma answering_parts b q (w : W) p e : answering b q w p →
  findResponseSink rid p = Some s ∧ createResponseEndpoint (M:=M) s e p = (tt, p, []) ∧ response_parts s p = Some (b, q).
Proof.
  intros [_ _ _ Hk (ctx & Hs & Hh & Hb) Hq]. split_and!.
  - unfold findResponseSink. rewrite Hk. cbn. by rewrite Hs.
  - unfold createResponseEndpoint, createMessageQueue. erewrite bind_eq; [|rewrite bind_get, Hs, Hh; reflexivity].
    rewrite bind_get, Hs, Hb. done.
  - unfold response_parts. rewrite Hs. cbn. rewrite Hb. cbn. by rewrite Hq.
Qed.

Lemma answering_done b q b' q' (w : W) p : answering b q w p →
  let p' := set_queues (<[s := q']> (queues p)) (set_streams (alter (set_ctx_endpoint (Some b')) s (streams_ p)) p) in
  answering b' q' (with_peer p' w) p'.
Proof.
  intros [H1 H2 H3 H4 (ctx & Hs & Hh & Hb) H6]. split; try done.
  - cbn. by rewrite lookup_insert_eq.
  - exists (set_ctx_endpoint (Some b') ctx). cbn. by rewrite lookup_alter_eq, Hs.
  - cbn. by rewrite lookup_insert_eq.
Qed.

Lemma written_writes l : written (NetEffect <$> (Peer peer <$> (WriteStream s <$> l))) = l.
Proof.
  unfold written. induction l as [|d l IH]; [done|]. cbn. rewrite decide_True by done. cbn in IH. by rewrite IH.
Qed.

Lemma addBlock_call c d b q b' q' qev e (w : W) p : answering b q w p → usable (closedW (base_env e)) s q →
  endpoint_addBlockToResponse (closedW (base_env e)) rid c d b q = (returned tt, b', q', qev) →
  ∃ p' ev, call_network (S:=S) toString (op_addBlockToResponse peer rid c d) e w = (success (returned true), with_peer p' w, ev) ∧
    answering b' q' (with_peer p' w) p' ∧ written ev = writes qev.
Proof.
  intros Han Hu He. pose proof (addBlock_writes _ _ _ _ _ _ _ _ _ _ _ Hu He) as Hqev.
  pose proof Han as [[Hg Hn] Hp Ho _ _ _]. destruct (answering_parts b q w p (base_env e) Han) as (Hk & Hc & Hr).
  eexists _, _. split; [|split; [exact (answering_done b q b' q' w p Han)|exact (written_writes (writes qev))]].
  apply (call_plain _ (addBlockToResponse rid c d) (default (returned false)) e w p (returned true)); [done| |apply plain_writes|].
  - unfold addBlockToResponse. rewrite bind_get, Hk, (bind_eq _ _ _ _ _ _ _ Hc), bind_get, Hr, bind_env, He. cbv zeta.
    rewrite (bind_eq _ _ _ _ _ _ _ (response_done_eq b' q' qev _ p Hqev)).
    unfold result, final, trace. cbn. by rewrite ?app_nil_r.
  - cbn [op_addBlockToResponse network_ops]. unfold net_addBlockToResponse, mbind at 1, net_bind at 1, net_get. rewrite Hn. cbn [negb].
    unfold mbind at 1, net_bind at 1. rewrite findContext_eq, Hn, Hp, Ho. cbn [negb].
    unfold mbind, net_bind. by destruct (on_peer peer _ (base_env e) (network_ w)) as [[??]?].
Qed.

Lemma sendResponse_call st x b q b' q' qev e (w : W) p : answering b q w p → usable (closedW (base_env e)) s q →
  send (closedW (base_env e)) rid st x b q = (success tt, b', q', qev) →
  ∃ p' ev, call_network (S:=S) toString (op_sendResponse peer rid st x) e w = (success tt, with_peer p' w, ev) ∧
    answering b' q' (with_peer p' w) p' ∧ written ev = writes qev.
Proof.
  intros Han Hu He. pose proof (send_writes _ _ _ _ _ _ _ _ _ _ _ Hu He) as Hqev.
  pose proof Han as [[Hg Hn] Hp Ho _ _ _]. destruct (answering_parts b q w p (base_env e) Han) as (Hk & Hc & Hr).
  eexists _, _. split; [|split; [exact (answering_done b q b' q' w p Han)|exact (written_writes (writes qev))]].
  apply (call_plain _ (sendResponse rid st x) (λ _, tt) e w p tt); [done| |apply plain_writes|].
  - unfold sendResponse, endpoint_sendResponse. rewrite bind_get, Hk, (bind_eq _ _ _ _ _ _ _ Hc), bind_get, Hr, bind_env, He. cbv zeta.
    rewrite (bind_eq _ _ _ _ _ _ _ (response_done_eq b' q' qev _ p Hqev)).
    unfold result, final, trace. cbn. by rewrite ?app_nil_r.
  - cbn [op_sendResponse network_ops]. unfold net_sendResponse, mbind at 1, net_bind at 1, net_get. rewrite Hn. cbn [negb].
    unfold mbind at 1, net_bind at 1. rewrite findContext_eq, Hn, Hp, Ho. cbn [negb].
    unfold mbind, net_bind. by destruct (on_peer peer _ (base_env e) (network_ w)) as [[??]?].
Qed.

(** The blocks of the nodes that have bytes. *)
Definition blocks_of (nodes : list (CID M * bytes)) : list (CID M * bytes) := filter (λ n, n.2 ≠ []) nodes.

(** [hand_over] and then the response is [respond] on the endpoint. *)
Lemma hand_over_respond st x nodes : ∀ b q b' q' qev n e (w : W) p, Forall (λ '(c, _), wf_cid c) (blocks_of nodes) →
  answering b q w p → usable (closedW (base_env e)) s q →
  respond (closedW (base_env e)) rid (blocks_of nodes) st x b q = (true, b', q', qev) →
  ∃ b1 q1 qev1 qev2 w1 p1 ev1, hand_over (S:=S) toString peer rid nodes n e w = (success (true, n + size nodes), w1, ev1) ∧
    answering b1 q1 w1 p1 ∧ impl w1 = impl w ∧ usable (closedW (base_env e)) s q1 ∧
    send (closedW (base_env e)) rid st x b1 q1 = (success tt, b', q', qev2) ∧ qev = qev1 ++ qev2 ∧ written ev1 = writes qev1.
Proof.
  induction nodes as [|[c d] nodes IH]; intros b q b' q' qev n e w p HF Han Hu Hr.
  - cbn [blocks_of filter list_filter respond] in Hr. unfold endpoint_sendResponse in Hr.
    destruct (send _ _ _ _ _ _) as [[[r b1] q1] ev1] eqn:Hs. destruct r as [[]|]; [|done]. simplify_eq.
    exists b, q, [], qev, w, p, []. rewrite Z.add_0_r. split_and!; done.
  - unfold blocks_of in Hr, HF. rewrite filter_cons in Hr, HF. cbn [hand_over].
    assert (n + size ((c, d) :: nodes) = n + 1 + size nodes) as -> by (rewrite size_cons; lia).
    case_bool_decide as Hd; [rewrite decide_False in Hr, HF by (cbn; by intros []); subst d
      |rewrite decide_True in Hr, HF by done; apply Forall_cons in HF as [Hc HF]].
    + destruct (IH b q b' q' qev (n + 1) e w p HF Han Hu Hr) as (b1 & q1 & e1 & e2 & w1 & p1 & ev1 & Heq & Hrest).
      exists b1, q1, e1, e2, w1, p1, ev1. by rewrite Heq.
    + destruct (keepAlive_call b q e w p Han) as (p0 & ev0 & Hk & Han0 & Hw0).
      cbn [respond] in Hr. destruct (endpoint_addBlockToResponse _ _ _ _ _ _) as [[[r b2] q2] ev2] eqn:Hs.
      destruct r as [[]| |]; [|done..]. destruct (respond _ _ _ _ _ b2 q2) as [[[ok b3] q3] ev3] eqn:Hr'. simplify_eq.
      destruct (addBlock_spec _ _ _ _ _ _ _ _ _ _ Hu Hc Hs) as [Hu2 _].
      destruct (addBlock_call c d b q b2 q2 ev2 e _ p0 Han0 Hu Hs) as (p2 & ev4 & Ha & Han2 & Hw2).
      destruct (IH b2 q2 b' q' ev3 (n + 1) e _ p2 HF Han2 Hu2 Hr') as
        (b1 & q1 & e1 & e2 & w1 & p1 & ev1 & Heq & Han1 & Hi & Hu1 & Hsend & -> & Hw1).
      exists b1, q1, (ev2 ++ e1), e2, w1, p1, (ev0 ++ ev4 ++ ev1). split_and!; try done.
      * rewrite (g_bind_eq _ _ _ _ _ _ _ Hk), (g_bind_eq _ _ _ _ _ _ _ Ha), Heq.
        done.
      * by rewrite app_assoc.
      * by rewrite !written_app, writes_app, Hw0, Hw2, Hw1.
Qed.

Lemma answering_generator b q (w : W) p g : answering b q w p → answering b q (mkWorld (impl w) (network_ w) g) p.
Proof. by intros []. Qed.

Lemma select_respond request nodes st x b q b' q' qev e (w : W) p :
  answering b q w p → usable (closedW (base_env e)) s q → id request = rid →
  selection request (service e) = success nodes → nodes ≠ [] → Forall (λ '(c, _), wf_cid c) (blocks_of nodes) →
  respond (closedW (base_env e)) rid (blocks_of nodes) st x b q = (true, b', q', qev) →
  ∃ n b1 q1 qev1 qev2 w1 p1 ev1, select_nodes (S:=S) toString peer request e w = (success (true, success n), w1, ev1) ∧ 0 < n ∧
    answering b1 q1 w1 p1 ∧ impl w1 = impl w ∧ usable (closedW (base_env e)) s q1 ∧
    send (closedW (base_env e)) rid st x b1 q1 = (success tt, b', q', qev2) ∧ qev = qev1 ++ qev2 ∧ written ev1 = writes qev1.
Proof.
  intros Han Hu Hid Hsel Hne HF Hr.
  destruct (hand_over_respond st x nodes b q b' q' qev 0 e w p HF Han Hu Hr) as (b1 & q1 & e1 & e2 & w1 & p1 & ev1 & Heq & Hrest).
  assert (0 < 0 + size nodes) as Hpos.
  { destruct nodes as [|node nodes]; [done|]. rewrite size_cons. pose proof (size_nonneg nodes). lia. }
  unfold selection in Hsel. unfold select_nodes. rewrite g_bind_env. case_bool_decide as Hs.
  - destruct (dag_getNode (root_cid request) (service e)) as [node|]; [|done]. injection Hsel as <-.
    exists 1, b1, q1, e1, e2, w1, p1, ev1. rewrite Hid, (g_bind_eq _ _ _ _ _ _ _ Heq). split; [|done].
    unfold g_result, g_world, g_trace. cbn. by rewrite app_nil_r.
  - destruct (toBytes (root_cid request)) as [root|]; [|done]. rewrite Hsel.
    exists (0 + size nodes), b1, q1, e1, e2, w1, p1, ev1. rewrite Hid, (g_bind_eq _ _ _ _ _ _ _ Heq). split; [|done].
    unfold g_result, g_world, g_trace. cbn. by rewrite app_nil_r.
Qed.

(** The task that answers a request is [respond] on the endpoint of the stream
    the request came on. *)
Lemma remote_task_respond request holder nodes b q b' q' qev e (w : W) p :
  answering b q w p → usable (closedW (base_env e)) s q → id request = rid →
  selection request (service e) = success nodes → nodes ≠ [] → Forall (λ '(c, _), wf_cid c) (blocks_of nodes) →
  respond (closedW (base_env e)) rid (blocks_of nodes) RS_FULL_CONTENT (extensions request) b q = (true, b', q', qev) →
  ∃ w' p' ev, remote_task (S:=S) toString peer request holder e w = (success tt, w', ev) ∧
    answering b' q' w' p' ∧ impl w' = impl w ∧ written ev = writes qev.
Proof.
  intros Han Hu Hid Hsel Hne HF Hr. pose proof (an_started _ _ _ _ Han) as [Hg _].
  destruct (keepAlive_call b q e w p Han) as (p0 & ev0 & Hk & Han0 & Hw0).
  destruct (select_respond request nodes _ _ b q b' q' qev e _ p0 Han0 Hu Hid Hsel Hne HF Hr) as
    (n & b1 & q1 & e1 & e2 & w1 & p1 & ev1 & Hselect & Hn & Han1 & Hi1 & Hu1 & Hsend & -> & Hw1).
  set (w2 := mkWorld (impl w1) (network_ w1) (setStatus holder RS_FULL_CONTENT (reqgenerator_ w1))).
  pose proof (answering_generator b1 q1 w1 p1 (setStatus holder RS_FULL_CONTENT (reqgenerator_ w1)) Han1) as Han2. fold w2 in Han2.
  destruct (keepAlive_call b1 q1 e w2 p1 Han2) as (p3 & ev3 & Hk3 & Han3 & Hw3).
  destruct (sendResponse_call _ _ b1 q1 b' q' e2 e _ p3 Han3 Hu1 Hsend) as (p4 & ev4 & Hs4 & Han4 & Hw4).
  set (w4 := with_peer p4 (with_peer p3 w2)) in *.
  exists (mkWorld (impl w4) (network_ w4) (removeRequest rid (reqgenerator_ w4))), p4, (ev0 ++ ev1 ++ ev3 ++ ev4). split_and!.
  - unfold remote_task. rewrite g_bind_get, Hg. cbn [negb]. rewrite (g_bind_eq _ _ _ _ _ _ _ Hk).
    assert (answer (S:=S) toString peer request RS_FULL_CONTENT e w2 =
      (success tt, mkWorld (impl w4) (network_ w4) (removeRequest rid (reqgenerator_ w4)), ev3 ++ ev4)) as Hans.
    { unfold answer. rewrite (g_bind_eq _ _ _ _ _ _ _ Hk3), g_bind_get.
      assert (g_started_ (impl (with_peer p3 w2)) = true) as -> by (cbn; by rewrite Hi1).
      rewrite Hid, (g_bind_eq _ _ _ _ _ _ _ Hs4). fold w4. unfold update_generator, g_result, g_world, g_trace. cbn. by rewrite app_nil_r. }
    match goal with |- (g_result ?K, _, _) = _ => assert (K = (success tt,
      mkWorld (impl w4) (network_ w4) (removeRequest rid (reqgenerator_ w4)), ev1 ++ ev3 ++ ev4)) as -> end; [|done].
    rewrite (g_bind_eq _ _ _ _ _ _ _ Hselect). cbn [negb]. destruct (Z.ltb_spec 0 n); [|lia].
    unfold update_generator. rewrite !g_bind_generator. cbn [fst snd]. fold w2. by rewrite Hans.
  - by apply answering_generator.
  - cbn. by rewrite Hi1.
  - by rewrite !written_app, writes_app, Hw0, Hw1, Hw3, Hw4.
Qed.

End sending.

(** ** A request from a node *)

Section requesting.
Context {M S : Type} `{!EqDecision M, !Countable M, !Multiformats M, !MultiformatsLaws M}.
Context `{!Protobuf, !ProtobufLaws, !DagService M S}.
Context (toString : CID M → outcome Z string).
Context (peer : PeerId) (s : StreamPtr).

Abbreviation W := (World (M:=M) (N:=Network)).
Abbreviation node_event := (event (M:=M) (F:=net_effect M)).

(** The message of a request. *)
Definition request_message (i : RequestId) (c : CID M) (selector : bytes) (x : list Extension) : pb.Message :=
  pb_msg_ (foldl add_entry new_MessageBuilder [E_request i c selector x]).

Lemma request_message_eq i c selector x : wf_cid c →
  addRequest i c selector x new_MessageBuilder = (mkMessageBuilder (request_message i c selector x) false, returned tt).
Proof. intros Hc. unfold request_message. cbn [foldl add_entry]. unfold addRequest. by rewrite toBytes_wf. Qed.

(** The node can send: the requests endpoint of the peer is on the stream, and
    nothing waits in its queue. *)
Record can_send (q : MessageQueue) (e : GEnv (S:=S)) (w : W) (p : PeerContext) : Prop := {
  cs_connected : connected peer s e w p;
  cs_network : started_ (network_ w) = true;
  cs_endpoint : ∃ ep, requests_endpoint_ p = Some ep ∧ queue_ ep = Some s;
  cs_queue : queues p !! s = Some q;
  cs_usable : usable (closedW (base_env e)) s q;
  cs_pending : pending_bytes (state_ q) = 0;
  cs_builder : request_builder_ (local_requests_ (impl w)) = new_MessageBuilder
}.

Lemma net_bind_quiet {A B} (m : net (M:=M) A) (f : A → net B) e n a n1 : m e n = (a, n1, []) → (m ≫= f) e n = f a e n1.
Proof. intros Hm. unfold mbind, net_bind. rewrite Hm. by destruct (f a e n1) as [[b n2] ev2]. Qed.

Lemma on_peer_get {A} (f : PeerContext → A) e (n : Network) p : peers_ n !! peer = Some p →
  on_peer (M:=M) peer (get f) e n = (Some (f p), n, []).
Proof.
  intros Hp. unfold on_peer, get. rewrite Hp. cbn. unfold set_peers. rewrite insert_id by done. by destruct n.
Qed.

Lemma canSendRequest_eq e (n : Network) p : started_ n = true → peers_ n !! peer = Some p → closed_ p = false →
  canSendRequest (M:=M) peer e n = (true, n, []).
Proof.
  intros Hn Hp Ho. unfold canSendRequest. erewrite net_bind_quiet by reflexivity. rewrite Hn. cbn [negb].
  erewrite net_bind_quiet by (by rewrite findContext_eq, Hn, Hp, Ho). cbn [negb].
  erewrite net_bind_quiet by apply (on_peer_get _ _ _ p Hp). rewrite bool_decide_false; [done|]. unfold getState. rewrite Ho. by repeat case_match.
Qed.

(** The context when the request is enqueued. *)
Lemma enqueueRequest_eq i d q e p q' qev ep : closed_ p = false → requests_endpoint_ p = Some ep → queue_ ep = Some s →
  queues p !! s = Some q → usable (closedW e) s q → pending_bytes (state_ q) = 0 → 0 < size d ≤ kMaxPendingBytes →
  queue_enqueue (closedW e) (Some d) q = (q', qev) →
  enqueueRequest (M:=M) i (Some d) e p =
    (tt, set_local_ids ({[i]} ∪ local_request_ids_ p) (set_queues (<[s := q']> (queues p)) p), WriteStream s <$> writes qev).
Proof.
  intros Ho Hep Hq Hqs Hu Hpb Hd He. pose proof (queue_enqueue_writes _ _ _ _ _ _ Hu He) as Hqev.
  rewrite (enqueueRequest_endpoint _ _ _ _ ep) by done.
  assert (endpoint_enqueue (M:=M) ep (Some d) e p =
    (success tt, set_queues (<[s := q']> (queues p)) p, WriteStream s <$> writes qev)) as ->.
  { unfold endpoint_enqueue. rewrite bind_get, bind_env. unfold ep_enqueue, pending_of. rewrite Hq, Hqs, Hpb.
    destruct (Z.eqb_spec (size d) 0); [lia|]. rewrite wrap_small by (unfold kMaxPendingBytes in *; lia).
    destruct (Z.ltb_spec kMaxPendingBytes (0 + size d)); [lia|]. unfold enqueue_at. rewrite Hqs, He. rewrite !bind_modify.
    assert (set_endpoint (Some ep) p = p) as -> by (by destruct p; cbn in *; subst).
    rewrite (bind_eq _ _ _ _ _ _ _ (queue_events_writes s qev e _ Hqev)).
    unfold result, final, trace. cbn. by rewrite app_nil_r. }
  done.
Qed.

Lemma makeRequest_eq address i d q e (n : Network) p q' qev :
  started_ n = true → peers_ n !! peer = Some p → closed_ p = false →
  (∃ ep, requests_endpoint_ p = Some ep ∧ queue_ ep = Some s) → queues p !! s = Some q → usable (closedW e) s q →
  pending_bytes (state_ q) = 0 → 0 < size d ≤ kMaxPendingBytes → queue_enqueue (closedW e) (Some d) q = (q', qev) →
  let p1 := match address with Some _ => set_connect_to address p | None => p end in
  let p' := set_local_ids ({[i]} ∪ local_request_ids_ p) (set_queues (<[s := q']> (queues p)) p1) in
  makeRequest (M:=M) peer address i (Some d) e n =
    (tt, set_peers (<[peer := p']> (peers_ n)) n, Peer peer <$> (WriteStream s <$> writes qev)).
Proof.
  intros Hn Hp Ho (ep & Hep & Hepq) Hq Hu Hpb Hd He p1 p'. unfold makeRequest.
  erewrite net_bind_quiet by (by apply (canSendRequest_eq e n p)). cbn [negb].
  erewrite net_bind_quiet by (by rewrite findContext_eq, Hn, Hp, Ho).
  set (n1 := set_peers (<[peer := p1]> (peers_ n)) n).
  assert (peers_ n1 !! peer = Some p1) as Hp1 by (subst n1; cbn; by rewrite lookup_insert_eq).
  erewrite (net_bind_quiet _ _ _ _ (Some tt) n1) by (unfold on_peer; rewrite Hp; subst p1 n1; by destruct address).
  assert (closed_ p1 = false ∧ requests_endpoint_ p1 = Some ep ∧ queues p1 = queues p ∧ local_request_ids_ p1 = local_request_ids_ p)
    as (Ho1 & Hep1 & Hq1 & Hl1) by (subst p1; by destruct address).
  assert (on_peer peer needToConnect e n1 = (Some false, n1, @nil (net_effect M))) as Hneed.
  { assert (needToConnect (M:=M) e p1 = (false, p1, [])) as Hneed by (unfold needToConnect; rewrite bind_get, Hep1; done).
    unfold on_peer. rewrite Hp1, Hneed. cbn. subst n1. unfold set_peers. cbn. by rewrite insert_insert_eq. }
  rewrite (net_bind_quiet _ _ _ _ _ _ Hneed), bool_decide_false by done.
  erewrite (net_bind_quiet (mret tt)) by reflexivity. unfold mbind, net_bind.
  assert (on_peer peer (enqueueRequest i (Some d)) e n1 =
    (Some tt, set_peers (<[peer := p']> (peers_ n)) n, Peer peer <$> (WriteStream s <$> writes qev))) as ->.
  { unfold on_peer. rewrite Hp1, (enqueueRequest_eq i d q e p1 q' qev ep) by (try done; by rewrite Hq1).
    rewrite Hq1, Hl1, (plain_open _ (plain_writes s (writes qev))).
    subst n1. unfold set_peers. cbn. by rewrite insert_insert_eq. }
  cbn. by rewrite app_nil_r.
Qed.

(** [makeRequest] from the user's call to the stream: the request is tracked and
    awaited, and its frame is handed to the queue of the stream. *)
Lemma request_made i g' c selector x cb address d q q' qev e (w : W) p :
  can_send q e w p → wf_cid c → nextRequestId (reqgenerator_ w) (local_requests_ (impl w)) = (i, g') → 0 < i →
  InboundEndpoint.wire (request_message i c selector x) d → size d ≤ kMaxPendingBytes →
  state <$> tracked_requests_ (impl w) !! c ≠ Some IN_PROGRESS →
  queue_enqueue (closedW (base_env e)) (Some d) q = (q', qev) →
  ∃ w' p' ev, g_makeRequest (S:=S) toString peer address c selector x cb e w = (success (Some (u64 i)), w', ev) ∧
    connected peer s e w' p' ∧ awaits i c cb w' p' ∧ written peer s ev = writes qev ∧
    tracked_requests_ (impl w') =
      <[c := mkTracking IN_PROGRESS i (now (base_env e)) (now (base_env e))]> (tracked_requests_ (impl w)).
Proof.
  intros [[[Hg Hl] Hp Ho Hst Hlive] Hn Hep Hq Hu Hpb Hb] Hc Hid Hi Hw Hsz Htr He.
  pose proof (wire_pos _ _ Hw) as Hpos. unfold g_makeRequest. rewrite g_bind_get, Hg.
  erewrite g_bind_call by (by apply (canSendRequest_eq (base_env e) (network_ w) p)). cbn [negb].
  set (w0 := mkWorld (impl w) (network_ w) (reqgenerator_ w)).
  set (l' := set_request_cid i c (set_active (<[i := cb]> (active_requests_ (local_requests_ (impl w))))
    (set_builder new_MessageBuilder (local_requests_ (impl w))))).
  set (n := now (base_env e)).
  set (g1 := set_tracked (<[c := mkTracking IN_PROGRESS i n n]> (tracked_requests_ (impl w))) (set_local l' (set_locked true (impl w)))).
  set (p1 := match address with Some _ => set_connect_to address p | None => p end).
  set (p' := set_local_ids ({[i]} ∪ local_request_ids_ p) (set_queues (<[s := q']> (queues p)) p1)).
  set (n' := set_peers (<[peer := p']> (peers_ (network_ w))) (network_ w)).
  set (ev := NetEffect (M:=M) <$> (Peer (M:=M) peer <$> (WriteStream s <$> writes qev))).
  assert (∀ g gen, call_network (S:=S) toString (op_makeRequest peer address i (Some d)) e (mkWorld g (network_ w) gen) =
    (success tt, mkWorld g n' gen, ev)) as Hcall.
  { intros g gen. unfold call_network. cbn [network_ op_makeRequest network_ops].
    rewrite (makeRequest_eq address i d q (base_env e) (network_ w) p q' qev) by (done || lia). fold p1 p' n'. cbn [impl reqgenerator_].
    rewrite (g_bind_eq _ _ _ _ _ _ _ (dispatch_plain toString peer _ e _ (plain_writes s (writes qev)))).
    unfold g_result, g_world, g_trace. cbn. by rewrite app_nil_r. }
  exists (mkWorld (set_locked false g1) n' g'), p', ev. split; [|split; [|split; [|split]]].
  - erewrite with_lock_eq; [|done|].
    2: { rewrite g_bind_get. change (tracked_requests_ (impl (lock_of true w0))) with (tracked_requests_ (impl w)).
         rewrite bool_decide_false by done. erewrite bind_quiet.
         2: { unfold new_request. cbn [impl lock_of reqgenerator_ w0 set_locked local_requests_].
              unfold newRequest. rewrite Hid. destruct (Z.eqb_spec i 0); [lia|]. rewrite Hb, request_message_eq by done.
              unfold serialize. cbn [pb_msg_]. unfold InboundEndpoint.wire in Hw. rewrite Hw. reflexivity. }
         rewrite g_bind_now, g_bind_modify. cbn [request_id body impl network_ reqgenerator_ lock_of w0].
         destruct (Z.ltb_spec 0 i); [|lia]. rewrite (g_bind_eq _ _ _ _ _ _ _ (Hcall _ _)).
         unfold g_result, g_world, g_trace. cbn [mret gact_ret fst snd subscription]. rewrite app_nil_r. reflexivity. }
    done.
  - split; try done.
    + cbn. by rewrite lookup_insert_eq.
    + subst p' p1. by destruct address.
    + subst p' p1. by destruct address.
    + transitivity (live (base_env e) p); [|exact Hlive]. subst p' p1. by destruct address.
  - split.
    + cbn. set_solver.
    + exact (lookup_insert_eq _ _ _).
    + exact (lookup_insert_eq _ _ _).
    + change (state <$> <[c := mkTracking IN_PROGRESS i n n]> (tracked_requests_ (impl w)) !! c = Some IN_PROGRESS).
      by rewrite lookup_insert_eq.
  - apply written_writes.
  - done.
Qed.

End requesting.

(** ** A request at a node *)

Section requested.
Context {M S : Type} `{!EqDecision M, !Countable M, !Multiformats M, !MultiformatsLaws M}.
Context `{!Protobuf, !ProtobufLaws, !DagService M S}.
Context (mh_default : M) (toString : CID M → outcome Z string).
Context (peer : PeerId) (s : StreamPtr).

Abbreviation W := (World (M:=M) (N:=Network)).
Abbreviation node_event := (event (M:=M) (F:=net_effect M)).

(** The response endpoint of a stream, made when it is needed. *)
Definition endpoint_of (ctx : StreamCtx) (q : MessageQueue) (p : PeerContext) : Prop :=
  if has_queue ctx then queues p !! s = Some q else q = new_MessageQueue s.

Lemma createMessageQueue_eq ctx q e p : streams_ p !! s = Some ctx → endpoint_of ctx q p →
  ∃ p', createMessageQueue (M:=M) s e p = (tt, p', []) ∧ streams_ p' !! s = Some (set_ctx_queue ctx) ∧ queues p' !! s = Some q ∧
    closed_ p' = closed_ p ∧ graphsync_feedbacks_ p' = graphsync_feedbacks_ p ∧
    remote_requests_streams_ p' = remote_requests_streams_ p.
Proof.
  intros Hs Hq. unfold createMessageQueue. rewrite bind_get, Hs. unfold endpoint_of in Hq. destruct (has_queue ctx) eqn:Hh.
  - exists p. split_and!; try done. rewrite Hs. by destruct ctx; cbn in *; subst.
  - subst q. rewrite bind_modify. eexists. split; [reflexivity|]. cbn. by rewrite !lookup_insert_eq.
Qed.

Lemma createResponseEndpoint_eq ctx q e p : streams_ p !! s = Some ctx → endpoint_of ctx q p →
  ∃ p', createResponseEndpoint (M:=M) s e p = (tt, p', []) ∧
    streams_ p' !! s = Some (set_ctx_endpoint (Some (default new_MessageBuilder (response_endpoint ctx))) (set_ctx_queue ctx)) ∧
    queues p' !! s = Some q ∧ closed_ p' = closed_ p ∧ graphsync_feedbacks_ p' = graphsync_feedbacks_ p ∧
    remote_requests_streams_ p' = remote_requests_streams_ p.
Proof.
  intros Hs Hq. destruct (createMessageQueue_eq ctx q e p Hs Hq) as (p1 & Hc & Hs1 & Hq1 & F1 & F2 & F3).
  unfold createResponseEndpoint. erewrite bind_eq by exact Hc. rewrite bind_get, Hs1. cbn [response_endpoint set_ctx_queue].
  destruct (response_endpoint ctx) as [b|] eqn:Hb.
  - exists p1. split_and!; try done. rewrite Hs1. by destruct ctx; cbn in *; subst.
  - eexists. split; [reflexivity|]. cbn. by rewrite lookup_insert_eq.
Qed.

(** A message with one request, on an open stream. *)
Lemma request_event_eq msg r ctx q e p : closed_ p = false → streams_ p !! s = Some ctx → endpoint_of ctx q p →
  remote_requests_streams_ p !! id r = None → cancel r = false →
  complete_request_list msg = false → requests msg = [r] → responses msg = [] → data msg = [] →
  ∃ p' ev0, (ev0 = [] ∨ ∃ n, ev0 = [Reschedule n]) ∧
    handle (H_readerEvent (Some s) (success msg)) e p = (tt, p', ev0 ++ ((λ fb, OnRemoteRequest fb r) <$> live e p)) ∧
    closed_ p' = false ∧ graphsync_feedbacks_ p' = graphsync_feedbacks_ p ∧ remote_requests_streams_ p' !! id r = Some s ∧
    queues p' !! s = Some q ∧ ∃ ctx', streams_ p' !! s = Some ctx' ∧ has_queue ctx' = true ∧
      response_endpoint ctx' = Some (default new_MessageBuilder (response_endpoint ctx)).
Proof.
  intros Hc Hs Hq Hr Hcan Hcl Hrq Hrs Hd. destruct (resetPeerTimeout_eq (M:=M) e p Hc) as (t & ev0 & Hreset & Hev).
  set (p1 := set_timer t p) in Hreset.
  destruct (createResponseEndpoint_eq ctx q e p1 Hs Hq) as (p2 & Hcre & Hs2 & Hq2 & F1 & F2 & F3).
  set (ctx2 := set_ctx_endpoint _ _) in Hs2.
  set (p3 := set_remote (<[id r := s]> (remote_requests_streams_ p2)) p2).
  set (p4 := set_streams (alter (λ ctx, set_ctx_ids ({[id r]} ∪ remote_request_ids ctx) ctx) s (streams_ p3)) p3).
  assert (live e p4 = live e p) as Hlive by (unfold live; change (graphsync_feedbacks_ p4) with (graphsync_feedbacks_ p2); by rewrite F2).
  assert (onRequest (M:=M) s r e p1 = (tt, p4, (λ fb, OnRemoteRequest fb r) <$> live e p)) as Hon.
  { unfold onRequest. rewrite bind_get. change (streams_ p1 !! s) with (streams_ p !! s). rewrite Hs, Hcan.
    erewrite bind_eq by exact Hcre. rewrite bind_get, F3. change (remote_requests_streams_ p1) with (remote_requests_streams_ p).
    rewrite Hr, !bind_modify. fold p3 p4. rewrite feedback_eq, Hlive. done. }
  exists (set_streams (alter (set_ctx_expire (now e + kStreamCloseDelayMsec)) s (streams_ p4)) p4), ev0. split; [done|].
  split.
  - cbn [handle]. unfold onReaderEvent. rewrite bind_get, Hc, (bind_eq _ _ _ _ _ _ _ Hreset), bind_get.
    change (streams_ p1 !! s) with (streams_ p !! s). rewrite Hs, Hcl, Hrq, Hrs, Hd, bind_skip. cbn [for_each].
    assert ((_ ← onRequest (M:=M) s r; skip) e p1 = (tt, p4, (λ fb, OnRemoteRequest fb r) <$> live e p)) as Hone.
    { rewrite (bind_eq _ _ _ _ _ _ _ Hon). unfold result, final, trace. cbn. by rewrite app_nil_r. }
    rewrite (bind_eq _ _ _ _ _ _ _ Hone), bind_skip. cbn [onBlocks]. rewrite bind_skip. unfold shiftExpireTime.
    rewrite bind_env. unfold modify. rewrite ?result_pair, ?final_pair, ?trace_pair, app_nil_r. done.
  - split; [by cbn; rewrite F1|]. split; [by cbn; rewrite F2|]. split; [by cbn; rewrite lookup_insert_eq|]. split; [done|].
    cbn. rewrite lookup_alter_eq, lookup_alter_eq, Hs2. by eexists.
Qed.

(** The tasks that are posted. *)
Definition posted (l : list node_event) : list (PeerId * Request M * Z) :=
  omap (λ ev, match ev with PostTask from r holder => Some (from, r, holder) | _ => None end) l.

Lemma posted_nets (l : list (net_effect M)) : posted (NetEffect <$> l) = [].
Proof. by induction l. Qed.

(** The frame of a request posts the task that answers it. *)
Lemma request_received i c selector x d ctx q (e : GEnv (S:=S)) (w : W) p :
  connected peer s e w p → started_ (network_ w) = true → streams_ p !! s = Some ctx → endpoint_of ctx q p →
  default new_MessageBuilder (response_endpoint ctx) = new_MessageBuilder → remote_requests_streams_ p !! i = None →
  wf_cid c → NoDup (name <$> x) → InboundEndpoint.wire (request_message i c selector x) d →
  encodable (request_message i c selector x) → 0 < ByteSizeLong (request_message i c selector x) ≤ kMaxMessageSize →
  ∃ request holder w' p' ev, receive mh_default toString peer [d] (waiting_reader s) e w = (success tt, w', ev) ∧
    request_equiv request (mkRequest i c selector x 1 false) ∧ posted ev = [(peer, request, holder)] ∧
    connected peer s e w' p' ∧ answering peer s i new_MessageBuilder q w' p'.
Proof.
  intros [Hidle Hp Ho Hst Hlive] Hn Hs Hq Hb Hr Hc HN Hw Henc Hsz.
  destruct (frame_of _ Henc) as (body & Hser & Hbsz & Hpb). unfold InboundEndpoint.wire in Hw. rewrite Hser in Hw. injection Hw as <-.
  assert (Forall wf_entry [E_request i c selector x]) as HF by (by repeat constructor).
  destruct (parse_entries mh_default _ _ HF Hpb) as (msg & Hm & Hcl & Hrq & Hrs & Hd). cbn in Hcl, Hrq, Hrs, Hd.
  apply Forall2_cons_inv_r in Hrq as (request & k & Hreq & Hk & Hrq). apply Forall2_nil_inv_r in Hk as ->.
  apply Forall2_nil_inv_r in Hrs. pose proof Hreq as (Hid & _ & _ & _ & _ & Hcan). cbn in Hid, Hcan.
  rewrite <- Hid in Hr.
  destruct (request_event_eq msg request ctx q (base_env e) p Ho Hs Hq Hr Hcan Hcl Hrq Hrs Hd) as
    (p' & ev0 & Hev0 & Heq & F1 & F2 & F3 & F4 & F5). rewrite Hlive in Heq. rewrite Hb in F5. rewrite Hid in F3.
  set (n' := set_peers (<[peer := p']> (peers_ (network_ w))) (network_ w)).
  assert (on_peer peer (handle (H_readerEvent (Some s) (success msg))) (base_env e) (network_ w) =
    (Some tt, n', Peer peer <$> (ev0 ++ [OnRemoteRequest (self (impl w)) request]))) as Hon.
  { unfold on_peer. rewrite Hp, Heq. cbn [fmap list_fmap]. rewrite existsb_app.
    by rewrite (plain_open _ (plain_timer _ Hev0)). }
  set (holder := next_holder_id_ (reqgenerator_ w)).
  set (w' := mkWorld (impl w) n' (registerStatus i (reqgenerator_ w)).2).
  pose proof (dispatch_plain toString peer ev0 e (mkWorld (impl w) n' (reqgenerator_ w)) (plain_timer _ Hev0)) as Hd0.
  set (evs0 := NetEffect <$> _) in Hd0. assert (posted evs0 = []) as Hpost0 by apply posted_nets.
  exists request, holder, w', p', (evs0 ++ [NetEffect (Peer peer (OnRemoteRequest (self (impl w)) request)); PostTask peer request holder]).
  split_and!; try done.
  - cbn [receive]. rewrite read_frame_eq by lia. cbv zeta.
    set (evs := evs0 ++ _).
    assert (at_peer (S:=S) toString peer (H_readerEvent (Some s) (success msg)) e w = (success tt, w', evs)) as Hat.
    { unfold at_peer. rewrite (g_bind_eq _ _ e w (Some tt) w' evs); [unfold g_result, g_world, g_trace; cbn; by rewrite app_nil_r|].
      unfold call_network. rewrite Hon, fmap_app.
      assert (dispatch (S:=S) toString ((Peer peer <$> ev0) ++ (Peer peer <$> [OnRemoteRequest (self (impl w)) request])) e
        (mkWorld (impl w) n' (reqgenerator_ w)) = (success tt, w', evs)) as Hdis.
      { rewrite (dispatch_app toString _ _ _ _ _ _ Hd0). cbv zeta. cbn [fmap list_fmap].
        rewrite (dispatch_step toString _ _ _ _ w' [PostTask peer request holder]); [done|].
        cbn [network_feedback]. rewrite Z.eqb_refl. cbn [on_feedback]. unfold g_onRemoteRequest. destruct Hidle as [Hg _].
        rewrite g_bind_get. cbn [impl]. rewrite Hg. cbn [negb]. rewrite g_bind_generator, Hid. done. }
      rewrite (g_bind_eq _ _ _ _ _ _ _ Hdis). unfold g_result, g_world, g_trace. cbn. by rewrite app_nil_r. }
    rewrite (g_bind_eq _ _ e w tt w' evs); [unfold g_result, g_world, g_trace; cbn; by rewrite app_nil_r|].
    cbn [g_for_each on_reader_event]. rewrite bind_quiet with (a:=tt) (w1:=w) by done. cbn [MessageReader_onMessageRead negb]. rewrite Hm.
    rewrite (g_bind_eq _ _ _ _ _ _ _ Hat). unfold g_result, g_world, g_trace. cbn. by rewrite app_nil_r.
  - unfold posted. rewrite omap_app. fold (posted evs0). by rewrite Hpost0.
  - split; try done.
    + cbn. by rewrite lookup_insert_eq.
    + destruct F5 as (ctx' & -> & _). by eexists.
    + transitivity (live (base_env e) p); [|exact Hlive]. unfold live. by rewrite F2.
  - destruct Hidle as [Hg _]. split; try done. cbn. by rewrite lookup_insert_eq.
Qed.

End requested.

(** ** The exchange *)

Section exchange.
Context {M S : Type} `{!EqDecision M, !Countable M, !Multiformats M, !MultiformatsLaws M}.
Context `{!Protobuf, !ProtobufLaws, !DagService M S}.
Context (mh_default : M) (toString : CID M → outcome Z string).

Abbreviation W := (World (M:=M) (N:=Network)).
Abbreviation node_event := (event (M:=M) (F:=net_effect M)).

(** A queue with nothing in it and no write in flight. *)
Definition idle_queue (cw : StreamPtr → bool) (s : StreamPtr) (q : MessageQueue) : Prop :=
  usable cw s q ∧ pending_bytes (state_ q) = 0 ∧ writing_bytes (state_ q) ≤ 0.

Lemma idle_enqueue cw s q d : idle_queue cw s q → 0 < size d →
  queue_enqueue cw (Some d) q = (set_writing_bytes (size d) q, [Write s d]).
Proof.
  intros ((Ha & Hst & Ho & _) & _ & Hw) Hd. unfold queue_enqueue. rewrite Ha. destruct (Z.eqb_spec (size d) 0); [lia|]. cbn [orb negb].
  destruct (Z.ltb_spec 0 (writing_bytes (state_ q))); [lia|]. unfold beginWrite. by rewrite Hst, Ho.
Qed.

(** Two environments of one node, at different times. *)
Definition same_node (e e' : GEnv (S:=S)) : Prop :=
  alive (base_env e') = alive (base_env e) ∧ closedW (base_env e') = closedW (base_env e) ∧ service e' = service e.

Lemma connected_same peer s e e' (w : W) p : same_node e e' → connected peer s e w p → connected peer s e' w p.
Proof. intros (Ha & _ & _) [H1 H2 H3 H4 H5]. split; try done. rewrite <- H5. unfold live. by rewrite Ha. Qed.

Lemma selection_equiv (r r' : Request M) (st : S) : request_equiv r r' → selection r st = selection r' st.
Proof. intros (_ & Hroot & Hsel & _). unfold selection. by rewrite Hroot, Hsel. Qed.

(** What the two nodes start from: [A] can send to [B] and [B] has the stream open,
    does not know the request id, and nothing waits to be written at either. *)
Record exchange_start (peerA peerB : PeerId) (sA sB : StreamPtr) (i : RequestId) (eA eB : GEnv (S:=S)) (wA wB : W)
    (pA pB : PeerContext) (qA qB : MessageQueue) (ctx : StreamCtx) : Prop := {
  st_send : can_send peerB sA qA eA wA pA;
  st_queueA : idle_queue (closedW (base_env eA)) sA qA;
  st_id : ∃ g, nextRequestId (reqgenerator_ wA) (local_requests_ (impl wA)) = (i, g);
  st_pos : 0 < i;
  st_receive : connected peerA sB eB wB pB;
  st_network : started_ (network_ wB) = true;
  st_stream : streams_ pB !! sB = Some ctx;
  st_endpoint : endpoint_of sB ctx qB pB;
  st_builder : default new_MessageBuilder (response_endpoint ctx) = new_MessageBuilder;
  st_queueB : idle_queue (closedW (base_env eB)) sB qB;
  st_unknown : remote_requests_streams_ pB !! i = None
}.

(** The messages of the exchange are ones that protobuf encodes and readers take,
    and the response fits one message. *)
Record exchange_fits (i : RequestId) (c : CID M) (selector : bytes) (x : list Extension) (blocks : list (CID M * bytes)) : Prop := {
  fi_cid : wf_cid c;
  fi_names : NoDup (name <$> x);
  fi_request : encodable (request_message i c selector x);
  fi_request_size : 0 < ByteSizeLong (request_message i c selector x) ≤ kMaxMessageSize;
  fi_frame d : InboundEndpoint.wire (request_message i c selector x) d → size d ≤ kMaxPendingBytes;
  fi_builder : getSerializedSize (block_builder blocks) ≤ kMaxMessageSize;
  fi_response x' : x' ≡ₚ x → sendable i (blocks, RS_FULL_CONTENT, x')
}.

(** From the call of [makeRequest] to the frame of the response. *)
Lemma exchange_frames peerA peerB sA sB i c selector x address cb eA eA' eB eB' (wA wB : W) pA pB qA qB ctx nodes :
  exchange_start peerA peerB sA sB i eA eB wA wB pA pB qA qB ctx → same_node eA eA' → same_node eB eB' →
  state <$> tracked_requests_ (impl wA) !! c ≠ Some IN_PROGRESS →
  selection (mkRequest i c selector x 1 false) (service eB') = success nodes → nodes ≠ [] →
  Forall (λ '(c, d), wf_entry (E_block c d)) (blocks_of nodes) → exchange_fits i c selector x (blocks_of nodes) →
  ∃ wA1 pA1 evA1 request holder wB1 evB1 wB2 evB2 dr n,
    g_makeRequest toString peerB address c selector x cb eA wA = (success (Some (u64 i)), wA1, evA1) ∧
    receive mh_default toString peerA (written peerB sA evA1) (waiting_reader sB) eB wB = (success tt, wB1, evB1) ∧
    posted evB1 = [(peerA, request, holder)] ∧ extensions request ≡ₚ x ∧
    remote_task toString peerA request holder eB' wB1 = (success tt, wB2, evB2) ∧ written peerA sB evB2 = [dr] ∧
    wire_part i (blocks_of nodes, RS_FULL_CONTENT, extensions request) dr ∧
    connected peerB sA eA' wA1 pA1 ∧ awaits i c cb wA1 pA1 ∧
    tracked_requests_ (impl wA1) = <[c := mkTracking IN_PROGRESS i n n]> (tracked_requests_ (impl wA)).
Proof.
  intros [Hsend HqA (g & Hid) Hpos HcoB HnB HsB HqB HbB HiB HrB] HsameA HsameB Htr Hsel Hne Fbl [Fc Fx Frq Frqs Ffr Ffit Frs].
  (* the request *)
  destruct (frame_of _ Frq) as (body & Hser & _). set (dq := uv_encode (size body) ++ body) in Hser.
  assert (InboundEndpoint.wire (request_message i c selector x) dq) as Hwq by exact Hser.
  destruct (request_made toString peerB sA i g c selector x cb address dq qA _ _ eA wA pA Hsend Fc Hid Hpos Hwq (Ffr _ Hwq) Htr
    (idle_enqueue _ _ _ _ HqA (wire_pos _ _ Hwq))) as (wA1 & pA1 & evA1 & Hmake & HcoA1 & HawA & HwrA & HtrA).
  (* at the responder *)
  destruct (request_received mh_default toString peerA sB i c selector x dq ctx qB eB wB pB HcoB HnB HsB HqB HbB HrB Fc Fx Hwq Frq Frqs)
    as (request & holder & wB1 & pB1 & evB1 & Hrec & Hreq & Hpost & HcoB1 & HanB).
  pose proof Hreq as (Hrid & _ & _ & Hrx & _). cbn in Hrid, Hrx. pose proof HsameB as (_ & HcwB & HsvB).
  (* the task *)
  assert (Forall (λ '(c, _), wf_cid c) (blocks_of nodes)) as Hcids by (eapply Forall_impl; [exact Fbl|]; by intros [? ?] []).
  destruct (Frs (extensions request) Hrx) as [Henc Hmax].
  destruct HiB as (HuB & HpB & HwB).
  destruct (respond_fits (closedW (base_env eB)) sB i RS_FULL_CONTENT (extensions request) (blocks_of nodes) Hcids [] qB HuB HpB HwB Ffit Henc)
    as (b' & q' & dr & Hresp & Hwr). cbn [app] in Hresp, Hwr.
  change (block_builder []) with new_MessageBuilder in Hresp. rewrite <- HcwB in Hresp, HuB.
  rewrite <- (selection_equiv _ _ _ Hreq) in Hsel.
  destruct (remote_task_respond toString peerA sB i request holder nodes new_MessageBuilder qB b' q' _ eB' wB1 pB1 HanB HuB Hrid Hsel Hne Hcids Hresp)
    as (wB2 & pB2 & evB2 & Htask & _ & _ & HwrB).
  exists wA1, pA1, evA1, request, holder, wB1, evB1, wB2, evB2, dr, (now (base_env eA)). rewrite HwrA, HwrB. cbn [writes omap].
  split_and!; try done.
  - split; [exact Hwr|]. split; [|done]. split; [exact Fbl|]. split; [done|]. cbn [snd]. by rewrite Hrx.
  - by eapply connected_same.
Qed.

End exchange.

(** *** Over the Merkle DAG *)

Section served.
Context {M D : Type} `{!EqDecision M, !Countable M, !Multiformats M, !MultiformatsLaws M, !Protobuf, !ProtobufLaws}.
Context `{!NodeProtobuf, !NodeProtobufLaws, !IpfsDatastore M D, !DatastoreLaws M D}.
Context (toBuffer : M → bytes) (mh_default : M).
Context (toString : CID M → outcome Z string) (wf_prints : ∀ c, wf_cid c → prints toString c).

#[local] Instance responder_dag : DagService M D := merkle_dag toBuffer.

(** The block of a node is one that a receiver accepts. *)
Lemma block_of_entry n b : block_of toBuffer n b → wf_entry (E_block b.1 b.2).
Proof.
  intros (_ & h & Hh & Hb). destruct (mh_create_spec _ _ _ Hh) as [Ht Hg]. rewrite Hb. cbn [wf_entry]. split.
  - apply wf_v0; [done|]. by rewrite Hg, sha256_size.
  - cbn [content_address]. rewrite Ht. unfold calculate. rewrite Z.eqb_refl. unfold sha2_256. by rewrite Hh.
Qed.

Lemma block_of_unique n b b' : block_of toBuffer n b → block_of toBuffer n b' → b = b'.
Proof.
  intros (Hd & h & Hh & Hb) (Hd' & h' & Hh' & Hb'). destruct b as [c d], b' as [c' d']. cbn in *. subst d d'.
  rewrite Hh in Hh'. injection Hh' as ->. by rewrite Hb, Hb'.
Qed.

Lemma requested_selection request (st : D) nodes blocks : requested_nodes request st = returned nodes →
  Forall2 (block_of toBuffer) nodes blocks → selection request st = success blocks ∧ blocks ≠ [].
Proof.
  intros Hreq Hblocks. pose proof (selection_dag toBuffer request st) as Hsel. rewrite Hreq in Hsel.
  destruct Hsel as (blocks' & Hsel & Hblocks' & Hne). assert (blocks' = blocks) as <-; [|done].
  clear - Hblocks Hblocks'. revert blocks' Hblocks'. induction Hblocks as [|n b nodes blocks Hb _ IH]; intros blocks' Hf.
  - by apply Forall2_nil_inv_l in Hf.
  - apply Forall2_cons_inv_l in Hf as (b' & l & Hb' & Hl & ->). by rewrite (block_of_unique _ _ _ Hb Hb'), (IH _ Hl).
Qed.

Lemma blocks_entries nodes blocks : Forall2 (block_of toBuffer) nodes blocks →
  Forall (λ '(c, d), wf_entry (E_block c d)) (blocks_of blocks).
Proof.
  intros Hf. apply Forall_forall. intros b [_ Hin]%list_elem_of_filter. revert b Hin. apply Forall_forall.
  clear - Hf MultiformatsLaws0. induction Hf as [|n [c' d'] nodes blocks Hn _ IH]; [constructor|].
  constructor; [exact (block_of_entry _ _ Hn)|exact IH].
Qed.

(** C1: an exchange from the call of [makeRequest] to the callbacks of its user.
    When nothing waits to be written at either node and the response fits one
    message, the frame the requester writes posts one task at the responder; the
    task writes one frame; and when that has arrived, the user has got
    [RS_FULL_CONTENT] with the extensions of the request, as a set, and then the
    blocks of the selected nodes, in order, each under the CID of its bytes; the
    request is complete and no longer active.  (CIDs that have bytes are taken to
    have a text, as libp2p gives them.) *)
Theorem exchange_completes peerA peerB sA sB i c selector x address cb d0 rest eA eA' eB eB' (wA wB : World (M:=M) (N:=Network))
    pA pB qA qB ctx nodes blocks :
  exchange_start (S:=D) peerA peerB sA sB i eA eB wA wB pA pB qA qB ctx → same_node eA eA' → same_node eB eB' →
  state <$> tracked_requests_ (impl wA) !! c ≠ Some IN_PROGRESS →
  requested_nodes (mkRequest i c selector x 1 false) (service eB') = returned nodes →
  Forall2 (block_of toBuffer) nodes blocks → blocks_of blocks = (c, d0) :: rest →
  exchange_fits i c selector x (blocks_of blocks) →
  let '(made, wA1, evA1) := g_makeRequest toString peerB address c selector x cb eA wA in
  let '(got, wB1, evB1) := receive mh_default toString peerA (written peerB sA evA1) (waiting_reader sB) eB wB in
  made = success (Some (u64 i)) ∧ got = success tt ∧
  ∃ request holder, posted evB1 = [(peerA, request, holder)] ∧
    let '(done, _, evB2) := remote_task toString peerA request holder eB' wB1 in
    let '(back, wA2, evA2) := receive mh_default toString peerB (written peerA sB evB2) (waiting_reader sA) eA' wA1 in
    done = success tt ∧ back = success tt ∧
    (∃ x', x' ≡ₚ x ∧ user_events evA2 =
       LocalCall cb RS_FULL_CONTENT x' :: ((λ '(c, d), BlockCallback c d) <$> blocks_of blocks)) ∧
    state <$> tracked_requests_ (impl wA2) !! c = Some COMPLETED ∧ active_requests_ (local_requests_ (impl wA2)) !! i = None.
Proof.
  intros Hst HA HB Htr Hnodes Hf Hb Hfits. destruct (requested_selection _ _ _ _ Hnodes Hf) as [Hsel Hne].
  destruct (exchange_frames mh_default toString _ _ _ _ _ _ _ _ address cb _ _ _ _ _ _ _ _ _ _ _ _ Hst HA HB Htr Hsel Hne
    (blocks_entries _ _ Hf) Hfits) as (wA1 & pA1 & evA1 & request & holder & wB1 & evB1 & wB2 & evB2 & dr & n &
    -> & -> & Hp & Hx & Htask & Hw & Hpart & Hco & Haw & _).
  assert (Forall2 (wire_part i) (parts [] (blocks_of blocks) RS_FULL_CONTENT (extensions request)) [dr]) as Hparts
    by (apply Forall2_cons_2; [exact Hpart|apply Forall2_nil_2]).
  destruct (receive_response mh_default toString wf_prints peerB sA i c cb [] _ _ [dr] d0 rest eA' wA1 pA1 Hco Haw Hparts Hb)
    as (wA2 & pA2 & evA2 & Hback & _ & _ & Hact & Hstate & x' & Hx' & Huser).
  split; [done|]. split; [done|]. exists request, holder. split; [exact Hp|]. rewrite Htask, Hw, Hback.
  split; [done|]. split; [done|]. split; [|done]. exists x'. split; [by rewrite Hx'|exact Huser].
Qed.

(** C34: a request for a CIDv1.  The responder that has the root under that CID
    answers with the blocks of the nodes under their CIDv0s, so that the requester
    knows none of them for the root it tracks: the same exchange ends with
    [RS_FULL_CONTENT] and no block at its user, and with the request still in
    progress, which makes [makeRequest] reject every later request for this CID.
    (CIDs that have bytes are taken to have a text.) *)
Theorem cidv1_request_unanswered peerA peerB sA sB i c selector x address cb eA eA' eB eB' (wA wB : World (M:=M) (N:=Network))
    pA pB qA qB ctx nodes blocks :
  exchange_start (S:=D) peerA peerB sA sB i eA eB wA wB pA pB qA qB ctx → same_node eA eA' → same_node eB eB' →
  state <$> tracked_requests_ (impl wA) !! c ≠ Some IN_PROGRESS → version c = Version_V1 →
  requested_nodes (mkRequest i c selector x 1 false) (service eB') = returned nodes →
  Forall2 (block_of toBuffer) nodes blocks →
  (∀ c' d' rest, blocks_of blocks = (c', d') :: rest → tracked_requests_ (impl wA) !! c' = None) →
  exchange_fits i c selector x (blocks_of blocks) →
  let '(made, wA1, evA1) := g_makeRequest toString peerB address c selector x cb eA wA in
  let '(got, wB1, evB1) := receive mh_default toString peerA (written peerB sA evA1) (waiting_reader sB) eB wB in
  made = success (Some (u64 i)) ∧ got = success tt ∧
  ∃ request holder, posted evB1 = [(peerA, request, holder)] ∧
    let '(done, _, evB2) := remote_task toString peerA request holder eB' wB1 in
    let '(back, wA2, evA2) := receive mh_default toString peerB (written peerA sB evB2) (waiting_reader sA) eA' wA1 in
    done = success tt ∧ back = success tt ∧
    (∃ x', x' ≡ₚ x ∧ user_events evA2 = [LocalCall cb RS_FULL_CONTENT x']) ∧
    state <$> tracked_requests_ (impl wA2) !! c = Some IN_PROGRESS.
Proof.
  intros Hst HA HB Htr Hv Hnodes Hf Hb Hfits. destruct (requested_selection _ _ _ _ Hnodes Hf) as [Hsel Hne].
  destruct (exchange_frames mh_default toString _ _ _ _ _ _ _ _ address cb _ _ _ _ _ _ _ _ _ _ _ _ Hst HA HB Htr Hsel Hne
    (blocks_entries _ _ Hf) Hfits) as (wA1 & pA1 & evA1 & request & holder & wB1 & evB1 & wB2 & evB2 & dr & n &
    -> & -> & Hp & Hx & Htask & Hw & Hpart & Hco & [Hi Hroot Hcb _] & Htracked).
  destruct (receive_part mh_default toString wf_prints peerB sA i _ dr [] eA' wA1 pA1 Hco Hpart
    ltac:(intros _ c'; rewrite Hroot; intros [= <-]; apply Hfits)) as
    (x' & wA2 & pA2 & evA2 & Hx' & _ & Hback & _ & Hu & _ & Ht). cbn [fst snd] in Hx', Hu, Ht.
  rewrite bool_decide_true in Hu, Ht by done.
  assert (∀ c' d' rest, blocks_of blocks = (c', d') :: rest → c' ≠ c ∧ tracked_requests_ (impl wA1) !! c' = None) as Hhead.
  { intros c' d' rest Hbl. assert (c' ≠ c) as Hc.
    { assert ((c', d') ∈ blocks_of blocks) as [_ Hin]%list_elem_of_filter by (rewrite Hbl; left).
      destruct (proj1 (list_elem_of_lookup _ _) Hin) as [k Hk].
      destruct (Forall2_lookup_r _ _ _ _ _ Hf Hk) as (node & _ & _ & h & _ & Hc'). cbn in Hc'. intros ->. by rewrite Hc' in Hv. }
    split; [done|]. rewrite Htracked, lookup_insert_ne by done. by eapply Hb. }
  split; [done|]. split; [done|]. exists request, holder. split; [exact Hp|]. rewrite Htask, Hw, Hback. cbn [receive].
  split; [done|]. split; [done|]. split.
  - exists x'. split; [by rewrite Hx'|]. unfold g_trace. cbn. rewrite app_nil_r, Hu. unfold response_calls. rewrite Hcb.
    unfold block_calls. destruct (blocks_of blocks) as [|[c' d'] rest]; [done|].
    destruct (Hhead c' d' rest eq_refl) as [_ ->]. by rewrite decide_False by (by intros [? ?]).
  - unfold g_world. cbn. rewrite Ht. unfold tracked_response. rewrite Hroot. unfold blocks_tracked.
    assert (state <$> alter (track_response RS_FULL_CONTENT (now (base_env eA'))) c (tracked_requests_ (impl wA1)) !! c = Some IN_PROGRESS) as Hs.
    { by rewrite lookup_alter_eq, Htracked, lookup_insert_eq. }
    destruct (blocks_of blocks) as [|[c' d'] rest]; [exact Hs|]. destruct (Hhead c' d' rest eq_refl) as [Hc _].
    by rewrite lookup_alter_ne.
Qed.

End served.

(** *** A run of the exchange *)

Section samples.

Abbreviation SC := Cid.Sample.Multihash.
Abbreviation node_world := (World (M:=SC) (N:=Network)).
Abbreviation node_action := (gact (M:=SC) (N:=Network) (F:=net_effect SC) (S:=SampleDag.store)).

#[local] Instance sample_dag : DagService SC SampleDag.store := merkle_dag SampleNode.mh_buffer.

Definition peer_two : PeerId := [2].

(** The requester has sent a request before, on stream 20. *)
Definition requester_setup : node_action unit :=
  _ ← g_start print_cid;
  _ ← g_makeRequest print_cid peer_two None (Cid.Sample.cid_v1 5) [] [] 10;
  _ ← at_peer print_cid peer_two (H_streamConnected (Some 20));
  _ ← at_peer print_cid peer_two (H_windowAdjusted 20 true);
  at_peer print_cid peer_two (H_written 20 (success 2)).

(** The responder has accepted stream 30. *)
Definition responder_setup : node_action unit :=
  _ ← g_start print_cid;
  _ ← call_network print_cid (net_onStreamAccepted (Some (peer_one, 30)));
  at_peer print_cid peer_one (H_windowAdjusted 30 true).

Definition requester : node_world := (requester_setup dag_env initial_world).1.2.
Definition responder : node_world := (responder_setup dag_env initial_world).1.2.
Definition context_of (peer : PeerId) (w : node_world) : PeerContext :=
  default (new_PeerContext []) (peers_ (network_ w) !! peer).
Definition requester_queue : MessageQueue := default (new_MessageQueue 20) (queues (context_of peer_two requester) !! 20).
Definition responder_stream : StreamCtx := default (mkStreamCtx false ∅ None 0) (streams_ (context_of peer_one responder) !! 30).

(** The parent of [SampleDag] with its links. *)
Definition asked_cid : CID SC := SampleDag.cid_of SampleDag.parent.
Definition asked : Request SC := mkRequest 2 asked_cid [160] [] 1 false.
Definition asked_nodes : list (IPLDNodeImpl SC) :=
  match requested_nodes asked SampleDag.stored with returned nodes => nodes | _ => [] end.
Definition asked_blocks : list (CID SC * bytes) :=
  match mapM (node_block SampleNode.mh_buffer) asked_nodes with success blocks => blocks | failure _ => [] end.

#[local] Ltac computed := vm_compute; first [reflexivity|discriminate|by eexists|by repeat split|by eexists; split].

Lemma sample_start : exchange_start peer_one peer_two 20 30 2 dag_env dag_env requester responder (context_of peer_two requester)
  (context_of peer_one responder) requester_queue (new_MessageQueue 30) responder_stream.
Proof.
  split; try split; try split; try computed.
Qed.

Lemma sample_blocks : Forall2 (block_of SampleNode.mh_buffer) asked_nodes asked_blocks.
Proof.
  destruct (node_blocks_spec SampleNode.mh_buffer asked_nodes SampleDag.stored) as (bs & Hbs & Hf).
  2: { unfold asked_blocks. by rewrite Hbs. }
  apply (selected_nodes_resolved (default [] (match toBytes asked_cid with success b => Some b | failure _ => None end)) [160]).
  vm_compute. reflexivity.
Qed.

#[local] Ltac fits := split;
  [ | constructor | exact I | split; computed
  | let d := fresh in let Hd := fresh in intros d Hd;
    lazymatch type of Hd with InboundEndpoint.wire ?m _ =>
      let body := fresh in let Hs := fresh in let Hsz := fresh in
      destruct (frame_of m ltac:(exact I)) as (body & Hs & Hsz & _); unfold InboundEndpoint.wire in Hd;
      rewrite Hs in Hd; injection Hd as <-; rewrite size_app, Hsz; computed
    end
  | computed
  | let x' := fresh in let Hx := fresh in intros x' Hx; apply Permutation_nil_r in Hx as ->; split; [exact I|computed] ].

Lemma sample_fits : exchange_fits 2 asked_cid [160] [] (blocks_of asked_blocks).
Proof.
  fits. assert (asked_cid = mkCID Version_V0 DAG_PB (content_address asked_cid)) as -> by computed. apply wf_v0; computed.
Qed.

Lemma exchange_completes_witness :
  let '(_, wA1, evA1) := g_makeRequest print_cid peer_two None asked_cid [160] [] 11 dag_env requester in
  let '(_, wB1, evB1) := receive (Cid.Sample.mh 0 []) print_cid peer_one (written peer_two 20 evA1) (waiting_reader 30) dag_env responder in
  ∃ request holder, posted evB1 = [(peer_one, request, holder)] ∧
    let '(_, _, evB2) := remote_task print_cid peer_one request holder dag_env wB1 in
    let '(_, wA2, evA2) := receive (Cid.Sample.mh 0 []) print_cid peer_two (written peer_one 30 evB2) (waiting_reader 20) dag_env wA1 in
    user_events evA2 = LocalCall 11 RS_FULL_CONTENT [] :: ((λ '(c, d), BlockCallback c d) <$> blocks_of asked_blocks) ∧
    length asked_blocks = 2%nat ∧ state <$> tracked_requests_ (impl wA2) !! asked_cid = Some COMPLETED.
Proof.
  pose proof (exchange_completes SampleNode.mh_buffer (Cid.Sample.mh 0 []) print_cid (λ _ _, eq_refl) peer_one peer_two 20 30 2 asked_cid [160] []
    None 11 (default (asked_cid, []) (head (blocks_of asked_blocks))).2 (tail (blocks_of asked_blocks)) dag_env dag_env dag_env dag_env
    requester responder _ _ _ _ _ asked_nodes asked_blocks sample_start ltac:(by repeat split) ltac:(by repeat split)
    ltac:(vm_compute; discriminate) ltac:(vm_compute; reflexivity) sample_blocks ltac:(vm_compute; reflexivity) sample_fits) as Hex.
  destruct (g_makeRequest _ _ _ _ _ _ _ _ _) as [[made wA1] evA1]. destruct (receive _ _ _ _ _ _ _) as [[got wB1] evB1].
  destruct Hex as (_ & _ & request & holder & Hp & Hex). exists request, holder. split; [exact Hp|].
  destruct (remote_task _ _ _ _ _ _) as [[done wB2] evB2]. destruct (receive _ _ _ _ _ _ _) as [[back wA2] evA2].
  destruct Hex as (_ & _ & (x' & Hx & Hu) & Hst & _). apply Permutation_nil_r in Hx as ->. split; [exact Hu|].
  split; [vm_compute; reflexivity|exact Hst].
Defined.

(** The same parent under a CIDv1, at a responder that has it under both. *)
Definition asked_v1 : CID SC := mkCID Version_V1 DAG_PB (content_address asked_cid).
Definition stored_v1 : SampleDag.store :=
  (mem_set asked_v1 (default [] (storage_ SampleDag.stored !! asked_cid)) SampleDag.stored).2.
Definition env_v1 : GEnv (S:=SampleDag.store) := mkGEnv sample_env stored_v1.
Definition nodes_v1 : list (IPLDNodeImpl SC) :=
  match requested_nodes (mkRequest 2 asked_v1 [160] [] 1 false) stored_v1 with returned nodes => nodes | _ => [] end.
Definition blocks_v1 : list (CID SC * bytes) :=
  match mapM (node_block SampleNode.mh_buffer) nodes_v1 with success blocks => blocks | failure _ => [] end.

Lemma cidv1_start : exchange_start peer_one peer_two 20 30 2 env_v1 env_v1 requester responder (context_of peer_two requester)
  (context_of peer_one responder) requester_queue (new_MessageQueue 30) responder_stream.
Proof.
  split; try split; try split; try computed.
Qed.

Lemma cidv1_blocks : Forall2 (block_of SampleNode.mh_buffer) nodes_v1 blocks_v1.
Proof.
  destruct (node_blocks_spec SampleNode.mh_buffer nodes_v1 stored_v1) as (bs & Hbs & Hf).
  2: { unfold blocks_v1. by rewrite Hbs. }
  apply (selected_nodes_resolved (default [] (match toBytes asked_v1 with success b => Some b | failure _ => None end)) [160]).
  vm_compute. reflexivity.
Qed.

Lemma cidv1_fits : exchange_fits 2 asked_v1 [160] [] (blocks_of blocks_v1).
Proof. fits. apply wf_v1; computed. Qed.

Lemma cidv1_request_unanswered_witness :
  let '(_, wA1, evA1) := g_makeRequest print_cid peer_two None asked_v1 [160] [] 11 env_v1 requester in
  let '(_, wB1, evB1) := receive (Cid.Sample.mh 0 []) print_cid peer_one (written peer_two 20 evA1) (waiting_reader 30) env_v1 responder in
  ∃ request holder, posted evB1 = [(peer_one, request, holder)] ∧
    let '(_, _, evB2) := remote_task print_cid peer_one request holder env_v1 wB1 in
    let '(_, wA2, evA2) := receive (Cid.Sample.mh 0 []) print_cid peer_two (written peer_one 30 evB2) (waiting_reader 20) env_v1 wA1 in
    user_events evA2 = [LocalCall 11 RS_FULL_CONTENT []] ∧ length blocks_v1 = 2%nat ∧
    state <$> tracked_requests_ (impl wA2) !! asked_v1 = Some IN_PROGRESS.
Proof.
  pose proof (cidv1_request_unanswered SampleNode.mh_buffer (Cid.Sample.mh 0 []) print_cid (λ _ _, eq_refl) peer_one peer_two 20 30 2
    asked_v1 [160] [] None 11 env_v1 env_v1 env_v1 env_v1
    requester responder _ _ _ _ _ nodes_v1 blocks_v1 cidv1_start ltac:(by repeat split) ltac:(by repeat split)
    ltac:(vm_compute; discriminate) ltac:(reflexivity) ltac:(vm_compute; reflexivity) cidv1_blocks
    ltac:(vm_compute; intros ? ? ? [= <- _ _]; reflexivity) cidv1_fits) as Hex.
  destruct (g_makeRequest _ _ _ _ _ _ _ _ _) as [[made wA1] evA1]. destruct (receive _ _ _ _ _ _ _) as [[got wB1] evB1].
  destruct Hex as (_ & _ & request & holder & Hp & Hex). exists request, holder. split; [exact Hp|].
  destruct (remote_task _ _ _ _ _ _) as [[done wB2] evB2]. destruct (receive _ _ _ _ _ _ _) as [[back wA2] evA2].
  destruct Hex as (_ & _ & (x' & Hx & Hu) & Hst). apply Permutation_nil_r in Hx as ->. split; [exact Hu|].
  split; [vm_compute; reflexivity|exact Hst].
Defined.

End samples.
