(* ===== verification/Node.v ===== *)
(** A whole node: the user of a [GraphsyncImpl], its network, its timers and its
    tasks, in any order.

    Whatever the network does, what happens to the [LocalRequests] of a node in a run
    is a run of [LocalRequests] ([local_run]), and the calls of the user's progress
    callbacks are those of that run.  The theorems hold for every implementation of
    [NetworkOps]. *)
From stdpp Require Import base numbers countable list gmap strings.
From S2P Require Import Prelude Cid Status MessageQueue Marshalling InboundEndpoint LocalRequests PeerContext.
From S2P Require Import PeerProofs Network Graphsync.

Open Scope Z_scope.

Create HintDb quiet.

Section node.
Context {M N F S : Type} `{!EqDecision M, !Countable M, !Multiformats M, !Protobuf}.
Context `{!NetworkOps M N F, !DagService M S}.
Context (toString : CID M → outcome Z string).

Abbreviation G := (gact (M:=M) (N:=N) (F:=F) (S:=S)).
Abbreviation W := (World (M:=M) (N:=N)).
Abbreviation ev_t := (event (M:=M) (F:=F)).
Abbreviation op_t := (local_op (M:=M)).

(** ** The calls *)

(** What happens to a node: the operations of its user, the timers, the task of a
    request, and an event of the network, which is any action of it. *)
Inductive node_call :=
| Start
| Stop
| Make (peer : PeerId) (address : option (list string)) (root_cid : CID M) (selector : bytes)
    (extensions : list Extension) (callback : Callback)
| Unsubscribe (ticket : Z)
| NotifyTimer
| CleanupTimer_ (weak : bool)
| RemoteTask (peer : PeerId) (request : Request M) (holder : Z)
| NetworkEvent (m : Env → N → unit * N * list F).

Definition node_do (c : node_call) : G unit :=
  match c with
  | Start => g_start toString
  | Stop => doStop toString
  | Make peer address root_cid selector extensions callback =>
      _ ← g_makeRequest toString peer address root_cid selector extensions callback; mret tt
  | Unsubscribe ticket => g_unsubscribe toString ticket
  | NotifyTimer => g_onNotifyTimer
  | CleanupTimer_ weak => onCleanupTimer toString weak
  | RemoteTask peer request holder => remote_task toString peer request holder
  | NetworkEvent m => call_network toString m
  end.

(** A run; a call that does not return is the last one. *)
Fixpoint node_run (calls : list (GEnv (S:=S) * node_call)) (w : W) : outcome stuck unit * W * list ev_t :=
  match calls with
  | [] => (success tt, w, [])
  | (e, c) :: calls =>
      match node_do c e w with
      | (success _, w, ev) => let '(r, w, ev') := node_run calls w in (r, w, ev ++ ev')
      | stuck => stuck
      end
  end.

(** ** Runs of [LocalRequests] *)

(** The events that [LocalRequests] makes, among those of the node and among its
    own: its cancel function is [cancelLocalRequest]. *)
Definition local_part (ev : list ev_t) : list local_event :=
  omap (λ x, match x with LocalCall cb st ext => Some (Call cb st ext) | ScheduleLocalNotify => Some ScheduleNotify | _ => None end) ev.
Definition visible (ev : list local_event) : list local_event :=
  omap (λ x, match x with CancelFn _ _ => None | _ => Some x end) ev.

Lemma ended_visible c ev : ended c (visible ev) = ended c ev.
Proof.
  induction ev as [|x ev IH]; [done|]. change (x :: ev) with ([x] ++ ev). rewrite ended_app, <- IH. unfold visible.
  rewrite omap_app, ended_app. by destruct x.
Qed.

Lemma local_part_app a b : local_part (a ++ b) = local_part a ++ local_part b.
Proof. apply omap_app. Qed.

Lemma visible_app a b : visible (a ++ b) = visible a ++ visible b.
Proof. apply omap_app. Qed.

Lemma local_run_app ops ops' : ∀ l : LocalRequests M,
  local_run (ops ++ ops') l = let '(l1, ev) := local_run ops l in let '(l2, ev') := local_run ops' l1 in (l2, ev ++ ev').
Proof.
  induction ops as [|[g o] ops IH]; intros l; cbn [app local_run]; [by destruct (local_run ops' l)|].
  destruct (local_step o g l) as [[g' l1] ev]. rewrite IH. destruct (local_run ops l1) as [l2 ev2].
  destruct (local_run ops' l2) as [l3 ev3]. by rewrite app_assoc.
Qed.

(** [m] runs the operations [ops] on the local requests of its object. *)
Definition runs {A} (m : G A) (e : GEnv) (w : W) (ops : list (RequestIdGenerator * op_t)) : Prop :=
  ∃ levs, local_run ops (local_requests_ (impl w)) = (local_requests_ (impl (g_world (m e w))), levs) ∧
    visible levs = local_part (g_trace (m e w)).

(** Every run of [m] runs operations that its result allows. *)
Definition does {A} (m : G A) (Q : outcome stuck A → list op_t → Prop) : Prop :=
  ∀ e w, ∃ ops, runs m e w ops ∧ Q (g_result (m e w)) (snd <$> ops).

Lemma does_mono {A} (m : G A) (Q Q' : outcome stuck A → list op_t → Prop) :
  does m Q → (∀ r l, Q r l → Q' r l) → does m Q'.
Proof. intros Hm HQ e w. destruct (Hm e w) as (ops & Hr & Hq). exists ops. split; [done|by apply HQ]. Qed.

Lemma does_bind {A B} (m : G A) (f : A → G B) (Q : outcome stuck A → list op_t → Prop) (R : outcome stuck B → list op_t → Prop) :
  does m Q →
  (∀ a l, Q (success a) l → does (f a) (λ r l', R r (l ++ l'))) →
  (∀ s l, Q (failure s) l → R (failure s) l) →
  does (m ≫= f) R.
Proof.
  intros Hm Hf Hs e w. destruct (Hm e w) as (ops & (levs & Hl & Hv) & Hq). unfold mbind, gact_bind, runs, g_world, g_trace, g_result in *.
  destruct (m e w) as [[[a|s] w1] ev]; cbn in *; [|by exists ops; split; [exists levs|apply Hs]].
  destruct (Hf a _ Hq e w1) as (ops' & (levs' & Hl' & Hv') & Hr'). unfold g_world, g_trace, g_result in *.
  destruct (f a e w1) as [[r w2] ev']. cbn in *. exists (ops ++ ops'). rewrite fmap_app. split; [|done].
  exists (levs ++ levs'). rewrite local_run_app, Hl, Hl'. split; [done|]. by rewrite visible_app, local_part_app, Hv, Hv'.
Qed.

(** *** Actions without operations, and with operations that take no callback *)

Definition harmless (o : op_t) : Prop := adds o = 0%nat ∧ is_unsubscribe o = false.
Definition quiet {A} (m : G A) : Prop := does m (λ _ l, Forall harmless l).

Lemma quiet_still {A} (m : G A) :
  (∀ e w, local_requests_ (impl (g_world (m e w))) = local_requests_ (impl w) ∧ local_part (g_trace (m e w)) = []) → quiet m.
Proof. intros Hm e w. destruct (Hm e w) as [Hl Hv]. exists []. split; [|constructor]. exists []. by rewrite Hl, Hv. Qed.

Lemma quiet_bind {A B} (m : G A) (f : A → G B) : quiet m → (∀ a, quiet (f a)) → quiet (m ≫= f).
Proof.
  intros Hm Hf. eapply does_bind; [exact Hm| |done]. intros a l Hl. eapply does_mono; [apply Hf|]. intros r l' Hl'. by apply Forall_app.
Qed.

Lemma quiet_ret {A} (a : A) : quiet (mret a).
Proof. by apply quiet_still. Qed.
Lemma quiet_get {A} (f : GraphsyncImpl → A) : quiet (g_get f).
Proof. by apply quiet_still. Qed.
Lemma quiet_env {A} (f : GEnv → A) : quiet (g_env f).
Proof. by apply quiet_still. Qed.
Lemma quiet_throw {A} : quiet (g_throw (A:=A)).
Proof. by apply quiet_still. Qed.
Lemma quiet_now : quiet now_.
Proof. apply quiet_env. Qed.
Lemma quiet_tracked f : quiet (g_modify (λ g, set_tracked (f g) g)).
Proof. by apply quiet_still. Qed.
Lemma quiet_started b : quiet (g_modify (set_started b)).
Proof. by apply quiet_still. Qed.
Lemma quiet_generator {A} (f : RequestIdGenerator → A * RequestIdGenerator) : quiet (g_generator f).
Proof. apply quiet_still. intros e w. unfold g_generator. by destruct (f _). Qed.
Lemma quiet_log c : quiet (log_cid toString c).
Proof. unfold log_cid. destruct (is_success _); [apply quiet_ret|apply quiet_throw]. Qed.
Lemma quiet_emit x : local_part [x] = [] → quiet (g_emit x).
Proof. intros Hx. by apply quiet_still. Qed.
Lemma quiet_for_each {A} (l : list A) f : (∀ x, quiet (f x)) → quiet (g_for_each l f).
Proof. intros Hf. induction l as [|x l IH]; [apply quiet_ret|]. by apply quiet_bind. Qed.

Lemma does_lock {A} (m : G A) (Q : outcome stuck A → list op_t → Prop) :
  does m Q → Q (failure Deadlock) [] → does (with_lock m) Q.
Proof.
  intros Hm Hd e w. unfold runs, with_lock, g_world, g_trace, g_result. destruct (locked (impl w)) eqn:Hl.
  { exists []. split; [by exists []|exact Hd]. }
  destruct (Hm e (lock_of true w)) as (ops & (levs & Hrun & Hv) & Hq). unfold runs, lock_of, g_world, g_trace, g_result in *. cbn in *.
  destruct (m e _) as [[r w1] ev]. cbn in *. exists ops. destruct r as [a|[]]; cbn in *; (split; [exists levs; split; [exact Hrun|exact Hv]|exact Hq]).
Qed.

Lemma quiet_lock {A} (m : G A) : quiet m → quiet (with_lock m).
Proof. intros Hm. by apply does_lock. Qed.

#[local] Hint Resolve quiet_ret quiet_get quiet_env quiet_throw quiet_now quiet_tracked quiet_started quiet_generator quiet_log : quiet.
#[local] Ltac quiet :=
  repeat first
    [ solve [eauto with quiet]
    | apply quiet_bind; [|intros ?]
    | apply quiet_lock
    | apply quiet_for_each; intros ?
    | apply quiet_emit; reflexivity
    | case_match ].

(** An operation of [LocalRequests], with its calls. *)
Lemma local_calls_run ev e (w : W) : ∃ tr, (local_calls ev : G unit) e w = (success tt, w, tr) ∧ local_part tr = visible ev.
Proof.
  induction ev as [|x ev (tr & Hev & Htr)]; [by exists []|].
  change (local_calls (x :: ev) : G unit) with ((match x with
    | Call cb st ext => g_emit (LocalCall cb st ext)
    | ScheduleNotify => g_emit ScheduleLocalNotify
    | CancelFn _ _ => mret tt
    end : G unit) ≫= λ _, local_calls ev).
  destruct x as [cb st ext| |i b]; (erewrite g_bind_eq by reflexivity); rewrite Hev; (eexists; split; [reflexivity|]);
    unfold local_part, visible in *; cbn; by rewrite Htr.
Qed.

Lemma does_local {A B} (o : op_t) (f : LocalRequests M → A * LocalRequests M * list local_event) (k : A → G B)
    (Q : outcome stuck B → list op_t → Prop) :
  (∀ g l, local_step o g l = (g, (f l).1.2, (f l).2)) → (∀ a, does (k a) Q) →
  does (l ← g_get local_requests_; let '(a, l, ev) := f l in _ ← g_modify (set_local l); _ ← local_calls ev; k a)
    (λ r l, ∃ l', l = o :: l' ∧ Q r l').
Proof.
  intros Ho Hk e w. unfold runs. rewrite !g_bind_get. destruct (f (local_requests_ (impl w))) as [[a l] ev] eqn:Hf. rewrite !g_bind_modify.
  set (w1 := mkWorld (set_local l (impl w)) (network_ w) (reqgenerator_ w)).
  pose proof (local_calls_run ev e w1) as (tr & Hc & Htr). destruct (Hk a e w1) as (ops & Hruns & Hq). destruct Hruns as (levs & Hrun & Hv).
  exists ((new_RequestIdGenerator, o) :: ops). rewrite !(g_bind_eq _ _ _ _ _ _ _ Hc). cbn [g_world g_trace g_result fst snd fmap list_fmap].
  split; [|by exists (snd <$> ops)]. cbn [local_run]. rewrite Ho, Hf. cbn [fst snd]. change l with (local_requests_ (impl w1)) at 1.
  rewrite Hrun. exists (ev ++ levs). split; [done|]. by rewrite visible_app, local_part_app, Hv, Htr.
Qed.

(** *** The actions of [GraphsyncImpl] *)

Lemma quiet_local (o : op_t) (f : LocalRequests M → LocalRequests M * list local_event) :
  harmless o → (∀ g l, local_step o g l = (g, (f l).1, (f l).2)) → ∀ k : G unit, quiet k →
  quiet (l ← g_get local_requests_; let '(l, ev) := f l in _ ← g_modify (set_local l); _ ← local_calls ev; k).
Proof.
  intros Hh Ho k Hk. apply (does_mono _ (λ r l, ∃ l', l = o :: l' ∧ Forall harmless l')); [|intros r l (l' & -> & Hl); constructor; [exact Hh|exact Hl]].
  pose proof (does_local o (λ l, (tt, (f l).1, (f l).2)) (λ _, k) _ Ho (λ _, Hk)) as Hd. intros e w. specialize (Hd e w). unfold runs in *.
  rewrite !g_bind_get in *. destruct (f _) as [l ev]. exact Hd.
Qed.

Lemma g_bind_unit (m : G unit) e w : (_ ← m; mret tt) e w = m e w.
Proof. unfold mbind, gact_bind. destruct (m e w) as [[[[]|] w1] ev]; [|done]. cbn. by rewrite app_nil_r. Qed.

Lemma quiet_local_last (o : op_t) (f : LocalRequests M → LocalRequests M * list local_event) :
  harmless o → (∀ g l, local_step o g l = (g, (f l).1, (f l).2)) →
  quiet (l ← g_get local_requests_; let '(l, ev) := f l in _ ← g_modify (set_local l); local_calls ev).
Proof.
  intros Hh Ho e w. pose proof (quiet_local o f Hh Ho (mret tt) (quiet_ret tt) e w) as Hd. unfold runs in *. rewrite !g_bind_get in *.
  destruct (f _) as [l ev]. rewrite !g_bind_modify in *. by rewrite g_bind_unit in Hd.
Qed.

Lemma quiet_onResponse i st x : quiet (g_onResponse toString i st x).
Proof.
  unfold g_onResponse. apply quiet_bind; [quiet|]. intros started. destruct (negb started); [quiet|]. apply quiet_bind; [quiet|]. intros root.
  apply quiet_bind; [quiet|]. intros _. apply (quiet_local_last (OpResponse i st x)); [done|]. intros g l. cbn. by destruct (local_onResponse i st x l).
Qed.

Lemma quiet_onBlock root c d : quiet (g_onBlock toString root c d).
Proof. unfold g_onBlock. quiet. Qed.

Lemma quiet_onRemoteRequest from r : quiet (g_onRemoteRequest from r).
Proof. unfold g_onRemoteRequest. quiet. Qed.

Lemma quiet_call {A} (m : Env → N → A * N * list F) : quiet (call_network toString m).
Proof.
  intros e w. unfold runs, call_network. destruct (m (base_env e) (network_ w)) as [[a n] ev].
  assert (quiet (_ ← dispatch toString ev; mret a)) as Hd.
  { apply quiet_bind; [|quiet]. apply quiet_for_each. intros f. apply quiet_bind; [quiet|]. intros _. apply quiet_bind; [quiet|]. intros me.
    destruct (op_feedback me f) as [[]|]; [apply quiet_onResponse|apply quiet_onBlock|apply quiet_onRemoteRequest|quiet]. }
  exact (Hd e (mkWorld (impl w) n (reqgenerator_ w))).
Qed.
Hint Resolve quiet_call : quiet.

Lemma quiet_hand_over peer rid nodes : ∀ n, quiet (hand_over toString peer rid nodes n).
Proof. induction nodes as [|[c d] nodes IH]; intros n; cbn [hand_over]; quiet. Qed.
Hint Resolve quiet_hand_over : quiet.

Lemma quiet_answer peer request st : quiet (answer toString peer request st).
Proof. unfold answer, update_generator. quiet. Qed.
Hint Resolve quiet_answer : quiet.

Lemma quiet_task peer request holder : quiet (remote_task toString peer request holder).
Proof. unfold remote_task, select_nodes, update_generator. quiet. Qed.

Lemma quiet_start : quiet (g_start toString).
Proof. unfold g_start. quiet. Qed.

Lemma quiet_notify : quiet g_onNotifyTimer.
Proof. apply (quiet_local_last OpNotify); done. Qed.

Lemma quiet_cleanup weak : quiet (onCleanupTimer toString weak).
Proof.
  unfold onCleanupTimer, cleanupOldRequests. destruct weak; [|quiet]. apply quiet_lock. apply quiet_bind; [quiet|]. intros n.
  apply quiet_bind; [quiet|]. intros entries. apply quiet_bind; [|quiet]. apply quiet_for_each. intros [c info]. unfold cleanup_one.
  case_match; [quiet|]. case_match; [|quiet]. apply quiet_bind; [quiet|]. intros _.
  apply (quiet_local (OpResponse (tracked_id info) RS_TIMEOUT [])); [done| |quiet]. intros g l. cbn. by destruct (local_onResponse _ _ _ l).
Qed.

(** *** Requests and subscriptions *)

Lemma does_reject cb : does (reject cb : G _) (λ r l, l = [OpReject cb] ∧ is_success r = true).
Proof.
  eapply does_mono; [apply (does_local (OpReject cb) (newRejectedRequest cb) mret (λ r l, l = [] ∧ is_success r = true))|].
  - intros g l. cbn. by destruct (newRejectedRequest cb l) as [[sub l'] ev].
  - intros a e w. exists []. by split; [exists []|].
  - by intros r l (l' & -> & -> & ?).
Qed.

Lemma does_new c sel x cb : does (new_request c sel x cb : G _) (λ r l, l = [OpNew c sel x cb]).
Proof.
  intros e w. exists [(reqgenerator_ w, OpNew c sel x cb)]. split; [|done]. unfold runs, new_request. cbn [local_run local_step].
  destruct (newRequest c sel x cb (reqgenerator_ w) (local_requests_ (impl w))) as [[[r g] l] ev].
  set (w1 := mkWorld _ _ _). pose proof (local_calls_run ev e w1) as (tr & Hc & Htr).
  rewrite !(g_bind_eq _ _ _ _ _ _ _ Hc). exists (ev ++ []).
  destruct r as [ctx| |]; cbn [g_world g_trace fst snd mret gact_ret g_throw]; (split; [done|]); by rewrite !app_nil_r, Htr.
Qed.

(** [l] takes [k] ids for requests of one callback, and is harmless otherwise. *)
Definition takes (c : CID M) (cb : Callback) (k : nat) (l : list op_t) : Prop :=
  Forall (λ o, harmless o ∨ o = OpReject cb ∨ ∃ sel x, o = OpNew c sel x cb) l ∧ sum_list (adds <$> l) = k.

Lemma takes_app c cb k k' l l' : takes c cb k l → takes c cb k' l' → takes c cb (k + k') (l ++ l').
Proof. intros [H1 <-] [H2 <-]. split; [by apply Forall_app|]. rewrite fmap_app. induction (adds <$> l); cbn in *; lia. Qed.

Lemma takes_none c cb l : Forall harmless l → takes c cb 0 l.
Proof.
  intros Hl. split; [eapply Forall_impl; [exact Hl|by left]|]. induction Hl as [|o l [Ho _] _ IH]; [done|]. cbn. by rewrite Ho, IH.
Qed.

Lemma takes_given c cb cb' k l : takes c cb k l → sum_list (given cb' <$> l) = (if bool_decide (cb = cb') then k else 0)%nat.
Proof.
  intros [Hl <-]. induction Hl as [|o l Ho _ IH]; [by destruct (bool_decide _)|]. cbn. rewrite IH.
  destruct Ho as [[Ho _]|[->|(sel & x & ->)]]; [|cbn; by destruct (bool_decide _)..].
  destruct o; try done; cbn; by destruct (bool_decide _).
Qed.

Definition makes {A} c cb (r : outcome stuck A) (l : list op_t) : Prop :=
  ∃ k, takes c cb k l ∧ (k ≤ 1)%nat ∧ (is_success r = true → k = 1%nat).

Lemma makes_none {A} c cb (r : outcome stuck A) l : Forall harmless l → is_success r = false → makes c cb r l.
Proof. intros Hl Hr. exists 0%nat. split; [by apply takes_none|]. split; [lia|]. by rewrite Hr. Qed.

Lemma makes_one {A} c cb (r : outcome stuck A) l : takes c cb 1 l → makes c cb r l.
Proof. intros Hl. by exists 1%nat. Qed.

Lemma makes_after {A B} c cb (m : G A) (f : A → G B) :
  quiet m → (∀ a, does (f a) (makes c cb)) → does (m ≫= f) (makes c cb).
Proof.
  intros Hm Hf. eapply does_bind; [exact Hm| |].
  - intros a l Hl. eapply does_mono; [apply Hf|]. intros r l' (k & Hk & ?). exists k. split; [|done].
    apply (takes_app c cb 0); [by apply takes_none|exact Hk].
  - intros s l Hl. by apply makes_none.
Qed.

Lemma makes_before {A B} c cb (m : G A) (f : A → G B) :
  does m (makes c cb) → (∀ a, quiet (f a)) → does (m ≫= f) (makes c cb).
Proof.
  intros Hm Hf. eapply does_bind; [exact Hm| |].
  - intros a l (k & Hk & ? & H1). eapply does_mono; [apply Hf|]. intros r l' Hl'. exists k. split; [|split; [done|intros _; by apply H1]].
    rewrite <- (Nat.add_0_r k). apply takes_app; [exact Hk|by apply takes_none].
  - intros s l (k & Hk & ? & ?). exists k. split; [exact Hk|done].
Qed.

(** [makeRequest] gives its callback to one operation if it returns, to at most one
    if it does not. *)
Lemma does_make peer address c sel x cb : does (g_makeRequest toString peer address c sel x cb) (makes c cb).
Proof.
  assert (does (reject cb : G _) (makes c cb)) as Hrej.
  { eapply does_mono; [apply does_reject|]. intros r l [-> _]. apply makes_one. split; [repeat constructor; by auto|done]. }
  unfold g_makeRequest. apply makes_after; [quiet|]. intros started. apply makes_after; [quiet|]. intros can.
  destruct (negb can); [exact Hrej|]. apply does_lock; [|by apply makes_none].
  apply makes_after; [quiet|]. intros it. case_match; [apply makes_after; [quiet|done]|]. apply makes_before; [|intros ctx; quiet].
  eapply does_mono; [apply does_new|]. intros r l ->. apply makes_one. split; [|done].
  constructor; [|done]. right. right. by exists sel, x.
Qed.

Lemma does_unsubscribe ticket : does (g_unsubscribe toString ticket)
  (λ _ l, ∃ l', l = OpUnsubscribe ticket :: l' ∧ Forall harmless l').
Proof.
  intros e w. unfold g_unsubscribe, runs. rewrite !g_bind_get. destruct (unsubscribe ticket (local_requests_ (impl w))) as [l ev] eqn:Hu.
  rewrite !g_bind_modify. set (w1 := mkWorld _ _ _).
  assert (quiet (g_for_each ev (λ x, match x with CancelFn i b => cancelLocalRequest toString i b | _ => mret tt end))) as Hq.
  { apply quiet_for_each. intros []; [quiet..|]. apply quiet_call. }
  destruct (Hq e w1) as (ops & Hruns & Hl). destruct Hruns as (levs & Hrun & Hv).
  exists ((new_RequestIdGenerator, OpUnsubscribe ticket) :: ops). split; [|by exists (snd <$> ops)].
  cbn [local_run local_step]. rewrite Hu. change l with (local_requests_ (impl w1)) at 1. rewrite Hrun. exists (ev ++ levs).
  split; [done|]. rewrite visible_app, Hv. unfold unsubscribe in Hu. repeat case_match; by simplify_eq.
Qed.

(** ** The calls of a run *)

(** What a call gives a callback to, whether it makes a request, and whether the
    CID of the request has bytes. *)
Definition fed (cb : Callback) (c : node_call) : nat :=
  match c with Make _ _ _ _ _ cb' => one_if (bool_decide (cb' = cb)) | _ => 0%nat end.
Definition made (c : node_call) : nat := match c with Make _ _ _ _ _ _ => 1%nat | _ => 0%nat end.
Definition drops (c : node_call) : bool := match c with Unsubscribe _ => true | _ => false end.
Definition root_bytes (c : node_call) : Prop :=
  match c with Make _ _ root_cid _ _ _ => is_success (toBytes root_cid) = true | _ => True end.

Record call_ok (c : node_call) (r : outcome stuck unit) (l : list op_t) : Prop := {
  co_adds : (sum_list (adds <$> l) ≤ made c)%nat;
  co_given cb : (sum_list (given cb <$> l) ≤ fed cb c)%nat;
  co_all cb : is_success r = true → sum_list (given cb <$> l) = fed cb c;
  co_bytes : root_bytes c → Forall has_bytes l;
  co_keeps : drops c = false → Forall (λ o, is_unsubscribe o = false) l
}.

Lemma harmless_facts l : Forall harmless l →
  sum_list (adds <$> l) = 0%nat ∧ (∀ cb, sum_list (given cb <$> l) = 0%nat) ∧ Forall has_bytes l ∧ Forall (λ o, is_unsubscribe o = false) l.
Proof.
  induction 1 as [|o l [Ha Hu] _ (IH1 & IH2 & IH3 & IH4)]; [done|]. cbn. rewrite Ha, IH1. split; [done|].
  split; [|split; constructor; try done; by destruct o]. intros cb. rewrite IH2. by destruct o.
Qed.

Lemma quiet_ok c (m : G unit) : (∀ cb, fed cb c = 0%nat) → quiet m → does m (call_ok c).
Proof.
  intros Hc Hm. eapply does_mono; [exact Hm|]. intros r l (Ha & Hg & Hb & Hu)%harmless_facts.
  split; [lia|intros cb; rewrite Hg; lia|intros cb _; by rewrite Hg, Hc|done|done].
Qed.

Lemma quiet_stop : quiet (doStop toString).
Proof.
  unfold doStop. apply quiet_bind; [quiet|]. intros started. destruct (negb started); [quiet|]. do 4 (apply quiet_bind; [quiet|]; intros ?).
  apply (quiet_local_last OpCancelAll); done.
Qed.

Lemma does_call c : does (node_do c) (call_ok c).
Proof.
  destruct c as [| |peer address root sel x cb|ticket| |weak|peer request holder|m]; cbn [node_do].
  - apply quiet_ok; [done|]. apply quiet_start.
  - apply quiet_ok; [done|]. apply quiet_stop.
  - eapply does_mono; [apply makes_before; [apply does_make|intros ?; apply quiet_ret]|]. intros r l (k & Hk & H1 & Hr).
    pose proof (takes_given root cb) as Hg. pose proof Hk as [Hl Ha]. split.
    + by rewrite Ha.
    + intros cb'. rewrite (Hg cb' _ _ Hk). cbn. unfold one_if. destruct (bool_decide _); lia.
    + intros cb' Hs. rewrite (Hg cb' _ _ Hk), (Hr Hs). done.
    + intros Hb. eapply Forall_impl; [exact Hl|]. intros o [[]|[->|(? & ? & ->)]]; [by destruct o|done..].
    + intros _. eapply Forall_impl; [exact Hl|]. by intros o [[]|[->|(? & ? & ->)]].
  - eapply does_mono; [apply does_unsubscribe|]. intros r l (l' & -> & (Ha & Hg & Hb & Hu)%harmless_facts).
    split; cbn; [by rewrite Ha|intros cb; by rewrite Hg|intros cb _; by rewrite Hg|by constructor|done].
  - apply quiet_ok; [done|]. apply quiet_notify.
  - apply quiet_ok; [done|]. apply quiet_cleanup.
  - apply quiet_ok; [done|]. apply quiet_task.
  - apply quiet_ok; [done|]. apply quiet_call.
Qed.

(** A run of the node is a run of its local requests. *)
Lemma node_run_local calls : ∀ w, let '(r, w', ev) := node_run calls w in
  ∃ ops levs, local_run ops (local_requests_ (impl w)) = (local_requests_ (impl w'), levs) ∧ visible levs = local_part ev ∧
    (all_adds ops ≤ sum_list (made ∘ snd <$> calls))%nat ∧
    (∀ cb, all_given cb ops ≤ sum_list (fed cb ∘ snd <$> calls) ∧
      (is_success r = true → all_given cb ops = sum_list (fed cb ∘ snd <$> calls)))%nat ∧
    (Forall (root_bytes ∘ snd) calls → Forall (has_bytes ∘ snd) ops) ∧
    (Forall (λ c, drops c.2 = false) calls → Forall (λ o, is_unsubscribe o.2 = false) ops).
Proof.
  induction calls as [|[e c] calls IH]; intros w; cbn [node_run].
  { exists [], []. by split_and!. }
  destruct (does_call c e w) as (ops & Hruns & Hok). destruct Hruns as (levs & Hrun & Hv).
  assert (∀ f, sum_list (f ∘ snd <$> ops) = sum_list (f <$> (snd <$> ops))) as Hsnd by (intros f; by rewrite <- list_fmap_compose).
  destruct Hok as [Ha Hg Hs Hb Hu]. unfold all_adds, all_given in *. unfold g_world, g_trace, g_result in *.
  destruct (node_do c e w) as [[[[]|s] w1] ev]; cbn in *.
  - specialize (IH w1). destruct (node_run calls w1) as [[r w2] ev2]. destruct IH as (ops2 & levs2 & Hrun2 & Hv2 & Ha2 & Hg2 & Hb2 & Hu2).
    exists (ops ++ ops2), (levs ++ levs2). rewrite local_run_app, Hrun, Hrun2. split; [done|].
    rewrite visible_app, local_part_app, Hv, Hv2. split; [done|].
    assert (∀ f : op_t → nat, sum_list (f ∘ snd <$> ops ++ ops2) = sum_list (f ∘ snd <$> ops) + sum_list (f ∘ snd <$> ops2))%nat as Happ.
    { intros f. rewrite fmap_app. induction (f ∘ snd <$> ops); cbn; lia. }
    split; [rewrite Happ, Hsnd; lia|]. split; [|split].
    + intros cb. rewrite Happ, Hsnd. destruct (Hg2 cb) as [Hle Heq]. specialize (Hs cb eq_refl). split; [lia|]. intros Hr. specialize (Heq Hr). lia.
    + intros [Hc Hcs]%Forall_cons. apply Forall_app. split; [|by apply Hb2]. by apply Forall_fmap, Hb.
    + intros [Hc Hcs]%Forall_cons. apply Forall_app. split; [|by apply Hu2]. specialize (Hu Hc). by apply Forall_fmap in Hu.
  - exists ops, levs. split; [done|]. split; [done|]. split; [rewrite Hsnd; lia|]. split; [|split].
    + intros cb. rewrite Hsnd. specialize (Hg cb). split; [lia|done].
    + intros [Hc Hcs]%Forall_cons. by apply Forall_fmap, Hb.
    + intros [Hc Hcs]%Forall_cons. specialize (Hu Hc). by apply Forall_fmap in Hu.
Qed.

(** A node that runs and is stopped has cancelled everything. *)
Lemma stop_empties e (w : W) : g_started_ (impl w) = true →
  is_success (g_result ((doStop toString : G unit) e w)) = true →
  ∀ cb, outstanding cb (local_requests_ (impl (g_world ((doStop toString : G unit) e w)))) = 0%nat.
Proof.
  intros Hs Hr cb. unfold doStop in *. rewrite g_bind_get, Hs in *. cbn [negb] in *. rewrite g_bind_modify, g_bind_get in *.
  set (stop := call_network toString _) in *. set (w0 := mkWorld _ _ _) in *. destruct (stop e w0) as [[[[]|x] w1] ev] eqn:Hc.
  2: { unfold mbind, gact_bind in Hr. rewrite Hc in Hr. done. }
  rewrite (g_bind_eq _ _ _ _ _ _ _ Hc) in *. unfold g_world, g_result in *. cbn [fst snd] in *. rewrite g_bind_modify, g_bind_get in *.
  destruct (cancelAll _) as [l ev2] eqn:Hl. rewrite g_bind_modify in *.
  match goal with |- context [local_calls ev2 e ?w2] => pose proof (local_calls_run ev2 e w2) as (tr & Ht & _) end.
  rewrite Ht. cbn in *. unfold cancelAll in Hl. injection Hl as <- _. unfold outstanding. cbn. by rewrite !entries_empty.
Qed.

Lemma node_run_app calls e c w : node_run (calls ++ [(e, c)]) w =
  match node_run calls w with
  | (success _, w1, ev) => (g_result (node_do c e w1), g_world (node_do c e w1), ev ++ g_trace (node_do c e w1))
  | stuck => stuck
  end.
Proof.
  revert w. induction calls as [|[e' c'] calls IH]; intros w; cbn [app node_run].
  - unfold g_result, g_world, g_trace. destruct (node_do c e w) as [[[[]|s] w1] ev]; cbn; by rewrite ?app_nil_r.
  - destruct (node_do c' e' w) as [[[[]|s] w1] ev]; [|done]. rewrite IH. destruct (node_run calls w1) as [[[[]|s] w2] ev2]; [|done]. by rewrite app_assoc.
Qed.

(** C2: the progress callbacks of a node.  In any run of a node, over any network,
    each callback is called with a terminal status at most as often as it was given
    to [makeRequest].  When every call of the run returned and no subscription was
    dropped, each use of the callback has been answered or is outstanding; and when
    the node, running, is then stopped and the stop returns, each has been answered
    exactly once. *)
Theorem node_callbacks calls w cb :
  local_requests_ (impl w) = new_LocalRequests → Z.of_nat (sum_list (made ∘ snd <$> calls)) < 2 ^ 31 →
  Forall (root_bytes ∘ snd) calls →
  let given := sum_list (fed cb ∘ snd <$> calls) in
  let '(r, w', ev) := node_run calls w in
  (ended cb (local_part ev) ≤ given)%nat ∧
  (r = success tt → Forall (λ c, drops c.2 = false) calls →
   (ended cb (local_part ev) + outstanding cb (local_requests_ (impl w')) = given)%nat ∧
   ∀ e, g_started_ (impl w') = true →
     let '(stopped, w'', ev') := node_do Stop e w' in
     stopped = success tt → ended cb (local_part (ev ++ ev')) = given ∧ outstanding cb (local_requests_ (impl w'')) = 0%nat).
Proof.
  intros Hnew Hmade Hbytes.
  assert (∀ calls', Z.of_nat (sum_list (made ∘ snd <$> calls')) < 2 ^ 31 → Forall (root_bytes ∘ snd) calls' →
    let '(r, w', ev) := node_run calls' w in
    (ended cb (local_part ev) ≤ sum_list (fed cb ∘ snd <$> calls'))%nat ∧
    (r = success tt → Forall (λ c, drops c.2 = false) calls' →
     ended cb (local_part ev) + outstanding cb (local_requests_ (impl w')) = sum_list (fed cb ∘ snd <$> calls'))%nat) as Hrun.
  { intros calls' Hm Hb. pose proof (node_run_local calls' w) as Hl. destruct (node_run calls' w) as [[r w'] ev].
    destruct Hl as (ops & levs & Hl & Hv & Ha & Hg & Hbs & Hu). rewrite Hnew in Hl.
    pose proof (local_run_spec cb ops 0 new_LocalRequests lr_inv_new ltac:(lia) (Hbs Hb)) as Hs. rewrite Hl in Hs.
    destruct Hs as (_ & Hle & Heq). change (outstanding cb new_LocalRequests) with 0%nat in *.
    rewrite <- (ended_visible _ levs), Hv in *. destruct (Hg cb) as [Hg1 Hg2]. split; [lia|].
    intros -> Hd. specialize (Heq (Hu Hd)). specialize (Hg2 eq_refl). lia. }
  pose proof (Hrun calls Hmade Hbytes) as H1.
  assert (∀ e, let '(r, w', ev) := node_run (calls ++ [(e, Stop)]) w in
    r = success tt → Forall (λ c, drops c.2 = false) calls →
    ended cb (local_part ev) + outstanding cb (local_requests_ (impl w')) = sum_list (fed cb ∘ snd <$> calls))%nat as H2.
  { intros e. specialize (Hrun (calls ++ [(e, Stop)])).
    assert (∀ f : node_call → nat, f Stop = 0%nat → sum_list (f ∘ snd <$> calls ++ [(e, Stop)]) = sum_list (f ∘ snd <$> calls)) as Hsum.
    { intros f Hf. rewrite fmap_app. cbn. rewrite Hf. induction (f ∘ snd <$> calls); cbn; lia. }
    rewrite !Hsum in Hrun by done. specialize (Hrun Hmade ltac:(apply Forall_app; split; [done|by repeat constructor])). destruct (node_run _ w) as [[r w'] ev].
    intros Hr Hd. apply Hrun; [done|]. apply Forall_app. split; [done|by repeat constructor]. }
  cbv zeta. destruct (node_run calls w) as [[r w'] ev] eqn:Hr. destruct H1 as [Hle Heq]. split; [exact Hle|].
  intros -> Hd. split; [by apply Heq|]. intros e Hst. specialize (H2 e). rewrite node_run_app, Hr in H2.
  pose proof (stop_empties e w' Hst) as He. unfold g_result, g_world, g_trace in *. cbn [node_do] in *.
  destruct (doStop toString e w') as [[stopped w''] ev']. cbn [fst snd] in *. intros ->. specialize (H2 eq_refl Hd). specialize (He eq_refl cb). lia.
Qed.

End node.

(** *** Witness *)

Section samples.

Abbreviation SC := Cid.Sample.Multihash.

#[local] Instance no_dag : DagService SC unit := {
  dag_getNode := λ _ _, failure 0;
  dag_select := λ _ _ _, failure 0
}.

Definition quiet_env_ : GEnv (S:=unit) := mkGEnv sample_env tt.
Definition peer_event (h : handler (M:=SC)) : node_call (M:=SC) (N:=Network) (F:=net_effect SC) :=
  NetworkEvent (λ e n, let '(_, n, ev) := on_peer peer_one (handle h) e n in (tt, n, ev)).

(** Three requests: the second is for a CID in progress and is rejected; the first
    ends with the stream, the third is awaited when the node stops. *)
Definition sample_calls : list (GEnv (S:=unit) * node_call (M:=SC) (N:=Network) (F:=net_effect SC)) :=
  (λ c, (quiet_env_, c)) <$>
  [Start; Make peer_one None (Cid.Sample.cid_v1 5) [] [] 10;
   peer_event (H_streamConnected (Some 20)); peer_event (H_windowAdjusted 20 true); peer_event (H_written 20 (success 2));
   Make peer_one None (Cid.Sample.cid_v1 5) [] [] 11; NotifyTimer;
   peer_event (H_readerEvent (Some 20) (failure (graphsync_error MESSAGE_READ_ERROR)));
   Make [7] None (Cid.Sample.cid_v1 6) [] [] 12].

Definition sample_start : World (M:=SC) (N:=Network) :=
  mkWorld (new_GraphsyncImpl (F:=net_effect SC) 1).1 new_Network new_RequestIdGenerator.

Lemma node_callbacks_witness :
  let '(r, w', ev) := node_run print_cid sample_calls sample_start in
  r = success tt ∧ ended 11 (local_part ev) = 1%nat ∧ outstanding 12 (local_requests_ (impl w')) = 1%nat ∧
  let '(stopped, _, ev') := node_do print_cid Stop quiet_env_ w' in
  stopped = success tt ∧ ended 12 (local_part (ev ++ ev')) = 1%nat.
Proof.
  pose proof (node_callbacks print_cid sample_calls sample_start 12 eq_refl ltac:(vm_compute; reflexivity)
    ltac:(repeat constructor)) as H12.
  assert ((node_run print_cid sample_calls sample_start).1.1 = success tt) as Hr by (vm_compute; reflexivity).
  assert (ended 11 (local_part (node_run print_cid sample_calls sample_start).2) = 1%nat) as H11 by (vm_compute; reflexivity).
  assert (ended 12 (local_part (node_run print_cid sample_calls sample_start).2) = 0%nat) as H0 by (vm_compute; reflexivity).
  assert (g_started_ (impl (node_run print_cid sample_calls sample_start).1.2) = true) as Hs by (vm_compute; reflexivity).
  assert ((node_do print_cid Stop quiet_env_ (node_run print_cid sample_calls sample_start).1.2).1.1 = success tt) as Hst
    by (vm_compute; reflexivity).
  destruct (node_run print_cid sample_calls sample_start) as [[r w'] ev]. cbn [fst snd] in *.
  destruct H12 as [_ H12]. destruct (H12 Hr ltac:(repeat constructor)) as [Hout Hstop]. specialize (Hstop quiet_env_ Hs).
  destruct (node_do print_cid Stop quiet_env_ w') as [[stopped w''] ev']. cbn [fst snd] in *.
  split; [exact Hr|]. split; [exact H11|]. split; [rewrite H0 in Hout; exact Hout|]. split; [exact Hst|]. exact (proj1 (Hstop Hst)).
Defined.

End samples.
