(* ===== verification/NodeReturns.v ===== *)
(** What can keep a call of a node from returning.

    A call of a node ends in one of three ways: it returns; it throws, and the mutex
    is free again; or its thread locks the mutex it holds.  The theorem says which
    calls can do the latter two, and when: over any network, and for any functions of
    libp2p, of which none is taken to succeed. *)
From stdpp Require Import base numbers countable list gmap strings.
From S2P Require Import Prelude Cid Status MessageQueue Marshalling InboundEndpoint LocalRequests PeerContext.
From S2P Require Import PeerProofs Network Graphsync Node.

Open Scope Z_scope.

Create HintDb returns.

Section returns.
Context {M N F S : Type} `{!EqDecision M, !Countable M, !Multiformats M, !Protobuf}.
Context `{!NetworkOps M N F, !DagService M S}.
Context (toString : CID M → outcome Z string).

Abbreviation G := (gact (M:=M) (N:=N) (F:=F) (S:=S)).
Abbreviation W := (World (M:=M) (N:=N)).
Abbreviation ev_t := (event (M:=M) (F:=F)).

(** ** The CIDs a call prints *)

(** The root CIDs of the requests an object made. *)
Definition known (g : GraphsyncImpl (M:=M)) (c : CID M) : Prop :=
  (∃ i, getRequestRootCid i (local_requests_ g) = Some c) ∨ is_Some (tracked_requests_ g !! c).

(** The CIDs of the blocks that the network passed to object [me]. *)
Definition received (me : Z) (ev : list ev_t) (c : CID M) : Prop :=
  ∃ f from root cid d, NetEffect f ∈ ev ∧ op_feedback me f = Some (FB_onBlock from root cid d) ∧ (c = root ∨ c = cid).

Lemma received_app_l me a b c : received me a c → received me (a ++ b) c.
Proof. intros (f & from & root & cid & d & Hin & Hx). exists f, from, root, cid, d. split; [apply elem_of_app; by left|done]. Qed.
Lemma received_app_r me a b c : received me b c → received me (a ++ b) c.
Proof. intros (f & from & root & cid & d & Hin & Hx). exists f, from, root, cid, d. split; [apply elem_of_app; by right|done]. Qed.

(** ** Actions that end *)

Section actions.
(** The CIDs the object may know, and the object. *)
Context (K : CID M → Prop) (me : Z).

Definition fits (w : W) : Prop := self (impl w) = me ∧ ∀ c, known (impl w) c → K c.

(** A CID without text: one of those known, of those in [B] or of those received. *)
Definition no_text (B : CID M → Prop) (ev : list ev_t) : Prop :=
  ∃ c, is_success (toString c) = false ∧ (K c ∨ B c ∨ received me ev c).

(** The result of an action run from [w]: the mutex is as before, unless the thread
    is stuck; and it fails as [P] says or at a CID without text. *)
Definition ends_from {A} (B : CID M → Prop) (w : W) (P : stuck → Prop) (r : outcome stuck A * W * list ev_t) : Prop :=
  match r with
  | (success _, w', _) => locked (impl w') = locked (impl w) ∧ fits w'
  | (failure s, w', ev) => (s = Exception → locked (impl w') = locked (impl w)) ∧ (P s ∨ (s = Exception ∧ no_text B ev))
  end.

(** From any state of the mutex in [L]. *)
Definition ends {A} (B : CID M → Prop) (L : bool → Prop) (P : stuck → Prop) (m : G A) : Prop :=
  ∀ e w, L (locked (impl w)) → fits w → ends_from B w P (m e w).

Lemma ends_mono {A} B (L L' : bool → Prop) (P P' : stuck → Prop) (m : G A) :
  ends B L P m → (∀ b, L' b → L b) → (∀ s, P s → P' s) → ends B L' P' m.
Proof.
  intros Hm HL HP e w Hw Hf. specialize (Hm e w (HL _ Hw) Hf). unfold ends_from in *. destruct (m e w) as [[[]]]; [done|].
  destruct Hm as [? [?|?]]; split; auto.
Qed.

Lemma ends_bind {A B} D L P (m : G A) (f : A → G B) : ends D L P m → (∀ a, ends D L P (f a)) → ends D L P (m ≫= f).
Proof.
  intros Hm Hf e w Hw Hfit. specialize (Hm e w Hw Hfit). unfold ends_from, mbind, gact_bind in *.
  destruct (m e w) as [[[a|s] w1] ev]; [|done]. destruct Hm as [Hl Hfit1].
  specialize (Hf a e w1 ltac:(by rewrite Hl) Hfit1). unfold ends_from in Hf. destruct (f a e w1) as [[[b|s] w2] ev2]; rewrite Hl in Hf; [done|].
  destruct Hf as [H1 H2]. split; [done|]. destruct H2 as [?|[-> (c & Hc & Hin)]]; [by left|right]. split; [done|]. exists c. split; [done|].
  destruct Hin as [?|[?|?]]; [by left|by right; left|right; right; by apply received_app_r].
Qed.

Lemma ends_ret {A} B L P (a : A) : ends B L P (mret a).
Proof. by intros e w _. Qed.
Lemma ends_get {A} B L P (f : GraphsyncImpl → A) : ends B L P (g_get f).
Proof. by intros e w _. Qed.
Lemma ends_env {A} B L P (f : GEnv → A) : ends B L P (g_env f).
Proof. by intros e w _. Qed.
Lemma ends_now B L P : ends B L P now_.
Proof. apply ends_env. Qed.
Lemma ends_emit B L P x : ends B L P (g_emit x).
Proof. by intros e w _. Qed.
Lemma ends_generator {A} B L P (f : RequestIdGenerator → A * RequestIdGenerator) : ends B L P (g_generator f).
Proof. intros e w _ Hf. unfold ends_from, g_generator. by destruct (f _). Qed.
Lemma ends_log B L P c : K c ∨ B c → ends B L P (log_cid toString c).
Proof.
  intros Hc e w _ Hf. unfold log_cid. destruct (is_success (toString c)) eqn:Ht; [by split|]. split; [done|right]. split; [done|].
  exists c. split; [done|]. destruct Hc; auto.
Qed.
Lemma ends_for_each {A} B L P (l : list A) f : (∀ x, x ∈ l → ends B L P (f x)) → ends B L P (g_for_each l f).
Proof.
  induction l as [|x l IH]; intros Hf; [apply ends_ret|]. apply ends_bind; [apply Hf; left|]. intros _. apply IH. intros y Hy. apply Hf. by right.
Qed.
Lemma ends_local_calls B L P ev : ends B L P (local_calls ev).
Proof. apply ends_for_each. intros [] _; first [apply ends_emit|apply ends_ret]. Qed.

(** What is read satisfies [Q]. *)
Lemma ends_read {A R} B L P (g : GraphsyncImpl → A) (Q : A → Prop) (f : A → G R) :
  (∀ x, (∀ c, known x c → K c) → Q (g x)) → (∀ a, Q a → ends B L P (f a)) → ends B L P (g_get g ≫= f).
Proof. intros Hg Hf e w Hw Hfit. rewrite g_bind_get. apply Hf; [apply Hg, Hfit|done..]. Qed.

(** A change that makes no other CID known. *)
Lemma ends_modify B L P (f : GraphsyncImpl (M:=M) → GraphsyncImpl (M:=M)) :
  (∀ g, self (f g) = self g ∧ locked (f g) = locked g ∧ ∀ c, known (f g) c → known g c ∨ K c) → ends B L P (g_modify f).
Proof.
  intros Hf e w _ [Hs Hk]. destruct (Hf (impl w)) as (H1 & H2 & H3). split; [done|]. split; [by rewrite <- Hs|].
  intros c [Hc|Hc]%H3; [by apply Hk|done].
Qed.

Lemma ends_started B L P b : ends B L P (g_modify (set_started b)).
Proof. apply ends_modify. intros g. split_and!; try done. by left. Qed.
Lemma ends_track B L P c info : K c → ends B L P (g_modify (λ g, set_tracked (<[c := info g]> (tracked_requests_ g)) g)).
Proof.
  intros Hc. apply ends_modify. intros g. split_and!; try done. intros c' [Hx|Hx]; [by left; left|]. cbn in Hx.
  apply lookup_insert_is_Some in Hx as [<-|[_ Hx]]; [by right|left; by right].
Qed.
Lemma ends_forget B L P c : ends B L P (g_modify (λ g, set_tracked (delete c (tracked_requests_ g)) g)).
Proof.
  apply ends_modify. intros g. split_and!; try done. intros c' [Hx|Hx]; [by left; left|]. left. right. cbn in Hx.
  by apply lookup_delete_is_Some in Hx as [_ Hx].
Qed.
Lemma ends_clear B L P : ends B L P (g_modify (set_tracked ∅)).
Proof. apply ends_modify. intros g. split_and!; try done. intros c' [Hx|Hx]; [by left; left|]. cbn in Hx. rewrite lookup_empty in Hx. by destruct Hx. Qed.

(** Operations of the local requests keep what they know. *)
Definition roots_in (l : LocalRequests M) : Prop := ∀ i c, request_to_cid_ l !! i = Some c → K c.

Lemma ends_local B L P l : roots_in l → ends B L P (g_modify (set_local l)).
Proof.
  intros Hl. apply ends_modify. intros g. split_and!; try done. intros c [[i Hi]|Hx]; [right; by apply (Hl i)|left; by right].
Qed.

Lemma ends_read_local {R} B L P (f : LocalRequests M → G R) : (∀ l, roots_in l → ends B L P (f l)) → ends B L P (g_get local_requests_ ≫= f).
Proof. intros Hf. eapply ends_read; [|exact Hf]. intros x Hx i c Hc. apply Hx. left. by exists i. Qed.

(** A body that runs under the mutex. *)
Lemma lock_from {A} B P (m : G A) e w : locked (impl w) = false →
  ends_from B (lock_of true w) P (m e (lock_of true w)) → ends_from B w P (with_lock m e w).
Proof.
  intros Hw Hm. unfold with_lock. rewrite Hw. fold (lock_of true w). unfold ends_from in *. rewrite Hw.
  destruct (m e (lock_of true w)) as [[[a|[]] w1] ev].
  - destruct Hm as [_ Hf]. split; [done|exact Hf].
  - destruct Hm as [_ Hm]. by split.
  - destruct Hm as [_ Hm]. by split.
Qed.

Lemma ends_lock {A} B P (m : G A) : ends B (λ b, b = true) P m → ends B (λ b, b = false) P (with_lock m).
Proof. intros Hm e w Hw Hf. apply lock_from; [done|]. by apply Hm. Qed.

(** A thread that holds the mutex. *)
Lemma ends_locked {A} B (P : stuck → Prop) (m : G A) : P Deadlock → ends B (λ b, b = true) P (with_lock m).
Proof. intros HP e w Hw _. unfold with_lock. rewrite Hw. split; [done|by left]. Qed.

#[local] Hint Resolve ends_ret ends_get ends_env ends_now ends_emit ends_started ends_track ends_forget ends_clear ends_local ends_generator
  ends_local_calls : returns.
#[local] Hint Extern 1 (ends _ _ _ (log_cid _ _)) => apply ends_log; by auto : returns.
#[local] Hint Extern 1 (roots_in _) => eassumption : returns.
#[local] Ltac returns :=
  repeat first
    [ solve [eauto with returns]
    | apply ends_read_local; intros ? ?
    | apply ends_bind; [|intros ?]
    | apply ends_lock
    | apply ends_for_each; intros ? _
    | case_match ].

(** ** Feedback *)

Lemma onResponse_body B L P c (st : ResponseStatusCode) : K c → ends B L P (
  it ← g_get (λ g, tracked_requests_ g !! c);
  n ← now_;
  match it with
  | None => log_cid toString c
  | Some info =>
      _ ← g_modify (λ g, set_tracked (<[c := track_response st n info]> (tracked_requests_ g)) g);
      if bool_decide (st = RS_FULL_CONTENT ∧ state info = FAILED) then mret tt else log_cid toString c
  end).
Proof. intros Hc. returns. Qed.

Lemma local_onResponse_roots i st x l : roots_in l → roots_in (local_onResponse i st x l).1.
Proof. intros Hl. unfold local_onResponse. by repeat case_match. Qed.

Lemma ends_onResponse B L P i st x : (∀ m : G unit, ends B (λ b, b = true) P m → ends B L P (with_lock m)) →
  ends B L P (g_onResponse toString i st x).
Proof.
  intros Hlock. unfold g_onResponse. apply ends_bind; [returns|]. intros [|]; cbn [negb]; [|returns].
  apply (ends_read _ _ _ _ (λ o, ∀ c, o = Some c → K c)); [intros g Hg c Hc; apply Hg; left; by exists i|]. intros o Ho.
  apply ends_bind; [destruct o as [c|]; [by apply Hlock, onResponse_body, Ho|returns]|]. intros _.
  apply ends_read_local. intros l Hl. pose proof (local_onResponse_roots i st x l Hl). destruct (local_onResponse i st x l) as [l' ev]. returns.
Qed.

Definition block_cids (root cid : CID M) (c : CID M) : Prop := c = root ∨ c = cid.

Lemma returns_onBlock P root c d : ends (block_cids root c) (λ b, b = false) P (g_onBlock toString root c d).
Proof.
  unfold g_onBlock. apply ends_bind; [apply ends_log; right; by right|]. intros _. apply ends_bind; [returns|]. intros [|]; cbn [negb]; [|returns].
  assert (∀ L P o, (is_Some o → K root) → ends (block_cids root c) L P (n ← now_; match o : option RequestTrackingInfo with
    | None => _ ← log_cid toString root; mret None
    | Some info => _ ← g_modify (λ g, set_tracked (<[root := mkTracking (state info) (tracked_id info) n (start_time info)]> (tracked_requests_ g)) g);
        mret (Some (bool_decide (state info = IN_PROGRESS))) end)) as Hbody.
  { intros L P' o Ho. apply ends_bind; [apply ends_now|]. intros n. destruct o as [info|].
    - apply ends_bind; [|intros; apply ends_ret]. apply ends_track, Ho. by eexists.
    - apply ends_bind; [|intros; apply ends_ret]. apply ends_log. right. by left. }
  apply ends_bind.
  { apply ends_lock. apply (ends_read _ _ _ _ (λ o, is_Some o → K root)); [intros g Hg Ho; apply Hg; by right|]. apply Hbody. }
  intros [should|]; [|returns]. apply ends_bind; [returns|]. intros _. destruct (negb should); [returns|]. apply ends_lock.
  apply (ends_read _ _ _ _ (λ o, is_Some o → K root)); [intros g Hg Ho; apply Hg; by right|]. intros [[[] i a st]|] Ho; try apply ends_ret.
  apply ends_bind; [apply ends_track, Ho; by eexists|]. intros _. apply ends_log. right. by left.
Qed.

(** Under the mutex. *)
Lemma held_onBlock P root c d : P Deadlock → ends (block_cids root c) (λ b, b = true) P (g_onBlock toString root c d).
Proof.
  intros HP. unfold g_onBlock. apply ends_bind; [apply ends_log; right; by right|]. intros _. apply ends_bind; [returns|]. intros [|]; cbn [negb]; [|returns].
  apply ends_bind; [by apply ends_locked|]. intros [should|]; [|returns]. apply ends_bind; [returns|]. intros _. destruct (negb should); [returns|].
  by apply ends_locked.
Qed.

Lemma ends_onRemoteRequest from r B L P : ends B L P (g_onRemoteRequest from r).
Proof. unfold g_onRemoteRequest. returns. Qed.

(** The effect is a call that locks the mutex. *)
Definition calls_back (f : F) : Prop :=
  match op_feedback me f with Some (FB_onResponse _ _ _ _) | Some (FB_onBlock _ _ _ _) => True | _ => False end.

(** What an effect does to the object. *)
Definition follow_effect (f : F) : G unit :=
  _ ← g_emit (NetEffect f); me ← g_get self; match op_feedback me f with Some c => on_feedback toString c | None => mret tt end.

Lemma follow_ends B L P f e w : L (locked (impl w)) → fits w →
  (∀ i st x, (∃ from, op_feedback me f = Some (FB_onResponse from i st x)) → ends B L P (g_onResponse toString i st x)) →
  (∀ root c d, (∃ from, op_feedback me f = Some (FB_onBlock from root c d)) → ends (block_cids root c) L P (g_onBlock toString root c d)) →
  ends_from B w P (follow_effect f e w).
Proof.
  intros Hw Hf Hr Hb. unfold follow_effect. erewrite g_bind_eq by reflexivity. rewrite g_bind_get, (proj1 Hf).
  assert (∀ D (m : G unit), ends D L P m → (∀ c, D c → B c ∨ received me [NetEffect f] c) →
    ends_from B w P (g_result (m e w), g_world (m e w), [NetEffect f] ++ g_trace (m e w))) as Hgo.
  { intros D m Hm HD. specialize (Hm e w Hw Hf). unfold ends_from, g_result, g_world, g_trace in *. destruct (m e w) as [[[a|s] w1] ev]; [done|]. cbn [fst snd].
    destruct Hm as [H1 [H2|[-> (c & Hc & Hin)]]]; (split; [done|]); [by left|right]. split; [done|]. exists c. split; [done|].
    destruct Hin as [?|[?|?]]; [by left| |right; right; by apply (received_app_r _ [NetEffect f])].
    destruct (HD c) as [?|?]; [done|by right; left|right; right; by apply (received_app_l _ [NetEffect f])]. }
  destruct (op_feedback me f) as [[from i st x|from root c d|from r]|] eqn:Hop; cbn [on_feedback].
  - apply (Hgo B); [apply Hr; by eexists|by left].
  - apply (Hgo (block_cids root c)); [apply Hb; by eexists|]. intros c' Hc'. right. exists f, from, root, c, d. split; [left|]. by split.
  - apply (Hgo B); [apply ends_onRemoteRequest|by left].
  - apply (Hgo B (mret tt)); [apply ends_ret|by left].
Qed.

Lemma dispatch_cons f l : dispatch toString (f :: l) = follow_effect f ≫= λ _, dispatch toString l.
Proof. reflexivity. Qed.

Lemma returns_dispatch B P l : ends B (λ b, b = false) P (dispatch toString l : G unit).
Proof.
  induction l as [|f l IH]; [apply ends_ret|]. rewrite dispatch_cons. apply ends_bind; [|by intros _]. intros e w Hw Hf.
  apply (follow_ends B (λ b, b = false)); [done|done| |].
  - intros i st x _. apply ends_onResponse. apply ends_lock.
  - intros root c d _. apply returns_onBlock.
Qed.

(** Under the mutex, a thread is stuck only if an effect calls back. *)
Lemma held_dispatch B l : ends B (λ b, b = true) (λ s, s = Deadlock ∧ Exists calls_back l) (dispatch toString l : G unit).
Proof.
  induction l as [|f l IH]; [apply ends_ret|]. rewrite dispatch_cons. apply ends_bind.
  2: { intros _. eapply ends_mono; [exact IH|done|]. intros s [-> HE]. split; [done|by right]. }
  intros e w Hw Hf. apply (follow_ends B (λ b, b = true)); [done|done| |].
  - intros i st x [from Hop]. apply ends_onResponse. intros m _. apply ends_locked. split; [done|]. left. unfold calls_back. by rewrite Hop.
  - intros root c d [from Hop]. apply held_onBlock. split; [done|]. left. unfold calls_back. by rewrite Hop.
Qed.

Lemma dispatch_call {A} B L P (m : Env → N → A * N * list F) : (∀ e w, ends B L P (dispatch toString (m e w).2 : G unit)) →
  ends B L P (call_network toString m : G A).
Proof.
  intros Hd e w Hw Hf. unfold call_network. specialize (Hd (base_env e) (network_ w)). destruct (m (base_env e) (network_ w)) as [[a n] ev]. cbn [snd] in Hd.
  assert (ends B L P (_ ← dispatch toString ev; mret a)) as Hd' by (apply ends_bind; [exact Hd|returns]).
  exact (Hd' e (mkWorld (impl w) n (reqgenerator_ w)) Hw Hf).
Qed.

Lemma ends_call {A} B P (m : Env → N → A * N * list F) : ends B (λ b, b = false) P (call_network toString m : G A).
Proof. apply dispatch_call. intros e w. apply returns_dispatch. Qed.

(** What the network does on a call from [w]. *)
Definition network_calls {A} (m : Env → N → A * N * list F) (e : GEnv (S:=S)) (w : W) : list F :=
  (m (base_env e) (network_ w)).2.

Lemma held_call {A} B (m : Env → N → A * N * list F) e w : locked (impl w) = true → fits w →
  ends_from B w (λ s, s = Deadlock ∧ Exists calls_back (network_calls m e w)) ((call_network toString m : G A) e w).
Proof.
  intros Hw Hf. unfold call_network, network_calls. destruct (m (base_env e) (network_ w)) as [[a n] ev]. cbn [snd].
  assert (ends B (λ b, b = true) (λ s, s = Deadlock ∧ Exists calls_back ev) (_ ← dispatch toString ev; mret a)) as Hd
    by (apply ends_bind; [apply held_dispatch|returns]).
  exact (Hd e (mkWorld (impl w) n (reqgenerator_ w)) Hw Hf).
Qed.
#[local] Hint Resolve ends_call : returns.

(** ** The operations *)

Lemma cancelAll_roots l : roots_in l → roots_in (cancelAll l).1.
Proof. done. Qed.
Lemma notify_roots l : roots_in l → roots_in (onNotifyTimer l).1.
Proof. done. Qed.
Lemma unsubscribe_roots t l : roots_in l → roots_in (unsubscribe t l).1.
Proof. intros Hl. unfold unsubscribe. by repeat case_match. Qed.
Lemma rejected_roots cb l : roots_in l → roots_in (newRejectedRequest cb l).1.2.
Proof. intros Hl. unfold newRejectedRequest. by repeat case_match. Qed.
#[local] Hint Resolve local_onResponse_roots cancelAll_roots notify_roots unsubscribe_roots rejected_roots : returns.

Lemma returns_start B P : ends B (λ b, b = false) P (g_start toString : G unit).
Proof. unfold g_start. returns. Qed.

Lemma returns_stop B P : ends B (λ b, b = false) P (doStop toString : G unit).
Proof.
  unfold doStop. apply ends_bind; [returns|]. intros [|]; cbn [negb]; [|returns]. do 4 (apply ends_bind; [returns|]; intros ?). apply ends_read_local. intros l Hl.
  pose proof (cancelAll_roots l Hl). destruct (cancelAll l) as [l' ev]. returns.
Qed.

Lemma returns_unsubscribe B P t : ends B (λ b, b = false) P (g_unsubscribe toString t : G unit).
Proof.
  unfold g_unsubscribe, cancelLocalRequest. apply ends_read_local. intros l Hl. pose proof (unsubscribe_roots t l Hl).
  destruct (unsubscribe t l) as [l' ev]. returns.
Qed.

Lemma returns_notify B L P : ends B L P (g_onNotifyTimer : G unit).
Proof.
  unfold g_onNotifyTimer. apply ends_read_local. intros l Hl. pose proof (notify_roots l Hl). destruct (onNotifyTimer l) as [l' ev]. returns.
Qed.

Lemma ends_cleanup_one B L P n c info : K c → ends B L P (cleanup_one toString n (c, info) : G unit).
Proof.
  intros Hc. unfold cleanup_one. destruct (negb _); [returns|]. destruct (stalled n info); [|returns]. apply ends_bind; [returns|]. intros _.
  apply ends_read_local. intros l Hl. pose proof (local_onResponse_roots (tracked_id info) RS_TIMEOUT [] l Hl).
  destruct (local_onResponse _ _ _ l) as [l' ev]. returns.
Qed.

Lemma returns_cleanup B P weak : ends B (λ b, b = false) P (onCleanupTimer toString weak : G unit).
Proof.
  unfold onCleanupTimer, cleanupOldRequests. destruct weak; [|returns]. apply ends_lock, ends_bind; [returns|]. intros n.
  apply (ends_read _ _ _ _ (λ l : list (CID M * RequestTrackingInfo), ∀ en, en ∈ l → K en.1)).
  - intros g Hg [c info] Hin%elem_of_map_to_list. apply Hg. right. by eexists.
  - intros entries Hen. apply ends_bind; [|intros; returns]. apply ends_for_each. intros [c info] Hin. by apply ends_cleanup_one, (Hen (c, info)).
Qed.

(** *** The task of a remote request *)

Lemma ends_call_bind {A R} B P (m : Env → N → A * N * list F) (f : A → G R) :
  (∀ e n, ends B (λ b, b = false) P (f (m e n).1.1)) → ends B (λ b, b = false) P (call_network toString m ≫= f).
Proof.
  intros Hf e w Hw Hfit. pose proof (ends_call B P m e w Hw Hfit) as Hc. unfold ends_from, mbind, gact_bind in *.
  destruct ((call_network toString m : G A) e w) as [[[a|s] w1] ev] eqn:Hr; [|done]. destruct Hc as [Hl Hfit1].
  assert (a = (m (base_env e) (network_ w)).1.1) as ->.
  { unfold call_network, mbind, gact_bind in Hr. destruct (m _ _) as [[a' n] fs]. destruct ((dispatch toString fs : G unit) e _) as [[[[]|s] w2] ev2]; [|done].
    cbn in Hr. by simplify_eq. }
  specialize (Hf (base_env e) (network_ w) e w1 ltac:(by rewrite Hl) Hfit1). unfold ends_from in Hf. rewrite Hl in Hf.
  destruct (f _ e w1) as [[[b|s] w2] ev2]; [done|]. destruct Hf as [H1 [H2|[-> (c & Hc & Hin)]]]; (split; [done|]); [by left|right].
  split; [done|]. exists c. split; [done|]. destruct Hin as [?|[?|?]]; [by left|by right; left|right; right; by apply received_app_r].
Qed.

(** The exception of the task: the network threw when it got a block. *)
Definition block_throws (peer : PeerId) (rid : RequestId) (s : stuck) : Prop :=
  s = Exception ∧ ∃ cid data e n, (op_addBlockToResponse peer rid cid data e n).1.1 = thrown.

Lemma task_hand_over B peer rid nodes : ∀ n, ends B (λ b, b = false) (block_throws peer rid) (hand_over toString peer rid nodes n : G _).
Proof.
  induction nodes as [|[c d] nodes IH]; intros n; cbn [hand_over]; [returns|]. case_match; [apply IH|].
  apply ends_bind; [apply ends_call|]. intros _. apply ends_call_bind. intros e n'.
  destruct (op_addBlockToResponse peer rid c d e n').1.1 as [[]| |] eqn:Ht; [apply IH|returns|returns|].
  intros e' w _ _. split; [done|]. left. split; [done|]. by exists c, d, e, n'.
Qed.

Lemma task_throws B peer request holder : ends B (λ b, b = false) (block_throws peer (id request)) (remote_task toString peer request holder : G unit).
Proof.
  unfold remote_task, select_nodes, answer, update_generator.
  repeat first [solve [eauto with returns]|apply task_hand_over|apply ends_bind; [|intros ?]|case_match].
Qed.

(** *** [makeRequest] *)

(** Only a call of the network changes it. *)
Definition keeps {A} (m : G A) : Prop := ∀ e w, network_ (g_world (m e w)) = network_ w.

Lemma keeps_bind {A B} (m : G A) (f : A → G B) : keeps m → (∀ a, keeps (f a)) → keeps (m ≫= f).
Proof.
  intros Hm Hf e w. specialize (Hm e w). unfold g_world, mbind, gact_bind in *. destruct (m e w) as [[[a|s] w1] ev]; [|done].
  specialize (Hf a e w1). unfold g_world in Hf. destruct (f a e w1) as [[r w2] ev2]. cbn in *. congruence.
Qed.

Lemma keeps_lock {A} (m : G A) : keeps m → keeps (with_lock m).
Proof.
  intros Hm e w. unfold g_world, with_lock. destruct (locked (impl w)); [done|]. specialize (Hm e (lock_of true w)). unfold g_world, lock_of in Hm.
  destruct (m e _) as [[[a|[]] w1] ev]; exact Hm.
Qed.

Lemma keeps_log c : keeps (log_cid toString c).
Proof. unfold log_cid. by destruct (is_success _). Qed.

Lemma keeps_for_each {A} (l : list A) f : (∀ x, keeps (f x)) → keeps (g_for_each l f).
Proof. intros Hf. induction l as [|x l IH]; [done|]. by apply keeps_bind. Qed.

Lemma keeps_dispatch l : keeps (dispatch toString l).
Proof.
  unfold dispatch, on_feedback, g_onResponse, g_onBlock, g_onRemoteRequest, local_calls.
  repeat first [done|apply keeps_bind; [|intros ?]|apply keeps_lock|apply keeps_log|apply keeps_for_each; intros ?|case_match].
Qed.

(** A call of the network leaves the network as the call leaves it. *)
Lemma call_keeps {A} (m : Env → N → A * N * list F) e (w : W) :
  network_ (g_world ((call_network toString m : G A) e w)) = (m (base_env e) (network_ w)).1.2.
Proof.
  unfold call_network. destruct (m (base_env e) (network_ w)) as [[a n] fs].
  assert (keeps (_ ← dispatch toString fs; mret a)) as Hk by (apply keeps_bind; [apply keeps_dispatch|done]).
  exact (Hk e (mkWorld (impl w) n (reqgenerator_ w))).
Qed.

Lemma ends_reject B L P cb : ends B L P (reject cb : G _).
Proof.
  unfold reject. apply ends_read_local. intros l Hl. pose proof (rejected_roots cb l Hl). destruct (newRejectedRequest cb l) as [[sub l'] ev]. returns.
Qed.

(** A new request throws exactly when its CID has no bytes. *)
Lemma new_step c sel x cb e (w : W) : K c → fits w →
  match toBytes c with
  | success _ => ∃ ctx w' ev, (new_request c sel x cb : G _) e w = (success ctx, w', ev) ∧
      locked (impl w') = locked (impl w) ∧ fits w' ∧ network_ w' = network_ w
  | failure _ => ∃ w' ev, (new_request c sel x cb : G _) e w = (failure Exception, w', ev) ∧ locked (impl w') = locked (impl w)
      ∨ ∃ ctx, (new_request c sel x cb : G _) e w = (success ctx, w', ev) ∧ locked (impl w') = locked (impl w) ∧ fits w' ∧ network_ w' = network_ w
  end.
Proof.
  intros Hc [Hs Hf]. unfold new_request. destruct (newRequest c sel x cb (reqgenerator_ w) (local_requests_ (impl w))) as [[[r g] l] ev] eqn:Hn.
  assert (∀ i c', request_to_cid_ l !! i = Some c' → K c') as Hl.
  { intros i c'. unfold newRequest, reject_new, newRejectedRequest in Hn. destruct (nextRequestId _ _) as [j g'].
    assert (∀ i c', request_to_cid_ (local_requests_ (impl w)) !! i = Some c' → K c') as H0 by (intros i' c'' Hi; apply Hf; left; by exists i').
    repeat case_match; simplify_eq; cbn; try apply H0. intros [[_ <-]|[_ Hi]]%lookup_insert_Some; [done|by apply (H0 i)]. }
  destruct (local_calls_run (F:=F) ev e (mkWorld (set_local l (impl w)) (network_ w) g)) as (tr & Hlc & _).
  assert (fits (mkWorld (set_local l (impl w)) (network_ w) g)) as Hfit.
  { split; [done|]. intros c' [[i Hi]|Hx]; [by apply (Hl i)|apply Hf; by right]. }
  destruct (toBytes c) as [b|err] eqn:Hb.
  - assert (∃ ctx, r = returned ctx) as [ctx ->].
    { unfold newRequest, addRequest, reject_new in Hn. rewrite Hb in Hn. repeat case_match; simplify_eq; by eexists. }
    rewrite (g_bind_eq _ _ _ _ _ _ _ Hlc). by do 3 eexists.
  - destruct r as [ctx|err'|]; rewrite (g_bind_eq _ _ _ _ _ _ _ Hlc); do 2 eexists; [right; by eexists|left; by split..].
Qed.

(** A request as [newRequest] makes it. *)
Definition request_of (c : CID M) (sel : bytes) (x : list Extension) (cb : Callback) (ctx : NewRequest) : Prop :=
  ∃ gen l g' l' ev, newRequest c sel x cb gen l = (returned ctx, g', l', ev).

(** The network calls back while it sends the request. *)
Definition called_back peer address c sel x cb (e : GEnv (S:=S)) (n : N) : Prop :=
  ∃ ctx, request_of c sel x cb ctx ∧ 0 < request_id ctx ∧
    Exists calls_back (op_makeRequest peer address (request_id ctx) (body ctx) (base_env e) n).2.

(** How [makeRequest] of [c] fails in network state [n]: the request was recorded,
    and the network got it and called back; or its CID has no bytes. *)
Definition make_fails (peer : PeerId) (address : option (list string)) (c : CID M) (sel : bytes) (x : list Extension) (cb : Callback)
    (e : GEnv (S:=S)) (n : N) (s : stuck) : Prop :=
  (s = Deadlock ∧ called_back peer address c sel x cb e (op_canSendRequest peer (base_env e) n).1.2) ∨
  (s = Exception ∧ is_success (toBytes c) = false).

Lemma new_request_of c sel x cb e w ctx w2 ev : (new_request c sel x cb : G _) e w = (success ctx, w2, ev) → request_of c sel x cb ctx.
Proof.
  unfold new_request. destruct (newRequest c sel x cb (reqgenerator_ w) (local_requests_ (impl w))) as [[[r g] l] lev] eqn:Hn.
  set (w1 := mkWorld _ _ _). destruct (local_calls_run (F:=F) (S:=S) lev e w1) as (tr & Hlc & _).
  rewrite (g_bind_eq _ _ _ _ _ _ _ Hlc). destruct r as [ctx'| |]; intros [= <- _ _]. by do 5 eexists.
Qed.

Lemma make_body peer address c sel x cb e w : K c → locked (impl w) = true → fits w →
  ends_from (λ _, False) w (λ s, (s = Deadlock ∧ called_back peer address c sel x cb e (network_ w)) ∨
      (s = Exception ∧ is_success (toBytes c) = false))
    ((it ← g_get (λ g, tracked_requests_ g !! c);
      if bool_decide ((state <$> it) = Some IN_PROGRESS) then _ ← log_cid toString c; reject cb
      else
        ctx ← new_request c sel x cb;
        n ← now_;
        _ ← g_modify (λ g, set_tracked (<[c := mkTracking IN_PROGRESS (request_id ctx) n n]> (tracked_requests_ g)) g);
        _ ← (if 0 <? request_id ctx then call_network toString (op_makeRequest peer address (request_id ctx) (body ctx)) else mret tt);
        mret (subscription ctx) : G _) e w).
Proof.
  intros Hc Hw Hf. rewrite g_bind_get. case_bool_decide.
  { refine (ends_bind _ (λ b, b = true) _ _ _ _ _ e w Hw Hf); [returns|intros _; apply ends_reject]. }
  pose proof (new_step c sel x cb e w Hc Hf) as Hn. 
  assert (∀ ctx w2 ev2, (new_request c sel x cb : G _) e w = (success ctx, w2, ev2) →
    locked (impl w2) = locked (impl w) ∧ fits w2 ∧ network_ w2 = network_ w →
    ends_from (λ _, False) w (λ s, (s = Deadlock ∧ called_back peer address c sel x cb e (network_ w)) ∨
      (s = Exception ∧ is_success (toBytes c) = false))
      ((ctx ← new_request c sel x cb;
        n ← now_;
        _ ← g_modify (λ g, set_tracked (<[c := mkTracking IN_PROGRESS (request_id ctx) n n]> (tracked_requests_ g)) g);
        _ ← (if 0 <? request_id ctx then call_network toString (op_makeRequest peer address (request_id ctx) (body ctx)) else mret tt);
        mret (subscription ctx) : G _) e w)) as Hgo.
  { intros ctx w2 ev2 Hnew (Hl2 & Hf2 & Hn2). rewrite (g_bind_eq _ _ _ _ _ _ _ Hnew). unfold g_result, g_world, g_trace.
    rewrite g_bind_now, g_bind_modify. set (w3 := mkWorld _ _ _).
    assert (locked (impl w3) = locked (impl w)) as Hw3 by exact Hl2.
    assert (fits w3) as Hf3.
    { destruct Hf2 as [Hs2 Hk2]. split; [exact Hs2|]. intros c' [Hx|Hx]; [apply Hk2; by left|].
      cbn in Hx. apply lookup_insert_is_Some in Hx as [<-|[_ Hx]]; [done|apply Hk2; by right]. }
    assert (network_ w3 = network_ w) as Hn3 by exact Hn2. clearbody w3. destruct (Z.ltb_spec 0 (request_id ctx)) as [Hpos|Hpos].
    2: { rewrite (g_bind_eq _ _ _ _ tt w3 []) by done. by split. }
    pose proof (held_call (λ _, False) (op_makeRequest peer address (request_id ctx) (body ctx)) e w3 ltac:(congruence) Hf3) as Hh.
    unfold ends_from, network_calls in Hh. rewrite Hn3 in Hh. unfold mbind, gact_bind. unfold ends_from.
    destruct ((call_network toString _ : G unit) e w3) as [[[[]|s] w4] ev4]; cbn [fst snd].
    - destruct Hh as [Hl4 Hf4]. split; [cbn; congruence|done].
    - destruct Hh as [H1 H2]. split; [intros Hs; rewrite <- Hw3; by apply H1|]. destruct H2 as [[-> HE]|[-> (c' & Hc' & Hin)]].
      + left. left. split; [done|]. exists ctx. split; [by eapply new_request_of|]. by split.
      + right. split; [done|]. exists c'. split; [done|]. destruct Hin as [?|[?|?]]; [by left|by right; left|right; right; by apply received_app_r]. }
  destruct (toBytes c) as [b|err] eqn:Hb.
  - destruct Hn as (ctx & w2 & ev2 & Hnew & Hrest). by eapply Hgo.
  - destruct Hn as (w2 & ev2 & [[Hnew Hl2]|(ctx & Hnew & Hrest)]); [|by eapply Hgo].
    unfold mbind, gact_bind. rewrite Hnew. split; [done|]. left. by right.
Qed.

Lemma make_ends peer address c sel x cb e w : K c → locked (impl w) = false → fits w →
  ends_from (λ _, False) w (make_fails peer address c sel x cb e (network_ w)) ((g_makeRequest toString peer address c sel x cb : G _) e w).
Proof.
  intros Hc Hw Hf. unfold g_makeRequest. rewrite g_bind_get. destruct (g_started_ (impl w)).
  2: { rewrite (g_bind_eq _ _ _ _ false w []) by done. cbn [negb].
       pose proof (ends_reject (λ _, False) (λ _, True) (make_fails peer address c sel x cb e (network_ w)) cb e w I Hf) as Hr.
       unfold ends_from, g_result, g_world, g_trace in *. by destruct (reject cb e w) as [[[]]]. }
  pose proof (ends_call (λ _, False) (make_fails peer address c sel x cb e (network_ w)) (op_canSendRequest peer) e w Hw Hf) as Hcall.
  pose proof (call_keeps (op_canSendRequest peer) e w) as Hnet. unfold ends_from, g_world, mbind, gact_bind in *.
  destruct ((call_network toString (op_canSendRequest peer) : G bool) e w) as [[[can|s] w1] ev1]; [|done]. cbn [fst snd] in *. destruct Hcall as [Hl1 Hf1].
  set (m := if negb can then _ else _). assert (ends_from (λ _, False) w1 (make_fails peer address c sel x cb e (network_ w)) (m e w1)) as Hm.
  { subst m. destruct (negb can); [exact (ends_reject _ (λ _, True) _ cb e w1 I Hf1)|].
    apply lock_from; [congruence|]. unfold make_fails. rewrite <- Hnet. by apply (make_body peer address c sel x cb e (lock_of true w1)). }
  unfold ends_from in Hm. destruct (m e w1) as [[[a|s] w2] ev2]; rewrite Hl1 in Hm; [done|]. destruct Hm as [H1 H2]. split; [done|].
  destruct H2 as [?|[-> (c' & Hc' & Hin)]]; [by left|right]. split; [done|]. exists c'. split; [done|].
  destruct Hin as [?|[?|?]]; [by left|by right; left|right; right; by apply received_app_r].
Qed.

End actions.

(** ** Runs *)

(** How a call fails: it prints a CID without text, one of its own, of a request of
    the object or of a block that the network passed on in the call; or as follows. *)
Definition fails_in (e : GEnv (S:=S)) (c : node_call (M:=M) (N:=N) (F:=F)) (w : W) (ev : list ev_t) (s : stuck) : Prop :=
  (s = Exception ∧ ∃ x, is_success (toString x) = false ∧
     (known (impl w) x ∨ match c with Make _ _ root _ _ _ => x = root | _ => False end ∨ received (self (impl w)) ev x)) ∨
  match c with
  | Make peer address root sel x cb => make_fails (self (impl w)) peer address root sel x cb e (network_ w) s
  | RemoteTask peer request _ => block_throws peer (id request) s
  | _ => False
  end.

Lemma call_ends e c (w : W) : locked (impl w) = false →
  match node_do toString c e w with
  | (success _, w', _) => locked (impl w') = false
  | (failure s, w', ev) => (s = Exception → locked (impl w') = false) ∧ fails_in e c w ev s
  end.
Proof.
  intros Hw. set (K x := known (impl w) x ∨ match c with Make _ _ root _ _ _ => x = root | _ => False end).
  assert (fits K (self (impl w)) w) as Hf by (split; [done|by left]).
  assert (∀ A (m : G A) P, ends_from K (self (impl w)) (λ _, False) w P (m e w) → (∀ s, P s → match c with
      | Make peer address root sel x cb => make_fails (self (impl w)) peer address root sel x cb e (network_ w) s
      | RemoteTask peer request _ => block_throws peer (id request) s
      | _ => False end) →
    match m e w with
    | (success _, w', _) => locked (impl w') = false
    | (failure s, w', ev) => (s = Exception → locked (impl w') = false) ∧ fails_in e c w ev s end) as Hr.
  { intros A m P Hm HP. unfold ends_from in Hm. rewrite Hw in Hm. destruct (m e w) as [[[a|s] w'] ev]; [by destruct Hm|].
    destruct Hm as [H1 [H2|[-> (x & Hx & Hin)]]]; (split; [done|]); [right; by apply HP|left]. split; [done|]. exists x. split; [done|].
    destruct Hin as [[?|?]|[[]|?]]; auto. }
  destruct c as [| |peer address root sel x cb|ticket| |weak|peer request holder|m]; cbn [node_do].
  - eapply (Hr _ _ (λ _, False)); [by apply returns_start|done].
  - eapply (Hr _ _ (λ _, False)); [by apply returns_stop|done].
  - assert (K root) as Hroot by (by right). pose proof (make_ends K (self (impl w)) peer address root sel x cb e w Hroot Hw Hf) as Hm.
    specialize (Hr _ _ _ Hm ltac:(done)). unfold mbind, gact_bind in *.
    destruct ((g_makeRequest toString peer address root sel x cb : G _) e w) as [[[a|s] w1] ev]; exact Hr.
  - eapply (Hr _ _ (λ _, False)); [by apply returns_unsubscribe|done].
  - eapply (Hr _ _ (λ _, False)); [by apply (returns_notify _ _ _ (λ _, True))|done].
  - eapply (Hr _ _ (λ _, False)); [by apply returns_cleanup|done].
  - eapply (Hr _ _ (block_throws peer (id request))); [by apply task_throws|done].
  - eapply (Hr _ _ (λ _, False)); [by apply ends_call|done].
Qed.

(** C3: how the calls of a node end.  In a run of a node, over any network and whatever
    libp2p says of a CID, every call returns and leaves the mutex free, or is the
    last one and fails so: it throws, with the mutex free again, at a log call that
    takes the text of a CID that has none (the root of a request of the object, or
    the root or the CID of a block the network passed on); it is a [makeRequest] that
    throws because its CID has no bytes; it is a [makeRequest] that locks the mutex
    twice, because the network called back [onResponse] or [onBlock] of the same
    object while it sent the request; or it is the task of a remote request that
    throws because the network threw at a block.  No other call fails, and no
    thread but that of such a [makeRequest] keeps the mutex.  (Log calls that print
    the id of a peer are not in the model.) *)
Theorem node_returns calls w : locked (impl w) = false →
  let '(r, w', _) := node_run toString calls w in
  match r with
  | success _ => locked (impl w') = false
  | failure s => (s = Exception → locked (impl w') = false) ∧
      ∃ pre e c post w1 ev1 ev2, calls = pre ++ (e, c) :: post ∧ node_run toString pre w = (success tt, w1, ev1) ∧
        locked (impl w1) = false ∧ node_do toString c e w1 = (failure s, w', ev2) ∧ fails_in e c w1 ev2 s
  end.
Proof.
  revert w. induction calls as [|[e c] calls IH]; intros w Hw; cbn [node_run]; [done|].
  pose proof (call_ends e c w Hw) as Hd. destruct (node_do toString c e w) as [[[[]|s] w1] ev] eqn:Hr.
  - specialize (IH w1 Hd). destruct (node_run toString calls w1) as [[[[]|s] w2] ev2]; [done|].
    destruct IH as (Hl & pre & e' & c' & post & w3 & ev3 & ev4 & -> & Hpre & Hw3 & Hdo & Hf). split; [done|].
    exists ((e, c) :: pre), e', c', post, w3, (ev ++ ev3), ev4. split; [done|]. split; [|done]. cbn [node_run]. by rewrite Hr, Hpre.
  - destruct Hd as [Hl Hf]. split; [done|]. by exists [], e, c, calls, w, [], ev.
Qed.

End returns.

(** *** Witness *)

#[local] Existing Instance no_dag.

(** The run of [Node.sample_calls]; one whose second request finds the stream closed
    for writing; and one in which the peer sends a block whose CID, read from its
    prefix [00 55 12 20], is of version 0 and not of a DAG node. *)
Definition stuck_calls : list (GEnv (S:=unit) * node_call (M:=Cid.Sample.Multihash) (N:=Network) (F:=net_effect Cid.Sample.Multihash)) :=
  take 5 sample_calls ++
  [(mkGEnv closed_stream_env tt, Make peer_one None (Cid.Sample.cid_v1 6) [] [] 11); (quiet_env_, NotifyTimer)].

Definition raw_v0 : CID Cid.Sample.Multihash :=
  match Cid.read [0x00; 0x55; 0x12; 0x20] true with returned (c, _) => c | _ => Cid.Sample.cid_v1 0 end.
Definition raw_block_calls : list (GEnv (S:=unit) * node_call (M:=Cid.Sample.Multihash) (N:=Network) (F:=net_effect Cid.Sample.Multihash)) :=
  take 5 sample_calls ++
  [(quiet_env_, peer_event (H_readerEvent (Some 20) (success (mkMessage false [] [] [(raw_v0, [1])])))); (quiet_env_, NotifyTimer)].

(** Text for the CIDs that have bytes. *)
Definition text_of (c : CID Cid.Sample.Multihash) : outcome Z string :=
  match toBytes c with success _ => success ""%string | failure _ => failure 1 end.

Lemma node_returns_witness :
  (let '(r, w', _) := node_run text_of sample_calls sample_start in r = success tt ∧ locked (impl w') = false) ∧
  (let '(r, _, _) := node_run text_of stuck_calls sample_start in r = failure Deadlock ∧
   ∃ pre e c post w1 ev, stuck_calls = pre ++ (e, c) :: post ∧ made c = 1%nat ∧ fails_in text_of e c w1 ev Deadlock) ∧
  (let '(r, w', _) := node_run text_of raw_block_calls sample_start in r = failure Exception ∧ locked (impl w') = false ∧
   ∃ pre e c post w1 ev, raw_block_calls = pre ++ (e, c) :: post ∧ fails_in text_of e c w1 ev Exception).
Proof.
  split; [|split].
  - pose proof (node_returns text_of sample_calls sample_start eq_refl) as H.
    assert ((node_run text_of sample_calls sample_start).1.1 = success tt) as Hr by (vm_compute; reflexivity).
    destruct (node_run text_of sample_calls sample_start) as [[r w'] ev]. cbn [fst snd] in Hr. subst r. split; [reflexivity|exact H].
  - pose proof (node_returns text_of stuck_calls sample_start eq_refl) as H.
    assert ((node_run text_of stuck_calls sample_start).1.1 = failure Deadlock) as Hr by (vm_compute; reflexivity).
    destruct (node_run text_of stuck_calls sample_start) as [[r w'] ev]. cbn [fst snd] in Hr. subst r. split; [reflexivity|].
    destruct H as (_ & pre & e & c & post & w1 & ev1 & ev2 & Hcalls & _ & _ & _ & Hf). exists pre, e, c, post, w1, ev2. split; [exact Hcalls|].
    split; [|exact Hf]. destruct Hf as [[Hf _]|Hf]; [discriminate Hf|]. destruct c; try contradiction; [reflexivity|].
    destruct Hf as [Hf _]. discriminate Hf.
  - pose proof (node_returns text_of raw_block_calls sample_start eq_refl) as H.
    assert ((node_run text_of raw_block_calls sample_start).1.1 = failure Exception) as Hr by (vm_compute; reflexivity).
    destruct (node_run text_of raw_block_calls sample_start) as [[r w'] ev]. cbn [fst snd] in Hr. subst r. split; [reflexivity|].
    destruct H as (Hl & pre & e & c & post & w1 & ev1 & ev2 & Hcalls & _ & _ & _ & Hf). split; [exact (Hl eq_refl)|].
    exists pre, e, c, post, w1, ev2. split; [exact Hcalls|exact Hf].
Defined.
