(* ===== verification/Reentry.v ===== *)
(** When [makeRequest] locks its own mutex twice.

    [makeRequest] calls the network with [requested_cids_mutex_] held.  A write that
    fails at once closes the context of the peer inside the call, and the context
    answers the requests it awaits through [onResponse], which locks the mutex.  The
    theorem says exactly when this happens, in any state of the node. *)
From stdpp Require Import base numbers countable list gmap strings.
From S2P Require Import Prelude Cid Status MessageQueue Marshalling InboundEndpoint LocalRequests PeerContext.
From S2P Require Import PeerProofs Network Graphsync Delivery Exchange Node NodeReturns.

Open Scope Z_scope.

Create HintDb reentry.

(** ** The effects of sending a request *)

Section sending.
Context {M : Type} `{!Multiformats M, !Protobuf}.

(** The effects of an action all satisfy [P]. *)
Definition emits {A} (P : effect (M:=M) → Prop) (m : act (M:=M) A) : Prop := ∀ e p, Forall P (trace (m e p)).

(** Effects that pass no block on. *)
Definition no_block (ef : effect (M:=M)) : Prop := match ef with OnBlock _ _ _ _ => False | _ => True end.
Abbreviation blockless := (emits no_block).

Lemma emits_bind {A B} P (m : act (M:=M) A) (f : A → act B) : emits P m → (∀ a, emits P (f a)) → emits P (m ≫= f).
Proof. intros Hm Hf e p. rewrite bind_trace. apply Forall_app. split; [apply Hm|apply Hf]. Qed.
Lemma emits_ret {A} P (a : A) : emits P (mret a).
Proof. intros e p. constructor. Qed.
Lemma emits_get {A} P (g : PeerContext → A) : emits P (get g).
Proof. intros e p. constructor. Qed.
Lemma emits_env {A} P (g : Env → A) : emits P (env g).
Proof. intros e p. constructor. Qed.
Lemma emits_modify P f : emits P (modify f).
Proof. intros e p. constructor. Qed.
Lemma emits_emit (P : effect (M:=M) → Prop) ef : P ef → emits P (emit ef).
Proof. intros HP e p. by constructor. Qed.
Lemma emits_for_each {A} P (l : list A) f : (∀ x, emits P (f x)) → emits P (for_each l f).
Proof.
  intros Hf. induction l as [|x l IH]; cbn [for_each]; [apply emits_ret|]. apply emits_bind; [apply Hf|by intros _].
Qed.
Lemma emits_feedback (P : effect (M:=M) → Prop) mk : (∀ fb, P (mk fb)) → emits P (feedback mk).
Proof.
  intros HP. unfold feedback. apply emits_bind; [apply emits_get|intros fbs]. apply emits_bind; [apply emits_env|intros l].
  apply emits_for_each. intros fb. by apply emits_emit.
Qed.

#[local] Hint Resolve emits_ret emits_get emits_env emits_modify : reentry.
#[local] Hint Extern 1 (emits _ skip) => apply emits_ret : reentry.
#[local] Hint Extern 1 (emits _ (emit _)) => apply emits_emit; exact I : reentry.
#[local] Hint Extern 1 (emits _ (feedback _)) => apply emits_feedback; intros; exact I : reentry.
#[local] Ltac emitted :=
  repeat first
    [ solve [eauto with reentry]
    | apply emits_bind; [|intros ?]
    | apply emits_for_each; intros ?
    | case_match ].

Lemma blockless_closeLocalRequests st : blockless (closeLocalRequests (M:=M) st).
Proof. unfold closeLocalRequests. emitted. Qed.
#[local] Hint Resolve blockless_closeLocalRequests : reentry.

Lemma blockless_close_streams n st : blockless (close_streams (M:=M) n st).
Proof. induction n as [|n IH]; cbn [close_streams]; [emitted|]. unfold closeStream_with. emitted. Qed.
#[local] Hint Resolve blockless_close_streams : reentry.

Lemma blockless_close st : blockless (close (M:=M) st).
Proof. unfold close. emitted. Qed.
#[local] Hint Resolve blockless_close : reentry.

Lemma blockless_queue_events ev : blockless (queue_events (M:=M) ev).
Proof. unfold queue_events, onWriterEvent, resetPeerTimeout, reschedule, shiftExpireTime. emitted. Qed.
#[local] Hint Resolve blockless_queue_events : reentry.

Lemma blockless_enqueueRequest i body : blockless (enqueueRequest (M:=M) i body).
Proof. unfold enqueueRequest, endpoint_enqueue. emitted. Qed.

(** The write of a request fails at once: the outbound buffers would overflow, or no
    write is in flight on the stream of the endpoint and the stream has been closed
    for writing. *)
Definition write_fails (cw : StreamPtr → bool) (data : SharedData) (ep : OutboundEndpoint) (qs : Queues) : bool :=
  match data with
  | None => false
  | Some d =>
      negb (size d =? 0) &&
      ((kMaxPendingBytes <? u64 (pending_of ep qs + size d)) ||
       match queue_ ep with
       | None => false
       | Some s => match qs !! s with Some q => negb (0 <? writing_bytes (state_ q)) && cw s | None => false end
       end)
  end.

(** A write that goes out or waits answers nothing. *)
Lemma endpoint_enqueue_ok ep body e p : Inv p → closed_ p = false → write_fails (closedW e) body ep (queues p) = false →
  responses_of (trace (endpoint_enqueue (M:=M) ep body e p)) = [] ∧ is_success (result (endpoint_enqueue (M:=M) ep body e p)) = true.
Proof.
  intros HI Ho Hw. unfold endpoint_enqueue. rewrite bind_get, bind_env. unfold ep_enqueue, write_fails in *.
  destruct body as [d|]; [|by rewrite !bind_modify]. destruct (size d =? 0) eqn:Hz; [by rewrite !bind_modify|].
  cbn [negb andb] in Hw. apply orb_false_iff in Hw as [-> Hw]. destruct (queue_ ep) as [s|]; [|by rewrite !bind_modify].
  unfold enqueue_at. destruct (queues p !! s) as [q|] eqn:Hq; [|by rewrite !bind_modify].
  destruct (inv_queues _ HI _ _ Hq) as [Hst Ha]. unfold queue_enqueue. rewrite Hz, Ha. cbn [negb orb].
  destruct (0 <? writing_bytes (state_ q)); [by rewrite !bind_modify|]. cbn [negb andb] in Hw.
  unfold beginWrite. rewrite Hst, Hw. by rewrite !bind_modify.
Qed.

(** One that fails closes the context. *)
Lemma endpoint_enqueue_fails ep body e p : Inv p → closed_ p = false → write_fails (closedW e) body ep (queues p) = true →
  ∃ p0, closed_ p0 = false ∧ requests_endpoint_ p0 = Some ep ∧ local_request_ids_ p0 = local_request_ids_ p ∧
    graphsync_feedbacks_ p0 = graphsync_feedbacks_ p ∧
    (endpoint_enqueue (M:=M) ep body e p = (failure WRITE_QUEUE_OVERFLOW, p0, []) ∨
     endpoint_enqueue (M:=M) ep body e p =
       (success tt, final (close (M:=M) RS_CONNECTION_ERROR e p0), trace (close (M:=M) RS_CONNECTION_ERROR e p0))).
Proof.
  intros HI Ho Hw. unfold endpoint_enqueue. rewrite bind_get, bind_env. unfold ep_enqueue, write_fails in *.
  destruct body as [d|]; [|done]. destruct (size d =? 0) eqn:Hz; [done|]. cbn [negb andb] in Hw.
  destruct (_ <? _) eqn:Hover; cbn [orb] in Hw.
  { rewrite !bind_modify. eexists. split; [|split; [|split; [|split; [|by left]]]]; done. }
  destruct (queue_ ep) as [s|]; [|done]. unfold enqueue_at. destruct (queues p !! s) as [q|] eqn:Hq; [|done].
  destruct (inv_queues _ HI _ _ Hq) as [Hst Ha]. unfold queue_enqueue. rewrite Hz, Ha. cbn [negb orb].
  destruct (0 <? writing_bytes (state_ q)); [done|]. unfold beginWrite. rewrite Hst. cbn [negb andb] in Hw. rewrite Hw, !bind_modify.
  set (p0 := set_queues _ _). exists p0. split; [done|]. split; [done|]. split; [done|]. split; [done|]. right.
  rewrite (bind_eq _ _ _ _ _ _ _ (act_eta _)). unfold queue_events. rewrite for_each_cons. cbv zeta.
  unfold onWriterEvent. rewrite bind_get. change (closed_ p0) with (closed_ p). rewrite Ho.
  cbn [for_each]. unfold skip, mret, act_ret. by rewrite !final_pair, !trace_pair, !result_pair, !app_nil_r.
Qed.

(** The answers given while a request is enqueued. *)
Lemma enqueueRequest_answers i body e p ep : Inv p → closed_ p = false → requests_endpoint_ p = Some ep →
  ∃ st, responses_of (trace (enqueueRequest (M:=M) i body e p)) =
    if write_fails (closedW e) body ep (queues p) then one_each st e p else [].
Proof.
  intros HI Ho Hep. rewrite (enqueueRequest_endpoint _ _ _ _ ep) by done. cbv zeta.
  destruct (write_fails (closedW e) body ep (queues p)) eqn:Hw.
  2: { destruct (endpoint_enqueue_ok ep body e p HI Ho Hw) as [Hr ->]. exists RS_INTERNAL_ERROR. by rewrite trace_pair. }
  destruct (endpoint_enqueue_fails ep body e p HI Ho Hw) as (p0 & Ho0 & Hep0 & Hl0 & Hf0 & [-> | ->]);
    rewrite ?result_pair, ?final_pair, ?trace_pair; cbn [is_success]; rewrite ?final_pair, ?trace_pair, ?app_nil_l.
  - exists RS_SLOW_STREAM. destruct (close_facts (M:=M) RS_SLOW_STREAM e p0 Ho0) as (_ & _ & _ & _ & _ & _ & _ & -> & _).
    unfold close_answers, one_each, live. by rewrite Hep0, Hl0, Hf0.
  - exists RS_CONNECTION_ERROR. destruct (close_facts (M:=M) RS_CONNECTION_ERROR e p0 Ho0) as (_ & _ & _ & _ & _ & _ & _ & -> & _).
    unfold close_answers, one_each, live. by rewrite Hep0, Hl0, Hf0.
Qed.

End sending.

(** ** The call of the network *)

Section calling.
Context {M : Type} `{!Multiformats M, !Protobuf}.
Context (peer : PeerId).

(** The context of the peer that [makeRequest] uses: a closed one is replaced. *)
Definition context_for (n : Network) : PeerContext :=
  match peers_ n !! peer with
  | Some p => if closed_ p then new_PeerContext (feedbacks_ n) else p
  | None => new_PeerContext (feedbacks_ n)
  end.

Lemma context_for_open n : closed_ (context_for n) = false.
Proof. unfold context_for. destruct (peers_ n !! peer) as [p|]; [destruct (closed_ p) eqn:Hc|]; done. Qed.

Lemma canSendRequest_context e n : started_ n = true →
  ∃ n1, canSendRequest (M:=M) peer e n = (true, n1, []) ∧ started_ n1 = true ∧ peers_ n1 !! peer = Some (context_for n).
Proof.
  intros Hs. unfold context_for. destruct (peers_ n !! peer) as [p|] eqn:Hp; [destruct (closed_ p) eqn:Ho|].
  2: { exists n. by rewrite (canSendRequest_eq peer e n p Hs Hp Ho). }
  all: unfold canSendRequest; erewrite net_bind_quiet by reflexivity; rewrite Hs; cbn [negb].
  - exists (fresh_context peer (dropped_context peer n)). assert (peers_ (fresh_context peer (dropped_context peer n)) !! peer =
      Some (new_PeerContext (feedbacks_ n))) as Hf by (apply lookup_insert_eq). split; [|done].
    erewrite net_bind_quiet by (by rewrite findContext_eq, Hs, Hp, Ho). cbn [negb]. by erewrite net_bind_quiet by (by apply on_peer_get).
  - exists (fresh_context peer n). assert (peers_ (fresh_context peer n) !! peer = Some (new_PeerContext (feedbacks_ n))) as Hf
      by (apply lookup_insert_eq). split; [|done].
    erewrite net_bind_quiet by (by rewrite findContext_eq, Hs, Hp). cbn [negb]. by erewrite net_bind_quiet by (by apply on_peer_get).
Qed.

(** [needToConnect] keeps an endpoint, or makes one for a context that awaits nothing. *)
Lemma needToConnect_open e p : sound p → closed_ p = false →
  ∃ ep, requests_endpoint_ (final (needToConnect (M:=M) e p)) = Some ep ∧ closed_ (final (needToConnect (M:=M) e p)) = false ∧
    trace (needToConnect (M:=M) e p) = [] ∧ Inv (final (needToConnect (M:=M) e p)) ∧
    (if requests_endpoint_ p is Some _ then final (needToConnect (M:=M) e p) = p
     else local_request_ids_ (final (needToConnect (M:=M) e p)) = ∅).
Proof.
  intros [HI Ht] Ho. pose proof (pres_needToConnect (M:=M) e p HI) as HI'. revert HI'. unfold needToConnect. rewrite bind_get.
  destruct (requests_endpoint_ p) as [ep|] eqn:Hep; [intros HI'; by exists ep|]. rewrite bind_modify, bind_get.
  set (p1 := set_endpoint _ p). destruct (head _) as [s|] eqn:Hh; [|intros HI'; eexists; split; [reflexivity|]; split_and!; try done; by apply Ht].
  rewrite (bind_eq (createMessageQueue s) _ _ _ _ _ _ (act_eta _)). cbv zeta.
  assert (∃ p2, createMessageQueue (M:=M) s e p1 = (tt, p2, []) ∧ closed_ p2 = false ∧ requests_endpoint_ p2 = Some new_OutboundEndpoint ∧
    local_request_ids_ p2 = local_request_ids_ p) as (p2 & -> & Ho2 & Hep2 & Hl2).
  { unfold createMessageQueue. rewrite bind_get. destruct (streams_ p1 !! s) as [ctx|]; [destruct (has_queue ctx)|]; by eexists. }
  rewrite !final_pair, !trace_pair. unfold endpoint_connected.
  rewrite (bind_eq _ _ _ _ _ _ _ (act_eta _)). cbv zeta. rewrite !bind_get, Hep2, bind_get, bind_env.
  cbn [onConnected enqueue_all ep_pending_buffers_ new_OutboundEndpoint]. rewrite !bind_modify.
  intros HI'. eexists. split; [reflexivity|]. split; [exact Ho2|]. split; [done|]. split; [exact HI'|]. cbn. rewrite Hl2. by apply Ht.
Qed.

Lemma on_peer_silent {A} (m : act (M:=M) A) e n p a p' : peers_ n !! peer = Some p → m e p = (a, p', []) →
  on_peer peer m e n = (Some a, set_peers (<[peer := p']> (peers_ n)) n, []).
Proof. intros Hp Hm. unfold on_peer. by rewrite Hp, Hm. Qed.

(** What the request is enqueued on, and what else the network does. *)
Lemma makeRequest_enqueues address i body e n p : started_ n = true → peers_ n !! peer = Some p → sound p → closed_ p = false →
  ∃ pre p2 ep, (makeRequest (M:=M) peer address i body e n).2 = pre ++ (Peer peer <$> trace (enqueueRequest i body e p2)) ∧
    (pre = [] ∨ ∃ pi, pre = [NewStream peer pi]) ∧ Inv p2 ∧ closed_ p2 = false ∧ requests_endpoint_ p2 = Some ep ∧
    (if requests_endpoint_ p is Some ep' then ep = ep' ∧ queues p2 = queues p ∧ local_request_ids_ p2 = local_request_ids_ p ∧ live e p2 = live e p
     else local_request_ids_ p2 = ∅).
Proof.
  intros Hn Hp Hsd Ho. unfold makeRequest. erewrite net_bind_quiet by (by apply (canSendRequest_eq peer e n p)). cbn [negb].
  erewrite net_bind_quiet by (by rewrite findContext_eq, Hn, Hp, Ho).
  set (p1 := match address with Some _ => set_connect_to address p | None => p end).
  assert (setOutboundAddress (M:=M) address e p = (tt, p1, [])) as Haddr by (unfold p1; by destruct address).
  assert (sound p1 ∧ closed_ p1 = false ∧ requests_endpoint_ p1 = requests_endpoint_ p ∧ queues p1 = queues p ∧
    local_request_ids_ p1 = local_request_ids_ p ∧ live e p1 = live e p) as (Hs1 & Ho1 & Hep1 & Hq1 & Hl1 & Hlv1).
  { split; [|by unfold p1; destruct address]. destruct (sound_handle (M:=M) (H_setOutboundAddress address)) as [H1 H2].
    cbn [handle] in H1, H2. destruct Hsd as [HI Ht]. specialize (H1 e p HI). specialize (H2 e p Ht). by rewrite Haddr in H1, H2. }
  clearbody p1. rewrite (net_bind_quiet _ _ _ _ _ _ (on_peer_silent _ e n p tt p1 Hp Haddr)). set (n1 := set_peers _ n).
  assert (peers_ n1 !! peer = Some p1) as Hp1 by (apply lookup_insert_eq).
  destruct (needToConnect_open e p1 Hs1 Ho1) as (ep & Hep2 & Ho2 & Htr & HI2 & Hsame). rewrite Hep1 in Hsame.
  pose proof (act_eta (needToConnect (M:=M) e p1)) as Hneed. rewrite Htr in Hneed. set (p2 := final (needToConnect e p1)) in *.
  rewrite (net_bind_quiet _ _ _ _ _ _ (on_peer_silent _ e n1 p1 _ p2 Hp1 Hneed)). set (n2 := set_peers _ n1).
  assert (peers_ n2 !! peer = Some p2) as Hp2 by (apply lookup_insert_eq).
  assert (∃ pre, (if bool_decide (Some (result (needToConnect (M:=M) e p1)) = Some true) then tryConnect (M:=M) peer else mret tt) e n2 = (tt, n2, pre) ∧
    (pre = [] ∨ ∃ pi, pre = [NewStream peer pi])) as (pre & Hpre & Hpre').
  { case_bool_decide; [|eexists; split; [reflexivity|by left]]. unfold tryConnect.
    erewrite net_bind_quiet by (by apply on_peer_get). eexists. split; [reflexivity|right; by eexists]. }
  exists pre, p2, ep. split; [|split_and!; try done].
  - unfold mbind, net_bind. rewrite Hpre. unfold on_peer. rewrite Hp2.
    destruct (enqueueRequest (M:=M) i body e p2) as [[[] p3] ev3]. rewrite trace_pair. cbn. by rewrite app_nil_r.
  - clearbody p2. destruct (requests_endpoint_ p) as [ep'|]; [|done]. subst p2.
    rewrite Hep1 in Hep2. split_and!; try congruence.
Qed.

(** The context answers [j] to feedback object [fb] while the request is sent. *)
Definition answered_in_send (e : Env) (body : SharedData) (p : PeerContext) (fb : Z) (j : RequestId) : Prop :=
  ∃ ep, requests_endpoint_ p = Some ep ∧ write_fails (closedW e) body ep (queues p) = true ∧
    fb ∈ live e p ∧ j ∈ local_request_ids_ p.

Lemma elem_of_one_each st e (p : PeerContext) fb j : (∃ st', (fb, j, st') ∈ one_each st e p) ↔ fb ∈ live e p ∧ j ∈ local_request_ids_ p.
Proof.
  unfold one_each. rewrite <- (elem_of_sorted_elements (local_request_ids_ p)).
  induction (sorted_elements (local_request_ids_ p)) as [|i l IH]; cbn [map concat]; [set_solver|].
  transitivity ((∃ st', (fb, j, st') ∈ map (λ fb, (fb, i, st)) (live e p)) ∨ (fb ∈ live e p ∧ j ∈ l)).
  { rewrite <- IH. setoid_rewrite elem_of_app. naive_solver. }
  transitivity ((fb ∈ live e p ∧ j = i) ∨ (fb ∈ live e p ∧ j ∈ l)); [|set_solver]. f_equiv. split.
  - intros [st' (fb' & Heq & Hfb)%list_elem_of_fmap]. by simplify_eq.
  - intros [Hfb ->]. exists st. by apply (list_elem_of_fmap_2 (λ fb, (fb, i, st))).
Qed.

Lemma elem_of_responses (ev : list (effect (M:=M))) fb j st : (fb, j, st) ∈ responses_of ev ↔ ∃ x, OnResponse fb j st x ∈ ev.
Proof.
  unfold responses_of. rewrite list_elem_of_omap. split.
  - intros (ef & Hin & Hef). destruct ef; try done. simplify_eq. by eexists.
  - intros [x Hin]. by eexists.
Qed.

Lemma makeRequest_answers address i body e n p : started_ n = true → peers_ n !! peer = Some p → sound p → closed_ p = false →
  let ev := (makeRequest (M:=M) peer address i body e n).2 in
  (∀ q fb root c d, Peer q (OnBlock fb root c d) ∉ ev) ∧
  ∀ fb j, (∃ q st x, Peer q (OnResponse fb j st x) ∈ ev) ↔ answered_in_send e body p fb j.
Proof.
  intros Hn Hp Hs Ho. destruct (makeRequest_enqueues address i body e n p Hn Hp Hs Ho) as (pre & p2 & ep & Hev & Hpre & HI & Ho2 & Hep2 & Hsame).
  cbv zeta. rewrite Hev. clear Hev. destruct (enqueueRequest_answers (M:=M) i body e p2 ep HI Ho2 Hep2) as [st Hr].
  pose proof (blockless_enqueueRequest (M:=M) i body e p2) as Hb.
  assert (∀ q ef, Peer q ef ∈ pre ++ (Peer (M:=M) peer <$> trace (enqueueRequest (M:=M) i body e p2)) → ef ∈ trace (enqueueRequest (M:=M) i body e p2)) as Hin.
  { intros q ef [Hx|(ef' & Heq & Hx)%list_elem_of_fmap]%elem_of_app; [|by simplify_eq]. destruct Hpre as [-> |[pi ->]]; set_solver. }
  split; [intros q fb root c d Hx%Hin; by apply (proj1 (Forall_forall _ _) Hb) in Hx|]. intros fb j. transitivity (∃ st', (fb, j, st') ∈ responses_of (trace (enqueueRequest (M:=M) i body e p2))).
  { split.
    - intros (q & st' & x & Hx%Hin). exists st'. apply elem_of_responses. by eexists.
    - intros [st' [x Hx]%elem_of_responses]. exists peer, st', x. apply elem_of_app. right. by apply list_elem_of_fmap_2. }
  rewrite Hr. unfold answered_in_send. destruct (requests_endpoint_ p) as [ep'|].
  - destruct Hsame as (-> & Hq & Hl & Hlv). rewrite Hq in *. destruct (write_fails (closedW e) body ep' (queues p)) eqn:Hw.
    + etransitivity; [apply elem_of_one_each|]. rewrite Hl, Hlv. split; [intros []; by exists ep'|by intros (? & [= <-] & _ & ?)].
    + split; [intros [st' Hx]; set_solver|intros (? & [= <-] & ? & _); congruence].
  - split; [|by intros (? & ? & _)]. intros Hx. destruct (write_fails _ _ _ _); [|set_solver].
    apply elem_of_one_each in Hx as [_ Hx]. rewrite Hsame in Hx. set_solver.
Qed.

End calling.

(** ** Feedback under the mutex *)

Section held.
Context {M S : Type} `{!EqDecision M, !Countable M, !Multiformats M, !Protobuf, !DagService M S}.
Context (toString : CID M → outcome Z string).

Abbreviation G := (gact (M:=M) (N:=Network) (F:=net_effect M) (S:=S)).
Abbreviation W := (World (M:=M) (N:=Network)).

(** The thread holds the mutex of object [me], whose requests have the root CIDs [roots]. *)
Record holds (me : Z) (roots : gmap RequestId (CID M)) (w : W) : Prop := {
  h_self : self (impl w) = me;
  h_started : g_started_ (impl w) = true;
  h_locked : locked (impl w) = true;
  h_roots : request_to_cid_ (local_requests_ (impl w)) = roots
}.

(** The effect is a response to a request the object knows. *)
Definition hits (me : Z) (roots : gmap RequestId (CID M)) (f : net_effect M) : Prop :=
  ∃ q i st x, f = Peer q (OnResponse me i st x) ∧ is_Some (roots !! i).

Lemma onResponse_held me roots i st x e (w : W) : holds me roots w →
  match roots !! i with
  | Some _ => g_result ((g_onResponse toString i st x : G unit) e w) = failure Deadlock
  | None => ∃ w' ev, (g_onResponse toString i st x : G unit) e w = (success tt, w', ev) ∧ holds me roots w'
  end.
Proof.
  intros [Hm Hs Hl Hr]. unfold g_onResponse. rewrite g_bind_get, Hs. cbn [negb]. rewrite g_bind_get. unfold getRequestRootCid. rewrite Hr.
  destruct (roots !! i) as [c|] eqn:Hi.
  - unfold mbind, gact_bind, with_lock. by rewrite Hl.
  - erewrite bind_quiet by reflexivity. rewrite g_bind_get.
    destruct (local_onResponse i st x (local_requests_ (impl w))) as [l ev] eqn:Ho. rewrite g_bind_modify.
    destruct (local_calls_run (F:=net_effect M) (S:=S) ev e (mkWorld (set_local l (impl w)) (network_ w) (reqgenerator_ w))) as (tr & -> & _).
    do 2 eexists. split; [reflexivity|]. split; try done. cbn. unfold local_onResponse in Ho. by repeat case_match; simplify_eq.
Qed.

Lemma effect_held me roots f e (w : W) : holds me roots w → (∀ q fb root c d, f ≠ Peer q (OnBlock fb root c d)) →
  (hits me roots f ∧ g_result ((follow_effect toString f : G unit) e w) = failure Deadlock) ∨
  (¬ hits me roots f ∧ ∃ w' ev, (follow_effect toString f : G unit) e w = (success tt, w', ev) ∧ holds me roots w').
Proof.
  intros Hh Hnb. unfold follow_effect. erewrite g_bind_eq by reflexivity. rewrite g_bind_get, (h_self _ _ _ Hh).
  assert (∀ m : G unit, (∃ w' ev, m e w = (success tt, w', ev) ∧ holds me roots w') →
    ∃ w' ev, (g_result (m e w), g_world (m e w), [NetEffect f] ++ g_trace (m e w)) = (success tt, w', ev) ∧ holds me roots w') as Hok.
  { intros m (w' & ev & -> & Hw'). by do 2 eexists. }
  assert (∃ w' ev, (mret tt : G unit) e w = (success tt, w', ev) ∧ holds me roots w') as Hret by (by do 2 eexists).
  destruct f as [q ef| |]; cbn [op_feedback network_ops network_feedback];
    try (right; split; [intros (? & ? & ? & ? & ? & _); congruence|by apply (Hok (mret tt))]).
  destruct ef as [fb i st x|fb r|fb root c d| | | | | | | |];
    try (right; split; [intros (? & ? & ? & ? & ? & _); congruence|by apply (Hok (mret tt))]).
  - destruct (Z.eqb_spec fb me) as [-> |Hne]; [|right; split; [intros (? & ? & ? & ? & ? & _); congruence|by apply (Hok (mret tt))]].
    cbn [on_feedback]. pose proof (onResponse_held me roots i st x e w Hh) as Hr. destruct (roots !! i) as [c|] eqn:Hi.
    + left. split; [by do 4 eexists|]. exact Hr.
    + right. split; [intros (? & ? & ? & ? & [= <- <- <- <-] & Hs); rewrite Hi in Hs; by destruct Hs|]. by apply Hok.
  - right. split; [intros (? & ? & ? & ? & ? & _); congruence|]. destruct (fb =? me); [|by apply (Hok (mret tt))]. apply Hok.
    cbn [on_feedback]. unfold g_onRemoteRequest. rewrite g_bind_get, (h_started _ _ _ Hh). cbn [negb]. rewrite g_bind_generator.
    do 2 eexists. split; [reflexivity|]. by destruct Hh.
  - by destruct (Hnb q fb root c d).
Qed.

Lemma dispatch_held me roots l e : ∀ w : W, holds me roots w → (∀ q fb root c d, Peer q (OnBlock fb root c d) ∉ l) →
  (Exists (hits me roots) l ∧ g_result ((dispatch toString l : G unit) e w) = failure Deadlock) ∨
  (¬ Exists (hits me roots) l ∧ g_result ((dispatch toString l : G unit) e w) = success tt).
Proof.
  induction l as [|f l IH]; intros w Hh Hnb; [right; split; [by intros Hx%Exists_nil|done]|]. rewrite dispatch_cons, Exists_cons.
  destruct (effect_held me roots f e w Hh) as [[Hf Hr]|[Hf (w' & ev & Hr & Hh')]]; [set_solver|left; split; [by left|]|].
  - unfold mbind, gact_bind, g_result in *. destruct ((follow_effect toString f : G unit) e w) as [[[a|s] w1] ev]; cbn in *; congruence.
  - rewrite (g_bind_eq _ _ _ _ _ _ _ Hr). destruct (IH w' Hh' ltac:(set_solver)) as [[Hl Hd]|[Hl Hd]]; [left|right]; split; try exact Hd; naive_solver.
Qed.

End held.

(** ** The call *)

Section reentry.
Context {M S : Type} `{!EqDecision M, !Countable M, !Multiformats M, !Protobuf, !DagService M S}.
Context (toString : CID M → outcome Z string).

Abbreviation G := (gact (M:=M) (N:=Network) (F:=net_effect M) (S:=S)).
Abbreviation W := (World (M:=M) (N:=Network)).

(** The request is new, and [newRequest] makes it. *)
Definition recorded (c : CID M) (sel : bytes) (x : list Extension) (cb : Callback) (w : W) (ctx : NewRequest) (l : LocalRequests M) : Prop :=
  g_started_ (impl w) = true ∧ started_ (network_ w) = true ∧ state <$> tracked_requests_ (impl w) !! c ≠ Some IN_PROGRESS ∧
  ∃ g ev, newRequest c sel x cb (reqgenerator_ w) (local_requests_ (impl w)) = (returned ctx, g, l, ev).

(** The request is recorded, its write fails at once, and the open context of the
    peer awaits another request that the object knows. *)
Definition reenters (peer : PeerId) (c : CID M) (sel : bytes) (x : list Extension) (cb : Callback) (e : Env) (w : W) : Prop :=
  ∃ ctx l p ep i, recorded c sel x cb w ctx l ∧ 0 < request_id ctx ∧
    peers_ (network_ w) !! peer = Some p ∧ closed_ p = false ∧ requests_endpoint_ p = Some ep ∧
    write_fails (closedW e) (body ctx) ep (queues p) = true ∧
    self (impl w) ∈ live e p ∧ i ∈ local_request_ids_ p ∧ is_Some (getRequestRootCid i l).

Lemma lock_result {A} (m : G A) e (w : W) : locked (impl w) = false → g_result (with_lock m e w) = g_result (m e (lock_of true w)).
Proof. intros Hl. unfold with_lock. rewrite Hl. fold (lock_of true w). by destruct (m e (lock_of true w)) as [[[a|[]] w1] ev]. Qed.

Lemma reject_result cb e (w : W) : ∃ sub, g_result ((reject cb : G _) e w) = success sub.
Proof. destruct (reject_eq (S:=S) (F:=net_effect M) cb e w) as (sub & l & ev & -> & _). by eexists. Qed.

Lemma known_reject c cb e (w : W) : g_result ((_ ← log_cid toString c; reject cb : G _) e w) ≠ failure Deadlock.
Proof.
  unfold log_cid. destruct (is_success (toString c)); [|done]. erewrite bind_quiet by reflexivity.
  destruct (reject_result cb e w) as [sub ->]. done.
Qed.

Lemma new_request_throws {A} c sel x cb e (w : W) r g l ev (k : NewRequest → G A) :
  newRequest c sel x cb (reqgenerator_ w) (local_requests_ (impl w)) = (r, g, l, ev) → (∀ ctx, r ≠ returned ctx) →
  g_result ((ctx ← new_request c sel x cb; k ctx) e w) = failure Exception.
Proof.
  intros Hn Hr. unfold mbind at 1, gact_bind at 1. assert (∃ w1 tr, (new_request c sel x cb : G _) e w = (failure Exception, w1, tr)) as (w1 & tr & ->); [|done].
  unfold new_request. rewrite Hn. set (w1 := mkWorld _ _ _). destruct (local_calls_run (F:=net_effect M) (S:=S) ev e w1) as (tr & Hlc & _).
  rewrite (g_bind_eq _ _ _ _ _ _ _ Hlc). destruct r; [by destruct (Hr a)|by do 2 eexists..].
Qed.

(** What is sent, and when the call reenters. *)
Lemma sent_hits me roots (sent : list (net_effect M)) (P : RequestId → Prop) :
  (∀ j, (∃ q st x, Peer q (OnResponse me j st x) ∈ sent) ↔ P j) → Exists (hits me roots) sent ↔ ∃ j, P j ∧ is_Some (roots !! j).
Proof.
  intros Hans. rewrite Exists_exists. unfold hits. setoid_rewrite <- Hans. naive_solver.
Qed.

Lemma reenters_iff peer c sel x cb e (w : W) ctx l : recorded c sel x cb w ctx l →
  0 < request_id ctx ∧ (∃ j, answered_in_send e (body ctx) (context_for peer (network_ w)) (self (impl w)) j ∧ is_Some (request_to_cid_ l !! j)) ↔
  reenters peer c sel x cb e w.
Proof.
  intros Hrec. unfold answered_in_send, context_for. split.
  - intros (Hpos & j & (ep & Hep & Hw & Hfb & Hj) & Hroot). destruct (peers_ (network_ w) !! peer) as [p|] eqn:Hp; [destruct (closed_ p) eqn:Ho|];
      try discriminate Hep. by exists ctx, l, p, ep, j.
  - intros (ctx' & l' & p & ep & j & Hrec' & Hpos & Hp & Ho & Hep & Hw & Hfb & Hj & Hroot).
    destruct Hrec as (_ & _ & _ & g & ev & Hn), Hrec' as (_ & _ & _ & g' & ev' & Hn'). rewrite Hn in Hn'. simplify_eq.
    split; [done|]. exists j. rewrite Hp, Ho. split; [by exists ep|done].
Qed.

(** The body under the mutex, when the request is recorded. *)
Lemma record_and_send peer address c sel x cb e (w : W) ctx l g ev : locked (impl w) = true → g_started_ (impl w) = true →
  newRequest c sel x cb (reqgenerator_ w) (local_requests_ (impl w)) = (returned ctx, g, l, ev) →
  let sent := (makeRequest (M:=M) peer address (request_id ctx) (body ctx) (base_env e) (network_ w)).2 in
  (∀ q fb root c d, Peer q (OnBlock fb root c d) ∉ sent) →
  let r := g_result ((ctx ← new_request c sel x cb;
        n ← now_;
        _ ← g_modify (λ g, set_tracked (<[c := mkTracking IN_PROGRESS (request_id ctx) n n]> (tracked_requests_ g)) g);
        _ ← (if 0 <? request_id ctx then call_network toString (op_makeRequest peer address (request_id ctx) (body ctx)) else mret tt);
        mret (subscription ctx) : G _) e w) in
  let deadlocks := 0 < request_id ctx ∧ Exists (hits (self (impl w)) (request_to_cid_ l)) sent in
  (deadlocks ∧ r = failure Deadlock) ∨ (¬ deadlocks ∧ r = success (subscription ctx)).
Proof.
  intros Hl Hs Hn sent Hnb r deadlocks. subst r.
  assert (∃ tr, (new_request c sel x cb : G _) e w = (success ctx, mkWorld (set_local l (impl w)) (network_ w) g, tr)) as [tr Hnew].
  { unfold new_request. rewrite Hn. set (w1 := mkWorld _ _ _). destruct (local_calls_run (F:=net_effect M) (S:=S) ev e w1) as (tr & Hlc & _).
    rewrite (g_bind_eq _ _ _ _ _ _ _ Hlc). by eexists. }
  rewrite (g_bind_eq _ _ _ _ _ _ _ Hnew). unfold g_result at 1 3. cbn [fst snd]. rewrite g_bind_now, g_bind_modify. set (w2 := mkWorld _ _ _).
  assert (holds (self (impl w)) (request_to_cid_ l) w2 ∧ network_ w2 = network_ w) as [Hh Hnet] by done. clearbody w2.
  destruct (Z.ltb_spec 0 (request_id ctx)) as [Hpos|Hpos].
  2: { right. split; [intros [? _]; lia|]. by rewrite (g_bind_eq _ _ _ _ tt w2 []) by done. }
  unfold call_network. cbn [op_makeRequest network_ops]. subst deadlocks sent.
  unfold mbind at 1 3, gact_bind at 1 3. rewrite Hnet.
  destruct (makeRequest peer address (request_id ctx) (body ctx) (base_env e) (network_ w)) as [[[] n'] sent]. cbn [snd] in *.
  set (w3 := mkWorld _ n' _). assert (holds (self (impl w)) (request_to_cid_ l) w3) as Hh3 by (by destruct Hh).
  pose proof (dispatch_held toString (self (impl w)) (request_to_cid_ l) sent e w3 Hh3 Hnb) as Hd. clearbody w3.
  unfold mbind, gact_bind, g_result in *. destruct ((dispatch toString sent : G unit) e w3) as [[[[]|s] w4] ev4]; cbn in *; naive_solver.
Qed.

(** C5: exactly when [makeRequest] locks its own mutex twice.  In any state of the node
    with the mutex free, over a network in any state that keeps its invariant (as
    all its runs do), for any peer and request, the call is stuck if and only if the
    request is recorded, its write on the open context of the peer fails at once (the
    outbound buffers overflow, or the stream, with no write in flight, has been
    closed for writing), and the context, which closes with the mutex held, awaits a
    request whose root CID the object knows and has the object among its live
    feedback objects: [onResponse] then locks the mutex on the same thread.  Every
    other request that is recorded gets its subscription. *)
Theorem make_request_deadlock peer address c sel x cb e (w : W) : NetInv (network_ w) → locked (impl w) = false →
  let r := g_result ((g_makeRequest toString peer address c sel x cb : G _) e w) in
  (r = failure Deadlock ↔ reenters peer c sel x cb (base_env e) w) ∧
  ∀ ctx l, recorded c sel x cb w ctx l → ¬ reenters peer c sel x cb (base_env e) w → r = success (subscription ctx).
Proof.
  intros HN Hl r. subst r. unfold g_makeRequest. rewrite g_bind_get.
  assert (∀ r : outcome stuck (option Z), (∀ ctx l, ¬ recorded c sel x cb w ctx l) → r ≠ failure Deadlock →
    (r = failure Deadlock ↔ reenters peer c sel x cb (base_env e) w) ∧
    ∀ ctx l, recorded c sel x cb w ctx l → ¬ reenters peer c sel x cb (base_env e) w → r = success (subscription ctx)) as Hno.
  { intros r Hrec Hr. split; [|by intros ctx l Hx%Hrec]. split; [done|]. by intros (ctx & l & p & ep & i & Hx%Hrec & _). }
  destruct (g_started_ (impl w)) eqn:Hs.
  2: { rewrite (g_bind_eq _ _ _ _ false w []) by done. cbn [negb]. destruct (reject_result cb e w) as [sub Hr].
       apply Hno; [intros ctx l (Hx & _); congruence|]. unfold g_result in *. cbn [fst]. by rewrite Hr. }
  destruct (started_ (network_ w)) eqn:Hn.
  2: { erewrite g_bind_call by (unfold op_canSendRequest, network_ops, canSendRequest; erewrite net_bind_quiet by reflexivity; rewrite Hn; reflexivity).
       cbn [negb]. destruct (reject_result cb e (mkWorld (impl w) (network_ w) (reqgenerator_ w))) as [sub Hr].
       apply Hno; [intros ctx l (_ & Hx & _); congruence|]. by rewrite Hr. }
  destruct (canSendRequest_context (M:=M) peer (base_env e) (network_ w) Hn) as (n1 & Hcan & Hn1 & Hp1).
  erewrite g_bind_call by exact Hcan. cbn [negb]. rewrite lock_result by done. set (w1 := lock_of true _). rewrite g_bind_get.
  change (tracked_requests_ (impl w1)) with (tracked_requests_ (impl w)). case_bool_decide as Htr.
  { apply Hno; [by intros ctx l (_ & _ & Hx & _)|]. apply known_reject. }
  destruct (newRequest c sel x cb (reqgenerator_ w) (local_requests_ (impl w))) as [[[res g] l] ev] eqn:Hnew.
  destruct res as [ctx|err|].
  2-3: apply Hno; [intros ctx' l' (_ & _ & _ & g' & ev' & Hx); congruence|]; by erewrite new_request_throws.
  destruct (makeRequest_answers peer address (request_id ctx) (body ctx) (base_env e) n1 (context_for peer (network_ w)) Hn1 Hp1) as [Hnb Hans].
  { unfold context_for. destruct (peers_ (network_ w) !! peer) as [p|] eqn:Hp; [destruct (closed_ p)|]; try apply inv_new_PeerContext. by apply (ni_peers _ HN _ _ Hp). }
  { apply context_for_open. }
  pose proof (record_and_send peer address c sel x cb e w1 ctx l g ev eq_refl Hs Hnew Hnb) as Hr. cbv zeta in Hr.
  change (network_ w1) with n1 in Hr. change (self (impl w1)) with (self (impl w)) in Hr.
  assert (recorded c sel x cb w ctx l) as Hrec by (split_and!; try done; by exists g, ev).
  assert (0 < request_id ctx ∧ Exists (hits (self (impl w)) (request_to_cid_ l)) (makeRequest (M:=M) peer address (request_id ctx) (body ctx) (base_env e) n1).2
    ↔ reenters peer c sel x cb (base_env e) w) as Hiff.
  { rewrite (sent_hits _ _ _ _ (Hans (self (impl w)))). by apply (reenters_iff peer c sel x cb (base_env e) w ctx l). }
  rewrite Hiff in Hr. split.
  - destruct Hr as [[H1 H2]|[H1 H2]]; [by split|]. split; [intros Hx; rewrite H2 in Hx; done|intros Hx; by destruct (H1 Hx)].
  - intros ctx' l' (_ & _ & _ & g' & ev' & Hx) Hnr. assert (ctx' = ctx) as -> by congruence. by destruct Hr as [[H1 _]|[_ H2]].
Qed.

End reentry.

(** *** Witness *)

#[local] Existing Instance no_dag.

(** Request 1 was sent on stream 20 of the peer and is awaited. *)
Definition connected_world : World (M:=Cid.Sample.Multihash) (N:=Network) :=
  (node_run text_of (take 5 sample_calls) sample_start).1.2.

(** The calls its network got. *)
Definition connected_calls : list (Env * net_op (M:=Cid.Sample.Multihash)) :=
  (λ o, (sample_env, o)) <$>
  [N_start 1;
   N_makeRequest peer_one None 1 (body (match newRequest (Cid.Sample.cid_v1 5) [] [] 10 new_RequestIdGenerator new_LocalRequests with
     | (returned ctx, _, _, _) => ctx | _ => mkNewRequest None 0 None end));
   N_context peer_one (H_streamConnected (Some 20)); N_context peer_one (H_windowAdjusted 20 true);
   N_context peer_one (H_written 20 (success 2))].

(** What [newRequest] gives for the second request. *)
Definition second : attempt Error NewRequest * RequestIdGenerator * LocalRequests Cid.Sample.Multihash * list local_event :=
  newRequest (Cid.Sample.cid_v1 6) [] [] 11 (reqgenerator_ connected_world) (local_requests_ (impl connected_world)).
Definition second_request : NewRequest := match second.1.1.1 with returned ctx => ctx | _ => mkNewRequest None 0 None end.

Definition env_with (cw : StreamPtr → bool) : Env := mkEnv 1000 cw (λ _, true).
Definition peer_context : PeerContext := default (new_PeerContext []) (peers_ (network_ connected_world) !! peer_one).
Definition peer_endpoint : OutboundEndpoint := default new_OutboundEndpoint (requests_endpoint_ peer_context).

(** The second request is stuck when the stream has been closed for writing, unless
    it is for another peer; and returns when the stream is open. *)
Lemma make_request_deadlock_witness :
  let again peer cw := g_result (g_makeRequest text_of peer None (Cid.Sample.cid_v1 6) [] [] 11 (mkGEnv (env_with cw) tt) connected_world) in
  again peer_one (λ _, true) = failure Deadlock ∧ again [7] (λ _, true) = success (Some 2) ∧ again peer_one (λ _, false) = success (Some 2).
Proof.
  assert (NetInv (network_ connected_world)) as HN.
  { assert (network_ connected_world = (net_run connected_calls new_Network).1) as -> by (vm_compute; reflexivity). apply netinv_run, netinv_new. }
  assert (recorded (Cid.Sample.cid_v1 6) [] [] 11 connected_world second_request second.1.2) as Hrec.
  { split; [vm_compute; reflexivity|]. split; [vm_compute; reflexivity|]. split; [vm_compute; discriminate|].
    exists second.1.1.2, second.2. assert (match second.1.1.1 with returned _ => True | _ => False end) as Hok by (vm_compute; exact I).
    change (newRequest _ _ _ _ _ _) with second. revert Hok. unfold second_request. generalize second.
    intros [[[[ctx| |] g] l] ev] Hok; [reflexivity|contradiction..]. }
  assert (subscription second_request = Some 2) as <- by (vm_compute; reflexivity).
  pose proof (λ peer cw, make_request_deadlock text_of peer None (Cid.Sample.cid_v1 6) [] [] 11 (mkGEnv (env_with cw) tt)
    connected_world HN eq_refl) as Hd.
  split; [|split].
  - apply (Hd peer_one). exists second_request, second.1.2, peer_context, peer_endpoint, 1. split; [exact Hrec|].
    split; [vm_compute; reflexivity|]. split; [vm_compute; reflexivity|]. split; [vm_compute; reflexivity|].
    split; [vm_compute; reflexivity|]. split; [vm_compute; reflexivity|]. split; [vm_compute; left|].
    split; [apply (bool_decide_unpack _); vm_compute; exact I|]. eexists. vm_compute. reflexivity.
  - refine (proj2 (Hd [7] _) _ _ Hrec _). intros (ctx & l & p & ep & i & _ & _ & Hp & _).
    assert (is_Some (peers_ (network_ connected_world) !! ([7] : PeerId)) → False) as Hno by (vm_compute; intros [? Hx]; discriminate Hx).
    apply Hno. by exists p.
  - refine (proj2 (Hd peer_one _) _ _ Hrec _).
    intros (ctx & l & p & ep & i & (_ & _ & _ & g & ev & Hn) & _ & Hp & _ & Hep & Hw & _).
    assert (p = peer_context) as -> by (unfold peer_context; by rewrite Hp).
    assert (ep = peer_endpoint) as -> by (unfold peer_endpoint; by rewrite Hep).
    assert (ctx = second_request) as -> by (unfold second_request, second; by rewrite Hn).
    vm_compute in Hw. discriminate Hw.
Defined.
