(* ===== verification/Errors.v ===== *)
(** The error categories: every [OUTCOME_CPP_DEFINE_CATEGORY_3] of the sources,
    [codec/*/*_errors.*], [common/*.cpp], [primitives/cid/*], [ipfs_lite/**].

    A [std::error_code] is the value of an enumerator and its category; it converts
    to [false] when the value is 0, and its message is what the category's function
    returns for the value.  [None] is the end of a function that returns nothing. *)
From stdpp Require Import base list gmap strings.
From S2P Require Import Prelude Rle Bytes Cid CborBuffering Cbor CborDecode Datastore Status.

Open Scope Z_scope.

(** A category: the values of its enumerators, by name, and the messages. *)
Record Category := mkCategory {
  category_name : string;
  enumerators : list (string * Z);
  toString : Z → option string
}.

Definition RLEPlusDecodeError_message (e : Z) : option string :=
  match e with
  | 1 => Some "RLE+ data header has invalid version"
  | 2 => Some "RLE+ incorrect structure"
  | 3 => Some "RLE+ invalid encoding"
  | 4 => Some "RLE+ object size too large"
  | _ => Some "RLE+ unknown error"
  end%string.

Definition CborEncodeError_message (e : Z) : option string :=
  match e with
  | 1 => Some "Invalid CID"
  | 2 => Some "Expected map value single"
  | _ => Some "Unknown error"
  end%string.

Definition CborDecodeError_message (e : Z) : option string :=
  match e with
  | 1 => Some "Invalid CBOR"
  | 2 => Some "Wrong type"
  | 3 => Some "Int overflow"
  | 4 => Some "Invalid CBOR CID"
  | 5 => Some "Invalid CID"
  | 6 => Some "Wrong size"
  | _ => Some "Unknown error"
  end%string.

Definition CborResolveError_message (e : Z) : option string :=
  match e with
  | 1 => Some "Int key expected"
  | 2 => Some "Key not found"
  | 3 => Some "Container expected"
  | 4 => Some "Int key too big"
  | _ => Some "Unknown error"
  end%string.

Definition rocksdbError_message (e : Z) : option string :=
  match e with
  | 0 => Some "success"
  | 3 => Some "operation is not supported"
  | 2 => Some "data corruption"
  | 4 => Some "invalid argument"
  | 5 => Some "IO error"
  | 1 => Some "not found"
  | _ => Some "unknown error"
  end%string.

Definition IpfsDatastoreError_message (e : Z) : option string :=
  match e with
  | 1 => Some "IpfsDatastoreError: cid not found"
  | _ => Some "unknown error"
  end%string.

Definition GraphsyncImpl_Error_message (e : Z) : option string :=
  match e with
  | 0 => Some "The Request was not found, it has either been cleaned up or did not exist to begin with."
  | _ => Some "Unknown error"
  end%string.

Definition graphsync_Error_message (e : Z) : option string :=
  match e with
  | 2 => Some "message parse error"
  | 1 => Some "message size out of bounds"
  | 3 => Some "message validation failed"
  | 4 => Some "message serialize error"
  | 5 => Some "stream is not readable"
  | 6 => Some "message read error"
  | 7 => Some "stream is not writable"
  | 8 => Some "write queue overflow"
  | 9 => Some "message write error"
  | _ => Some "unknown error"
  end%string.

Definition ServiceError_message (e : Z) : option string :=
  match e with
  | 1 => Some "MerkleDAG service: broken link"
  | _ => Some "MerkleDAG Node: unknown error"
  end%string.

Definition LeafError_message (e : Z) : option string :=
  match e with
  | 1 => Some "MerkleDAG leaf: children leaf not found"
  | 2 => Some "MerkleDAG leaf: duplicate leaf name"
  | _ => Some "MerkleDAG leaf: unknown error"
  end%string.

Definition IPLDNodeError_message (e : Z) : option string :=
  match e with
  | 1 => Some "MerkleDAG Node: link not exist"
  | 2 => Some "MerkleDAG Node: failed to deserialize from incorrect raw bytes"
  | _ => Some "MerkleDAG Node: unknown error"
  end%string.

Definition IPLDNodeDecoderPBError_message (error : Z) : option string :=
  match error with
  | 1 => Some "IPLD node Protobuf decoder: failed to deserialize from incorrect raw bytes"
  | _ => Some "IPLD node protobuf decoder: unknown error"
  end%string.

Definition UnhexError_message (e : Z) : option string :=
  match e with
  | 2 => Some "Input contains non-hex characters"
  | 1 => Some "Input contains odd number of characters"
  | _ => Some "Unknown error"
  end%string.

(** Nothing follows the [switch]. *)
Definition TodoError_message (e : Z) : option string :=
  match e with 1 => Some "Error"%string | _ => None end.

Definition CborBuffering_Error_message (e : Z) : option string := Some "CborBuffering::Error"%string.

Definition BlobError_message (e : Z) : option string :=
  match e with
  | 1 => Some "Input string has incorrect length, not matching the blob size"
  | _ => Some "Unknown error"
  end%string.

Definition JsonCodecError_message (e : Z) : option string :=
  match e with
  | 1 => Some "Source data is not json document"
  | 2 => Some "Failed to decode CID object"
  | _ => Some "Unknown error"
  end%string.

Definition CommCidError_message (e : Z) : option string :=
  match e with
  | 1 => Some "CommCid: multihash too short"
  | 2 => Some "CommCid: cannot read code from multihash"
  | 3 => Some "CommCid: cannot read length from multihash"
  | 4 => Some "CommCid: digest too long, supporting only <= 2^31-1"
  | 5 => Some "CommCid: message length does not match declared length"
  | 6 => Some "CommCid: incorrect hashing function for data commitment"
  | _ => Some "Piece: unknown error"
  end%string.

(** Enumerators that count from 1. *)
Definition numbered (names : list string) : list (string * Z) := zip names (seqZ 1 (Z.of_nat (length names))).

Definition categories : list Category := [
  mkCategory "RLEPlusDecodeError" (numbered ["VersionMismatch"; "DataIndexFailure"; "UnpackOverflow"; "MaxSizeExceed"])
    RLEPlusDecodeError_message;
  mkCategory "CborEncodeError" (numbered ["INVALID_CID"; "EXPECTED_MAP_VALUE_SINGLE"]) CborEncodeError_message;
  mkCategory "CborDecodeError"
    (numbered ["INVALID_CBOR"; "WRONG_TYPE"; "INT_OVERFLOW"; "INVALID_CBOR_CID"; "INVALID_CID"; "WRONG_SIZE"])
    CborDecodeError_message;
  mkCategory "CborResolveError" (numbered ["INT_KEY_EXPECTED"; "KEY_NOT_FOUND"; "CONTAINER_EXPECTED"; "INT_KEY_TOO_BIG"])
    CborResolveError_message;
  mkCategory "rocksdbError"
    [("OK", 0); ("NOT_FOUND", 1); ("CORRUPTION", 2); ("NOT_SUPPORTED", 3); ("INVALID_ARGUMENT", 4); ("IO_ERROR", 5); ("UNKNOWN", 1000)]
    rocksdbError_message;
  mkCategory "IpfsDatastoreError" [("NOT_FOUND", 1); ("UNKNOWN", 1000)] IpfsDatastoreError_message;
  mkCategory "GraphsyncImpl::Error" [("REQUEST_NOT_FOUND", 0)] GraphsyncImpl_Error_message;
  mkCategory "graphsync::Error"
    (numbered ["MESSAGE_SIZE_OUT_OF_BOUNDS"; "MESSAGE_PARSE_ERROR"; "MESSAGE_VALIDATION_FAILED"; "MESSAGE_SERIALIZE_ERROR";
       "STREAM_NOT_READABLE"; "MESSAGE_READ_ERROR"; "STREAM_NOT_WRITABLE"; "WRITE_QUEUE_OVERFLOW"; "MESSAGE_WRITE_ERROR"])
    graphsync_Error_message;
  mkCategory "ServiceError" (numbered ["UNRESOLVED_LINK"]) ServiceError_message;
  mkCategory "LeafError" (numbered ["LEAF_NOT_FOUND"; "DUPLICATE_LEAF"]) LeafError_message;
  mkCategory "IPLDNodeError" (numbered ["LINK_NOT_FOUND"; "INVALID_RAW_DATA"]) IPLDNodeError_message;
  mkCategory "IPLDNodeDecoderPBError" (numbered ["INVALID_RAW_BYTES"]) IPLDNodeDecoderPBError_message;
  mkCategory "UnhexError" (numbered ["NOT_ENOUGH_INPUT"; "NON_HEX_INPUT"; "UNKNOWN"]) UnhexError_message;
  mkCategory "TodoError" (numbered ["ERROR"]) TodoError_message;
  mkCategory "CborBuffering::Error" (numbered ["INVALID_HEAD_TYPE"; "INVALID_HEAD_VALUE"]) CborBuffering_Error_message;
  mkCategory "BlobError" (numbered ["INCORRECT_LENGTH"]) BlobError_message;
  mkCategory "JsonCodecError" (numbered ["BAD_JSON"; "WRONG_CID_ARRAY_FORMAT"]) JsonCodecError_message;
  mkCategory "CommCidError"
    (numbered ["TOO_SHORT"; "CANT_READ_CODE"; "CANT_READ_LENGTH"; "DATA_TOO_BIG"; "DIFFERENT_LENGTH"; "INVALID_HASH"])
    CommCidError_message
]%string.

(** A [std::error_code]. *)
Record ErrorCode := mkErrorCode { error_category : Category; error_value : Z }.

Definition is_error (ec : ErrorCode) : bool := negb (error_value ec =? 0).
Definition what (ec : ErrorCode) : option string := toString (error_category ec) (error_value ec).

(** The enumerators that break a rule, as ["category::name"]. *)
Definition breaking (rule : Category → string * Z → bool) : list (string * string) :=
  c ← categories; (λ e, (category_name c, e.1)) <$> filter (λ e, rule c e = false) (enumerators c).

(** The value no enumerator has. *)
Definition unnamed : Z := 99.

Definition truthy (c : Category) (e : string * Z) : bool := is_error (mkErrorCode c e.2).
Definition described (c : Category) (e : string * Z) : bool := bool_decide (toString c e.2 ≠ toString c unnamed).
Definition told_apart (c : Category) (e : string * Z) : bool :=
  forallb (λ e', bool_decide (e.2 = e'.2) || bool_decide (toString c e.2 ≠ toString c e'.2)) (enumerators c).

(** The models of the components use these values. *)
Lemma model_values :
  (∀ e, RLEPlusDecodeError_message (RLEPlusDecodeError_code e) ≠ RLEPlusDecodeError_message unnamed) ∧
  (∀ e, CborEncodeError_message (CborEncodeError_code e) ≠ CborEncodeError_message unnamed) ∧
  (∀ e, CborDecodeError_message (CborDecodeError_code e) ≠ CborDecodeError_message unnamed) ∧
  (∀ e, CborResolveError_message (CborResolveError_code e) ≠ CborResolveError_message unnamed) ∧
  (∀ e, UnhexError_message (Hex.UnhexError_code e) = UnhexError_message unnamed ↔ e = Hex.UNKNOWN).
Proof. split_and!; intros []; try split; done. Qed.

(** A value that no enumerator of a category has gets the message for unknown
    ones. *)
Lemma unnamed_message c e : c ∈ categories → e ∉ (enumerators c).*2 → toString c e = toString c unnamed.
Proof.
  revert c. refine (proj1 (Forall_forall (λ c, e ∉ (enumerators c).*2 → toString c e = toString c unnamed) categories) _).
  unfold categories. repeat constructor; intros He; vm_compute in He;
    repeat (apply not_elem_of_cons in He as [? He]).
  all: destruct e as [|p|p]; try done; do 4 (try destruct p as [p|p|]; try done).
Qed.

(** The error codes.  Every enumerator of every category but two makes an error code
    that converts to [true]: [rocksdbError::OK], and the only error of
    [GraphsyncImpl], whose code no test of a [std::error_code] can tell from
    success.  Every enumerator has a message of its own, but the two of
    [CborBuffering] and those that stand for unknown errors; any other value gets
    its category's message for unknown errors, and in one category the function
    ends without a value. *)
Theorem error_codes :
  breaking truthy = [("rocksdbError", "OK"); ("GraphsyncImpl::Error", "REQUEST_NOT_FOUND")]%string ∧
  breaking told_apart = [("CborBuffering::Error", "INVALID_HEAD_TYPE"); ("CborBuffering::Error", "INVALID_HEAD_VALUE")]%string ∧
  breaking described = [("rocksdbError", "UNKNOWN"); ("IpfsDatastoreError", "UNKNOWN"); ("UnhexError", "UNKNOWN");
    ("CborBuffering::Error", "INVALID_HEAD_TYPE"); ("CborBuffering::Error", "INVALID_HEAD_VALUE")]%string ∧
  (∀ c e, c ∈ categories → (e ∉ (enumerators c).*2 → toString c e = toString c unnamed) ∧
    (toString c e = None ↔ category_name c = "TodoError"%string ∧ e ≠ 1)).
Proof.
  split; [by vm_compute|]. split; [by vm_compute|]. split; [by vm_compute|]. intros c e Hc. split; [by apply unnamed_message|].
  revert c Hc. refine (proj1 (Forall_forall (λ c, toString c e = None ↔ category_name c = "TodoError"%string ∧ e ≠ 1) categories) _).
  unfold categories. repeat (apply Forall_cons_2 || apply Forall_nil_2); cbn [toString category_name].
  all: split; [intros H; destruct e as [|p|p]; try done; do 4 (try destruct p as [p|p|]; try done)|].
  all: intros [Hn He]; try discriminate Hn; destruct e as [|[]|]; done.
Qed.
