(* ===== verification/Logger.v ===== *)
(** The loggers: [src/common/logger.cpp] and the functions that keep one.

    spdlog's registry is a parameter with the behaviour its documentation gives:
    [spdlog::get] finds the logger registered under a name, and
    [spdlog::stdout_color_mt] registers a new one and throws when the name is
    taken.  A logger is a shared pointer, so that its pattern is part of the
    registry. *)
From stdpp Require Import base gmap strings.
From S2P Require Import Prelude.

Class Spdlog (L R : Type) := {
  spdlog_get : string → R → option L;
  stdout_color_mt : string → R → option (L * R);
  set_pattern : L → string → R → R;
  pattern : L → R → option string
}.

Class SpdlogLaws (L R : Type) `{!Spdlog L R} := {
  mt_free tag r : stdout_color_mt tag r = None ↔ is_Some (spdlog_get tag r);
  mt_get tag r l r' tag' : stdout_color_mt tag r = Some (l, r') →
    spdlog_get tag' r' = if decide (tag' = tag) then Some l else spdlog_get tag' r;
  mt_fresh tag r l r' tag' : stdout_color_mt tag r = Some (l, r') → spdlog_get tag' r ≠ Some l;
  mt_pattern tag r l r' l' : stdout_color_mt tag r = Some (l, r') → l' ≠ l → pattern l' r' = pattern l' r;
  pattern_get tag l p r : spdlog_get tag (set_pattern l p r) = spdlog_get tag r;
  pattern_set l p r tag : spdlog_get tag r = Some l → pattern l (set_pattern l p r) = Some p;
  pattern_other l l' p r : l' ≠ l → pattern l' (set_pattern l p r) = pattern l' r
}.

Section logger.
Context {L R : Type} `{!Spdlog L R}.

Definition setGlobalPattern (logger : L) : R → R := set_pattern logger "[%Y-%m-%d %H:%M:%S.%F] %n %v".
Definition setDebugPattern (logger : L) : R → R := set_pattern logger "[%Y-%m-%d %H:%M:%S.%F][th:%t][%l] %n %v".

(** [None]: the exception of [stdout_color_mt]. *)
Definition make_logger (tag : string) (debug_mode : bool) (r : R) : option (L * R) :=
  '(logger, r) ← stdout_color_mt tag r;
  Some (logger, if debug_mode then setDebugPattern logger r else setGlobalPattern logger r).

(** [sgns::common::createLogger]. *)
Definition createLogger (tag : string) (r : R) : option (L * R) :=
  match spdlog_get tag r with
  | Some logger => Some (logger, r)
  | None => make_logger tag true r
  end.

Context `{!SpdlogLaws L R}.

(** A logger is made once.  The call never throws; its logger is the one registered
    under the tag, with the debug pattern if it is new and untouched if it is not;
    every other tag keeps its logger and its pattern; and a second call gives the
    same logger and changes nothing. *)
Theorem logger_once tag r :
  ∃ l r', createLogger tag r = Some (l, r') ∧ spdlog_get tag r' = Some l ∧ createLogger tag r' = Some (l, r') ∧
    (if spdlog_get tag r then r' = r else pattern l r' = Some "[%Y-%m-%d %H:%M:%S.%F][th:%t][%l] %n %v"%string) ∧
    ∀ tag' l', tag' ≠ tag → spdlog_get tag' r = Some l' →
      spdlog_get tag' r' = Some l' ∧ pattern l' r' = pattern l' r.
Proof.
  unfold createLogger at 1. destruct (spdlog_get tag r) as [l|] eqn:Hg.
  { exists l, r. unfold createLogger. rewrite Hg. by split_and!. }
  unfold make_logger. destruct (stdout_color_mt tag r) as [[l r1]|] eqn:Hm.
  2: { apply mt_free in Hm as [l Hl]. by rewrite Hl in Hg. }
  assert (spdlog_get tag r1 = Some l) as Hl by (by rewrite (mt_get _ _ _ _ _ Hm), decide_True).
  exists l, (setDebugPattern l r1). unfold setDebugPattern, createLogger. rewrite !pattern_get, Hl. split_and!; try done.
  { by eapply pattern_set. }
  intros tag' l' Hne Hl'. rewrite pattern_get, (mt_get _ _ _ _ _ Hm), decide_False by done. split; [done|].
  assert (l' ≠ l) as Hne' by (intros ->; by apply (mt_fresh _ _ _ _ _ Hm) in Hl').
  by rewrite pattern_other, (mt_pattern _ _ _ _ _ Hm).
Qed.

End logger.

(** A registry: the patterns of the loggers, which are named by their tags. *)
#[local] Instance registry : Spdlog string (gmap string string) := {
  spdlog_get tag r := if decide (is_Some (r !! tag)) then Some tag else None;
  stdout_color_mt tag r := if decide (is_Some (r !! tag)) then None else Some (tag, <[tag := EmptyString]> r);
  set_pattern l p r := alter (λ _, p) l r;
  pattern l r := r !! l
}.

#[local] Instance registry_laws : SpdlogLaws string (gmap string string).
Proof.
  split; cbn.
  - intros tag r. by destruct (decide _).
  - intros tag r l r' tag' H. destruct (decide (is_Some (r !! tag))); [done|]. injection H as <- <-.
    destruct (decide (tag' = tag)) as [->|Hne]; [by rewrite lookup_insert_eq|by rewrite lookup_insert_ne].
  - intros tag r l r' tag' H. destruct (decide (is_Some (r !! tag))) as [|Hn]; [done|]. injection H as <- <-.
    destruct (decide (is_Some (r !! tag'))) as [Hs|]; [|done]. by intros [= ->].
  - intros tag r l r' l' H Hne. destruct (decide _); [done|]. injection H as <- <-. by rewrite lookup_insert_ne.
  - intros tag l p r. destruct (decide (tag = l)) as [->|Hne].
    + rewrite lookup_alter_eq. destruct (r !! l); repeat destruct (decide _); try done; naive_solver.
    + by rewrite lookup_alter_ne.
  - intros l p r tag H. destruct (decide (is_Some (r !! tag))) as [[x Hx]|]; [|done]. injection H as ->. by rewrite lookup_alter_eq, Hx.
  - intros l l' p r Hne. by rewrite lookup_alter_ne.
Qed.

(** Two calls for the tag of graphsync. *)
Example logger_sample :
  (r ← snd <$> createLogger "graphsync" (∅ : gmap string string); fst <$> createLogger "graphsync" r) = Some "graphsync"%string.
Proof. by vm_compute. Qed.
