(* ===== verification/Rpc.v ===== *)
(** The gRPC example: [src/ipfs_lite/ipfs_lite_server.cc] and
    [ipfs_lite_client.cc].

    The generated service, the server builder and the channel are gRPC's: the calls
    to them are the effects of the runs. *)
From stdpp Require Import base list sets strings.
From Stdlib Require String.
From S2P Require Import Prelude.

Open Scope Z_scope.

(** ** The client *)

Inductive client_event :=
| CreateChannel (target : string)
| Print (line : string).

Definition arg_str : string := "--target".

(** [std::string::find] and [operator[]], which gives a zero character at the end. *)
Definition find (needle s : string) : option nat := String.index 0 needle s.
Definition char_at (s : string) (n : nat) : Ascii.ascii := default Ascii.zero (String.get n s).
Definition substr (s : string) (pos : nat) : option string :=
  if Nat.ltb (String.length s) pos then None else Some (String.substring pos (String.length s - pos) s).

(** [target_str], or the message for which [main] ends. *)
Definition client_target (argv : list string) : attempt string string :=
  match tail argv with
  | arg_val :: _ =>
    match find arg_str arg_val with
    | Some start_pos =>
      let start_pos := (start_pos + String.length arg_str)%nat in
      if Ascii.eqb (char_at arg_val start_pos) (Ascii.ascii_of_nat 61) then
        match substr arg_val (start_pos + 1) with Some target_str => returned target_str | None => thrown end
      else failed "The only correct argument syntax is --target="%string
    | None => failed "The only acceptable argument is --target="%string
    end
  | [] => returned "localhost:50051"%string
  end.

(** [main]: always 0, unless an exception leaves it. *)
Definition client_main (argv : list string) : option Z * list client_event :=
  match client_target argv with
  | returned target_str => (Some 0, [CreateChannel target_str; Print "Greeter received: "])
  | failed message => (Some 0, [Print message])
  | thrown => (None, [])
  end.

(** ** The server *)

Inductive Method :=
| AddFile | GetFile | HasBlock | AddNode | AddNodes | GetNode | GetNodes | RemoveNode | RemoveNodes | ResolveLink | Tree.

Inductive Status := OK.

(** A handler gets the request or its stream, and the response or its stream, as
    the service made them, and leaves them as they are. *)
Definition rpc_handle {Req Resp : Type} (method : Method) (request : Req) (response : Resp) : Status * Resp :=
  match method with
  | AddFile => (OK, response)
  | GetFile => (OK, response)
  | HasBlock => (OK, response)
  | AddNode => (OK, response)
  | AddNodes => (OK, response)
  | GetNode => (OK, response)
  | GetNodes => (OK, response)
  | RemoveNode => (OK, response)
  | RemoveNodes => (OK, response)
  | ResolveLink => (OK, response)
  | Tree => (OK, response)
  end.

Inductive server_event :=
| EnableDefaultHealthCheckService
| InitProtoReflectionServerBuilderPlugin
| AddListeningPort (address : string)
| RegisterService
| BuildAndStart
| PrintListening (address : string)
| Wait.

Definition server_address : string := "0.0.0.0:50051".

(** [built]: whether [BuildAndStart] gave a server; it gives a null pointer when it
    cannot listen, and [server->Wait()] through one is undefined ([None]). *)
Definition RunServer (built : bool) : option () * list server_event :=
  let started := [EnableDefaultHealthCheckService; InitProtoReflectionServerBuilderPlugin; AddListeningPort server_address;
    RegisterService; BuildAndStart; PrintListening server_address] in
  if built then (Some tt, started ++ [Wait]) else (None, started).

(** ** Strings *)

Lemma append_cons c a b : String.append (String.String c a) b = String.String c (String.append a b).
Proof. done. Qed.

Lemma length_append a b : String.length (String.append a b) = (String.length a + String.length b)%nat.
Proof. induction a as [|c a IH]; [done|]. rewrite append_cons. cbn. by rewrite IH. Qed.

Lemma append_assoc a b c : String.append (String.append a b) c = String.append a (String.append b c).
Proof. induction a as [|x a IH]; [done|]. by rewrite !append_cons, IH. Qed.

Lemma substring_all b : String.substring 0 (String.length b) b = b.
Proof. induction b as [|c b IH]; [done|]. cbn. by rewrite IH. Qed.

Lemma substr_append a b : substr (String.append a b) (String.length a) = Some b.
Proof.
  unfold substr. rewrite length_append. replace (Nat.ltb _ _) with false by (symmetry; apply Nat.ltb_ge; lia).
  replace (String.length a + String.length b - String.length a)%nat with (String.length b) by lia.
  f_equal. induction a as [|c a IH]; [apply substring_all|exact IH].
Qed.

Lemma get_end a b : String.get (String.length a) (String.append a b) = String.get 0 b.
Proof. induction a as [|x a IH]; [done|exact IH]. Qed.

Lemma substring_found n x s : x ≠ EmptyString → String.substring n (String.length x) s = x →
  ∃ pre post, s = String.append pre (String.append x post) ∧ String.length pre = n.
Proof.
  intros Hx. revert s. induction n as [|n IH]; intros s Hs.
  - exists EmptyString. enough (∃ post, s = String.append x post) as [post ->] by (by exists post).
    clear Hx. revert s Hs. induction x as [|c x IH]; intros s Hs; [by exists s|]. destruct s as [|d s]; [done|].
    cbn in Hs. injection Hs as -> Hs. destruct (IH s Hs) as [post ->]. by exists post.
  - destruct s as [|d s]; [by destruct x|]. destruct (IH s Hs) as (pre & post & -> & <-). by exists (String.String d pre), post.
Qed.

Lemma append_inj a b c d : String.length a = String.length b → String.append a c = String.append b d → a = b ∧ c = d.
Proof.
  revert b. induction a as [|x a IH]; intros [|y b] Hl He; try done. rewrite !append_cons in He. injection He as -> He.
  injection Hl as Hl. by destruct (IH b Hl He) as [-> ->].
Qed.

(** ** The argument of the client *)

Lemma target_parsed argv :
  (∀ t, client_target argv = returned t ↔
     tail argv = [] ∧ t = "localhost:50051"%string ∨
     ∃ pre rest, tail argv = String.append pre (String.append "--target=" t) :: rest ∧
       find arg_str (String.append pre (String.append "--target=" t)) = Some (String.length pre)) ∧
  client_target argv ≠ thrown.
Proof.
  unfold client_target. destruct (tail argv) as [|arg_val rest]; [split; [|done]|].
  { intros t. split; [intros [= <-]; by left|]. intros [[_ ->]|(pre & rest & [=] & _)]. done. }
  destruct (find arg_str arg_val) as [n|] eqn:Hf.
  - pose proof (String.index_correct1 _ _ _ _ Hf) as Hs. apply substring_found in Hs as (pre & post & -> & <-); [|done].
    assert (String.append pre (String.append arg_str post) = String.append (String.append pre arg_str) post) as Ha by (by rewrite append_assoc).
    unfold char_at. rewrite <- length_append, Ha, get_end. rewrite Ha in Hf. destruct post as [|c post]; cbn [String.get] in *.
    + split; [|done]. intros t. split; [done|]. intros [[[=] _]|(pre' & rest' & [= He ->] & Hf')].
      rewrite <- He, Hf in Hf'. injection Hf' as Hl. apply (f_equal String.length) in He. rewrite !length_append in He. cbn in He. lia.
    + cbn [from_option]. unfold id. set (given := String.append (String.append pre arg_str) (String.String c post)) in *.
      assert (∀ pre' t, given = String.append pre' (String.append "--target=" t) → find arg_str given = Some (String.length pre') →
        c = Ascii.ascii_of_nat 61 ∧ t = post) as Hinv.
      { intros pre' t He Hf'. rewrite Hf in Hf'. injection Hf' as Hl. unfold given in He. rewrite !append_assoc in He.
        apply append_inj in He as [_ He]; [|done]. by injection He as -> ->. }
      destruct (Ascii.eqb_spec c (Ascii.ascii_of_nat 61)) as [->|Hc].
      * assert (substr given (String.length (String.append pre arg_str) + 1) = Some post) as ->.
        { pose proof (substr_append (String.append (String.append pre arg_str) "=") post) as H. rewrite length_append, append_assoc in H. exact H. }
        split; [|done]. intros t. split.
        -- intros [= <-]. right. exists pre, rest.
           assert (given = String.append pre (String.append "--target=" post)) as <- by (unfold given; by rewrite append_assoc). done.
        -- intros [[[=] _]|(pre' & rest' & [= He _] & Hf')]. rewrite <- He in Hf'. by destruct (Hinv _ _ He Hf') as [_ ->].
      * cbv iota. split; [|discriminate]. intros t. split; [done|]. intros [[[=] _]|(pre' & rest' & [= He _] & Hf')].
        rewrite <- He in Hf'. by destruct (Hinv _ _ He Hf').
  - split; [|done]. intros t. split; [done|]. intros [[[=] _]|(pre' & rest' & [= -> ->] & Hf')]. by rewrite Hf in Hf'.
Qed.

(** The target of the client is the default without an argument, or what follows
    the first ["--target"] of the first one, which an equals sign must follow.  What
    stands before it is not looked at, nor are further arguments; otherwise the
    client prints its usage.  It never reads behind the argument and always returns
    0. *)
Theorem client_arguments argv :
  (∀ t, client_target argv = returned t ↔
     tail argv = [] ∧ t = "localhost:50051"%string ∨
     ∃ pre rest, tail argv = String.append pre (String.append "--target=" t) :: rest ∧
       find arg_str (String.append pre (String.append "--target=" t)) = Some (String.length pre)) ∧
  (client_main argv).1 = Some 0 ∧
  (∀ t, client_target argv = returned t ↔ CreateChannel t ∈ (client_main argv).2).
Proof.
  destruct (target_parsed argv) as [Hp Ht]. split; [exact Hp|]. unfold client_main. clear Hp.
  split; [by destruct (client_target argv)|]. intros t. destruct (client_target argv); rewrite ?list_elem_of_cons; set_solver.
Qed.
